(* ===== verification/_CoqProject ===== *)
-Q . S2P
Prelude.v
GoStrings.v
Paging.v
Heap.v
Job.v
QueueSpec.v
InMemory.v
JobQueue.v
InMemoryQueue.v
MySQLTable.v
MySQLQueue.v
Model.v
Dispatcher.v
DispatcherQueue.v
FailureLog.v
Inspector.v
Activator.v
PrimaryBackup.v
MySQLNames.v
Worker.v
Config.v
DispatchStats.v
Repository.v
Routings.v
Descriptions.v
Server.v
Service.v
ServiceRunning.v
ServiceLocks.v
InMemoryService.v
ConfigSync.v
WebResponse.v
Web.v
MySQLService.v
Api.v
ApiRuns.v
SqlTemplates.v
Sql.v
SqlStatements.v
GenDoc.v
CommandLine.v
Callback.v
Listener.v
GenAuthors.v
