(* ===== verification/Prelude.v ===== *)
(** * Fireworq: a verification development

    Fireworq is a job queue: clients push jobs over HTTP, a dispatcher pops the
    jobs that are due and posts them to the URL of a worker, and completes each by
    the answer.  Queues live in MySQL tables, shared by the nodes of a cluster, or
    in memory.  This library models the Go code under src/ by executable
    definitions with the names of the source, and proves what makes it correct.

    ** Parts and how they interact

    - A _driver_ (src/jobqueue/inmemory, src/jobqueue/mysql) stores the jobs of
      one queue.  [QueueSpec] states what a driver promises: class [Impl] has the
      operations of jobqueue.Impl, class [ImplSpec] relates them to an abstract queue
      of waiting and grabbed jobs.  [InMemory] and [MySQLQueue] discharge it.
    - A _job queue_ (src/jobqueue) wraps a driver with statistics, log and the
      decision between deletion, permanent failure and retry.  [JobQueue] is proved
      against [ImplSpec] only.
    - A _dispatcher_ (src/dispatcher) pops jobs into a buffer, starts a goroutine
      per job within the limits of the queue, and completes the job.  [Dispatcher] is
      an executable step function over the program counters of its goroutines and its
      channels; [DispatcherQueue] composes it with a job queue.
    - The _activator_ (src/jobqueue/mysql/activator.go) elects the node that may
      pop.  [Activator] is a step function over a cluster of nodes; [PrimaryBackup]
      composes it with the driver: nodes that share the tables of a queue, with every
      statement of [Pop] and [Recover] a step of its own.
    - _Repositories_ (src/repository) hold the definitions of queues and routings.
      Class [Repositories] of [Repository] is their interface and [RepositoriesSpec]
      its contract, which both implementations meet.
    - The _service_ (src/service) runs the defined queues, routes pushed jobs and
      follows the revisions of the repositories.  [Service] is proved against
      [RepositoriesSpec] and the interface [QueueFactory] of the driver;
      [ConfigSync] interleaves the statements of several nodes, [ServiceLocks] the
      goroutines of one under the two locks of the service.  [Routings] adds the
      contract [RoutingSpec] of the routings and their cache.
    - The _API_ (src/web) serves requests by the service, the repositories and the
      running queues.  [WebResponse] is the buffering of responses, [Web] has every
      handler over the interface [QueueViews] of a running queue, [Api] follows
      sequences of requests over any repositories and driver that meet their
      contracts; [MySQLService] and [InMemoryService] instantiate the two drivers.
    - The _process_ (src/main.go, src/log, src/redisclient, src/web/server.go) sets
      all of this up and ends on a signal: [CommandLine], [Config], [Descriptions],
      [Server], [Listener].
    - The _SQL texts_ (src/jobqueue/mysql/sql.go, src/data/jobqueue/mysql) are what
      the MySQL driver sends.  [SqlTemplates] has the texts and fills them in, [Sql]
      lexes, parses and runs them on a database, and [SqlStatements] relates this to
      the functions on tables that the driver is modelled with.

    ** Files

    - [Prelude]: results of fallible calls, 64-bit and 32-bit integers with their
      wrap-around, orders and [sort.Slice], list lemmas, tactics and hint databases.
    - [GoStrings]: strings as lists of characters, decimal numbers, [strconv.Atoi],
      [strings.SplitN], base64 with its round trip.  [Paging]: the cursors of listings.
    - [Heap]: container/heap with its invariant.  [Job]: results, jobs, completed
      jobs, next information, the queue log (jobqueue/job.go, result.go, logger).
    - [QueueSpec]: the driver interface and the abstract queue.
    - [InMemory]: the in-memory driver, with jobs in a shared store because job
      pointers are aliased.  [JobQueue]: jobqueue.go and stats.go.
      [InMemoryQueue]: both together on concrete jobs.
    - [MySQLTable]: schemas and statements of src/data/jobqueue/mysql.
      [MySQLQueue]: jobqueue/mysql/jobqueue.go, job.go and primary_backup.go, with
      failing statements, other connections and a COMMIT that can be lost.
    - [Model]: model/model.go.  [Dispatcher], [DispatcherQueue]: dispatcher.go and
      kicker/polling.go.
    - [FailureLog], [Inspector]: listings of failed and of waiting jobs.
    - [Activator], [PrimaryBackup]: activator.go, primary_backup.go.  [MySQLNames]:
      names of tables and locks, nodes.
    - [Worker]: the HTTP worker.  [Config]: config/ and the startup of main.go.
    - [DispatchStats]: the Redis statistics of stats/.
    - [Repository], [Routings], [Service], [ServiceRunning], [ServiceLocks],
      [InMemoryService], [ConfigSync]: repositories and service as above;
      [ServiceRunning] has the arguments about every queue a service runs.
    - [Descriptions]: config/descriptions.go.  [Server]: the setup and the end of the
      process.
    - [WebResponse], [Web], [MySQLService], [Api], [ApiRuns]: the API as above;
      [ApiRuns] runs it on MySQL and has the witnesses.
    - [SqlTemplates], [Sql], [SqlStatements]: the SQL texts as above.
    - [CommandLine]: package flag and the arguments of main.go.  [Listener]: the
      sockets of web/server.go.  [Callback]: jobqueue/callback.go.
    - [GenDoc], [GenAuthors]: the scripts that print doc/config.md and AUTHORS.

    Go's [(T, error)] is [result], a panic is [None], a state is a record that is
    passed and returned.  What the environment decides is an argument: clock
    readings, outcomes of database calls, the order of rows, the steps of other
    nodes.  Third-party code is a parameter: encoding/json, net/http, net/url, the
    rate counter, the rate limiter (by its documentation), the precision of a FLOAT
    column.

    ** Theorems

    - Jobs: over any run of a client of a queue no job is lost or duplicated
      ([jobQueue_no_job_lost]), a job is attempted at most one more time than its
      retries ([jobQueue_attempts_bounded]), and [Complete] deletes or reschedules as
      it should; a dispatcher is such a client ([dispatcher_no_job_lost]).
    - Drivers: Pop, Push and Update refine the abstract queue; two connections
      never grab one job, whatever fails, as long as the COMMIT of the first takes
      effect; Recover returns orphans.  The witnesses run them on concrete queues.
    - SQL: the statements the MySQL driver sends have the results and the effects of
      the functions on tables, for every queue, all arguments and any order of rows
      ([sql_reads_agree], [sql_writes_agree]); Start makes or migrates the tables, or
      fails when their names are too long ([start_tables_correct]).
    - Dispatcher: order, bounds of buffer and workers, absence of deadlock on
      shutdown, termination of Stop, quiescence after it.
    - Cluster: at most one primary; a node recovers before it pops; nodes follow
      the repository ([nodes_follow_repository]) and run only queues with a sound
      throttle ([cluster_runs_valid_queues]) however their statements interleave and
      fail.
      On shared tables, whatever fails: the rows stay well formed
      ([cluster_tables_ok]), an accepted job is there until it is removed
      ([cluster_no_job_lost]), after a pop whose COMMIT took effect it is delivered
      again only after a retry or a recovery ([cluster_single_delivery]), which needs
      the lock, and a backup takes over with no job stuck ([cluster_failover]).
      [steps_are_operations] links the two models of the driver: the steps of a node in
      a row are its [Pop] and [Recover].
    - Service: delivery of pushes, validity of what runs, agreement with the
      repository after a tick; histories of a repository.  Under its locks, however
      requests, reloads and Stop interleave, no queue is used after it was stopped
      ([service_locking_safe]), and Stop ends ([service_Stop_ends]).
    - API: every response is well formed ([app_responses_well_formed]); a posted
      job reaches the queue of its routing ([job_follows_routing]) and can be inspected
      ([pushed_job_inspected]); definitions are put, got and deleted
      ([queue_put_get_delete]).
    - Process: what every command line comes to ([main_process_exits],
      [command_line_roundtrip]); a shutdown ends within its timeout ([Serve_deadline]).
    - Listings, cursors, worker, configuration, help text, statistics, list of
      authors: functional behaviour.
    - Error theorems state what goes wrong where the code has a flaw: a lost
      COMMIT, a silent failure log, pages that miss jobs, tables shared by two queues,
      definitions that are half written or never announced, a cache of routings that
      goes back in time, jobs dropped by a reload, statistics that overcount, a flag
      that is ignored, a negative limit that panics, a log that cannot be reopened, a
      name of a queue that makes Start panic.

    ** Bounds and fuel

    Recursion is structural wherever possible.  The heap sifts with as many
    rounds as the heap has elements, [Recover] loops with as many rounds as the table
    has rows plus one, decimal printing with as many rounds as the number has bits,
    and rewriting of names with as many rounds as bytes; the theorems on them show
    that this is enough.  The parser of SQL goes down to 64 nested expressions and
    reads lists of up to 32 columns or values; that the statements of the
    program parse, for every table name and list of placeholders, is part of the
    theorems on them.  Integers are kept at their width.

    ** Not modelled

    Which handler a request reaches is decided by gorilla/mux; net/http, the MySQL
    driver, the Redis client and the logging library are known by their outcomes
    only.  A call to MySQL that fails has had no effect, except that a COMMIT may be
    lost, the identifier of an inserted row may not be learnt, and, in [ConfigSync],
    any statement may have taken effect: a reply that is lost after the effect is not
    modelled for Push, Update and Recover of a queue.  [Service] takes Service.Push,
    which has two critical sections, as one operation; what can happen between them
    is the subject of [ServiceLocks].  The counter lastID of the in-memory driver is a
    package variable in the source and part of the state of the queue here; a service
    with several such queues passes it on through its world ([InMemoryService]).
    Whether the statements of Start succeed is an input of [MySQLService]; for the
    texts themselves [SqlStatements] says when they do.  The conformance suite of
    drivers (src/test) and the shell scripts are not part of the program. *)

From stdpp Require Export base list gmap strings sorting.
From Stdlib Require Export ZArith Lia.

#[export] Set Default Goal Selector "!".

Local Open Scope Z_scope.

(** ** Fallible Go calls

    A Go function returning [(T, error)] is modelled by [result E T]: either
    a value with a nil error, or a non-nil error. *)

Inductive result (E A : Type) : Type :=
| Ok (a : A)
| Err (e : E).
Arguments Ok {E A} a.
Arguments Err {E A} e.

Declare Scope go_scope.
Delimit Scope go_scope with go.

Definition rbind {E A B} (r : result E A) (k : A -> result E B) : result E B :=
  match r with Ok a => k a | Err e => Err e end.

Notation "'let*' x := r 'in' k" := (rbind r (fun x => k))
  (at level 10, x name, r at level 100, k at level 200) : go_scope.

Definition is_ok {E A} (r : result E A) : bool :=
  match r with Ok _ => true | Err _ => false end.

Lemma rbind_ok {E A B} (r : result E A) (k : A -> result E B) b :
  rbind r k = Ok b <-> exists a, r = Ok a /\ k a = Ok b.
Proof. destruct r; simpl; naive_solver. Qed.

Lemma rbind_err {E A B} (r : result E A) (k : A -> result E B) e :
  rbind r k = Err e <-> r = Err e \/ exists a, r = Ok a /\ k a = Err e.
Proof. destruct r; simpl; naive_solver. Qed.

(** ** Machine integers

    [uint] and [uint64] are 64-bit, [int] and [int64] are 64-bit two's
    complement (the released binaries are 64-bit).  Values are kept as [Z],
    and every operation that can leave the range is wrapped where the code
    performs it. *)

Definition u64_max : Z := 18446744073709551615.
Definition i64_max : Z := 9223372036854775807.
Definition i64_min : Z := -9223372036854775808.
Definition u32_max : Z := 4294967295.

Definition u64 (z : Z) : Z := z mod 18446744073709551616.
Definition i64 (z : Z) : Z :=
  (z + 9223372036854775808) mod 18446744073709551616 - 9223372036854775808.

Definition is_u64 (z : Z) : Prop := 0 <= z <= u64_max.
Definition is_u32 (z : Z) : Prop := 0 <= z <= u32_max.
Definition is_i64 (z : Z) : Prop := i64_min <= z <= i64_max.

#[export] Instance is_u64_dec z : Decision (is_u64 z).
Proof. unfold is_u64. apply _. Defined.
#[export] Instance is_u32_dec z : Decision (is_u32 z).
Proof. unfold is_u32. apply _. Defined.
#[export] Instance is_i64_dec z : Decision (is_i64 z).
Proof. unfold is_i64. apply _. Defined.

Create HintDb word.

Ltac unfold_word :=
  unfold is_u64, is_u32, is_i64, u64, i64,
    u64_max, u32_max, i64_max, i64_min in *.

Ltac word := unfold_word; Z.div_mod_to_equations; lia.

Lemma u64_range z : is_u64 (u64 z).
Proof. word. Qed.

Lemma i64_range z : is_i64 (i64 z).
Proof. word. Qed.

Lemma u64_id z : is_u64 z -> u64 z = z.
Proof. word. Qed.

Lemma i64_id z : is_i64 z -> i64 z = z.
Proof. word. Qed.

Lemma u64_neg z : - 18446744073709551616 <= z < 0 -> u64 z = z + 18446744073709551616.
Proof. intros Hz. unfold u64. symmetry. apply (Z.mod_unique_pos _ _ (-1)); lia. Qed.

Lemma u64_i64 z : u64 (i64 z) = u64 z.
Proof. word. Qed.

Lemma i64_u64 z : i64 (u64 z) = i64 z.
Proof. word. Qed.

Lemma u64_add_l a b : u64 (u64 a + b) = u64 (a + b).
Proof. unfold u64. apply Zplus_mod_idemp_l. Qed.

#[export] Hint Resolve u64_range i64_range : word.
#[export] Hint Rewrite u64_i64 i64_u64 u64_add_l : word.

(** ** Time

    [time.Now().UnixNano() / int64(time.Millisecond)] is the only way the
    code reads the clock for scheduling, except for [time.Time] values; the
    clock reading is an argument of the operation, in milliseconds. *)

Definition ms_per_s : Z := 1000.
Definition ns_per_ms : Z := 1000000.
Definition ns_per_s : Z := 1000000000.

(** ** Strict weak orders and sorting

    [sort.Slice] and [container/heap] both work from a [Less] function. *)

Class LessOrder {A} (less : A -> A -> bool) : Prop := {
  less_asym a b : less a b = true -> less b a = false;
  less_ntrans a b c : less b a = false -> less c b = false -> less c a = false;
}.

(** [a] may precede [b] in the order of [less]. *)
Definition leq {A} (less : A -> A -> bool) (a b : A) : Prop := less b a = false.

#[export] Instance leq_dec {A} (less : A -> A -> bool) : RelDecision (leq less).
Proof. intros a b. unfold leq. apply _. Defined.

Section order.
Context {A : Type} (less : A -> A -> bool) `{!LessOrder less}.

Lemma leq_refl a : leq less a a.
Proof.
  unfold leq. destruct (less a a) eqn:E; [|done].
  by rewrite (less_asym _ _ E) in E.
Qed.

Lemma leq_trans a b c : leq less a b -> leq less b c -> leq less a c.
Proof. unfold leq. intros. by apply less_ntrans with b. Qed.

Lemma leq_total a b : leq less a b \/ leq less b a.
Proof.
  unfold leq. destruct (less b a) eqn:E; [|by left].
  right. by apply less_asym.
Qed.

Lemma less_leq a b : less a b = true -> leq less a b.
Proof. apply less_asym. Qed.

#[export] Instance leq_preorder : PreOrder (leq less).
Proof. split; [intros a; apply leq_refl | intros a b c; apply leq_trans]. Qed.

#[export] Instance leq_trans_inst : Transitive (leq less).
Proof. intros a b c; apply leq_trans. Qed.
End order.

#[export] Hint Resolve leq_refl leq_trans less_leq : order.

(** Ordering by an integer key. *)
Definition key_less {A} (key : A -> Z) (a b : A) : bool := key a <? key b.

#[export] Instance key_less_order {A} (key : A -> Z) : LessOrder (key_less key).
Proof. split; unfold key_less; intros; lia. Qed.

(** Ordering lexicographically by a pair of integer keys. *)
Definition lex_less {A} (k1 k2 : A -> Z) (a b : A) : bool :=
  (k1 a <? k1 b) || ((k1 a =? k1 b) && (k2 a <? k2 b)).

#[export] Instance lex_less_order {A} (k1 k2 : A -> Z) : LessOrder (lex_less k1 k2).
Proof. split; unfold lex_less; intros; lia. Qed.

(** The reversed order. *)
Definition flip_less {A} (less : A -> A -> bool) (a b : A) : bool := less b a.

#[export] Instance flip_less_order {A} (less : A -> A -> bool) :
  LessOrder less -> LessOrder (flip_less less).
Proof.
  intros [Ha Hn]. split; unfold flip_less; [eauto|].
  intros a b c H1 H2. by apply (Hn c b a).
Qed.

(** [sort.Slice]: a concrete stable sort.  The Go function is not stable, but
    the code only sorts slices whose initial order is itself arbitrary (the
    order in which a storage engine returns rows, or the iteration order of a
    map), which is a parameter of the model, so every outcome is covered. *)
Fixpoint sort_insert {A} (less : A -> A -> bool) (x : A) (l : list A) : list A :=
  match l with
  | [] => [x]
  | y :: l' => if less y x then y :: sort_insert less x l' else x :: y :: l'
  end.

Definition sort_slice {A} (less : A -> A -> bool) (l : list A) : list A :=
  foldr (sort_insert less) [] l.

Section sort.
Context {A : Type} (less : A -> A -> bool) `{!LessOrder less}.

Lemma sort_insert_perm x l : sort_insert less x l ≡ₚ x :: l.
Proof.
  induction l as [|y l IH]; simpl; [done|].
  destruct (less y x); [|done].
  rewrite IH. constructor.
Qed.

Lemma sort_slice_perm l : sort_slice less l ≡ₚ l.
Proof.
  induction l as [|x l IH]; simpl; [done|].
  by rewrite sort_insert_perm, IH.
Qed.

Lemma sort_insert_sorted x l :
  StronglySorted (leq less) l -> StronglySorted (leq less) (sort_insert less x l).
Proof.
  induction 1 as [|y l Hs IH Hy]; simpl; [by repeat constructor|].
  destruct (less y x) eqn:E; constructor; auto.
  - rewrite sort_insert_perm. constructor; [|done].
    by apply less_leq.
  - by constructor.
  - constructor; [done|].
    eapply Forall_impl; [exact Hy|]. intros z Hz.
    eapply leq_trans; eauto.
Qed.

Lemma sort_slice_sorted l : StronglySorted (leq less) (sort_slice less l).
Proof.
  induction l as [|x l IH]; simpl; [constructor|].
  by apply sort_insert_sorted.
Qed.

Lemma sort_slice_length l : length (sort_slice less l) = length l.
Proof. by rewrite sort_slice_perm. Qed.

Lemma elem_of_sort_slice x l : x ∈ sort_slice less l <-> x ∈ l.
Proof. by rewrite sort_slice_perm. Qed.

(** The order of the input does not matter when no two elements tie. *)
Lemma sort_slice_unique l k :
  (forall x y, x ∈ l -> y ∈ l -> leq less x y -> leq less y x -> x = y) -> l ≡ₚ k ->
  sort_slice less l = sort_slice less k.
Proof.
  intros Hanti Hp. eapply (StronglySorted_unique_strong (leq less)); [|apply sort_slice_sorted..|by rewrite !sort_slice_perm].
  intros x y Hx Hy. apply Hanti; [by apply elem_of_sort_slice|]. rewrite Hp. by apply elem_of_sort_slice.
Qed.
End sort.

(** ** Lists *)

Section lists.
Context {A : Type}.
Implicit Types l : list A.

Lemma StronglySorted_take (R : relation A) n l :
  StronglySorted R l -> StronglySorted R (take n l).
Proof.
  intros H. revert n. induction H as [|x l Hs IH Hx]; intros [|n]; simpl;
    constructor; auto.
  by apply Forall_take.
Qed.

Lemma StronglySorted_app_inv (R : relation A) l1 l2 x y :
  StronglySorted R (l1 ++ l2) -> x ∈ l1 -> y ∈ l2 -> R x y.
Proof.
  induction l1 as [|z l1 IH]; simpl; intros Hs Hx Hy; [by apply elem_of_nil in Hx|].
  inversion Hs as [|? ? Hs' Hz]; subst.
  apply elem_of_cons in Hx as [->|Hx]; [|by apply IH].
  rewrite Forall_forall in Hz. apply Hz, elem_of_app. by right.
Qed.

(** The first [n] elements of a sorted list precede the others. *)
Lemma StronglySorted_take_drop (R : relation A) n l x y :
  StronglySorted R l -> x ∈ take n l -> y ∈ drop n l -> R x y.
Proof.
  intros Hs. rewrite <- (take_drop n l) in Hs. by apply StronglySorted_app_inv.
Qed.
End lists.

Lemma StronglySorted_impl {A} (R1 R2 : relation A) (l : list A) :
  (forall x y, R1 x y -> R2 x y) -> StronglySorted R1 l -> StronglySorted R2 l.
Proof.
  intros H. induction 1 as [|x l Hs IH Hx]; constructor; [done|].
  by eapply Forall_impl; [exact Hx|]; intros; apply H.
Qed.

(** ** Slices by an integer bound

    [LIMIT n] and [l[:n]] with a 64-bit [n]: recursion on the list, so that a
    large bound computes. *)
Fixpoint takeZ {A} (n : Z) (l : list A) : list A :=
  match l with
  | [] => []
  | x :: l' => if n <=? 0 then [] else x :: takeZ (n - 1) l'
  end.

Section takeZ.
Context {A : Type}.
Implicit Types l : list A.

Lemma takeZ_take n l : takeZ n l = take (Z.to_nat n) l.
Proof.
  revert n. induction l as [|x l IH]; intros n; simpl; [by rewrite take_nil|].
  destruct (Z.leb_spec n 0) as [Hn|Hn].
  - by replace (Z.to_nat n) with 0%nat by lia.
  - replace (Z.to_nat n) with (S (Z.to_nat (n - 1))) by lia. simpl. by rewrite IH.
Qed.

Lemma takeZ_length n l : 0 <= n -> Z.of_nat (length (takeZ n l)) <= n.
Proof. intros. rewrite takeZ_take, length_take. lia. Qed.

Lemma takeZ_all n l : Z.of_nat (length l) <= n -> takeZ n l = l.
Proof. intros. rewrite takeZ_take. apply take_ge. lia. Qed.

Lemma takeZ_sublist n l : takeZ n l `sublist_of` l.
Proof. rewrite takeZ_take. apply sublist_take. Qed.

Lemma elem_of_takeZ n l x : x ∈ takeZ n l -> x ∈ l.
Proof. rewrite takeZ_take. apply subseteq_take. Qed.
End takeZ.

(** Split every conjunction and existential of the context. *)
Ltac destruct_all :=
  repeat match goal with
  | H : exists _, _ |- _ => destruct H
  | H : _ /\ _ |- _ => destruct H
  | H : _ * _ |- _ => destruct H
  end.
