(* ===== verification/GoStrings.v ===== *)
(** * Strings and encodings of the Go standard library

    What the code uses of [strconv], [strings], [fmt] and [encoding/base64]:
    decimal integers, splitting at a separator, and the standard base64
    encoding, as functions on lists of characters, with their round trips. *)

From Stdlib Require Import Ascii.
From S2P Require Import Prelude.
Local Open Scope Z_scope.

Definition chars (s : string) : list ascii := String.list_ascii_of_string s.
Definition str (l : list ascii) : string := String.string_of_list_ascii l.

Lemma chars_str l : chars (str l) = l.
Proof. apply String.list_ascii_of_string_of_list_ascii. Qed.

Lemma str_chars s : str (chars s) = s.
Proof. apply String.string_of_list_ascii_of_string. Qed.

(** [len], in bytes *)
Definition strlen (s : string) : Z := Z.of_nat (String.length s).

Definition newline : string := String "010"%char EmptyString.

Definition byte_of (a : ascii) : Z := Z.of_N (N_of_ascii a).
Definition ascii_of (b : Z) : ascii := ascii_of_N (Z.to_N b).

Lemma byte_of_range a : 0 <= byte_of a < 256.
Proof. unfold byte_of. pose proof (N_ascii_bounded a). lia. Qed.

Lemma ascii_of_byte_of a : ascii_of (byte_of a) = a.
Proof. unfold ascii_of, byte_of. by rewrite N2Z.id, ascii_N_embedding. Qed.

Lemma byte_of_ascii_of b : 0 <= b < 256 -> byte_of (ascii_of b) = b.
Proof. intros Hb. unfold byte_of, ascii_of. rewrite N_ascii_embedding by lia. lia. Qed.

(** ** Decimal integers *)

Definition digit_char (d : Z) : ascii := ascii_of (48 + d).

Definition char_digit (a : ascii) : option Z :=
  let b := byte_of a in if (48 <=? b) && (b <=? 57) then Some (b - 48) else None.

(** Digits of a non-negative integer; 20 digits cover [uint64]. *)
Fixpoint digits (fuel : nat) (n : Z) (acc : list ascii) : list ascii :=
  match fuel with
  | O => acc
  | S fuel =>
      if n <? 10 then digit_char n :: acc
      else digits fuel (n / 10) (digit_char (n mod 10) :: acc)
  end.

Definition max_digits : nat := 20.

(** [%d] of [fmt], [strconv.Itoa] and [strconv.FormatUint(n, 10)]. *)
Definition format_int (n : Z) : list ascii :=
  if n <? 0 then "-"%char :: digits max_digits (- n) [] else digits max_digits n [].

Fixpoint parse_digits (acc : Z) (l : list ascii) : option Z :=
  match l with
  | [] => Some acc
  | a :: l' => d ← char_digit a; parse_digits (acc * 10 + d) l'
  end.

(** [strconv.Atoi]: an optional sign, at least one digit, and a value in the
    range of [int]. *)
Definition Atoi (l : list ascii) : option Z :=
  let '(neg, l) :=
    match l with
    | "-"%char :: l' => (true, l')
    | "+"%char :: l' => (false, l')
    | _ => (false, l)
    end in
  match l with
  | [] => None
  | _ =>
      n ← parse_digits 0 l;
      let n := if neg : bool then - n else n in
      if (i64_min <=? n) && (n <=? i64_max) then Some n else None
  end.

Lemma Atoi_range l n : Atoi l = Some n -> i64_min <= n <= i64_max.
Proof.
  unfold Atoi.
  destruct (match l with "-"%char :: l' => (true, l') | "+"%char :: l' => (false, l') | _ => (false, l) end) as [neg [|a k]];
    [done|].
  destruct (parse_digits 0 (a :: k)) as [m|]; [|done]. simpl. destruct (_ && _) eqn:E; [|done]. intros [= <-]. lia.
Qed.

Lemma char_digit_char d : 0 <= d < 10 -> char_digit (digit_char d) = Some d.
Proof.
  intros Hd. unfold char_digit, digit_char. rewrite byte_of_ascii_of by lia.
  destruct ((48 <=? 48 + d) && (48 + d <=? 57)) eqn:E; [f_equal; lia|lia].
Qed.

Lemma parse_digits_digits fuel n acc :
  0 <= n < 10 ^ Z.of_nat fuel -> (0 < fuel)%nat ->
  parse_digits 0 (digits fuel n acc) = parse_digits n acc.
Proof.
  revert n acc. induction fuel as [|fuel IH]; intros n acc Hn Hf; [lia|]. simpl.
  destruct (Z.ltb_spec n 10) as [Hlt|Hge].
  - simpl. rewrite char_digit_char by lia. simpl. done.
  - rewrite Nat2Z.inj_succ, Z.pow_succ_r in Hn by lia.
    assert (0 < fuel)%nat by (destruct fuel; [simpl in Hn; lia|lia]).
    rewrite IH; [|split; [apply Z.div_pos; lia|apply Z.div_lt_upper_bound; lia]|done]. simpl.
    pose proof (Z.mod_pos_bound n 10). rewrite char_digit_char by lia. simpl. f_equal.
    pose proof (Z.div_mod n 10). lia.
Qed.

(** Decimal characters are none of the signs and separators. *)
Definition is_digit (a : ascii) : bool := match char_digit a with Some _ => true | None => false end.

Lemma digits_are_digits fuel n acc :
  0 <= n -> Forall (fun a => is_digit a = true) acc ->
  Forall (fun a => is_digit a = true) (digits fuel n acc).
Proof.
  revert n acc. induction fuel as [|fuel IH]; intros n acc Hn Ha; simpl; [done|].
  assert (forall d, 0 <= d < 10 -> is_digit (digit_char d) = true) as Hd.
  { intros d Hd. unfold is_digit. by rewrite char_digit_char. }
  destruct (Z.ltb_spec n 10) as [Hlt|Hge].
  - constructor; [apply Hd; lia|done].
  - apply IH; [apply Z.div_pos; lia|]. constructor; [|done]. apply Hd. apply Z.mod_pos_bound. lia.
Qed.

Lemma digits_nonempty fuel n acc : (0 < fuel)%nat -> digits fuel n acc <> [].
Proof.
  revert n acc. induction fuel as [|fuel IH]; intros n acc Hf; simpl; [lia|].
  destruct (_ <? _); [done|]. destruct fuel; [done|]. apply IH. lia.
Qed.

Lemma format_int_digits n : 0 <= n -> Forall (fun a => is_digit a = true) (format_int n).
Proof.
  intros Hn. unfold format_int. destruct (Z.ltb_spec n 0); [lia|]. by apply digits_are_digits.
Qed.

Lemma Atoi_digits l n :
  Forall (fun a => is_digit a = true) l -> l <> [] -> parse_digits 0 l = Some n ->
  Atoi l = if (i64_min <=? n) && (n <=? i64_max) then Some n else None.
Proof.
  intros Hd Hne Hp. destruct l as [|a l]; [done|]. apply Forall_cons in Hd as [Ha _].
  assert (a <> "-"%char) by (by intros ->). assert (a <> "+"%char) by (by intros ->).
  unfold Atoi. assert (match a :: l with
    | "-"%char :: l' => (true, l') | "+"%char :: l' => (false, l') | _ => (false, a :: l) end = (false, a :: l)) as ->.
  { destruct a as [[] [] [] [] [] [] [] []]; done. }
  by rewrite Hp.
Qed.

(** Parsing what was printed: exact in the range of [int], an error beyond. *)
Lemma Atoi_format n :
  is_u64 n -> Atoi (format_int n) = if n <=? i64_max then Some n else None.
Proof.
  intros Hn. rewrite (Atoi_digits _ n).
  - replace (i64_min <=? n) with true by (unfold i64_min in *; word). done.
  - apply format_int_digits. word.
  - unfold format_int. destruct (Z.ltb_spec n 0); [word|]. apply digits_nonempty. unfold max_digits. lia.
  - unfold format_int. destruct (Z.ltb_spec n 0); [word|].
    rewrite parse_digits_digits; [done| |unfold max_digits; lia].
    replace (10 ^ Z.of_nat max_digits) with 100000000000000000000 by reflexivity. word.
Qed.

(** ** Splitting *)

(** The part before the first occurrence of a character and the part after. *)
Fixpoint cut (sep : ascii) (l : list ascii) : option (list ascii * list ascii) :=
  match l with
  | [] => None
  | a :: l' =>
      if Ascii.eqb a sep then Some ([], l')
      else '(x, y) ← cut sep l'; Some (a :: x, y)
  end.

(** [strings.SplitN(s, sep, 2)] *)
Definition SplitN2 (sep : ascii) (l : list ascii) : list (list ascii) :=
  match cut sep l with
  | None => [l]
  | Some (x, y) => [x; y]
  end.

Lemma cut_app sep x y : Forall (fun a => a <> sep) x -> cut sep (x ++ sep :: y) = Some (x, y).
Proof.
  induction 1 as [|a x Ha Hx IH]; simpl; [by rewrite Ascii.eqb_refl|].
  destruct (Ascii.eqb_spec a sep); [done|]. by rewrite IH.
Qed.

(** ** base64 *)

Definition base64_alphabet : list ascii :=
  chars "ABCDEFGHIJKLMNOPQRSTUVWXYZabcdefghijklmnopqrstuvwxyz0123456789+/".

Definition b64_char (v : Z) : ascii := default "A"%char (base64_alphabet !! Z.to_nat v).

Fixpoint index_of (a : ascii) (l : list ascii) (i : Z) : option Z :=
  match l with
  | [] => None
  | b :: l' => if Ascii.eqb a b then Some i else index_of a l' (i + 1)
  end.

Definition b64_value (a : ascii) : option Z := index_of a base64_alphabet 0.

Definition pad : ascii := "="%char.

(** [StdEncoding.EncodeToString] *)
Fixpoint base64_encode (l : list ascii) : list ascii :=
  match l with
  | [] => []
  | [a] =>
      let v := Z.shiftl (byte_of a) 16 in
      [b64_char (Z.land (Z.shiftr v 18) 63); b64_char (Z.land (Z.shiftr v 12) 63); pad; pad]
  | [a; b] =>
      let v := Z.lor (Z.shiftl (byte_of a) 16) (Z.shiftl (byte_of b) 8) in
      [b64_char (Z.land (Z.shiftr v 18) 63); b64_char (Z.land (Z.shiftr v 12) 63);
       b64_char (Z.land (Z.shiftr v 6) 63); pad]
  | a :: b :: c :: l' =>
      let v := Z.lor (Z.lor (Z.shiftl (byte_of a) 16) (Z.shiftl (byte_of b) 8)) (byte_of c) in
      b64_char (Z.land (Z.shiftr v 18) 63) :: b64_char (Z.land (Z.shiftr v 12) 63)
        :: b64_char (Z.land (Z.shiftr v 6) 63) :: b64_char (Z.land v 63) :: base64_encode l'
  end.

Definition not_newline (a : ascii) : bool := negb (Ascii.eqb a "010"%char || Ascii.eqb a "013"%char).

(** One quantum of three bytes from four values. *)
Definition quantum (x y z w : Z) : Z :=
  Z.lor (Z.lor (Z.lor (Z.shiftl x 18) (Z.shiftl y 12)) (Z.shiftl z 6)) w.

Definition quantum_bytes (v : Z) : ascii * ascii * ascii :=
  (ascii_of (Z.land (Z.shiftr v 16) 255), ascii_of (Z.land (Z.shiftr v 8) 255), ascii_of (Z.land v 255)).

Fixpoint b64_decode_quads (l : list ascii) : option (list ascii) :=
  match l with
  | [] => Some []
  | a :: b :: c :: d :: l' =>
      x ← b64_value a; y ← b64_value b;
      if Ascii.eqb c pad then
        (* "xx==", at the end *)
        if Ascii.eqb d pad && (match l' with [] => true | _ => false end)
        then Some [(quantum_bytes (quantum x y 0 0)).1.1] else None
      else
        z ← b64_value c;
        if Ascii.eqb d pad then
          match l' with
          | [] => let q := quantum_bytes (quantum x y z 0) in Some [q.1.1; q.1.2]
          | _ => None
          end
        else
          w ← b64_value d;
          r ← b64_decode_quads l';
          let q := quantum_bytes (quantum x y z w) in Some (q.1.1 :: q.1.2 :: q.2 :: r)
  | _ => None
  end.

(** [StdEncoding.DecodeString]: newlines are ignored, padding is required. *)
Definition base64_decode (l : list ascii) : option (list ascii) :=
  b64_decode_quads (filter (fun a => not_newline a = true) l).

(** *** Bit operations as arithmetic *)

Lemma lor_shift_add a b n : 0 <= n -> 0 <= b < 2 ^ n -> Z.lor (Z.shiftl a n) b = a * 2 ^ n + b.
Proof.
  intros Hn Hb. pose proof (Z.add_lor_land (Z.shiftl a n) b) as Hadd.
  rewrite Z.shiftl_mul_pow2 in Hadd at 3 by lia.
  assert (Z.land (Z.shiftl a n) b = 0) as Hland; [|lia].
  apply Z.bits_inj'. intros i Hi. rewrite Z.land_spec, Z.bits_0.
  destruct (Z.lt_ge_cases i n); [by rewrite Z.shiftl_spec_low|].
  apply andb_false_iff. right. destruct (Z.eq_dec b 0) as [->|]; [apply Z.bits_0|].
  apply Z.bits_above_log2; [lia|]. apply Z.log2_lt_pow2; [lia|].
  apply Z.lt_le_trans with (2 ^ n); [lia|]. apply Z.pow_le_mono_r; lia.
Qed.

Lemma land_63 v : Z.land v 63 = v mod 64.
Proof. apply (Z.land_ones v 6). lia. Qed.

Lemma land_255 v : Z.land v 255 = v mod 256.
Proof. apply (Z.land_ones v 8). lia. Qed.

Lemma triple_bits a b c :
  0 <= b < 256 -> 0 <= c < 256 ->
  Z.lor (Z.lor (Z.shiftl a 16) (Z.shiftl b 8)) c = a * 65536 + b * 256 + c.
Proof.
  intros Hb Hc. rewrite (Z.shiftl_mul_pow2 b) by lia. rewrite lor_shift_add by lia.
  replace (a * 2 ^ 16 + b * 2 ^ 8) with (Z.shiftl (a * 256 + b) 8) by (rewrite Z.shiftl_mul_pow2; lia).
  rewrite lor_shift_add by lia. lia.
Qed.

Lemma quantum_bits x y z w :
  0 <= y < 64 -> 0 <= z < 64 -> 0 <= w < 64 -> quantum x y z w = x * 262144 + y * 4096 + z * 64 + w.
Proof.
  intros Hy Hz Hw. unfold quantum. rewrite (Z.shiftl_mul_pow2 y), (Z.shiftl_mul_pow2 z) by lia.
  rewrite lor_shift_add by lia.
  replace (x * 2 ^ 18 + y * 2 ^ 12) with (Z.shiftl (x * 64 + y) 12) by (rewrite Z.shiftl_mul_pow2; lia).
  rewrite lor_shift_add by lia.
  replace ((x * 64 + y) * 2 ^ 12 + z * 2 ^ 6) with (Z.shiftl ((x * 64 + y) * 64 + z) 6) by (rewrite Z.shiftl_mul_pow2; lia).
  rewrite lor_shift_add by lia. lia.
Qed.

Lemma sextet_range v : 0 <= Z.land v 63 < 64.
Proof. rewrite land_63. apply Z.mod_pos_bound. lia. Qed.

(** Cutting a word of 24 bits into sextets and putting it together again. *)
Lemma quantum_sextets v :
  0 <= v < 16777216 ->
  quantum (Z.land (Z.shiftr v 18) 63) (Z.land (Z.shiftr v 12) 63) (Z.land (Z.shiftr v 6) 63) (Z.land v 63) = v.
Proof.
  intros Hv. rewrite quantum_bits by apply sextet_range. rewrite !land_63, !Z.shiftr_div_pow2 by lia.
  change (2 ^ 18) with 262144. change (2 ^ 12) with 4096. change (2 ^ 6) with 64.
  Z.to_euclidean_division_equations. lia.
Qed.

Lemma quantum_bytes_triple a b c :
  quantum_bytes (byte_of a * 65536 + byte_of b * 256 + byte_of c) = (a, b, c).
Proof.
  pose proof (byte_of_range a). pose proof (byte_of_range b). pose proof (byte_of_range c).
  unfold quantum_bytes. rewrite !land_255, !Z.shiftr_div_pow2 by lia.
  change (2 ^ 16) with 65536. change (2 ^ 8) with 256.
  set (v := byte_of a * 65536 + byte_of b * 256 + byte_of c).
  replace (v / 65536 mod 256) with (byte_of a) by (Z.to_euclidean_division_equations; lia).
  replace (v / 256 mod 256) with (byte_of b) by (Z.to_euclidean_division_equations; lia).
  replace (v mod 256) with (byte_of c) by (Z.to_euclidean_division_equations; lia).
  by rewrite !ascii_of_byte_of.
Qed.

(** *** The alphabet *)

Lemma b64_table :
  forallb (fun v => match b64_value (b64_char v) with Some v' => v' =? v | None => false end
                    && not_newline (b64_char v) && negb (Ascii.eqb (b64_char v) pad))
    (Z.of_nat <$> seq 0 64) = true.
Proof. vm_compute. reflexivity. Qed.

Lemma b64_char_spec v :
  0 <= v < 64 -> b64_value (b64_char v) = Some v /\ not_newline (b64_char v) = true /\ Ascii.eqb (b64_char v) pad = false.
Proof.
  intros Hv. pose proof b64_table as Ht. rewrite forallb_forall in Ht. specialize (Ht v).
  rewrite !andb_true_iff, negb_true_iff in Ht. destruct Ht as [[Hval Hnl] Hpad].
  { apply list_elem_of_In, list_elem_of_fmap. exists (Z.to_nat v). rewrite elem_of_seq. lia. }
  split_and!; [|done..]. destruct (b64_value _) as [v'|]; [|done]. f_equal. lia.
Qed.

Lemma b64_encode_no_newline l : Forall (fun a => not_newline a = true) (base64_encode l).
Proof.
  assert (forall v, not_newline (b64_char (Z.land v 63)) = true) as Hc
    by (intros v; apply b64_char_spec, sextet_range).
  induction l as [l IH] using (induction_ltof1 _ (@length ascii)). unfold ltof in IH.
  destruct l as [|a [|b [|c l]]]; simpl; repeat constructor; try apply Hc. apply IH. simpl. lia.
Qed.

(** Computes with the characters, not with the words. *)
Local Ltac sextets := rewrite ?Ascii.eqb_refl; cbn [mbind option_bind andb].

Lemma b64_decode_encode l : b64_decode_quads (base64_encode l) = Some l.
Proof.
  assert (forall v, b64_value (b64_char (Z.land v 63)) = Some (Z.land v 63)) as Hv
    by (intros v; apply b64_char_spec, sextet_range).
  assert (forall v, Ascii.eqb (b64_char (Z.land v 63)) pad = false) as Hp
    by (intros v; apply b64_char_spec, sextet_range).
  assert (forall v, 0 <= v < 16777216 -> v mod 64 = 0 ->
    quantum (Z.land (Z.shiftr v 18) 63) (Z.land (Z.shiftr v 12) 63) (Z.land (Z.shiftr v 6) 63) 0 = v) as Hq0.
  { intros v Hr Hz. rewrite <- (quantum_sextets v) at 4 by done. rewrite (land_63 v), Hz. done. }
  induction l as [l IH] using (induction_ltof1 _ (@length ascii)). unfold ltof in IH.
  destruct l as [|a [|b [|c l]]]; [done|..]; cbn [base64_encode b64_decode_quads];
    pose proof (byte_of_range a).
  - rewrite !Hv. sextets.
    assert (Z.shiftl (byte_of a) 16 = byte_of a * 65536 + byte_of (ascii_of 0) * 256 + byte_of (ascii_of 0)) as E.
    { rewrite Z.shiftl_mul_pow2, !byte_of_ascii_of by lia. lia. }
    assert (quantum (Z.land (Z.shiftr (Z.shiftl (byte_of a) 16) 18) 63)
      (Z.land (Z.shiftr (Z.shiftl (byte_of a) 16) 12) 63) 0 0 = Z.shiftl (byte_of a) 16) as ->.
    { rewrite Z.shiftl_mul_pow2 by lia. change (2 ^ 16) with 65536.
      rewrite quantum_bits, !land_63, !Z.shiftr_div_pow2 by (try apply sextet_range; lia).
      change (2 ^ 18) with 262144. change (2 ^ 12) with 4096. Z.to_euclidean_division_equations. lia. }
    by rewrite E, quantum_bytes_triple.
  - pose proof (byte_of_range b). rewrite !Hv. sextets. rewrite !Hp. sextets.
    assert (Z.lor (Z.shiftl (byte_of a) 16) (Z.shiftl (byte_of b) 8)
      = byte_of a * 65536 + byte_of b * 256 + byte_of (ascii_of 0)) as ->.
    { rewrite (Z.shiftl_mul_pow2 (byte_of b)), lor_shift_add, byte_of_ascii_of by lia. lia. }
    rewrite Hq0, quantum_bytes_triple; [done|..]; rewrite byte_of_ascii_of by lia;
      Z.to_euclidean_division_equations; lia.
  - pose proof (byte_of_range b). pose proof (byte_of_range c). rewrite !Hv. sextets. rewrite !Hp. sextets.
    rewrite IH by (simpl; lia). sextets.
    rewrite triple_bits by lia. rewrite quantum_sextets by lia. by rewrite quantum_bytes_triple.
Qed.

(** Decoding what was encoded. *)
Lemma base64_roundtrip l : base64_decode (base64_encode l) = Some l.
Proof.
  unfold base64_decode. rewrite <- (b64_decode_encode l). f_equal.
  pose proof (b64_encode_no_newline l) as Hl. induction Hl as [|a k Ha Hk IH]; [done|].
  rewrite filter_cons_True by done. by rewrite IH.
Qed.
