(* ===== verification/Paging.v ===== *)
(** * Paging through a sorted list

    A page of a listing is the first rows of a query ordered by a total order,
    restricted to the rows from a cursor on.  This file has the facts about such
    queries that the listings share, and the cursors themselves: the base64
    encoding of a time and an identifier. *)

From Stdlib Require Import Ascii.
From S2P Require Import Prelude GoStrings.
Local Open Scope Z_scope.

(** ** Cursors (src/jobqueue/mysql/inspector.go, failure_log.go) *)

(** [base64.StdEncoding.EncodeToString([]byte(fmt.Sprintf("%d,%d", t, id)))] *)
Definition encode_cursor (t id : Z) : string :=
  str (base64_encode (format_int t ++ ","%char :: format_int id)).

(** The pair a cursor stands for, when it is one. *)
Definition decode_cursor (cursor : string) : option (Z * Z) :=
  match base64_decode (chars cursor) with
  | None => None
  | Some decoded =>
      match SplitN2 ","%char decoded with
      | [x; y] =>
          match Atoi x, Atoi y with
          | Some t, Some j => Some (t, u64 j)
          | _, _ => None
          end
      | _ => None
      end
  end.

Lemma digit_not_comma a : is_digit a = true -> a <> ","%char.
Proof. by intros H ->. Qed.

Lemma cursor_cut t id :
  0 <= t -> SplitN2 ","%char (format_int t ++ ","%char :: format_int id) = [format_int t; format_int id].
Proof.
  intros Ht. unfold SplitN2. rewrite cut_app; [done|].
  eapply Forall_impl; [apply (format_int_digits t Ht)|]. intros a. apply digit_not_comma.
Qed.

Lemma decode_encode_cursor t id :
  is_u64 t -> is_u64 id ->
  decode_cursor (encode_cursor t id) = if (t <=? i64_max) && (id <=? i64_max) then Some (t, id) else None.
Proof.
  intros Ht Hid. unfold decode_cursor, encode_cursor. rewrite chars_str, base64_roundtrip.
  rewrite cursor_cut by word. rewrite !Atoi_format by done.
  destruct (t <=? i64_max), (id <=? i64_max); simpl; [|done..]. by rewrite u64_id.
Qed.

Lemma encode_cursor_nonempty t id : encode_cursor t id <> EmptyString.
Proof.
  unfold encode_cursor. intros E. apply (f_equal chars) in E. rewrite chars_str in E.
  destruct (format_int t ++ ","%char :: format_int id) as [|a [|b [|c l]]] eqn:El; try discriminate E.
  by destruct (format_int t).
Qed.

Lemma decode_cursor_empty : decode_cursor EmptyString = None.
Proof. reflexivity. Qed.

(** ** Queries over a sorted list *)

Lemma StronglySorted_filter {A} (R : relation A) P `{!forall x, Decision (P x)} (l : list A) :
  StronglySorted R l -> StronglySorted R (filter P l).
Proof.
  induction 1 as [|x l Hs IH Hx]; [constructor|]. rewrite filter_cons. case_decide; [|done].
  constructor; [done|]. apply Forall_forall. intros y [_ Hy]%list_elem_of_filter.
  by apply (proj1 (Forall_forall _ _) Hx).
Qed.

Section paging.
Context {A : Type} (less : A -> A -> bool) `{!LessOrder less}.

(** Elements that precede each other are the same. *)
Definition distinguishes (l : list A) : Prop :=
  forall x y, x ∈ l -> y ∈ l -> leq less x y -> leq less y x -> x = y.

Lemma sort_slice_filter P `{!forall x, Decision (P x)} l :
  distinguishes l -> sort_slice less (filter P l) = filter P (sort_slice less l).
Proof.
  intros Hd. eapply (StronglySorted_unique_strong (leq less)).
  - intros x y (_ & Hx)%elem_of_sort_slice%list_elem_of_filter (_ & Hy)%list_elem_of_filter.
    apply Hd; [done|]. by apply elem_of_sort_slice in Hy.
  - by apply sort_slice_sorted.
  - by apply StronglySorted_filter, sort_slice_sorted.
  - rewrite sort_slice_perm. by rewrite sort_slice_perm.
Qed.

(** What is left of a sorted list from one of its elements on. *)
Lemma filter_from k c l :
  StronglySorted (leq less) l -> NoDup l -> distinguishes l -> l !! k = Some c ->
  filter (fun x => leq less c x) l = drop k l.
Proof.
  intros Hs Hnd Hd Hk. pose proof (take_drop_middle l k c Hk) as El.
  assert (filter (fun x => leq less c x) (take k l) = []) as E1.
  { destruct (filter _ (take k l)) as [|x r] eqn:Ef; [done|]. exfalso.
    assert (x ∈ filter (fun x => leq less c x) (take k l)) as [Hcx Hx]%list_elem_of_filter by (rewrite Ef; set_solver).
    assert (c ∈ drop k l) as Hc by (rewrite (drop_S l c k Hk); set_solver).
    assert (x = c) as ->.
    { apply Hd; [rewrite <- (take_drop k l); set_solver..| |done]. by eapply StronglySorted_take_drop. }
    rewrite <- El in Hnd. apply NoDup_app in Hnd as (_ & Hnd & _). apply (Hnd c Hx). set_solver. }
  rewrite <- (take_drop k l) at 1. rewrite filter_app, E1. simpl.
  assert (Forall (fun x => leq less c x) (drop k l)) as Hall.
  { rewrite (drop_S l c k Hk). constructor; [by apply leq_refl|]. apply Forall_forall. intros x Hx.
    rewrite <- (take_drop (S k) l) in Hs. eapply StronglySorted_app_inv; [exact Hs| |exact Hx].
    rewrite (take_S_r l k c Hk). set_solver. }
  induction Hall as [|x l' Hx Hl IH]; [done|]. rewrite filter_cons_True by done. by rewrite IH.
Qed.
End paging.

(** Decoding the cursor of a row gives its time and identifier
    back when both are in the range of [int]; beyond, the cursor is not
    recognised and the listing starts over from its first page. *)
Theorem cursor_roundtrip t id :
  is_u64 t -> is_u64 id ->
  decode_cursor (encode_cursor t id) = if (t <=? i64_max) && (id <=? i64_max) then Some (t, id) else None.
Proof. apply decode_encode_cursor. Qed.

Lemma cursor_roundtrip_witness :
  encode_cursor 1507128673025 2 = "MTUwNzEyODY3MzAyNSwy" /\
  decode_cursor "MTUwNzEyODY3MzAyNSwy" = Some (1507128673025, 2).
Proof.
  split; [vm_compute; reflexivity|].
  change "MTUwNzEyODY3MzAyNSwy" with (encode_cursor 1507128673025 2).
  rewrite (cursor_roundtrip 1507128673025 2); [reflexivity|word|word].
Defined.
