(* ===== verification/Heap.v ===== *)
(** * container/heap

    The binary heap of the Go standard library as the in-memory driver uses
    it: [heap.Push] and [heap.Pop] over a [heap.Interface].  An index out of
    range is a run-time panic, modelled by [None]; the theorems show that no
    panic happens, that both operations permute the elements, keep the heap
    order, and that [heap.Pop] removes a minimum. *)

From S2P Require Import Prelude.

(** ** heap.Interface *)

Record Interface (H X : Type) := {
  Len : H -> nat;
  Less : H -> nat -> nat -> option bool;
  Swap : H -> nat -> nat -> option H;
  IPush : H -> X -> H;
  IPop : H -> option (X * H);
}.
Arguments Len {H X}.
Arguments Less {H X}.
Arguments Swap {H X}.
Arguments IPush {H X}.
Arguments IPop {H X}.

Section operations.
Context {H X : Type} (I : Interface H X).

(** [for { i := (j - 1) / 2; if i == j || !h.Less(j, i) { break };
    h.Swap(i, j); j = i }]; the index decreases, so [j + 1] rounds are
    enough (lemma [up_loop_eq]). *)
Fixpoint up_loop (fuel : nat) (h : H) (j : nat) : option H :=
  match fuel with
  | O => Some h
  | S fuel =>
      let i := ((j - 1) / 2)%nat in
      if (i =? j)%nat then Some h
      else
        b ← Less I h j i;
        if negb b then Some h
        else h' ← Swap I h i j; up_loop fuel h' i
  end.

Definition up (h : H) (j : nat) : option H := up_loop (S j) h j.

(** The loop of [down]; the index grows below [n], so [n - i0 + 1] rounds
    are enough. *)
Fixpoint down_loop (fuel : nat) (h : H) (i n : nat) : option H :=
  match fuel with
  | O => Some h
  | S fuel =>
      let j1 := (2 * i + 1)%nat in
      if (n <=? j1)%nat then Some h
      else
        let j2 := (j1 + 1)%nat in
        right ← (if (j2 <? n)%nat then Less I h j2 j1 else Some false);
        let j := if (right : bool) then j2 else j1 in
        b ← Less I h j i;
        if negb b then Some h
        else h' ← Swap I h i j; down_loop fuel h' j n
  end.

Definition down (h : H) (i0 n : nat) : option H := down_loop (S (n - i0)) h i0 n.

Definition heap_Push (h : H) (x : X) : option H :=
  let h' := IPush I h x in up h' (Len I h' - 1).

Definition heap_Pop (h : H) : option (X * H) :=
  let n := (Len I h - 1)%nat in
  h' ← Swap I h 0 n;
  h'' ← down h' 0 n;
  IPop I h''.
End operations.

(** ** Slices ordered by a strict weak order *)

Section slice.
Context {A : Type} (less : A -> A -> bool).

Definition slice_Less (h : list A) (i j : nat) : option bool :=
  x ← h !! i; y ← h !! j; Some (less x y).

Definition slice_Swap (h : list A) (i j : nat) : option (list A) :=
  x ← h !! i; y ← h !! j; Some (<[j := x]> (<[i := y]> h)).

Definition slice_Pop (h : list A) : option (A * list A) :=
  x ← h !! (length h - 1)%nat; Some (x, take (length h - 1) h).

Definition slice_interface : Interface (list A) A := {|
  Len := length;
  Less := slice_Less;
  Swap := slice_Swap;
  IPush := fun h x => h ++ [x];
  IPop := slice_Pop;
|}.
End slice.

(** ** Correctness *)

Section correctness.
Context {A : Type} `{!Inhabited A} (less : A -> A -> bool) `{!LessOrder less}.
Implicit Types h : list A.
Local Abbreviation I := (slice_interface less).
Local Notation "x ⊑ y" := (leq less x y) (at level 70).
Local Open Scope nat_scope.

Definition parent (k : nat) : nat := (k - 1) / 2.

(** The first [n] elements satisfy the heap order. *)
Definition heap_upto (n : nat) (h : list A) : Prop :=
  forall k, 0 < k -> k < n -> h !!! parent k ⊑ h !!! k.

Definition is_heap (h : list A) : Prop := heap_upto (length h) h.

(** Heap order among the first [n] elements except at the edge above [j],
    the edges around [j] being bridged. *)
Definition heap_above (n j : nat) (h : list A) : Prop :=
  (forall k, 0 < k -> k < n -> k <> j -> h !!! parent k ⊑ h !!! k) /\
  (forall k, 0 < j -> 0 < k -> k < n -> parent k = j -> h !!! parent j ⊑ h !!! k).

(** Heap order among the first [n] elements except at the edges below [i],
    the edges around [i] being bridged. *)
Definition heap_below (n i : nat) (h : list A) : Prop :=
  (forall k, 0 < k -> k < n -> parent k <> i -> h !!! parent k ⊑ h !!! k) /\
  (forall k, 0 < i -> 0 < k -> k < n -> parent k = i -> h !!! parent i ⊑ h !!! k).

Lemma parent_lt k : 0 < k -> parent k < k.
Proof. unfold parent. intros. pose proof (Nat.div_mod_eq (k - 1) 2). lia. Qed.

Lemma parent_children k i : 0 < k -> (parent k = i <-> k = 2 * i + 1 \/ k = 2 * i + 2).
Proof.
  unfold parent. intros.
  pose proof (Nat.div_mod_eq (k - 1) 2).
  pose proof (Nat.mod_upper_bound (k - 1) 2). lia.
Qed.

Lemma slice_Less_spec h i j :
  i < length h -> j < length h -> slice_Less less h i j = Some (less (h !!! i) (h !!! j)).
Proof.
  intros Hi Hj. unfold slice_Less.
  by rewrite (list_lookup_lookup_total_lt _ _ Hi), (list_lookup_lookup_total_lt _ _ Hj).
Qed.

Lemma slice_Swap_spec h i j :
  i < length h -> j < length h ->
  slice_Swap h i j = Some (<[j := h !!! i]> (<[i := h !!! j]> h)).
Proof.
  intros Hi Hj. unfold slice_Swap.
  by rewrite (list_lookup_lookup_total_lt _ _ Hi), (list_lookup_lookup_total_lt _ _ Hj).
Qed.

Definition swapped h i j : list A := <[j := h !!! i]> (<[i := h !!! j]> h).

Lemma swapped_length h i j : length (swapped h i j) = length h.
Proof. unfold swapped. by rewrite !length_insert. Qed.

Lemma swapped_lookup h i j k :
  i < length h -> j < length h ->
  swapped h i j !!! k =
    if decide (k = j) then h !!! i else if decide (k = i) then h !!! j else h !!! k.
Proof.
  intros Hi Hj. unfold swapped.
  case_decide as E1; [subst; rewrite list_lookup_total_insert_eq; [done|by rewrite length_insert]|].
  rewrite list_lookup_total_insert_ne by done.
  case_decide as E2; [subst; by rewrite list_lookup_total_insert_eq|].
  by rewrite list_lookup_total_insert_ne.
Qed.

Lemma swapped_perm h i j : i < length h -> j < length h -> swapped h i j ≡ₚ h.
Proof.
  intros Hi Hj. apply Permutation_insert_swap; by apply list_lookup_lookup_total_lt.
Qed.

(** One round of [up]: after the swap the exception moves to the parent. *)
Lemma heap_above_swap n j h :
  n <= length h -> 0 < j -> j < n -> heap_above n j h ->
  less (h !!! j) (h !!! parent j) = true ->
  heap_above n (parent j) (swapped h (parent j) j).
Proof.
  intros Hn Hj0 Hj [Ho Hb] Hl. pose proof (parent_lt j Hj0) as Hp.
  apply less_leq in Hl as Hle; [|done].
  split.
  - intros k Hk0 Hk Hne. pose proof (parent_lt k Hk0).
    rewrite !swapped_lookup by lia.
    repeat case_decide; simplify_eq; try lia; try done.
    + by apply Hb.
    + transitivity (h !!! parent j); [done|].
      replace (parent j) with (parent k). by apply Ho.
    + by apply Ho.
  - intros k Hp0 Hk0 Hk E. pose proof (parent_lt _ Hp0).
    rewrite !swapped_lookup by lia.
    repeat case_decide; simplify_eq; try lia.
    + apply Ho; lia.
    + transitivity (h !!! parent j); [apply Ho; lia|].
      rewrite <- E. apply Ho; lia.
Qed.

Lemma up_loop_S fuel h j :
  up_loop I (S fuel) h j =
    if parent j =? j then Some h
    else b ← slice_Less less h j (parent j);
      if negb b then Some h else h' ← slice_Swap h (parent j) j; up_loop I fuel h' (parent j).
Proof. reflexivity. Qed.

Lemma down_loop_S fuel h i n :
  down_loop I (S fuel) h i n =
    if n <=? 2 * i + 1 then Some h
    else right ← (if 2 * i + 1 + 1 <? n then slice_Less less h (2 * i + 1 + 1) (2 * i + 1)
        else Some false);
      b ← slice_Less less h (if (right : bool) then 2 * i + 1 + 1 else 2 * i + 1) i;
      if negb b then Some h
      else h' ← slice_Swap h i (if (right : bool) then 2 * i + 1 + 1 else 2 * i + 1);
        down_loop I fuel h' (if (right : bool) then 2 * i + 1 + 1 else 2 * i + 1) n.
Proof. reflexivity. Qed.

(** [j + 1] rounds are enough for [up] started at [j], which restores the heap. *)
Lemma up_loop_spec fuel h j :
  j < fuel -> j < length h -> heap_above (length h) j h ->
  exists h', up_loop I fuel h j = Some h' /\ h' ≡ₚ h /\ is_heap h'.
Proof.
  revert h j. induction fuel as [|fuel IH]; intros h j Hf Hj Ha; [lia|].
  rewrite up_loop_S.
  destruct (Nat.eqb_spec (parent j) j) as [E|Hne].
  { exists h. split_and!; [done..|]. intros k Hk0 Hk. apply Ha; [lia..|].
    intros ->. pose proof (parent_lt j Hk0). lia. }
  assert (Hj0 : 0 < j) by (destruct j; [done|lia]).
  pose proof (parent_lt j Hj0) as Hp.
  rewrite slice_Less_spec by lia. simpl.
  destruct (less (h !!! j) (h !!! parent j)) eqn:El; simpl.
  - rewrite slice_Swap_spec by lia. simpl. fold (swapped h (parent j) j).
    destruct (IH (swapped h (parent j) j) (parent j)) as (h' & -> & Hperm & Hh).
    + lia.
    + rewrite swapped_length. lia.
    + rewrite swapped_length. by apply heap_above_swap.
    + exists h'. split_and!; [done| |done]. rewrite Hperm. apply swapped_perm; lia.
  - exists h. split_and!; [done..|]. intros k Hk0 Hk.
    destruct (decide (k = j)) as [->|]; [done|]. by apply Ha.
Qed.

(** One round of [down]: after the swap with the smaller child the exception
    moves to that child. *)
Lemma heap_below_swap n i j h :
  n <= length h -> 0 < j -> j < n -> parent j = i -> heap_below n i h ->
  (forall k, 0 < k -> k < n -> parent k = i -> h !!! j ⊑ h !!! k) ->
  less (h !!! j) (h !!! i) = true ->
  heap_below n j (swapped h i j).
Proof.
  intros Hn Hj0 Hj Hi [Ho Hb] Hmin Hl. pose proof (parent_lt j Hj0) as Hp.
  apply less_leq in Hl as Hle; [|done].
  split.
  - intros k Hk0 Hk Hne. pose proof (parent_lt k Hk0).
    rewrite !swapped_lookup by lia.
    repeat case_decide; simplify_eq; try lia; try done.
    + by apply Hmin.
    + apply Hb; lia.
    + by apply Ho.
  - intros k _ Hk0 Hk E. pose proof (parent_lt _ Hk0).
    rewrite !swapped_lookup by lia.
    repeat case_decide; simplify_eq; try lia.
    apply Ho; lia.
Qed.

(** The child chosen by [down] is the smaller one. *)
Lemma smaller_child n i h :
  n <= length h -> 2 * i + 1 < n ->
  exists b, (if (2 * i + 1 + 1 <? n) then slice_Less less h (2 * i + 1 + 1) (2 * i + 1)
    else Some false) = Some b /\
    let j := if (b : bool) then 2 * i + 1 + 1 else 2 * i + 1 in
    j < n /\ parent j = i /\ (forall k, 0 < k -> k < n -> parent k = i -> h !!! j ⊑ h !!! k).
Proof.
  intros Hn Hi. destruct (Nat.ltb_spec (2 * i + 1 + 1) n) as [H2|H2].
  - rewrite slice_Less_spec by lia.
    eexists; split; [done|].
    destruct (less _ _) eqn:E; simpl; split_and!; try lia.
    + apply parent_children; lia.
    + intros k Hk0 Hk E'; apply parent_children in E' as [->| ->]; [| |done].
      * by apply less_leq.
      * replace (2 * i + 2) with (2 * i + 1 + 1) by lia. by apply leq_refl.
    + apply parent_children; lia.
    + intros k Hk0 Hk E'; apply parent_children in E' as [->| ->]; [by apply leq_refl| |done].
      replace (2 * i + 2) with (2 * i + 1 + 1) by lia. done.
  - exists false. split; [done|]. simpl. split_and!; [lia| |].
    + apply parent_children; lia.
    + intros k Hk0 Hk E'; apply parent_children in E' as [->| ->]; [by apply leq_refl|lia|done].
Qed.

Lemma down_loop_spec fuel h i n :
  n - i < fuel -> n <= length h -> i < length h -> heap_below n i h ->
  exists h', down_loop I fuel h i n = Some h' /\ h' ≡ₚ h /\ heap_upto n h' /\
    length h' = length h /\ (forall k, n <= k -> h' !!! k = h !!! k).
Proof.
  revert h i. induction fuel as [|fuel IH]; intros h i Hf Hn Hi Hb; [lia|].
  rewrite down_loop_S.
  destruct (Nat.leb_spec n (2 * i + 1)) as [Hle|Hlt].
  { exists h. split_and!; try done. intros k Hk0 Hk. apply Hb; [lia..|].
    intros E. apply parent_children in E; lia. }
  destruct (smaller_child n i h) as (b & -> & Hjn & Hpj & Hmin); [done..|].
  cbn [mbind option_bind].
  set (j := if b then 2 * i + 1 + 1 else 2 * i + 1) in *.
  assert (Hij : i < j) by (unfold j; destruct b; lia).
  rewrite slice_Less_spec by lia. cbn [mbind option_bind].
  destruct (less (h !!! j) (h !!! i)) eqn:El; simpl.
  - rewrite slice_Swap_spec by lia. simpl. fold (swapped h i j).
    destruct (IH (swapped h i j) j) as (h' & -> & Hperm & Hh & Hlen & Hk);
      rewrite ?swapped_length in *; try lia.
    { apply heap_below_swap; auto with lia. }
    exists h'. split_and!; [done| |done|lia|].
    + rewrite Hperm. apply swapped_perm; lia.
    + intros k Hnk. rewrite Hk, swapped_lookup by lia. by repeat case_decide; try lia.
  - exists h. split_and!; try done. intros k Hk0 Hk.
    destruct (decide (parent k = i)) as [E|]; [|by apply Hb].
    rewrite E. transitivity (h !!! j); [done|]. by apply Hmin.
Qed.

(** The root of a heap precedes every element. *)
Lemma heap_root n h k : heap_upto n h -> k < n -> h !!! 0 ⊑ h !!! k.
Proof.
  intros Hh. induction k as [k IH] using lt_wf_ind. intros Hk.
  destruct (decide (k = 0)) as [->|]; [by apply leq_refl|].
  transitivity (h !!! parent k); [|apply Hh; lia].
  apply IH; pose proof (parent_lt k); lia.
Qed.

Lemma heap_root_min h x : is_heap h -> x ∈ h -> h !!! 0 ⊑ x.
Proof.
  intros Hh (k & Hk)%list_elem_of_lookup.
  rewrite <- (list_lookup_total_correct _ _ _ Hk).
  eapply heap_root; [exact Hh|]. by apply lookup_lt_Some in Hk.
Qed.

Lemma heap_upto_snoc h x : is_heap h -> heap_above (length (h ++ [x])) (length h) (h ++ [x]).
Proof.
  intros Hh. rewrite length_app. simpl. split.
  - intros k Hk0 Hk Hne. pose proof (parent_lt k Hk0).
    rewrite !lookup_total_app_l by lia. apply Hh; lia.
  - intros k _ Hk0 Hk E. pose proof (parent_lt k Hk0). lia.
Qed.

(** [heap.Push] never panics, adds the element and keeps the heap order. *)
Lemma heap_Push_spec h x :
  is_heap h -> exists h', heap_Push I h x = Some h' /\ h' ≡ₚ x :: h /\ is_heap h'.
Proof.
  intros Hh. unfold heap_Push, up. cbn [Len IPush slice_interface].
  replace (length (h ++ [x]) - 1) with (length h) by (rewrite length_app; simpl; lia).
  destruct (up_loop_spec (S (length h)) (h ++ [x]) (length h)) as (h' & -> & Hp & Hh').
  - lia.
  - rewrite length_app; simpl; lia.
  - by apply heap_upto_snoc.
  - exists h'. split_and!; [done| |done]. rewrite Hp. by rewrite Permutation_app_comm.
Qed.

(** [heap.Pop] on a non-empty heap never panics, returns the root, which is
    a minimum, and leaves a heap of the other elements. *)
Lemma heap_Pop_spec h :
  is_heap h -> 0 < length h ->
  exists x h', heap_Pop I h = Some (x, h') /\ h !! 0 = Some x /\ h ≡ₚ x :: h' /\
    is_heap h' /\ Forall (leq less x) h.
Proof.
  intros Hh Hlen. unfold heap_Pop, down. cbn [Len Swap IPop slice_interface].
  set (n := length h - 1).
  rewrite slice_Swap_spec by lia. cbn [mbind option_bind]. fold (swapped h 0 n).
  destruct (down_loop_spec (S (n - 0)) (swapped h 0 n) 0 n)
    as (h' & E & Hp & Hh' & Hl & Hk); rewrite ?swapped_length in *; try lia.
  { split; [|lia]. intros k Hk0 Hk Hpk. pose proof (parent_lt k Hk0).
    rewrite !swapped_lookup by lia. repeat case_decide; simplify_eq; try lia.
    apply Hh; lia. }
  rewrite E. cbn [mbind option_bind]. unfold slice_Pop. rewrite Hl. fold n.
  rewrite (list_lookup_lookup_total_lt h' n) by lia. simpl.
  rewrite (Hk n), swapped_lookup by lia. rewrite decide_True by done.
  exists (h !!! 0), (take n h'). split_and!; [done| | | |].
  - apply list_lookup_lookup_total_lt; lia.
  - assert (Hn : h' !! n = Some (h !!! 0)).
    { rewrite list_lookup_lookup_total_lt by lia. by rewrite Hk, swapped_lookup, decide_True by lia. }
    transitivity h'; [symmetry; rewrite Hp; apply swapped_perm; lia|].
    rewrite <- (take_drop n h') at 1.
    rewrite (drop_S _ _ _ Hn), (drop_ge _ (S n)) by lia.
    by rewrite Permutation_app_comm.
  - unfold is_heap. rewrite length_take, Nat.min_l by lia.
    intros k Hk0 Hkn. pose proof (parent_lt k Hk0).
    rewrite !lookup_total_take_lt by lia. by apply Hh'.
  - apply Forall_forall. intros y Hy. by apply heap_root_min.
Qed.
End correctness.

(** The heap order only depends on the order of the elements present. *)
Lemma is_heap_ext {A} `{!Inhabited A} (less1 less2 : A -> A -> bool) (h : list A) :
  (forall x y, x ∈ h -> y ∈ h -> less1 x y = less2 x y) -> is_heap less1 h -> is_heap less2 h.
Proof.
  intros Hext Hh k Hk0 Hk. unfold leq. rewrite <- Hext; [by apply Hh| |].
  - by apply list_elem_of_lookup_total_2.
  - apply list_elem_of_lookup_total_2. pose proof (parent_lt k Hk0). lia.
Qed.
