(* ===== verification/Job.v ===== *)
(** * Jobs and results

    The values exchanged by every part of the program: incoming jobs, jobs of
    a queue, the outcome reported by a worker (src/jobqueue/result.go), and
    the wrappers computing what a completed or retried job looks like
    (src/jobqueue/job.go), with the log entries written about a job
    (src/jobqueue/logger/logger.go). *)

From S2P Require Import Prelude.
Local Open Scope Z_scope.

(** ** Results of a worker *)

Definition ResultStatusSuccess : string := "success".
Definition ResultStatusFailure : string := "failure".
Definition ResultStatusPermanentFailure : string := "permanent-failure".
Definition ResultStatusInternalFailure : string := "internal-failure".

Record Result := {
  res_Status : string;
  res_Code : Z;
  res_Message : string;
}.

Definition IsSuccess (r : Result) : bool :=
  String.eqb (res_Status r) ResultStatusSuccess.

Definition IsFailure (r : Result) : bool :=
  negb (String.eqb (res_Status r) ResultStatusSuccess).

Definition IsPermanentFailure (r : Result) : bool :=
  String.eqb (res_Status r) ResultStatusPermanentFailure.

Definition IsFinished (r : Result) : bool :=
  String.eqb (res_Status r) ResultStatusSuccess
  || String.eqb (res_Status r) ResultStatusPermanentFailure.

Definition IsValid (r : Result) : bool :=
  String.eqb (res_Status r) ResultStatusSuccess
  || String.eqb (res_Status r) ResultStatusFailure
  || String.eqb (res_Status r) ResultStatusPermanentFailure.

(** ** Jobs *)

(** The methods of [jobqueue.IncomingJob]. *)
Record IncomingJob := {
  in_Category : string;
  in_URL : string;
  in_Payload : string;
  in_NextDelay : Z;   (* uint64, milliseconds *)
  in_Timeout : Z;     (* uint, seconds *)
  in_RetryDelay : Z;  (* uint, seconds *)
  in_RetryCount : Z;  (* uint *)
  in_FailureURL : string;
}.

(** What the methods of a [jobqueue.Job], and of the [logger.LoggableJob] its
    [ToLoggable] returns, answer at some moment; [Status] is kept apart. *)
Record Job := {
  job_ID : Z;
  job_Category : string;
  job_URL : string;
  job_Payload : string;
  job_CreatedAt : Z;
  job_NextTry : Z;
  job_Timeout : Z;
  job_RetryDelay : Z;
  job_RetryCount : Z;
  job_FailCount : Z;
  job_FailureURL : string;
}.

#[export] Instance Job_eq_dec : EqDecision Job.
Proof. solve_decision. Defined.

#[export] Instance Job_inhabited : Inhabited Job :=
  populate (Build_Job 0 EmptyString EmptyString EmptyString 0 0 0 0 0 0 EmptyString).

(** Every field fits the Go type it is stored in. *)
Definition job_wf (j : Job) : Prop :=
  is_u64 (job_ID j) /\ is_u64 (job_CreatedAt j) /\ is_u64 (job_NextTry j) /\
  is_u64 (job_Timeout j) /\ is_u64 (job_RetryDelay j) /\
  is_u64 (job_RetryCount j) /\ is_u64 (job_FailCount j).

Definition incoming_wf (j : IncomingJob) : Prop :=
  is_u64 (in_NextDelay j) /\ is_u64 (in_Timeout j) /\
  is_u64 (in_RetryDelay j) /\ is_u64 (in_RetryCount j).

(** The largest capacity [make([]Job, 0, n)] accepts before it panics: the
    48-bit address space of a 64-bit process over the 16 bytes of an interface
    value. *)
Definition max_job_slice : Z := 17592186044416.

(** ** Completed jobs and retries *)

Record completedJob := {
  cj_Job : Job;
  cj_failed : Z;
}.

Definition completedJob_FailCount (j : completedJob) : Z :=
  u64 (job_FailCount (cj_Job j) + cj_failed j).

Definition completedJob_Status (j : completedJob) : string :=
  if cj_failed j =? 0 then "completed" else "failed".

Definition completedJob_canRetry (j : completedJob) : bool :=
  0 <? job_RetryCount (cj_Job j).

Definition set_FailCount (n : Z) (j : Job) : Job := {|
  job_ID := job_ID j;
  job_Category := job_Category j;
  job_URL := job_URL j;
  job_Payload := job_Payload j;
  job_CreatedAt := job_CreatedAt j;
  job_NextTry := job_NextTry j;
  job_Timeout := job_Timeout j;
  job_RetryDelay := job_RetryDelay j;
  job_RetryCount := job_RetryCount j;
  job_FailCount := n;
  job_FailureURL := job_FailureURL j;
|}.

Record LoggableJob := {
  lj_job : Job;
  lj_Status : string;
}.

(** [loggableCompletedJob] overrides the status and the fail count. *)
Definition completedJob_ToLoggable (j : completedJob) : LoggableJob := {|
  lj_job := set_FailCount (completedJob_FailCount j) (cj_Job j);
  lj_Status := completedJob_Status j;
|}.

(** [jobqueue.NextInfo], and the [nextJob] that implements it on top of a
    completed job. *)
Record NextInfo := {
  next_NextDelay : Z;
  next_RetryCount : Z;
  next_FailCount : Z;
}.

(** [uint64(time.Duration(retryDelay) * time.Second / time.Millisecond)]:
    a conversion to int64, a multiplication in int64, a truncated division
    and a conversion back. *)
Definition nextJob_NextDelay (retryDelay : Z) : Z :=
  u64 (Z.quot (i64 (i64 retryDelay * ns_per_s)) ns_per_ms).

Definition nextJob (j : completedJob) : NextInfo := {|
  next_NextDelay := nextJob_NextDelay (job_RetryDelay (cj_Job j));
  next_RetryCount := u64 (job_RetryCount (cj_Job j) - 1);
  next_FailCount := completedJob_FailCount j;
|}.

(** ** Log entries of the queue log *)

Inductive LogLevel := InfoLevel | DebugLevel.

Record LogEntry := {
  le_level : LogLevel;
  le_time : Z;
  le_tag : string;
  le_action : string;
  le_queue : string;
  le_category : string;
  le_id : Z;
  le_status : string;
  le_created_at : Z;
  le_elapsed : Z;
  le_url : string;
  le_payload : string;
  le_next_try : Z;
  le_retry_count : Z;
  le_retry_delay : Z;
  le_fail_count : Z;
  le_timeout : Z;
  le_msg : string;
}.

(** Elapsed time since the job was created, in int64 arithmetic. *)
Definition Elapsed (now : Z) (j : LoggableJob) : Z :=
  i64 (now - i64 (job_CreatedAt (lj_job j))).

Definition put (level : LogLevel) (tag : string) (now : Z)
    (queue action : string) (j : LoggableJob) (msg : string) : LogEntry :=
  let created := i64 (job_CreatedAt (lj_job j)) in
  let elapsed := Elapsed now j in
  {|
    le_level := level;
    le_time := i64 (created + elapsed);
    le_tag := tag;
    le_action := action;
    le_queue := queue;
    le_category := job_Category (lj_job j);
    le_id := job_ID (lj_job j);
    le_status := lj_Status j;
    le_created_at := created;
    le_elapsed := elapsed;
    le_url := job_URL (lj_job j);
    le_payload := job_Payload (lj_job j);
    le_next_try := job_NextTry (lj_job j);
    le_retry_count := job_RetryCount (lj_job j);
    le_retry_delay := job_RetryDelay (lj_job j);
    le_fail_count := job_FailCount (lj_job j);
    le_timeout := job_Timeout (lj_job j);
    le_msg := msg;
  |}.

Definition Info := put InfoLevel.
Definition Debug := put DebugLevel.

(** ** Facts *)

Lemma IsFailure_negb r : IsFailure r = negb (IsSuccess r).
Proof. done. Qed.

Lemma success_not_permanent r : IsSuccess r = true -> IsPermanentFailure r = false.
Proof.
  unfold IsSuccess, IsPermanentFailure. intros ->%String.eqb_eq. reflexivity.
Qed.

(** The delay of a retry is exact for every delay below 2^63 nanoseconds. *)
Lemma nextJob_NextDelay_exact d :
  0 <= d <= 9223372036 -> nextJob_NextDelay d = d * ms_per_s.
Proof.
  intros Hd. unfold nextJob_NextDelay, ns_per_s, ns_per_ms, ms_per_s.
  rewrite (i64_id d) by word. rewrite (i64_id (d * 1000000000)) by word.
  replace (d * 1000000000) with (d * 1000 * 1000000) by lia.
  rewrite Z.quot_mul by lia. apply u64_id. word.
Qed.

Lemma nextJob_NextDelay_range d : is_u64 (nextJob_NextDelay d).
Proof. apply u64_range. Qed.

#[export] Hint Resolve nextJob_NextDelay_range : word.

Lemma put_time level tag now queue action j msg :
  is_i64 now -> le_time (put level tag now queue action j msg) = now.
Proof. intros. cbn. unfold Elapsed. word. Qed.
