(* ===== verification/QueueSpec.v ===== *)
(** * The contract of a job queue

    [aqueue] is the abstract queue every driver promises: jobs that wait for
    their time, and jobs grabbed by the dispatcher.  [Impl] is the interface
    [jobqueue.Impl] (src/jobqueue/jobqueue.go) and [ImplSpec] states, through an
    abstraction relation, that an implementation behaves as [aqueue]. *)

From S2P Require Import Prelude Job.
Local Open Scope Z_scope.

(** ** Errors *)

Inductive QueueError :=
| InactiveError
| ConnectionClosedError
| StoreError (msg : string).

Definition QueueError_Error (e : QueueError) : string :=
  match e with
  | InactiveError => "queue is not active"
  | ConnectionClosedError => "connection has been closed"
  | StoreError msg => msg
  end.

(** ** The abstract queue *)

Record aqueue := {
  waiting : gmap Z Job;
  grabbed : gmap Z Job;
}.

Definition aq_empty : aqueue := {| waiting := ∅; grabbed := ∅ |}.

Definition aq_new_job (now id : Z) (j : IncomingJob) : Job := {|
  job_ID := id;
  job_Category := in_Category j;
  job_URL := in_URL j;
  job_Payload := in_Payload j;
  job_CreatedAt := now;
  job_NextTry := u64 (now + in_NextDelay j);
  job_Timeout := in_Timeout j;
  job_RetryDelay := in_RetryDelay j;
  job_RetryCount := in_RetryCount j;
  job_FailCount := 0;
  job_FailureURL := in_FailureURL j;
|}.

Definition aq_push (now id : Z) (j : IncomingJob) (q : aqueue) : aqueue := {|
  waiting := <[id := aq_new_job now id j]> (waiting q);
  grabbed := grabbed q;
|}.

(** Rescheduling a job for a retry. *)
Definition aq_retry_job (now : Z) (next : NextInfo) (j : Job) : Job := {|
  job_ID := job_ID j;
  job_Category := job_Category j;
  job_URL := job_URL j;
  job_Payload := job_Payload j;
  job_CreatedAt := job_CreatedAt j;
  job_NextTry := u64 (now + next_NextDelay next);
  job_Timeout := job_Timeout j;
  job_RetryDelay := job_RetryDelay j;
  job_RetryCount := next_RetryCount next;
  job_FailCount := next_FailCount next;
  job_FailureURL := job_FailureURL j;
|}.

Definition aq_update (now : Z) (next : NextInfo) (j : Job) (q : aqueue) : aqueue := {|
  waiting := <[job_ID j := aq_retry_job now next j]> (waiting q);
  grabbed := delete (job_ID j) (grabbed q);
|}.

Definition aq_delete (id : Z) (q : aqueue) : aqueue := {|
  waiting := waiting q;
  grabbed := delete id (grabbed q);
|}.

Definition aq_grab1 (q : aqueue) (j : Job) : aqueue := {|
  waiting := delete (job_ID j) (waiting q);
  grabbed := <[job_ID j := j]> (grabbed q);
|}.

Definition aq_grab (js : list Job) (q : aqueue) : aqueue := foldl aq_grab1 q js.

(** [aq_popped now limit q js]: [js] is what a pop of at most [limit] jobs at
    time [now] may return: distinct waiting jobs whose time has come, earliest
    first; a due job is only left behind when the limit is reached, and then
    it is not earlier than any job returned. *)
Record aq_popped (now limit : Z) (q : aqueue) (js : list Job) : Prop := {
  popped_nodup : NoDup (job_ID <$> js);
  popped_limit : Z.of_nat (length js) <= limit;
  popped_due : forall j, j ∈ js -> waiting q !! job_ID j = Some j /\ job_NextTry j <= now;
  popped_sorted : StronglySorted (leq (key_less job_NextTry)) js;
  popped_earliest : forall id j, waiting q !! id = Some j -> job_NextTry j <= now -> j ∉ js ->
    Z.of_nat (length js) = limit /\ forall j', j' ∈ js -> job_NextTry j' <= job_NextTry j;
}.

(** Identifiers are consistent and no job is both waiting and grabbed. *)
Definition aq_wf (q : aqueue) : Prop :=
  map_Forall (fun id j => job_ID j = id) (waiting q) /\
  map_Forall (fun id j => job_ID j = id) (grabbed q) /\
  dom (waiting q) ## dom (grabbed q).

(** Every job of the queue, wherever it is. *)
Definition aq_jobs (q : aqueue) : gmap Z Job := waiting q ∪ grabbed q.

(** ** The driver interface *)

Class Impl (Env St H : Type) := {
  impl_Push : Env -> St -> IncomingJob -> option (St * result QueueError H);
  impl_Pop : Env -> St -> Z -> option (St * result QueueError (list H));
  impl_Delete : Env -> St -> H -> option St;
  impl_Update : Env -> St -> H -> NextInfo -> option St;
  impl_IsActive : St -> bool;
  (** what the methods of the job behind a handle return *)
  impl_job : Env -> St -> H -> Job;
  impl_Status : St -> H -> string;
  (** [FailureLog().Add], when the driver has a failure log; [Some e] is a
      returned error *)
  impl_FailureLog_Add : option (Env -> St -> H -> Result -> St * option QueueError);
}.

(** [None] is a panic of the driver. *)

Class ImplSpec (Env St H : Type) `{!Impl Env St H} := {
  (** the abstraction relation and the clock of a call *)
  impl_abs : St -> aqueue -> Prop;
  impl_now : Env -> Z;
  (** the calls of the environment the contract speaks about *)
  impl_env_ok : Env -> Prop;
  (** handles returned by [Pop] whose job is still grabbed *)
  impl_outstanding : St -> aqueue -> H -> Job -> Prop;
  impl_can_push : Env -> St -> IncomingJob -> Prop;
  impl_can_update : Env -> St -> Job -> NextInfo -> Prop;

  impl_abs_wf s q : impl_abs s q -> aq_wf q;
  impl_outstanding_view e s q h j :
    impl_outstanding s q h j -> impl_job e s h = j /\ grabbed q !! job_ID j = Some j;

  impl_Push_spec e s q j :
    impl_abs s q -> impl_env_ok e -> impl_can_push e s j ->
    exists s' h id, impl_Push e s j = Some (s', Ok h) /\
      aq_jobs q !! id = None /\ impl_abs s' (aq_push (impl_now e) id j q) /\
      job_ID (impl_job e s' h) = id /\
      (forall h' j', impl_outstanding s q h' j' ->
        impl_outstanding s' (aq_push (impl_now e) id j q) h' j');

  impl_Pop_spec e s q limit :
    impl_abs s q -> impl_env_ok e -> 0 <= limit <= max_job_slice ->
    exists s' hs js, impl_Pop e s limit = Some (s', Ok hs) /\
      aq_popped (impl_now e) limit q js /\ impl_abs s' (aq_grab js q) /\
      Forall2 (impl_outstanding s' (aq_grab js q)) hs js /\
      (forall h' j', impl_outstanding s q h' j' -> impl_outstanding s' (aq_grab js q) h' j');

  impl_Delete_spec e s q h j :
    impl_abs s q -> impl_env_ok e -> impl_outstanding s q h j ->
    exists s', impl_Delete e s h = Some s' /\ impl_abs s' (aq_delete (job_ID j) q) /\
      (forall h' j', impl_outstanding s q h' j' -> job_ID j' <> job_ID j ->
        impl_outstanding s' (aq_delete (job_ID j) q) h' j');

  impl_Update_spec e s q h j next :
    impl_abs s q -> impl_env_ok e -> impl_outstanding s q h j -> impl_can_update e s j next ->
    exists s', impl_Update e s h next = Some s' /\
      impl_abs s' (aq_update (impl_now e) next j q) /\
      (forall h' j', impl_outstanding s q h' j' -> job_ID j' <> job_ID j ->
        impl_outstanding s' (aq_update (impl_now e) next j q) h' j');

  (** the failure log is apart from the queue *)
  impl_FailureLog_spec add e s q h res :
    impl_FailureLog_Add = Some add -> impl_abs s q ->
    impl_abs (add e s h res).1 q /\
    (forall h' j', impl_outstanding s q h' j' -> impl_outstanding (add e s h res).1 q h' j');
}.

(** ** Facts about the abstract queue *)

Lemma aq_grab_waiting js q id :
  waiting (aq_grab js q) !! id =
    if decide (id ∈ job_ID <$> js) then None else waiting q !! id.
Proof.
  revert q. induction js as [|j js IH]; intros q; simpl; [done|].
  unfold aq_grab in *. simpl. rewrite IH. simpl.
  rewrite lookup_delete. repeat case_decide; set_solver.
Qed.

Lemma aq_grab_grabbed_ne js q id :
  id ∉ job_ID <$> js -> grabbed (aq_grab js q) !! id = grabbed q !! id.
Proof.
  revert q. induction js as [|j js IH]; intros q; simpl; [done|]. intros Hid.
  unfold aq_grab in *. simpl. rewrite IH by set_solver. simpl.
  rewrite lookup_insert_ne; [done|set_solver].
Qed.

Lemma aq_grab_grabbed js q j :
  NoDup (job_ID <$> js) -> j ∈ js -> grabbed (aq_grab js q) !! job_ID j = Some j.
Proof.
  revert q. induction js as [|j' js IH]; intros q; [set_solver|].
  intros [Hn Hnd]%NoDup_cons Hj. unfold aq_grab. simpl. fold (aq_grab js (aq_grab1 q j')).
  apply elem_of_cons in Hj as [->|Hj]; [|by apply IH].
  rewrite aq_grab_grabbed_ne by done. simpl. by rewrite lookup_insert_eq.
Qed.

(** After a pop the grabbed jobs are those of before and those popped. *)
Lemma aq_grab_dom now limit q js id :
  aq_popped now limit q js -> id ∈ dom (grabbed (aq_grab js q)) <-> id ∈ dom (grabbed q) \/ id ∈ job_ID <$> js.
Proof.
  intros Hp. destruct (decide (id ∈ job_ID <$> js)) as [Hin|Hin].
  - split; [by right|]. intros _. apply list_elem_of_fmap in Hin as (j & -> & Hj).
    apply elem_of_dom. rewrite (aq_grab_grabbed _ _ _ (popped_nodup _ _ _ _ Hp) Hj). eauto.
  - rewrite !elem_of_dom, aq_grab_grabbed_ne by done. naive_solver.
Qed.

Lemma aq_push_wf now id j q :
  aq_wf q -> aq_jobs q !! id = None -> aq_wf (aq_push now id j q).
Proof.
  unfold aq_jobs. intros (Hw & Hg & Hd) [Hid Hid']%lookup_union_None. split_and!; simpl.
  - apply map_Forall_insert_2; done.
  - done.
  - rewrite dom_insert_L. apply not_elem_of_dom in Hid'. set_solver.
Qed.

(** Every job of a pop moves from waiting to grabbed and no job is lost. *)
Lemma aq_grab_jobs now limit q js id :
  aq_wf q -> aq_popped now limit q js -> aq_jobs (aq_grab js q) !! id = aq_jobs q !! id.
Proof.
  intros (Hw & Hg & Hd) Hp. unfold aq_jobs.
  destruct (decide (id ∈ job_ID <$> js)) as [Hin|Hin].
  - apply list_elem_of_fmap in Hin as (j & -> & Hj).
    destruct (popped_due _ _ _ _ Hp j Hj) as [Hwj _].
    rewrite lookup_union_r; [|rewrite aq_grab_waiting, decide_True; [done|set_solver]].
    rewrite (aq_grab_grabbed _ _ _ (popped_nodup _ _ _ _ Hp) Hj).
    by rewrite (lookup_union_Some_l _ _ _ _ Hwj).
  - assert (grabbed (aq_grab js q) !! id = grabbed q !! id) as Eg by by apply aq_grab_grabbed_ne.
    assert (waiting (aq_grab js q) !! id = waiting q !! id) as Ew
      by by rewrite aq_grab_waiting, decide_False.
    by rewrite !lookup_union, Eg, Ew.
Qed.

(** Pops compose: taking an earliest due job and then popping from what is
    left is a pop. *)
Lemma aq_popped_cons now limit q j js :
  waiting q !! job_ID j = Some j -> job_NextTry j <= now ->
  (forall id j', waiting q !! id = Some j' -> job_NextTry j <= job_NextTry j') ->
  aq_popped now (limit - 1) (aq_grab1 q j) js -> aq_popped now limit q (j :: js).
Proof.
  intros Hj Hdue Hmin [Hnd Hlim Hd Hs He]. simpl in *.
  assert (Hout : forall j', j' ∈ js -> job_ID j' <> job_ID j).
  { intros j' Hj' E. apply Hd in Hj' as [Hl _]. by rewrite E, lookup_delete_eq in Hl. }
  split.
  - apply NoDup_cons. split; [|done]. intros (j' & E & Hj')%list_elem_of_fmap.
    by apply (Hout j').
  - simpl. lia.
  - intros j' [->|Hj']%elem_of_cons; [done|].
    destruct (Hd j' Hj') as [Hl ?]. by rewrite lookup_delete_ne in Hl by (by apply not_eq_sym, Hout).
  - constructor; [done|]. apply Forall_forall. intros j' Hj'.
    destruct (Hd j' Hj') as [Hl _]. apply lookup_delete_Some in Hl as [_ Hl].
    unfold leq, key_less. apply Z.ltb_ge. by apply Hmin with (job_ID j').
  - intros id j' Hl Hdue' Hni. apply not_elem_of_cons in Hni as [Hne Hni].
    destruct (He id j') as [El Hle].
    + apply lookup_delete_Some. split; [|done]. intros <-. congruence.
    + done.
    + done.
    + simpl. split; [lia|]. intros j'' [->|Hj'']%elem_of_cons; [by apply Hmin with id|by apply Hle].
Qed.

Lemma aq_popped_nil now limit q :
  0 <= limit -> limit = 0 \/ (forall id j, waiting q !! id = Some j -> now < job_NextTry j) ->
  aq_popped now limit q [].
Proof.
  intros H0 Hc. split; simpl; try (by constructor); try set_solver.
  intros id j Hj Hdue _. split; [|set_solver].
  destruct Hc as [->|Hc]; [done|]. specialize (Hc _ _ Hj). lia.
Qed.

(** A job that was already grabbed stays so during a pop. *)
Lemma aq_grab_kept now limit q js j :
  aq_wf q -> aq_popped now limit q js -> grabbed q !! job_ID j = Some j ->
  grabbed (aq_grab js q) !! job_ID j = Some j.
Proof.
  intros (_ & _ & Hd) Hp Hg. rewrite aq_grab_grabbed_ne; [done|].
  intros (j' & E & Hj')%list_elem_of_fmap.
  destruct (popped_due _ _ _ _ Hp j' Hj') as [Hw _].
  apply (Hd (job_ID j)); apply elem_of_dom; [rewrite E|]; eauto.
Qed.

Lemma aq_jobs_push now id j q id' :
  aq_jobs (aq_push now id j q) !! id' =
    if decide (id' = id) then Some (aq_new_job now id j) else aq_jobs q !! id'.
Proof.
  unfold aq_jobs. simpl. rewrite <- insert_union_l, lookup_insert. repeat case_decide; congruence.
Qed.

Lemma aq_jobs_grabbed q id j : aq_wf q -> grabbed q !! id = Some j -> aq_jobs q !! id = Some j.
Proof.
  intros (_ & _ & Hd) Hg. unfold aq_jobs. rewrite lookup_union_r; [done|].
  apply not_elem_of_dom. intros Hw. apply (Hd id Hw), elem_of_dom. eauto.
Qed.

Lemma aq_jobs_waiting q id j : waiting q !! id = Some j -> aq_jobs q !! id = Some j.
Proof. apply lookup_union_Some_l. Qed.

Lemma aq_jobs_delete q j id :
  aq_wf q -> grabbed q !! job_ID j = Some j ->
  aq_jobs (aq_delete (job_ID j) q) !! id = if decide (id = job_ID j) then None else aq_jobs q !! id.
Proof.
  intros (_ & _ & Hd) Hg. unfold aq_jobs. simpl. case_decide as E.
  - subst id. apply lookup_union_None. split; [|apply lookup_delete_eq].
    apply not_elem_of_dom. intros Hw. apply (Hd _ Hw), elem_of_dom. eauto.
  - by rewrite !lookup_union, lookup_delete_ne.
Qed.

Lemma aq_jobs_update now next q j id :
  aq_jobs (aq_update now next j q) !! id =
    if decide (id = job_ID j) then Some (aq_retry_job now next j) else aq_jobs q !! id.
Proof.
  unfold aq_jobs. simpl. rewrite <- insert_union_l, lookup_insert.
  repeat case_decide; try congruence. by rewrite !lookup_union, lookup_delete_ne.
Qed.
