(* ===== verification/InMemory.v ===== *)
(** * The in-memory driver (src/jobqueue/inmemory/jobqueue.go)

    Jobs are heap-allocated objects shared by pointer: [store] is the memory
    holding them (a pointer is an index), [queue] is the slice [[]*job] ordered
    by container/heap, [lastID] the package variable.  [Pop] hands pointers
    out, and [Update] mutates the object behind a pointer before pushing it
    back; every method runs under the mutex, so methods are atomic. *)

From S2P Require Import Prelude Heap Job QueueSpec.
Local Open Scope Z_scope.

(** ** State *)

Record imjob := {
  im_IncomingJob : IncomingJob;
  im_id : Z;
  im_createdAt : Z;
  im_nextTry : Z;
  im_retryCount : Z;
  im_failCount : Z;
}.

Record inmemory := {
  store : list imjob;
  queue : list nat;
  lastID : Z;
}.

(** The methods of [*job]; [RetryCount] overrides that of the incoming job. *)
Definition imjob_Job (j : imjob) : Job := {|
  job_ID := im_id j;
  job_Category := in_Category (im_IncomingJob j);
  job_URL := in_URL (im_IncomingJob j);
  job_Payload := in_Payload (im_IncomingJob j);
  job_CreatedAt := im_createdAt j;
  job_NextTry := im_nextTry j;
  job_Timeout := in_Timeout (im_IncomingJob j);
  job_RetryDelay := in_RetryDelay (im_IncomingJob j);
  job_RetryCount := im_retryCount j;
  job_FailCount := im_failCount j;
  job_FailureURL := in_FailureURL (im_IncomingJob j);
|}.

Definition imjob_Status : string := "claimed".

(** ** heap.Interface of [queue] *)

Definition NextTry (st : list imjob) (p : nat) : Z :=
  match st !! p with Some j => im_nextTry j | None => 0 end.

Definition queue_Len (q : list nat) : nat := length q.

Definition queue_Less (st : list imjob) (q : list nat) (i j : nat) : option bool :=
  p1 ← q !! i; p2 ← q !! j; Some (NextTry st p1 <? NextTry st p2).

Definition queue_Swap (q : list nat) (i j : nat) : option (list nat) :=
  p1 ← q !! i; p2 ← q !! j; Some (<[j := p1]> (<[i := p2]> q)).

Definition queue_Push (q : list nat) (p : nat) : list nat := q ++ [p].

Definition queue_Pop (q : list nat) : option (nat * list nat) :=
  let n := length q in
  x ← q !! (n - 1)%nat;
  Some (x, take (n - 1) q).

Definition queue_interface (st : list imjob) : Interface (list nat) nat := {|
  Len := queue_Len;
  Less := queue_Less st;
  Swap := queue_Swap;
  IPush := queue_Push;
  IPop := queue_Pop;
|}.

(** ** Operations *)

Definition inmemory_New (lastID : Z) : inmemory :=
  {| store := []; queue := []; lastID := lastID |}.

Definition newJob (id now : Z) (j : IncomingJob) : imjob := {|
  im_IncomingJob := j;
  im_id := id;
  im_createdAt := u64 now;
  im_nextTry := u64 (u64 now + in_NextDelay j);
  im_retryCount := in_RetryCount j;
  im_failCount := 0;
|}.

Definition inmemory_Push (now : Z) (s : inmemory) (j : IncomingJob)
    : option (inmemory * result QueueError nat) :=
  let id := u64 (lastID s + 1) in
  let p := length (store s) in
  let st := store s ++ [newJob id now j] in
  q ← heap_Push (queue_interface st) (queue s) p;
  Some ({| store := st; queue := q; lastID := id |}, Ok p).

(** The loop of [Pop]: every round but the last removes one element, so one
    more round than elements is enough. *)
Fixpoint inmemory_pop_loop (fuel : nat) (now limit i : Z) (st : list imjob) (q : list nat)
    : option (list nat * list nat) :=
  match fuel with
  | O => Some (q, [])
  | S fuel =>
      if negb (i <? limit) then Some (q, [])
      else if (queue_Len q <=? 0)%nat then Some (q, [])
      else
        p0 ← q !! 0%nat;
        if now <? NextTry st p0 then Some (q, [])
        else
          '(p, q') ← heap_Pop (queue_interface st) q;
          '(q'', ps) ← inmemory_pop_loop fuel now limit (i + 1) st q';
          Some (q'', p :: ps)
  end.

Definition inmemory_Pop (now : Z) (s : inmemory) (limit : Z)
    : option (inmemory * result QueueError (list nat)) :=
  let now := u64 now in
  if max_job_slice <? limit then None
  else
    '(q, ps) ← inmemory_pop_loop (S (length (queue s))) now limit 0 (store s) (queue s);
    Some ({| store := store s; queue := q; lastID := lastID s |}, Ok ps).

(** Nothing to do: the job left the queue on [Pop]. *)
Definition inmemory_Delete (s : inmemory) (p : nat) : option inmemory := Some s.

Definition inmemory_Update (now : Z) (s : inmemory) (p : nat) (next : NextInfo)
    : option inmemory :=
  j ← store s !! p;
  let j' := {|
    im_IncomingJob := im_IncomingJob j;
    im_id := im_id j;
    im_createdAt := im_createdAt j;
    im_nextTry := u64 (u64 now + next_NextDelay next);
    im_retryCount := next_RetryCount next;
    im_failCount := next_FailCount next;
  |} in
  let st := <[p := j']> (store s) in
  q ← heap_Push (queue_interface st) (queue s) p;
  Some {| store := st; queue := q; lastID := lastID s |}.

Definition inmemory_IsActive (s : inmemory) : bool := true.

(** The driver as an implementation of [jobqueue.Impl]; the environment of a
    call is its clock reading in milliseconds. *)
#[export] Instance inmemory_Impl : Impl Z inmemory nat := {|
  impl_Push := inmemory_Push;
  impl_Pop := inmemory_Pop;
  impl_Delete _ := inmemory_Delete;
  impl_Update := inmemory_Update;
  impl_IsActive := inmemory_IsActive;
  impl_job _ s p := default inhabitant (imjob_Job <$> store s !! p);
  impl_Status _ _ := imjob_Status;
  impl_FailureLog_Add := None;
|}.

(** ** Invariant *)

Definition im_view (s : inmemory) (p : nat) : option Job := imjob_Job <$> store s !! p.

Record im_wf (s : inmemory) : Prop := {
  wf_heap : is_heap (key_less (NextTry (store s))) (queue s);
  wf_nodup : NoDup (queue s);
  wf_ptr : forall p, p ∈ queue s -> is_Some (store s !! p);
  wf_ids : NoDup (im_id <$> store s);
  wf_lastID : Forall (fun j => 1 <= im_id j <= lastID s) (store s);
  wf_last : 0 <= lastID s <= u64_max;
}.

Record im_abs (s : inmemory) (q : aqueue) : Prop := {
  abs_wf : im_wf s;
  abs_waiting : forall id j, waiting q !! id = Some j <->
    exists p, p ∈ queue s /\ im_view s p = Some j /\ job_ID j = id;
  abs_grabbed : forall id j, grabbed q !! id = Some j ->
    exists p, p ∉ queue s /\ im_view s p = Some j /\ job_ID j = id;
}.

Definition im_outstanding (s : inmemory) (q : aqueue) (p : nat) (j : Job) : Prop :=
  im_view s p = Some j /\ p ∉ queue s /\ grabbed q !! job_ID j = Some j.

(** The methods of [queue] are those of a slice ordered by [nextTry]. *)
Lemma queue_interface_slice st :
  queue_interface st = slice_interface (key_less (NextTry st)).
Proof. reflexivity. Qed.

Lemma im_view_store s p j :
  im_view s p = Some j <-> exists ij, store s !! p = Some ij /\ imjob_Job ij = j.
Proof. unfold im_view. destruct (store s !! p); naive_solver. Qed.

(** A job identifier determines the pointer. *)
Lemma im_view_inj s p1 p2 j1 j2 :
  im_wf s -> im_view s p1 = Some j1 -> im_view s p2 = Some j2 -> job_ID j1 = job_ID j2 -> p1 = p2.
Proof.
  intros Hwf (i1 & H1 & <-)%im_view_store (i2 & H2 & <-)%im_view_store. simpl. intros E.
  eapply (NoDup_lookup (im_id <$> store s) p1 p2 (im_id i1)); [apply wf_ids, Hwf|..].
  - by rewrite list_lookup_fmap, H1.
  - by rewrite list_lookup_fmap, H2, E.
Qed.

Lemma im_view_NextTry s p j : im_view s p = Some j -> NextTry (store s) p = job_NextTry j.
Proof. intros (i & H & <-)%im_view_store. unfold NextTry. by rewrite H. Qed.

Lemma im_view_id_range s p j :
  im_wf s -> im_view s p = Some j -> 1 <= job_ID j <= lastID s.
Proof.
  intros Hwf (i & H & <-)%im_view_store.
  apply (Forall_lookup_1 _ _ _ _ (wf_lastID s Hwf) H).
Qed.

Lemma im_abs_aq_wf s q : im_abs s q -> aq_wf q.
Proof.
  intros [Hwf Hw Hg]. split_and!.
  - intros id j (p & _ & _ & E)%Hw. done.
  - intros id j (p & _ & _ & E)%Hg. done.
  - intros id [j (p & Hp & Hv & E)%Hw]%elem_of_dom [j' (p' & Hp' & Hv' & E')%Hg]%elem_of_dom.
    assert (p = p') by (eapply im_view_inj; eauto; congruence). congruence.
Qed.

(** A job of the abstract queue that is grabbed is behind a pointer which is
    not in the heap. *)
Lemma im_outstanding_intro s q p j :
  im_abs s q -> im_view s p = Some j -> grabbed q !! job_ID j = Some j -> im_outstanding s q p j.
Proof.
  intros Ha Hv Hg. split_and!; [done| |done]. intros Hp.
  destruct (abs_grabbed s q Ha _ _ Hg) as (p' & Hp' & Hv' & _).
  assert (p = p') by (eapply im_view_inj; eauto; apply Ha). congruence.
Qed.

(** An identifier above [lastID] is not in use. *)
Lemma im_fresh s q : im_abs s q -> aq_jobs q !! (lastID s + 1) = None.
Proof.
  intros Ha. apply lookup_union_None. split; apply eq_None_not_Some; intros [j Hj].
  - apply (abs_waiting s q Ha) in Hj as (p & _ & Hv & E).
    apply im_view_id_range in Hv; [lia|apply Ha].
  - apply (abs_grabbed s q Ha) in Hj as (p & _ & Hv & E).
    apply im_view_id_range in Hv; [lia|apply Ha].
Qed.

(** ** Operations against the contract *)

(** Pushing a pointer on the heap when the objects already in the heap kept
    their time. *)
Lemma im_heap_Push s st p :
  im_wf s -> (forall p', p' ∈ queue s -> NextTry st p' = NextTry (store s) p') ->
  exists q', heap_Push (queue_interface st) (queue s) p = Some q' /\
    q' ≡ₚ p :: queue s /\ is_heap (key_less (NextTry st)) q'.
Proof.
  intros Hwf Hext. rewrite queue_interface_slice. apply heap_Push_spec; [apply _|].
  eapply is_heap_ext; [|apply wf_heap, Hwf].
  intros x y Hx Hy. unfold key_less. by rewrite !Hext.
Qed.

(** Moving the object behind [p], which is not in the heap, into the heap,
    with job [j], makes [j] waiting. *)
Lemma im_abs_enqueue s s' q p j g :
  im_abs s q -> im_wf s' -> queue s' ≡ₚ p :: queue s -> im_view s' p = Some j ->
  (forall p', p' <> p -> is_Some (store s !! p') -> im_view s' p' = im_view s p') ->
  (forall x, im_view s p = Some x -> job_ID x = job_ID j) ->
  (forall id x, g !! id = Some x -> grabbed q !! id = Some x /\ id <> job_ID j) ->
  im_abs s' {| waiting := <[job_ID j := j]> (waiting q); grabbed := g |}.
Proof.
  intros Ha Hwf' Hperm Hv Hsame Hid Hg. pose proof (abs_wf s q Ha) as Hwf.
  assert (Hp : p ∉ queue s).
  { pose proof (wf_nodup s' Hwf') as Hnd. rewrite Hperm in Hnd. by apply NoDup_cons in Hnd as [? _]. }
  assert (Hin : forall p', p' ∈ queue s -> im_view s' p' = im_view s p').
  { intros p' Hp'. apply Hsame; [congruence|by apply Hwf]. }
  split; [done|..]; simpl.
  - intros id x. rewrite lookup_insert_Some, (abs_waiting s q Ha). setoid_rewrite Hperm.
    setoid_rewrite elem_of_cons. split.
    + intros [[<- <-]|[Hne (p' & Hp' & Hv' & E)]]; [by exists p; auto|].
      exists p'. rewrite Hin by done. auto.
    + intros (p' & [->|Hp'] & Hv' & E).
      * left. naive_solver.
      * right. split; [|exists p'; rewrite <- Hin by done; auto].
        intros E'. apply Hp. replace p with p'; [done|].
        eapply im_view_inj; [exact Hwf'|exact Hv'|exact Hv|congruence].
  - intros id x Hgx. apply Hg in Hgx as [Hgx Hne].
    apply (abs_grabbed s q Ha) in Hgx as (p' & Hp' & Hv' & E).
    assert (p' <> p) by (intros ->; apply Hid in Hv'; congruence).
    exists p'. rewrite Hperm, Hsame; [set_solver|done|].
    apply im_view_store in Hv' as (? & -> & _). eauto.
Qed.

Lemma im_push_wf now s j q' :
  im_wf s -> lastID s < u64_max ->
  let st := store s ++ [newJob (lastID s + 1) now j] in
  q' ≡ₚ length (store s) :: queue s -> is_heap (key_less (NextTry st)) q' ->
  im_wf {| store := st; queue := q'; lastID := lastID s + 1 |}.
Proof.
  intros Hwf Hlast st Hperm Hheap. pose proof (wf_last s Hwf).
  assert (Hlt : forall p, p ∈ queue s -> (p < length (store s))%nat).
  { intros p [x Hx%lookup_lt_Some]%(wf_ptr s Hwf). done. }
  split; simpl; [done|..|lia].
  - rewrite Hperm. constructor; [|apply Hwf]. intros Hp%Hlt. lia.
  - intros p. rewrite Hperm. rewrite elem_of_cons. intros Hp. apply lookup_lt_is_Some.
    unfold st. rewrite length_app. simpl. destruct Hp as [->|Hp%Hlt]; lia.
  - unfold st. rewrite fmap_app. apply NoDup_app. split_and!; [apply Hwf| |by apply NoDup_singleton].
    intros id (x & -> & Hx)%list_elem_of_fmap. simpl.
    pose proof (wf_lastID s Hwf) as Hr. rewrite Forall_forall in Hr. specialize (Hr x Hx).
    intros E%list_elem_of_singleton. lia.
  - apply Forall_app. split; [|repeat constructor; simpl; lia].
    eapply Forall_impl; [apply Hwf|]. simpl. lia.
Qed.

Lemma inmemory_Push_spec now s q j :
  im_abs s q -> is_u64 now -> lastID s < u64_max ->
  exists s' p, inmemory_Push now s j = Some (s', Ok p) /\
    im_abs s' (aq_push now (lastID s + 1) j q) /\
    im_view s' p = Some (aq_new_job now (lastID s + 1) j) /\
    (forall p' j', im_view s p' = Some j' -> im_view s' p' = Some j').
Proof.
  intros Ha Hnow Hlast. pose proof (abs_wf s q Ha) as Hwf. pose proof (wf_last s Hwf) as Hl.
  unfold inmemory_Push. rewrite (u64_id (lastID s + 1)) by word.
  set (st := store s ++ [newJob (lastID s + 1) now j]). set (p := length (store s)).
  assert (Hold : forall p', is_Some (store s !! p') -> st !! p' = store s !! p').
  { intros p' [x Hx]. unfold st. by rewrite (lookup_app_l_Some _ _ _ _ Hx). }
  destruct (im_heap_Push s st p Hwf) as (q' & -> & Hperm & Hheap).
  { intros p' Hp'. unfold NextTry. by rewrite Hold by by apply Hwf. }
  simpl. eexists _, p. split; [done|]. set (s' := {| store := st |}).
  assert (Hv : im_view s' p = Some (aq_new_job now (lastID s + 1) j)).
  { unfold im_view, s', st, p. simpl. rewrite lookup_app_r, Nat.sub_diag by lia. simpl.
    unfold imjob_Job, aq_new_job. simpl. by rewrite (u64_id now). }
  split; [|split; [done|]]; last first.
  { intros p' j' (i & Hi & <-)%im_view_store. unfold im_view. simpl. by rewrite Hold, Hi by eauto. }
  apply (im_abs_enqueue s s' q p (aq_new_job now (lastID s + 1) j) (grabbed q) Ha); [by apply im_push_wf|done|done|..].
  - intros p' Hne Hs. unfold im_view. simpl. by rewrite Hold.
  - intros x (i & Hi%lookup_lt_Some & _)%im_view_store. unfold p in Hi. lia.
  - intros id x Hx. split; [done|]. simpl.
    apply (abs_grabbed s q Ha) in Hx as (p' & _ & Hv' & <-).
    apply im_view_id_range in Hv'; [lia|done].
Qed.

(** Mutating the job behind a pointer that is not in the heap. *)
Lemma im_update_wf s p ij ij' q' :
  im_wf s -> store s !! p = Some ij -> p ∉ queue s -> im_id ij' = im_id ij ->
  let st := <[p := ij']> (store s) in
  q' ≡ₚ p :: queue s -> is_heap (key_less (NextTry st)) q' ->
  im_wf {| store := st; queue := q'; lastID := lastID s |}.
Proof.
  intros Hwf Hij Hp Eid st Hperm Hheap.
  assert (Hids : im_id <$> st = im_id <$> store s).
  { unfold st. rewrite list_fmap_insert. apply list_insert_id.
    by rewrite list_lookup_fmap, Hij, Eid. }
  split; simpl; [done|..|apply Hwf].
  - rewrite Hperm. constructor; [done|apply Hwf].
  - intros p'. rewrite Hperm, elem_of_cons. intros Hp'. apply lookup_lt_is_Some.
    unfold st. rewrite length_insert. apply lookup_lt_is_Some.
    destruct Hp' as [->|Hp']; [eauto|by apply Hwf].
  - rewrite Hids. apply Hwf.
  - apply Forall_insert; [apply Hwf|]. rewrite Eid.
    apply (Forall_lookup_1 _ _ _ _ (wf_lastID s Hwf) Hij).
Qed.

Lemma inmemory_Update_spec now s q p j next :
  im_abs s q -> is_u64 now -> im_outstanding s q p j ->
  exists s', inmemory_Update now s p next = Some s' /\ im_abs s' (aq_update now next j q) /\
    (forall p' j', p' <> p -> im_view s p' = Some j' -> im_view s' p' = Some j').
Proof.
  intros Ha Hnow (Hv & Hp & Hgr). pose proof (abs_wf s q Ha) as Hwf.
  apply im_view_store in Hv as Hv'. destruct Hv' as (ij & Hij & Ej).
  unfold inmemory_Update. rewrite Hij. cbn [mbind option_bind].
  set (ij' := {| im_IncomingJob := im_IncomingJob ij |}). set (st := <[p := ij']> (store s)).
  assert (Hold : forall p', p' <> p -> st !! p' = store s !! p').
  { intros p' Hne. unfold st. by rewrite list_lookup_insert_ne. }
  destruct (im_heap_Push s st p Hwf) as (q' & -> & Hperm & Hheap).
  { intros p' Hp'. unfold NextTry. rewrite Hold; [done|congruence]. }
  simpl. eexists. split; [done|]. set (s' := {| store := st |}).
  assert (Hvs : im_view s' p = Some (aq_retry_job now next j)).
  { unfold im_view, s', st. simpl.
    rewrite list_lookup_insert_eq by by eapply lookup_lt_Some. simpl. subst j.
    unfold imjob_Job, aq_retry_job. simpl. by rewrite (u64_id now). }
  split; last first.
  { intros p' j' Hne Hv'. unfold im_view in *. simpl. by rewrite Hold. }
  apply (im_abs_enqueue s s' q p (aq_retry_job now next j) (delete (job_ID j) (grabbed q)) Ha).
  - by apply (im_update_wf s p ij).
  - done.
  - done.
  - intros p' Hne _. unfold im_view. simpl. by rewrite Hold.
  - intros x Hx. simpl. congruence.
  - intros id x [Hne Hx]%lookup_delete_Some. simpl. auto.
Qed.

(** One round of [Pop]: the root of the heap is an earliest waiting job, and
    removing it grabs that job. *)
Lemma im_heap_Pop s q p0 :
  im_abs s q -> queue s !! 0%nat = Some p0 ->
  exists q' j, heap_Pop (queue_interface (store s)) (queue s) = Some (p0, q') /\
    (length q' < length (queue s))%nat /\ im_view s p0 = Some j /\
    waiting q !! job_ID j = Some j /\
    (forall id j', waiting q !! id = Some j' -> job_NextTry j <= job_NextTry j') /\
    im_abs {| store := store s; queue := q'; lastID := lastID s |} (aq_grab1 q j).
Proof.
  intros Ha H0. pose proof (abs_wf s q Ha) as Hwf.
  rewrite queue_interface_slice.
  destruct (heap_Pop_spec (key_less (NextTry (store s))) (queue s))
    as (x & q' & -> & Hx & Hperm & Hheap & Hmin); [apply Hwf|by eapply lookup_lt_Some|].
  assert (x = p0) as -> by congruence. clear Hx.
  assert (Hp0 : p0 ∈ queue s) by (rewrite Hperm; set_solver).
  assert (exists j, im_view s p0 = Some j) as [j Hv].
  { destruct (wf_ptr s Hwf p0 Hp0) as [ij Hij]. unfold im_view. rewrite Hij. by eexists. }
  assert (Hnd : NoDup (p0 :: q')) by (rewrite <- Hperm; apply Hwf).
  apply NoDup_cons in Hnd as [Hni Hnd].
  exists q', j. split_and!; [done| |done|by apply Ha; eauto| |].
  - rewrite Hperm. simpl. lia.
  - intros id j' (p' & Hp' & Hv' & <-)%(abs_waiting s q Ha).
    rewrite Forall_forall in Hmin. specialize (Hmin p' Hp').
    unfold leq, key_less in Hmin. apply Z.ltb_ge in Hmin.
    by rewrite <- (im_view_NextTry s p0 j Hv), <- (im_view_NextTry s p' j' Hv').
  - split; simpl.
    + split; simpl; [done|done| |apply Hwf..]. intros p' Hp'. apply Hwf. rewrite Hperm. set_solver.
    + intros id j'. rewrite lookup_delete_Some, (abs_waiting s q Ha). setoid_rewrite Hperm. split.
      * intros [Hne (p' & [->|Hp']%elem_of_cons & Hv' & <-)]; [congruence|eauto].
      * intros (p' & Hp' & Hv' & <-). split; [|exists p'; set_solver].
        intros E. assert (p0 = p') by (eapply im_view_inj; eauto). congruence.
    + intros id j'. rewrite lookup_insert_Some. intros [[<- <-]|[Hne Hg]]; [by exists p0|].
      apply (abs_grabbed s q Ha) in Hg as (p' & Hp' & Hv' & E).
      exists p'. split_and!; [|done..]. rewrite Hperm in Hp'. set_solver.
Qed.

(** The whole loop of [Pop] returns a pop of the abstract queue; one more
    round than elements is enough fuel. *)
Lemma inmemory_pop_loop_spec fuel now limit i s q :
  im_abs s q -> (length (queue s) < fuel)%nat -> i <= limit ->
  exists q' ps js, inmemory_pop_loop fuel now limit i (store s) (queue s) = Some (q', ps) /\
    aq_popped now (limit - i) q js /\
    im_abs {| store := store s; queue := q'; lastID := lastID s |} (aq_grab js q) /\
    Forall2 (fun p j => im_view s p = Some j) ps js.
Proof.
  revert i s q. induction fuel as [|fuel IH]; intros i s q Ha Hf Hi; [lia|]. simpl.
  assert (Hnil : limit - i = 0 \/ (forall id j, waiting q !! id = Some j -> now < job_NextTry j) ->
    exists q' ps js, Some (queue s, @nil nat) = Some (q', ps) /\ aq_popped now (limit - i) q js /\
    im_abs {| store := store s; queue := q'; lastID := lastID s |} (aq_grab js q) /\
    Forall2 (fun p j => im_view s p = Some j) ps js).
  { intros Hc. exists (queue s), [], []. split_and!; [done| |by destruct s|done].
    apply aq_popped_nil; [lia|done]. }
  destruct (Z.ltb_spec i limit) as [Hlt|]; simpl; [|apply Hnil; left; lia].
  destruct (queue s) as [|p0 l] eqn:Eq; simpl.
  { apply Hnil. right. intros id j (p & Hp & _)%(abs_waiting s q Ha). rewrite Eq in Hp. set_solver. }
  assert (H0 : queue s !! 0%nat = Some p0) by by rewrite Eq.
  destruct (im_heap_Pop s q p0 Ha H0) as (q' & j & Epop & Hlen & Hv & Hw & Hmin & Ha').
  rewrite (im_view_NextTry s p0 j Hv).
  destruct (Z.ltb_spec now (job_NextTry j)) as [Hnd|Hdue].
  { apply Hnil. right. intros id j' Hj'. specialize (Hmin _ _ Hj'). lia. }
  rewrite Eq in Epop. rewrite Epop. simpl.
  set (s1 := {| store := store s; queue := q'; lastID := lastID s |}) in *.
  destruct (IH (i + 1) s1 (aq_grab1 q j) Ha') as (q'' & ps & js & E & Hpop & Ha'' & Hvs).
  { rewrite Eq in Hlen. simpl in *. lia. }
  { lia. }
  simpl in E. rewrite E. simpl. exists q'', (p0 :: ps), (j :: js). split_and!; [done| |done|].
  - apply aq_popped_cons; [done..|]. by replace (limit - i - 1) with (limit - (i + 1)) by lia.
  - constructor; [done|]. exact Hvs.
Qed.

(** ** The driver implements the contract *)

Lemma inmemory_Pop_spec now s q limit :
  im_abs s q -> is_u64 now -> 0 <= limit <= max_job_slice ->
  exists s' ps js, inmemory_Pop now s limit = Some (s', Ok ps) /\
    aq_popped now limit q js /\ im_abs s' (aq_grab js q) /\
    Forall2 (im_outstanding s' (aq_grab js q)) ps js /\ store s' = store s.
Proof.
  intros Ha Hnow Hlim. unfold inmemory_Pop. rewrite (u64_id now) by done.
  destruct (Z.ltb_spec max_job_slice limit) as [|_]; [lia|].
  destruct (inmemory_pop_loop_spec (S (length (queue s))) now limit 0 s q)
    as (q' & ps & js & -> & Hpop & Ha' & Hvs); [done|lia|lia|].
  rewrite Z.sub_0_r in Hpop. simpl. eexists _, ps, js. split_and!; [done..| |done].
  apply Forall2_same_length_lookup_2; [by eapply Forall2_length|].
  intros i p j Hp Hj. apply im_outstanding_intro; [done| |].
  - apply (Forall2_lookup_lr _ _ _ _ _ _ Hvs Hp Hj).
  - apply aq_grab_grabbed; [apply Hpop|]. by apply list_elem_of_lookup_2 in Hj.
Qed.

#[export] Instance inmemory_ImplSpec : ImplSpec Z inmemory nat.
Proof.
  refine {|
    impl_abs := im_abs;
    impl_now e := e;
    impl_env_ok := is_u64;
    impl_outstanding := im_outstanding;
    impl_can_push e s j := lastID s < u64_max;
    impl_can_update e s j next := True;
    impl_abs_wf := im_abs_aq_wf;
  |}.
  - intros e s q p j (Hv & _ & Hg). split; [|done]. simpl.
    unfold im_view in Hv. by rewrite Hv.
  - intros e s q j Ha He Hp.
    destruct (inmemory_Push_spec e s q j Ha He Hp) as (s' & p & E & Ha' & Hv & Hst).
    exists s', p, (lastID s + 1). split_and!; [done|by apply im_fresh|done| |].
    + simpl. unfold im_view in Hv. by rewrite Hv.
    + intros p' j' (Hv' & _ & Hg'). apply im_outstanding_intro; auto.
  - intros e s q limit Ha He Hl.
    destruct (inmemory_Pop_spec e s q limit Ha He Hl) as (s' & ps & js & E & Hpop & Ha' & Ho & Hst).
    exists s', ps, js. split_and!; [done..|]. intros p' j' (Hv' & _ & Hg').
    apply im_outstanding_intro; [done| |].
    + unfold im_view. by rewrite Hst.
    + eapply aq_grab_kept; eauto using im_abs_aq_wf.
  - intros e s q p j Ha _ (Hv & Hp & Hg). exists s. split_and!; [done|..].
    + destruct Ha as [Hwf Hw Hgr]. split; [done..|]. simpl.
      intros id x [_ Hx]%lookup_delete_Some. by apply Hgr.
    + intros p' j' (Hv' & Hp' & Hg') Hne. split_and!; [done..|]. simpl.
      by rewrite lookup_delete_ne.
  - intros e s q p j next Ha He Ho _.
    destruct (inmemory_Update_spec e s q p j next Ha He Ho) as (s' & E & Ha' & Hst).
    exists s'. split_and!; [done..|]. intros p' j' (Hv' & Hp' & Hg') Hne.
    apply im_outstanding_intro; [done| |simpl; by rewrite lookup_delete_ne].
    apply Hst; [|done]. intros ->. destruct Ho as (Hv & _). congruence.
  - intros add e s q p res. done.
Defined.

Lemma im_abs_New n : 0 <= n <= u64_max -> im_abs (inmemory_New n) aq_empty.
Proof.
  intros Hn. split; simpl.
  - split; simpl; [|by apply NoDup_nil_2|set_solver|by apply NoDup_nil_2|done|done].
    intros k Hk0 Hk. simpl in Hk. lia.
  - intros id j. rewrite lookup_empty. split; [done|]. intros (p & Hp & _). set_solver.
  - intros id j. by rewrite lookup_empty.
Qed.

(** ** Theorems *)

(** C5 (refinement): on a state of the in-memory driver that represents the
    abstract queue [q], [Pop] never panics or fails and returns, earliest
    first, the earliest due jobs, up to [limit]; a due job is left only when the
    limit is reached, and what remains represents the queue with exactly these
    jobs grabbed. *)
Theorem inmemory_Pop_refines now s q limit :
  im_abs s q -> is_u64 now -> 0 <= limit <= max_job_slice ->
  exists s' ps js, inmemory_Pop now s limit = Some (s', Ok ps) /\
    Forall2 (fun p j => im_view s' p = Some j) ps js /\
    aq_popped now limit q js /\ im_abs s' (aq_grab js q).
Proof.
  intros Ha Hn Hl. destruct (inmemory_Pop_spec now s q limit Ha Hn Hl)
    as (s' & ps & js & E & Hpop & Ha' & Ho & _).
  exists s', ps, js. split_and!; [done| |done..].
  eapply Forall2_impl; [exact Ho|]. by intros p j (? & _).
Qed.

(** [Push] adds exactly one waiting job under a fresh
    identifier, and [Update] of a grabbed job makes it wait again with its new
    time and counters; neither panics, and the heap order survives the mutation
    of the shared job object. *)
Theorem inmemory_Push_Update_refines now s q :
  im_abs s q -> is_u64 now ->
  (forall j, lastID s < u64_max -> exists s' p, inmemory_Push now s j = Some (s', Ok p) /\
     aq_jobs q !! (lastID s + 1) = None /\ im_abs s' (aq_push now (lastID s + 1) j q)) /\
  (forall p j next, im_outstanding s q p j -> exists s', inmemory_Update now s p next = Some s' /\
     im_abs s' (aq_update now next j q)).
Proof.
  intros Ha Hn. split.
  - intros j Hl. destruct (inmemory_Push_spec now s q j Ha Hn Hl) as (s' & p & E & Ha' & _).
    exists s', p. eauto using im_fresh.
  - intros p j next Ho. destruct (inmemory_Update_spec now s q p j next Ha Hn Ho) as (s' & E & Ha' & _).
    eauto.
Qed.
