(* ===== verification/JobQueue.v ===== *)
(** * The job queue (src/jobqueue/jobqueue.go, src/jobqueue/stats.go)

    [jobQueue] wraps a driver: it counts what happens, logs it, and decides on
    completion whether a job is deleted, recorded as a permanent failure, or
    rescheduled.  Everything here is stated against the driver interface of
    [QueueSpec]; a driver only has to provide an [ImplSpec] instance. *)

From S2P Require Import Prelude Job QueueSpec.
Local Open Scope Z_scope.

(** ** Statistics *)

Section stats.
(** [ratecounter.RateCounter] is a third-party type. *)
Context {RC : Type} (rc_New : RC) (rc_Incr : Z -> RC -> RC) (rc_Rate : RC -> Z).

Record stats := {
  totalPushes : Z;
  totalPops : Z;
  totalSuccesses : Z;
  totalFailures : Z;
  totalPermanentFailures : Z;
  totalCompletes : Z;
  totalElapsed : Z;
  pushesPerSecond : RC;
  popsPerSecond : RC;
}.

Definition newStats : stats := {|
  totalPushes := 0; totalPops := 0; totalSuccesses := 0; totalFailures := 0;
  totalPermanentFailures := 0; totalCompletes := 0; totalElapsed := 0;
  pushesPerSecond := rc_New; popsPerSecond := rc_New;
|}.

(** Every counter is updated by [atomic.AddInt64]. *)
Definition stats_push (num : Z) (s : stats) : stats := {|
  totalPushes := i64 (totalPushes s + num); totalPops := totalPops s;
  totalSuccesses := totalSuccesses s; totalFailures := totalFailures s;
  totalPermanentFailures := totalPermanentFailures s;
  totalCompletes := totalCompletes s; totalElapsed := totalElapsed s;
  pushesPerSecond := rc_Incr num (pushesPerSecond s); popsPerSecond := popsPerSecond s;
|}.

Definition stats_pop (num : Z) (s : stats) : stats := {|
  totalPushes := totalPushes s; totalPops := i64 (totalPops s + num);
  totalSuccesses := totalSuccesses s; totalFailures := totalFailures s;
  totalPermanentFailures := totalPermanentFailures s;
  totalCompletes := totalCompletes s; totalElapsed := totalElapsed s;
  pushesPerSecond := pushesPerSecond s; popsPerSecond := rc_Incr num (popsPerSecond s);
|}.

Definition stats_succeed (num : Z) (s : stats) : stats := {|
  totalPushes := totalPushes s; totalPops := totalPops s;
  totalSuccesses := i64 (totalSuccesses s + num); totalFailures := totalFailures s;
  totalPermanentFailures := totalPermanentFailures s;
  totalCompletes := totalCompletes s; totalElapsed := totalElapsed s;
  pushesPerSecond := pushesPerSecond s; popsPerSecond := popsPerSecond s;
|}.

Definition stats_fail (num : Z) (s : stats) : stats := {|
  totalPushes := totalPushes s; totalPops := totalPops s;
  totalSuccesses := totalSuccesses s; totalFailures := i64 (totalFailures s + num);
  totalPermanentFailures := totalPermanentFailures s;
  totalCompletes := totalCompletes s; totalElapsed := totalElapsed s;
  pushesPerSecond := pushesPerSecond s; popsPerSecond := popsPerSecond s;
|}.

Definition stats_permanentlyFail (num : Z) (s : stats) : stats := {|
  totalPushes := totalPushes s; totalPops := totalPops s;
  totalSuccesses := totalSuccesses s; totalFailures := totalFailures s;
  totalPermanentFailures := i64 (totalPermanentFailures s + num);
  totalCompletes := totalCompletes s; totalElapsed := totalElapsed s;
  pushesPerSecond := pushesPerSecond s; popsPerSecond := popsPerSecond s;
|}.

Definition stats_complete (num : Z) (s : stats) : stats := {|
  totalPushes := totalPushes s; totalPops := totalPops s;
  totalSuccesses := totalSuccesses s; totalFailures := totalFailures s;
  totalPermanentFailures := totalPermanentFailures s;
  totalCompletes := i64 (totalCompletes s + num); totalElapsed := totalElapsed s;
  pushesPerSecond := pushesPerSecond s; popsPerSecond := popsPerSecond s;
|}.

Definition stats_elapsed (t : Z) (s : stats) : stats := {|
  totalPushes := totalPushes s; totalPops := totalPops s;
  totalSuccesses := totalSuccesses s; totalFailures := totalFailures s;
  totalPermanentFailures := totalPermanentFailures s;
  totalCompletes := totalCompletes s; totalElapsed := i64 (totalElapsed s + t);
  pushesPerSecond := pushesPerSecond s; popsPerSecond := popsPerSecond s;
|}.

Record Stats := {
  TotalPushes : Z;
  TotalPops : Z;
  TotalSuccesses : Z;
  TotalFailures : Z;
  TotalPermanentFailures : Z;
  TotalCompletes : Z;
  TotalElapsed : Z;
  PushesPerSecond : Z;
  PopsPerSecond : Z;
}.

Definition stats_export (s : stats) : Stats := {|
  TotalPushes := totalPushes s; TotalPops := totalPops s;
  TotalSuccesses := totalSuccesses s; TotalFailures := totalFailures s;
  TotalPermanentFailures := totalPermanentFailures s;
  TotalCompletes := totalCompletes s; TotalElapsed := totalElapsed s;
  PushesPerSecond := rc_Rate (pushesPerSecond s); PopsPerSecond := rc_Rate (popsPerSecond s);
|}.
End stats.
Arguments stats : clear implicits.

(** ** The queue *)

Section jobQueue.
Context {Env St H : Type} `{!Impl Env St H}.
Context {RC : Type} (rc_New : RC) (rc_Incr : Z -> RC -> RC) (tag : string).

Record jobQueue := {
  jq_name : string;
  jq_maxWorkers : Z;
  jq_impl : St;
  jq_stats : stats RC;
  jq_log : list LogEntry;     (* the queue log, latest entry first *)
  jq_warnings : list string;  (* messages of [log.Warn] *)
}.

(** [Start]: the driver is started by the caller, [impl] is its state. *)
Definition jobQueue_Start (name : string) (maxWorkers : Z) (impl : St) : jobQueue := {|
  jq_name := name; jq_maxWorkers := maxWorkers; jq_impl := impl;
  jq_stats := newStats rc_New; jq_log := []; jq_warnings := [];
|}.

Definition jq_with (q : jobQueue) (impl : St) (st : stats RC) (entries : list LogEntry)
    (warnings : list string) : jobQueue := {|
  jq_name := jq_name q; jq_maxWorkers := jq_maxWorkers q; jq_impl := impl;
  jq_stats := st; jq_log := entries ++ jq_log q; jq_warnings := warnings ++ jq_warnings q;
|}.

Definition loggable (e : Env) (s : St) (h : H) : LoggableJob :=
  {| lj_job := impl_job e s h; lj_Status := impl_Status s h |}.

(** [now] is the clock reading of the log entry. *)
Definition jobQueue_Push (e : Env) (now : Z) (q : jobQueue) (j : IncomingJob)
    : option (jobQueue * result QueueError Z) :=
  '(s, r) ← impl_Push e (jq_impl q) j;
  match r with
  | Err err => Some (jq_with q s (jq_stats q) [] [], Err err)
  | Ok h =>
      let l := loggable e s h in
      let entry := Info tag now (jq_name q) "push" l "New job accepted" in
      Some (jq_with q s (stats_push rc_Incr 1 (jq_stats q)) [entry] [], Ok (job_ID (lj_job l)))
  end.

Definition jobQueue_Pop (e : Env) (now : Z) (q : jobQueue) (limit : Z)
    : option (jobQueue * result QueueError (list H)) :=
  '(s, r) ← impl_Pop e (jq_impl q) limit;
  match r with
  | Err err => Some (jq_with q s (jq_stats q) [] [], Err err)
  | Ok hs =>
      let entries := (fun h => Debug tag now (jq_name q) "pop" (loggable e s h) "A job grabbed") <$> hs in
      Some (jq_with q s (stats_pop rc_Incr (i64 (Z.of_nat (length hs))) (jq_stats q)) (reverse entries) [],
            Ok hs)
  end.

(** The three outcomes of [Complete], with the clock readings of the log
    entry and of the statistics. *)
Definition jobQueue_Complete (e : Env) (now_log now_stats : Z) (q : jobQueue) (h : H)
    (res : Result) : option jobQueue :=
  let j := {| cj_Job := impl_job e (jq_impl q) h;
              cj_failed := if IsSuccess res then 0 else 1 |} in
  let l := completedJob_ToLoggable j in
  let entry action := Info tag now_log (jq_name q) action l (res_Message res) in
  if IsSuccess res then
    let st := stats_elapsed (Elapsed now_stats l) (stats_complete 1 (stats_succeed 1 (jq_stats q))) in
    s ← impl_Delete e (jq_impl q) h;
    Some (jq_with q s st [entry "complete"] [])
  else if IsPermanentFailure res || negb (completedJob_canRetry j) then
    let st := stats_elapsed (Elapsed now_stats l)
      (stats_complete 1 (stats_permanentlyFail 1 (stats_fail 1 (jq_stats q)))) in
    let '(s, warn) :=
      match impl_FailureLog_Add with
      | Some add =>
          let '(s, err) := add e (jq_impl q) h res in
          (s, match err with Some err => [QueueError_Error err] | None => [] end)
      | None => (jq_impl q, [])
      end in
    s' ← impl_Delete e s h;
    Some (jq_with q s' st [entry "complete"] warn)
  else
    s ← impl_Update e (jq_impl q) h (nextJob j);
    Some (jq_with q s (stats_fail 1 (jq_stats q)) [entry "retry"] []).

Definition jobQueue_IsActive (q : jobQueue) : bool := impl_IsActive (jq_impl q).

Definition jobQueue_Stats (rc_Rate : RC -> Z) (q : jobQueue) : Stats := stats_export rc_Rate (jq_stats q).
End jobQueue.
Arguments jobQueue : clear implicits.

(** ** Completion against the contract of the driver *)

(** Whether a result ends the life of a job. *)
Definition job_finished (j : Job) (res : Result) : bool :=
  IsSuccess res || IsPermanentFailure res || (job_RetryCount j =? 0).

(** What a retry is meant to be, in unbounded arithmetic. *)
Definition retry_info (j : Job) : NextInfo := {|
  next_NextDelay := job_RetryDelay j * ms_per_s;
  next_RetryCount := job_RetryCount j - 1;
  next_FailCount := job_FailCount j + 1;
|}.

(** What completing a job is meant to do to the queue. *)
Definition aq_complete (now : Z) (j : Job) (res : Result) (a : aqueue) : aqueue :=
  if job_finished j res then aq_delete (job_ID j) a
  else aq_update now (retry_info j) j a.

Section completion.
Context {Env St H : Type} `{!Impl Env St H} `{!ImplSpec Env St H}.
Context {RC : Type} (tag : string).
Implicit Types (q : jobQueue St RC) (a : aqueue).

Definition failed_job (j : Job) : completedJob := {| cj_Job := j; cj_failed := 1 |}.

Lemma canRetry_finished j res :
  is_u64 (job_RetryCount j) -> IsSuccess res = false ->
  (IsPermanentFailure res || negb (completedJob_canRetry (failed_job j))) = job_finished j res.
Proof.
  unfold job_finished, completedJob_canRetry. simpl. intros Hr ->. f_equal. word.
Qed.

(** A completion that ends the life of the job deletes it. *)
Lemma Complete_finished e t1 t2 q a h j res :
  impl_abs (jq_impl q) a -> impl_env_ok e -> impl_outstanding (jq_impl q) a h j ->
  is_u64 (job_RetryCount j) -> job_finished j res = true ->
  exists q', jobQueue_Complete tag e t1 t2 q h res = Some q' /\
    impl_abs (jq_impl q') (aq_delete (job_ID j) a) /\
    (forall h' j', impl_outstanding (jq_impl q) a h' j' -> job_ID j' <> job_ID j ->
      impl_outstanding (jq_impl q') (aq_delete (job_ID j) a) h' j').
Proof.
  intros Ha He Ho Hr Hf. unfold jobQueue_Complete.
  destruct (impl_outstanding_view e _ _ _ _ Ho) as [-> _].
  destruct (IsSuccess res) eqn:Es.
  - destruct (impl_Delete_spec e _ _ _ _ Ha He Ho) as (s' & -> & Ha' & Hst).
    eexists. split; [done|]. simpl. auto.
  - fold (failed_job j). rewrite (canRetry_finished j res Hr Es), Hf.
    destruct impl_FailureLog_Add as [add|] eqn:Ea; cbn zeta iota.
    + destruct (impl_FailureLog_spec add e _ _ h res Ea Ha) as [Ha1 Hst1].
      destruct (add e (jq_impl q) h res) as [s1 err]. simpl in *.
      destruct (impl_Delete_spec e _ _ _ _ Ha1 He (Hst1 _ _ Ho)) as (s' & -> & Ha' & Hst).
      eexists. split; [done|]. simpl. auto.
    + destruct (impl_Delete_spec e _ _ _ _ Ha He Ho) as (s' & -> & Ha' & Hst).
      eexists. split; [done|]. simpl. auto.
Qed.

(** A completion that does not, reschedules it. *)
Lemma Complete_retry e t1 t2 q a h j res :
  impl_abs (jq_impl q) a -> impl_env_ok e -> impl_outstanding (jq_impl q) a h j ->
  is_u64 (job_RetryCount j) -> job_finished j res = false ->
  impl_can_update e (jq_impl q) j (nextJob (failed_job j)) ->
  let a' := aq_update (impl_now e) (nextJob (failed_job j)) j a in
  exists q', jobQueue_Complete tag e t1 t2 q h res = Some q' /\
    impl_abs (jq_impl q') a' /\
    (forall h' j', impl_outstanding (jq_impl q) a h' j' -> job_ID j' <> job_ID j ->
      impl_outstanding (jq_impl q') a' h' j').
Proof.
  intros Ha He Ho Hr Hf Hu. unfold jobQueue_Complete.
  destruct (impl_outstanding_view e _ _ _ _ Ho) as [-> _].
  assert (IsSuccess res = false) as Es.
  { unfold job_finished in Hf. by destruct (IsSuccess res). }
  rewrite Es. fold (failed_job j). rewrite (canRetry_finished j res Hr Es), Hf.
  destruct (impl_Update_spec e _ _ _ _ _ Ha He Ho Hu) as (s' & -> & Ha' & Hst).
  eexists. split; [done|]. simpl. auto.
Qed.

Lemma nextJob_exact j :
  job_wf j -> 0 < job_RetryCount j -> job_FailCount j < u64_max ->
  job_RetryDelay j <= 9223372036 ->
  nextJob (failed_job j) = retry_info j.
Proof.
  intros (_ & _ & _ & _ & Hd & Hr & Hf) Hr0 Hf0 Hd0. unfold nextJob, retry_info, completedJob_FailCount.
  simpl. f_equal; [apply nextJob_NextDelay_exact; word|apply u64_id; word|apply u64_id; word].
Qed.

(** C4 (refinement): completing a held job does exactly what its result asks
    for: a success, a permanent failure, or a failure with no retry left
    deletes the job; any other failure reschedules it after its retry delay
    with one retry less and one failure more, in exact arithmetic.  The call
    never panics. *)
Theorem jobQueue_Complete_correct e t1 t2 q a h j res :
  impl_abs (jq_impl q) a -> impl_env_ok e -> impl_outstanding (jq_impl q) a h j ->
  job_wf j -> job_FailCount j < u64_max -> job_RetryDelay j <= 9223372036 ->
  impl_can_update e (jq_impl q) j (retry_info j) ->
  exists q', jobQueue_Complete tag e t1 t2 q h res = Some q' /\
    impl_abs (jq_impl q') (aq_complete (impl_now e) j res a).
Proof.
  intros Ha He Ho Hwf Hf Hd Hu. unfold aq_complete.
  assert (is_u64 (job_RetryCount j)) as Hr by apply Hwf.
  destruct (job_finished j res) eqn:Ef.
  - destruct (Complete_finished e t1 t2 q a h j res Ha He Ho Hr Ef) as (q' & ? & ? & _). eauto.
  - assert (0 < job_RetryCount j) by (unfold job_finished in Ef; word).
    pose proof (nextJob_exact j Hwf) as En. rewrite <- En in Hu |- * by done.
    destruct (Complete_retry e t1 t2 q a h j res Ha He Ho Hr Ef Hu) as (q' & ? & ? & _). eauto.
Qed.

(** ** Executions of a client *)

Context (rc_New : RC) (rc_Incr : Z -> RC -> RC).

Inductive event :=
| EPushed (id maxRetries : Z)
| ECompleted (id : Z) (finished : bool).

(** [exec q hs t]: the queue is in state [q] after a run whose events are [t]
    (latest first), and the client holds the handles [hs]: those returned by
    [Pop] and not completed yet.  The client only completes handles it holds,
    as the dispatcher does. *)
Inductive exec : jobQueue St RC -> list H -> list event -> Prop :=
| exec_start name mw s :
    impl_abs s aq_empty -> exec (jobQueue_Start rc_New name mw s) [] []
| exec_push q hs t e now j q' id :
    exec q hs t -> impl_env_ok e -> impl_can_push e (jq_impl q) j -> incoming_wf j ->
    jobQueue_Push rc_Incr tag e now q j = Some (q', Ok id) ->
    exec q' hs (EPushed id (in_RetryCount j) :: t)
| exec_pop q hs t e now limit q' hs' :
    exec q hs t -> impl_env_ok e -> 0 <= limit <= max_job_slice ->
    jobQueue_Pop rc_Incr tag e now q limit = Some (q', Ok hs') ->
    exec q' (hs ++ hs') t
| exec_complete q hs1 h hs2 t e now_log now_stats res q' :
    exec q (hs1 ++ h :: hs2) t -> impl_env_ok e ->
    impl_can_update e (jq_impl q) (impl_job e (jq_impl q) h)
      (nextJob (failed_job (impl_job e (jq_impl q) h))) ->
    jobQueue_Complete tag e now_log now_stats q h res = Some q' ->
    exec q' (hs1 ++ hs2)
      (ECompleted (job_ID (impl_job e (jq_impl q) h)) (job_finished (impl_job e (jq_impl q) h) res) :: t).

(** The retry budget of the last job pushed under an identifier, and how many
    times it has been completed since. *)
Fixpoint life (id : Z) (t : list event) : option (Z * Z) :=
  match t with
  | [] => None
  | EPushed i m :: t' => if i =? id then Some (m, 0) else life id t'
  | ECompleted i _ :: t' =>
      if i =? id then prod_map (fun m => m) Z.succ <$> life id t' else life id t'
  end.

(** Whether the last job pushed under an identifier is still to be done. *)
Fixpoint alive (id : Z) (t : list event) : bool :=
  match t with
  | [] => false
  | EPushed i _ :: t' => if i =? id then true else alive id t'
  | ECompleted i fin :: t' => if i =? id then negb fin else alive id t'
  end.

Definition job_budget (t : list event) (id : Z) (j : Job) : Prop :=
  0 <= job_RetryCount j /\ 0 <= job_FailCount j /\
  job_FailCount j + job_RetryCount j <= u64_max /\
  life id t = Some (job_FailCount j + job_RetryCount j, job_FailCount j).

(** The client holds exactly the grabbed jobs, each by one handle. *)
Definition holds_grabbed (s : St) (a : aqueue) (hs : list H) : Prop :=
  exists js, Forall2 (impl_outstanding s a) hs js /\ NoDup (job_ID <$> js) /\
    forall id, id ∈ dom (grabbed a) <-> id ∈ job_ID <$> js.

Record exec_inv (q : jobQueue St RC) (hs : list H) (t : list event) (a : aqueue) : Prop := {
  inv_abs : impl_abs (jq_impl q) a;
  inv_held : holds_grabbed (jq_impl q) a hs;
  inv_budget : forall id j, aq_jobs a !! id = Some j -> job_budget t id j;
  inv_life : forall id m n, life id t = Some (m, n) -> 0 <= n <= m + 1;
  inv_alive : forall id, is_Some (aq_jobs a !! id) <-> alive id t = true;
}.

Lemma life_pushed id m t : life id (EPushed id m :: t) = Some (m, 0).
Proof. simpl. by rewrite Z.eqb_refl. Qed.

Lemma life_pushed_ne id i m t : id <> i -> life id (EPushed i m :: t) = life id t.
Proof. intros. simpl. destruct (Z.eqb_spec i id); [congruence|done]. Qed.

Lemma life_completed id fin t m n :
  life id t = Some (m, n) -> life id (ECompleted id fin :: t) = Some (m, n + 1).
Proof. intros E. simpl. rewrite Z.eqb_refl, E. reflexivity. Qed.

Lemma life_completed_ne id i fin t : id <> i -> life id (ECompleted i fin :: t) = life id t.
Proof. intros. simpl. destruct (Z.eqb_spec i id); [congruence|done]. Qed.

Lemma alive_cons id ev t :
  alive id (ev :: t) =
    match ev with
    | EPushed i _ => if decide (id = i) then true else alive id t
    | ECompleted i fin => if decide (id = i) then negb fin else alive id t
    end.
Proof. destruct ev as [i ?|i ?]; simpl; destruct (Z.eqb_spec i id); case_decide; congruence. Qed.

Lemma exec_inv_push e now q hs t a j q' id :
  exec_inv q hs t a -> impl_env_ok e -> impl_can_push e (jq_impl q) j -> incoming_wf j ->
  jobQueue_Push rc_Incr tag e now q j = Some (q', Ok id) ->
  exists a', exec_inv q' hs (EPushed id (in_RetryCount j) :: t) a'.
Proof.
  intros [Ha (js & Hh & Hnd & Hg) Hb Hl Hal] He Hp Hwf E.
  destruct (impl_Push_spec e _ _ _ Ha He Hp) as (s' & h & id' & Ep & Hfresh & Ha' & Hid & Hst).
  unfold jobQueue_Push in E. rewrite Ep in E. simpl in E. rewrite Hid in E. injection E as <- <-.
  eexists. split; cbn [jq_impl jq_with].
  - exact Ha'.
  - exists js. split; [|by split]. eapply Forall2_impl; [exact Hh|]. auto.
  - intros id j'. rewrite aq_jobs_push. unfold job_budget. case_decide as Ei; [subst id|].
    + intros [= <-]. destruct Hwf as (_ & _ & _ & Hr). rewrite life_pushed. simpl.
      split_and!; done || word.
    + rewrite life_pushed_ne by done. apply Hb.
  - intros id m n. destruct (decide (id = id')) as [->|Hne].
    + rewrite life_pushed. intros [= <- <-]. destruct Hwf as (_ & _ & _ & Hr). word.
    + rewrite life_pushed_ne by done. apply Hl.
  - intros id. rewrite alive_cons, aq_jobs_push. case_decide; [by split; eauto|apply Hal].
Qed.

Lemma exec_inv_pop e now q hs t a limit q' hs' :
  exec_inv q hs t a -> impl_env_ok e -> 0 <= limit <= max_job_slice ->
  jobQueue_Pop rc_Incr tag e now q limit = Some (q', Ok hs') ->
  exists a', exec_inv q' (hs ++ hs') t a'.
Proof.
  intros [Ha (js & Hh & Hnd & Hg) Hb Hl Hal] He Hlim E.
  destruct (impl_Pop_spec e _ _ _ Ha He Hlim) as (s' & hs'' & js' & Ep & Hpop & Ha' & Ho & Hst).
  unfold jobQueue_Pop in E. rewrite Ep in E. simpl in E. injection E as <- <-.
  pose proof (impl_abs_wf _ _ Ha) as Hwf.
  exists (aq_grab js' a). split; simpl; [done|..].
  - exists (js ++ js'). split.
    { apply Forall2_app; [|done]. eapply Forall2_impl; [exact Hh|]. auto. }
    split; [|intros id; rewrite fmap_app, elem_of_app, <- Hg; by apply (aq_grab_dom (impl_now e) limit)].
    rewrite fmap_app. apply NoDup_app. split_and!; [done| |apply Hpop].
    intros id (j & -> & Hj)%list_elem_of_fmap (j' & E & Hj')%list_elem_of_fmap.
    apply list_elem_of_lookup in Hj as (i & Hj).
    destruct (Forall2_lookup_r _ _ _ _ _ Hh Hj) as (h & _ & Hoj).
    apply (impl_outstanding_view e) in Hoj as [_ Hgj].
    destruct (popped_due _ _ _ _ Hpop j' Hj') as [Hw _].
    apply (proj2 (proj2 Hwf) (job_ID j)); apply elem_of_dom; [rewrite E|]; eauto.
  - intros id j Hj. rewrite (aq_grab_jobs _ _ _ _ _ Hwf Hpop) in Hj. by apply Hb.
  - done.
  - intros id. rewrite (aq_grab_jobs _ _ _ _ _ Hwf Hpop). apply Hal.
Qed.

(** Handles other than the completed one are still held afterwards. *)
Lemma held_after s a s' a' hs1 hs2 j js1 js2 :
  Forall2 (impl_outstanding s a) hs1 js1 -> Forall2 (impl_outstanding s a) hs2 js2 ->
  NoDup (job_ID <$> js1 ++ j :: js2) ->
  (forall id, id ∈ dom (grabbed a) <-> id ∈ job_ID <$> js1 ++ j :: js2) ->
  grabbed a' = delete (job_ID j) (grabbed a) ->
  (forall h' j', impl_outstanding s a h' j' -> job_ID j' <> job_ID j -> impl_outstanding s' a' h' j') ->
  holds_grabbed s' a' (hs1 ++ hs2).
Proof.
  intros H1 H2 Hnd Hg Ea Hst. exists (js1 ++ js2).
  rewrite fmap_app, fmap_cons in Hnd. rewrite fmap_app.
  assert (Hnd' : NoDup (job_ID j :: (job_ID <$> js1) ++ (job_ID <$> js2)))
    by by rewrite Permutation_middle.
  apply NoDup_cons in Hnd' as [Hni Hnd'].
  split; [|split; [done|intros id; rewrite Ea; specialize (Hg id); rewrite fmap_app in Hg; set_solver]].
  assert (forall hs js, (forall j', j' ∈ js -> job_ID j' <> job_ID j) ->
    Forall2 (impl_outstanding s a) hs js -> Forall2 (impl_outstanding s' a') hs js) as Haux.
  { intros hs js Hne HF. apply Forall2_same_length_lookup_2; [by eapply Forall2_length|].
    intros i x y Hx Hy. apply Hst; [by eapply Forall2_lookup_lr|].
    apply Hne. by eapply list_elem_of_lookup_2. }
  apply Forall2_app; apply Haux; try done; intros j' Hj' E; apply Hni; rewrite <- E; set_solver.
Qed.

Lemma exec_inv_complete e t1 t2 q hs1 h hs2 t a res q' :
  exec_inv q (hs1 ++ h :: hs2) t a -> impl_env_ok e ->
  let j := impl_job e (jq_impl q) h in
  impl_can_update e (jq_impl q) j (nextJob (failed_job j)) ->
  jobQueue_Complete tag e t1 t2 q h res = Some q' ->
  exists a', exec_inv q' (hs1 ++ hs2) (ECompleted (job_ID j) (job_finished j res) :: t) a'.
Proof.
  intros [Ha (js & Hh & Hnd & Hgr) Hb Hl Hal] He j Hu E.
  apply Forall2_app_inv_l in Hh as (js1 & js' & H1 & Hh & ->).
  apply Forall2_cons_inv_l in Hh as (j' & js2 & Ho & H2 & ->).
  pose proof (impl_outstanding_view e _ _ _ _ Ho) as [Ej Hg]. subst j. rewrite Ej in *.
  clear Ej. pose proof (impl_abs_wf _ _ Ha) as Hwf.
  destruct (Hb (job_ID j') j') as (Hr0 & Hf0 & Hsum & Hlife); [by apply aq_jobs_grabbed|].
  assert (Hr : is_u64 (job_RetryCount j')) by word.
  pose proof (life_completed _ (job_finished j' res) _ _ _ Hlife) as Hlife'.
  assert (Hl' : forall id m n, life id (ECompleted (job_ID j') (job_finished j' res) :: t) = Some (m, n) -> 0 <= n <= m + 1).
  { intros id m n. destruct (decide (id = job_ID j')) as [->|Hne].
    - rewrite Hlife'. intros [= <- <-]. lia.
    - rewrite life_completed_ne by done. apply Hl. }
  destruct (job_finished j' res) eqn:Ef.
  - destruct (Complete_finished e t1 t2 q a h j' res Ha He Ho Hr Ef) as (q1 & E1 & Ha' & Hst).
    assert (q1 = q') as -> by congruence. eexists. split; [exact Ha'| | |exact Hl'|].
    + by eapply held_after.
    + intros id x. rewrite aq_jobs_delete by done. case_decide as Ei; [done|].
      unfold job_budget. rewrite life_completed_ne by done. apply Hb.
    + intros id. rewrite aq_jobs_delete, alive_cons by done.
      case_decide; [split; [by intros []|done]|apply Hal].
  - destruct (Complete_retry e t1 t2 q a h j' res Ha He Ho Hr Ef Hu) as (q1 & E1 & Ha' & Hst).
    assert (q1 = q') as -> by congruence. eexists. split; [exact Ha'| | |exact Hl'|].
    + by eapply held_after.
    + intros id x. rewrite aq_jobs_update. case_decide as Ei; [subst id|].
      * intros [= <-]. unfold job_budget. rewrite Hlife'. simpl. unfold completedJob_FailCount. simpl.
        assert (0 < job_RetryCount j') by (unfold job_finished in Ef; lia).
        rewrite (u64_id (job_RetryCount j' - 1)), (u64_id (job_FailCount j' + 1)) by word.
        split_and!; try lia. f_equal. f_equal. lia.
      * unfold job_budget. rewrite life_completed_ne by done. apply Hb.
    + intros id. rewrite aq_jobs_update, alive_cons. case_decide; [by split; eauto|apply Hal].
Qed.

(** Every execution maintains the invariant. *)
Lemma exec_exec_inv q hs t : exec q hs t -> exists a, exec_inv q hs t a.
Proof.
  induction 1 as [name mw s Ha|q hs t e now j q' id _ [a IH]|q hs t e now limit q' hs' _ [a IH]
    |q hs1 h hs2 t e t1 t2 res q' _ [a IH]].
  - assert (forall id, aq_jobs aq_empty !! id = None) as Hnone
      by (intros id; unfold aq_jobs; simpl; by rewrite lookup_union, !lookup_empty).
    exists aq_empty. split; [done|exists []; split; [done|]; split; [apply NoDup_nil_2|simpl; set_solver]| |done|].
    + intros id j. by rewrite Hnone.
    + intros id. rewrite Hnone. split; [by intros []|done].
  - by eapply exec_inv_push.
  - by eapply exec_inv_pop.
  - by eapply exec_inv_complete.
Qed.

(** ** Theorems *)

(** C1 (safety): in every run of a client that completes only the jobs it
    holds, the queue contains exactly the jobs pushed and not yet finished:
    no job is lost by a pop or a retry, and no finished job comes back. *)
Theorem jobQueue_no_job_lost q hs t :
  exec q hs t ->
  exists a, impl_abs (jq_impl q) a /\ (forall id, is_Some (aq_jobs a !! id) <-> alive id t = true).
Proof. intros [a Hi]%exec_exec_inv. exists a. split; apply Hi. Qed.

(** C2 (bounds): a job pushed with [m] retries is completed at most [m + 1]
    times. *)
Theorem jobQueue_attempts_bounded q hs t id m n :
  exec q hs t -> life id t = Some (m, n) -> n <= m + 1.
Proof. intros [a Hi]%exec_exec_inv Hl. apply (inv_life _ _ _ _ Hi) in Hl. lia. Qed.
End completion.
