(* ===== verification/InMemoryQueue.v ===== *)
(** * A job queue on the in-memory driver

    The wrapper of [JobQueue] instantiated with the driver of [InMemory], run on
    concrete jobs: the witnesses of the theorems on both. *)

From S2P Require Import Prelude Heap Job QueueSpec InMemory JobQueue.
Local Open Scope Z_scope.

(** ** Concrete runs *)

Section runs.
(** A rate counter that counts. *)
Definition rc_count (n c : Z) : Z := n + c.

Definition sample_job (delay retries : Z) : IncomingJob := {|
  in_Category := "c"; in_URL := "http://w/"; in_Payload := "{}";
  in_NextDelay := delay; in_Timeout := 0; in_RetryDelay := 2; in_RetryCount := retries;
  in_FailureURL := EmptyString;
|}.

Definition failure : Result :=
  {| res_Status := ResultStatusFailure; res_Code := 200; res_Message := "no" |}.

Definition q0 : jobQueue inmemory Z := jobQueue_Start 0 "q" 1 (inmemory_New 0).

Definition fst_or {A B} (d : A) (o : option (A * B)) : A := match o with Some (a, _) => a | None => d end.

(** Push a job with one retry, pop it, and fail it. *)
Definition q1 := fst_or q0 (jobQueue_Push rc_count "t" 1000 1000 q0 (sample_job 0 1)).
Definition q2 := fst_or q1 (jobQueue_Pop rc_count "t" 1000 1001 q1 10).
Definition q3 := default q2 (jobQueue_Complete "t" 2000 2001 2001 q2 0%nat failure).

Lemma exec_q1 : exec (H := nat) "t" 0 rc_count q1 [] [EPushed 1 1].
Proof.
  eapply (exec_push (H := nat) "t" 0 rc_count q0 [] [] 1000 1000 (sample_job 0 1)).
  - apply exec_start. apply im_abs_New. word.
  - simpl. word.
  - simpl. word.
  - repeat split; simpl; word.
  - vm_compute. reflexivity.
Defined.

Lemma exec_q2 : exec (H := nat) "t" 0 rc_count q2 [0%nat] [EPushed 1 1].
Proof.
  eapply (exec_pop (H := nat) "t" 0 rc_count q1 [] _ 1000 1001 10); [exact exec_q1|..].
  - simpl. word.
  - unfold max_job_slice. lia.
  - vm_compute. reflexivity.
Defined.

Lemma exec_q3 : exec (H := nat) "t" 0 rc_count q3 [] [ECompleted 1 false; EPushed 1 1].
Proof.
  exact (exec_complete (H := nat) "t" 0 rc_count q2 [] 0%nat [] [EPushed 1 1] 2000 2001 2001
    failure q3 exec_q2 (u64_range 2000) I eq_refl).
Defined.

Lemma jobQueue_no_job_lost_witness :
  exists a, impl_abs (jq_impl q3) a /\
    (forall id, is_Some (aq_jobs a !! id) <-> alive id [ECompleted 1 false; EPushed 1 1] = true).
Proof. exact (jobQueue_no_job_lost "t" 0 rc_count q3 [] _ exec_q3). Defined.

Lemma jobQueue_attempts_bounded_witness :
  life 1 [ECompleted 1 false; EPushed 1 1] = Some (1, 1) /\ 1 <= 1 + 1.
Proof.
  split; [reflexivity|].
  apply (jobQueue_attempts_bounded "t" 0 rc_count q3 [] [ECompleted 1 false; EPushed 1 1] 1 1 1 exec_q3).
  reflexivity.
Defined.

(** The state after the pop represents one grabbed job. *)
Definition j1 : Job := aq_new_job 1000 1 (sample_job 0 1).
Definition a2 : aqueue := {| waiting := ∅; grabbed := {[ 1 := j1 ]} |}.

Lemma abs_q2 : im_abs (jq_impl q2) a2.
Proof.
  change (im_abs {| store := [newJob 1 1000 (sample_job 0 1)]; queue := []; lastID := 1 |} a2).
  split; simpl.
  - split; simpl; [|by apply NoDup_nil_2|set_solver|by apply NoDup_singleton| |unfold u64_max; lia].
    + intros k Hk0 Hk. simpl in Hk. lia.
    + constructor; [simpl; lia|constructor].
  - intros id j. split; [done|]. intros (p & Hp & _). set_solver.
  - intros id j [<- <-]%lookup_singleton_Some. exists 0%nat. split_and!; [set_solver|done..].
Defined.

Lemma outstanding_q2 : im_outstanding (jq_impl q2) a2 0%nat j1.
Proof. split_and!; [reflexivity|vm_compute; set_solver|reflexivity]. Defined.

Lemma jobQueue_Complete_correct_witness :
  exists q', jobQueue_Complete "t" 2000 2001 2001 q2 0%nat failure = Some q' /\
    impl_abs (jq_impl q') (aq_complete 2000 j1 failure a2).
Proof.
  refine (jobQueue_Complete_correct "t" 2000 2001 2001 q2 a2 0%nat j1 failure
    abs_q2 (u64_range 2000) outstanding_q2 _ _ _ I).
  - repeat split; vm_compute; congruence.
  - vm_compute. reflexivity.
  - vm_compute. congruence.
Defined.

Lemma inmemory_Pop_refines_witness :
  exists s' ps js, inmemory_Pop 5 (inmemory_New 0) 3 = Some (s', Ok ps) /\
    Forall2 (fun p j => im_view s' p = Some j) ps js /\
    aq_popped 5 3 aq_empty js /\ im_abs s' (aq_grab js aq_empty).
Proof.
  apply (inmemory_Pop_refines 5 (inmemory_New 0) aq_empty 3);
    [apply im_abs_New|..]; unfold max_job_slice; word.
Defined.

Lemma inmemory_Push_Update_refines_witness :
  exists s', inmemory_Update 2000 (jq_impl q2) 0%nat (retry_info j1) = Some s' /\
    im_abs s' (aq_update 2000 (retry_info j1) j1 a2).
Proof.
  destruct (inmemory_Push_Update_refines 2000 (jq_impl q2) a2 abs_q2) as [_ Hu]; [word|].
  exact (Hu 0%nat j1 (retry_info j1) outstanding_q2).
Defined.
End runs.
