(* ===== verification/MySQLTable.v ===== *)
(** * The MySQL tables of a queue and the statements on them

    The schemas of src/data/jobqueue/mysql/schema/ as records, and each
    statement of src/data/jobqueue/mysql/query/ as a function on the tables.
    A table is keyed by its primary key.  The order in which the storage engine
    returns rows is not specified by SQL unless ORDER BY decides it: every query
    takes a reordering [order] of the rows as an argument.  Values out of the
    range of their column are refused (the strict mode MySQL uses by default):
    such a statement is [None]. *)

From S2P Require Import Prelude GoStrings Job.
Local Open Scope Z_scope.

(** ** Schemas *)

Inductive job_status := Claimed | Grabbed.

#[export] Instance job_status_eq_dec : EqDecision job_status.
Proof. solve_decision. Defined.

Definition status_string (s : job_status) : string :=
  match s with Claimed => "claimed" | Grabbed => "grabbed" end.

Record job_row := {
  r_job_id : Z;
  r_next_try : Z;
  r_grabber_id : option Z;
  r_status : job_status;
  r_created_at : Z;
  r_retry_count : Z;
  r_retry_delay : Z;
  r_fail_count : Z;
  r_category : string;
  r_url : string;
  r_payload : string;
  r_timeout : Z;
  r_failure_url : option string;
}.

#[export] Instance job_row_eq_dec : EqDecision job_row.
Proof. solve_decision. Defined.

Record failure_row := {
  f_failure_id : Z;
  f_job_id : Z;
  f_category : string;
  f_url : string;
  f_payload : string;
  f_result : string;
  f_fail_count : Z;
  f_failed_at : Z;
  f_created_at : Z;
}.

Record tables := {
  t_jobs : gmap Z job_row;
  t_next_job_id : Z;       (* AUTO_INCREMENT *)
  t_failures : gmap Z failure_row;
  t_next_failure_id : Z;   (* AUTO_INCREMENT *)
}.

Definition empty_tables : tables :=
  {| t_jobs := ∅; t_next_job_id := 1; t_failures := ∅; t_next_failure_id := 1 |}.

(** The columns hold their values: BIGINT UNSIGNED, INT UNSIGNED, VARCHAR(255),
    BLOB and MEDIUMBLOB (all in bytes: the character set is binary). *)
Definition row_fits (r : job_row) : bool :=
  bool_decide (is_u64 (r_job_id r)) && bool_decide (is_u64 (r_next_try r))
  && bool_decide (is_u64 (r_created_at r)) && bool_decide (is_u32 (r_retry_count r))
  && bool_decide (is_u32 (r_retry_delay r)) && bool_decide (is_u32 (r_fail_count r))
  && bool_decide (is_u32 (r_timeout r)) && (strlen (r_category r) <=? 255)
  && (strlen (r_url r) <=? 65535) && (strlen (r_payload r) <=? 16777215)
  && (strlen (default EmptyString (r_failure_url r)) <=? 65535).

Definition failure_fits (r : failure_row) : bool :=
  bool_decide (is_u64 (f_failure_id r)) && bool_decide (is_u64 (f_job_id r))
  && bool_decide (is_u32 (f_fail_count r)) && bool_decide (is_u64 (f_failed_at r))
  && bool_decide (is_u64 (f_created_at r)) && (strlen (f_category r) <=? 255)
  && (strlen (f_url r) <=? 65535) && (strlen (f_payload r) <=? 16777215)
  && (strlen (f_result r) <=? 16777215).

Definition with_jobs (m : gmap Z job_row) (t : tables) : tables := {|
  t_jobs := m; t_next_job_id := t_next_job_id t;
  t_failures := t_failures t; t_next_failure_id := t_next_failure_id t;
|}.

(** Rows of a table in the order the storage engine returns them. *)
Definition scan {A} (order : list A -> list A) (m : gmap Z A) : list A :=
  order ((map_to_list m).*2).

(** ** Statements *)

(** insert_job.sql; [now] is the server clock in milliseconds, the identifier
    is the one [LastInsertId] reports. *)
Definition sql_insert_job (now next_delay retry_count retry_delay fail_count : Z)
    (category url payload : string) (timeout : Z) (failure_url : string) (t : tables)
    : option (tables * Z) :=
  let r := {|
    r_job_id := t_next_job_id t;
    r_next_try := now + next_delay;
    r_grabber_id := None;
    r_status := Claimed;
    r_created_at := now;
    r_retry_count := retry_count;
    r_retry_delay := retry_delay;
    r_fail_count := fail_count;
    r_category := category;
    r_url := url;
    r_payload := payload;
    r_timeout := timeout;
    r_failure_url := Some failure_url;
  |} in
  if row_fits r then
    Some ({| t_jobs := <[t_next_job_id t := r]> (t_jobs t);
             t_next_job_id := t_next_job_id t + 1;
             t_failures := t_failures t; t_next_failure_id := t_next_failure_id t |},
          t_next_job_id t)
  else None.

(** delete_job.sql *)
Definition sql_delete_job (id : Z) (t : tables) : tables := with_jobs (delete id (t_jobs t)) t.

Definition update_row (now next_delay retry_count fail_count : Z) (r : job_row) : job_row := {|
  r_job_id := r_job_id r;
  r_next_try := now + next_delay;
  r_grabber_id := None;
  r_status := Claimed;
  r_created_at := r_created_at r;
  r_retry_count := retry_count;
  r_retry_delay := r_retry_delay r;
  r_fail_count := fail_count;
  r_category := r_category r;
  r_url := r_url r;
  r_payload := r_payload r;
  r_timeout := r_timeout r;
  r_failure_url := r_failure_url r;
|}.

(** update_job.sql; no row matching the identifier is not an error. *)
Definition sql_update_job (now next_delay retry_count fail_count id : Z) (t : tables)
    : option tables :=
  match t_jobs t !! id with
  | None => Some t
  | Some r =>
      let r' := update_row now next_delay retry_count fail_count r in
      if row_fits r' then Some (with_jobs (<[id := r']> (t_jobs t)) t) else None
  end.

(** grab_jobs.sql with its limit appended *)
Definition sql_grab_jobs (order : list job_row -> list job_row) (now limit : Z) (t : tables)
    : list Z :=
  r_job_id <$> takeZ limit (sort_slice (key_less r_next_try)
    (filter (fun r => r_status r = Claimed /\ r_next_try r <= now) (scan order (t_jobs t)))).

(** grabbed_jobs.sql with its list of identifiers appended *)
Definition sql_grabbed_jobs (order : list job_row -> list job_row) (status : job_status)
    (ids : list Z) (t : tables) : list job_row :=
  filter (fun r => r_status r = status /\ r_job_id r ∈ ids) (scan order (t_jobs t)).

Definition set_status (status : job_status) (grabber : option Z) (r : job_row) : job_row := {|
  r_job_id := r_job_id r;
  r_next_try := r_next_try r;
  r_grabber_id := grabber;
  r_status := status;
  r_created_at := r_created_at r;
  r_retry_count := r_retry_count r;
  r_retry_delay := r_retry_delay r;
  r_fail_count := r_fail_count r;
  r_category := r_category r;
  r_url := r_url r;
  r_payload := r_payload r;
  r_timeout := r_timeout r;
  r_failure_url := r_failure_url r;
|}.

(** UPDATE of the rows satisfying a condition *)
Definition update_where (P : job_row -> bool) (f : job_row -> job_row) (t : tables) : tables :=
  with_jobs ((fun r => if P r then f r else r) <$> t_jobs t) t.

(** launch_jobs.sql; [conn] is CONNECTION_ID() *)
Definition sql_launch_jobs (conn : Z) (ids : list Z) (t : tables) : tables :=
  update_where (fun r => bool_decide (r_job_id r ∈ ids)) (set_status Grabbed (Some conn)) t.

(** [status = 'grabbed' AND grabber_id != CONNECTION_ID()]: a NULL grabber
    makes the comparison NULL, which selects nothing. *)
Definition is_orphan (conn : Z) (r : job_row) : bool :=
  match r_status r, r_grabber_id r with
  | Grabbed, Some g => negb (g =? conn)
  | _, _ => false
  end.

Definition orphan_limit : Z := 1000.

(** orphan_jobs.sql *)
Definition sql_orphan_jobs (order : list job_row -> list job_row) (conn : Z) (t : tables)
    : list Z :=
  r_job_id <$> takeZ orphan_limit (filter (fun r => is_orphan conn r = true) (scan order (t_jobs t))).

(** recover_jobs.sql *)
Definition sql_recover_jobs (conn : Z) (ids : list Z) (t : tables) : tables :=
  update_where (fun r => is_orphan conn r && bool_decide (r_job_id r ∈ ids))
    (set_status Claimed None) t.

(** insert_failed_job.sql *)
Definition sql_insert_failed_job (job_id : Z) (category url payload result : string)
    (fail_count failed_at created_at : Z) (t : tables) : option tables :=
  let r := {|
    f_failure_id := t_next_failure_id t;
    f_job_id := job_id;
    f_category := category;
    f_url := url;
    f_payload := payload;
    f_result := result;
    f_fail_count := fail_count;
    f_failed_at := failed_at;
    f_created_at := created_at;
  |} in
  if failure_fits r then
    Some {| t_jobs := t_jobs t; t_next_job_id := t_next_job_id t;
            t_failures := <[t_next_failure_id t := r]> (t_failures t);
            t_next_failure_id := t_next_failure_id t + 1 |}
  else None.

(** delete_failed_job.sql *)
Definition sql_delete_failed_job (id : Z) (t : tables) : tables := {|
  t_jobs := t_jobs t; t_next_job_id := t_next_job_id t;
  t_failures := delete id (t_failures t); t_next_failure_id := t_next_failure_id t;
|}.

(** Updating the counters of a row that fits. *)
Lemma update_row_fits now d rc fc r :
  row_fits r = true -> is_u64 (now + d) -> is_u32 rc -> is_u32 fc ->
  row_fits (update_row now d rc fc r) = true.
Proof.
  unfold row_fits. rewrite !andb_true_iff, !bool_decide_eq_true. simpl.
  intros. destruct_and?. split_and?; done.
Qed.

Lemma row_fits_ranges r :
  row_fits r = true -> is_u64 (r_job_id r) /\ is_u64 (r_next_try r) /\ is_u64 (r_created_at r) /\
    is_u32 (r_retry_count r) /\ is_u32 (r_retry_delay r) /\ is_u32 (r_fail_count r) /\ is_u32 (r_timeout r).
Proof.
  unfold row_fits. rewrite !andb_true_iff, !bool_decide_eq_true. intros. destruct_and?. split_and?; done.
Qed.

(** ** Invariant of the job table *)

(** Primary keys are in place, every column fits, identifiers are below the
    auto-increment counter, and a job has a grabber exactly when it is grabbed. *)
Record row_ok (next_id id : Z) (r : job_row) : Prop := {
  ok_id : r_job_id r = id;
  ok_next : 1 <= id < next_id;
  ok_fits : row_fits r = true;
  ok_grabber : is_Some (r_grabber_id r) <-> r_status r = Grabbed;
}.

Definition jobs_ok (t : tables) : Prop := map_Forall (row_ok (t_next_job_id t)) (t_jobs t).

Lemma elem_of_scan {A} (order : list A -> list A) (m : gmap Z A) r :
  (forall l, order l ≡ₚ l) -> r ∈ scan order m <-> exists id, m !! id = Some r.
Proof.
  intros Ho. unfold scan. rewrite Ho, list_elem_of_fmap. split.
  - intros ([id r'] & -> & Hin%elem_of_map_to_list). eauto.
  - intros (id & Hin). exists (id, r). by rewrite elem_of_map_to_list.
Qed.

(** The row of an identifier is the only one with it. *)
Lemma jobs_ok_inj t id id' r : jobs_ok t -> t_jobs t !! id = Some r -> r_job_id r = id' -> id = id'.
Proof. intros Hok Hr <-. symmetry. by apply (Hok _ _ Hr). Qed.

Lemma scan_ids_nodup order t :
  (forall l, order l ≡ₚ l) -> jobs_ok t -> NoDup (r_job_id <$> scan order (t_jobs t)).
Proof.
  intros Ho Hok. unfold scan. rewrite Ho. rewrite <- list_fmap_compose.
  erewrite list_fmap_ext; [apply (NoDup_fst_map_to_list (t_jobs t))|].
  intros i [id r] Hx. simpl. apply list_elem_of_lookup_2, elem_of_map_to_list in Hx.
  apply (Hok _ _ Hx).
Qed.

Lemma sublist_nodup_fmap {A B} (f : A -> B) (l k : list A) :
  l `sublist_of` k -> NoDup (f <$> k) -> NoDup (f <$> l).
Proof. intros Hs Hnd. eapply sublist_NoDup; [exact Hnd|]. by apply fmap_sublist. Qed.

(** ** Statements and the invariant *)

Section statements.
Context (order : list job_row -> list job_row) (order_perm : forall l, order l ≡ₚ l).

Lemma lookup_update_where P f t id :
  t_jobs (update_where P f t) !! id = (fun r => if P r then f r else r) <$> t_jobs t !! id.
Proof. unfold update_where. simpl. by rewrite lookup_fmap. Qed.

(** Changing the status together with the grabber keeps a row in order. *)
Lemma set_status_ok next id status grabber r :
  row_ok next id r -> (is_Some grabber <-> status = Grabbed) -> row_ok next id (set_status status grabber r).
Proof. intros [Hid Hn Hf Hg] Hs. by split. Qed.

Lemma update_where_ok P f t :
  jobs_ok t -> (forall id r, row_ok (t_next_job_id t) id r -> row_ok (t_next_job_id t) id (f r)) ->
  jobs_ok (update_where P f t).
Proof.
  intros Hok Hf id r. rewrite lookup_update_where. intros (r0 & Hr & ->)%fmap_Some.
  destruct (P r0); [apply Hf|]; by apply (Hok _ _ Hr).
Qed.

Lemma sql_launch_jobs_ok conn ids t : jobs_ok t -> jobs_ok (sql_launch_jobs conn ids t).
Proof.
  intros Hok. apply update_where_ok; [done|]. intros. apply set_status_ok; [done|].
  split; eauto.
Qed.

Lemma sql_recover_jobs_ok conn ids t : jobs_ok t -> jobs_ok (sql_recover_jobs conn ids t).
Proof.
  intros Hok. apply update_where_ok; [done|]. intros. apply set_status_ok; [done|].
  split; [by intros []|done].
Qed.

Lemma sql_delete_job_ok id t : jobs_ok t -> jobs_ok (sql_delete_job id t).
Proof. intros Hok. by apply map_Forall_delete. Qed.

Lemma sql_update_job_ok now d rc fc id t t' :
  jobs_ok t -> sql_update_job now d rc fc id t = Some t' -> jobs_ok t'.
Proof.
  unfold sql_update_job. intros Hok. destruct (t_jobs t !! id) as [r|] eqn:Hr; [|by intros [= <-]].
  case_match eqn:Hf; [|done]. intros [= <-]. apply map_Forall_insert_2; [|done].
  destruct (Hok _ _ Hr) as [Hid Hn _ _]. split; simpl; [done..|]. split; [by intros []|done].
Qed.

Lemma sql_insert_job_ok now d rc rd fc c u p to fu t t' id :
  jobs_ok t -> 1 <= t_next_job_id t ->
  sql_insert_job now d rc rd fc c u p to fu t = Some (t', id) -> jobs_ok t'.
Proof.
  unfold sql_insert_job. intros Hok Hn. case_match eqn:Hf; [|done]. intros [= <- <-].
  unfold jobs_ok. simpl. apply map_Forall_insert_2.
  - split; simpl; [done|lia|done|]. split; [by intros []|done].
  - intros i r Hr. destruct (Hok _ _ Hr) as [Hid Hi Hfit Hg]. split; [done|lia|done..].
Qed.

Lemma elem_of_sql_grabbed_jobs status ids t r :
  jobs_ok t -> r ∈ sql_grabbed_jobs order status ids t <->
    t_jobs t !! r_job_id r = Some r /\ r_status r = status /\ r_job_id r ∈ ids.
Proof.
  intros Hok. unfold sql_grabbed_jobs. rewrite list_elem_of_filter, (elem_of_scan order _ _ order_perm). split.
  - intros ([Hs Hi] & id & Hr). split_and!; [by rewrite (ok_id _ _ _ (Hok _ _ Hr))|done..].
  - intros (Hr & Hs & Hi). eauto.
Qed.

Lemma sql_grabbed_jobs_nodup status ids t :
  jobs_ok t -> NoDup (r_job_id <$> sql_grabbed_jobs order status ids t).
Proof.
  intros Hok. eapply sublist_nodup_fmap; [apply sublist_filter|by apply scan_ids_nodup].
Qed.
End statements.
