(* ===== verification/MySQLQueue.v ===== *)
(** * The MySQL driver (src/jobqueue/mysql/jobqueue.go, job.go, primary_backup.go)

    The operations of the driver on the tables of [MySQLTable].  The
    environment of a call fixes what the code does not control: the server
    clock, the clock of the process, the order in which the storage engine
    returns rows, which database calls fail, what other connections do between
    the preselection and the transaction of [Pop], and whether a COMMIT takes
    effect. *)

From S2P Require Import Prelude Job QueueSpec MySQLTable.
Local Open Scope Z_scope.

(** ** Jobs of the driver *)

(** [*incomingJob], returned by [Push], and [*job], returned by [Pop]. *)
Inductive mysql_job :=
| MIncoming (j : IncomingJob) (id : Z)
| MJob (j : Job) (status : string).

(** The methods of [*incomingJob]; the creation time is the current time. *)
Definition incomingJob_Job (now : Z) (j : IncomingJob) (id : Z) : Job := {|
  job_ID := id;
  job_Category := in_Category j;
  job_URL := in_URL j;
  job_Payload := in_Payload j;
  job_CreatedAt := u64 now;
  job_NextTry := u64 (u64 now + in_NextDelay j);
  job_Timeout := in_Timeout j;
  job_RetryDelay := in_RetryDelay j;
  job_RetryCount := in_RetryCount j;
  job_FailCount := 0;
  job_FailureURL := in_FailureURL j;
|}.

Definition mysql_job_Job (now : Z) (h : mysql_job) : Job :=
  match h with
  | MIncoming j id => incomingJob_Job now j id
  | MJob j _ => j
  end.

Definition mysql_job_Status (h : mysql_job) : string :=
  match h with
  | MIncoming _ _ => "claimed"
  | MJob _ status => status
  end.

(** [rows.Scan] into a [job]; a NULL failure URL reads as the empty string. *)
Definition row_Job (r : job_row) : Job := {|
  job_ID := r_job_id r;
  job_Category := r_category r;
  job_URL := r_url r;
  job_Payload := r_payload r;
  job_CreatedAt := r_created_at r;
  job_NextTry := r_next_try r;
  job_Timeout := r_timeout r;
  job_RetryDelay := r_retry_delay r;
  job_RetryCount := r_retry_count r;
  job_FailCount := r_fail_count r;
  job_FailureURL := default EmptyString (r_failure_url r);
|}.

(** ** Environment and state *)

Record mysql_env := {
  me_now : Z;                                        (* server clock, ms *)
  me_app_now : Z;                                    (* clock of the process, ms *)
  me_order : nat -> list job_row -> list job_row;    (* row order of the k-th query *)
  me_fault : nat -> option string;                   (* error of the k-th database call *)
  me_others : tables -> tables;                      (* other connections during [Pop] *)
  me_commit : bool;                                  (* the COMMIT of [Pop] takes effect *)
}.

Record mysql_queue := {
  mq_name : string;
  mq_tables : tables;
  mq_dbPop : option Z;   (* connection of [Pop], with its CONNECTION_ID() *)
  mq_stopped : bool;
}.

Definition mq_with_tables (t : tables) (s : mysql_queue) : mysql_queue := {|
  mq_name := mq_name s; mq_tables := t; mq_dbPop := mq_dbPop s; mq_stopped := mq_stopped s;
|}.

Definition mq_with_dbPop (c : option Z) (s : mysql_queue) : mysql_queue := {|
  mq_name := mq_name s; mq_tables := mq_tables s; mq_dbPop := c; mq_stopped := mq_stopped s;
|}.

(** ** Starting and stopping *)

(** Error of a statement: a MySQL error with its number, or another error. *)
Inductive sql_error := MySQLError (number : Z) | OtherError (msg : string).

Definition ER_DUP_FIELDNAME : Z := 1060.

(** The connection of [Pop]; [sql.Open] failing is a panic. *)
Definition mysql_connect (open : result string Z) (s : mysql_queue) : option mysql_queue :=
  match open with
  | Err _ => None
  | Ok conn => Some (mq_with_dbPop (Some conn) s)
  end.

Definition mysql_disconnect (s : mysql_queue) : mysql_queue :=
  match mq_dbPop s with
  | Some _ => mq_with_dbPop None s
  | None => s
  end.

(** [SetConnMaxLifetime]: one second less than the server's [wait_timeout], at
    least one second; nothing is set when the query fails. *)
Definition conn_max_lifetime (wait_timeout : option Z) : option Z :=
  match wait_timeout with
  | None => None
  | Some timeout => let t := timeout - 1 in Some (if t <? 1 then 1 else t)
  end.

(** [Start]: each argument is the outcome of one call; a duplicate column is
    the only error that does not panic.  The connection lifetime set on the pool
    is returned beside the queue. *)
Definition mysql_Start (open : result string unit) (wait_timeout : option Z)
    (create_jobqueue create_failure alter : result sql_error unit) (open_pop : result string Z)
    (s : mysql_queue) : option (mysql_queue * option Z) :=
  match open with
  | Err _ => None
  | Ok _ =>
  let lifetime := conn_max_lifetime wait_timeout in
  match create_jobqueue with
  | Err _ => None
  | Ok _ =>
  match create_failure with
  | Err _ => None
  | Ok _ =>
  match alter with
  | Err (OtherError _) => None
  | Err (MySQLError n) =>
      if n =? ER_DUP_FIELDNAME then s' ← mysql_connect open_pop s; Some (s', lifetime) else None
  | Ok _ => s' ← mysql_connect open_pop s; Some (s', lifetime)
  end end end end.

Definition mysql_Stop (s : mysql_queue) : mysql_queue :=
  let s := mysql_disconnect s in
  {| mq_name := mq_name s; mq_tables := mq_tables s; mq_dbPop := mq_dbPop s; mq_stopped := true |}.

Definition mysql_IsActive (s : mysql_queue) : bool := true.

(** ** Push, Delete, Update *)

Definition out_of_range : string := "Out of range value".

Definition mysql_Push (e : mysql_env) (s : mysql_queue) (j : IncomingJob)
    : mysql_queue * result QueueError mysql_job :=
  match me_fault e 0 with
  | Some err => (s, Err (StoreError err))
  | None =>
      match sql_insert_job (me_now e) (in_NextDelay j) (in_RetryCount j) (in_RetryDelay j) 0
              (in_Category j) (in_URL j) (in_Payload j) (in_Timeout j) (in_FailureURL j)
              (mq_tables s) with
      | None => (s, Err (StoreError out_of_range))
      | Some (t, id) =>
          match me_fault e 1 with  (* LastInsertId *)
          | Some err => (mq_with_tables t s, Err (StoreError err))
          | None => (mq_with_tables t s, Ok (MIncoming j (u64 id)))
          end
      end
  end.

(** Completing anything but a popped job panics; a database error is logged. *)
Definition mysql_Delete (e : mysql_env) (s : mysql_queue) (h : mysql_job) : option mysql_queue :=
  match h with
  | MIncoming _ _ => None
  | MJob j _ =>
      match me_fault e 0 with
      | Some _ => Some s
      | None => Some (mq_with_tables (sql_delete_job (job_ID j) (mq_tables s)) s)
      end
  end.

Definition mysql_Update (e : mysql_env) (s : mysql_queue) (h : mysql_job) (next : NextInfo)
    : option mysql_queue :=
  match h with
  | MIncoming _ _ => None
  | MJob j _ =>
      match me_fault e 0 with
      | Some _ => Some s
      | None =>
          match sql_update_job (me_now e) (next_NextDelay next) (next_RetryCount next)
                  (next_FailCount next) (job_ID j) (mq_tables s) with
          | None => Some s
          | Some t => Some (mq_with_tables t s)
          end
      end
  end.

(** ** Pop *)

(** [ids[i] = j.id] for the [i]-th selected row; writing past the end panics. *)
Fixpoint write_ids (i : nat) (rows : list job_row) (ids : list Z) : option (list Z) :=
  match rows with
  | [] => Some ids
  | r :: rows' =>
      if (i <? length ids)%nat then write_ids (S i) rows' (<[i := r_job_id r]> ids) else None
  end.

(** Steps 2 and 3, the transaction: select the preselected jobs that are still
    claimed for update, and grab them. *)
Definition mysql_Pop_tx (e : mysql_env) (conn : Z) (ids : list Z) (t : tables)
    : option (tables * result QueueError (list mysql_job)) :=
  match me_fault e 2 with  (* BeginTx *)
  | Some err => Some (t, Err (StoreError err))
  | None =>
  let rows := sql_grabbed_jobs (me_order e 1) Claimed ids t in
  match me_fault e 3 with  (* tx.Query, Scan and rows.Err; rolled back *)
  | Some err => Some (t, Err (StoreError err))
  | None =>
  ids' ← write_ids 0 rows ids;
  match rows with
  | [] => Some (t, Ok [])
  | _ =>
  let ids'' := take (length rows) ids' in
  match me_fault e 4 with  (* tx.Exec; rolled back *)
  | Some err => Some (t, Err (StoreError err))
  | None =>
      let t' := sql_launch_jobs conn ids'' t in
      let results := sort_slice (key_less job_NextTry) (row_Job <$> rows) in
      Some (if me_commit e then t' else t, Ok ((fun j => MJob j "grabbed") <$> results))
  end end end end.

Definition mysql_Pop (e : mysql_env) (s : mysql_queue) (limit : Z)
    : option (mysql_queue * result QueueError (list mysql_job)) :=
  if negb (mysql_IsActive s) then Some (s, Err InactiveError)
  else match mq_dbPop s with
  | None => Some (s, Err ConnectionClosedError)
  | Some conn =>
      if max_job_slice <? limit then None
      else
        match me_fault e 0 with  (* the query *)
        | Some err => Some (s, Err (StoreError err))
        | None =>
            let ids := sql_grab_jobs (me_order e 0) (me_now e) limit (mq_tables s) in
            match me_fault e 1 with  (* Scan and rows.Err *)
            | Some err => Some (s, Err (StoreError err))
            | None =>
                let t := me_others e (mq_tables s) in
                match ids with
                | [] => Some (mq_with_tables t s, Ok [])
                | _ =>
                    '(t', r) ← mysql_Pop_tx e conn ids t;
                    Some (mq_with_tables t' s, r)
                end
            end
        end
  end.

(** ** Recover *)

(** The loop over batches of orphans; call numbers of round [k] start at [2k].
    Each round that finds orphans recovers at least one, so one more round than
    orphans is enough ([mysql_Recover_correct]). *)
Fixpoint recover_loop (fuel : nat) (k : nat) (e : mysql_env) (conn : Z) (t : tables) : tables :=
  match fuel with
  | O => t
  | S fuel =>
      match me_fault e (2 * k) with
      | Some _ => t
      | None =>
          match sql_orphan_jobs (me_order e k) conn t with
          | [] => t
          | ids =>
              match me_fault e (2 * k + 1) with
              | Some _ => t
              | None => recover_loop fuel (S k) e conn (sql_recover_jobs conn ids t)
              end
          end
      end
  end.

Definition orphans (conn : Z) (t : tables) : gmap Z job_row :=
  filter (fun kv => is_orphan conn kv.2 = true) (t_jobs t).

Definition mysql_Recover (e : mysql_env) (s : mysql_queue) : mysql_queue :=
  match mq_dbPop s with
  | None => s
  | Some conn =>
      mq_with_tables (recover_loop (S (size (orphans conn (mq_tables s)))) 0 e conn (mq_tables s)) s
  end.

(** ** Failure log *)

Section failure_log.
(** [json.Marshal] of a result. *)
Context (marshal_Result : Result -> string).

(** [failureLog.Add]: the error of the INSERT is bound to a variable of the
    [if] statement, and the [err] returned is the one of [json.Marshal], which
    is nil there. *)
Definition failureLog_Add (e : mysql_env) (s : mysql_queue) (h : mysql_job) (res : Result)
    : mysql_queue * option QueueError :=
  match h with
  | MIncoming _ _ => (s, Some (StoreError "Invalid job structure"))
  | MJob j _ =>
      match me_fault e 10 with
      | Some _ => (s, None)
      | None =>
          match sql_insert_failed_job (job_ID j) (job_Category j) (job_URL j) (job_Payload j)
                  (marshal_Result res) (u64 (job_FailCount j + 1)) (me_app_now e)
                  (job_CreatedAt j) (mq_tables s) with
          | None => (s, None)
          | Some t => (mq_with_tables t s, None)
          end
      end
  end.

Definition failureLog_Delete (e : mysql_env) (s : mysql_queue) (failureID : Z)
    : mysql_queue * option QueueError :=
  match me_fault e 0 with
  | Some err => (s, Some (StoreError err))
  | None => (mq_with_tables (sql_delete_failed_job failureID (mq_tables s)) s, None)
  end.

(** ** Primary/backup (src/jobqueue/mysql/primary_backup.go) *)

Record primaryBackup := {
  pb_jobQueue : mysql_queue;
  pb_active : Z;   (* the [active] field of the activator *)
}.

Definition pb_with (s : mysql_queue) (p : primaryBackup) : primaryBackup :=
  {| pb_jobQueue := s; pb_active := pb_active p |}.

Definition primaryBackup_IsActive (p : primaryBackup) : bool := 0 <? pb_active p.

Definition primaryBackup_Pop (e : mysql_env) (p : primaryBackup) (limit : Z)
    : option (primaryBackup * result QueueError (list mysql_job)) :=
  if negb (primaryBackup_IsActive p) then Some (p, Err InactiveError)
  else
    '(s, r) ← mysql_Pop e (pb_jobQueue p) limit;
    Some (pb_with s p, r).

Definition mysql_Impl : Impl mysql_env primaryBackup mysql_job := {|
  impl_Push e p j := let '(s, r) := mysql_Push e (pb_jobQueue p) j in Some (pb_with s p, r);
  impl_Pop := primaryBackup_Pop;
  impl_Delete e p h := (fun s => pb_with s p) <$> mysql_Delete e (pb_jobQueue p) h;
  impl_Update e p h next := (fun s => pb_with s p) <$> mysql_Update e (pb_jobQueue p) h next;
  impl_IsActive := primaryBackup_IsActive;
  impl_job e _ h := mysql_job_Job (me_app_now e) h;
  impl_Status _ h := mysql_job_Status h;
  impl_FailureLog_Add := Some (fun e p h res =>
    let '(s, r) := failureLog_Add e (pb_jobQueue p) h res in (pb_with s p, r));
|}.
End failure_log.

(** ** Abstraction *)

(** The job a row stands for, when the row has a given status. *)
Definition row_view (st : job_status) (o : option job_row) : option Job :=
  match o with
  | Some r => if decide (r_status r = st) then Some (row_Job r) else None
  | None => None
  end.

Definition tables_abs (t : tables) (q : aqueue) : Prop :=
  forall id, waiting q !! id = row_view Claimed (t_jobs t !! id) /\
             grabbed q !! id = row_view Grabbed (t_jobs t !! id).

Lemma row_view_Some st o j :
  row_view st o = Some j <-> exists r, o = Some r /\ r_status r = st /\ row_Job r = j.
Proof. destruct o as [r|]; simpl; [case_decide|]; naive_solver. Qed.

Lemma row_Job_id r : job_ID (row_Job r) = r_job_id r.
Proof. done. Qed.

Lemma tables_abs_wf t q : jobs_ok t -> tables_abs t q -> aq_wf q.
Proof.
  intros Hok Ha. split_and!.
  - intros id j. rewrite (proj1 (Ha id)). intros (r & Hr & _ & <-)%row_view_Some.
    apply (Hok _ _ Hr).
  - intros id j. rewrite (proj2 (Ha id)). intros (r & Hr & _ & <-)%row_view_Some.
    apply (Hok _ _ Hr).
  - intros id [j Hj]%elem_of_dom [j' Hj']%elem_of_dom.
    rewrite (proj1 (Ha id)) in Hj. rewrite (proj2 (Ha id)) in Hj'.
    apply row_view_Some in Hj as (r & Hr & Hs & _), Hj' as (r' & Hr' & Hs' & _). congruence.
Qed.

Lemma tables_abs_empty : tables_abs empty_tables aq_empty.
Proof. intros id. by simpl; rewrite !lookup_empty. Qed.

(** ** Pop *)

Lemma write_ids_spec i rows ids :
  (i + length rows <= length ids)%nat ->
  write_ids i rows ids = Some (take i ids ++ (r_job_id <$> rows) ++ drop (i + length rows) ids).
Proof.
  revert i ids. induction rows as [|r rows IH]; intros i ids Hl; simpl in *.
  { by rewrite Nat.add_0_r, take_drop. }
  destruct (Nat.ltb_spec i (length ids)) as [Hi|]; [|lia].
  rewrite IH by (rewrite length_insert; lia). f_equal.
  rewrite insert_take_drop by done.
  rewrite take_app_ge by (rewrite length_take; lia).
  rewrite length_take, Nat.min_l by lia. replace (S i - i)%nat with 1%nat by lia. simpl.
  rewrite drop_app_ge by (rewrite length_take; lia).
  rewrite length_take, Nat.min_l by lia.
  replace (S (i + length rows) - i)%nat with (S (length rows)) by lia. simpl.
  rewrite drop_drop, <- app_assoc. simpl. do 4 f_equal. lia.
Qed.

Section pop.
Context (e : mysql_env) (order_perm : forall k l, me_order e k l ≡ₚ l).

(** The rows the preselection stands for. *)
Definition preselected (limit : Z) (t : tables) : list job_row :=
  takeZ limit (sort_slice (key_less r_next_try)
    (filter (fun r => r_status r = Claimed /\ r_next_try r <= me_now e) (scan (me_order e 0) (t_jobs t)))).

Lemma elem_of_preselected_all r t :
  r ∈ sort_slice (key_less r_next_try)
    (filter (fun r => r_status r = Claimed /\ r_next_try r <= me_now e) (scan (me_order e 0) (t_jobs t)))
  <-> (exists id, t_jobs t !! id = Some r) /\ r_status r = Claimed /\ r_next_try r <= me_now e.
Proof.
  rewrite elem_of_sort_slice, list_elem_of_filter, (elem_of_scan _ _ _ (order_perm 0)). naive_solver.
Qed.

Lemma preselected_nodup limit t : jobs_ok t -> NoDup (r_job_id <$> preselected limit t).
Proof.
  intros Hok. eapply sublist_nodup_fmap; [apply takeZ_sublist|].
  rewrite sort_slice_perm. eapply sublist_nodup_fmap; [apply sublist_filter|].
  by apply scan_ids_nodup.
Qed.

Lemma preselected_length limit t : 0 <= limit -> Z.of_nat (length (preselected limit t)) <= limit.
Proof. apply takeZ_length. Qed.

(** Without other connections the transaction selects exactly the preselected
    rows again. *)
Lemma reselect_perm limit t :
  jobs_ok t ->
  sql_grabbed_jobs (me_order e 1) Claimed (sql_grab_jobs (me_order e 0) (me_now e) limit t) t
    ≡ₚ preselected limit t.
Proof.
  intros Hok. apply NoDup_Permutation.
  - eapply NoDup_fmap_1. by apply sql_grabbed_jobs_nodup.
  - eapply NoDup_fmap_1. by apply preselected_nodup.
  - intros r. rewrite elem_of_sql_grabbed_jobs by done. unfold sql_grab_jobs.
    fold (preselected limit t). rewrite list_elem_of_fmap. split.
    + intros (Hr & Hs & r' & E & Hr').
      assert (exists id, t_jobs t !! id = Some r') as [id Hid].
      { by apply elem_of_takeZ, elem_of_preselected_all in Hr' as [? _]. }
      pose proof (ok_id _ _ _ (Hok _ _ Hid)). congruence.
    + intros Hr. apply elem_of_takeZ in Hr as Hr'.
      apply elem_of_preselected_all in Hr' as ([id Hid] & Hs & _).
      pose proof (ok_id _ _ _ (Hok _ _ Hid)). split_and!; [congruence|done|eauto].
Qed.

(** Grabbing claimed rows in the tables grabs their jobs in the queue. *)
Lemma launch_abs conn t q rows js :
  jobs_ok t -> tables_abs t q -> js ≡ₚ row_Job <$> rows -> NoDup (r_job_id <$> rows) ->
  (forall r, r ∈ rows -> t_jobs t !! r_job_id r = Some r) ->
  tables_abs (sql_launch_jobs conn (r_job_id <$> rows) t) (aq_grab js q).
Proof.
  intros Hok Ha Hjs Hnd Hin id.
  assert (Hids : job_ID <$> js ≡ₚ r_job_id <$> rows).
  { rewrite Hjs. by rewrite <- list_fmap_compose. }
  assert (Hmem : id ∈ job_ID <$> js <-> id ∈ r_job_id <$> rows) by by rewrite Hids.
  rewrite aq_grab_waiting. unfold sql_launch_jobs. rewrite lookup_update_where.
  destruct (decide (id ∈ r_job_id <$> rows)) as [Hi|Hi].
  - rewrite decide_True by by apply Hmem.
    apply list_elem_of_fmap in Hi as (r & -> & Hr). rewrite (Hin r Hr). simpl.
    rewrite bool_decide_true by (apply list_elem_of_fmap; eauto). split; [done|].
    rewrite <- row_Job_id. rewrite (aq_grab_grabbed js q (row_Job r)); [done|by rewrite Hids|].
    rewrite Hjs. apply list_elem_of_fmap. eauto.
  - rewrite decide_False by by rewrite Hmem. rewrite aq_grab_grabbed_ne by by rewrite Hmem.
    destruct (Ha id) as [-> ->]. destruct (t_jobs t !! id) as [r|] eqn:Hr; [|done]. simpl.
    rewrite bool_decide_false; [done|]. by rewrite (ok_id _ _ _ (Hok _ _ Hr)).
Qed.

(** What the preselection keeps is a pop of the abstract queue. *)
Lemma preselected_popped limit t q js :
  jobs_ok t -> tables_abs t q -> 0 <= limit -> js ≡ₚ row_Job <$> preselected limit t ->
  StronglySorted (leq (key_less job_NextTry)) js -> aq_popped (me_now e) limit q js.
Proof.
  intros Hok Ha Hl Hjs Hs.
  assert (Hsel : forall j, j ∈ js <-> exists r, r ∈ preselected limit t /\ j = row_Job r).
  { intros j. rewrite Hjs, list_elem_of_fmap. naive_solver. }
  split; [| | |done|].
  - rewrite Hjs, <- list_fmap_compose. by apply preselected_nodup.
  - rewrite Hjs, length_fmap. by apply preselected_length.
  - intros j (r & Hr & ->)%Hsel. apply elem_of_takeZ, elem_of_preselected_all in Hr as ([id Hid] & Hc & Hd).
    split; [|done]. simpl. pose proof (ok_id _ _ _ (Hok _ _ Hid)) as E. subst id.
    rewrite (proj1 (Ha _)), Hid. simpl. by rewrite decide_True.
  - intros id j Hw Hd Hni. rewrite (proj1 (Ha id)) in Hw. apply row_view_Some in Hw as (r & Hr & Hc & <-).
    set (all := sort_slice (key_less r_next_try)
      (filter (fun r => r_status r = Claimed /\ r_next_try r <= me_now e) (scan (me_order e 0) (t_jobs t)))).
    assert (Hall : r ∈ all) by (apply elem_of_preselected_all; eauto).
    assert (Hnp : r ∉ preselected limit t) by (intros Hp; apply Hni, Hsel; eauto).
    unfold preselected in Hnp. fold all in Hnp. rewrite takeZ_take in Hnp.
    rewrite <- (take_drop (Z.to_nat limit) all) in Hall.
    apply elem_of_app in Hall as [|Hdrop]; [done|].
    assert (Hlen : length (take (Z.to_nat limit) all) = Z.to_nat limit).
    { rewrite length_take. apply list_elem_of_lookup_1 in Hdrop as (i & Hi%lookup_lt_Some).
      rewrite length_drop in Hi. lia. }
    split.
    + rewrite Hjs, length_fmap. unfold preselected. fold all. rewrite takeZ_take. lia.
    + intros j' (r' & Hr' & ->)%Hsel. unfold preselected in Hr'. fold all in Hr'. rewrite takeZ_take in Hr'.
      pose proof (StronglySorted_take_drop _ _ _ _ _ (sort_slice_sorted _ _) Hr' Hdrop) as Hle.
      unfold leq, key_less in Hle. simpl. lia.
Qed.
(** Fewer rows are selected for update than identifiers were preselected. *)
Lemma reselect_length ids t :
  jobs_ok t -> (length (sql_grabbed_jobs (me_order e 1) Claimed ids t) <= length ids)%nat.
Proof.
  intros Hok. rewrite <- (length_fmap r_job_id). apply submseteq_length, NoDup_submseteq.
  - by apply sql_grabbed_jobs_nodup.
  - intros id (r & -> & Hr)%list_elem_of_fmap. by apply elem_of_sql_grabbed_jobs in Hr as (_ & _ & ?).
Qed.

Lemma sql_launch_nil conn t : sql_launch_jobs conn [] t = t.
Proof.
  destruct t as [m n f g]. unfold sql_launch_jobs, update_where, with_jobs. simpl. f_equal.
  apply map_eq. intros id. rewrite lookup_fmap. by destruct (m !! id).
Qed.

(** The transaction never panics; it grabs exactly the rows it selects. *)
Lemma mysql_Pop_tx_eq conn ids t :
  jobs_ok t -> (forall k, me_fault e k = None) ->
  let rows := sql_grabbed_jobs (me_order e 1) Claimed ids t in
  mysql_Pop_tx e conn ids t =
    Some (if me_commit e then sql_launch_jobs conn (r_job_id <$> rows) t else t,
          Ok ((fun j => MJob j "grabbed") <$> sort_slice (key_less job_NextTry) (row_Job <$> rows))).
Proof.
  intros Hok Hf rows. unfold mysql_Pop_tx. rewrite !Hf. fold rows.
  rewrite write_ids_spec by (by apply reselect_length). simpl.
  rewrite <- (length_fmap r_job_id rows), take_app_length.
  destruct rows as [|r0 rows0]; [|done]. simpl. rewrite sql_launch_nil. by destruct (me_commit e).
Qed.
(** It returns whatever fails. *)
Lemma mysql_Pop_tx_total conn ids t : jobs_ok t -> is_Some (mysql_Pop_tx e conn ids t).
Proof.
  intros Hok. unfold mysql_Pop_tx. destruct (me_fault e 2), (me_fault e 3); eauto.
  rewrite write_ids_spec by (by apply reselect_length). simpl.
  destruct (sql_grabbed_jobs _ _ _ _); [eauto|]. destruct (me_fault e 4); eauto.
Qed.

(** The transaction whatever fails: an error leaves the tables alone. *)
Lemma mysql_Pop_tx_cases conn ids t t' r :
  jobs_ok t -> mysql_Pop_tx e conn ids t = Some (t', r) ->
  match r with
  | Err _ => t' = t
  | Ok hs => exists rows, hs ≡ₚ (fun x => MJob (row_Job x) "grabbed") <$> rows /\
      NoDup (r_job_id <$> rows) /\
      (forall x, x ∈ rows -> t_jobs t !! r_job_id x = Some x /\ r_status x = Claimed) /\
      t' = if me_commit e then sql_launch_jobs conn (r_job_id <$> rows) t else t
  end.
Proof.
  intros Hok E. unfold mysql_Pop_tx in E. set (rows := sql_grabbed_jobs _ _ _ _) in E.
  destruct (me_fault e 2); [by injection E as <- <-|].
  destruct (me_fault e 3); [by injection E as <- <-|].
  rewrite write_ids_spec in E by (by apply reselect_length).
  cbn [mbind option_bind] in E. change (take 0 ids) with (@nil Z) in E. rewrite app_nil_l in E.
  assert (take (length rows) ((r_job_id <$> rows) ++ drop (0 + length rows) ids) = r_job_id <$> rows) as Et.
  { rewrite <- (length_fmap r_job_id rows). apply take_app_length. }
  rewrite Et in E. clear Et.
  assert (Hrows : forall x, x ∈ rows -> t_jobs t !! r_job_id x = Some x /\ r_status x = Claimed).
  { intros x Hx. apply elem_of_sql_grabbed_jobs in Hx; naive_solver. }
  assert (Hnd : NoDup (r_job_id <$> rows)) by (by apply sql_grabbed_jobs_nodup).
  assert (Hperm : (fun j => MJob j "grabbed") <$> sort_slice (key_less job_NextTry) (row_Job <$> rows)
    ≡ₚ (fun x => MJob (row_Job x) "grabbed") <$> rows).
  { by rewrite sort_slice_perm, <- list_fmap_compose. }
  destruct rows as [|r0 rows0].
  - injection E as <- <-. exists []. simpl. rewrite sql_launch_nil.
    split_and!; [done|by apply NoDup_nil_2|set_solver|by destruct (me_commit e)].
  - destruct (me_fault e 4); injection E as <- <-; [done|].
    by exists (r0 :: rows0).
Qed.
End pop.

(** ** The driver implements the contract *)

Record mysql_env_ok (e : mysql_env) : Prop := {
  eo_now : is_u64 (me_now e);
  eo_order : forall k l, me_order e k l ≡ₚ l;
  eo_fault : forall k, me_fault e k = None;
  eo_others : forall t, me_others e t = t;
  eo_commit : me_commit e = true;
}.

Record mysql_abs (p : primaryBackup) (q : aqueue) : Prop := {
  ma_ok : jobs_ok (mq_tables (pb_jobQueue p));
  ma_next : 1 <= t_next_job_id (mq_tables (pb_jobQueue p));
  ma_abs : tables_abs (mq_tables (pb_jobQueue p)) q;
  ma_conn : is_Some (mq_dbPop (pb_jobQueue p));
  ma_active : primaryBackup_IsActive p = true;
}.

Definition mysql_outstanding (q : aqueue) (h : mysql_job) (j : Job) : Prop :=
  (exists st, h = MJob j st) /\ grabbed q !! job_ID j = Some j.

Definition mysql_insert (e : mysql_env) (p : primaryBackup) (j : IncomingJob) : option (tables * Z) :=
  sql_insert_job (me_now e) (in_NextDelay j) (in_RetryCount j) (in_RetryDelay j) 0
    (in_Category j) (in_URL j) (in_Payload j) (in_Timeout j) (in_FailureURL j)
    (mq_tables (pb_jobQueue p)).

Definition mysql_can_update (e : mysql_env) (next : NextInfo) : Prop :=
  is_u64 (me_now e + next_NextDelay next) /\ is_u32 (next_RetryCount next) /\ is_u32 (next_FailCount next).

Section contract.
Context (marshal_Result : Result -> string).
#[local] Existing Instance mysql_Impl.

(** Replacing the tables by tables that represent another queue. *)
Lemma mysql_abs_with p q t q' :
  mysql_abs p q -> jobs_ok t -> 1 <= t_next_job_id t -> tables_abs t q' ->
  mysql_abs (pb_with (mq_with_tables t (pb_jobQueue p)) p) q'.
Proof. intros [? ? ? ? ?] ? ? ?. by split. Qed.

Lemma mysql_Push_spec e p q j t id :
  mysql_abs p q -> mysql_env_ok e -> mysql_insert e p j = Some (t, id) ->
  impl_Push (Impl := mysql_Impl marshal_Result) e p j =
    Some (pb_with (mq_with_tables t (pb_jobQueue p)) p, Ok (MIncoming j id)) /\
  aq_jobs q !! id = None /\
  mysql_abs (pb_with (mq_with_tables t (pb_jobQueue p)) p) (aq_push (me_now e) id j q).
Proof.
  intros Ha He Hi. unfold mysql_insert in Hi.
  assert (jobs_ok t) as Hok' by (eapply sql_insert_job_ok; [apply Ha..|exact Hi]).
  simpl. unfold mysql_Push. rewrite !(eo_fault e He), Hi.
  unfold sql_insert_job in Hi. case_match eqn:Hf; [|done]. injection Hi as <- <-.
  destruct (row_fits_ranges _ Hf) as (Hid & Hnt & _). simpl in Hid, Hnt.
  assert (Hfresh : t_jobs (mq_tables (pb_jobQueue p)) !! t_next_job_id (mq_tables (pb_jobQueue p)) = None).
  { apply eq_None_not_Some. intros [r Hr]. pose proof (ok_next _ _ _ (ma_ok p q Ha _ _ Hr)). lia. }
  rewrite (u64_id _ Hid). split_and!; [done|..].
  - unfold aq_jobs. rewrite lookup_union, (proj1 (ma_abs p q Ha _)), (proj2 (ma_abs p q Ha _)).
    by rewrite Hfresh.
  - apply (mysql_abs_with p q); [done|done|simpl; pose proof (ma_next p q Ha); lia|].
    intros id. simpl. destruct (ma_abs p q Ha id) as [Hw Hg]. rewrite !lookup_insert, Hw, Hg.
    case_decide as E; [subst id|done]. split; [|by rewrite Hfresh].
    simpl. unfold aq_new_job. by rewrite (u64_id _ Hnt).
Qed.

Lemma mysql_Delete_spec e p q h j :
  mysql_abs p q -> mysql_env_ok e -> mysql_outstanding q h j ->
  exists p', impl_Delete (Impl := mysql_Impl marshal_Result) e p h = Some p' /\
    mysql_abs p' (aq_delete (job_ID j) q).
Proof.
  intros Ha He [[st ->] Hg]. simpl. rewrite (eo_fault e He). eexists. split; [done|].
  apply (mysql_abs_with p q); [done|apply sql_delete_job_ok, Ha|apply Ha|].
  intros id. simpl. destruct (ma_abs p q Ha id) as [Hw' Hg']. rewrite !lookup_delete, Hw', Hg'.
  case_decide as E; [subst id|done]. split; [|done].
  destruct (tables_abs_wf _ _ (ma_ok p q Ha) (ma_abs p q Ha)) as (_ & _ & Hd).
  rewrite <- Hw'. apply not_elem_of_dom. intros Hx. apply (Hd _ Hx), elem_of_dom. eauto.
Qed.

Lemma mysql_Update_spec e p q h j next :
  mysql_abs p q -> mysql_env_ok e -> mysql_outstanding q h j -> mysql_can_update e next ->
  exists p', impl_Update (Impl := mysql_Impl marshal_Result) e p h next = Some p' /\
    mysql_abs p' (aq_update (me_now e) next j q).
Proof.
  intros Ha He [[st ->] Hg] (Hn & Hr & Hf). simpl. rewrite (eo_fault e He).
  pose proof (proj2 (ma_abs p q Ha (job_ID j))) as Hv. rewrite Hg in Hv.
  symmetry in Hv. apply row_view_Some in Hv as (r & Hrow & Hs & Ej).
  destruct (ma_ok p q Ha _ _ Hrow) as [Hid Hnext Hfit _].
  set (t := mq_tables (pb_jobQueue p)) in *.
  destruct (sql_update_job (me_now e) (next_NextDelay next) (next_RetryCount next)
    (next_FailCount next) (job_ID j) t) as [t'|] eqn:Eu.
  - simpl. eexists. split; [done|].
    assert (jobs_ok t') as Hok' by (eapply sql_update_job_ok; [apply Ha|exact Eu]).
    unfold sql_update_job in Eu. rewrite Hrow in Eu. case_match; [|done]. injection Eu as <-.
    apply (mysql_abs_with p q); [done|done|apply Ha|].
    intros id. simpl. destruct (ma_abs p q Ha id) as [Hw' Hg'].
    rewrite !lookup_insert, lookup_delete, Hw', Hg'. case_decide as E; [subst id|done].
    split; [|done]. simpl. subst j. unfold aq_retry_job. simpl. by rewrite (u64_id _ Hn).
  - exfalso. unfold sql_update_job in Eu. rewrite Hrow in Eu.
    by rewrite (update_row_fits _ _ _ _ _ Hfit Hn Hr Hf) in Eu.
Qed.

Lemma mysql_Pop_spec e p q limit :
  mysql_abs p q -> mysql_env_ok e -> 0 <= limit <= max_job_slice ->
  exists p' js, impl_Pop (Impl := mysql_Impl marshal_Result) e p limit =
      Some (p', Ok ((fun j => MJob j "grabbed") <$> js)) /\
    aq_popped (me_now e) limit q js /\ mysql_abs p' (aq_grab js q).
Proof.
  intros Ha He Hl. simpl. unfold primaryBackup_Pop. rewrite (ma_active p q Ha). simpl.
  unfold mysql_Pop. simpl. destruct (ma_conn p q Ha) as [conn ->].
  destruct (Z.ltb_spec max_job_slice limit) as [|_]; [lia|].
  rewrite !(eo_fault e He), (eo_others e He).
  set (t := mq_tables (pb_jobQueue p)) in *.
  assert (Hok : jobs_ok t) by apply Ha. assert (Hab : tables_abs t q) by apply Ha.
  pose proof (reselect_perm e (eo_order e He) limit t Hok) as Hre.
  set (ids := sql_grab_jobs (me_order e 0) (me_now e) limit t) in *.
  set (rows := sql_grabbed_jobs (me_order e 1) Claimed ids t) in *.
  set (js := sort_slice (key_less job_NextTry) (row_Job <$> rows)).
  assert (Hjs : js ≡ₚ row_Job <$> preselected e limit t).
  { unfold js. by rewrite sort_slice_perm, Hre. }
  assert (Hpop : aq_popped (me_now e) limit q js).
  { apply (preselected_popped e (eo_order e He) limit t); [done|done|lia|done|].
    apply sort_slice_sorted, _. }
  assert (Hnil : ids = [] -> rows = []).
  { intros E. pose proof (reselect_length e (eo_order e He) ids t Hok) as Hlen. fold rows in Hlen.
    rewrite E in Hlen. by destruct rows; [|simpl in Hlen; lia]. }
  pose proof (mysql_Pop_tx_eq e (eo_order e He) conn ids t Hok (eo_fault e He)) as Htx.
  cbn zeta in Htx. fold rows js in Htx. rewrite (eo_commit e He) in Htx.
  exists (pb_with (mq_with_tables (sql_launch_jobs conn (r_job_id <$> rows) t) (pb_jobQueue p)) p), js.
  split_and!; [|done|].
  - destruct ids as [|id0 ids0]; [|by rewrite Htx].
    unfold js. by rewrite (Hnil eq_refl), sql_launch_nil.
  - apply (mysql_abs_with p q); [done|by apply sql_launch_jobs_ok|apply Ha|].
    apply launch_abs; [done|done|unfold js; apply sort_slice_perm|..].
    + apply sql_grabbed_jobs_nodup; [apply (eo_order e He)|done].
    + intros r Hr. apply (elem_of_sql_grabbed_jobs _ (eo_order e He 1)) in Hr; [|done]. apply Hr.
Qed.

Definition mysql_ImplSpec : ImplSpec mysql_env primaryBackup mysql_job (Impl0 := mysql_Impl marshal_Result).
Proof.
  refine {|
    impl_abs := mysql_abs;
    impl_now := me_now;
    impl_env_ok := mysql_env_ok;
    impl_outstanding _ := mysql_outstanding;
    impl_can_push e p j := is_Some (mysql_insert e p j);
    impl_can_update e _ _ next := mysql_can_update e next;
  |}.
  - intros p q Ha. eapply tables_abs_wf; apply Ha.
  - intros e p q h j [[st ->] Hg]. done.
  - intros e p q j Ha He [[t id] Hi]. destruct (mysql_Push_spec e p q j t id Ha He Hi) as (E & Hf & Ha').
    eexists _, _, id. split_and!; done.
  - intros e p q limit Ha He Hl. destruct (mysql_Pop_spec e p q limit Ha He Hl) as (p' & js & E & Hp & Ha').
    eexists p', _, js. split_and!; [exact E|done|done|..].
    + apply Forall2_fmap_l. apply Forall2_same_length_lookup_2; [done|].
      intros i x j Hx Hj. assert (x = j) as -> by congruence. split; [by eexists|].
      apply aq_grab_grabbed; [apply Hp|]. by eapply list_elem_of_lookup_2.
    + intros h' j' [Hh' Hg']. split; [done|]. eapply aq_grab_kept; [|done..].
      eapply tables_abs_wf; apply Ha.
  - intros e p q h j Ha He Ho. destruct (mysql_Delete_spec e p q h j Ha He Ho) as (p' & E & Ha').
    exists p'. split_and!; [done..|]. intros h' j' [Hh' Hg'] Hne. split; [done|].
    simpl. by rewrite lookup_delete_ne.
  - intros e p q h j next Ha He Ho Hc. destruct (mysql_Update_spec e p q h j next Ha He Ho Hc) as (p' & E & Ha').
    exists p'. split_and!; [done..|]. intros h' j' [Hh' Hg'] Hne. split; [done|].
    simpl. by rewrite lookup_delete_ne.
  - intros add e p q h res [= <-] Ha. split; [|done]. simpl. unfold failureLog_Add.
    destruct h as [|j st]; [by destruct p|]. destruct (me_fault e 10); [by destruct p|].
    unfold sql_insert_failed_job. destruct (failure_fits _); [|by destruct p].
    apply (mysql_abs_with p q); [done|apply Ha..].
Defined.
End contract.

(** ** Recover *)

Section recover.
Context (e : mysql_env) (order_perm : forall k l, me_order e k l ≡ₚ l)
  (no_fault : forall k, me_fault e k = None).

Lemma set_claimed_not_orphan conn r : is_orphan conn (set_status Claimed None r) = false.
Proof. done. Qed.

(** Recovering every orphan at once: what the batches amount to. *)
Definition recovered (conn : Z) (t : tables) : tables :=
  update_where (is_orphan conn) (set_status Claimed None) t.

Lemma recovered_batch conn ids t : recovered conn (sql_recover_jobs conn ids t) = recovered conn t.
Proof.
  unfold recovered, sql_recover_jobs, update_where, with_jobs. simpl. f_equal.
  rewrite <- map_fmap_compose. apply map_fmap_ext. intros id r _. simpl.
  destruct (is_orphan conn r) eqn:Eo; simpl; [|by rewrite Eo].
  case_bool_decide; simpl; [done|by rewrite Eo].
Qed.

Lemma elem_of_sql_orphan_jobs k conn t id :
  jobs_ok t -> id ∈ sql_orphan_jobs (me_order e k) conn t -> id ∈ dom (orphans conn t).
Proof.
  intros Hok (r & -> & Hr)%list_elem_of_fmap. apply elem_of_takeZ in Hr.
  apply list_elem_of_filter in Hr as [Ho Hr]. apply elem_of_scan in Hr as [id Hr]; [|apply order_perm].
  rewrite (ok_id _ _ _ (Hok _ _ Hr)). apply elem_of_dom. exists r.
  by apply map_lookup_filter_Some.
Qed.

Lemma no_orphan_batch k conn t :
  sql_orphan_jobs (me_order e k) conn t = [] -> recovered conn t = t.
Proof.
  intros E. destruct t as [m n f g]. unfold recovered, update_where, with_jobs. simpl. f_equal.
  apply map_eq. intros id. rewrite lookup_fmap. destruct (m !! id) as [r|] eqn:Hr; [|done]. simpl.
  destruct (is_orphan conn r) eqn:Eo; [|done]. exfalso.
  unfold sql_orphan_jobs in E. apply fmap_nil_inv in E.
  assert (r ∈ filter (fun r => is_orphan conn r = true) (scan (me_order e k) m)) as Hin.
  { apply list_elem_of_filter. split; [done|]. apply elem_of_scan; [apply order_perm|]. eauto. }
  simpl in E. by destruct (filter _ _); [apply elem_of_nil in Hin|].
Qed.

(** A batch that is not empty leaves fewer orphans. *)
Lemma orphans_decrease k conn t ids :
  jobs_ok t -> sql_orphan_jobs (me_order e k) conn t = ids -> ids <> [] ->
  (size (orphans conn (sql_recover_jobs conn ids t)) < size (orphans conn t))%nat.
Proof.
  intros Hok E Hne. rewrite <- !size_dom. apply subset_size. destruct ids as [|id ids0]; [done|].
  apply strict_spec_alt. split.
  - intros id'. rewrite !elem_of_dom. intros [r (Hr & Ho)%map_lookup_filter_Some].
    unfold sql_recover_jobs in Hr. rewrite lookup_update_where in Hr.
    apply fmap_Some in Hr as (r0 & Hr0 & ->). exists r0. apply map_lookup_filter_Some. split; [done|].
    cbn [snd] in *. by destruct (is_orphan conn r0) eqn:Eo; simpl in Ho; rewrite ?Eo in Ho.
  - intros Heq. assert (id ∈ dom (orphans conn t)) as Hid.
    { apply elem_of_sql_orphan_jobs with k; [done|]. rewrite E. set_solver. }
    pose proof Hid as Hid'. rewrite <- Heq in Hid'.
    apply elem_of_dom in Hid as [r (Hr & Ho)%map_lookup_filter_Some].
    apply elem_of_dom in Hid' as [r' (Hr' & Ho')%map_lookup_filter_Some].
    unfold sql_recover_jobs in Hr'. rewrite lookup_update_where, Hr in Hr'. simpl in *.
    injection Hr' as <-. rewrite Ho in Ho'. rewrite bool_decide_true in Ho'; [done|].
    rewrite (ok_id _ _ _ (Hok _ _ Hr)). set_solver.
Qed.

(** The loop stops with every orphan recovered. *)
Lemma recover_loop_spec fuel k conn t :
  jobs_ok t -> (size (orphans conn t) < fuel)%nat -> recover_loop fuel k e conn t = recovered conn t.
Proof.
  revert k t. induction fuel as [|fuel IH]; intros k t Hok Hf; [lia|]. simpl. rewrite no_fault.
  destruct (sql_orphan_jobs (me_order e k) conn t) as [|id ids] eqn:E.
  - symmetry. by eapply no_orphan_batch.
  - rewrite no_fault. rewrite IH.
    + apply recovered_batch.
    + by apply sql_recover_jobs_ok.
    + pose proof (orphans_decrease k conn t _ Hok E ltac:(done)). lia.
Qed.
End recover.

(** ** What a Pop can do *)

(** The outcomes of [Pop] by its result, [t] being the tables its transaction
    works on. *)
Definition pop_outcome (e : mysql_env) (conn : Z) (s s' : mysql_queue)
    (r : result QueueError (list mysql_job)) (t : tables) : Prop :=
  match r with
  | Err _ => mq_tables s' = mq_tables s \/ mq_tables s' = t
  | Ok hs => exists rows, hs ≡ₚ (fun x => MJob (row_Job x) "grabbed") <$> rows /\
      NoDup (r_job_id <$> rows) /\
      (forall x, x ∈ rows -> t_jobs t !! r_job_id x = Some x /\ r_status x = Claimed) /\
      mq_tables s' = if me_commit e then sql_launch_jobs conn (r_job_id <$> rows) t else t
  end.

Lemma mysql_Pop_outcome e s limit conn s' r :
  (forall k l, me_order e k l ≡ₚ l) -> jobs_ok (me_others e (mq_tables s)) ->
  mq_dbPop s = Some conn -> mysql_Pop e s limit = Some (s', r) ->
  pop_outcome e conn s s' r (me_others e (mq_tables s)).
Proof.
  intros Ho Hok Hc E. set (t := me_others e (mq_tables s)) in *. unfold mysql_Pop in E. simpl in E. rewrite Hc in E.
  destruct (max_job_slice <? limit); [done|].
  destruct (me_fault e 0); [injection E as <- <-; by left|].
  destruct (me_fault e 1); [injection E as <- <-; by left|]. fold t in E.
  destruct (sql_grab_jobs _ _ _ _) as [|id0 ids0].
  { injection E as <- <-. exists []. simpl. rewrite sql_launch_nil.
    split_and!; [done|by apply NoDup_nil_2|set_solver|by destruct (me_commit e)]. }
  destruct (mysql_Pop_tx e conn (id0 :: ids0) t) as [[t' r']|] eqn:Etx; [|done].
  injection E as <- <-. simpl. apply mysql_Pop_tx_cases in Etx; [|done..].
  destruct r'; [done|by right].
Qed.

(** A connected [Pop] within the limit of a slice never panics. *)
Lemma mysql_Pop_total e s limit conn :
  (forall k l, me_order e k l ≡ₚ l) -> jobs_ok (me_others e (mq_tables s)) -> mq_dbPop s = Some conn ->
  limit <= max_job_slice -> is_Some (mysql_Pop e s limit).
Proof.
  intros Ho Hok Hc Hl. unfold mysql_Pop. simpl. rewrite Hc. destruct (Z.ltb_spec max_job_slice limit); [lia|].
  destruct (me_fault e 0), (me_fault e 1); eauto. destruct (sql_grab_jobs _ _ _ _) as [|id0 ids0]; [eauto|].
  destruct (mysql_Pop_tx_total e Ho conn (id0 :: ids0) _ Hok) as [[t' r] ->]. simpl. eauto.
Qed.

(** Rows handed out by a committed [Pop] are grabbed by its connection. *)
Lemma launched_row conn rows t x :
  jobs_ok t -> x ∈ rows -> t_jobs t !! r_job_id x = Some x ->
  t_jobs (sql_launch_jobs conn (r_job_id <$> rows) t) !! r_job_id x =
    Some (set_status Grabbed (Some conn) x).
Proof.
  intros Hok Hx Hr. unfold sql_launch_jobs. rewrite lookup_update_where, Hr. simpl.
  rewrite bool_decide_true; [done|]. by apply list_elem_of_fmap_2.
Qed.

Definition mysql_job_id (h : mysql_job) : Z :=
  match h with MIncoming _ id => id | MJob j _ => job_ID j end.

Lemma elem_of_popped_ids hs rows id :
  hs ≡ₚ (fun x => MJob (row_Job x) "grabbed") <$> rows ->
  id ∈ mysql_job_id <$> hs -> exists x, x ∈ rows /\ r_job_id x = id.
Proof.
  intros Hp. rewrite Hp, <- list_fmap_compose. intros (x & -> & Hx)%list_elem_of_fmap. by exists x.
Qed.

(** ** Theorems *)

(** C6 (refinement): [Pop] of an active, connected MySQL queue.  It never panics.
    Whatever calls fail, whatever other connections do between the preselection and
    the transaction, and whether or not the COMMIT takes effect, its outcome is as
    [pop_outcome] says: an error leaves the tables to the others, and the jobs handed
    out are distinct rows that were claimed when the transaction read them and, with
    the COMMIT in effect, exactly the rows that are now grabbed.  When no call fails,
    no other connection interferes and the COMMIT takes effect, it returns a pop of
    the abstract queue the tables represent (the earliest due jobs, up to the limit,
    earliest first), and the tables then represent the queue with these grabbed. *)
Theorem mysql_Pop_refines e p q limit conn :
  mysql_abs p q -> is_u64 (me_now e) -> (forall k l, me_order e k l ≡ₚ l) -> 0 <= limit <= max_job_slice ->
  mq_dbPop (pb_jobQueue p) = Some conn -> jobs_ok (me_others e (mq_tables (pb_jobQueue p))) ->
  exists p' r, primaryBackup_Pop e p limit = Some (p', r) /\
    pop_outcome e conn (pb_jobQueue p) (pb_jobQueue p') r (me_others e (mq_tables (pb_jobQueue p))) /\
    ((forall k, me_fault e k = None) -> (forall t, me_others e t = t) -> me_commit e = true ->
     exists js, r = Ok ((fun j => MJob j "grabbed") <$> js) /\
       aq_popped (me_now e) limit q js /\ mysql_abs p' (aq_grab js q)).
Proof.
  intros Ha Hnow Ho Hl Hc Hok.
  destruct (mysql_Pop_total e (pb_jobQueue p) limit conn Ho Hok Hc (proj2 Hl)) as [[s' r] E].
  exists (pb_with s' p), r.
  assert (Ep : primaryBackup_Pop e p limit = Some (pb_with s' p, r))
    by (unfold primaryBackup_Pop; rewrite (ma_active p q Ha), E; done).
  split; [done|]. split; [by eapply mysql_Pop_outcome|]. intros Hf Hoth Hcom.
  destruct (mysql_Pop_spec (fun _ => EmptyString) e p q limit Ha) as (p' & js & E' & Hpop & Ha'); [by split|done|].
  simpl in E'. rewrite Ep in E'. injection E' as <- ->. by exists js.
Qed.

(** Whatever other connections do between the preselection and the
    transaction, and whatever fails, [Pop] hands out only jobs that were claimed
    when its transaction read them, each once; with the COMMIT in effect exactly
    these rows are now grabbed by this connection and every other row is as the
    others left it; on an error the tables are as they were or as the others
    left them. *)
Theorem mysql_Pop_safe e s limit conn s' r :
  (forall k l, me_order e k l ≡ₚ l) -> jobs_ok (me_others e (mq_tables s)) ->
  mq_dbPop s = Some conn -> mysql_Pop e s limit = Some (s', r) ->
  let t := me_others e (mq_tables s) in
  match r with
  | Err _ => mq_tables s' = mq_tables s \/ mq_tables s' = t
  | Ok hs => exists rows, hs ≡ₚ (fun x => MJob (row_Job x) "grabbed") <$> rows /\
      NoDup (r_job_id <$> rows) /\
      (forall x, x ∈ rows -> t_jobs t !! r_job_id x = Some x /\ r_status x = Claimed) /\
      mq_tables s' = if me_commit e then sql_launch_jobs conn (r_job_id <$> rows) t else t
  end.
Proof. intros Ho Hok Hc E. exact (mysql_Pop_outcome e s limit conn s' r Ho Hok Hc E). Qed.

(** C9 (safety): no job is grabbed twice.  If another connection pops between
    the preselection and the transaction of a [Pop] and its COMMIT takes effect,
    the two hand out disjoint sets of jobs, even when both preselected the same
    rows, and the jobs of the other connection stay grabbed by it. *)
Theorem mysql_no_double_grab eA eB sA sB limitA limitB connA connB sA' sB' hsA hsB :
  (forall k l, me_order eA k l ≡ₚ l) -> (forall k l, me_order eB k l ≡ₚ l) ->
  mq_dbPop sA = Some connA -> mq_dbPop sB = Some connB ->
  jobs_ok (me_others eB (mq_tables sB)) -> me_commit eB = true ->
  mysql_Pop eB sB limitB = Some (sB', Ok hsB) ->
  me_others eA (mq_tables sA) = mq_tables sB' ->
  mysql_Pop eA sA limitA = Some (sA', Ok hsA) ->
  (forall id, id ∈ mysql_job_id <$> hsA -> id ∉ mysql_job_id <$> hsB) /\
  (forall id, id ∈ mysql_job_id <$> hsB -> exists r, t_jobs (mq_tables sA') !! id = Some r /\
    r_status r = Grabbed /\ r_grabber_id r = Some connB).
Proof.
  intros HoA HoB HcA HcB HokB Hcom EB Hoth EA.
  apply (mysql_Pop_outcome _ _ _ connB) in EB as (rowsB & HpB & _ & HB & HtB); [|done..]. rewrite Hcom in HtB.
  assert (jobs_ok (mq_tables sB')) as HokB' by (rewrite HtB; by apply sql_launch_jobs_ok).
  apply (mysql_Pop_outcome _ _ _ connA) in EA as (rowsA & HpA & _ & HA & HtA); [|by rewrite ?Hoth..].
  rewrite Hoth in HA, HtA.
  assert (forall y, y ∈ rowsB -> t_jobs (mq_tables sB') !! r_job_id y = Some (set_status Grabbed (Some connB) y)) as HBrow.
  { intros y Hy. rewrite HtB. apply launched_row; [done..|]. by apply HB. }
  assert (forall x y, x ∈ rowsA -> y ∈ rowsB -> r_job_id x <> r_job_id y) as Hdisj.
  { intros x y Hx Hy Heq. destruct (HA x Hx) as [Hrow Hcl]. rewrite Heq, (HBrow y Hy) in Hrow.
    injection Hrow as <-. done. }
  split.
  - intros id (x & Hx & <-)%(elem_of_popped_ids _ rowsA) (y & Hy & Heq)%(elem_of_popped_ids _ rowsB);
      [|done..]. by apply (Hdisj x y).
  - intros id (y & Hy & <-)%(elem_of_popped_ids _ rowsB); [|done].
    exists (set_status Grabbed (Some connB) y). split; [|done]. rewrite HtA.
    destruct (me_commit eA); [|by apply HBrow].
    unfold sql_launch_jobs. rewrite lookup_update_where, (HBrow y Hy). simpl.
    rewrite bool_decide_false; [done|]. intros (x & Heq & Hx)%list_elem_of_fmap.
    by apply (Hdisj x y Hx Hy).
Qed.

(** C13 (functional): [Recover], with a database that answers, ends with every job
    grabbed by another connection claimed again and nothing else changed: the
    batches of at most 1000 cover all orphans, none is left, and the table is
    still in order. *)
Theorem mysql_Recover_correct e s conn :
  (forall k l, me_order e k l ≡ₚ l) -> (forall k, me_fault e k = None) ->
  mq_dbPop s = Some conn -> jobs_ok (mq_tables s) ->
  let t := mq_tables s in let t' := mq_tables (mysql_Recover e s) in
  jobs_ok t' /\ orphans conn t' = ∅ /\
  forall id, t_jobs t' !! id = (fun r => if is_orphan conn r then set_status Claimed None r else r) <$> t_jobs t !! id.
Proof.
  intros Ho Hf Hc Hok t t'.
  assert (t' = recovered conn t) as ->.
  { unfold t', mysql_Recover. rewrite Hc. cbn [mq_tables mq_with_tables]. apply recover_loop_spec; [done..|]. fold t. lia. }
  split_and!.
  - apply update_where_ok; [done|]. intros id r Hr. apply set_status_ok; [done|]. split; [by intros []|done].
  - apply map_empty. intros id. apply map_lookup_filter_None. right. intros r Hr. simpl.
    unfold recovered in Hr. rewrite lookup_update_where in Hr. apply fmap_Some in Hr as (r0 & _ & ->).
    by destruct (is_orphan conn r0) eqn:E; simpl; rewrite ?E.
  - intros id. unfold recovered. by rewrite lookup_update_where.
Qed.

(** When the COMMIT of [Pop] has no effect, the jobs it selected are
    returned to the caller all the same although every one of them is still
    claimed in the table, so that another [Pop] can hand them out again. *)
Theorem mysql_Pop_lost_commit e s limit conn s' hs :
  (forall k l, me_order e k l ≡ₚ l) -> jobs_ok (mq_tables s) -> (forall t, me_others e t = t) ->
  mq_dbPop s = Some conn -> me_commit e = false -> mysql_Pop e s limit = Some (s', Ok hs) ->
  mq_tables s' = mq_tables s /\
  forall id, id ∈ mysql_job_id <$> hs -> exists r, t_jobs (mq_tables s') !! id = Some r /\ r_status r = Claimed.
Proof.
  intros Ho Hok Hoth Hc Hcom E.
  apply (mysql_Pop_outcome _ _ _ conn) in E as (rows & Hp & _ & Hrows & Ht); [|by rewrite ?Hoth..].
  rewrite Hcom, Hoth in Ht. rewrite Hoth in Hrows. split; [done|].
  intros id (x & Hx & <-)%(elem_of_popped_ids _ rows); [|done]. rewrite Ht. exists x. by apply Hrows.
Qed.

(** ** A concrete run *)

Section runs.
Definition env_at (now : Z) (others : tables -> tables) (commit : bool) : mysql_env := {|
  me_now := now; me_app_now := now; me_order _ l := l; me_fault _ := None;
  me_others := others; me_commit := commit;
|}.

Definition incoming (delay : Z) : IncomingJob := {|
  in_Category := "c"; in_URL := "u"; in_Payload := "p"; in_NextDelay := delay;
  in_Timeout := 0; in_RetryDelay := 5; in_RetryCount := 2; in_FailureURL := EmptyString;
|}.

Definition node (conn : Z) (t : tables) : mysql_queue :=
  {| mq_name := "q"; mq_tables := t; mq_dbPop := Some conn; mq_stopped := false |}.

(** Two jobs pushed; the second is due first. *)
Definition sA : mysql_queue := fst (mysql_Push (env_at 1000 id true) (node 7 empty_tables) (incoming 50)).
Definition sB : mysql_queue := fst (mysql_Push (env_at 1001 id true) sA (incoming 0)).
(** Connection 8 pops one job at 1100. *)
Definition sC : mysql_queue :=
  from_option fst (node 8 empty_tables) (mysql_Pop (env_at 1100 id true) (node 8 (mq_tables sB)) 1).

Lemma empty_abs : mysql_abs {| pb_jobQueue := node 7 empty_tables; pb_active := 1 |} aq_empty.
Proof.
  split; simpl; [|lia|apply tables_abs_empty|by eexists|done].
  apply map_Forall_empty.
Defined.

Lemma env_at_ok now : is_u64 now -> mysql_env_ok (env_at now id true).
Proof. intros Hn. by split. Defined.

Lemma jobs_ok_decide t : bool_decide (map_Forall (fun id r =>
    (r_job_id r = id /\ 1 <= id /\ id < t_next_job_id t) /\ row_fits r = true /\
    bool_decide (is_Some (r_grabber_id r)) = bool_decide (r_status r = Grabbed)) (t_jobs t)) = true -> jobs_ok t.
Proof.
  rewrite bool_decide_eq_true. intros Hall id r Hr.
  destruct (Hall id r Hr) as ((Hid & ? & ?) & Hf & Hg). split; [done|lia|done|].
  by rewrite <- (bool_decide_eq_true (is_Some _)), Hg, bool_decide_eq_true.
Defined.

Lemma jobs_ok_sB : jobs_ok (mq_tables sB).
Proof. apply jobs_ok_decide. vm_compute. reflexivity. Defined.

Lemma jobs_ok_sC : jobs_ok (mq_tables sC).
Proof. apply jobs_ok_decide. vm_compute. reflexivity. Defined.

(** The abstract queue of a table. *)
Definition abs_of (t : tables) : aqueue := {|
  waiting := omap (fun r => row_view Claimed (Some r)) (t_jobs t);
  grabbed := omap (fun r => row_view Grabbed (Some r)) (t_jobs t);
|}.

Lemma abs_of_tables t : tables_abs t (abs_of t).
Proof. intros id. simpl. rewrite !lookup_omap. by destruct (t_jobs t !! id). Defined.

(** Of the two jobs the one that is due first is popped. *)
Lemma mysql_Pop_refines_witness :
  exists p' js, primaryBackup_Pop (env_at 1100 id true) {| pb_jobQueue := sB; pb_active := 1 |} 1 =
      Some (p', Ok ((fun j => MJob j "grabbed") <$> js)) /\ job_ID <$> js = [2] /\
    aq_popped 1100 1 (abs_of (mq_tables sB)) js /\ mysql_abs p' (aq_grab js (abs_of (mq_tables sB))).
Proof.
  destruct (mysql_Pop_refines (env_at 1100 id true) {| pb_jobQueue := sB; pb_active := 1 |} (abs_of (mq_tables sB)) 1 7)
    as (p' & r & E & _ & Hq).
  - split; [exact jobs_ok_sB|by apply Z.leb_le; vm_compute|apply abs_of_tables|by eexists|done].
  - simpl. word.
  - done.
  - unfold max_job_slice. lia.
  - reflexivity.
  - exact jobs_ok_sB.
  - destruct Hq as (js & -> & Hpop & Habs); [done..|]. exists p', js. split; [exact E|]. split; [|by split].
    vm_compute in E. destruct js as [|j1 [|j2 js]]; try discriminate E. injection E as _ <-. reflexivity.
Defined.

Lemma mysql_Pop_safe_witness :
  exists rows hs, hs ≡ₚ (fun x => MJob (row_Job x) "grabbed") <$> rows /\
    NoDup (r_job_id <$> rows) /\ (mysql_job_id <$> hs) = [2; 1].
Proof.
  destruct (mysql_Pop (env_at 1100 id true) sB 5) as [[s' [hs|]]|] eqn:E; [|vm_compute in E; congruence..].
  destruct (mysql_Pop_safe (env_at 1100 id true) sB 5 7 s' (Ok hs) (fun _ l => reflexivity l)
    jobs_ok_sB eq_refl E) as (rows & Hp & Hnd & _).
  exists rows, hs. split_and!; [done..|]. vm_compute in E. injection E as _ <-. reflexivity.
Defined.

(** Both connections preselect both jobs; connection 8 wins. *)
Lemma mysql_no_double_grab_witness :
  exists s' hs, mysql_Pop (env_at 1100 (fun _ => mq_tables sC) true) sB 5 = Some (s', Ok hs) /\
    (forall i, i ∈ mysql_job_id <$> hs -> i ∉ [2]).
Proof.
  destruct (mysql_Pop (env_at 1100 (fun _ => mq_tables sC) true) sB 5) as [[s' [hs|]]|] eqn:EA;
    [|vm_compute in EA; congruence..].
  destruct (mysql_Pop (env_at 1100 id true) (node 8 (mq_tables sB)) 1) as [[sB' [hsB|]]|] eqn:EB;
    [|vm_compute in EB; congruence..].
  assert (mysql_job_id <$> hsB = [2]) as HB by (vm_compute in EB; injection EB as _ <-; reflexivity).
  exists s', hs. split; [done|]. rewrite <- HB.
  apply (mysql_no_double_grab (env_at 1100 (fun _ => mq_tables sC) true) (env_at 1100 id true)
    sB (node 8 (mq_tables sB)) 5 1 7 8 s' sB' hs hsB); try done.
  - exact jobs_ok_sB.
  - simpl. unfold sC. by rewrite EB.
Defined.

(** Connection 9 starts after connection 8 is gone. *)
Lemma mysql_Recover_correct_witness :
  orphans 9 (mq_tables (node 9 (mq_tables sC))) <> ∅ /\
  orphans 9 (mq_tables (mysql_Recover (env_at 2000 id true) (node 9 (mq_tables sC)))) = ∅.
Proof.
  split; [by intros E; vm_compute in E|].
  apply (mysql_Recover_correct (env_at 2000 id true) (node 9 (mq_tables sC)) 9); try done.
  exact jobs_ok_sC.
Defined.

Lemma mysql_Pop_lost_commit_witness :
  exists s' hs, mysql_Pop (env_at 1100 id false) sB 5 = Some (s', Ok hs) /\ length hs = 2%nat /\
    mq_tables s' = mq_tables sB.
Proof.
  destruct (mysql_Pop (env_at 1100 id false) sB 5) as [[s' [hs|]]|] eqn:E; [|vm_compute in E; congruence..].
  exists s', hs. split_and!; [done|vm_compute in E; injection E as _ <-; reflexivity|].
  apply (mysql_Pop_lost_commit (env_at 1100 id false) sB 5 7 s' hs); try done. exact jobs_ok_sB.
Defined.
End runs.
