(* ===== verification/Model.v ===== *)
(** * Queue and routing definitions (src/model/model.go)

    A finite [float64] is a rational number, in lowest terms so that equal
    numbers are equal terms; comparisons of floats are comparisons of these
    numbers. *)

From Stdlib Require Export QArith.QArith_base QArith.Qcanon.
From S2P Require Import Prelude.
Local Open Scope Z_scope.

Record Queue := {
  Name : string;
  PollingInterval : Z;
  MaxWorkers : Z;
  MaxDispatchesPerSecond : Qc;
  MaxBurstSize : Z;
}.

Record Routing := {
  rt_QueueName : string;
  rt_JobCategory : string;
}.

#[export] Instance Queue_eq_dec : EqDecision Queue.
Proof. solve_decision. Defined.

#[export] Instance Routing_eq_dec : EqDecision Routing.
Proof. solve_decision. Defined.

(** Unsigned fields are in the range of [uint]. *)
Definition Queue_wf (q : Queue) : Prop :=
  is_u64 (PollingInterval q) /\ is_u64 (MaxWorkers q) /\ is_u64 (MaxBurstSize q).
