(* ===== verification/Dispatcher.v ===== *)
(** * Dispatcher and polling kicker (src/dispatcher/dispatcher.go, kicker/polling.go)

    A dispatcher is a set of goroutines that communicate over channels: the
    loop, one goroutine per running job, the polling kicker and, once [Stop] is
    called, the goroutine that shuts the rest down.  Each goroutine is a program
    counter; a step of the system is a step of one goroutine, or of two that
    meet on an unbuffered channel, chosen by a label.  The step function is
    executable: a run is a list of labels.

    The queue, the worker, the rate limiter and the ticker are outside the
    dispatcher: labels carry the environment of a queue operation and the result
    of a worker; the limiter follows its documentation, granting a token or
    failing when the context is cancelled or the burst admits no event. *)

From S2P Require Import Prelude Job QueueSpec Model.
Local Open Scope Z_scope.

(** ** The queue a dispatcher watches *)

(** Interface [dispatcher.JobQueue]; [None] is a panic. *)
Class JobQueue (Env QS J : Type) := {
  dq_Pop : Env -> QS -> Z -> option (QS * result QueueError (list J));
  dq_Complete : Env -> QS -> J -> Result -> option QS;
}.

(** ** Configuration *)

Definition defaultMinBufferSize : Z := 1000.

(** The size [make(chan jobqueue.Job, n)] accepts before it panics: the 48-bit
    address space less the header of a channel, over the 16 bytes of an
    interface value. *)
Definition max_job_chan : Z := 17592186044410.

Record dispatcher_config := {
  c_bufferSize : Z;      (* cap(d.jobBuffer) *)
  c_maxWorkers : Z;      (* cap(d.sem) *)
  c_limit : option Qc;   (* rate of the limiter; [None] is [rate.Inf] *)
  c_burst : Z;           (* burst of the limiter *)
  c_interval : Z;        (* polling interval of the kicker *)
}.

(** [Config.Start] with the default kicker: the sizes of the channels and the
    limiter of a queue; [None] when [make] panics. *)
Definition Config_Start (MinBufferSize : Z) (m : Queue) : option dispatcher_config :=
  let bufferSize := MinBufferSize in
  let bufferSize := if bufferSize =? 0 then defaultMinBufferSize else bufferSize in
  let bufferSize := if bufferSize <? MaxWorkers m then MaxWorkers m else bufferSize in
  let dps := if bool_decide (MaxDispatchesPerSecond m = 0%Qc) then None else Some (MaxDispatchesPerSecond m) in
  if (max_job_chan <? bufferSize) || (i64_max <? MaxWorkers m) then None
  else Some {| c_bufferSize := bufferSize; c_maxWorkers := MaxWorkers m;
               c_limit := dps; c_burst := i64 (MaxBurstSize m);
               c_interval := PollingInterval m |}.

(** The period of the ticker of the kicker, in nanoseconds:
    [time.NewTicker(time.Duration(k.interval) * time.Millisecond)] panics, in the
    goroutine of the kicker, when it is not positive. *)
Definition ticker_period (interval : Z) : option Z :=
  let d := i64 (i64 interval * 1000000) in if 0 <? d then Some d else None.

Lemma ticker_period_ok interval : 0 < interval <= 9223372036854 -> ticker_period interval = Some (interval * 1000000).
Proof.
  intros Hi. unfold ticker_period. rewrite !i64_id by word. by rewrite (proj2 (Z.ltb_lt _ _)) by lia.
Qed.

(** The limiter never grants a token: its burst is less than one event and its
    rate is finite. *)
Definition limiter_closed (c : dispatcher_config) : bool :=
  match c_limit c with
  | None => false
  | Some _ => c_burst c <? 1
  end.

(** ** State *)

Section dispatcher.
Context {Env QS J : Type} `{!JobQueue Env QS J}.

(** The goroutine of [loop]. *)
Inductive loop_pc :=
| LSelect                (* at the select statement *)
| LAcquire (job : J)     (* at [d.sem <- struct{}{}], with a job received *)
| LBlocked               (* at [d.jobBuffer <- job] with the buffer full *)
| LWait                  (* at [wg.Wait()] *)
| LSendStopped           (* at [d.stopped <- struct{}{}] *)
| LExited.

(** The goroutine of a job; the flag tells whether the job was completed. *)
Inductive worker_pc :=
| WLimiter                   (* at [d.limiter.Wait(ctx)] *)
| WWorking                   (* in [d.worker.Work(job)] *)
| WCompleting (res : Result) (* at [d.jobqueue.Complete(job, rslt)] *)
| WReleasing (done : bool)   (* deferred [<-d.sem] *)
| WFinishing (done : bool)   (* deferred [wg.Done()] *)
| WExited (done : bool).

Record worker := { w_job : J; w_pc : worker_pc }.

(** The goroutine of the kicker. *)
Inductive kicker_pc :=
| KSelect        (* at the select statement *)
| KKick          (* at [d.kick <- struct{}{}] *)
| KSendStopped   (* at [k.stopped <- struct{}{}] *)
| KExited.

(** The goroutine of [Stop]; a dispatcher is stopped once. *)
Inductive stopper_pc :=
| SIdle          (* [Stop] has not been called *)
| SStart         (* at [k.stop <- struct{}{}] *)
| SWaitKicker    (* at [<-k.stopped] *)
| SSendStop      (* at [d.stop <- struct{}{}] *)
| SWaitStopped   (* at [<-d.stopped] *)
| SReport        (* at [stopped <- struct{}{}] *)
| SDone.

Record dispatcher := {
  d_jobqueue : QS;
  d_jobBuffer : list J;
  d_sem : Z;               (* number of elements in [d.sem] *)
  d_wg : Z;
  d_cancelled : bool;      (* [ctx] *)
  d_loop : loop_pc;
  d_workers : list worker; (* every goroutine of a job started so far *)
  d_kicker : kicker_pc;
  k_stop : bool;           (* [k.stop] holds an element *)
  k_stopped : bool;        (* [k.stopped] holds an element *)
  d_stopper : stopper_pc;
  d_errors : list string;  (* messages of [d.logger.Error] *)
  d_crashed : bool;        (* a goroutine panicked *)
  d_popped : list J;       (* history: the jobs put into the buffer *)
}.

Definition d_start (q : QS) : dispatcher := {|
  d_jobqueue := q; d_jobBuffer := []; d_sem := 0; d_wg := 0; d_cancelled := false;
  d_loop := LSelect; d_workers := []; d_kicker := KSelect; k_stop := false; k_stopped := false;
  d_stopper := SIdle; d_errors := []; d_crashed := false; d_popped := [];
|}.

Definition set_loop (pc : loop_pc) (d : dispatcher) : dispatcher := {|
  d_jobqueue := d_jobqueue d; d_jobBuffer := d_jobBuffer d; d_sem := d_sem d; d_wg := d_wg d;
  d_cancelled := d_cancelled d; d_loop := pc; d_workers := d_workers d; d_kicker := d_kicker d;
  k_stop := k_stop d; k_stopped := k_stopped d; d_stopper := d_stopper d; d_errors := d_errors d;
  d_crashed := d_crashed d; d_popped := d_popped d;
|}.

Definition set_workers (ws : list worker) (sem wg : Z) (d : dispatcher) : dispatcher := {|
  d_jobqueue := d_jobqueue d; d_jobBuffer := d_jobBuffer d; d_sem := sem; d_wg := wg;
  d_cancelled := d_cancelled d; d_loop := d_loop d; d_workers := ws; d_kicker := d_kicker d;
  k_stop := k_stop d; k_stopped := k_stopped d; d_stopper := d_stopper d; d_errors := d_errors d;
  d_crashed := d_crashed d; d_popped := d_popped d;
|}.

Definition set_kicker (pc : kicker_pc) (stop stopped : bool) (d : dispatcher) : dispatcher := {|
  d_jobqueue := d_jobqueue d; d_jobBuffer := d_jobBuffer d; d_sem := d_sem d; d_wg := d_wg d;
  d_cancelled := d_cancelled d; d_loop := d_loop d; d_workers := d_workers d; d_kicker := pc;
  k_stop := stop; k_stopped := stopped; d_stopper := d_stopper d; d_errors := d_errors d;
  d_crashed := d_crashed d; d_popped := d_popped d;
|}.

Definition set_stopper (pc : stopper_pc) (d : dispatcher) : dispatcher := {|
  d_jobqueue := d_jobqueue d; d_jobBuffer := d_jobBuffer d; d_sem := d_sem d; d_wg := d_wg d;
  d_cancelled := d_cancelled d; d_loop := d_loop d; d_workers := d_workers d; d_kicker := d_kicker d;
  k_stop := k_stop d; k_stopped := k_stopped d; d_stopper := pc; d_errors := d_errors d;
  d_crashed := d_crashed d; d_popped := d_popped d;
|}.

Definition set_queue (q : QS) (buf popped : list J) (errors : list string) (d : dispatcher) : dispatcher := {|
  d_jobqueue := q; d_jobBuffer := buf; d_sem := d_sem d; d_wg := d_wg d;
  d_cancelled := d_cancelled d; d_loop := d_loop d; d_workers := d_workers d; d_kicker := d_kicker d;
  k_stop := k_stop d; k_stopped := k_stopped d; d_stopper := d_stopper d; d_errors := errors;
  d_crashed := d_crashed d; d_popped := popped;
|}.

Definition cancel (d : dispatcher) : dispatcher := {|
  d_jobqueue := d_jobqueue d; d_jobBuffer := d_jobBuffer d; d_sem := d_sem d; d_wg := d_wg d;
  d_cancelled := true; d_loop := d_loop d; d_workers := d_workers d; d_kicker := d_kicker d;
  k_stop := k_stop d; k_stopped := k_stopped d; d_stopper := d_stopper d; d_errors := d_errors d;
  d_crashed := d_crashed d; d_popped := d_popped d;
|}.

Definition crash (d : dispatcher) : dispatcher := {|
  d_jobqueue := d_jobqueue d; d_jobBuffer := d_jobBuffer d; d_sem := d_sem d; d_wg := d_wg d;
  d_cancelled := d_cancelled d; d_loop := d_loop d; d_workers := d_workers d; d_kicker := d_kicker d;
  k_stop := k_stop d; k_stopped := k_stopped d; d_stopper := d_stopper d; d_errors := d_errors d;
  d_crashed := true; d_popped := d_popped d;
|}.

(** ** popJobs *)

(** [for _, job := range jobs { d.jobBuffer <- job }]: the buffer after it, and
    whether a send found the buffer full.  The loop is the only receiver, so a
    full buffer blocks it for ever. *)
Fixpoint send_all (c : dispatcher_config) (jobs buf : list J) : list J * bool :=
  match jobs with
  | [] => (buf, true)
  | job :: jobs' =>
      if Z.of_nat (length buf) <? c_bufferSize c then send_all c jobs' (buf ++ [job]) else (buf, false)
  end.

(** Only errors other than the two of an inactive node are logged. *)
Definition pop_error_logged (err : QueueError) : bool :=
  match err with
  | InactiveError | ConnectionClosedError => false
  | _ => true
  end.

Definition popJobs (c : dispatcher_config) (e : Env) (d : dispatcher) : dispatcher :=
  let buf := d_jobBuffer d in
  if Z.of_nat (length buf) <? c_bufferSize c then
    let reqn := c_bufferSize c - Z.of_nat (length buf) in
    match dq_Pop e (d_jobqueue d) (u64 reqn) with
    | None => crash d
    | Some (q, Err err) =>
        let errors := if pop_error_logged err
          then ("Failed to pop jobs: " +:+ QueueError_Error err) :: d_errors d else d_errors d in
        set_queue q buf (d_popped d) errors d
    | Some (q, Ok jobs) =>
        let '(jobs, errors) :=
          if reqn <? Z.of_nat (length jobs)
          then (take (Z.to_nat reqn) jobs,
                "The number of popped jobs is larger than that of requested jobs" :: d_errors d)
          else (jobs, d_errors d) in
        let '(buf', sent) := send_all c jobs buf in
        let d' := set_queue q buf' (d_popped d ++ drop (length buf) buf') errors d in
        if sent then d' else set_loop LBlocked d'
    end
  else d.

(** ** Steps *)

Inductive label :=
| Tick                            (* the kicker selects the ticker *)
| Kick (e : Env)                    (* kicker and loop meet on [d.kick]; [popJobs] *)
| Recv                            (* the loop receives a job from the buffer *)
| Acquire                         (* the loop gets a slot and starts the job *)
| Limit (i : nat) (granted : bool) (* [d.limiter.Wait] returns *)
| Work (i : nat) (res : Result)   (* [d.worker.Work] returns *)
| Complete (i : nat) (e : Env)      (* [d.jobqueue.Complete] *)
| Release (i : nat)
| Done (i : nat)
| KickerStop                      (* the kicker selects [k.stop] *)
| KickerExit
| Stop                            (* a caller calls [Stop] *)
| StopSend | StopKicked
| StopLoop                        (* stopper and loop meet on [d.stop]; [cancel()] *)
| Waited                          (* [wg.Wait] returns *)
| Stopped                         (* loop and stopper meet on [d.stopped] *)
| Reported                        (* the caller of [Stop] receives *)
| Other (q : QS).                 (* others use the queue *)

Definition with_worker (i : nat) (d : dispatcher) (f : worker -> option dispatcher) : option dispatcher :=
  w ← d_workers d !! i; f w.

(** Worker [i] moves on. *)
Definition move_worker (i : nat) (w : worker) (pc : worker_pc) (sem wg : Z) (d : dispatcher) : dispatcher :=
  set_workers (<[i := {| w_job := w_job w; w_pc := pc |}]> (d_workers d)) sem wg d.

Definition step_loop (c : dispatcher_config) (l : label) (d : dispatcher) : option dispatcher :=
  match l, d_loop d with
  | Recv, LSelect =>
      match d_jobBuffer d with
      | [] => None
      | job :: buf =>
          Some (set_loop (LAcquire job)
            (set_workers (d_workers d) (d_sem d) (d_wg d + 1)
              (set_queue (d_jobqueue d) buf (d_popped d) (d_errors d) d)))
      end
  | Acquire, LAcquire job =>
      if d_sem d <? c_maxWorkers c then
        Some (set_loop LSelect
          (set_workers (d_workers d ++ [{| w_job := job; w_pc := WLimiter |}]) (d_sem d + 1) (d_wg d) d))
      else None
  | Waited, LWait => if d_wg d =? 0 then Some (set_loop LSendStopped d) else None
  | _, _ => None
  end.

Definition step_worker (c : dispatcher_config) (l : label) (d : dispatcher) : option dispatcher :=
  match l with
  | Limit i granted => with_worker i d (fun w =>
      match w_pc w with
      | WLimiter =>
          if granted then
            if limiter_closed c then None else Some (move_worker i w WWorking (d_sem d) (d_wg d) d)
          else if d_cancelled d || limiter_closed c
            then Some (move_worker i w (WReleasing false) (d_sem d) (d_wg d) d) else None
      | _ => None
      end)
  | Work i res => with_worker i d (fun w =>
      match w_pc w with
      | WWorking => Some (move_worker i w (WCompleting res) (d_sem d) (d_wg d) d)
      | _ => None
      end)
  | Complete i e => with_worker i d (fun w =>
      match w_pc w with
      | WCompleting res =>
          match dq_Complete e (d_jobqueue d) (w_job w) res with
          | None => Some (crash d)
          | Some q => Some (move_worker i w (WReleasing true) (d_sem d) (d_wg d)
              (set_queue q (d_jobBuffer d) (d_popped d) (d_errors d) d))
          end
      | _ => None
      end)
  | Release i => with_worker i d (fun w =>
      match w_pc w with
      | WReleasing done =>
          if 0 <? d_sem d then Some (move_worker i w (WFinishing done) (d_sem d - 1) (d_wg d) d) else None
      | _ => None
      end)
  | Done i => with_worker i d (fun w =>
      match w_pc w with
      | WFinishing done => Some (move_worker i w (WExited done) (d_sem d) (d_wg d - 1) d)
      | _ => None
      end)
  | _ => None
  end.

Definition step_kicker (l : label) (d : dispatcher) : option dispatcher :=
  match l, d_kicker d with
  | Tick, KSelect => Some (set_kicker KKick (k_stop d) (k_stopped d) d)
  | KickerStop, KSelect => if k_stop d then Some (set_kicker KSendStopped false (k_stopped d) d) else None
  | KickerExit, KSendStopped => if k_stopped d then None else Some (set_kicker KExited (k_stop d) true d)
  | _, _ => None
  end.

Definition step_stopper (l : label) (d : dispatcher) : option dispatcher :=
  match l, d_stopper d with
  | Stop, SIdle => Some (set_stopper SStart d)
  | StopSend, SStart =>
      if k_stop d then None
      else Some (set_stopper SWaitKicker (set_kicker (d_kicker d) true (k_stopped d) d))
  | StopKicked, SWaitKicker =>
      if k_stopped d then Some (set_stopper SSendStop (set_kicker (d_kicker d) (k_stop d) false d)) else None
  | Reported, SReport => Some (set_stopper SDone d)
  | _, _ => None
  end.

(** Two goroutines meet on an unbuffered channel. *)
Definition step_meet (c : dispatcher_config) (l : label) (d : dispatcher) : option dispatcher :=
  match l, d_kicker d, d_loop d, d_stopper d with
  | Kick e, KKick, LSelect, _ => Some (popJobs c e (set_kicker KSelect (k_stop d) (k_stopped d) d))
  | StopLoop, _, LSelect, SSendStop => Some (set_stopper SWaitStopped (set_loop LWait (cancel d)))
  | Stopped, _, LSendStopped, SWaitStopped => Some (set_stopper SReport (set_loop LExited d))
  | _, _, _, _ => None
  end.

Definition dstep (c : dispatcher_config) (l : label) (d : dispatcher) : option dispatcher :=
  if d_crashed d then None
  else match l with
  | Recv | Acquire | Waited => step_loop c l d
  | Limit _ _ | Work _ _ | Complete _ _ | Release _ | Done _ => step_worker c l d
  | Tick | KickerStop | KickerExit => step_kicker l d
  | Stop | StopSend | StopKicked | Reported => step_stopper l d
  | Kick _ | StopLoop | Stopped => step_meet c l d
  | Other q => Some (set_queue q (d_jobBuffer d) (d_popped d) (d_errors d) d)
  end.

Fixpoint run (c : dispatcher_config) (ls : list label) (d : dispatcher) : option dispatcher :=
  match ls with
  | [] => Some d
  | l :: ls' => d' ← dstep c l d; run c ls' d'
  end.

Inductive reachable (c : dispatcher_config) : dispatcher -> Prop :=
| reach_start q : reachable c (d_start q)
| reach_step d l d' : reachable c d -> dstep c l d = Some d' -> reachable c d'.

(** ** Observers *)

Record dispatcher_Stats := { OutstandingJobs : Z; TotalWorkers : Z; IdleWorkers : Z }.

Definition Dispatcher_Stats (c : dispatcher_config) (d : dispatcher) : dispatcher_Stats := {|
  OutstandingJobs := Z.of_nat (length (d_jobBuffer d));
  TotalWorkers := c_maxWorkers c;
  IdleWorkers := c_maxWorkers c - d_sem d;
|}.

Definition Dispatcher_MaxWorkers (c : dispatcher_config) : Z := c_maxWorkers c.
Definition Dispatcher_PollingInterval (c : dispatcher_config) : Z := c_interval c.
Definition Dispatcher_MaxBurstSize (c : dispatcher_config) : Z := c_burst c.

#[export] Instance stopper_pc_eq_dec : EqDecision stopper_pc.
Proof. solve_decision. Defined.

(** ** Sums over the goroutines of jobs *)

Definition total (f : worker -> Z) (ws : list worker) : Z := foldr (fun w n => f w + n) 0 ws.

Lemma total_app f ws ws' : total f (ws ++ ws') = total f ws + total f ws'.
Proof. induction ws as [|w ws IH]; simpl; [done|]. lia. Qed.

Lemma total_snoc f ws w : total f (ws ++ [w]) = total f ws + f w.
Proof. rewrite total_app. simpl. lia. Qed.

Lemma total_insert f ws i w w' :
  ws !! i = Some w -> total f (<[i := w']> ws) = total f ws - f w + f w'.
Proof.
  revert i. induction ws as [|v ws IH]; intros [|i] Hi; simpl in *; try done.
  - injection Hi as ->. lia.
  - rewrite (IH i Hi). lia.
Qed.

Lemma total_nonneg f ws : (forall w, 0 <= f w) -> 0 <= total f ws.
Proof. intros Hf. induction ws as [|w ws IH]; simpl; [lia|]. specialize (Hf w). lia. Qed.

Lemma total_pos f ws : 0 < total f ws -> exists i w, ws !! i = Some w /\ 0 < f w.
Proof.
  induction ws as [|w ws IH]; simpl; [lia|]. intros Ht.
  destruct (Z.lt_ge_cases 0 (f w)); [by exists 0%nat, w|].
  destruct IH as (i & w' & ? & ?); [lia|]. by exists (S i), w'.
Qed.

Lemma total_zero f ws w : (forall w, 0 <= f w) -> total f ws = 0 -> w ∈ ws -> f w = 0.
Proof.
  intros Hf. induction ws as [|v ws IH]; simpl; [set_solver|]. intros Ht Hw.
  pose proof (Hf v). pose proof (total_nonneg f ws Hf).
  apply elem_of_cons in Hw as [->|Hw]; [lia|]. apply IH; [lia|done].
Qed.

(** A goroutine holds a slot of the semaphore until it releases it, and is
    counted by the wait group until it is done. *)
Definition holds_slot (w : worker) : Z :=
  match w_pc w with
  | WLimiter | WWorking | WCompleting _ | WReleasing _ => 1
  | WFinishing _ | WExited _ => 0
  end.

Definition counted (w : worker) : Z :=
  match w_pc w with WExited _ => 0 | _ => 1 end.

(** How the goroutine of a job ended, if it is past its job. *)
Definition outcome (w : worker) : option bool :=
  match w_pc w with
  | WReleasing b | WFinishing b | WExited b => Some b
  | _ => None
  end.

Definition loop_held (pc : loop_pc) : list J :=
  match pc with LAcquire job => [job] | _ => [] end.

(** ** Invariant *)

(** Which positions of the loop, the kicker and the stopper go together. *)
Definition phase_ok (d : dispatcher) : Prop :=
  match d_stopper d with
  | SIdle | SStart =>
      k_stop d = false /\ k_stopped d = false /\ d_cancelled d = false /\
      (d_kicker d = KSelect \/ d_kicker d = KKick) /\
      (d_loop d = LSelect \/ exists job, d_loop d = LAcquire job)
  | SWaitKicker =>
      d_cancelled d = false /\
      (d_loop d = LSelect \/ exists job, d_loop d = LAcquire job) /\
      (k_stop d = true /\ k_stopped d = false /\ (d_kicker d = KSelect \/ d_kicker d = KKick) \/
       k_stop d = false /\ k_stopped d = false /\ d_kicker d = KSendStopped \/
       k_stop d = false /\ k_stopped d = true /\ d_kicker d = KExited)
  | SSendStop =>
      d_cancelled d = false /\ d_kicker d = KExited /\
      (d_loop d = LSelect \/ exists job, d_loop d = LAcquire job)
  | SWaitStopped =>
      d_cancelled d = true /\ d_kicker d = KExited /\ (d_loop d = LWait \/ d_loop d = LSendStopped)
  | SReport | SDone => d_cancelled d = true /\ d_kicker d = KExited /\ d_loop d = LExited
  end.

Record dispatcher_inv (c : dispatcher_config) (d : dispatcher) : Prop := {
  di_buffer : Z.of_nat (length (d_jobBuffer d)) <= c_bufferSize c;
  di_fifo : d_popped d = (w_job <$> d_workers d) ++ loop_held (d_loop d) ++ d_jobBuffer d;
  di_sem : d_sem d = total holds_slot (d_workers d);
  di_max : d_sem d <= c_maxWorkers c;
  di_wg : d_wg d = total counted (d_workers d) + Z.of_nat (length (loop_held (d_loop d)));
  di_dropped : forall w, w ∈ d_workers d -> outcome w = Some false ->
    d_cancelled d = true \/ limiter_closed c = true;
  di_waited : d_loop d = LSendStopped \/ d_loop d = LExited -> d_wg d = 0;
  di_phase : phase_ok d;
}.

Lemma send_all_spec c jobs buf :
  Z.of_nat (length buf) + Z.of_nat (length jobs) <= c_bufferSize c ->
  send_all c jobs buf = (buf ++ jobs, true).
Proof.
  revert buf. induction jobs as [|job jobs IH]; intros buf Hl; simpl in *; [by rewrite app_nil_r|].
  destruct (Z.ltb_spec (Z.of_nat (length buf)) (c_bufferSize c)); [|lia].
  rewrite IH; [by rewrite <- app_assoc|]. rewrite length_app. simpl. lia.
Qed.

(** [popJobs] never blocks; it changes the queue, the error log and, by
    appending jobs that fit, the buffer. *)
Lemma popJobs_cases c e d :
  popJobs c e d = crash d \/
  exists q errors jobs,
    popJobs c e d = set_queue q (d_jobBuffer d ++ jobs) (d_popped d ++ jobs) errors d /\
    Z.of_nat (length (d_jobBuffer d) + length jobs) <= Z.max (Z.of_nat (length (d_jobBuffer d))) (c_bufferSize c).
Proof.
  unfold popJobs. destruct (Z.ltb_spec (Z.of_nat (length (d_jobBuffer d))) (c_bufferSize c)) as [Hl|Hl].
  2:{ right. exists (d_jobqueue d), (d_errors d), []. rewrite !app_nil_r. destruct d. split; [done|simpl; lia]. }
  destruct (dq_Pop _ _ _) as [[q [jobs|err]]|]; [|right|by left].
  - right. set (reqn := c_bufferSize c - Z.of_nat (length (d_jobBuffer d))).
    assert (exists errors jobs', (if reqn <? Z.of_nat (length jobs)
          then (take (Z.to_nat reqn) jobs,
                "The number of popped jobs is larger than that of requested jobs" :: d_errors d)
          else (jobs, d_errors d)) = (jobs', errors) /\ Z.of_nat (length jobs') <= reqn)
      as (errors & jobs' & -> & Hlen).
    { destruct (Z.ltb_spec reqn (Z.of_nat (length jobs))).
      - eexists _, _. split; [done|]. rewrite length_take. lia.
      - eexists _, _. split; [done|]. lia. }
    rewrite send_all_spec by lia. rewrite drop_app_length.
    exists q, errors, jobs'. split; [done|]. lia.
  - exists q, (if pop_error_logged err then ("Failed to pop jobs: " +:+ QueueError_Error err) :: d_errors d
      else d_errors d), []. rewrite !app_nil_r. split; [done|]. simpl. lia.
Qed.

Lemma holds_slot_nonneg w : 0 <= holds_slot w.
Proof. unfold holds_slot. destruct (w_pc w); lia. Qed.

Lemma counted_nonneg w : 0 <= counted w.
Proof. unfold counted. destruct (w_pc w); lia. Qed.

Lemma moved_jobs (ws : list worker) (i : nat) w pc :
  ws !! i = Some w -> w_job <$> <[i := {| w_job := w_job w; w_pc := pc |}]> ws = w_job <$> ws.
Proof.
  intros Hi. rewrite list_fmap_insert. apply list_insert_id. by rewrite list_lookup_fmap, Hi.
Qed.

Lemma move_worker_inv c d i w pc sem wg :
  dispatcher_inv c d -> d_workers d !! i = Some w -> counted w = 1 ->
  let w' := {| w_job := w_job w; w_pc := pc |} in
  sem = d_sem d - holds_slot w + holds_slot w' -> sem <= c_maxWorkers c ->
  wg = d_wg d - 1 + counted w' ->
  (outcome w' = Some false -> outcome w = Some false \/ d_cancelled d = true \/ limiter_closed c = true) ->
  dispatcher_inv c (move_worker i w pc sem wg d).
Proof.
  intros [Hb Hf Hs Hm Hw Hd Hz Hp] Hi Hc w' Es Hsm Ew Ho. split; simpl; try done.
  - by rewrite moved_jobs.
  - rewrite (total_insert _ _ _ w) by done. fold w'. lia.
  - rewrite (total_insert _ _ _ w) by done. fold w'. lia.
  - intros v (k & Hk)%list_elem_of_lookup_1 Hv.
    destruct (decide (i = k)) as [<-|Hne].
    + rewrite list_lookup_insert_eq in Hk by (by eapply lookup_lt_Some). injection Hk as <-.
      destruct (Ho Hv) as [Hw'|?]; [|done]. apply (Hd w); [|done]. by eapply list_elem_of_lookup_2.
    + rewrite list_lookup_insert_ne in Hk by done. apply (Hd v); [|done]. by eapply list_elem_of_lookup_2.
  - intros Hl. exfalso. specialize (Hz Hl). rewrite Hw in Hz.
    assert (counted w = 0); [|lia]. apply (total_zero counted (d_workers d)).
    + apply counted_nonneg.
    + pose proof (total_nonneg counted (d_workers d) counted_nonneg). lia.
    + by eapply list_elem_of_lookup_2.
Qed.

Lemma step_worker_inv c l d d' :
  dispatcher_inv c d -> step_worker c l d = Some d' -> dispatcher_inv c d'.
Proof.
  intros Hi E. pose proof (di_max _ _ Hi) as Hm.
  destruct l as [| | | |i g|i res|i e|i|i| | | | | | | | | |]; try discriminate E; simpl in E;
    unfold with_worker in E; destruct (d_workers d !! i) as [w|] eqn:Ew; try discriminate E; simpl in E;
    destruct (w_pc w) as [| |res'|b|b|b] eqn:Epc; try discriminate E.
  - destruct g.
    + destruct (limiter_closed c); [done|]. injection E as <-.
      apply move_worker_inv; try done; unfold holds_slot, counted, outcome; rewrite ?Epc; simpl; try done; lia.
    + destruct (d_cancelled d || limiter_closed c) eqn:Eg; [|done]. injection E as <-.
      apply move_worker_inv; try done; unfold holds_slot, counted, outcome; rewrite ?Epc; simpl; try lia.
      intros _. right. by apply orb_true_iff.
  - injection E as <-.
    apply move_worker_inv; try done; unfold holds_slot, counted, outcome; rewrite ?Epc; simpl; try done; lia.
  - destruct (dq_Complete _ _ _ _) as [q|]; injection E as <-.
    + assert (dispatcher_inv c (set_queue q (d_jobBuffer d) (d_popped d) (d_errors d) d)) as Hi'
        by (by destruct Hi; split).
      change (d_sem d) with (d_sem (set_queue q (d_jobBuffer d) (d_popped d) (d_errors d) d)).
      apply move_worker_inv; try done; unfold holds_slot, counted, outcome; rewrite ?Epc; simpl; try done; lia.
    + by destruct Hi; split.
  - destruct (0 <? d_sem d); [|done]. injection E as <-.
    apply move_worker_inv; try done; unfold holds_slot, counted, outcome; rewrite ?Epc; simpl; try lia.
    destruct b; [done|by left].
  - injection E as <-.
    apply move_worker_inv; try done; unfold holds_slot, counted, outcome; rewrite ?Epc; simpl; try lia.
    destruct b; [done|by left].
Qed.

Lemma step_loop_inv c l d d' :
  dispatcher_inv c d -> step_loop c l d = Some d' -> dispatcher_inv c d'.
Proof.
  intros [Hb Hf Hs Hm Hw Hd Hz Hp] E. unfold step_loop in E.
  destruct l, (d_loop d) as [|job| | | |] eqn:El; try discriminate E.
  - destruct (d_jobBuffer d) as [|job buf] eqn:Eb; [done|]. injection E as <-.
    split; simpl in *; try done.
    + lia.
    + lia.
    + intros [?|?]; done.
    + unfold phase_ok in *. simpl in *. rewrite El in Hp. destruct (d_stopper d); naive_solver.
  - destruct (Z.ltb_spec (d_sem d) (c_maxWorkers c)) as [Hlt|]; [|done]. injection E as <-.
    split; simpl in *; try done.
    + rewrite Hf, fmap_app, <- app_assoc. done.
    + rewrite total_snoc. cbn [holds_slot counted w_pc]. lia.
    + lia.
    + rewrite total_snoc. cbn [holds_slot counted w_pc]. lia.
    + intros w [Hin| ->%list_elem_of_singleton]%elem_of_app Ho; [by apply (Hd w)|done].
    + intros [?|?]; done.
    + unfold phase_ok in *. simpl in *. rewrite El in Hp. destruct (d_stopper d); naive_solver.
  - destruct (Z.eqb_spec (d_wg d) 0); [|done]. injection E as <-. split; simpl in *; try done.
    unfold phase_ok in *. simpl in *. rewrite El in Hp. destruct (d_stopper d); naive_solver.
Qed.

Lemma step_kicker_inv c l d d' :
  dispatcher_inv c d -> step_kicker l d = Some d' -> dispatcher_inv c d'.
Proof.
  intros [Hb Hf Hs Hm Hw Hd Hz Hp] E. unfold step_kicker in E.
  destruct l; try discriminate E; destruct (d_kicker d) eqn:Ek; try discriminate E.
  - injection E as <-. split; simpl; try done. unfold phase_ok in *. simpl. rewrite Ek in Hp.
    destruct (d_stopper d); naive_solver.
  - destruct (k_stop d) eqn:Es; [|done]. injection E as <-. split; simpl; try done.
    unfold phase_ok in *. simpl. rewrite Ek, Es in Hp. destruct (d_stopper d); naive_solver.
  - destruct (k_stopped d) eqn:Es; [done|]. injection E as <-. split; simpl; try done.
    unfold phase_ok in *. simpl. rewrite Ek, Es in Hp. destruct (d_stopper d); naive_solver.
Qed.

Lemma step_stopper_inv c l d d' :
  dispatcher_inv c d -> step_stopper l d = Some d' -> dispatcher_inv c d'.
Proof.
  intros [Hb Hf Hs Hm Hw Hd Hz Hp] E. unfold step_stopper in E.
  destruct l; try discriminate E; destruct (d_stopper d) eqn:Est; try discriminate E.
  - injection E as <-. split; simpl; try done. unfold phase_ok in *. simpl. by rewrite Est in Hp.
  - destruct (k_stop d) eqn:Es; [done|]. injection E as <-. split; simpl; try done.
    unfold phase_ok in *. simpl. rewrite Est in Hp. naive_solver.
  - destruct (k_stopped d) eqn:Es; [|done]. injection E as <-. split; simpl; try done.
    unfold phase_ok in *. simpl. rewrite Est, Es in Hp. naive_solver.
  - injection E as <-. split; simpl; try done. unfold phase_ok in *. simpl. by rewrite Est in Hp.
Qed.

Lemma set_queue_inv c d q jobs errors :
  dispatcher_inv c d -> d_loop d = LSelect ->
  Z.of_nat (length (d_jobBuffer d) + length jobs) <= c_bufferSize c ->
  dispatcher_inv c (set_queue q (d_jobBuffer d ++ jobs) (d_popped d ++ jobs) errors d).
Proof.
  intros [Hb Hf Hs Hm Hw Hd Hz Hp] El Hl. split; simpl; try done.
  - by rewrite length_app.
  - rewrite Hf, El. simpl. by rewrite <- app_assoc.
Qed.

Lemma step_meet_inv c l d d' :
  dispatcher_inv c d -> step_meet c l d = Some d' -> dispatcher_inv c d'.
Proof.
  intros Hi E. pose proof Hi as [Hb Hf Hs Hm Hw Hd Hz Hp]. unfold step_meet in E.
  destruct l; try discriminate E.
  - destruct (d_kicker d) eqn:Ek, (d_loop d) eqn:El; try discriminate E. injection E as <-.
    set (d1 := set_kicker KSelect (k_stop d) (k_stopped d) d).
    assert (dispatcher_inv c d1) as Hi1.
    { split; simpl; try done; rewrite ?El; try done. unfold phase_ok in *. simpl.
      rewrite Ek in Hp. destruct (d_stopper d); naive_solver. }
    destruct (popJobs_cases c e d1) as [->|(q & errors & jobs & -> & Hl)].
    + by destruct Hi1; split.
    + apply set_queue_inv; [done|done|]. pose proof (di_buffer _ _ Hi1). lia.
  - destruct (d_loop d) eqn:El; try (by destruct (d_kicker d), (d_stopper d)).
    destruct (d_stopper d) eqn:Est; try (by destruct (d_kicker d)).
    assert (d' = set_stopper SWaitStopped (set_loop LWait (cancel d))) as -> by (by destruct (d_kicker d); injection E).
    split; simpl in *; try done.
    + intros. by left.
    + intros [?|?]; done.
    + unfold phase_ok in *. simpl. rewrite Est in Hp. naive_solver.
  - destruct (d_loop d) eqn:El; try (by destruct (d_kicker d), (d_stopper d)).
    destruct (d_stopper d) eqn:Est; try (by destruct (d_kicker d)).
    assert (d' = set_stopper SReport (set_loop LExited d)) as -> by (by destruct (d_kicker d); injection E).
    split; simpl in *; try done.
    + intros _. apply Hz. by left.
    + unfold phase_ok in *. simpl. rewrite Est in Hp. naive_solver.
Qed.

Lemma dstep_inv c l d d' : dispatcher_inv c d -> dstep c l d = Some d' -> dispatcher_inv c d'.
Proof.
  unfold dstep. intros Hi. destruct (d_crashed d); [done|].
  destruct l; eauto using step_loop_inv, step_worker_inv, step_kicker_inv, step_stopper_inv, step_meet_inv.
  intros [= <-]. by destruct Hi; split.
Qed.

Lemma start_inv c q : 0 <= c_bufferSize c -> 0 <= c_maxWorkers c -> dispatcher_inv c (d_start q).
Proof.
  intros Hb Hm. split; simpl; try done; try lia; try set_solver.
  unfold phase_ok. simpl. naive_solver.
Qed.

Lemma reachable_inv c d :
  0 <= c_bufferSize c -> 0 <= c_maxWorkers c -> reachable c d -> dispatcher_inv c d.
Proof. intros Hb Hm. induction 1; eauto using start_inv, dstep_inv. Qed.

(** ** Progress *)

(** The steps of the dispatcher itself: not those of the ticker, of the callers
    of [Stop] and of the other users of the queue. *)
Definition own_step (l : label) : bool :=
  match l with Tick | Stop | Other _ => false | _ => true end.

(** A goroutine of a job that has not exited can always go on. *)
Lemma worker_progress c d (e : Env) i w :
  dispatcher_inv c d -> d_crashed d = false -> d_workers d !! i = Some w -> counted w = 1 ->
  exists l d', own_step l = true /\ dstep c l d = Some d'.
Proof.
  intros Hi Hcr Hw Hc. unfold counted in Hc.
  assert (forall l d', own_step l = true -> step_worker c l d = Some d' ->
    match l with Limit _ _ | Work _ _ | Complete _ _ | Release _ | Done _ => True | _ => False end ->
    exists l d', own_step l = true /\ dstep c l d = Some d') as Hstep.
  { intros l d' Ho Es Hl. exists l, d'. split; [done|]. unfold dstep. rewrite Hcr. by destruct l. }
  destruct (w_pc w) as [| |res|b|b|b] eqn:Epc; [..|done].
  - destruct (limiter_closed c) eqn:Ec.
    + eapply (Hstep (Limit i false)); [done| |done]. simpl. unfold with_worker.
      by rewrite Hw; simpl; rewrite Epc, Ec, orb_true_r.
    + eapply (Hstep (Limit i true)); [done| |done]. simpl. unfold with_worker.
      by rewrite Hw; simpl; rewrite Epc, Ec.
  - eapply (Hstep (Work i {| res_Status := EmptyString; res_Code := 0; res_Message := EmptyString |})); [done| |done].
    simpl. unfold with_worker. by rewrite Hw; simpl; rewrite Epc.
  - destruct (dq_Complete e (d_jobqueue d) (w_job w) res) eqn:Ec;
      (eapply (Hstep (Complete i e)); [done| |done]); simpl; unfold with_worker;
      by rewrite Hw; simpl; rewrite Epc, Ec.
  - assert (0 < d_sem d).
    { rewrite (di_sem _ _ Hi). destruct (Z.lt_ge_cases 0 (total holds_slot (d_workers d))); [done|].
      pose proof (total_nonneg holds_slot (d_workers d) holds_slot_nonneg).
      pose proof (total_zero holds_slot (d_workers d) w holds_slot_nonneg ltac:(lia)
        ltac:(by eapply list_elem_of_lookup_2)) as Hz. unfold holds_slot in Hz. by rewrite Epc in Hz. }
    eapply (Hstep (Release i)); [done| |done]. simpl. unfold with_worker. rewrite Hw. simpl. rewrite Epc.
    destruct (Z.ltb_spec 0 (d_sem d)); [done|lia].
  - eapply (Hstep (Done i)); [done| |done]. simpl. unfold with_worker. by rewrite Hw; simpl; rewrite Epc.
Qed.

(** A loop that waits for a slot gets one as soon as a job ends. *)
Lemma acquire_progress c d (e : Env) job :
  dispatcher_inv c d -> 1 <= c_maxWorkers c -> d_crashed d = false -> d_loop d = LAcquire job ->
  exists l d', own_step l = true /\ dstep c l d = Some d'.
Proof.
  intros Hi Hm Hcr El. destruct (Z.lt_ge_cases (d_sem d) (c_maxWorkers c)) as [Hlt|Hge].
  - eexists Acquire, _. split; [done|]. unfold dstep. rewrite Hcr. simpl. rewrite El.
    destruct (Z.ltb_spec (d_sem d) (c_maxWorkers c)); [done|lia].
  - destruct (total_pos holds_slot (d_workers d)) as (i & w & Hw & Hh).
    { rewrite <- (di_sem _ _ Hi). lia. }
    apply (worker_progress c d e i w); [done..|]. unfold holds_slot, counted in *. by destruct (w_pc w).
Qed.

Lemma meet_own c l d d' :
  d_crashed d = false -> step_meet c l d = Some d' -> exists l d', own_step l = true /\ dstep c l d = Some d'.
Proof.
  intros Hcr Es. exists l, d'. unfold dstep. rewrite Hcr.
  destruct l; try done; unfold step_meet in Es; by destruct (d_kicker d), (d_loop d), (d_stopper d).
Qed.

Lemma loop_progress c d (e : Env) d1 :
  dispatcher_inv c d -> 1 <= c_maxWorkers c -> d_crashed d = false ->
  d_loop d = LSelect \/ (exists job, d_loop d = LAcquire job) ->
  (d_loop d = LSelect -> exists l, step_meet c l d = Some d1) ->
  exists l d', own_step l = true /\ dstep c l d = Some d'.
Proof.
  intros Hi Hm Hcr [El|[job El]] Hmeet; [|by eapply acquire_progress].
  destruct (Hmeet El) as [l Hl]. by eapply meet_own.
Qed.

(** Once [Stop] is called some goroutine can go on until it has reported. *)
Lemma stop_progress c d (e : Env) :
  dispatcher_inv c d -> 1 <= c_maxWorkers c -> d_crashed d = false ->
  d_stopper d <> SIdle -> d_stopper d <> SDone ->
  exists l d', own_step l = true /\ dstep c l d = Some d'.
Proof.
  intros Hi Hm Hcr Hs0 Hs1. pose proof (di_phase _ _ Hi) as Hp. unfold phase_ok in Hp.
  destruct (d_stopper d) eqn:Est; try done.
  - destruct Hp as (Hk & _). eexists StopSend, _. split; [done|]. unfold dstep. rewrite Hcr. simpl.
    by rewrite Est, Hk.
  - destruct Hp as (_ & Hl & [(Hks & _ & [Ek|Ek])|[(_ & Hkd & Ek)|(_ & Hkd & Ek)]]).
    + eexists KickerStop, _. split; [done|]. unfold dstep. rewrite Hcr. simpl. by rewrite Ek, Hks.
    + eapply (loop_progress c d e); [done..|]. intros El. exists (Kick e). unfold step_meet. by rewrite Ek, El.
    + eexists KickerExit, _. split; [done|]. unfold dstep. rewrite Hcr. simpl. by rewrite Ek, Hkd.
    + eexists StopKicked, _. split; [done|]. unfold dstep. rewrite Hcr. simpl. by rewrite Est, Hkd.
  - destruct Hp as (_ & Ek & Hl).
    eapply (loop_progress c d e); [done..|]. intros El. exists StopLoop. unfold step_meet. by rewrite El, Est.
  - destruct Hp as (_ & Ek & [El|El]).
    + destruct (Z.eq_dec (d_wg d) 0) as [Ew|Ew].
      * eexists Waited, _. split; [done|]. unfold dstep. rewrite Hcr. simpl. by rewrite El, Ew.
      * destruct (total_pos counted (d_workers d)) as (i & w & Hw & Hc).
        { pose proof (di_wg _ _ Hi) as Hwg. rewrite El in Hwg. simpl in Hwg.
          pose proof (total_nonneg counted (d_workers d) counted_nonneg). lia. }
        apply (worker_progress c d e i w); [done..|]. unfold counted in *. by destruct (w_pc w).
    + eapply meet_own with (l := Stopped); [done|]. unfold step_meet. by rewrite El, Est.
  - eexists Reported, _. split; [done|]. unfold dstep. rewrite Hcr. simpl. by rewrite Est.
Qed.

(** ** Termination of a shutdown *)

Definition worker_rank (w : worker) : Z :=
  match w_pc w with
  | WLimiter => 5 | WWorking => 4 | WCompleting _ => 3 | WReleasing _ => 2 | WFinishing _ => 1 | WExited _ => 0
  end.

Definition loop_rank (pc : loop_pc) : Z :=
  match pc with LSelect => 3 | LAcquire _ => 9 | LBlocked => 3 | LWait => 2 | LSendStopped => 1 | LExited => 0 end.

Definition stopper_rank (pc : stopper_pc) : Z :=
  match pc with
  | SIdle => 6 | SStart => 5 | SWaitKicker => 4 | SSendStop => 3 | SWaitStopped => 2 | SReport => 1 | SDone => 0
  end.

(** How many steps are left once the kicker has exited. *)
Definition steps_left (d : dispatcher) : Z :=
  if d_crashed d then 0
  else 1 + total worker_rank (d_workers d) + 7 * Z.of_nat (length (d_jobBuffer d))
       + loop_rank (d_loop d) + stopper_rank (d_stopper d).

Lemma worker_rank_nonneg w : 0 <= worker_rank w.
Proof. unfold worker_rank. destruct (w_pc w); lia. Qed.

Lemma steps_left_nonneg d : 0 <= steps_left d.
Proof.
  unfold steps_left. pose proof (total_nonneg worker_rank (d_workers d) worker_rank_nonneg).
  destruct (d_crashed d), (d_loop d), (d_stopper d); simpl; lia.
Qed.

Lemma move_worker_left d i w pc sem wg :
  d_crashed d = false -> d_workers d !! i = Some w ->
  worker_rank {| w_job := w_job w; w_pc := pc |} < worker_rank w ->
  steps_left (move_worker i w pc sem wg d) < steps_left d.
Proof.
  intros Hcr Hw Hr. unfold steps_left. simpl. rewrite Hcr, (total_insert _ _ _ w) by done. lia.
Qed.

Lemma dstep_left c l d d' :
  d_kicker d = KExited -> own_step l = true -> dstep c l d = Some d' ->
  d_kicker d' = KExited /\ steps_left d' < steps_left d.
Proof.
  intros Ek Ho E. unfold dstep in E. destruct (d_crashed d) eqn:Hcr; [done|].
  assert (0 < steps_left d) as Hpos.
  { unfold steps_left. pose proof (total_nonneg worker_rank (d_workers d) worker_rank_nonneg).
    rewrite Hcr. destruct (d_loop d), (d_stopper d); simpl; lia. }
  destruct l as [|e| | |i g|i res|i e|i|i| | | | | | | | | |]; try discriminate Ho; simpl in E;
    try (rewrite Ek in E; done);
    try (unfold with_worker in E; destruct (d_workers d !! i) as [w|] eqn:Ew; [|done]; simpl in E;
         destruct (w_pc w) eqn:Epc; try discriminate E).
  - destruct (d_loop d) eqn:El; try done. destruct (d_jobBuffer d) as [|job buf] eqn:Eb; [done|].
    injection E as <-. split; [done|]. unfold steps_left. simpl. rewrite Hcr, El, Eb. simpl length.
    simpl loop_rank. lia.
  - destruct (d_loop d) eqn:El; try done. destruct (_ <? _); [|done]. injection E as <-. split; [done|].
    unfold steps_left. simpl. rewrite Hcr, El, total_snoc.
    change (worker_rank {| w_job := job; w_pc := WLimiter |}) with 5. simpl loop_rank. lia.
  - destruct g, (limiter_closed c), (d_cancelled d); try discriminate E; injection E as <-; (split; [done|]);
      apply move_worker_left; try done; unfold worker_rank; by rewrite Epc.
  - injection E as <-. split; [done|]. apply move_worker_left; try done. unfold worker_rank. by rewrite Epc.
  - destruct (dq_Complete _ _ _ _) as [q|]; injection E as <-; (split; [done|]).
    + change (steps_left d) with (steps_left (set_queue q (d_jobBuffer d) (d_popped d) (d_errors d) d)).
      apply move_worker_left; try done. unfold worker_rank. by rewrite Epc.
    + unfold steps_left at 1. simpl. done.
  - destruct (0 <? d_sem d); [|done]. injection E as <-. split; [done|].
    apply move_worker_left; try done. unfold worker_rank. by rewrite Epc.
  - injection E as <-. split; [done|]. apply move_worker_left; try done. unfold worker_rank. by rewrite Epc.
  - destruct (d_stopper d) eqn:Est; try done. destruct (k_stop d); [done|]. injection E as <-. split; [done|].
    unfold steps_left. simpl. rewrite Hcr, Est. simpl. lia.
  - destruct (d_stopper d) eqn:Est; try done. destruct (k_stopped d); [|done]. injection E as <-. split; [done|].
    unfold steps_left. simpl. rewrite Hcr, Est. simpl. lia.
  - destruct (d_loop d) eqn:El; try done. destruct (d_stopper d) eqn:Est; try done. injection E as <-. split; [done|].
    unfold steps_left. simpl. rewrite Hcr, El, Est. simpl. lia.
  - destruct (d_loop d) eqn:El; try done. destruct (_ =? _); [|done]. injection E as <-. split; [done|].
    unfold steps_left. simpl. rewrite Hcr, El. simpl. lia.
  - destruct (d_loop d) eqn:El; try done. destruct (d_stopper d) eqn:Est; try done. injection E as <-. split; [done|].
    unfold steps_left. simpl. rewrite Hcr, El, Est. simpl. lia.
  - destruct (d_stopper d) eqn:Est; try done. injection E as <-. split; [done|].
    unfold steps_left. simpl. rewrite Hcr, Est. simpl. lia.
Qed.

Lemma run_left c ls d d' :
  d_kicker d = KExited -> Forall (fun l => own_step l = true) ls -> run c ls d = Some d' ->
  d_kicker d' = KExited /\ Z.of_nat (length ls) + steps_left d' <= steps_left d.
Proof.
  intros Ek Hown. revert d Ek. induction Hown as [|l ls Hl Hown IH]; intros d Ek E; simpl in *.
  - injection E as <-. split; [done|lia].
  - destruct (dstep c l d) as [d1|] eqn:Es; [|done]. simpl in E.
    destruct (dstep_left c l d d1 Ek Hl Es) as [Ek1 Hlt]. destruct (IH d1 Ek1 E) as [Ek' Hle]. split; [done|lia].
Qed.

Lemma run_reachable c ls d d' : reachable c d -> run c ls d = Some d' -> reachable c d'.
Proof.
  revert d. induction ls as [|l ls IH]; intros d Hr E; simpl in *; [by injection E as <-|].
  destruct (dstep c l d) as [d1|] eqn:Es; [|done]. apply (IH d1); [|done]. by eapply reach_step.
Qed.

(** ** Theorems *)

Definition is_working (w : worker) : bool := match w_pc w with WWorking => true | _ => false end.

Lemma working_le_held ws :
  Z.of_nat (length (filter (fun w => is_working w = true) ws)) <= total holds_slot ws.
Proof.
  induction ws as [|w ws IH]; simpl; [lia|]. rewrite filter_cons.
  pose proof (holds_slot_nonneg w). case_decide as Hw; simpl length; [|lia].
  unfold is_working in Hw. unfold holds_slot at 1. destruct (w_pc w); try done. lia.
Qed.

(** C16 (bounds): in every reachable state the buffer holds at most its capacity,
    at most [MaxWorkers] jobs are processed at the same time, the idle workers
    reported are never negative, and the loop never blocks on its own buffer. *)
Theorem dispatcher_bounds c d :
  0 <= c_bufferSize c -> 0 <= c_maxWorkers c -> reachable c d ->
  Z.of_nat (length (d_jobBuffer d)) <= c_bufferSize c /\
  Z.of_nat (length (filter (fun w => is_working w = true) (d_workers d))) <= c_maxWorkers c /\
  0 <= IdleWorkers (Dispatcher_Stats c d) <= TotalWorkers (Dispatcher_Stats c d) /\
  d_loop d <> LBlocked.
Proof.
  intros Hb Hm Hr. destruct (reachable_inv c d Hb Hm Hr) as [Hbuf Hf Hs Hmax Hw Hd Hz Hp].
  pose proof (working_le_held (d_workers d)).
  pose proof (total_nonneg holds_slot (d_workers d) holds_slot_nonneg). split_and!; simpl; try lia.
  intros El. unfold phase_ok in Hp. rewrite El in Hp. destruct (d_stopper d); naive_solver.
Qed.

(** C15 (safety): jobs are dispatched in the order they were popped and each to
    exactly one goroutine; a popped job is in a goroutine, in the hands of the
    loop or in the buffer.  A goroutine that ended without completing its job
    did so because the dispatcher was cancelled by a shutdown, or because its rate
    limiter admits nothing: a finite rate with a burst below 1 ([limiter_closed]). *)
Theorem dispatcher_fifo c d :
  0 <= c_bufferSize c -> 0 <= c_maxWorkers c -> reachable c d ->
  d_popped d = (w_job <$> d_workers d) ++ loop_held (d_loop d) ++ d_jobBuffer d /\
  forall w, w ∈ d_workers d -> outcome w = Some false -> d_cancelled d = true \/ limiter_closed c = true.
Proof. intros Hb Hm Hr. by destruct (reachable_inv c d Hb Hm Hr). Qed.

(** C17 (liveness): a dispatcher that is being stopped never deadlocks: as long as
    [Stop] has not reported, and no goroutine has panicked, one of its goroutines
    can take a step. *)
Theorem dispatcher_stop_progress c d (e : Env) :
  0 <= c_bufferSize c -> 1 <= c_maxWorkers c -> reachable c d -> d_crashed d = false ->
  d_stopper d <> SIdle -> d_stopper d <> SDone ->
  exists l d', own_step l = true /\ dstep c l d = Some d'.
Proof.
  intros Hb Hm Hr Hcr Hs0 Hs1. apply (stop_progress c d e); try done. apply reachable_inv; [lia..|done].
Qed.

(** C18 (termination): once the kicker has exited, a dispatcher that is being
    stopped takes at most [steps_left] more steps, whatever order its goroutines
    run in; when none can take a step, [Stop] has reported (or a goroutine has
    panicked). *)
Theorem dispatcher_stop_terminates c d (e : Env) ls d' :
  0 <= c_bufferSize c -> 1 <= c_maxWorkers c -> reachable c d ->
  d_kicker d = KExited -> Forall (fun l => own_step l = true) ls -> run c ls d = Some d' ->
  Z.of_nat (length ls) <= steps_left d /\
  ((forall l, own_step l = true -> dstep c l d' = None) -> d_stopper d' = SDone \/ d_crashed d' = true).
Proof.
  intros Hb Hm Hr Ek Hown E. destruct (run_left c ls d d' Ek Hown E) as [Ek' Hle].
  pose proof (steps_left_nonneg d'). split; [lia|]. intros Hstuck.
  assert (reachable c d') as Hr' by by eapply run_reachable.
  assert (dispatcher_inv c d') as Hi' by (apply reachable_inv; [lia..|done]).
  destruct (d_crashed d') eqn:Hcr; [by right|]. left.
  destruct (decide (d_stopper d' = SDone)) as [|Hnd]; [done|]. exfalso.
  assert (d_stopper d' <> SIdle) as Hni.
  { intros Est. pose proof (di_phase _ _ Hi') as Hp. unfold phase_ok in Hp. rewrite Est, Ek' in Hp. naive_solver. }
  destruct (stop_progress c d' e Hi' Hm Hcr Hni Hnd) as (l & d'' & Hl & Es).
  by rewrite (Hstuck l Hl) in Es.
Qed.

(** C28 (safety): when [Stop] reports, the loop and every goroutine of a job have
    exited and every slot is free: what was not completed is in the buffer or
    was given up because of the cancellation. *)
Theorem dispatcher_stopped_quiescent c d :
  0 <= c_bufferSize c -> 0 <= c_maxWorkers c -> reachable c d -> d_stopper d = SDone ->
  d_loop d = LExited /\ d_kicker d = KExited /\ d_sem d = 0 /\
  (forall w, w ∈ d_workers d -> exists completed, w_pc w = WExited completed) /\
  d_popped d = (w_job <$> d_workers d) ++ d_jobBuffer d.
Proof.
  intros Hb Hm Hr Est. destruct (reachable_inv c d Hb Hm Hr) as [Hbuf Hf Hs Hmax Hw Hd Hz Hp].
  unfold phase_ok in Hp. rewrite Est in Hp. destruct Hp as (_ & Ek & El). rewrite El in *. simpl in *.
  specialize (Hz (or_intror eq_refl)).
  assert (total counted (d_workers d) = 0) as Ht by lia.
  assert (forall w, w ∈ d_workers d -> exists completed, w_pc w = WExited completed) as Hex.
  { intros w Hin. pose proof (total_zero counted _ w counted_nonneg Ht Hin) as Hc.
    unfold counted in Hc. destruct (w_pc w); try done. eauto. }
  split_and!; try done. rewrite Hs. clear -Hex.
  induction (d_workers d) as [|w ws IH]; simpl; [done|]. rewrite IH by set_solver.
  destruct (Hex w) as [b Eb]; [set_solver|]. unfold holds_slot. by rewrite Eb.
Qed.
End dispatcher.

(** ** A concrete run *)

Module Runs.

(** A queue that is a list of numbers. *)
#[local] Instance list_queue : JobQueue unit (list nat) nat := {|
  dq_Pop _ q n := Some (drop (Z.to_nat n) q, Ok (take (Z.to_nat n) q));
  dq_Complete _ q _ _ := Some q;
|}.

Definition cfg : dispatcher_config :=
  {| c_bufferSize := 2; c_maxWorkers := 1; c_limit := None; c_burst := 0; c_interval := 100 |}.

Definition success : Result :=
  {| res_Status := ResultStatusSuccess; res_Code := 200; res_Message := EmptyString |}.

(** Two of three jobs are popped; the first is processed; [Stop] is called while
    the second waits for a slot. *)
Definition before_stop : list (label (Env := unit) (QS := list nat)) :=
  [Tick; Kick tt; Recv; Acquire; Limit 0 true; Recv; Stop; StopSend; KickerStop; KickerExit].

Definition after_stop : list (label (Env := unit) (QS := list nat)) :=
  [Work 0 success; StopKicked; Complete 0 tt; Release 0; Acquire; Done 0; StopLoop; Limit 1 false;
   Release 1; Done 1; Waited; Stopped; Reported].

Definition d0 : dispatcher (QS := list nat) (J := nat) := d_start [7; 8; 9]%nat.
Definition d1 : dispatcher (QS := list nat) (J := nat) := default d0 (run cfg before_stop d0).
Definition d2 : dispatcher (QS := list nat) (J := nat) := default d0 (run cfg after_stop d1).

Lemma reachable_d1 : reachable cfg d1.
Proof.
  refine (run_reachable cfg before_stop d0 d1 (reach_start cfg _) _). vm_compute. reflexivity.
Defined.

Lemma reachable_d2 : reachable cfg d2.
Proof.
  refine (run_reachable cfg after_stop d1 d2 reachable_d1 _). vm_compute. reflexivity.
Defined.

Lemma dispatcher_bounds_witness :
  d_jobqueue d1 = [9]%nat /\
  Z.of_nat (length (filter (fun w => is_working w = true) (d_workers d1))) <= 1.
Proof.
  split; [reflexivity|].
  apply (dispatcher_bounds cfg d1); [done|done|exact reachable_d1].
Defined.

Lemma dispatcher_fifo_witness :
  loop_held (d_loop d1) = [8]%nat /\
  d_popped d1 = (w_job <$> d_workers d1) ++ loop_held (d_loop d1) ++ d_jobBuffer d1.
Proof.
  split; [reflexivity|].
  apply (dispatcher_fifo cfg d1); [done|done|exact reachable_d1].
Defined.

Lemma dispatcher_stop_progress_witness :
  exists l d', own_step l = true /\ dstep cfg l d1 = Some d'.
Proof.
  refine (dispatcher_stop_progress cfg d1 tt _ _ reachable_d1 _ _ _); vm_compute; congruence.
Defined.

Lemma dispatcher_stop_terminates_witness :
  Z.of_nat (length after_stop) <= steps_left d1 /\
  ((forall l, own_step l = true -> dstep cfg l d2 = None) -> d_stopper d2 = SDone \/ d_crashed d2 = true).
Proof.
  assert (run cfg after_stop d1 = Some d2) as Hrun by (vm_compute; reflexivity).
  assert (d_kicker d1 = KExited) as Hk by (vm_compute; reflexivity).
  refine (dispatcher_stop_terminates cfg d1 tt after_stop d2 _ _ reachable_d1 Hk _ Hrun); try done.
  repeat constructor.
Defined.

Lemma dispatcher_stopped_quiescent_witness :
  d_sem d2 = 0 /\ d_popped d2 = (w_job <$> d_workers d2) ++ d_jobBuffer d2.
Proof.
  assert (d_stopper d2 = SDone) as Hk by (vm_compute; reflexivity).
  destruct (dispatcher_stopped_quiescent cfg d2 ltac:(done) ltac:(done) reachable_d2 Hk) as (_ & _ & Hs & _ & Hp).
  done.
Defined.
End Runs.
