(* ===== verification/DispatcherQueue.v ===== *)
(** * A dispatcher on a job queue

    The dispatcher of [Dispatcher] watching the queue of [JobQueue] over any
    driver that meets the contract of [QueueSpec].  Every run of this system is
    a run of a client of the queue in the sense of [JobQueue.exec], whose
    outstanding handles are exactly the jobs the dispatcher has in hand, and these
    are exactly the grabbed jobs of the queue. *)

From S2P Require Import Prelude Job QueueSpec Heap InMemory JobQueue InMemoryQueue Model Dispatcher.
Local Open Scope Z_scope.

Section system.
Context {Env St H : Type} `{!Impl Env St H} `{!ImplSpec Env St H}.
Context {RC : Type} (tag : string) (rc_New : RC) (rc_Incr : Z -> RC -> RC).

(** The queue as the dispatcher sees it; a call carries the environment of the
    driver and two readings of the clock. *)
#[export] Instance jobQueue_JobQueue : Dispatcher.JobQueue (Env * Z * Z) (jobQueue St RC) H := {|
  dq_Pop e q limit := jobQueue_Pop rc_Incr tag e.1.1 e.1.2 q limit;
  dq_Complete e q h res := jobQueue_Complete tag e.1.1 e.1.2 e.2 q h res;
|}.

Local Abbreviation disp := (dispatcher (QS := jobQueue St RC) (J := H)).
Local Abbreviation lab := (label (Env := Env * Z * Z) (QS := jobQueue St RC)).
Local Abbreviation step := (dstep (Env := Env * Z * Z) (QS := jobQueue St RC) (J := H)).

(** The jobs the dispatcher has in hand: those of goroutines that have not
    completed them, the one the loop holds, and the buffer. *)
Definition uncompleted (w : worker (J := H)) : list H :=
  match outcome w with Some true => [] | _ => [w_job w] end.

Definition in_hand (d : disp) : list H :=
  (d_workers d ≫= uncompleted) ++ loop_held (d_loop d) ++ d_jobBuffer d.

(** Calls of the driver are in an environment the contract speaks about, and a
    retry fits the store. *)
Definition label_ok (d : disp) (l : lab) : Prop :=
  match l with
  | Kick e => impl_env_ok e.1.1
  | Complete i e => impl_env_ok e.1.1 /\ forall w, d_workers d !! i = Some w ->
      let j := impl_job e.1.1 (jq_impl (d_jobqueue d)) (w_job w) in
      impl_can_update e.1.1 (jq_impl (d_jobqueue d)) j (nextJob (failed_job j))
  | Other _ => False
  | _ => True
  end.

(** The event of a step, for the life of the jobs. *)
Definition label_events (d : disp) (l : lab) : list event :=
  match l with
  | Complete i e =>
      match d_workers d !! i with
      | Some {| w_job := h; w_pc := WCompleting res |} =>
          let j := impl_job e.1.1 (jq_impl (d_jobqueue d)) h in [ECompleted (job_ID j) (job_finished j res)]
      | _ => []
      end
  | _ => []
  end.

(** Runs of the system: producers push, the dispatcher does the rest. *)
Inductive dexec (c : dispatcher_config) : disp -> list event -> Prop :=
| dexec_start name mw s :
    impl_abs s aq_empty -> dexec c (d_start (jobQueue_Start rc_New name mw s)) []
| dexec_push d t e now j q' id d' :
    dexec c d t -> impl_env_ok e -> impl_can_push e (jq_impl (d_jobqueue d)) j -> incoming_wf j ->
    jobQueue_Push rc_Incr tag e now (d_jobqueue d) j = Some (q', Ok id) ->
    step c (Other q') d = Some d' -> dexec c d' (EPushed id (in_RetryCount j) :: t)
| dexec_step d t l d' :
    dexec c d t -> label_ok d l -> step c l d = Some d' -> dexec c d' (label_events d l ++ t).

(** ** The queue never panics on what the dispatcher holds *)

Local Abbreviation client := (exec tag rc_New rc_Incr).

Lemma client_Pop q hs t e now limit :
  client q hs t -> impl_env_ok e -> 0 <= limit <= max_job_slice ->
  exists q' hs', jobQueue_Pop rc_Incr tag e now q limit = Some (q', Ok hs') /\
    Z.of_nat (length hs') <= limit.
Proof.
  intros [a Hi]%exec_exec_inv He Hl.
  destruct (impl_Pop_spec e _ _ _ (inv_abs _ _ _ _ Hi) He Hl) as (s' & hs' & js & Ep & Hpop & _ & Ho & _).
  unfold jobQueue_Pop. rewrite Ep. simpl. eexists _, hs'. split; [done|].
  rewrite (Forall2_length _ _ _ Ho). apply Hpop.
Qed.

Lemma client_Complete q hs1 h hs2 t e t1 t2 res :
  client q (hs1 ++ h :: hs2) t -> impl_env_ok e ->
  impl_can_update e (jq_impl q) (impl_job e (jq_impl q) h) (nextJob (failed_job (impl_job e (jq_impl q) h))) ->
  is_Some (jobQueue_Complete tag e t1 t2 q h res).
Proof.
  intros [a [Ha (js & Hh & _ & _) Hb _ _]]%exec_exec_inv He Hu.
  apply Forall2_app_inv_l in Hh as (js1 & js' & _ & Hh & _).
  apply Forall2_cons_inv_l in Hh as (j & js2 & Ho & _ & _).
  pose proof (impl_outstanding_view e _ _ _ _ Ho) as [Ej Hg]. rewrite Ej in Hu.
  destruct (Hb (job_ID j) j) as (Hr0 & Hf0 & Hsum & _); [by apply aq_jobs_grabbed; [eapply impl_abs_wf|]|].
  assert (is_u64 (job_RetryCount j)) as Hr by word.
  destruct (job_finished j res) eqn:Ef.
  - destruct (Complete_finished tag e t1 t2 q a h j res Ha He Ho Hr Ef) as (q' & -> & _). eauto.
  - destruct (Complete_retry tag e t1 t2 q a h j res Ha He Ho Hr Ef Hu) as (q' & -> & _). eauto.
Qed.

(** ** Simulation *)

Lemma uncompleted_move ws i w pc :
  ws !! i = Some w ->
  exists l1 l2, (ws ≫= uncompleted) = l1 ++ uncompleted w ++ l2 /\
    (<[i := {| w_job := w_job w; w_pc := pc |}]> ws ≫= uncompleted) =
      l1 ++ uncompleted {| w_job := w_job w; w_pc := pc |} ++ l2.
Proof.
  intros Hi. exists (take i ws ≫= uncompleted), (drop (S i) ws ≫= uncompleted). split.
  - rewrite <- (take_drop_middle ws i w) at 1 by done. by rewrite bind_app, bind_cons.
  - rewrite insert_take_drop by (by eapply lookup_lt_Some). by rewrite bind_app, bind_cons.
Qed.

(** A goroutine that moves without completing its job keeps it in hand. *)
Lemma in_hand_move d i w pc sem wg :
  d_workers d !! i = Some w ->
  uncompleted {| w_job := w_job w; w_pc := pc |} = uncompleted w ->
  in_hand (move_worker i w pc sem wg d) = in_hand d.
Proof.
  intros Hw Hu. unfold in_hand. simpl. destruct (uncompleted_move (d_workers d) i w pc Hw) as (l1 & l2 & -> & ->).
  by rewrite Hu.
Qed.

(** One step of the system is one step of the client, or none. *)
Definition simulated (d' : disp) (t' : list event) : Prop :=
  d_crashed d' = false /\ client (d_jobqueue d') (in_hand d') t'.

Lemma worker_step_simulated c (l : lab) d d' t :
  client (d_jobqueue d) (in_hand d) t -> d_crashed d = false -> label_ok d l ->
  step_worker c l d = Some d' -> simulated d' (label_events d l ++ t).
Proof.
  intros Hx Hcr Hl E.
  destruct l as [| | | |i g|i res|i e|i|i| | | | | | | | | |]; try discriminate E; simpl in E;
    unfold with_worker in E; destruct (d_workers d !! i) as [w|] eqn:Ew; try discriminate E; simpl in E;
    destruct (w_pc w) as [| |res'|b|b|b] eqn:Epc; try discriminate E.
  - assert (exists pc, d' = move_worker i w pc (d_sem d) (d_wg d) d /\
      uncompleted {| w_job := w_job w; w_pc := pc |} = uncompleted w) as (pc & -> & Hu).
    { unfold uncompleted, outcome. rewrite Epc. destruct g, (limiter_closed c), (d_cancelled d);
        try discriminate E; injection E as <-; eauto. }
    split; [done|]. by rewrite in_hand_move.
  - injection E as <-. split; [done|]. rewrite in_hand_move; [done..|].
    unfold uncompleted, outcome. by rewrite Epc.
  - destruct Hl as [He Hu]. specialize (Hu w Ew). simpl in E.
    destruct (uncompleted_move (d_workers d) i w (WReleasing true) Ew) as (l1 & l2 & El & El').
    assert (uncompleted w = [w_job w]) as Euw by (unfold uncompleted, outcome; by rewrite Epc).
    rewrite Euw in El. change (uncompleted _) with (@nil H) in El'. simpl in El, El'.
    unfold in_hand in Hx. rewrite El, <- app_assoc in Hx. simpl in Hx.
    destruct (client_Complete _ _ _ _ _ _ e.1.2 e.2 res' Hx He Hu) as [q' Eq]. rewrite Eq in E.
    injection E as <-. split; [done|]. unfold in_hand. simpl. rewrite El', Ew.
    destruct w as [h wpc]. simpl in *. subst wpc. rewrite <- app_assoc.
    by eapply exec_complete.
  - destruct (0 <? d_sem d); [|done]. injection E as <-. split; [done|]. rewrite in_hand_move; [done..|].
    unfold uncompleted, outcome. by rewrite Epc.
  - injection E as <-. split; [done|]. rewrite in_hand_move; [done..|].
    unfold uncompleted, outcome. by rewrite Epc.
Qed.

Lemma loop_step_simulated c (l : lab) d d' t :
  client (d_jobqueue d) (in_hand d) t -> d_crashed d = false ->
  step_loop c l d = Some d' -> simulated d' t.
Proof.
  intros Hx Hcr E. unfold step_loop in E. unfold simulated, in_hand in *.
  destruct l; try discriminate E; destruct (d_loop d) as [|job| | | |] eqn:El; try discriminate E.
  - destruct (d_jobBuffer d) as [|job buf]; [done|]. by injection E as <-.
  - destruct (_ <? _); [|done]. injection E as <-. split; [done|]. simpl.
    rewrite bind_app. simpl. change (uncompleted _) with [job]. by rewrite <- app_assoc.
  - destruct (_ =? _); [|done]. by injection E as <-.
Qed.

Lemma kicker_step_simulated (l : lab) d d' t :
  client (d_jobqueue d) (in_hand d) t -> d_crashed d = false -> step_kicker l d = Some d' -> simulated d' t.
Proof.
  intros Hx Hcr E. unfold step_kicker in E.
  destruct l; try discriminate E; destruct (d_kicker d); try discriminate E; repeat case_match; by simplify_eq.
Qed.

Lemma stopper_step_simulated (l : lab) d d' t :
  client (d_jobqueue d) (in_hand d) t -> d_crashed d = false -> step_stopper l d = Some d' -> simulated d' t.
Proof.
  intros Hx Hcr E. unfold step_stopper in E.
  destruct l; try discriminate E; destruct (d_stopper d); try discriminate E; repeat case_match; by simplify_eq.
Qed.

(** The pop of a kick is a pop of the client: nothing is truncated. *)
Lemma popJobs_simulated c e d t :
  c_bufferSize c <= max_job_slice -> client (d_jobqueue d) (in_hand d) t -> d_crashed d = false ->
  impl_env_ok e.1.1 -> d_loop d = LSelect -> simulated (popJobs c e d) t.
Proof.
  intros Hb Hx Hcr He El. unfold popJobs.
  destruct (Z.ltb_spec (Z.of_nat (length (d_jobBuffer d))) (c_bufferSize c)) as [Hl|]; [|done].
  unfold max_job_slice in *. rewrite u64_id by word.
  destruct (client_Pop (d_jobqueue d) (in_hand d) t e.1.1 e.1.2
    (c_bufferSize c - Z.of_nat (length (d_jobBuffer d)))) as (q' & hs' & Ep & Hlen);
    [done|done|unfold max_job_slice; lia|]. simpl. rewrite Ep.
  destruct (Z.ltb_spec (c_bufferSize c - Z.of_nat (length (d_jobBuffer d))) (Z.of_nat (length hs'))); [lia|].
  rewrite send_all_spec by lia. split; [done|]. unfold in_hand. simpl. rewrite El. simpl.
  rewrite !app_assoc. eapply exec_pop; [|exact He| |exact Ep].
  - unfold in_hand in Hx. by rewrite El in Hx.
  - unfold max_job_slice. lia.
Qed.

Lemma meet_step_simulated c (l : lab) d d' t :
  c_bufferSize c <= max_job_slice -> client (d_jobqueue d) (in_hand d) t -> d_crashed d = false ->
  label_ok d l -> step_meet c l d = Some d' -> simulated d' t.
Proof.
  intros Hb Hx Hcr Hl E. unfold step_meet in E. destruct l; try discriminate E.
  - destruct (d_kicker d), (d_loop d) eqn:El; try discriminate E. injection E as <-. by apply popJobs_simulated.
  - destruct (d_loop d) eqn:El; try done. destruct (d_stopper d); try done. injection E as <-.
    split; [done|]. unfold in_hand in *. by rewrite El in Hx.
  - destruct (d_loop d) eqn:El; try done. destruct (d_stopper d); try done. injection E as <-.
    split; [done|]. unfold in_hand in *. by rewrite El in Hx.
Qed.

Lemma dexec_simulated c d t : c_bufferSize c <= max_job_slice -> dexec c d t -> simulated d t.
Proof.
  intros Hb. induction 1 as [name mw s Ha|d t e now j q' id d' _ [Hcr IH] He Hp Hwf E Es|d t l d' _ [Hcr IH] Hl Es].
  - split; [done|]. by apply exec_start.
  - unfold dstep in Es. rewrite Hcr in Es. injection Es as <-. split; [done|]. by eapply exec_push.
  - unfold dstep in Es. rewrite Hcr in Es.
    destruct l; try (by destruct Hl);
      eauto using worker_step_simulated, loop_step_simulated, kicker_step_simulated, stopper_step_simulated,
        meet_step_simulated.
Qed.

(** C3 (refinement): a dispatcher on a queue loses no job.  In every run, with
    producers pushing at any time, nothing panics; the run is a run of a client of
    the queue that holds [in_hand d]; the queue holds exactly the jobs pushed and not
    finished; and the grabbed jobs of the queue are exactly those the dispatcher has
    in hand, in its buffer, in its loop or in a goroutine that has not completed
    them, each once. *)
Theorem dispatcher_no_job_lost c d t :
  c_bufferSize c <= max_job_slice -> dexec c d t ->
  d_crashed d = false /\ exec tag rc_New rc_Incr (d_jobqueue d) (in_hand d) t /\
  exists a js, impl_abs (jq_impl (d_jobqueue d)) a /\
    (forall id, is_Some (aq_jobs a !! id) <-> alive id t = true) /\
    Forall2 (impl_outstanding (jq_impl (d_jobqueue d)) a) (in_hand d) js /\ NoDup (job_ID <$> js) /\
    (forall id, is_Some (grabbed a !! id) <-> id ∈ job_ID <$> js).
Proof.
  intros Hb Hd. destruct (dexec_simulated c d t Hb Hd) as [Hcr Hx]. split; [done|]. split; [done|].
  apply exec_exec_inv in Hx as [a [Ha (js & Hh & Hnd & Hg) _ _ Hal]]. exists a, js.
  split_and!; try done. intros id. by rewrite <- Hg, elem_of_dom.
Qed.
End system.

(** ** A concrete run on the in-memory driver *)

Module SystemRuns.

Definition cfg : dispatcher_config :=
  {| c_bufferSize := 1000; c_maxWorkers := 2; c_limit := None; c_burst := 0; c_interval := 100 |}.

#[local] Instance system_queue : Dispatcher.JobQueue (Z * Z * Z) (jobQueue inmemory Z) nat :=
  jobQueue_JobQueue "t" rc_count.

Local Abbreviation lab := (label (Env := Z * Z * Z) (QS := jobQueue inmemory Z)).
Local Abbreviation disp := (dispatcher (QS := jobQueue inmemory Z) (J := nat)).

Definition sd0 : disp := d_start q0.
Definition sd1 : disp := default sd0 (dstep cfg (Other q1) sd0).
Definition labels : list lab := [Tick; Kick (1000, 1001, 1001); Recv; Acquire; Limit 0 true; Work 0 failure].
Definition sd2 : disp := default sd1 (run cfg labels sd1).
Definition sd3 : disp := default sd2 (dstep cfg (Complete 0 (2000, 2001, 2001)) sd2).

Local Abbreviation runs := (dexec (Env := Z) (H := nat) "t" 0 rc_count cfg).

(** Labels other than [Complete] and [Other] leave the events alone. *)
Lemma runs_quiet (ls : list lab) d d' t :
  runs d t -> Forall (fun l => match l with
    | Kick e => is_u64 e.1.1 | Complete _ _ | Other _ => False | _ => True end) ls ->
  run cfg ls d = Some d' -> runs d' t.
Proof.
  revert d. induction ls as [|l ls IH]; intros d Hr Hl E; simpl in E.
  - by injection E as <-.
  - apply Forall_cons in Hl as [Hl Hls]. destruct (dstep cfg l d) as [d1|] eqn:Es; [|done].
    apply (IH d1); [|done..].
    assert (label_events (Impl0 := inmemory_Impl) d l = []) as Ev by by destruct l.
    rewrite <- (app_nil_l t), <- Ev. apply (dexec_step (H := nat) "t" 0 rc_count cfg d t l d1); [done| |done].
    by destruct l.
Defined.

Lemma runs_sd1 : runs sd1 [EPushed 1 1].
Proof.
  eapply (dexec_push (H := nat) "t" 0 rc_count cfg sd0 [] 1000 1000 (sample_job 0 1)).
  - apply dexec_start. apply im_abs_New. word.
  - simpl. word.
  - simpl. word.
  - repeat split; simpl; word.
  - vm_compute. reflexivity.
  - vm_compute. reflexivity.
Defined.

Lemma runs_sd2 : runs sd2 [EPushed 1 1].
Proof.
  apply (runs_quiet labels sd1); [exact runs_sd1|repeat constructor; simpl; word|].
  vm_compute. reflexivity.
Defined.

Lemma runs_sd3 : runs sd3 [ECompleted 1 false; EPushed 1 1].
Proof.
  refine (dexec_step (H := nat) "t" 0 rc_count cfg sd2 [EPushed 1 1] (Complete 0 (2000, 2001, 2001)) sd3 runs_sd2 _ _).
  - split; [exact (u64_range 2000)|done].
  - vm_compute. reflexivity.
Defined.

(** The job is in the hands of a goroutine before its completion. *)
Lemma dispatcher_no_job_lost_witness :
  in_hand sd2 = [0%nat] /\ d_crashed sd2 = false /\
  exists a js, impl_abs (jq_impl (d_jobqueue sd2)) a /\
    (forall id, is_Some (aq_jobs a !! id) <-> alive id [EPushed 1 1] = true) /\
    Forall2 (impl_outstanding (jq_impl (d_jobqueue sd2)) a) (in_hand sd2) js /\ NoDup (job_ID <$> js) /\
    (forall id, is_Some (grabbed a !! id) <-> id ∈ job_ID <$> js).
Proof.
  split; [vm_compute; reflexivity|].
  destruct (dispatcher_no_job_lost "t" 0 rc_count cfg sd2 _ ltac:(vm_compute; congruence) runs_sd2) as (Hc & _ & Ha).
  split; [exact Hc|exact Ha].
Defined.
End SystemRuns.
