(* ===== verification/FailureLog.v ===== *)
(** * Reading the failure log (src/jobqueue/mysql/failure_log.go)

    The failure log of a MySQL queue lists the jobs that failed for good, page
    by page.  The encoding of payloads and results is that of [encoding/json],
    a parameter: nothing proved here depends on it but that stored results can
    be read back. *)

From S2P Require Import Prelude GoStrings Paging Job QueueSpec MySQLTable MySQLQueue.
Local Open Scope Z_scope.

(** ** Times *)

(** [time.Unix(int64(v)/1000, int64(v)%1000*1000000)], as nanoseconds since the
    epoch. *)
Definition time_of_ms (v : Z) : Z :=
  Z.quot (i64 v) ms_per_s * ns_per_s + Z.rem (i64 v) ms_per_s * ns_per_ms.

(** [t.UnixNano()]: 64 bits. *)
Definition UnixNano (t : Z) : Z := i64 t.

(** [t.UnixNano() / int64(time.Millisecond)] *)
Definition unix_ms (t : Z) : Z := Z.quot (UnixNano t) ns_per_ms.

(** The largest time in milliseconds [UnixNano] can represent. *)
Definition max_unix_ms : Z := 9223372036854.

Lemma time_of_ms_ns v : is_u64 v -> time_of_ms v = i64 v * ns_per_ms.
Proof.
  intros Hv. unfold time_of_ms, ms_per_s, ns_per_s, ns_per_ms. pose proof (Z.quot_rem' (i64 v) 1000). lia.
Qed.

Lemma UnixNano_time_of_ms v : 0 <= v <= max_unix_ms -> UnixNano (time_of_ms v) = v * ns_per_ms.
Proof.
  unfold max_unix_ms. intros Hv. rewrite time_of_ms_ns by word. unfold UnixNano, ns_per_ms.
  rewrite (i64_id v) by word. apply i64_id. word.
Qed.

Lemma unix_ms_time_of_ms v : 0 <= v <= max_unix_ms -> unix_ms (time_of_ms v) = v.
Proof.
  intros Hv. unfold unix_ms. rewrite UnixNano_time_of_ms by done. unfold ns_per_ms. by rewrite Z.quot_mul.
Qed.

(** ** Queries *)

(** failed_jobs.sql and recently_failed_jobs.sql *)
Inductive failure_query := failedJobs | recentlyFailedJobs.

Definition failure_less (q : failure_query) : failure_row -> failure_row -> bool :=
  match q with
  | failedJobs => flip_less (lex_less f_created_at f_failure_id)
  | recentlyFailedJobs => flip_less (key_less f_failure_id)
  end.

#[export] Instance failure_less_order q : LessOrder (failure_less q).
Proof. destruct q; apply _. Qed.

(** The WHERE clause; the second query compares the time with itself. *)
Definition failure_where (q : failure_query) (maxTime maxID : Z) (r : failure_row) : bool :=
  match q with
  | failedJobs => (f_created_at r <=? maxTime) && (negb (f_created_at r =? maxTime) || (f_failure_id r <=? maxID))
  | recentlyFailedJobs => (maxTime =? maxTime) && (f_failure_id r <=? maxID)
  end.

Definition sql_failures (q : failure_query) (order : list failure_row -> list failure_row)
    (maxTime maxID limit : Z) (t : tables) : list failure_row :=
  takeZ limit (sort_slice (failure_less q)
    (filter (fun r => failure_where q maxTime maxID r = true) (scan order (t_failures t)))).

(** ** Operations *)

Record FailedJob := {
  fj_ID : Z;
  fj_JobID : Z;
  fj_Category : string;
  fj_URL : string;
  fj_Payload : string;
  fj_Result : option Result;
  fj_FailCount : Z;
  fj_FailedAt : Z;
  fj_CreatedAt : Z;
}.

Record FailedJobs := {
  fjs_FailedJobs : list FailedJob;
  fjs_NextCursor : string;
}.

(** The capacity [make([]FailedJob, 0, n)] accepts: 136 bytes each. *)
Definition max_failed_slice : Z := 2069669222872.

Definition no_rows : string := "sql: no rows in result set".

Section failure_log.
(** [encoding/json]: whether a raw payload marshals, a payload as a JSON string,
    and unmarshalling of a result into a pointer. *)
Context (json_valid : string -> bool) (json_quote : string -> string)
  (unmarshal_Result : string -> result string (option Result)).

(** A payload that is not JSON is shown as a JSON string. *)
Definition shown_payload (p : string) : string := if json_valid p then p else json_quote p.

Definition failureLog_scan (r : failure_row) : result QueueError FailedJob :=
  match unmarshal_Result (f_result r) with
  | Err err => Err (StoreError err)
  | Ok res => Ok {|
      fj_ID := f_failure_id r;
      fj_JobID := f_job_id r;
      fj_Category := f_category r;
      fj_URL := f_url r;
      fj_Payload := shown_payload (f_payload r);
      fj_Result := res;
      fj_FailCount := f_fail_count r;
      fj_FailedAt := time_of_ms (f_failed_at r);
      fj_CreatedAt := time_of_ms (f_created_at r);
    |}
  end.

Fixpoint scan_all (rows : list failure_row) : result QueueError (list FailedJob) :=
  match rows with
  | [] => Ok []
  | r :: rows' =>
      match failureLog_scan r with
      | Err err => Err err
      | Ok j =>
          match scan_all rows' with
          | Err err => Err err
          | Ok js => Ok (j :: js)
          end
      end
  end.

Definition failureLog_Find (e : mysql_env) (t : tables) (failureID : Z) : result QueueError FailedJob :=
  match me_fault e 0 with
  | Some err => Err (StoreError err)
  | None =>
      match t_failures t !! failureID with
      | None => Err (StoreError no_rows)
      | Some r => failureLog_scan r
      end
  end.

(** [findAllByQuery]; [None] when [make] panics. *)
Definition findAllByQuery (e : mysql_env) (order : list failure_row -> list failure_row)
    (query : failure_query) (t : tables) (limit : Z) (cursor : string) : option (result QueueError FailedJobs) :=
  let '(maxTime, maxID) :=
    match decode_cursor cursor with
    | Some (t, j) => (t, j)
    | None => (i64_max, u64_max)
    end in
  match me_fault e 0 with
  | Some err => Some (Err (StoreError err))
  | None =>
      let rows := sql_failures query order maxTime maxID (u64 (limit + 1)) t in
      if max_failed_slice <? limit then None
      else match scan_all rows with
      | Err err => Some (Err err)
      | Ok results =>
          match me_fault e 1 with
          | Some err => Some (Err (StoreError err))
          | None =>
              if limit <? Z.of_nat (length results) then
                j ← results !! Z.to_nat limit;
                Some (Ok {| fjs_FailedJobs := take (Z.to_nat limit) results;
                            fjs_NextCursor := encode_cursor (unix_ms (fj_CreatedAt j)) (fj_ID j) |})
              else Some (Ok {| fjs_FailedJobs := results; fjs_NextCursor := EmptyString |})
          end
      end
  end.

Definition failureLog_FindAll e order t limit cursor := findAllByQuery e order failedJobs t limit cursor.
Definition failureLog_FindAllRecentFailures e order t limit cursor :=
  findAllByQuery e order recentlyFailedJobs t limit cursor.

(** Following the cursors from the first page to the last. *)
Fixpoint follow_pages (fuel : nat) (page : string -> option (result QueueError FailedJobs)) (cursor : string)
    : option (list FailedJob) :=
  match fuel with
  | O => None
  | S fuel =>
      match page cursor with
      | Some (Ok p) =>
          if String.eqb (fjs_NextCursor p) EmptyString then Some (fjs_FailedJobs p)
          else rest ← follow_pages fuel page (fjs_NextCursor p); Some (fjs_FailedJobs p ++ rest)
      | _ => None
      end
  end.

(** ** Pages *)

(** Keys in place, times and identifiers in the range cursors can carry. *)
Definition failures_ok (t : tables) : Prop :=
  map_Forall (fun id r => f_failure_id r = id /\ 0 <= id <= i64_max /\ 0 <= f_created_at r <= max_unix_ms)
    (t_failures t).

(** All failures of a table in the order of a query. *)
Definition listing (query : failure_query) (t : tables) : list failure_row :=
  sort_slice (failure_less query) (map_to_list (t_failures t)).*2.

Context (e : mysql_env) (no_fault : forall k, me_fault e k = None).
Context (order : list failure_row -> list failure_row) (order_perm : forall l, order l ≡ₚ l).
Context (t : tables) (t_ok : failures_ok t).

Lemma elem_of_rows r : r ∈ (map_to_list (t_failures t)).*2 <-> t_failures t !! f_failure_id r = Some r.
Proof.
  rewrite list_elem_of_fmap. split.
  - intros ([id r'] & -> & Hin%elem_of_map_to_list). simpl. destruct (t_ok id r' Hin) as [Eid _].
    by rewrite Eid.
  - intros Hr. exists (f_failure_id r, r). by rewrite elem_of_map_to_list.
Qed.

Lemma rows_distinct query : distinguishes (failure_less query) (map_to_list (t_failures t)).*2.
Proof.
  intros x y Hx%elem_of_rows Hy%elem_of_rows. unfold leq, failure_less, flip_less, lex_less, key_less.
  destruct query; intros; assert (f_failure_id x = f_failure_id y) as E by lia;
    rewrite E, Hy in Hx; congruence.
Qed.

Lemma rows_nodup : NoDup (map_to_list (t_failures t)).*2.
Proof.
  apply (NoDup_fmap_1 f_failure_id). rewrite <- list_fmap_compose.
  erewrite list_fmap_ext; [apply (NoDup_fst_map_to_list (t_failures t))|].
  intros i [id r] Hx. simpl. apply list_elem_of_lookup_2, elem_of_map_to_list in Hx. by apply (t_ok id r).
Qed.

Lemma listing_lookup query k c : listing query t !! k = Some c -> t_failures t !! f_failure_id c = Some c.
Proof. intros Hk. apply elem_of_rows, (elem_of_sort_slice (failure_less query)). by eapply list_elem_of_lookup_2. Qed.

(** The rows of a query are the listing, restricted. *)
Lemma sql_failures_listing query maxTime maxID limit :
  sql_failures query order maxTime maxID limit t =
    takeZ limit (filter (fun r => failure_where query maxTime maxID r = true) (listing query t)).
Proof.
  unfold sql_failures, listing. f_equal.
  rewrite <- sort_slice_filter by (apply _ || apply rows_distinct). apply sort_slice_unique; [apply _|..].
  - intros x y [_ Hx]%list_elem_of_filter [_ Hy]%list_elem_of_filter. apply (rows_distinct query).
    + by rewrite <- (order_perm).
    + by rewrite <- (order_perm).
  - unfold scan. by rewrite order_perm.
Qed.

(** From the cursor of a row on, what is left is the row and what follows. *)
Lemma cursor_rows query k c :
  listing query t !! k = Some c ->
  filter (fun r => failure_where query (f_created_at c) (f_failure_id c) r = true) (listing query t) =
    drop k (listing query t).
Proof.
  intros Hk.
  rewrite <- (filter_from (failure_less query) k c (listing query t)).
  - apply list_filter_iff. intros r. unfold failure_where, leq, failure_less, flip_less, lex_less, key_less.
    destruct query; lia.
  - apply (sort_slice_sorted (failure_less query)).
  - unfold listing. rewrite sort_slice_perm. apply rows_nodup.
  - intros x y Hx Hy. apply (rows_distinct query); by apply (elem_of_sort_slice (failure_less query)).
  - done.
Qed.

Lemma no_cursor_rows query :
  filter (fun r => failure_where query i64_max u64_max r = true) (listing query t) = listing query t.
Proof.
  assert (Forall (fun r => failure_where query i64_max u64_max r = true) (listing query t)) as Hall.
  { apply Forall_forall. intros r (k & Hk)%list_elem_of_lookup_1. apply listing_lookup, t_ok in Hk as (_ & Hid & Hc).
    unfold failure_where, max_unix_ms in *. destruct query; word. }
  induction Hall as [|r l Hr Hl IH]; [done|]. rewrite filter_cons_True by done. by rewrite IH.
Qed.

Lemma scan_all_Forall2 rows js :
  scan_all rows = Ok js <-> Forall2 (fun r j => failureLog_scan r = Ok j) rows js.
Proof.
  split.
  - revert js. induction rows as [|r rows IH]; simpl; intros js E; [by injection E as <-|].
    destruct (failureLog_scan r) as [j|] eqn:Er; [|done].
    destruct (scan_all rows) as [js'|]; [|done]. injection E as <-. by constructor; [|apply IH].
  - induction 1 as [|r j rows js Hr _ IH]; simpl; [done|]. by rewrite Hr, IH.
Qed.

Lemma scan_all_part rows js k n :
  scan_all rows = Ok js -> scan_all (take n (drop k rows)) = Ok (take n (drop k js)).
Proof. rewrite !scan_all_Forall2. intros Hs. by apply Forall2_take, Forall2_drop. Qed.

Lemma scanned_cursor r j :
  t_failures t !! f_failure_id r = Some r -> failureLog_scan r = Ok j ->
  encode_cursor (unix_ms (fj_CreatedAt j)) (fj_ID j) = encode_cursor (f_created_at r) (f_failure_id r).
Proof.
  intros Hr%t_ok E. destruct Hr as (_ & _ & Hc). unfold failureLog_scan in E.
  destruct (unmarshal_Result _); [|done]. injection E as <-. simpl. by rewrite unix_ms_time_of_ms.
Qed.

(** A cursor for the rows from position [k] of the listing on. *)
Definition cursor_at (query : failure_query) (k : nat) (cursor : string) : Prop :=
  (k = 0%nat /\ cursor = EmptyString) \/
  exists c, listing query t !! k = Some c /\ cursor = encode_cursor (f_created_at c) (f_failure_id c).

Lemma cursor_at_rows query k cursor limit :
  cursor_at query k cursor -> 0 <= limit <= max_failed_slice ->
  (let '(maxTime, maxID) := match decode_cursor cursor with Some (t, j) => (t, j) | None => (i64_max, u64_max) end in
   sql_failures query order maxTime maxID (u64 (limit + 1)) t) =
    take (S (Z.to_nat limit)) (drop k (listing query t)).
Proof.
  unfold max_failed_slice. intros Hc Hl. rewrite u64_id by word.
  replace (S (Z.to_nat limit)) with (Z.to_nat (limit + 1)) by lia.
  destruct Hc as [[-> ->]|(c & Hk & ->)].
  - rewrite decode_cursor_empty, sql_failures_listing, no_cursor_rows. by rewrite takeZ_take, drop_0 by lia.
  - pose proof (t_ok _ _ (listing_lookup query k c Hk)) as (_ & Hid & Hc). unfold max_unix_ms in Hc.
    rewrite decode_encode_cursor by word.
    destruct ((f_created_at c <=? i64_max) && (f_failure_id c <=? i64_max)) eqn:E; [|word].
    rewrite sql_failures_listing, (cursor_rows query k c Hk). by rewrite takeZ_take by lia.
Qed.

(** A page is a slice of the listing, and its cursor is that of the rest. *)
Lemma page_spec query k cursor limit js :
  cursor_at query k cursor -> 1 <= limit <= max_failed_slice -> scan_all (listing query t) = Ok js ->
  exists next, findAllByQuery e order query t limit cursor =
      Some (Ok {| fjs_FailedJobs := take (Z.to_nat limit) (drop k js); fjs_NextCursor := next |}) /\
    if decide (k + Z.to_nat limit < length js)%nat
    then cursor_at query (k + Z.to_nat limit) next /\ next <> EmptyString else next = EmptyString.
Proof.
  intros Hc Hl Hs. pose proof (cursor_at_rows query k cursor limit Hc ltac:(lia)) as Hrows.
  unfold findAllByQuery. destruct (match decode_cursor cursor with Some (t, j) => (t, j) | None => (i64_max, u64_max) end)
    as [maxTime maxID].
  rewrite no_fault, Hrows, (scan_all_part _ js) by done. rewrite no_fault.
  destruct (Z.ltb_spec max_failed_slice limit); [lia|].
  rewrite length_take, length_drop.
  destruct (decide (k + Z.to_nat limit < length js)%nat) as [Hlt|Hge].
  - destruct (Z.ltb_spec limit (Z.of_nat (S (Z.to_nat limit) `min` (length js - k)))); [|lia].
    destruct (lookup_lt_is_Some_2 js (k + Z.to_nat limit) Hlt) as [j Hj].
    rewrite lookup_take_lt, lookup_drop, Hj by lia. simpl.
    rewrite take_take, Nat.min_l by lia. eexists. split; [done|].
    apply scan_all_Forall2 in Hs. destruct (Forall2_lookup_r _ _ _ _ _ Hs Hj) as (r & Hr & Hrj).
    split; [|apply encode_cursor_nonempty]. right. exists r. split; [done|].
    apply scanned_cursor; [|done]. by eapply listing_lookup.
  - destruct (Z.ltb_spec limit (Z.of_nat (S (Z.to_nat limit) `min` (length js - k)))); [lia|].
    eexists. split; [|done]. do 3 f_equal. rewrite !take_ge; [done|rewrite length_drop; lia..].
Qed.

Lemma follow_pages_spec query limit js fuel k cursor :
  1 <= limit <= max_failed_slice -> scan_all (listing query t) = Ok js ->
  cursor_at query k cursor -> (length js - k < fuel)%nat ->
  follow_pages fuel (findAllByQuery e order query t limit) cursor = Some (drop k js).
Proof.
  intros Hl Hs. revert k cursor. induction fuel as [|fuel IH]; intros k cursor Hc Hf; [lia|]. simpl.
  destruct (page_spec query k cursor limit js Hc Hl Hs) as (next & -> & Hnext). simpl.
  case_decide as Hlt.
  - destruct Hnext as [Hc' Hne]. destruct (String.eqb_spec next EmptyString); [done|].
    rewrite (IH (k + Z.to_nat limit)%nat); [|done|lia]. simpl. f_equal.
    rewrite <- drop_drop. apply take_drop.
  - subst next. simpl. f_equal. apply take_ge. rewrite length_drop. lia.
Qed.

(** C35 (roundtrip): following the cursors of the failure log from the first page
    on lists every failure exactly once, in the order of the query (latest
    first), whatever the page size and whatever order the storage engine returns
    rows in, and comes to an end. *)
Theorem failure_log_pages_complete query limit js :
  1 <= limit <= max_failed_slice -> scan_all (listing query t) = Ok js ->
  follow_pages (S (length js)) (findAllByQuery e order query t limit) EmptyString = Some js.
Proof.
  intros Hl Hs. rewrite (follow_pages_spec query limit js _ 0); [by rewrite drop_0|done..|by left|lia].
Qed.
End failure_log.

(** ** Adding and reading back *)

(** [Add] of a popped job never reports an error: when the INSERT
    fails, or the values do not fit their columns, nothing is recorded and the
    caller is not told. *)
Theorem failureLog_Add_silent marshal_Result e s j st res :
  (failureLog_Add marshal_Result e s (MJob j st) res).2 = None /\
  (is_Some (me_fault e 10) -> (failureLog_Add marshal_Result e s (MJob j st) res).1 = s).
Proof.
  unfold failureLog_Add. split.
  - destruct (me_fault e 10); [done|]. by destruct (sql_insert_failed_job _ _ _ _ _ _ _ _ _).
  - by intros [err ->].
Qed.

(** ** A concrete listing *)

Section runs.
Definition failure_at (id created : Z) : failure_row := {|
  f_failure_id := id; f_job_id := id + 10; f_category := "c"; f_url := "u"; f_payload := "p";
  f_result := "r"; f_fail_count := 1; f_failed_at := created + 5; f_created_at := created;
|}.

Definition three_failures : tables := {|
  t_jobs := ∅; t_next_job_id := 20;
  t_failures := {[ 1 := failure_at 1 300; 2 := failure_at 2 100; 3 := failure_at 3 300 ]};
  t_next_failure_id := 4;
|}.

Definition read_any (s : string) : result string (option Result) :=
  Ok (Some {| res_Status := ResultStatusFailure; res_Code := 500; res_Message := s |}).

Definition env0 : mysql_env := env_at 1000 id true.

Lemma three_failures_ok : failures_ok three_failures.
Proof.
  unfold failures_ok, three_failures. simpl. unfold max_unix_ms.
  repeat apply map_Forall_insert_2; [..|apply map_Forall_empty]; simpl; word.
Defined.

Lemma failure_log_pages_complete_witness :
  exists js, fj_ID <$> js = [3; 1; 2] /\
    follow_pages 4 (findAllByQuery (fun _ => true) (fun s => s) read_any env0 (fun l => l) failedJobs three_failures 1)
      EmptyString = Some js.
Proof.
  destruct (scan_all (fun _ => true) (fun s => s) read_any (listing failedJobs three_failures)) as [js|] eqn:Es;
    [|vm_compute in Es; congruence].
  exists js. assert (fj_ID <$> js = [3; 1; 2]) as Hids by (vm_compute in Es; injection Es as <-; reflexivity).
  split; [exact Hids|]. assert (length js = 3%nat) as Hlen by (rewrite <- (length_fmap fj_ID), Hids; reflexivity).
  rewrite <- (failure_log_pages_complete (fun _ => true) (fun s => s) read_any env0 (fun _ => eq_refl) (fun l => l)
    (fun l => reflexivity l) three_failures three_failures_ok failedJobs 1 js ltac:(unfold max_failed_slice; lia) Es).
  by rewrite Hlen.
Defined.
End runs.
