(* ===== verification/Inspector.v ===== *)
(** * Inspecting the jobs of a queue (src/jobqueue/mysql/inspector.go)

    Listings of the jobs of a MySQL queue by their state, in ascending or
    descending order of the time of their next try, page by page.  A page takes
    two queries: the identifiers of the page, then the jobs. *)

From S2P Require Import Prelude GoStrings Paging Job QueueSpec MySQLTable MySQLQueue FailureLog.
Local Open Scope Z_scope.

(** ** Data *)

Record InspectedJob := {
  ij_ID : Z;
  ij_Category : string;
  ij_URL : string;
  ij_Payload : string;
  ij_Status : string;
  ij_CreatedAt : Z;
  ij_NextTry : Z;
  ij_Timeout : Z;
  ij_FailCount : Z;
  ij_MaxRetries : Z;
  ij_RetryDelay : Z;
  ij_FailureURL : string;
}.

Record InspectedJobs := {
  ijs_Jobs : list InspectedJob;
  ijs_NextCursor : string;
}.

Inductive SortOrder := Asc | Desc.

(** The capacity [make([]InspectedJob, 0, n)] accepts: 176 bytes each. *)
Definition max_inspected_slice : Z := 1599289640401.

(** ** Queries *)

(** inspect_jobs_asc.sql *)
Definition sql_inspect_jobs_asc (order : list job_row -> list job_row) (status : job_status)
    (minTime maxTime minJobID limit : Z) (t : tables) : list Z :=
  r_job_id <$> takeZ limit (sort_slice (lex_less r_next_try r_job_id)
    (filter (fun r => r_status r = status /\ minTime <= r_next_try r /\ r_next_try r < maxTime /\
                      minJobID <= r_job_id r)
      (scan order (t_jobs t)))).

(** inspect_jobs.sql *)
Definition sql_inspect_jobs (order : list job_row -> list job_row) (status : job_status)
    (minTime maxTime maxJobID limit : Z) (t : tables) : list Z :=
  r_job_id <$> takeZ limit (sort_slice (flip_less (lex_less r_next_try r_job_id))
    (filter (fun r => r_status r = status /\ minTime < r_next_try r /\ r_next_try r <= maxTime /\
                      r_job_id r <= maxJobID)
      (scan order (t_jobs t)))).

(** ** Operations *)

Section inspector.
(** [encoding/json], as for the failure log *)
Context (json_valid : string -> bool) (json_quote : string -> string).

Definition inspector_scan (r : job_row) : InspectedJob := {|
  ij_ID := r_job_id r;
  ij_Category := r_category r;
  ij_URL := r_url r;
  ij_Payload := shown_payload json_valid json_quote (r_payload r);
  ij_Status := status_string (r_status r);
  ij_CreatedAt := time_of_ms (r_created_at r);
  ij_NextTry := time_of_ms (r_next_try r);
  ij_Timeout := r_timeout r;
  ij_FailCount := r_fail_count r;
  ij_MaxRetries := u64 (r_fail_count r + r_retry_count r);
  ij_RetryDelay := r_retry_delay r;
  ij_FailureURL := default EmptyString (r_failure_url r);
|}.

Definition inspector_Delete (e : mysql_env) (s : mysql_queue) (jobID : Z) : mysql_queue * option QueueError :=
  match me_fault e 0 with
  | Some err => (s, Some (StoreError err))
  | None => (mq_with_tables (sql_delete_job jobID (mq_tables s)) s, None)
  end.

Definition inspector_Find (e : mysql_env) (t : tables) (jobID : Z) : result QueueError InspectedJob :=
  match me_fault e 0 with
  | Some err => Err (StoreError err)
  | None =>
      match t_jobs t !! jobID with
      | None => Err (StoreError no_rows)
      | Some r => Ok (inspector_scan r)
      end
  end.

(** The order of [sort.Slice], on 64-bit nanoseconds. *)
Definition inspected_less (order : SortOrder) : InspectedJob -> InspectedJob -> bool :=
  let less := lex_less (fun j => UnixNano (ij_NextTry j)) ij_ID in
  match order with Asc => less | Desc => flip_less less end.

(** What follows the query of the identifiers in both directions. *)
Definition inspect_page (e : mysql_env) (order : SortOrder) (status : job_status) (t : tables)
    (limit : Z) (ids : list Z) : option (result QueueError InspectedJobs) :=
  match me_fault e 1 with  (* Scan and rows.Err *)
  | Some err => Some (Err (StoreError err))
  | None =>
      let t := me_others e t in
      match ids with
      | [] => Some (Ok {| ijs_Jobs := []; ijs_NextCursor := EmptyString |})
      | _ =>
          match me_fault e 2 with  (* the second query and its rows *)
          | Some err => Some (Err (StoreError err))
          | None =>
              let rows := sql_grabbed_jobs (me_order e 1) status ids t in
              let results := sort_slice (inspected_less order) (inspector_scan <$> rows) in
              if limit <? Z.of_nat (length results) then
                j ← results !! Z.to_nat limit;
                Some (Ok {| ijs_Jobs := take (Z.to_nat limit) results;
                            ijs_NextCursor := encode_cursor (unix_ms (ij_NextTry j)) (ij_ID j) |})
              else Some (Ok {| ijs_Jobs := results; ijs_NextCursor := EmptyString |})
          end
      end
  end.

(** [None] when [make] panics. *)
Definition findAllAsc (e : mysql_env) (t : tables) (status : job_status) (minTime maxTime limit : Z)
    (cursor : string) : option (result QueueError InspectedJobs) :=
  let minTime := if i64_max <=? minTime then 0 else minTime in
  let '(minTime, minJobID) :=
    match decode_cursor cursor with Some (t, j) => (t, j) | None => (minTime, 0) end in
  if max_inspected_slice <? u64 (limit + 1) then None
  else match me_fault e 0 with
  | Some err => Some (Err (StoreError err))
  | None =>
      inspect_page e Asc status t limit
        (sql_inspect_jobs_asc (me_order e 0) status minTime maxTime minJobID (u64 (limit + 1)) t)
  end.

Definition findAllDesc (e : mysql_env) (t : tables) (status : job_status) (minTime maxTime limit : Z)
    (cursor : string) : option (result QueueError InspectedJobs) :=
  let maxTime := if maxTime <=? 0 then i64_max else maxTime in
  let '(maxTime, maxJobID) :=
    match decode_cursor cursor with Some (t, j) => (t, j) | None => (maxTime, u64_max) end in
  if max_inspected_slice <? u64 (limit + 1) then None
  else match me_fault e 0 with
  | Some err => Some (Err (StoreError err))
  | None =>
      inspect_page e Desc status t limit
        (sql_inspect_jobs (me_order e 0) status minTime maxTime maxJobID (u64 (limit + 1)) t)
  end.

(** [me_app_now] is the clock of the process. *)
Definition FindAllGrabbed (e : mysql_env) (t : tables) (limit : Z) (cursor : string) (order : SortOrder) :=
  match order with
  | Asc => findAllAsc e t Grabbed 0 (me_app_now e) limit cursor
  | Desc => findAllDesc e t Grabbed 0 (me_app_now e) limit cursor
  end.

Definition FindAllWaiting (e : mysql_env) (t : tables) (limit : Z) (cursor : string) (order : SortOrder) :=
  match order with
  | Asc => findAllAsc e t Claimed 0 (me_app_now e) limit cursor
  | Desc => findAllDesc e t Claimed 0 (me_app_now e) limit cursor
  end.

Definition FindAllDeferred (e : mysql_env) (t : tables) (limit : Z) (cursor : string) (order : SortOrder) :=
  match order with
  | Asc => findAllAsc e t Claimed (me_app_now e) i64_max limit cursor
  | Desc => findAllDesc e t Claimed (me_app_now e) 0 limit cursor
  end.

(** ** Pages *)

Definition row_less (order : SortOrder) : job_row -> job_row -> bool :=
  match order with
  | Asc => lex_less r_next_try r_job_id
  | Desc => flip_less (lex_less r_next_try r_job_id)
  end.

#[export] Instance row_less_order order : LessOrder (row_less order).
Proof. destruct order; apply _. Qed.

#[export] Instance inspected_less_order order : LessOrder (inspected_less order).
Proof. destruct order; apply _. Qed.

(** The page a sorted list of rows amounts to. *)
Definition page_of (rows : list job_row) (limit : Z) : InspectedJobs := {|
  ijs_Jobs := inspector_scan <$> take (Z.to_nat limit) rows;
  ijs_NextCursor := match rows !! Z.to_nat limit with
    | Some r => encode_cursor (r_next_try r) (r_job_id r)
    | None => EmptyString
    end;
|}.

(** The rows of a listing: those of a state that satisfy a condition, in order. *)
Definition inspected_rows (order : SortOrder) (status : job_status) (P : job_row -> bool) (t : tables)
    : list job_row :=
  sort_slice (row_less order)
    (filter (fun r => r_status r = status /\ P r = true) (map_to_list (t_jobs t)).*2).

Section page.
Context (e : mysql_env) (no_fault : forall k, me_fault e k = None)
  (order_perm : forall k l, me_order e k l ≡ₚ l) (no_others : forall t, me_others e t = t).
Context (t : tables) (t_ok : jobs_ok t)
  (times_ok : forall id r, t_jobs t !! id = Some r -> r_next_try r <= max_unix_ms).

Lemma elem_of_job_rows r : r ∈ (map_to_list (t_jobs t)).*2 <-> t_jobs t !! r_job_id r = Some r.
Proof.
  rewrite list_elem_of_fmap. split.
  - intros ([id r'] & -> & Hin%elem_of_map_to_list). simpl. by rewrite (ok_id _ _ _ (t_ok _ _ Hin)).
  - intros Hr. exists (r_job_id r, r). by rewrite elem_of_map_to_list.
Qed.

Lemma job_rows_distinct order l :
  (forall r, r ∈ l -> t_jobs t !! r_job_id r = Some r) -> distinguishes (row_less order) l.
Proof.
  intros Hl x y Hx%Hl Hy%Hl. unfold leq, row_less, flip_less, lex_less.
  destruct order; intros; assert (r_job_id x = r_job_id y) as E by lia; rewrite E, Hy in Hx; congruence.
Qed.

(** The database orders the rows as [inspected_rows] does. *)
Lemma query_rows k order status P :
  sort_slice (row_less order) (filter (fun r => r_status r = status /\ P r = true) (scan (me_order e k) (t_jobs t))) =
    inspected_rows order status P t.
Proof.
  apply sort_slice_unique; [apply _|..].
  - apply job_rows_distinct. intros r [_ Hr]%list_elem_of_filter. apply elem_of_job_rows.
    unfold scan in Hr. by rewrite order_perm in Hr.
  - unfold scan. by rewrite order_perm.
Qed.

Lemma elem_of_inspected_rows order status P r :
  r ∈ inspected_rows order status P t <->
    t_jobs t !! r_job_id r = Some r /\ r_status r = status /\ P r = true.
Proof.
  unfold inspected_rows. rewrite elem_of_sort_slice, list_elem_of_filter, elem_of_job_rows. naive_solver.
Qed.

Lemma inspected_rows_nodup order status P : NoDup (r_job_id <$> inspected_rows order status P t).
Proof.
  unfold inspected_rows. rewrite sort_slice_perm.
  eapply sublist_nodup_fmap; [apply sublist_filter|].
  apply (scan_ids_nodup (fun l => l) t); done.
Qed.

(** Selecting rows by their identifiers gives the rows back. *)
Lemma reselect_rows k order status P n :
  let page := take n (inspected_rows order status P t) in
  sql_grabbed_jobs (me_order e k) status (r_job_id <$> page) t ≡ₚ page.
Proof.
  intros page. apply NoDup_Permutation.
  - eapply NoDup_fmap_1. apply sql_grabbed_jobs_nodup; [apply order_perm|done].
  - eapply (NoDup_fmap_1 r_job_id). unfold page. rewrite fmap_take.
    eapply sublist_NoDup; [apply (inspected_rows_nodup order status P)|apply sublist_take].
  - assert (forall r, r ∈ page -> t_jobs t !! r_job_id r = Some r /\ r_status r = status) as Hpage.
    { intros r Hr. unfold page in Hr. apply elem_of_take in Hr as (i & Hr & _).
      apply list_elem_of_lookup_2, elem_of_inspected_rows in Hr. naive_solver. }
    intros r. rewrite (elem_of_sql_grabbed_jobs (me_order e k) (order_perm k)) by done. split.
    + intros (Hr & _ & (r' & E & Hr')%list_elem_of_fmap). destruct (Hpage r' Hr') as [Hr'' _]. congruence.
    + intros Hr. destruct (Hpage r Hr). split_and!; [done..|]. by apply list_elem_of_fmap_2.
Qed.

Lemma scan_next_try r :
  t_jobs t !! r_job_id r = Some r -> UnixNano (ij_NextTry (inspector_scan r)) = r_next_try r * ns_per_ms.
Proof.
  intros Hr. apply UnixNano_time_of_ms. pose proof (times_ok _ _ Hr).
  pose proof (row_fits_ranges _ (ok_fits _ _ _ (t_ok _ _ Hr))). word.
Qed.

(** Jobs compare as their rows do. *)
Lemma scan_less order x y :
  t_jobs t !! r_job_id x = Some x -> t_jobs t !! r_job_id y = Some y ->
  inspected_less order (inspector_scan x) (inspector_scan y) = row_less order x y.
Proof.
  intros Hx Hy. unfold inspected_less, row_less, flip_less, lex_less.
  destruct order; rewrite !scan_next_try by done; unfold ns_per_ms; simpl; lia.
Qed.

Lemma sorted_page k order status P n :
  let page := take n (inspected_rows order status P t) in
  sort_slice (inspected_less order) (inspector_scan <$> sql_grabbed_jobs (me_order e k) status (r_job_id <$> page) t) =
    inspector_scan <$> page.
Proof.
  intros page. assert (forall r, r ∈ page -> t_jobs t !! r_job_id r = Some r) as Hpage.
  { intros r Hr. unfold page in Hr. apply elem_of_take in Hr as (i & Hr & _).
    apply list_elem_of_lookup_2, elem_of_inspected_rows in Hr. naive_solver. }
  assert (sort_slice (inspected_less order) (inspector_scan <$> sql_grabbed_jobs (me_order e k) status (r_job_id <$> page) t)
    ≡ₚ inspector_scan <$> page) as Hperm.
  { rewrite sort_slice_perm. apply fmap_Permutation, reselect_rows. }
  eapply (StronglySorted_unique_strong (leq (inspected_less order))); [| |  |done].
  - intros x y Hx Hy Hxy Hyx. rewrite Hperm in Hx.
    apply list_elem_of_fmap in Hx as (rx & -> & Hx%Hpage), Hy as (ry & -> & Hy%Hpage).
    unfold leq in *. rewrite scan_less in Hxy, Hyx by done. f_equal.
    apply (job_rows_distinct order [rx; ry]); [|set_solver|set_solver|done|done].
    intros r. rewrite !elem_of_cons, elem_of_nil. naive_solver.
  - apply sort_slice_sorted, _.
  - assert (StronglySorted (leq (row_less order)) page) as Hs
      by apply StronglySorted_take, sort_slice_sorted, _.
    clear Hperm. clearbody page. induction Hs as [|r l Hs IH Hr]; [constructor|]. rewrite fmap_cons. constructor.
    + apply IH. intros x Hx. apply Hpage. set_solver.
    + apply Forall_forall. intros j (x & -> & Hx)%list_elem_of_fmap. unfold leq. rewrite scan_less.
      * by apply (proj1 (Forall_forall _ _) Hr).
      * apply Hpage. set_solver.
      * apply Hpage. set_solver.
Qed.

(** The second half of a listing, from the identifiers of one row more than the
    page has. *)
Lemma inspect_page_spec order status P limit :
  0 <= limit < max_inspected_slice ->
  inspect_page e order status t limit (r_job_id <$> takeZ (limit + 1) (inspected_rows order status P t)) =
    Some (Ok (page_of (inspected_rows order status P t) limit)).
Proof.
  intros Hl. unfold inspect_page. rewrite !no_fault, no_others, takeZ_take by lia.
  set (rows := inspected_rows order status P t).
  pose proof (sorted_page 1 order status P (Z.to_nat (limit + 1))) as Hsort. fold rows in Hsort. cbn zeta in Hsort.
  replace (Z.to_nat (limit + 1)) with (S (Z.to_nat limit)) in * by lia.
  assert (match r_job_id <$> take (S (Z.to_nat limit)) rows with
    | [] => Some (Ok {| ijs_Jobs := []; ijs_NextCursor := EmptyString |})
    | _ => Some (Ok (page_of rows limit)) end = Some (Ok (page_of rows limit) : result QueueError _)) as Hnil.
  { unfold page_of. clear Hsort. destruct rows as [|r rows']; [simpl; by rewrite take_nil|done]. }
  rewrite <- Hnil. destruct (r_job_id <$> take _ rows) as [|id ids] eqn:Eids; [done|].
  rewrite Hsort, length_fmap, length_take. unfold page_of.
  destruct (lt_dec (Z.to_nat limit) (length rows)) as [Hlt|Hge].
  - destruct (Z.ltb_spec limit (Z.of_nat (S (Z.to_nat limit) `min` length rows))); [|lia].
    destruct (lookup_lt_is_Some_2 rows (Z.to_nat limit) Hlt) as [r Hr]. rewrite Hr.
    rewrite list_lookup_fmap, lookup_take_lt, Hr by lia. simpl.
    rewrite <- fmap_take, take_take, Nat.min_l by lia. do 3 f_equal.
    assert (t_jobs t !! r_job_id r = Some r) as Hin
      by (apply list_elem_of_lookup_2, elem_of_inspected_rows in Hr; naive_solver).
    f_equal. apply unix_ms_time_of_ms. pose proof (times_ok _ _ Hin).
    pose proof (row_fits_ranges _ (ok_fits _ _ _ (t_ok _ _ Hin))). word.
  - destruct (Z.ltb_spec limit (Z.of_nat (S (Z.to_nat limit) `min` length rows))); [lia|].
    rewrite (lookup_ge_None_2 rows) by lia. do 3 f_equal. rewrite !take_ge by lia. done.
Qed.

(** The conditions of the two queries. *)
Definition asc_where (minTime maxTime minJobID : Z) (r : job_row) : bool :=
  (minTime <=? r_next_try r) && (r_next_try r <? maxTime) && (minJobID <=? r_job_id r).

Definition desc_where (minTime maxTime maxJobID : Z) (r : job_row) : bool :=
  (minTime <? r_next_try r) && (r_next_try r <=? maxTime) && (r_job_id r <=? maxJobID).

Lemma findAllAsc_page status minTime maxTime limit cursor :
  0 <= limit < max_inspected_slice -> minTime < i64_max ->
  let '(minTime', minJobID) := default (minTime, 0) (decode_cursor cursor) in
  findAllAsc e t status minTime maxTime limit cursor =
    Some (Ok (page_of (inspected_rows Asc status (asc_where minTime' maxTime minJobID) t) limit)).
Proof.
  intros Hl Hmin.
  assert (u64 (limit + 1) = limit + 1) as Hu by (apply u64_id; unfold max_inspected_slice in *; word).
  unfold findAllAsc. destruct (Z.leb_spec i64_max minTime); [lia|].
  assert (forall mt mj, sql_inspect_jobs_asc (me_order e 0) status mt maxTime mj (u64 (limit + 1)) t =
    r_job_id <$> takeZ (limit + 1) (inspected_rows Asc status (asc_where mt maxTime mj) t)) as Hq.
  { intros mt mj. rewrite <- (query_rows 0), Hu. unfold sql_inspect_jobs_asc. do 3 f_equal.
    apply list_filter_iff. intros r. unfold asc_where. rewrite !andb_true_iff, !Z.leb_le, Z.ltb_lt. tauto. }
  destruct (decode_cursor cursor) as [[mt mj]|]; cbn [default from_option id];
    (destruct (Z.ltb_spec max_inspected_slice (u64 (limit + 1))); [lia|]); rewrite no_fault, Hq;
    by apply inspect_page_spec.
Qed.

Lemma findAllDesc_page status minTime maxTime limit cursor :
  0 <= limit < max_inspected_slice ->
  let '(maxTime', maxJobID) :=
    default (if maxTime <=? 0 then i64_max else maxTime, u64_max) (decode_cursor cursor) in
  findAllDesc e t status minTime maxTime limit cursor =
    Some (Ok (page_of (inspected_rows Desc status (desc_where minTime maxTime' maxJobID) t) limit)).
Proof.
  intros Hl.
  assert (u64 (limit + 1) = limit + 1) as Hu by (apply u64_id; unfold max_inspected_slice in *; word).
  unfold findAllDesc. generalize (if maxTime <=? 0 then i64_max else maxTime). intros max.
  assert (forall mt mj, sql_inspect_jobs (me_order e 0) status minTime mt mj (u64 (limit + 1)) t =
    r_job_id <$> takeZ (limit + 1) (inspected_rows Desc status (desc_where minTime mt mj) t)) as Hq.
  { intros mt mj. rewrite <- (query_rows 0), Hu. unfold sql_inspect_jobs. do 3 f_equal.
    apply list_filter_iff. intros r. unfold desc_where. rewrite !andb_true_iff, !Z.leb_le, Z.ltb_lt. tauto. }
  destruct (decode_cursor cursor) as [[mt mj]|]; cbn [default from_option id];
    (destruct (Z.ltb_spec max_inspected_slice (u64 (limit + 1))); [lia|]); rewrite no_fault, Hq;
    by apply inspect_page_spec.
Qed.

(** Only the rows of the table matter to a condition. *)
Lemma inspected_rows_ext order status P Q :
  (forall r, t_jobs t !! r_job_id r = Some r -> P r = Q r) ->
  inspected_rows order status P t = inspected_rows order status Q t.
Proof.
  intros H. unfold inspected_rows. f_equal.
  assert (forall l : list job_row, (forall r, r ∈ l -> P r = Q r) ->
    filter (fun r => r_status r = status /\ P r = true) l = filter (fun r => r_status r = status /\ Q r = true) l) as Hf.
  { induction l as [|r l IH]; intros Hl; [done|]. rewrite !filter_cons, IH by set_solver.
    pose proof (Hl r (list_elem_of_here _ _)) as E. repeat case_decide; rewrite E in *; tauto. }
  apply Hf. intros r Hr%elem_of_job_rows. by apply H.
Qed.

(** What the listings are meant to have: jobs that are grabbed, waiting or deferred. *)
Inductive listing := LGrabbed | LWaiting | LDeferred.

Definition listing_status (l : listing) : job_status := match l with LGrabbed => Grabbed | _ => Claimed end.

Definition find_listing (l : listing) : Z -> string -> SortOrder -> option (result QueueError InspectedJobs) :=
  match l with
  | LGrabbed => FindAllGrabbed e t
  | LWaiting => FindAllWaiting e t
  | LDeferred => FindAllDeferred e t
  end.

(** The jobs that count at the time [now], and those a page from a cursor to a job
    and its time is restricted to. *)
Definition in_listing (l : listing) (order : SortOrder) (cursor : string) (now : Z) (r : job_row) : bool :=
  match order, decode_cursor cursor with
  | Asc, None => match l with LDeferred => now <=? r_next_try r | _ => r_next_try r <? now end
  | Asc, Some (time, job_id) =>
      (time <=? r_next_try r) && (job_id <=? r_job_id r) &&
      match l with LDeferred => true | _ => r_next_try r <? now end
  | Desc, None => match l with LDeferred => now <? r_next_try r | _ => (0 <? r_next_try r) && (r_next_try r <=? now) end
  | Desc, Some (time, job_id) =>
      (r_next_try r <=? time) && (r_job_id r <=? job_id) &&
      match l with LDeferred => now <? r_next_try r | _ => 0 <? r_next_try r end
  end.

(** C36 (functional): the pages of the three listings.  In either order, and from
    any cursor or none, [FindAllGrabbed], [FindAllWaiting] and [FindAllDeferred]
    return the first [limit] jobs, in order, of the jobs in the state that the
    listing is for, and a cursor that names the next of these jobs exactly when
    there is one.  Without a cursor these are the jobs that were due before now (in
    descending order, those due by now after time 0), or for deferred jobs those
    due later.  From a cursor they are those not before it in time, and, because
    the queries restrict the identifier apart from the time, not before it in
    identifier either; this is why following the cursors can miss jobs. *)
Theorem inspector_page_correct l limit cursor order :
  0 <= limit < max_inspected_slice -> 0 < me_app_now e < i64_max ->
  find_listing l limit cursor order =
    Some (Ok (page_of (inspected_rows order (listing_status l) (in_listing l order cursor (me_app_now e)) t) limit)).
Proof.
  intros Hl Hnow.
  assert (forall r, t_jobs t !! r_job_id r = Some r -> 0 <= r_next_try r < i64_max /\ 0 <= r_job_id r <= u64_max) as Hr.
  { intros r Hr. pose proof (times_ok _ _ Hr). pose proof (row_fits_ranges _ (ok_fits _ _ _ (t_ok _ _ Hr))).
    unfold max_unix_ms in *. word. }
  destruct order, l; cbn [find_listing FindAllGrabbed FindAllWaiting FindAllDeferred listing_status];
    match goal with
    | |- context [findAllAsc e t ?s ?a ?b limit cursor] => pose proof (findAllAsc_page s a b limit cursor Hl ltac:(lia)) as H
    | |- context [findAllDesc e t ?s ?a ?b limit cursor] => pose proof (findAllDesc_page s a b limit cursor Hl) as H
    end;
    destruct (decode_cursor cursor) as [[time job_id]|] eqn:Ec; cbn [default from_option id] in H; rewrite H;
    do 3 f_equal; apply inspected_rows_ext; intros r Hin; pose proof (Hr r Hin);
    unfold in_listing, asc_where, desc_where; rewrite Ec; unfold i64_max, u64_max in *;
    repeat match goal with |- context [?a <=? 0] => destruct (Z.leb_spec a 0) end; lia.
Qed.
End page.
End inspector.

(** ** Concrete listings *)

Section runs.
Definition waiting_row (id next_try : Z) : job_row := {|
  r_job_id := id; r_next_try := next_try; r_grabber_id := None; r_status := Claimed; r_created_at := 50;
  r_retry_count := 0; r_retry_delay := 0; r_fail_count := 0; r_category := "c"; r_url := "u";
  r_payload := "p"; r_timeout := 0; r_failure_url := None;
|}.

(** Job 9 was delayed until after job 3, and job 5 is due before both. *)
Definition three_jobs : tables := {|
  t_jobs := {[ 9 := waiting_row 9 200; 3 := waiting_row 3 150; 5 := waiting_row 5 100 ]};
  t_next_job_id := 10; t_failures := ∅; t_next_failure_id := 1;
|}.

Lemma three_jobs_ok : jobs_ok three_jobs.
Proof. apply jobs_ok_decide. vm_compute. reflexivity. Defined.

Lemma three_jobs_times id r : t_jobs three_jobs !! id = Some r -> r_next_try r <= max_unix_ms.
Proof.
  assert (bool_decide (map_Forall (fun _ r => r_next_try r <= max_unix_ms) (t_jobs three_jobs)) = true) as Hall
    by (vm_compute; reflexivity).
  rewrite bool_decide_eq_true in Hall. apply Hall.
Defined.

Local Abbreviation page cursor :=
  (FindAllWaiting (fun _ => true) (fun s => s) env0 three_jobs 1 cursor Desc).

Definition page_ids (p : option (result QueueError InspectedJobs)) : list Z :=
  match p with Some (Ok p) => ij_ID <$> ijs_Jobs p | _ => [] end.

Definition page_next (p : option (result QueueError InspectedJobs)) : string :=
  match p with Some (Ok p) => ijs_NextCursor p | _ => EmptyString end.

Definition env120 : mysql_env := env_at 120 id true.

(** Two jobs are due after time 120, and the cursor names the second. *)
Lemma inspector_page_correct_witness :
  exists p, FindAllDeferred (fun _ => true) (fun s => s) env120 three_jobs 1 EmptyString Desc = Some (Ok p) /\
    ij_ID <$> ijs_Jobs p = [9] /\ ijs_NextCursor p = encode_cursor 150 3.
Proof.
  pose proof (inspector_page_correct (fun _ => true) (fun s => s) env120 (fun _ => eq_refl) (fun _ l => reflexivity l)
    (fun _ => eq_refl) three_jobs three_jobs_ok three_jobs_times LDeferred 1 EmptyString Desc
    ltac:(unfold max_inspected_slice; lia) ltac:(cbn; word)) as H.
  eexists. split; [exact H|]. split; vm_compute; reflexivity.
Defined.

(** The pages of a listing of jobs can miss jobs.  The condition on
    the identifier applies to every row and not only to those with the time of
    the cursor: with one job per page, the second page of this queue is the
    last, and job 5 is on none, although a single page has all three jobs. *)
Theorem inspector_paging_misses_jobs :
  let p1 := page EmptyString in
  let p2 := page (page_next p1) in
  page_ids p1 = [9] /\ page_ids p2 = [3] /\ page_next p2 = EmptyString /\
  page_ids (FindAllWaiting (fun _ => true) (fun s => s) env0 three_jobs 3 EmptyString Desc) = [9; 3; 5].
Proof. vm_compute. done. Qed.
End runs.
