(* ===== verification/Activator.v ===== *)
(** * Choosing the primary node (src/jobqueue/mysql/activator.go)

    The nodes of a cluster that watch the same queue compete for a named lock of
    the database; the node that holds it is the primary.  Each node runs an
    activator, a goroutine that checks and takes the lock; the lock belongs to a
    connection and goes away with it.  The model has any number of nodes and the
    lock of the server; a step is a step of one activator, a call of [stop], or
    the loss of a connection.  Queries can fail, with or without effect on the
    server, and the connection pool replaces a lost connection silently. *)

From S2P Require Import Prelude.
Local Open Scope Z_scope.

(** ** State *)

(** Where the activator of a node is. *)
Inductive activator_pc :=
| ALoop          (* about to call [activate] *)
| AHasLock       (* in [activate], about to query the holder of the lock *)
| AGetLock       (* in [activate], about to take the lock *)
| AActivating    (* in [activate], running [onActivating] *)
| AExit          (* out of the loop, about to disconnect *)
| ADone.         (* [stoppedC] has been sent to *)

Record activator := {
  a_pc : activator_pc;
  a_stopped : bool;
  a_active : Z;
  a_db : option Z;   (* the connection of the pool, which has at most one *)
}.

Record cluster := {
  c_nodes : list activator;
  c_holder : option Z;    (* the connection that holds the lock *)
  c_dead : gset Z;        (* connections the server has closed *)
  c_next : Z;             (* identifier of the next connection *)
}.

Definition startActivator : activator :=
  {| a_pc := ALoop; a_stopped := false; a_active := -1; a_db := None |}.

Definition start_cluster (n : nat) : cluster :=
  {| c_nodes := replicate n startActivator; c_holder := None; c_dead := ∅; c_next := 0 |}.

Definition isActive (a : activator) : bool := 0 <? a_active a.

(** ** Steps *)

(** Outcome of [SELECT IS_USED_LOCK(?) = CONNECTION_ID()]: an error (also when
    the lock is free, which gives NULL), or an answer, from the connection of the
    pool or from a new one that replaced a lost one. *)
Inductive has_reply := HasError | HasAnswer (reconnected : bool).

(** Outcome of [getLock]: it found the activator stopped, an error or NULL, a
    cancellation by [stop], or an answer.  The lock may have been granted without
    an answer, on the connection of the pool or on a new one. *)
Inductive get_reply :=
| GetStopped
| GetError (granted : option bool)
| GetCanceled (granted : option bool)
| GetAnswer (reconnected : bool).

Inductive alabel :=
| Begin (open_ok : bool)      (* [activate] reads [stopped] and connects *)
| HasLock (r : has_reply)
| GetLock (r : get_reply)
| Activated                   (* [onActivating] returns *)
| Exit                        (* the end of [loop] *)
| StopCall.                   (* [stop] *)

Definition with_node (i : nat) (a : activator) (s : cluster) : cluster :=
  {| c_nodes := <[i := a]> (c_nodes s); c_holder := c_holder s; c_dead := c_dead s; c_next := c_next s |}.

Definition with_holder (h : option Z) (s : cluster) : cluster :=
  {| c_nodes := c_nodes s; c_holder := h; c_dead := c_dead s; c_next := c_next s |}.

Definition new_conn (s : cluster) : cluster :=
  {| c_nodes := c_nodes s; c_holder := c_holder s; c_dead := c_dead s; c_next := c_next s + 1 |}.

(** The connection a query runs on: the one of the pool when it is alive, a new
    one when it is not. *)
Definition query_conn (reconnected : bool) (c : Z) (s : cluster) : option (Z * cluster) :=
  if reconnected then if decide (c ∈ c_dead s) then Some (c_next s, new_conn s) else None
  else if decide (c ∈ c_dead s) then None else Some (c, s).

(** The server grants the lock when it is free or already held by the same
    connection. *)
Definition lock_free_for (c : Z) (s : cluster) : bool :=
  match c_holder s with None => true | Some h => h =? c end.

Definition grant (granted : option bool) (c : Z) (s : cluster) : option (Z * cluster) :=
  match granted with
  | None => Some (c, s)
  | Some reconnected =>
      '(c', s') ← query_conn reconnected c s;
      if lock_free_for c' s' then Some (c', with_holder (Some c') s') else None
  end.

(** One step of the activator of node [i]. *)
Definition activator_step (i : nat) (l : alabel) (s : cluster) : option cluster :=
  a ← c_nodes s !! i;
  match l, a_pc a with
  | Begin open_ok, ALoop =>
      if a_stopped a then
        Some (with_node i {| a_pc := AExit; a_stopped := a_stopped a; a_active := a_active a; a_db := a_db a |} s)
      else match a_db a with
      | Some c =>
          Some (with_node i {| a_pc := AHasLock; a_stopped := a_stopped a; a_active := a_active a; a_db := Some c |} s)
      | None =>
          if open_ok then
            Some (with_node i {| a_pc := AHasLock; a_stopped := a_stopped a; a_active := a_active a;
                                 a_db := Some (c_next s) |} (new_conn s))
          else Some s
      end
  | HasLock r, AHasLock =>
      c ← a_db a;
      '(answer, c', s') ←
        match r with
        | HasError => Some (false, c, s)
        | HasAnswer reconnected =>
            '(c', s') ← query_conn reconnected c s;
            Some (bool_decide (c_holder s' = Some c'), c', s')
        end;
      if (answer : bool) then
        Some (with_node i {| a_pc := ALoop; a_stopped := a_stopped a; a_active := 1; a_db := Some c' |} s')
      else
        Some (with_node i {| a_pc := AGetLock; a_stopped := a_stopped a; a_active := 0; a_db := Some c' |} s')
  | GetLock r, AGetLock =>
      c ← a_db a;
      match r with
      | GetStopped =>
          if a_stopped a then
            Some (with_node i {| a_pc := AExit; a_stopped := true; a_active := a_active a; a_db := Some c |} s)
          else None
      | GetError granted =>
          '(_, s') ← grant granted c s;
          Some (with_node i {| a_pc := ALoop; a_stopped := a_stopped a; a_active := a_active a; a_db := None |} s')
      | GetCanceled granted =>
          if a_stopped a then
            '(c', s') ← grant granted c s;
            Some (with_node i {| a_pc := AExit; a_stopped := true; a_active := a_active a; a_db := Some c' |} s')
          else None
      | GetAnswer reconnected =>
          '(c', s') ← query_conn reconnected c s;
          if lock_free_for c' s' then
            Some (with_node i {| a_pc := AActivating; a_stopped := a_stopped a; a_active := a_active a; a_db := Some c' |}
                    (with_holder (Some c') s'))
          else
            Some (with_node i {| a_pc := ALoop; a_stopped := a_stopped a; a_active := a_active a; a_db := Some c' |} s')
      end
  | Activated, AActivating =>
      Some (with_node i {| a_pc := ALoop; a_stopped := a_stopped a; a_active := 1; a_db := a_db a |} s)
  | Exit, AExit =>
      Some (with_node i {| a_pc := ADone; a_stopped := a_stopped a; a_active := 0; a_db := None |} s)
  | StopCall, pc =>
      Some (with_node i {| a_pc := pc; a_stopped := true; a_active := a_active a; a_db := a_db a |} s)
  | _, _ => None
  end.

(** The server closes a connection and releases its lock. *)
Definition kill_conn (c : Z) (s : cluster) : cluster := {|
  c_nodes := c_nodes s;
  c_holder := if decide (c_holder s = Some c) then None else c_holder s;
  c_dead := {[ c ]} ∪ c_dead s;
  c_next := c_next s;
|}.

Inductive cluster_reachable (n : nat) : cluster -> Prop :=
| cr_start : cluster_reachable n (start_cluster n)
| cr_step s i l s' : cluster_reachable n s -> activator_step i l s = Some s' -> cluster_reachable n s'
| cr_kill s c : cluster_reachable n s -> c < c_next s -> cluster_reachable n (kill_conn c s).

(** ** Invariant *)

(** A primary, or a node about to become one, holds the lock as long as its
    connection is alive; conversely a node whose connection holds the lock is
    the primary or about to become it. *)
Record node_ok (s : cluster) (a : activator) : Prop := {
  no_conn : forall c, a_db a = Some c -> c < c_next s;
  no_primary : 0 < a_active a \/ a_pc a = AActivating ->
    exists c, a_db a = Some c /\ (c ∉ c_dead s -> c_holder s = Some c);
  no_lock : forall c, a_db a = Some c -> c_holder s = Some c ->
    a_active a = 1 \/ a_pc a = AGetLock \/ a_pc a = AActivating \/ a_pc a = AExit;
  no_backup : a_pc a = AGetLock \/ a_pc a = AActivating -> a_active a = 0;
  no_done : a_pc a = ADone -> a_active a = 0;
  no_db : a_pc a = AHasLock \/ a_pc a = AGetLock -> is_Some (a_db a);
}.

Record cluster_ok (s : cluster) : Prop := {
  co_nodes : forall i a, c_nodes s !! i = Some a -> node_ok s a;
  co_distinct : forall i j a b c, c_nodes s !! i = Some a -> c_nodes s !! j = Some b ->
    a_db a = Some c -> a_db b = Some c -> i = j;
  co_holder : forall c, c_holder s = Some c -> c < c_next s /\ c ∉ c_dead s;
  co_dead : forall c, c ∈ c_dead s -> c < c_next s;
}.

(** What a step of node [a] may do to the server: nothing, a new connection, or
    a grant to the connection of the node or to the new one. *)
Record server_step (s s' : cluster) (a : activator) : Prop := {
  ss_nodes : c_nodes s' = c_nodes s;
  ss_dead : c_dead s' = c_dead s;
  ss_next : c_next s <= c_next s';
  ss_holder : c_holder s' = c_holder s \/
    exists c, c_holder s' = Some c /\ (c_holder s = None \/ c_holder s = Some c) /\
      c ∉ c_dead s /\ (a_db a = Some c \/ c = c_next s /\ c_next s < c_next s');
}.

Lemma other_ok s s' i j a b :
  cluster_ok s -> server_step s s' a -> c_nodes s !! i = Some a -> c_nodes s !! j = Some b -> i <> j ->
  node_ok s' b.
Proof.
  intros [Hn Hd Hh Hde] [_ Ed Hnx Hho] Ha Hb Hij. destruct (Hn j b Hb) as [H1 H2 H3 H4 H5 H6].
  assert (forall c, c_holder s' = Some c -> a_db b = Some c -> c_holder s = Some c) as Hkeep.
  { intros c Ec Edb. destruct Hho as [E|(c' & E & Hfree & _ & Hown)]; [congruence|].
    assert (c' = c) as -> by congruence. destruct Hown as [Hown|[-> _]].
    - exfalso. apply Hij. by apply (Hd i j a b c).
    - specialize (H1 _ Edb). lia. }
  split; try done.
  - intros c Ec. specialize (H1 c Ec). lia.
  - intros Hp. destruct (H2 Hp) as (c & Ec & Hc). exists c. split; [done|]. rewrite Ed. intros Hnd.
    specialize (Hc Hnd). destruct Hho as [E|(c' & E & [Hfree|Hfree] & _)]; congruence.
  - intros c Ec Eh. apply (H3 c Ec). by apply Hkeep.
Qed.

(** One node moves and the server with it. *)
Lemma move_ok s s' i a a' :
  cluster_ok s -> server_step s s' a -> c_nodes s !! i = Some a -> node_ok s' a' ->
  (forall c, a_db a' = Some c -> a_db a = Some c \/ c = c_next s /\ c_next s < c_next s') ->
  cluster_ok (with_node i a' s').
Proof.
  intros Hok Hs Ha Ha' Hdb. pose proof Hok as [Hn Hd Hh Hde]. pose proof Hs as [En Ed Hnx Hho].
  assert (forall j b, j <> i -> c_nodes s' !! j = Some b -> node_ok s' b /\ c_nodes s !! j = Some b) as Hoth.
  { intros j b Hji Hb. rewrite En in Hb. split; [|done]. by apply (other_ok s s' i j a b). }
  assert (forall j b c, j <> i -> c_nodes s' !! j = Some b -> a_db b = Some c -> a_db a' <> Some c) as Hne.
  { intros j b c Hji Hb Eb Ec. destruct (Hoth j b Hji Hb) as [_ Hb0].
    destruct (Hdb c Ec) as [Ea|[-> _]]; [by apply Hji, (Hd j i b a c)|].
    pose proof (no_conn _ _ (Hn j b Hb0) _ Eb). lia. }
  assert (forall j b, <[i := a']> (c_nodes s') !! j = Some b ->
    (j = i /\ b = a') \/ (j <> i /\ c_nodes s' !! j = Some b)) as Hcase.
  { intros j b Hb. destruct (decide (j = i)) as [->|Hji].
    - rewrite list_lookup_insert_eq in Hb by (rewrite En; by eapply lookup_lt_Some). left. split; [done|congruence].
    - rewrite list_lookup_insert_ne in Hb by done. by right. }
  split; simpl.
  - intros j b [[-> ->]|[Hji Hb]]%Hcase.
    + by destruct Ha'; split.
    + destruct (Hoth j b Hji Hb) as [Hb' _]. by destruct Hb'; split.
  - intros j k b d c [[-> ->]|[Hji Hb]]%Hcase [[-> ->]|[Hki Hk]]%Hcase Eb Ek; [done| | |].
    + exfalso. by apply (Hne k d c).
    + exfalso. by apply (Hne j b c).
    + rewrite En in Hb, Hk. by apply (Hd j k b d c).
  - intros c Ec. rewrite Ed. destruct Hho as [E|(c' & E & _ & Hnd & Hown)].
    + rewrite E in Ec. destruct (Hh c Ec). split; [lia|done].
    + assert (c' = c) as -> by congruence. split; [|done].
      destruct Hown as [Hown|[-> ?]]; [|lia]. pose proof (no_conn _ _ (Hn i a Ha) _ Hown). lia.
  - intros c. rewrite Ed. intros Hc%Hde. lia.
Qed.

Lemma server_step_refl s a : server_step s s a.
Proof. split; try done. by left. Qed.

Lemma query_conn_spec r c s c' s' a :
  cluster_ok s -> a_db a = Some c -> c < c_next s -> query_conn r c s = Some (c', s') ->
  server_step s s' a /\ c_holder s' = c_holder s /\ c' ∉ c_dead s' /\ c' < c_next s' /\
  (a_db a = Some c' \/ c' = c_next s /\ c_next s < c_next s').
Proof.
  intros Hok Ea Hc E. unfold query_conn in E. destruct r; case_decide as Hd; simplify_eq; simpl.
  - split_and!; [split; simpl; [done|done|lia|by left]|done| |lia|right; lia].
    intros Hin%(co_dead _ Hok). lia.
  - split_and!; [apply server_step_refl|done|done|lia|by left].
Qed.

(** Granting the lock on a connection of the node. *)
Lemma grant_step s s' c a :
  server_step s s' a -> c_holder s' = c_holder s -> c ∉ c_dead s' -> lock_free_for c s' = true ->
  (a_db a = Some c \/ c = c_next s /\ c_next s < c_next s') ->
  server_step s (with_holder (Some c) s') a.
Proof.
  intros [En Ed Hnx _] Eh Hnd Hfree Hown. split; simpl; try done. right. exists c.
  rewrite <- Ed, <- Eh. unfold lock_free_for in Hfree.
  split_and!; [done| |done|done]. destruct (c_holder s') as [h|]; [right; f_equal; lia|by left].
Qed.

Lemma grant_spec g c s c' s' a :
  cluster_ok s -> a_db a = Some c -> c < c_next s -> grant g c s = Some (c', s') ->
  server_step s s' a /\ c' < c_next s' /\ (a_db a = Some c' \/ c' = c_next s /\ c_next s < c_next s').
Proof.
  intros Hok Ea Hc E. unfold grant in E. destruct g as [r|].
  - destruct (query_conn r c s) as [[c1 s1]|] eqn:Eq; [|done]. simpl in E.
    destruct (query_conn_spec r c s c1 s1 a Hok Ea Hc Eq) as (Hs & Eh & Hnd & Hlt & Hown).
    destruct (lock_free_for c1 s1) eqn:Ef; [|done]. injection E as <- <-.
    split_and!; [by apply grant_step|done|done].
  - injection E as <- <-. split_and!; [apply server_step_refl|lia|by left].
Qed.

(** Steps that only touch the node. *)
Lemma local_ok s i a a' :
  cluster_ok s -> c_nodes s !! i = Some a -> node_ok s a' ->
  (forall c, a_db a' = Some c -> a_db a = Some c) -> cluster_ok (with_node i a' s).
Proof. intros Hok Ha Ha' Hdb. apply (move_ok s s i a a'); eauto using server_step_refl. Qed.

(** The invariant of a node after it moved, by cases. *)
Local Ltac node_ok :=
  split; simpl; intros;
  repeat match goal with H : _ \/ _ |- _ => destruct H end; simplify_eq; try done; try lia; eauto 6.

Lemma step_Begin s i a ok s' :
  cluster_ok s -> c_nodes s !! i = Some a -> a_pc a = ALoop ->
  activator_step i (Begin ok) s = Some s' -> cluster_ok s'.
Proof.
  intros Hok Ha Epc E. unfold activator_step in E. rewrite Ha in E. simpl in E. rewrite Epc in E.
  pose proof (co_nodes _ Hok i a Ha) as [H1 H2 H3 H4 H5 H6].
  destruct (a_stopped a).
  - injection E as <-. apply (local_ok s i a); [done|done| |done].
    node_ok.
  - destruct (a_db a) as [c|] eqn:Edb.
    + injection E as <-. apply (local_ok s i a); [done|done| |simpl; congruence].
      node_ok. destruct (H3 c0 eq_refl ltac:(done)) as [?|[?|[?|?]]]; auto; congruence.
    + destruct ok; injection E as <-; [|done].
      apply (move_ok s (new_conn s) i a); [done|split; simpl; [done|done|lia|by left]|done| |].
      * split; simpl; try done.
        -- intros c [= <-]. lia.
        -- intros [Hp|Hp]; [|done]. exfalso. destruct (H2 (or_introl Hp)) as (c & Ec & _). congruence.
        -- intros c [= <-] Hh. destruct (co_holder _ Hok _ Hh). lia.
        -- by intros [?|?].
      * simpl. intros c [= <-]. right. lia.
Qed.

Lemma step_HasLock s i a r s' :
  cluster_ok s -> c_nodes s !! i = Some a -> a_pc a = AHasLock ->
  activator_step i (HasLock r) s = Some s' -> cluster_ok s'.
Proof.
  intros Hok Ha Epc E. unfold activator_step in E. rewrite Ha in E. simpl in E. rewrite Epc in E.
  pose proof (co_nodes _ Hok i a Ha) as [H1 H2 H3 H4 H5 H6].
  destruct (a_db a) as [c|] eqn:Edb; [|done]. simpl in E. specialize (H1 c eq_refl).
  destruct r as [|rc]; simpl in E.
  - injection E as <-. apply (local_ok s i a); [done|done| |simpl; congruence].
    node_ok.
  - destruct (query_conn rc c s) as [[c1 s1]|] eqn:Eq; [|done]. simpl in E.
    destruct (query_conn_spec rc c s c1 s1 a Hok Edb H1 Eq) as (Hs & Eh & Hnd & Hlt & Hown).
    case_bool_decide as Hans; injection E as <-; (apply (move_ok s s1 i a); [done|done|done| |]); simpl.
    + node_ok.
    + by intros c' [= <-].
    + node_ok.
    + by intros c' [= <-].
Qed.

Lemma step_GetLock s i a r s' :
  cluster_ok s -> c_nodes s !! i = Some a -> a_pc a = AGetLock ->
  activator_step i (GetLock r) s = Some s' -> cluster_ok s'.
Proof.
  intros Hok Ha Epc E. unfold activator_step in E. rewrite Ha in E. simpl in E. rewrite Epc in E.
  pose proof (co_nodes _ Hok i a Ha) as [H1 H2 H3 H4 H5 H6].
  specialize (H4 ltac:(by left)).
  destruct (a_db a) as [c|] eqn:Edb; [|done]. simpl in E. specialize (H1 c eq_refl).
  destruct r as [|g|g|rc]; simpl in E.
  - destruct (a_stopped a); [|done]. injection E as <-. apply (local_ok s i a); [done|done| |simpl; congruence].
    node_ok.
  - destruct (grant g c s) as [[c1 s1]|] eqn:Eg; [|done]. injection E as <-.
    destruct (grant_spec g c s c1 s1 a Hok Edb H1 Eg) as (Hs & Hlt & Hown).
    apply (move_ok s s1 i a); [done|done|done| |done].
    node_ok.
  - destruct (a_stopped a); [|done]. destruct (grant g c s) as [[c1 s1]|] eqn:Eg; [|done]. injection E as <-.
    destruct (grant_spec g c s c1 s1 a Hok Edb H1 Eg) as (Hs & Hlt & Hown).
    apply (move_ok s s1 i a); [done|done|done| |simpl; intros; simplify_eq; auto].
    node_ok.
  - destruct (query_conn rc c s) as [[c1 s1]|] eqn:Eq; [|done]. simpl in E.
    destruct (query_conn_spec rc c s c1 s1 a Hok Edb H1 Eq) as (Hs & Eh & Hnd & Hlt & Hown).
    destruct (lock_free_for c1 s1) eqn:Ef; injection E as <-.
    + apply (move_ok s (with_holder (Some c1) s1) i a); [done|by apply grant_step|done| |simpl; intros; simplify_eq; auto].
      node_ok.
    + apply (move_ok s s1 i a); [done|done|done| |simpl; intros; simplify_eq; auto].
      assert (c_holder s1 <> Some c1) as Hnh.
      { intros Hh. unfold lock_free_for in Ef. rewrite Hh in Ef. lia. }
      node_ok.
Qed.

Lemma step_rest s i a l s' :
  cluster_ok s -> c_nodes s !! i = Some a -> activator_step i l s = Some s' ->
  match l with Activated | Exit | StopCall => True | _ => False end -> cluster_ok s'.
Proof.
  intros Hok Ha E Hl. unfold activator_step in E. rewrite Ha in E. simpl in E.
  pose proof (co_nodes _ Hok i a Ha) as [H1 H2 H3 H4 H5 H6].
  destruct l; try done.
  - destruct (a_pc a) eqn:Epc; try done. injection E as <-. apply (local_ok s i a); [done|done| |done].
    node_ok.
  - destruct (a_pc a) eqn:Epc; try done. injection E as <-. apply (local_ok s i a); [done|done| |done].
    node_ok.
  - injection E as <-. apply (local_ok s i a); [done|done| |done]. by split.
Qed.

Lemma activator_step_ok s i l s' : cluster_ok s -> activator_step i l s = Some s' -> cluster_ok s'.
Proof.
  intros Hok E. destruct (c_nodes s !! i) as [a|] eqn:Ha; [|unfold activator_step in E; by rewrite Ha in E].
  destruct l; try (by eapply step_rest); pose proof E as E'; unfold activator_step in E'; rewrite Ha in E'; simpl in E';
    destruct (a_pc a) eqn:Epc; try discriminate E'; eauto using step_Begin, step_HasLock, step_GetLock.
Qed.

Lemma kill_conn_ok s c : cluster_ok s -> c < c_next s -> cluster_ok (kill_conn c s).
Proof.
  intros [Hn Hd Hh Hde] Hc. split; simpl.
  - intros i a Ha. destruct (Hn i a Ha) as [H1 H2 H3 H4 H5 H6]. split; simpl; try done.
    + intros Hp. destruct (H2 Hp) as (c' & Ec & Hc'). exists c'. split; [done|]. intros Hnd.
      rewrite decide_False; [apply Hc'; set_solver|]. intros E. rewrite E in Hc'. set_solver.
    + intros c' Ec. case_decide; [done|]. by apply H3.
  - done.
  - intros c'. case_decide as E; [done|]. intros Ec. destruct (Hh c' Ec). split; [done|].
    apply not_elem_of_union. split; [|done]. rewrite elem_of_singleton. congruence.
  - intros c' [->%elem_of_singleton|Hc']%elem_of_union; [done|by apply Hde].
Qed.

Lemma reachable_cluster_ok n s : cluster_reachable n s -> cluster_ok s.
Proof.
  induction 1 as [|s i l s' _ IH E|s c _ IH Hc]; [|by eapply activator_step_ok|by apply kill_conn_ok].
  split; simpl.
  - intros i a [-> _]%lookup_replicate. node_ok.
  - intros i j a b c [-> _]%lookup_replicate. done.
  - done.
  - set_solver.
Qed.

(** ** Theorems *)

(** A node acts as the primary when it is active, or recovers jobs to become so. *)
Definition acts_as_primary (a : activator) : Prop := isActive a = true \/ a_pc a = AActivating.

Lemma acts_holds s a :
  node_ok s a -> acts_as_primary a -> exists c, a_db a = Some c /\ (c ∉ c_dead s -> c_holder s = Some c).
Proof.
  intros Hok [Ha|Ha]; apply (no_primary _ _ Hok); [left|by right]. unfold isActive in Ha. lia.
Qed.

Lemma with_node_has s s1 i a x (P : activator -> Prop) :
  c_nodes s !! i = Some a -> c_nodes s1 = c_nodes s -> P x ->
  exists a', c_nodes (with_node i x s1) !! i = Some a' /\ P a'.
Proof.
  intros Ha En Hx. exists x. split; [|done]. simpl. rewrite En.
  apply list_lookup_insert_eq. by eapply lookup_lt_Some.
Qed.

Lemma query_conn_nodes r c s c' s' : query_conn r c s = Some (c', s') -> c_nodes s' = c_nodes s.
Proof. intros E. unfold query_conn in E. repeat case_match; by simplify_eq. Qed.

Lemma grant_nodes g c s c' s' : grant g c s = Some (c', s') -> c_nodes s' = c_nodes s.
Proof.
  intros E. destruct g as [r|]; simpl in E; [|by simplify_eq].
  destruct (query_conn r c s) as [[c1 s1]|] eqn:Eq; [|done]. simpl in E.
  destruct (lock_free_for c1 s1); simplify_eq. simpl. by eapply query_conn_nodes.
Qed.

(** What a step does to the activity of its node: nothing, a demotion, or a
    promotion, by [onActivating] or by finding the lock held already. *)
Lemma step_activity s i l s' a :
  cluster_ok s -> c_nodes s !! i = Some a -> activator_step i l s = Some s' ->
  exists a', c_nodes s' !! i = Some a' /\
    (a_active a' = a_active a \/ a_active a' = 0 \/ l = Activated \/
     a_pc a = AHasLock /\ exists c, a_db a = Some c /\ c_holder s = Some c).
Proof.
  intros Hok Ha E. pose proof (co_nodes _ Hok i a Ha) as Hi.
  pose proof (fun s1 x P => with_node_has s s1 i a x P Ha) as Hset.
  unfold activator_step in E. rewrite Ha in E. simpl in E.
  destruct l as [ok|r|r| | |];
    [| | |destruct (a_pc a); try discriminate E; injection E as <-; apply Hset; simpl; auto..].
  - destruct (a_pc a); try discriminate E.
    destruct (a_stopped a), (a_db a), ok; injection E as <-; try (apply Hset; simpl; auto). eauto.
  - destruct (a_pc a) eqn:Epc; try discriminate E. destruct (a_db a) as [c|] eqn:Edb; [|done]. simpl in E.
    destruct r as [|rc]; simpl in E; [injection E as <-; apply Hset; simpl; auto|].
    destruct (query_conn rc c s) as [[c1 s1]|] eqn:Eq; [|done]. simpl in E.
    destruct (query_conn_spec rc c s c1 s1 a Hok Edb (no_conn _ _ Hi c Edb) Eq) as ([En _ _ _] & Eh & _ & _ & Hown).
    case_bool_decide as Hans; injection E as <-; apply Hset; simpl; auto.
    rewrite Eh in Hans. right. right. right. split; [done|].
    destruct Hown as [Hown|[-> _]]; [exists c1; split; congruence|destruct (co_holder _ Hok _ Hans); lia].
  - destruct (a_pc a) eqn:Epc; try discriminate E. destruct (a_db a) as [c|] eqn:Edb; [|done]. simpl in E.
    pose proof (no_conn _ _ Hi c Edb) as Hc. destruct r as [|g|g|rc]; simpl in E.
    + destruct (a_stopped a); [|done]. injection E as <-. apply Hset; simpl; auto.
    + destruct (grant g c s) as [[c1 s1]|] eqn:Eg; [|done]. injection E as <-.
      destruct (grant_spec g c s c1 s1 a Hok Edb Hc Eg) as ([En _ _ _] & _). apply Hset; simpl; auto.
    + destruct (a_stopped a); [|done]. destruct (grant g c s) as [[c1 s1]|] eqn:Eg; [|done]. injection E as <-.
      destruct (grant_spec g c s c1 s1 a Hok Edb Hc Eg) as ([En _ _ _] & _). apply Hset; simpl; auto.
    + destruct (query_conn rc c s) as [[c1 s1]|] eqn:Eq; [|done]. simpl in E.
      destruct (query_conn_spec rc c s c1 s1 a Hok Edb Hc Eq) as ([En _ _ _] & _).
      destruct (lock_free_for c1 s1); injection E as <-; apply Hset; simpl; auto.
Qed.

(** C37 (safety): at most one node with a live connection acts as the primary:
    when two do, the server has closed the connection of one of them (which finds
    out at its next check, within the activation interval). *)
Theorem activator_primary_unique n s i j a b :
  cluster_reachable n s -> c_nodes s !! i = Some a -> c_nodes s !! j = Some b -> i <> j ->
  acts_as_primary a -> acts_as_primary b ->
  exists c, (a_db a = Some c \/ a_db b = Some c) /\ c ∈ c_dead s.
Proof.
  intros Hr Ha Hb Hij Hpa Hpb. pose proof (reachable_cluster_ok n s Hr) as Hok.
  destruct (acts_holds s a (co_nodes _ Hok i a Ha) Hpa) as (ca & Ea & Hca).
  destruct (acts_holds s b (co_nodes _ Hok j b Hb) Hpb) as (cb & Eb & Hcb).
  destruct (decide (ca ∈ c_dead s)) as [|Hda]; [exists ca; auto|].
  destruct (decide (cb ∈ c_dead s)) as [|Hdb]; [exists cb; auto|].
  exfalso. apply Hij. specialize (Hca Hda). specialize (Hcb Hdb).
  apply (co_distinct _ Hok i j a b ca); [done|done|done|congruence].
Qed.

(** A node never becomes the primary without having recovered the
    jobs of the previous one: the only step that makes an inactive node active is
    the return of [onActivating]. *)
Theorem activator_recovers_first n s i l s' a a' :
  cluster_reachable n s -> activator_step i l s = Some s' ->
  c_nodes s !! i = Some a -> c_nodes s' !! i = Some a' ->
  isActive a = false -> isActive a' = true -> l = Activated.
Proof.
  intros Hr E Ha Ha' Hna Hact. pose proof (reachable_cluster_ok n s Hr) as Hok. unfold isActive in *.
  destruct (step_activity s i l s' a Hok Ha E) as (a'' & Ha'' & Hcases).
  assert (a'' = a') as -> by congruence.
  destruct Hcases as [?|[?|[?|(Epc & c & Ec & Hh)]]]; [lia|lia|done|].
  destruct (no_lock _ _ (co_nodes _ Hok i a Ha) c Ec Hh) as [?|[?|[?|?]]]; [lia|congruence..].
Qed.

(** How many steps a stopped activator is from the end of its loop. *)
Definition exit_rank (pc : activator_pc) : nat :=
  match pc with
  | ADone => 0 | AExit => 1 | ALoop => 2 | AActivating => 3 | AGetLock => 4 | AHasLock => 5
  end.

(** After [stop] an activator takes at most five more steps:
    each of its steps brings it closer to the end of its loop, whatever the
    database answers, and it can always take one until it has ended. *)
Theorem activator_stops n s i a :
  cluster_reachable n s -> c_nodes s !! i = Some a -> a_stopped a = true ->
  (forall l s', activator_step i l s = Some s' -> l <> StopCall ->
    exists a', c_nodes s' !! i = Some a' /\ a_stopped a' = true /\ (exit_rank (a_pc a') < exit_rank (a_pc a))%nat) /\
  (a_pc a <> ADone -> exists l s', l <> StopCall /\ activator_step i l s = Some s').
Proof.
  intros Hr Ha Hst. pose proof (co_nodes _ (reachable_cluster_ok n s Hr) i a Ha) as Hi.
  assert (forall x s1, c_nodes s1 = c_nodes s -> a_stopped x = true -> (exit_rank (a_pc x) < exit_rank (a_pc a))%nat ->
    exists a', c_nodes (with_node i x s1) !! i = Some a' /\ a_stopped a' = true /\
      (exit_rank (a_pc a') < exit_rank (a_pc a))%nat) as Hset.
  { intros x s1 En H1 H2. apply (with_node_has s s1 i a x (fun x => _ /\ _) Ha En). done. }
  unfold activator_step. rewrite Ha. simpl. split.
  - intros l s' E Hl.
    destruct l as [ok|r|r| | |]; destruct (a_pc a) eqn:Epc; try discriminate E; try done; rewrite ?Hst in E;
      try (injection E as <-; apply Hset; simpl; [done..|lia]);
      destruct (a_db a) as [c|]; try discriminate E; simpl in E.
    + destruct r as [|rc]; simpl in E; [injection E as <-; apply Hset; simpl; [done..|lia]|].
      destruct (query_conn rc c s) as [[c1 s1]|] eqn:Eq; [|done]. simpl in E. apply query_conn_nodes in Eq.
      case_bool_decide; injection E as <-; (apply Hset; simpl; [done..|lia]).
    + destruct r as [|g|g|rc]; simpl in E; [injection E as <-; apply Hset; simpl; [done..|lia]|..].
      * destruct (grant g c s) as [[c1 s1]|] eqn:Eg; [|done]. apply grant_nodes in Eg.
        injection E as <-. apply Hset; simpl; [done..|lia].
      * destruct (grant g c s) as [[c1 s1]|] eqn:Eg; [|done]. apply grant_nodes in Eg.
        injection E as <-. apply Hset; simpl; [done..|lia].
      * destruct (query_conn rc c s) as [[c1 s1]|] eqn:Eq; [|done]. simpl in E. apply query_conn_nodes in Eq.
        destruct (lock_free_for c1 s1); injection E as <-; (apply Hset; simpl; [done..|lia]).
  - intros Hnd. pose proof (no_db _ _ Hi) as Hdb. destruct (a_pc a) eqn:Epc; try done.
    + exists (Begin true). eexists. by rewrite Hst.
    + destruct Hdb as [c Ec]; [by left|]. exists (HasLock HasError). eexists. by rewrite Ec.
    + destruct Hdb as [c Ec]; [by right|]. exists (GetLock GetStopped). eexists. by rewrite Ec, Hst.
    + exists Activated. by eexists.
    + exists Exit. by eexists.
Qed.

(** ** A concrete run *)

Section runs.
Definition act (i : nat) (l : alabel) (s : cluster) : cluster := default s (activator_step i l s).

Definition become_primary (i : nat) (s : cluster) : cluster :=
  act i Activated (act i (GetLock (GetAnswer false)) (act i (HasLock HasError) (act i (Begin true) s))).

(** Node 0 becomes the primary, its connection is lost, and node 1 takes over
    before node 0 notices. *)
Definition cl1 : cluster := become_primary 0 (start_cluster 2).
Definition cl2 : cluster := become_primary 1 (kill_conn 0 cl1).

Lemma act_reachable n s i l : cluster_reachable n s -> cluster_reachable n (act i l s).
Proof. intros Hr. unfold act. destruct (activator_step i l s) eqn:E; simpl; [by eapply cr_step|done]. Defined.

Lemma cl1_reachable : cluster_reachable 2 cl1.
Proof. unfold cl1, become_primary. repeat apply act_reachable. constructor. Defined.

Lemma cl2_reachable : cluster_reachable 2 cl2.
Proof.
  unfold cl2, become_primary. repeat apply act_reachable. apply cr_kill; [exact cl1_reachable|].
  vm_compute. reflexivity.
Defined.

Definition primary_on (c : Z) : activator := {| a_pc := ALoop; a_stopped := false; a_active := 1; a_db := Some c |}.

Lemma cl2_nodes : c_nodes cl2 = [primary_on 0; primary_on 1].
Proof. vm_compute. reflexivity. Defined.

Lemma activator_primary_unique_witness :
  exists c, (a_db (primary_on 0) = Some c \/ a_db (primary_on 1) = Some c) /\ c ∈ c_dead cl2.
Proof.
  apply (activator_primary_unique 2 cl2 0 1 (primary_on 0) (primary_on 1) cl2_reachable);
    rewrite ?cl2_nodes; try done; by left.
Defined.

Lemma activator_recovers_first_witness :
  exists s s', cluster_reachable 2 s /\ activator_step 0 Activated s = Some s' /\ Activated = Activated.
Proof.
  set (s := act 0 (GetLock (GetAnswer false)) (act 0 (HasLock HasError) (act 0 (Begin true) (start_cluster 2)))).
  assert (cluster_reachable 2 s) as Hr by (unfold s; repeat apply act_reachable; constructor).
  assert (activator_step 0 Activated s = Some cl1) as E by (vm_compute; reflexivity).
  exists s, cl1. split_and!; [done..|].
  refine (activator_recovers_first 2 s 0 Activated cl1
    {| a_pc := AActivating; a_stopped := false; a_active := 0; a_db := Some 0 |} (primary_on 0) Hr E _ _ _ _);
    vm_compute; reflexivity.
Defined.

Lemma activator_stops_witness :
  exists l s', l <> StopCall /\ activator_step 0 l (act 0 StopCall cl1) = Some s'.
Proof.
  destruct (activator_stops 2 (act 0 StopCall cl1) 0
    {| a_pc := ALoop; a_stopped := true; a_active := 1; a_db := Some 0 |}) as [_ Hp].
  - apply act_reachable. exact cl1_reachable.
  - vm_compute. reflexivity.
  - reflexivity.
  - apply Hp. discriminate.
Defined.
End runs.
