(* ===== verification/PrimaryBackup.v ===== *)
(** * Primary and backup nodes of a queue (src/jobqueue/mysql/primary_backup.go)

    The nodes of a cluster that serve the same MySQL queue: their activators and
    the lock they compete for ([Activator]), the connection each pops with, and the
    tables they share.  A step is one statement or transaction of one node, so that
    the preselection and the transaction of a [Pop], and the two statements of every
    round of [Recover], interleave with what the other nodes do.  [Pop] starts only
    on a node that is active; [Recover] is the [onActivating] of the activator and
    excludes the [Pop] of its own node by the mutex. *)

From S2P Require Import Prelude Job QueueSpec MySQLTable MySQLQueue FailureLog Inspector Activator.
Local Open Scope Z_scope.

#[export] Instance activator_pc_eq_dec : EqDecision activator_pc.
Proof. solve_decision. Defined.

(** ** State *)

(** Where the goroutine is that holds the mutex of the driver of a node. *)
Inductive driver_pc :=
| DIdle
| DPop (ids : list Z)       (* in [Pop], these identifiers are preselected *)
| DSelect                   (* in the loop of [Recover], about to select orphans *)
| DUpdate (ids : list Z)    (* in the loop of [Recover], about to update these *)
| DRecovered.               (* [Recover] has returned *)

Record pnode := {
  n_dbPop : option Z;   (* connection of [Pop], with its CONNECTION_ID() *)
  n_pc : driver_pc;
}.

Record pcluster := {
  p_lock : cluster;
  p_nodes : list pnode;
  p_tables : tables;
}.

(** [Start] on every node, each with a connection, on the tables as they are. *)
Definition start_pcluster (conns : list Z) (t : tables) : pcluster := {|
  p_lock := start_cluster (length conns);
  p_nodes := (fun c => {| n_dbPop := Some c; n_pc := DIdle |}) <$> conns;
  p_tables := t;
|}.

Definition p_with_lock (c : cluster) (s : pcluster) : pcluster :=
  {| p_lock := c; p_nodes := p_nodes s; p_tables := p_tables s |}.

Definition p_with_tables (t : tables) (s : pcluster) : pcluster :=
  {| p_lock := p_lock s; p_nodes := p_nodes s; p_tables := t |}.

Definition p_with_pc (i : nat) (pc : driver_pc) (s : pcluster) : pcluster := {|
  p_lock := p_lock s;
  p_nodes := alter (fun n => {| n_dbPop := n_dbPop n; n_pc := pc |}) i (p_nodes s);
  p_tables := p_tables s;
|}.

Definition p_with_conn (i : nat) (c : option Z) (s : pcluster) : pcluster := {|
  p_lock := p_lock s;
  p_nodes := alter (fun n => {| n_dbPop := c; n_pc := n_pc n |}) i (p_nodes s);
  p_tables := p_tables s;
|}.

(** The driver of a node, as [MySQLQueue] has it. *)
Definition node_queue (n : pnode) (a : activator) (t : tables) : primaryBackup := {|
  pb_jobQueue := {| mq_name := EmptyString; mq_tables := t; mq_dbPop := n_dbPop n; mq_stopped := a_stopped a |};
  pb_active := a_active a;
|}.

(** ** Steps *)

Section steps.
Context (marshal_Result : Result -> string).

Inductive plabel :=
| PActivator (l : alabel)                           (* the activator, except the end of [onActivating] *)
| PRecover                                          (* [Recover] is called *)
| PSelect (e : mysql_env)                           (* it selects orphans *)
| PUpdate (e : mysql_env)                           (* it updates them *)
| PActivated                                        (* it has returned: the node is active *)
| PPreselect (e : mysql_env) (limit : Z)            (* [Pop] up to its preselection *)
| PTransaction (e : mysql_env)                      (* the transaction of [Pop] *)
| PPush (e : mysql_env) (j : IncomingJob)
| PDelete (e : mysql_env) (h : mysql_job)
| PRetry (e : mysql_env) (h : mysql_job) (next : NextInfo)
| PFail (e : mysql_env) (h : mysql_job) (res : Result)
| PInspectorDelete (e : mysql_env) (id : Z)
| PFailureDelete (e : mysql_env) (id : Z)
| PReconnect (c : Z)                                (* the pool replaces the connection of [Pop] *)
| PDisconnect.                                      (* [Stop], after the activator has ended *)

Definition pstep (i : nat) (l : plabel) (s : pcluster) : option pcluster :=
  n ← p_nodes s !! i;
  a ← c_nodes (p_lock s) !! i;
  let q := node_queue n a (p_tables s) in
  let s_of (q : mysql_queue) := p_with_tables (mq_tables q) s in
  match l, n_pc n with
  | PActivator Activated, _ => None
  | PActivator l, _ => (fun c => p_with_lock c s) <$> activator_step i l (p_lock s)
  | PRecover, DIdle =>
      if decide (a_pc a = AActivating)
      then Some (p_with_pc i (if n_dbPop n then DSelect else DRecovered) s) else None
  | PSelect e, DSelect =>
      conn ← n_dbPop n;
      Some (p_with_pc i (match me_fault e 0, sql_orphan_jobs (me_order e 0) conn (p_tables s) with
                         | None, id :: ids => DUpdate (id :: ids)
                         | _, _ => DRecovered
                         end) s)
  | PUpdate e, DUpdate ids =>
      conn ← n_dbPop n;
      match me_fault e 0 with
      | Some _ => Some (p_with_pc i DRecovered s)
      | None => Some (p_with_pc i DSelect (p_with_tables (sql_recover_jobs conn ids (p_tables s)) s))
      end
  | PActivated, DRecovered =>
      c ← activator_step i Activated (p_lock s);
      Some (p_with_pc i DIdle (p_with_lock c s))
  | PPreselect e limit, DIdle =>
      if negb (primaryBackup_IsActive q) then None
      else
        _ ← n_dbPop n;
        if max_job_slice <? limit then None
        else match me_fault e 0, me_fault e 1 with
        | None, None => Some (p_with_pc i (match sql_grab_jobs (me_order e 0) (me_now e) limit (p_tables s) with
                                           | [] => DIdle
                                           | ids => DPop ids
                                           end) s)
        | _, _ => Some s
        end
  | PTransaction e, DPop ids =>
      conn ← n_dbPop n;
      '(t, _) ← mysql_Pop_tx e conn ids (p_tables s);
      Some (p_with_pc i DIdle (p_with_tables t s))
  | PPush e j, _ => Some (s_of (mysql_Push e (pb_jobQueue q) j).1)
  | PDelete e h, _ => s_of <$> mysql_Delete e (pb_jobQueue q) h
  | PRetry e h next, _ => s_of <$> mysql_Update e (pb_jobQueue q) h next
  | PFail e h res, _ => Some (s_of (failureLog_Add marshal_Result e (pb_jobQueue q) h res).1)
  | PInspectorDelete e id, _ => Some (s_of (inspector_Delete e (pb_jobQueue q) id).1)
  | PFailureDelete e id, _ => Some (s_of (failureLog_Delete e (pb_jobQueue q) id).1)
  | PReconnect c, _ => _ ← n_dbPop n; Some (p_with_conn i (Some c) s)
  | PDisconnect, DIdle => if decide (a_pc a = ADone) then Some (p_with_conn i None s) else None
  | _, _ => None
  end.

(** What a step does to the jobs, for the theorems: the jobs a transaction hands
    out, with or without the effect of its COMMIT, the jobs that are released by a
    retry or by a recovery, and the jobs that are removed. *)
Inductive event :=
| Popped (node : nat) (id : Z) (committed : bool)
| Retried (id : Z)
| Recovered (node : nat) (id : Z)
| Removed (id : Z).

Definition pevents (i : nat) (l : plabel) (s : pcluster) : list event :=
  match p_nodes s !! i with
  | None => []
  | Some n =>
      match l, n_pc n with
      | PTransaction e, DPop ids =>
          match conn ← n_dbPop n; mysql_Pop_tx e conn ids (p_tables s) with
          | Some (_, Ok hs) => (fun h => Popped i (mysql_job_id h) (me_commit e)) <$> hs
          | _ => []
          end
      | PUpdate e, DUpdate ids => if me_fault e 0 then [] else Recovered i <$> ids
      | PRetry e h _, _ => [Retried (mysql_job_id h)]
      | PDelete e h, _ => [Removed (mysql_job_id h)]
      | PInspectorDelete e id, _ => [Removed id]
      | _, _ => []
      end
  end.

(** Rows come back in some order of their own. *)
Definition ordered (e : mysql_env) : Prop := forall k l, me_order e k l ≡ₚ l.

Definition label_ok (l : plabel) : Prop :=
  match l with
  | PSelect e | PUpdate e | PPreselect e _ | PTransaction e => ordered e
  | _ => True
  end.

(** A run with its events, earliest first; the server may close the connection
    of an activator at any time. *)
Inductive prun : pcluster -> list event -> pcluster -> Prop :=
| prun_nil s : prun s [] s
| prun_step s i l s1 evs s' :
    label_ok l -> pstep i l s = Some s1 -> prun s1 evs s' -> prun s (pevents i l s ++ evs) s'
| prun_kill s c evs s' :
    c < c_next (p_lock s) -> prun (p_with_lock (kill_conn c (p_lock s)) s) evs s' -> prun s evs s'.
End steps.
Arguments pstep marshal_Result i l s : simpl never.

(** ** What a step does to the tables *)

Inductive table_step (i : nat) (t : tables) : list event -> tables -> Prop :=
| ts_same : table_step i t [] t
| ts_failures m n : table_step i t [] {|
    t_jobs := t_jobs t; t_next_job_id := t_next_job_id t; t_failures := m; t_next_failure_id := n |}
| ts_insert now d rc rd fc c u p to fu t' id :
    sql_insert_job now d rc rd fc c u p to fu t = Some (t', id) -> table_step i t [] t'
| ts_delete id : table_step i t [Removed id] (sql_delete_job id t)
| ts_delete_failed id : table_step i t [Removed id] t
| ts_update now d rc fc id t' : sql_update_job now d rc fc id t = Some t' -> table_step i t [Retried id] t'
| ts_update_failed id : table_step i t [Retried id] t
| ts_launch conn rows (committed : bool) evs :
    NoDup (r_job_id <$> rows) -> (forall x, x ∈ rows -> t_jobs t !! r_job_id x = Some x /\ r_status x = Claimed) ->
    evs ≡ₚ (fun x => Popped i (r_job_id x) committed) <$> rows ->
    table_step i t evs (if committed then sql_launch_jobs conn (r_job_id <$> rows) t else t)
| ts_recover conn ids : table_step i t (Recovered i <$> ids) (sql_recover_jobs conn ids t).

(** ** Steps of the tables *)

Definition tables_ok (t : tables) : Prop := jobs_ok t /\ 1 <= t_next_job_id t.

(** What never changes of a job. *)
Definition same_job (r r' : job_row) : Prop :=
  r_job_id r' = r_job_id r /\ r_created_at r' = r_created_at r /\ r_retry_delay r' = r_retry_delay r /\
  r_category r' = r_category r /\ r_url r' = r_url r /\ r_payload r' = r_payload r /\
  r_timeout r' = r_timeout r /\ r_failure_url r' = r_failure_url r.

#[export] Instance same_job_preorder : PreOrder same_job.
Proof. split; [done|]. unfold same_job. intros r1 r2 r3 H12 H23. destruct_and?. split_and!; congruence. Qed.

(** A job that nobody else can pop: it is grabbed, or it is gone and its
    identifier will not come back. *)
Definition held (id : Z) (t : tables) : Prop :=
  match t_jobs t !! id with Some r => r_status r = Grabbed | None => id < t_next_job_id t end.

Definition releases (id : Z) (ev : event) : Prop :=
  match ev with Retried id' | Recovered _ id' => id' = id | Popped _ _ _ | Removed _ => False end.

#[export] Instance releases_dec id ev : Decision (releases id ev).
Proof. destruct ev; simpl; apply _. Defined.

Lemma sql_insert_job_inv now d rc rd fc c u p to fu t t' id :
  sql_insert_job now d rc rd fc c u p to fu t = Some (t', id) ->
  exists r, t_jobs t' = <[t_next_job_id t := r]> (t_jobs t) /\ t_next_job_id t' = t_next_job_id t + 1.
Proof. unfold sql_insert_job. destruct (row_fits _); [|done]. intros [= <- _]. by eexists. Qed.

Lemma sql_update_job_inv now d rc fc id t t' :
  sql_update_job now d rc fc id t = Some t' ->
  t' = t \/ exists r, t_jobs t !! id = Some r /\ t_jobs t' = <[id := update_row now d rc fc r]> (t_jobs t) /\
    t_next_job_id t' = t_next_job_id t.
Proof.
  unfold sql_update_job. destruct (t_jobs t !! id) as [r|] eqn:Hr; [|intros [= <-]; by left].
  destruct (row_fits _); [|done]. intros [= <-]. right. by exists r.
Qed.

Section table_steps.
Context (i : nat) (t : tables) (evs : list event) (t' : tables) (Hstep : table_step i t evs t') (Hok : tables_ok t).

Lemma table_step_next : t_next_job_id t <= t_next_job_id t'.
Proof.
  destruct Hstep as [|m n|now d rc rd fc c u p to fu t' id Hi|id|id|now d rc fc id t' Hu|id
    |conn rows committed evs Hnd Hrows Hevs|conn ids]; simpl; try lia.
  - apply sql_insert_job_inv in Hi as (r & _ & ->). lia.
  - apply sql_update_job_inv in Hu as [->|(r & _ & _ & ->)]; lia.
  - destruct committed; simpl; lia.
Qed.

Lemma table_step_ok : tables_ok t'.
Proof.
  split; [|pose proof table_step_next; unfold tables_ok in Hok; lia]. destruct Hok as [Hj Hn].
  destruct Hstep as [|m n|now d rc rd fc c u p to fu t' id Hi|id|id|now d rc fc id t' Hu|id
    |conn rows committed evs Hnd Hrows Hevs|conn ids]; try done.
  - by eapply sql_insert_job_ok.
  - by apply sql_delete_job_ok.
  - by eapply sql_update_job_ok.
  - destruct committed; [by apply sql_launch_jobs_ok|done].
  - by apply sql_recover_jobs_ok.
Qed.

Lemma update_where_same P f id r :
  (forall r, same_job r (f r)) -> t_jobs t !! id = Some r ->
  exists r', t_jobs (update_where P f t) !! id = Some r' /\ same_job r r'.
Proof. intros Hf Hr. rewrite lookup_update_where, Hr. simpl. eexists. split; [done|]. by destruct (P r). Qed.

Lemma table_step_keeps id r :
  t_jobs t !! id = Some r -> Removed id ∉ evs -> exists r', t_jobs t' !! id = Some r' /\ same_job r r'.
Proof.
  intros Hr Hev. destruct Hok as [Hj Hn].
  destruct Hstep as [|m n|now d rc rd fc c u p to fu t' id' Hi|id'|id'|now d rc fc id' t' Hu|id'
    |conn rows committed evs Hnd Hrows Hevs|conn ids]; try by exists r.
  - apply sql_insert_job_inv in Hi as (r0 & -> & _). exists r. split; [|done].
    rewrite lookup_insert_ne; [done|]. pose proof (ok_next _ _ _ (Hj _ _ Hr)). lia.
  - exists r. split; [|done]. simpl. rewrite lookup_delete_ne; [done|]. set_solver.
  - apply sql_update_job_inv in Hu as [->|(r0 & Hr0 & -> & _)]; [by exists r|].
    destruct (decide (id' = id)) as [->|Hne]; [|exists r; by rewrite lookup_insert_ne].
    rewrite lookup_insert_eq. eexists. split; [done|]. assert (r0 = r) as -> by congruence. by split_and!.
  - destruct committed; [by apply update_where_same|by exists r].
  - by apply update_where_same.
Qed.

Lemma update_where_held P f id :
  (forall r, t_jobs t !! id = Some r -> P r = true -> r_status r = Grabbed -> r_status (f r) = Grabbed) ->
  held id t -> held id (update_where P f t).
Proof.
  unfold held. intros Hf Hh. rewrite lookup_update_where. destruct (t_jobs t !! id) as [r|]; simpl; [|done].
  destruct (P r) eqn:HP; [by apply Hf|done].
Qed.

Lemma table_step_held id : held id t -> (forall ev, ev ∈ evs -> ~ releases id ev) -> held id t'.
Proof.
  intros Hh Hev. destruct Hok as [Hj Hn].
  destruct Hstep as [|m n|now d rc rd fc c u p to fu t' id' Hi|id'|id'|now d rc fc id' t' Hu|id'
    |conn rows committed evs Hnd Hrows Hevs|conn ids]; try done.
  - apply sql_insert_job_inv in Hi as (r0 & Hm & Hnx). unfold held in *. rewrite Hm.
    destruct (t_jobs t !! id) as [r|] eqn:Hr.
    + rewrite lookup_insert_ne, Hr; [done|]. pose proof (ok_next _ _ _ (Hj _ _ Hr)). lia.
    + rewrite lookup_insert_ne, Hr by lia. lia.
  - unfold held in *. simpl. destruct (decide (id' = id)) as [->|Hne]; [|by rewrite lookup_delete_ne].
    rewrite lookup_delete_eq. destruct (t_jobs t !! id) as [r|] eqn:Hr; [|done]. apply (ok_next _ _ _ (Hj _ _ Hr)).
  - apply sql_update_job_inv in Hu as [->|(r0 & Hr0 & Hm & Hnx)]; [done|]. unfold held in *. rewrite Hm, Hnx.
    rewrite lookup_insert_ne; [done|]. intros ->. by apply (Hev (Retried id)); [set_solver|].
  - destruct committed; [|done]. by apply update_where_held.
  - apply update_where_held; [|done]. intros r Hr HP. apply andb_true_iff in HP as [_ HP%bool_decide_eq_true].
    rewrite (ok_id _ _ _ (Hj _ _ Hr)) in HP. exfalso. apply (Hev (Recovered i id)); [|done].
    by apply list_elem_of_fmap_2.
Qed.

Lemma table_step_popped k id c :
  Popped k id c ∈ evs -> ~ held id t /\ (c = true -> held id t') /\
    (forall ev, ev ∈ evs -> ~ releases id ev) /\ forall l1 l2, evs = l1 ++ Popped k id c :: l2 -> forall k' c', Popped k' id c' ∉ l2.
Proof.
  intros Hin. destruct Hok as [Hj Hn].
  destruct Hstep as [|m n|now d rc rd fc c0 u p to fu t' id' Hi|id'|id'|now d rc fc id' t' Hu|id'
    |conn rows committed evs Hnd Hrows Hevs|conn ids]; try set_solver.
  rewrite Hevs in Hin. apply list_elem_of_fmap in Hin as (x & [= -> -> ->] & Hx).
  destruct (Hrows x Hx) as [Hr Hc]. split_and!.
  - unfold held. rewrite Hr. congruence.
  - intros ->. unfold held. by rewrite (launched_row conn rows t x).
  - intros ev Hev. rewrite Hevs in Hev. apply list_elem_of_fmap in Hev as (y & -> & _). by intros [].
  - intros l1 l2 -> k' c' Hin.
    assert (NoDup ((fun ev => match ev with Popped _ id _ => id | _ => 0 end) <$> (l1 ++ Popped i (r_job_id x) committed :: l2))) as Hnd'.
    { rewrite Hevs, <- list_fmap_compose. exact Hnd. }
    rewrite fmap_app, fmap_cons, NoDup_app in Hnd'. destruct Hnd' as (_ & _ & [Hni _]%NoDup_cons).
    apply Hni. apply list_elem_of_fmap. by exists (Popped k' (r_job_id x) c').
Qed.
End table_steps.

Section proofs.
Context (marshal_Result : Result -> string).
Local Abbreviation step := (pstep marshal_Result).
Local Abbreviation run := (prun marshal_Result).

Lemma pop_table_step i conn e ids t t' r :
  ordered e -> jobs_ok t -> mysql_Pop_tx e conn ids t = Some (t', r) ->
  table_step i t (match r with Ok hs => (fun h => Popped i (mysql_job_id h) (me_commit e)) <$> hs | Err _ => [] end) t'.
Proof.
  intros Ho Hok E. apply mysql_Pop_tx_cases in E; [|done..]. destruct r as [hs|err]; [|subst; constructor].
  destruct E as (rows & Hp & Hnd & Hrows & ->). apply ts_launch; [done..|].
  by rewrite Hp, <- list_fmap_compose.
Qed.

Lemma pstep_table i l s s' :
  jobs_ok (p_tables s) -> label_ok l -> step i l s = Some s' -> table_step i (p_tables s) (pevents i l s) (p_tables s').
Proof.
  intros Hok Hl E. unfold pstep in E. unfold pevents.
  destruct (p_nodes s !! i) as [n|] eqn:En; [|done]. simpl in E.
  destruct (c_nodes (p_lock s) !! i) as [a|]; [|done]. simpl in E.
  destruct l.
  - destruct l; [..|done| |]; destruct (activator_step i _ _); try done; injection E as <-; constructor.
  - destruct (n_pc n); try done. case_decide; [|done]. injection E as <-. constructor.
  - destruct (n_pc n); try done. destruct (n_dbPop n); [|done]. injection E as <-. constructor.
  - destruct (n_pc n) as [| | |ids|]; try done. destruct (n_dbPop n) as [conn|]; [|done]. simpl in E.
    destruct (me_fault e 0); injection E as <-; constructor.
  - destruct (n_pc n); try done. destruct (activator_step i _ _); [|done]. injection E as <-. constructor.
  - destruct (n_pc n); try done. destruct (negb _); [done|]. destruct (n_dbPop n); [|done]. simpl in E.
    destruct (max_job_slice <? limit); [done|]. destruct (me_fault e 0), (me_fault e 1); injection E as <-; constructor.
  - destruct (n_pc n) as [|ids| | |]; try done. destruct (n_dbPop n) as [conn|]; [|done]. simpl in E |- *.
    destruct (mysql_Pop_tx e conn ids (p_tables s)) as [[t' r]|] eqn:Et; [|done]. injection E as <-. simpl.
    apply (pop_table_step i) in Et; [|done..]. by destruct r.
  - injection E as <-. unfold mysql_Push. simpl. destruct (me_fault e 0); [constructor|].
    destruct (sql_insert_job _ _ _ _ _ _ _ _ _ _ _) as [[t' id]|] eqn:Ei; [|constructor].
    destruct (me_fault e 1); by eapply ts_insert.
  - unfold mysql_Delete in E. destruct h as [|j st]; [done|]. simpl in E |- *.
    destruct (me_fault e 0); injection E as <-; constructor.
  - unfold mysql_Update in E. destruct h as [|j st]; [done|]. simpl in E |- *.
    destruct (me_fault e 0); [injection E as <-; constructor|].
    destruct (sql_update_job _ _ _ _ _ _) as [t'|] eqn:Eu; injection E as <-; [by eapply ts_update|constructor].
  - injection E as <-. unfold failureLog_Add. destruct h as [|j st]; [constructor|]. simpl.
    destruct (me_fault e 10); [constructor|]. unfold sql_insert_failed_job.
    destruct (failure_fits _); constructor.
  - injection E as <-. unfold inspector_Delete. simpl. destruct (me_fault e 0); constructor.
  - injection E as <-. unfold failureLog_Delete. simpl. destruct (me_fault e 0); constructor.
  - destruct (n_dbPop n); [|done]. injection E as <-. constructor.
  - destruct (n_pc n); try done. case_decide; [|done]. injection E as <-. constructor.
Qed.

(** ** Runs *)

Lemma prun_ok s evs s' : run s evs s' -> tables_ok (p_tables s) -> tables_ok (p_tables s').
Proof.
  induction 1 as [|s i l s1 evs s' Hl E _ IH|s c evs s' _ _ IH]; intros Hok; [done| |by apply IH].
  apply IH. eapply table_step_ok; [by eapply pstep_table; [apply Hok|..]|done].
Qed.

Lemma prun_keeps s evs s' id r :
  run s evs s' -> tables_ok (p_tables s) -> t_jobs (p_tables s) !! id = Some r -> Removed id ∉ evs ->
  exists r', t_jobs (p_tables s') !! id = Some r' /\ same_job r r'.
Proof.
  intros Hrun. revert r. induction Hrun as [|s i l s1 evs s' Hl E _ IH|s c evs s' _ _ IH]; intros r Hok Hr Hev;
    [by exists r| |by apply IH].
  pose proof (pstep_table i l s s1 (proj1 Hok) Hl E) as Ht.
  destruct (table_step_keeps _ _ _ _ Ht Hok id r Hr) as (r1 & Hr1 & Hs1); [set_solver|].
  destruct (IH r1) as (r' & Hr' & Hs'); [by eapply table_step_ok|done|set_solver|].
  exists r'. split; [done|]. by etrans.
Qed.

(** An event that is not among the first is among the rest. *)
Lemma app_cons_skip {A} (l l' k k' : list A) x :
  l ++ l' = k ++ x :: k' -> x ∉ l -> exists k1, k = l ++ k1 /\ l' = k1 ++ x :: k'.
Proof.
  intros E Hx. destruct (app_eq_inv _ _ _ _ E) as [(m & -> & Em)|(m & -> & ->)]; [|by eauto].
  destruct m as [|y m]; simpl in Em; [exists []; by rewrite !app_nil_r|].
  exfalso. injection Em as <- _. set_solver.
Qed.

(** A job that is held is handed out again only after it was released. *)
Lemma prun_held s evs s' id e1 j c e2 :
  run s evs s' -> tables_ok (p_tables s) -> held id (p_tables s) -> evs = e1 ++ Popped j id c :: e2 ->
  exists ev, ev ∈ e1 /\ releases id ev.
Proof.
  intros Hrun. revert e1. induction Hrun as [s|s i l s1 evs s' Hl E _ IH|s c0 evs s' _ _ IH]; intros e1 Hok Hh Heq.
  { by destruct e1. }
  2: { by apply IH. }
  pose proof (pstep_table i l s s1 (proj1 Hok) Hl E) as Ht.
  apply app_cons_skip in Heq as (e & -> & Heq).
  2: { intros Hin. by apply (table_step_popped _ _ _ _ Ht Hok) in Hin as [? _]. }
  destruct (decide (Exists (releases id) (pevents i l s))) as [Hex|Hex].
  - apply Exists_exists in Hex as (ev & Hin & Hev). exists ev. split; [set_solver|done].
  - destruct (IH e) as (ev & Hin & Hev); [by eapply table_step_ok| |done|exists ev; split; [set_solver|done]].
    apply (table_step_held _ _ _ _ Ht Hok); [done|]. intros ev Hin Hev. apply Hex, Exists_exists. eauto.
Qed.

Lemma prun_popped_again s evs s' id e1 i e2 j c e3 :
  run s evs s' -> tables_ok (p_tables s) -> evs = e1 ++ Popped i id true :: e2 ++ Popped j id c :: e3 ->
  exists ev, ev ∈ e2 /\ releases id ev.
Proof.
  intros Hrun. revert e1. induction Hrun as [s|s i' l s1 evs s' Hl E Hrun IH|s c0 evs s' _ _ IH]; intros e1 Hok Heq.
  { by destruct e1. }
  2: { by eapply IH. }
  pose proof (pstep_table i' l s s1 (proj1 Hok) Hl E) as Ht.
  pose proof (table_step_ok _ _ _ _ Ht Hok) as Hok1.
  destruct (app_eq_inv _ _ _ _ Heq) as [(m & Em & Hm)|(m & -> & ->)]; [|by eapply IH].
  destruct m as [|x m]; simpl in Hm; [by eapply (IH []); [done|rewrite <- Hm]|]. injection Hm as <- Hm.
  destruct (table_step_popped _ _ _ _ Ht Hok i id true) as (_ & Hheld & _ & Hnd); [rewrite Em; set_solver|].
  symmetry in Hm. apply app_cons_skip in Hm as (e & -> & ->); [|by apply (Hnd _ _ Em)].
  destruct (prun_held _ _ _ id e j c e3 Hrun Hok1 (Hheld eq_refl) eq_refl) as (ev & Hin & Hev).
  exists ev. split; [set_solver|done].
Qed.

(** ** Recovery and the lock *)

Definition recovering (pc : driver_pc) : Prop :=
  match pc with DSelect | DUpdate _ | DRecovered => True | DIdle | DPop _ => False end.

(** Only a node that has taken the lock and is not active yet recovers jobs. *)
Record lock_ok (s : pcluster) : Prop := {
  lo_lock : cluster_ok (p_lock s);
  lo_recover i n a : p_nodes s !! i = Some n -> c_nodes (p_lock s) !! i = Some a ->
    recovering (n_pc n) -> a_pc a = AActivating;
}.

Lemma activator_step_nodes i l c c' :
  activator_step i l c = Some c' ->
  exists a a', c_nodes c !! i = Some a /\ c_nodes c' = <[i := a']> (c_nodes c) /\
    (l <> Activated -> a_pc a = AActivating -> a_pc a' = AActivating).
Proof.
  intros E. unfold activator_step in E. destruct (c_nodes c !! i) as [a|] eqn:Ha; [|done]. simpl in E. exists a.
  assert (forall c1 x, c_nodes c1 = c_nodes c -> (l <> Activated -> a_pc a = AActivating -> a_pc x = AActivating) ->
    exists a', Some a = Some a /\ c_nodes (with_node i x c1) = <[i := a']> (c_nodes c) /\
      (l <> Activated -> a_pc a = AActivating -> a_pc a' = AActivating)) as Hset.
  { intros c1 x En Hx. exists x. simpl. by rewrite En. }
  destruct l as [ok|r|r| | |], (a_pc a) eqn:Epc; try discriminate E.
  all: try (injection E as <-; by apply Hset).
  - destruct (a_stopped a); [injection E as <-; by apply Hset|].
    destruct (a_db a); [injection E as <-; by apply Hset|]. destruct ok; injection E as <-; [by apply Hset|].
    exists a. by rewrite list_insert_id, Epc.
  - destruct (a_db a) as [d|]; [|done]. simpl in E. destruct r as [|rc]; [injection E as <-; by apply Hset|]. simpl in E.
    destruct (query_conn rc d c) as [[c1 s1]|] eqn:Eq; [|done]. apply query_conn_nodes in Eq. simpl in E.
    case_bool_decide; injection E as <-; by apply Hset.
  - destruct (a_db a) as [d|]; [|done]. simpl in E. destruct r as [|g|g|rc]; simpl in E.
    + destruct (a_stopped a); [|done]. injection E as <-. by apply Hset.
    + destruct (grant g d c) as [[c1 s1]|] eqn:Eq; [|done]. apply grant_nodes in Eq. injection E as <-. by apply Hset.
    + destruct (a_stopped a); [|done]. destruct (grant g d c) as [[c1 s1]|] eqn:Eq; [|done].
      apply grant_nodes in Eq. injection E as <-. by apply Hset.
    + destruct (query_conn rc d c) as [[c1 s1]|] eqn:Eq; [|done]. apply query_conn_nodes in Eq. simpl in E.
      destruct (lock_free_for c1 s1); injection E as <-; by apply Hset.
Qed.

(** The activator of a node moves, but not to the end of [onActivating]. *)
Lemma lock_ok_activator i l s c' :
  lock_ok s -> activator_step i l (p_lock s) = Some c' -> l <> Activated -> lock_ok (p_with_lock c' s).
Proof.
  intros [Hc Hr] E Hl. split; simpl; [by eapply activator_step_ok|]. intros j n b Hn Hb Hpc.
  destruct (activator_step_nodes _ _ _ _ E) as (a & a' & Ha & En & Hkeep). rewrite En in Hb.
  destruct (decide (i = j)) as [->|Hij].
  - rewrite list_lookup_insert_eq in Hb by by eapply lookup_lt_Some. injection Hb as <-. apply Hkeep; [done|by eapply Hr].
  - rewrite list_lookup_insert_ne in Hb by done. by eapply Hr.
Qed.

(** The driver of a node moves; its connection may change. *)
Lemma lock_ok_driver i f s :
  lock_ok s -> (forall n a, p_nodes s !! i = Some n -> c_nodes (p_lock s) !! i = Some a -> recovering (n_pc (f n)) ->
    a_pc a = AActivating) ->
  forall t, lock_ok {| p_lock := p_lock s; p_nodes := alter f i (p_nodes s); p_tables := t |}.
Proof.
  intros [Hc Hr] Hf t. split; simpl; [done|]. intros j n a Hn Ha Hpc. destruct (decide (i = j)) as [->|Hij].
  - rewrite list_lookup_alter_eq in Hn. apply fmap_Some in Hn as (n0 & Hn0 & ->). by eapply Hf.
  - rewrite list_lookup_alter_ne in Hn by done. by eapply Hr.
Qed.

Lemma pstep_lock_ok i l s s' : lock_ok s -> step i l s = Some s' -> lock_ok s'.
Proof.
  intros Hs E. unfold pstep in E. pose proof Hs as [Hc Hr].
  destruct (p_nodes s !! i) as [n|] eqn:En; [|done]. simpl in E.
  destruct (c_nodes (p_lock s) !! i) as [a|] eqn:Ea; [|done]. simpl in E.
  assert (forall t, lock_ok (p_with_tables t s)) as Ht by by split.
  assert (forall pc t, (recovering pc -> a_pc a = AActivating) -> lock_ok (p_with_pc i pc (p_with_tables t s))) as Hpc.
  { intros pc t Hpc. apply (lock_ok_driver i _ s Hs). simpl. intros n0 a0 _ [= ->]%(eq_trans (eq_sym Ea)). done. }
  assert (forall c, lock_ok (p_with_conn i c s)) as Hconn.
  { intros c. apply (lock_ok_driver i _ s Hs). simpl. intros n0 a0 Hn0 Ha0. by apply (Hr i). }
  assert (recovering (n_pc n) -> a_pc a = AActivating) as Hrec by by apply (Hr i n a).
  assert (forall pc, p_with_pc i pc s = p_with_pc i pc (p_with_tables (p_tables s) s)) as Hid by by destruct s.
  destruct l.
  - destruct l; [..|done| |]; destruct (activator_step i _ _) eqn:E1; try done; injection E as <-;
      by eapply lock_ok_activator.
  - destruct (n_pc n); try done. case_decide; [|done]. injection E as <-. rewrite Hid. by apply Hpc.
  - destruct (n_pc n); try done. destruct (n_dbPop n); [|done]. injection E as <-. rewrite Hid. apply Hpc. intros _. by apply Hrec.
  - destruct (n_pc n) as [| | |ids|]; try done. destruct (n_dbPop n) as [conn|]; [|done]. simpl in E.
    destruct (me_fault e 0); injection E as <-; [rewrite Hid|]; apply Hpc; intros _; by apply Hrec.
  - destruct (n_pc n); try done. destruct (activator_step i _ _) as [c'|] eqn:E1; [|done]. injection E as <-.
    split; simpl; [by eapply activator_step_ok|]. intros j m b Hm Hb Hp.
    destruct (activator_step_nodes _ _ _ _ E1) as (_ & a' & _ & Ec & _). rewrite Ec in Hb.
    destruct (decide (i = j)) as [->|Hij].
    + rewrite list_lookup_alter_eq, En in Hm. injection Hm as <-. done.
    + rewrite list_lookup_alter_ne in Hm by done. rewrite list_lookup_insert_ne in Hb by done. by eapply Hr.
  - destruct (n_pc n); try done. destruct (negb _); [done|]. destruct (n_dbPop n); [|done]. simpl in E.
    destruct (max_job_slice <? limit); [done|].
    destruct (me_fault e 0), (me_fault e 1); injection E as <-; try done. rewrite Hid. apply Hpc. by case_match.
  - destruct (n_pc n) as [|ids| | |]; try done. destruct (n_dbPop n) as [conn|]; [|done]. simpl in E.
    destruct (mysql_Pop_tx e conn ids (p_tables s)) as [[t' r]|]; [|done]. injection E as <-. by apply Hpc.
  - injection E as <-. apply Ht.
  - destruct (mysql_Delete _ _ _); [|done]. injection E as <-. apply Ht.
  - destruct (mysql_Update _ _ _ _); [|done]. injection E as <-. apply Ht.
  - injection E as <-. apply Ht.
  - injection E as <-. apply Ht.
  - injection E as <-. apply Ht.
  - destruct (n_dbPop n); [|done]. injection E as <-. apply Hconn.
  - destruct (n_pc n); try done. case_decide; [|done]. injection E as <-. apply Hconn.
Qed.

Lemma lock_ok_start conns t : lock_ok (start_pcluster conns t).
Proof.
  split; [apply (reachable_cluster_ok (length conns)); constructor|].
  intros i n a. simpl. rewrite list_lookup_fmap. intros (c & _ & ->)%fmap_Some. done.
Qed.

Lemma prun_lock_ok s evs s' : run s evs s' -> lock_ok s -> lock_ok s'.
Proof.
  induction 1 as [|s i l s1 evs s' _ E _ IH|s c evs s' Hlt _ IH]; intros Hs; [done|by eapply IH, pstep_lock_ok|].
  destruct Hs as [Hc Hr]. apply IH. split; [by apply kill_conn_ok|done].
Qed.

(** ** Taking over *)

(** Steps of one node in a row. *)
Fixpoint node_steps (i : nat) (ls : list plabel) (s : pcluster) : option pcluster :=
  match ls with
  | [] => Some s
  | l :: ls => s ← step i l s; node_steps i ls s
  end.

Lemma node_steps_app i ls1 ls2 s : node_steps i (ls1 ++ ls2) s = node_steps i ls1 s ≫= node_steps i ls2.
Proof. revert s. induction ls1 as [|l ls1 IH]; intros s; simpl; [done|]. by destruct (step i l s); simpl. Qed.

(** The rounds of [Recover]; the last finds no orphan. *)
Fixpoint rounds (k : nat) (e : mysql_env) : list plabel :=
  match k with O => [PSelect e] | S k => PSelect e :: PUpdate e :: rounds k e end.

Lemma rounds_length k e : length (rounds k e) = (2 * k + 1)%nat.
Proof. induction k as [|k IH]; simpl; lia. Qed.

Lemma p_with_pc_twice i pc pc' s : p_with_pc i pc' (p_with_pc i pc s) = p_with_pc i pc' s.
Proof.
  unfold p_with_pc. simpl. f_equal. apply list_eq. intros j. destruct (decide (i = j)) as [->|Hij].
  - rewrite !list_lookup_alter_eq. by destruct (p_nodes s !! j).
  - by rewrite !list_lookup_alter_ne.
Qed.

Section takeover.
Context (i : nat) (e : mysql_env) (n : pnode) (a : activator) (c : Z).
Context (order_perm : forall k l, me_order e k l ≡ₚ l) (no_fault : forall k, me_fault e k = None).
Context (conn : n_dbPop n = Some c).

Lemma node_in_pc pc s : p_nodes s !! i = Some n -> p_nodes (p_with_pc i pc s) !! i = Some {| n_dbPop := Some c; n_pc := pc |}.
Proof. intros Hn. simpl. by rewrite list_lookup_alter_eq, Hn, <- conn. Qed.

Lemma select_step s :
  p_nodes s !! i = Some n -> c_nodes (p_lock s) !! i = Some a ->
  step i (PSelect e) (p_with_pc i DSelect s) = Some (p_with_pc i (match sql_orphan_jobs (me_order e 0) c (p_tables s) with
    | id :: ids => DUpdate (id :: ids) | [] => DRecovered end) s).
Proof. intros Hn Ha. unfold pstep. rewrite node_in_pc by done. simpl. rewrite Ha. simpl. by rewrite no_fault, p_with_pc_twice. Qed.

Lemma update_step s ids :
  p_nodes s !! i = Some n -> c_nodes (p_lock s) !! i = Some a ->
  step i (PUpdate e) (p_with_pc i (DUpdate ids) s) =
    Some (p_with_pc i DSelect (p_with_tables (sql_recover_jobs c ids (p_tables s)) s)).
Proof.
  intros Hn Ha. unfold pstep. rewrite node_in_pc by done. simpl. rewrite Ha. simpl. rewrite no_fault.
  f_equal. apply (p_with_pc_twice i _ _ (p_with_tables _ s)).
Qed.

Lemma recover_rounds s :
  p_nodes s !! i = Some n -> c_nodes (p_lock s) !! i = Some a -> jobs_ok (p_tables s) ->
  exists k, (k <= size (orphans c (p_tables s)))%nat /\
    node_steps i (rounds k e) (p_with_pc i DSelect s) =
      Some (p_with_pc i DRecovered (p_with_tables (recovered c (p_tables s)) s)).
Proof.
  remember (size (orphans c (p_tables s))) as m eqn:Em. revert s Em.
  induction (lt_wf m) as [m _ IH]. intros s -> Hn Ha Hok.
  pose proof (select_step s Hn Ha) as Esel.
  destruct (sql_orphan_jobs (me_order e 0) c (p_tables s)) as [|id ids] eqn:Eo.
  - exists 0%nat. split; [lia|]. simpl. rewrite Esel. simpl.
    rewrite (no_orphan_batch e order_perm 0 c (p_tables s) Eo). by destruct s.
  - pose proof (orphans_decrease e order_perm no_fault 0 c (p_tables s) _ Hok Eo ltac:(done)) as Hlt.
    set (s1 := p_with_tables (sql_recover_jobs c (id :: ids) (p_tables s)) s).
    destruct (IH _ Hlt s1 eq_refl Hn Ha) as (k & Hk & Ek); [by apply sql_recover_jobs_ok|].
    exists (S k). split; [lia|]. simpl. rewrite Esel. simpl. rewrite (update_step s) by done. simpl. fold s1.
    rewrite Ek. simpl. by rewrite recovered_batch.
Qed.

(** From the call of [onActivating] to its return. *)
Lemma activating_steps s :
  p_nodes s !! i = Some n -> c_nodes (p_lock s) !! i = Some a -> jobs_ok (p_tables s) ->
  n_pc n = DIdle -> a_pc a = AActivating ->
  exists ls s' a', (length ls <= 2 * size (orphans c (p_tables s)) + 3)%nat /\ node_steps i ls s = Some s' /\
    c_nodes (p_lock s') !! i = Some a' /\ isActive a' = true /\ p_tables s' = recovered c (p_tables s).
Proof.
  intros Hn Ha Hok Hidle Hact. destruct (recover_rounds s Hn Ha Hok) as (k & Hk & Ek).
  eexists (PRecover :: rounds k e ++ [PActivated]), _, _. split; [simpl; rewrite length_app, rounds_length; simpl; lia|].
  assert (step i PRecover s = Some (p_with_pc i DSelect s)) as E1.
  { unfold pstep. rewrite Hn, Ha. simpl. by rewrite Hidle, decide_True, conn. }
  simpl. rewrite E1. simpl. rewrite node_steps_app, Ek. simpl. unfold pstep.
  rewrite node_in_pc by done. simpl. rewrite Ha. simpl. unfold activator_step. rewrite Ha. simpl. rewrite Hact. simpl.
  split; [reflexivity|]. simpl. rewrite list_lookup_insert_eq by by eapply lookup_lt_Some. by split_and!.
Qed.
End takeover.

(** The preselection alone, for a node that can pop. *)
Lemma preselect_step i e limit s n a c :
  p_nodes s !! i = Some n -> c_nodes (p_lock s) !! i = Some a -> n_pc n = DIdle -> n_dbPop n = Some c ->
  isActive a = true -> limit <= max_job_slice ->
  step i (PPreselect e limit) s = Some (match me_fault e 0, me_fault e 1 with
    | None, None => p_with_pc i (match sql_grab_jobs (me_order e 0) (me_now e) limit (p_tables s) with
                                 | [] => DIdle | ids => DPop ids end) s
    | _, _ => s end).
Proof.
  intros Hn Ha Hpc Hc Hact Hl. unfold pstep. rewrite Hn, Ha. simpl. rewrite Hpc. unfold primaryBackup_IsActive. simpl.
  unfold isActive in Hact. rewrite Hact, Hc. simpl. destruct (Z.ltb_spec max_job_slice limit); [lia|].
  by destruct (me_fault e 0), (me_fault e 1).
Qed.

Lemma p_with_pc_idle i n s : p_nodes s !! i = Some n -> n_pc n = DIdle -> p_with_pc i DIdle s = s.
Proof.
  intros Hn Hpc. destruct s as [lk nodes t]. unfold p_with_pc. simpl in *. f_equal.
  apply list_eq. intros j. destruct (decide (i = j)) as [->|Hij]; [|by rewrite list_lookup_alter_ne].
  rewrite list_lookup_alter_eq, Hn. simpl. rewrite <- Hpc. by destruct n.
Qed.

(** ** Theorems *)

(** C14 (type): whatever the nodes do, whatever fails and in whatever order the
    statements interleave, the rows of the job table stay well formed: under their
    primary key, below the auto-increment counter, within the ranges of their
    columns, and with a grabber exactly when they are grabbed, which is what
    recovery selects by. *)
Theorem cluster_tables_ok conns t evs s :
  tables_ok t -> run (start_pcluster conns t) evs s -> tables_ok (p_tables s).
Proof. intros Hok Hrun. exact (prun_ok _ _ _ Hrun Hok). Qed.

(** C10 (safety): no job is lost.  A job whose push was accepted is in the table
    with the fields of the push until it is removed, by the completion of a node
    that popped it or through the inspector, whatever the nodes do, fail or take
    over in between. *)
Theorem cluster_no_job_lost s i e j n a id s1 evs s' :
  tables_ok (p_tables s) -> p_nodes s !! i = Some n -> c_nodes (p_lock s) !! i = Some a ->
  (mysql_Push e (pb_jobQueue (node_queue n a (p_tables s))) j).2 = Ok (MIncoming j id) ->
  step i (PPush e j) s = Some s1 -> run s1 evs s' -> Removed id ∉ evs ->
  exists r, t_jobs (p_tables s') !! id = Some r /\ r_category r = in_Category j /\ r_url r = in_URL j /\
    r_payload r = in_Payload j /\ r_timeout r = in_Timeout j /\ r_retry_delay r = in_RetryDelay j /\
    r_failure_url r = Some (in_FailureURL j) /\ r_created_at r = me_now e.
Proof.
  intros Hok Hn Ha Hpush E Hrun Hev.
  assert (tables_ok (p_tables s1)) as Hok1.
  { eapply table_step_ok; [by eapply pstep_table; [apply Hok|..|exact E]|done]. }
  unfold pstep in E. rewrite Hn, Ha in E. simpl in E. injection E as E. revert Hpush E. unfold mysql_Push. simpl.
  destruct (me_fault e 0); [done|]. unfold sql_insert_job. destruct (row_fits _) eqn:Ef; [|done].
  destruct (row_fits_ranges _ Ef) as (Hid & _). simpl in Hid.
  destruct (me_fault e 1); [done|]. simpl. rewrite u64_id by done. intros [= <-] E.
  assert (t_jobs (p_tables s1) !! t_next_job_id (p_tables s) = Some {|
    r_job_id := t_next_job_id (p_tables s); r_next_try := me_now e + in_NextDelay j; r_grabber_id := None;
    r_status := Claimed; r_created_at := me_now e; r_retry_count := in_RetryCount j; r_retry_delay := in_RetryDelay j;
    r_fail_count := 0; r_category := in_Category j; r_url := in_URL j; r_payload := in_Payload j;
    r_timeout := in_Timeout j; r_failure_url := Some (in_FailureURL j) |}) as Hrow.
  { rewrite <- E. apply lookup_insert_eq. }
  destruct (prun_keeps _ _ _ _ _ Hrun Hok1 Hrow Hev) as (r & Hr & Hsame). exists r. split; [done|].
  unfold same_job in Hsame. simpl in Hsame. naive_solver.
Qed.

(** C11 (safety): no job is delivered twice without a reason.  Between a pop whose
    COMMIT took effect and another pop of the same job, by any node, the job was
    retried, or recovered by a node that took over. *)
Theorem cluster_single_delivery conns t evs s id e1 i e2 j c e3 :
  tables_ok t -> run (start_pcluster conns t) evs s ->
  evs = e1 ++ Popped i id true :: e2 ++ Popped j id c :: e3 ->
  Retried id ∈ e2 \/ exists k, Recovered k id ∈ e2.
Proof.
  intros Hok Hrun Heq. destruct (prun_popped_again _ _ _ _ _ _ _ _ _ _ Hrun Hok Heq) as (ev & Hin & Hev).
  destruct ev as [| id'|k id'|]; try done; simpl in Hev; subst; eauto.
Qed.

(** Jobs are recovered only by a node that is taking over: it has
    taken the lock and is not active yet, and it holds the lock unless the server
    has closed its connection. *)
Theorem cluster_recovery_needs_lock conns t evs s i l s' k id :
  run (start_pcluster conns t) evs s -> step i l s = Some s' -> Recovered k id ∈ pevents i l s ->
  k = i /\ exists a c, c_nodes (p_lock s) !! i = Some a /\ a_pc a = AActivating /\ isActive a = false /\
    a_db a = Some c /\ (c ∉ c_dead (p_lock s) -> c_holder (p_lock s) = Some c).
Proof.
  intros Hrun E Hin. pose proof (prun_lock_ok _ _ _ Hrun (lock_ok_start conns t)) as [Hc Hr].
  unfold pevents in Hin. destruct (p_nodes s !! i) as [n|] eqn:Hn; [|by apply elem_of_nil in Hin].
  assert (exists ids, n_pc n = DUpdate ids /\ k = i) as (ids & Hpc & ->).
  { destruct l, (n_pc n) as [|ids| |ids|]; try (by apply elem_of_nil in Hin); try (by apply list_elem_of_singleton in Hin).
    - exists ids. destruct (me_fault e 0); [by apply elem_of_nil in Hin|].
      by apply list_elem_of_fmap in Hin as (? & [= -> _] & _).
    - destruct (_ ≫= _) as [[? [hs|]]|]; try (by apply elem_of_nil in Hin).
      by apply list_elem_of_fmap in Hin as (? & ? & _). }
  split; [done|]. destruct (c_nodes (p_lock s) !! i) as [a|] eqn:Ha; [|unfold pstep in E; by rewrite Hn, Ha in E].
  assert (a_pc a = AActivating) as Hact by (apply (Hr i n a Hn Ha); by rewrite Hpc).
  pose proof (co_nodes _ Hc i a Ha) as Hi. destruct (no_primary _ _ Hi (or_intror Hact)) as (c & Hdb & Hh).
  exists a, c. split_and!; [done|done| |done|done]. unfold isActive. by rewrite (no_backup _ _ Hi (or_intror Hact)).
Qed.

(** C12 (liveness): a backup takes over.  When the lock is free, for one because
    the server closed the connection of the primary, a node that waits for it and
    whose database answers is active after finitely many of its own steps; then no
    job of the previous primary is stuck: every job is claimed again or grabbed by
    the new primary, and none is lost. *)
Theorem cluster_failover conns t evs s i e n a c d :
  tables_ok t -> run (start_pcluster conns t) evs s ->
  (forall k l, me_order e k l ≡ₚ l) -> (forall k, me_fault e k = None) ->
  p_nodes s !! i = Some n -> n_pc n = DIdle -> n_dbPop n = Some c ->
  c_nodes (p_lock s) !! i = Some a -> a_pc a = AGetLock -> a_db a = Some d -> d ∉ c_dead (p_lock s) ->
  c_holder (p_lock s) = None ->
  exists ls s' a', (length ls <= 2 * size (orphans c (p_tables s)) + 4)%nat /\ node_steps i ls s = Some s' /\
    c_nodes (p_lock s') !! i = Some a' /\ isActive a' = true /\
    dom (t_jobs (p_tables s')) = dom (t_jobs (p_tables s)) /\
    forall id r, t_jobs (p_tables s') !! id = Some r -> r_status r = Claimed \/ r_grabber_id r = Some c.
Proof.
  intros Hok Hrun Ho Hf Hn Hidle Hconn Ha Hpc Hdb Hlive Hfree.
  pose proof (prun_ok _ _ _ Hrun Hok) as [Hok' _].
  set (a1 := {| a_pc := AActivating; a_stopped := a_stopped a; a_active := a_active a; a_db := Some d |}).
  set (s1 := p_with_lock (with_node i a1 (with_holder (Some d) (p_lock s))) s).
  assert (step i (PActivator (GetLock (GetAnswer false))) s = Some s1) as E1.
  { unfold pstep. rewrite Hn, Ha. simpl. unfold activator_step. rewrite Ha. simpl. rewrite Hpc, Hdb. simpl.
    rewrite decide_False by done. simpl. unfold lock_free_for. by rewrite Hfree. }
  assert (c_nodes (p_lock s1) !! i = Some a1) as Ha1.
  { simpl. apply list_lookup_insert_eq. by eapply lookup_lt_Some. }
  destruct (activating_steps i e n a1 c Ho Hf Hconn s1 Hn Ha1 Hok' Hidle eq_refl)
    as (ls & s' & a' & Hl & Es & Ha' & Hact & Ht). simpl in Hl, Ht.
  exists (PActivator (GetLock (GetAnswer false)) :: ls), s', a'. split_and!; [simpl; lia| |done|done| |].
  - simpl. rewrite E1. simpl. exact Es.
  - rewrite Ht. unfold recovered, update_where. simpl. apply dom_fmap_L.
  - intros id r. rewrite Ht. unfold recovered. rewrite lookup_update_where. intros (r0 & Hr0 & ->)%fmap_Some.
    destruct (is_orphan c r0) eqn:Eo; [by left|]. unfold is_orphan in Eo. destruct (r_status r0) eqn:Est; [by left|].
    destruct (proj2 (ok_grabber _ _ _ (Hok' _ _ Hr0)) Est) as [g Hg]. rewrite Hg in *. right. f_equal. lia.
Qed.

(** The steps of a node, taken in a row, are the operations of
    its driver: the preselection and the transaction together are [Pop], with the
    same effect on the tables whatever fails, and the rounds from the call of
    [Recover] to its return are [Recover]. *)
Theorem steps_are_operations s i e limit n a c :
  tables_ok (p_tables s) -> (forall k l, me_order e k l ≡ₚ l) -> (forall t, me_others e t = t) ->
  p_nodes s !! i = Some n -> c_nodes (p_lock s) !! i = Some a -> n_pc n = DIdle -> n_dbPop n = Some c ->
  (isActive a = true -> limit <= max_job_slice ->
    exists p' r ls, primaryBackup_Pop e (node_queue n a (p_tables s)) limit = Some (p', r) /\
      (ls = [PPreselect e limit] \/ ls = [PPreselect e limit; PTransaction e]) /\
      node_steps i ls s = Some (p_with_tables (mq_tables (pb_jobQueue p')) s)) /\
  (a_pc a = AActivating -> (forall k, me_fault e k = None) ->
    exists k, node_steps i (PRecover :: rounds k e) s =
      Some (p_with_pc i DRecovered
        (p_with_tables (mq_tables (mysql_Recover e (pb_jobQueue (node_queue n a (p_tables s))))) s))).
Proof.
  intros [Hok _] Ho Hoth Hn Ha Hpc Hc. split.
  - intros Hact Hl. pose proof (preselect_step i e limit s n a c Hn Ha Hpc Hc Hact Hl) as Epre.
    assert (p_with_tables (p_tables s) s = s) as Hsame by by destruct s.
    unfold primaryBackup_Pop, primaryBackup_IsActive. simpl. unfold isActive in Hact. rewrite Hact. simpl.
    unfold mysql_Pop. simpl. rewrite Hc. destruct (Z.ltb_spec max_job_slice limit); [lia|].
    destruct (me_fault e 0) as [err|] eqn:F0.
    { eexists _, _, [PPreselect e limit]. split; [reflexivity|]. split; [by left|]. simpl. rewrite Epre. simpl. by rewrite Hsame. }
    destruct (me_fault e 1) as [err|] eqn:F1.
    { eexists _, _, [PPreselect e limit]. split; [reflexivity|]. split; [by left|]. simpl. rewrite Epre. simpl. by rewrite Hsame. }
    rewrite Hoth. destruct (sql_grab_jobs (me_order e 0) (me_now e) limit (p_tables s)) as [|id ids].
    { eexists _, _, [PPreselect e limit]. split; [reflexivity|]. split; [by left|]. simpl. rewrite Epre. simpl.
      by rewrite Hsame, (p_with_pc_idle i n). }
    assert (is_Some (mysql_Pop_tx e c (id :: ids) (p_tables s))) as [[t' r] Etx].
    { apply mysql_Pop_tx_total; [done|done]. }
    rewrite Etx. simpl. eexists _, _, [PPreselect e limit; PTransaction e].
    split; [reflexivity|]. split; [by right|]. simpl. rewrite Epre. simpl. unfold pstep.
    rewrite (node_in_pc i n c Hc) by done. simpl. rewrite Ha. simpl. rewrite Etx. simpl. f_equal.
    etrans; [apply (p_with_pc_twice i _ _ (p_with_tables t' s))|]. by apply (p_with_pc_idle i n).
  - intros Hact Hf. destruct (recover_rounds i e n a c Ho Hf Hc s Hn Ha Hok) as (k & _ & Ek). exists k.
    assert (step i PRecover s = Some (p_with_pc i DSelect s)) as E1.
    { unfold pstep. rewrite Hn, Ha. simpl. by rewrite Hpc, decide_True, Hc. }
    simpl. rewrite E1. simpl. rewrite Ek. do 3 f_equal. symmetry. unfold mysql_Recover.
    cbn [node_queue pb_jobQueue mq_dbPop]. rewrite Hc. cbn [mq_tables mq_with_tables].
    apply (recover_loop_spec e Ho Hf); [done|lia].
Qed.
End proofs.

(** ** A takeover *)

Module TakeoverRuns.
Definition marshal_Result (res : Result) : string := res_Message res.
Definition e : mysql_env := {|
  me_now := 1000; me_app_now := 1000; me_order _ l := l; me_fault _ := None; me_others t := t; me_commit := true |}.
Definition j : IncomingJob := {|
  in_Category := "mail"; in_URL := "http://w/"; in_Payload := "{}"; in_NextDelay := 0; in_Timeout := 0;
  in_RetryDelay := 5; in_RetryCount := 2; in_FailureURL := EmptyString |}.

(** A step of a node, or the loss of the connection of an activator. *)
Inductive action := Node (i : nat) (l : plabel) | Kill (c : Z).

Fixpoint execute (acts : list action) (s : pcluster) : option (list event * pcluster) :=
  match acts with
  | [] => Some ([], s)
  | Node i l :: acts =>
      s1 ← pstep marshal_Result i l s;
      '(evs, s') ← execute acts s1;
      Some (pevents i l s ++ evs, s')
  | Kill c :: acts =>
      if c <? c_next (p_lock s) then execute acts (p_with_lock (kill_conn c (p_lock s)) s) else None
  end.

Definition action_ok (act : action) : Prop := match act with Node _ l => label_ok l | Kill _ => True end.

Lemma execute_run acts s evs s' :
  Forall action_ok acts -> execute acts s = Some (evs, s') -> prun marshal_Result s evs s'.
Proof.
  intros H. revert s evs. induction H as [|[i l|c] acts Hl _ IH]; intros s evs E; simpl in E.
  - injection E as <- <-. constructor.
  - destruct (pstep marshal_Result i l s) as [s1|] eqn:E1; [|done]. simpl in E.
    destruct (execute acts s1) as [[evs1 s2]|] eqn:E2; [|done]. injection E as <- <-.
    eapply prun_step; [done|exact E1|by apply IH].
  - destruct (Z.ltb_spec c (c_next (p_lock s))); [|done]. eapply prun_kill; [done|by apply IH].
Qed.

(** Node 0 becomes the primary, a job is pushed, and node 0 pops it; node 1
    waits for the lock when the connection of the activator of node 0 is lost. *)
Definition before : list action := [
  Node 0 (PActivator (Begin true)); Node 0 (PActivator (HasLock HasError));
  Node 0 (PActivator (GetLock (GetAnswer false))); Node 0 PRecover; Node 0 (PSelect e); Node 0 PActivated;
  Node 1 (PPush e j); Node 0 (PPreselect e 10); Node 0 (PTransaction e);
  Node 1 (PActivator (Begin true)); Node 1 (PActivator (HasLock (HasAnswer false))); Kill 0 ].

(** Node 1 takes over and pops the job again. *)
Definition after : list action := [
  Node 1 (PActivator (GetLock (GetAnswer false))); Node 1 PRecover; Node 1 (PSelect e); Node 1 (PUpdate e);
  Node 1 (PSelect e); Node 1 PActivated; Node 1 (PPreselect e 10); Node 1 (PTransaction e) ].

Definition start : pcluster := start_pcluster [7; 8] empty_tables.
Definition lost : pcluster := from_option snd start (execute before start).

Lemma labels_ok : Forall action_ok (before ++ after).
Proof. repeat (apply Forall_cons; split); try done; try (intros k l; reflexivity). Qed.

Lemma run_before : prun marshal_Result start [Popped 0 1 true] lost.
Proof.
  apply (execute_run before); [apply (Forall_app _ before after), labels_ok|]. vm_compute. reflexivity.
Qed.

Lemma empty_ok : tables_ok empty_tables.
Proof. split; [apply map_Forall_empty|simpl; lia]. Qed.

Lemma cluster_tables_ok_witness : tables_ok (p_tables lost) /\ size (t_jobs (p_tables lost)) = 1%nat.
Proof.
  split; [|vm_compute; reflexivity].
  exact (cluster_tables_ok marshal_Result [7; 8] empty_tables [Popped 0 1 true] lost empty_ok run_before).
Defined.

Lemma cluster_single_delivery_witness :
  exists s, execute (before ++ after) start = Some ([Popped 0 1 true; Recovered 1 1; Popped 1 1 true], s) /\
    (Retried 1 ∈ [Recovered 1 1] \/ exists k, Recovered k 1 ∈ [Recovered 1 1]).
Proof.
  assert (fst <$> execute (before ++ after) start = Some [Popped 0 1 true; Recovered 1 1; Popped 1 1 true]) as He
    by (vm_compute; reflexivity).
  destruct (execute (before ++ after) start) as [[evs s]|] eqn:E; [|discriminate He].
  assert (evs = [Popped 0 1 true; Recovered 1 1; Popped 1 1 true]) as Hevs by (simpl in He; congruence).
  rewrite Hevs in E. exists s. split; [rewrite Hevs; reflexivity|].
  exact (cluster_single_delivery marshal_Result [7; 8] empty_tables _ s 1 [] 0 [Recovered 1 1] 1 true []
    empty_ok (execute_run _ _ _ _ labels_ok E) eq_refl).
Defined.

Definition node (i : nat) (s : pcluster) : pnode := default {| n_dbPop := None; n_pc := DIdle |} (p_nodes s !! i).
Definition act (i : nat) (s : pcluster) : activator := default startActivator (c_nodes (p_lock s) !! i).

Lemma cluster_failover_witness :
  exists ls s' a', (length ls <= 6)%nat /\ node_steps marshal_Result 1 ls lost = Some s' /\
    c_nodes (p_lock s') !! 1%nat = Some a' /\ isActive a' = true.
Proof.
  destruct (cluster_failover marshal_Result [7; 8] empty_tables [Popped 0 1 true] lost 1 e (node 1 lost) (act 1 lost) 8 1)
    as (ls & s' & a' & Hl & Hs & Ha & Hact & _).
  - exact empty_ok.
  - exact run_before.
  - intros k l. reflexivity.
  - intros k. reflexivity.
  - vm_compute. reflexivity.
  - vm_compute. reflexivity.
  - vm_compute. reflexivity.
  - vm_compute. reflexivity.
  - vm_compute. reflexivity.
  - vm_compute. reflexivity.
  - refine (bool_decide_eq_true_1 (1 ∉ c_dead (p_lock lost)) _). vm_compute. reflexivity.
  - vm_compute. reflexivity.
  - exists ls, s', a'. split; [|split; [exact Hs|split; [exact Ha|exact Hact]]].
    assert (size (orphans 8 (p_tables lost)) = 1%nat) as E by (vm_compute; reflexivity). rewrite E in Hl. exact Hl.
Defined.

(** Node 0 is active and a job waits; and, later, node 1 has just taken the lock
    with an orphan in the table. *)
Definition waiting : pcluster := from_option snd start (execute (take 7 before) start).
Definition taking : pcluster := from_option snd start (execute (before ++ take 1 after) start).

Lemma executed_ok acts rest :
  acts ++ rest = before ++ after -> is_Some (execute acts start) ->
  tables_ok (p_tables (from_option snd start (execute acts start))).
Proof.
  intros Heq [[evs s] E]. pose proof labels_ok as H. rewrite <- Heq in H. apply Forall_app in H as [H _].
  rewrite E. exact (prun_ok _ _ _ _ (execute_run _ _ _ _ H E) empty_ok).
Qed.

Lemma steps_are_operations_witness :
  (exists p' r ls, primaryBackup_Pop e (node_queue (node 0 waiting) (act 0 waiting) (p_tables waiting)) 10 = Some (p', r) /\
    node_steps marshal_Result 0 ls waiting = Some (p_with_tables (mq_tables (pb_jobQueue p')) waiting)) /\
  size (t_jobs (p_tables waiting)) = 1%nat /\
  (exists k, node_steps marshal_Result 1 (PRecover :: rounds k e) taking =
    Some (p_with_pc 1 DRecovered (p_with_tables
      (mq_tables (mysql_Recover e (pb_jobQueue (node_queue (node 1 taking) (act 1 taking) (p_tables taking))))) taking))) /\
  size (orphans 8 (p_tables taking)) = 1%nat.
Proof.
  split; [|split; [vm_compute; reflexivity|split; [|vm_compute; reflexivity]]].
  - assert (tables_ok (p_tables waiting)) as Hok
      by (apply (executed_ok _ (drop 7 before ++ after)); [reflexivity|eexists; vm_compute; reflexivity]).
    destruct (steps_are_operations marshal_Result waiting 0 e 10 (node 0 waiting) (act 0 waiting) 7 Hok
      (fun _ _ => Permutation_refl _) (fun _ => eq_refl)) as [H _]; [vm_compute; reflexivity..|].
    destruct H as (p' & r & ls & Hp & _ & Hs); [vm_compute; reflexivity|vm_compute; discriminate|].
    exists p', r, ls. split; [exact Hp|exact Hs].
  - assert (tables_ok (p_tables taking)) as Hok
      by (apply (executed_ok _ (drop 1 after)); [reflexivity|eexists; vm_compute; reflexivity]).
    destruct (steps_are_operations marshal_Result taking 1 e 10 (node 1 taking) (act 1 taking) 8 Hok
      (fun _ _ => Permutation_refl _) (fun _ => eq_refl)) as [_ H]; [vm_compute; reflexivity..|].
    apply H; [vm_compute; reflexivity|intros k; reflexivity].
Defined.

(** The state in which node 1 updates the orphans. *)
Definition updating : pcluster := from_option snd start (execute (before ++ take 3 after) start).

Lemma cluster_recovery_needs_lock_witness :
  exists a c, c_nodes (p_lock updating) !! 1%nat = Some a /\ a_pc a = AActivating /\ a_db a = Some c /\
    c_holder (p_lock updating) = Some c.
Proof.
  assert (pstep marshal_Result 1 (PUpdate e) updating =
    Some (default updating (pstep marshal_Result 1 (PUpdate e) updating))) as Es by (vm_compute; reflexivity).
  destruct (cluster_recovery_needs_lock marshal_Result [7; 8] empty_tables [Popped 0 1 true] updating 1 (PUpdate e)
    (default updating (pstep marshal_Result 1 (PUpdate e) updating)) 1 1) as (_ & a & c & Ha & Hpc & _ & Hdb & Hh).
  - assert (Forall action_ok ((before ++ take 3 after) ++ drop 3 after)) as [Hok _]%Forall_app by exact labels_ok.
    apply (execute_run (before ++ take 3 after)); [exact Hok|vm_compute; reflexivity].
  - exact Es.
  - assert (pevents 1 (PUpdate e) updating = [Recovered 1 1]) as -> by (vm_compute; reflexivity). apply list_elem_of_here.
  - exists a, c. split; [exact Ha|]. split; [exact Hpc|]. split; [exact Hdb|]. apply Hh.
    assert (Some a = Some (act 1 updating)) as [= ->] by (rewrite <- Ha; vm_compute; reflexivity).
    assert (Some c = Some 1) as [= ->] by (rewrite <- Hdb; vm_compute; reflexivity).
    refine (bool_decide_eq_true_1 (1 ∉ c_dead (p_lock updating)) _). vm_compute. reflexivity.
Defined.

(** The state before the push, and the events after it. *)
Definition empty_cluster : pcluster := from_option snd start (execute (take 6 before) start).
Definition pushed : pcluster := default start (pstep marshal_Result 1 (PPush e j) empty_cluster).

Lemma cluster_no_job_lost_witness :
  exists s' r, execute (drop 7 before ++ after) pushed = Some ([Popped 0 1 true; Recovered 1 1; Popped 1 1 true], s') /\
    t_jobs (p_tables s') !! 1 = Some r /\ r_url r = "http://w/".
Proof.
  assert (fst <$> execute (drop 7 before ++ after) pushed = Some [Popped 0 1 true; Recovered 1 1; Popped 1 1 true]) as He
    by (vm_compute; reflexivity).
  destruct (execute (drop 7 before ++ after) pushed) as [[evs s']|] eqn:E; [|discriminate He].
  assert (evs = [Popped 0 1 true; Recovered 1 1; Popped 1 1 true]) as Hevs by (simpl in He; congruence).
  rewrite Hevs in E.
  destruct (cluster_no_job_lost marshal_Result empty_cluster 1 e j (node 1 empty_cluster) (act 1 empty_cluster) 1 pushed
    [Popped 0 1 true; Recovered 1 1; Popped 1 1 true] s') as (r & Hr & _ & Hu & _).
  - assert (p_tables empty_cluster = empty_tables) as -> by (vm_compute; reflexivity). exact empty_ok.
  - vm_compute. reflexivity.
  - vm_compute. reflexivity.
  - vm_compute. reflexivity.
  - vm_compute. reflexivity.
  - refine (execute_run _ _ _ _ _ E). apply (Forall_app _ (take 7 before)). exact labels_ok.
  - rewrite !not_elem_of_cons. split_and!; [discriminate..|apply not_elem_of_nil].
  - exists s', r. split; [rewrite Hevs; reflexivity|]. split; [exact Hr|exact Hu].
Defined.
End TakeoverRuns.
