(* ===== verification/MySQLNames.v ===== *)
(** * Names and node information of the MySQL driver

    Table names (src/jobqueue/mysql/sql.go), the name of the lock of a queue
    (activator.go) and the node information of a queue (jobqueue.go,
    primary_backup.go).  Strings are bytes; the regular expression of the table
    names works on UTF-8 sequences. *)

From Stdlib Require Import Ascii.
From S2P Require Import Prelude GoStrings Job QueueSpec Model.
Local Open Scope Z_scope.

(** ** UTF-8 *)

Definition is_cont (a : ascii) : bool := let b := byte_of a in (128 <=? b) && (b <=? 191).

Definition byte_in (lo hi : Z) (a : ascii) : bool := (lo <=? byte_of a) && (byte_of a <=? hi).

(** Number of bytes of the first character; an invalid byte is a character of
    its own ([utf8.DecodeRune]). *)
Definition rune_width (l : list ascii) : nat :=
  match l with
  | [] => 0%nat
  | a :: l' =>
      let b := byte_of a in
      if b <? 128 then 1%nat
      else if (194 <=? b) && (b <=? 223) then
        match l' with x :: _ => if is_cont x then 2%nat else 1%nat | _ => 1%nat end
      else if (224 <=? b) && (b <=? 239) then
        match l' with
        | x :: y :: _ =>
            let lo := if b =? 224 then 160 else 128 in
            let hi := if b =? 237 then 159 else 191 in
            if byte_in lo hi x && is_cont y then 3%nat else 1%nat
        | _ => 1%nat
        end
      else if (240 <=? b) && (b <=? 244) then
        match l' with
        | x :: y :: z :: _ =>
            let lo := if b =? 240 then 144 else 128 in
            let hi := if b =? 244 then 143 else 191 in
            if byte_in lo hi x && is_cont y && is_cont z then 4%nat else 1%nat
        | _ => 1%nat
        end
      else 1%nat
  end.

(** ** Table names *)

(** [\[0-9a-z_\]] *)
Definition table_char (a : ascii) : bool :=
  byte_in 48 57 a || byte_in 97 122 a || Ascii.eqb a "_"%char.

(** [invalidTablenameChars.ReplaceAll(name, "_")]: every character not allowed
    becomes an underscore; as many rounds as bytes are enough. *)
Fixpoint replace_invalid (fuel : nat) (l : list ascii) : list ascii :=
  match fuel, l with
  | O, _ | _, [] => []
  | S fuel, a :: l' =>
      if table_char a then a :: replace_invalid fuel l'
      else "_"%char :: replace_invalid fuel (drop (rune_width l) l)
  end.

(** [Payload] is never set. *)
Record tableName := { tn_JobQueue : string; tn_Payload : string; tn_Failure : string }.

Definition newTableName (definition : Queue) : tableName :=
  let l := chars (Name definition) in
  let name := str (replace_invalid (length l) l) in
  {| tn_JobQueue := "fireworq_jq(" +:+ name +:+ ")";
     tn_Payload := EmptyString;
     tn_Failure := "fireworq_jq_fail(" +:+ name +:+ ")" |}.

(** [fmt.Sprintf("fireworq_jq(%s)", a.queueName)] *)
Definition lockName (queueName : string) : string := "fireworq_jq(" +:+ queueName +:+ ")".

(** ** Node information *)

Record Node := { node_ID : string; node_Host : string }.

(** The position of the last occurrence of a character, if any. *)
Fixpoint last_index (sep : ascii) (l : list ascii) : option nat :=
  match l with
  | [] => None
  | a :: l' =>
      match last_index sep l' with
      | Some i => Some (S i)
      | None => if Ascii.eqb a sep then Some 0%nat else None
      end
  end.

Definition strip_port (host : string) : string :=
  match last_index ":"%char (chars host) with
  | Some i => str (take i (chars host))
  | None => host
  end.

(** [Node] of both queues: the row of the process list, no row, or an error. *)
Definition queue_Node (row : result string (option (string * string))) : result QueueError (option Node) :=
  match row with
  | Err err => Err (StoreError err)
  | Ok None => Ok None
  | Ok (Some (id, host)) => Ok (Some {| node_ID := id; node_Host := strip_port host |})
  end.

(** ** Theorems *)

Lemma chars_app s1 s2 : chars (s1 +:+ s2) = chars s1 ++ chars s2.
Proof. induction s1 as [|a s1 IH]; simpl; [done|]. by rewrite IH. Qed.

Lemma chars_inj s1 s2 : chars s1 = chars s2 -> s1 = s2.
Proof. intros E. by rewrite <- (str_chars s1), <- (str_chars s2), E. Qed.

Lemma string_app_assoc s1 s2 s3 : (s1 +:+ s2) +:+ s3 = s1 +:+ (s2 +:+ s3).
Proof. apply chars_inj. by rewrite !chars_app, app_assoc. Qed.

Lemma string_app_nil s : s +:+ EmptyString = s.
Proof. apply chars_inj. by rewrite chars_app, app_nil_r. Qed.

Lemma replace_invalid_allowed fuel l : Forall (fun a => table_char a = true) (replace_invalid fuel l).
Proof.
  revert l. induction fuel as [|fuel IH]; intros [|a l]; simpl; try constructor.
  destruct (table_char a) eqn:E; constructor; auto.
Qed.

Lemma replace_invalid_id l :
  Forall (fun a => table_char a = true) l -> replace_invalid (length l) l = l.
Proof. induction 1 as [|a l Ha Hl IH]; simpl; [done|]. by rewrite Ha, IH. Qed.

Definition plain_name (s : string) : Prop := Forall (fun a => table_char a = true) (chars s).

Lemma table_name_plain q : plain_name (Name q) -> tn_JobQueue (newTableName q) = lockName (Name q).
Proof.
  intros Hp. unfold newTableName, lockName. simpl. rewrite replace_invalid_id by done. by rewrite str_chars.
Qed.

Lemma last_index_None sep l : sep ∉ l -> last_index sep l = None.
Proof.
  induction l as [|a l IH]; simpl; [done|]. intros Hn. rewrite IH by set_solver.
  destruct (Ascii.eqb_spec a sep); set_solver.
Qed.

Lemma last_index_app sep l k : sep ∉ k -> last_index sep (l ++ sep :: k) = Some (length l).
Proof.
  intros Hk. induction l as [|a l IH]; simpl; [by rewrite last_index_None, Ascii.eqb_refl|]. by rewrite IH.
Qed.

(** Queues whose names only have digits, lower case letters and
    underscores have distinct tables, and the queue table of one is never the
    failure table of another; any name gives tables whose names, between the
    parentheses, have only these characters. *)
Theorem table_names_distinct q1 q2 :
  (plain_name (Name q1) -> plain_name (Name q2) ->
    tn_JobQueue (newTableName q1) = tn_JobQueue (newTableName q2) \/
    tn_Failure (newTableName q1) = tn_Failure (newTableName q2) -> Name q1 = Name q2) /\
  tn_JobQueue (newTableName q1) <> tn_Failure (newTableName q2) /\
  exists name, tn_JobQueue (newTableName q1) = "fireworq_jq(" +:+ name +:+ ")" /\ plain_name name.
Proof.
  split_and!.
  - intros H1 H2 E. unfold newTableName in E. simpl in E. rewrite !replace_invalid_id, !str_chars in E by done.
    destruct E as [E|E]; repeat (injection E as E); apply (f_equal chars) in E; rewrite !chars_app in E;
      simpl in E; apply app_inv_tail in E; by apply chars_inj.
  - unfold newTableName. simpl. discriminate.
  - eexists. split; [reflexivity|]. unfold plain_name. rewrite chars_str. apply replace_invalid_allowed.
Qed.

(** Queues with different names can share their tables although
    their locks differ, so that both have a primary on the same jobs: upper case
    letters, for one, all become underscores. *)
Theorem table_names_collide :
  let queue name := {| Name := name; PollingInterval := 0; MaxWorkers := 1; MaxDispatchesPerSecond := 0%Qc; MaxBurstSize := 0 |} in
  newTableName (queue "mailA") = newTableName (queue "mailB") /\ lockName "mailA" <> lockName "mailB".
Proof. split; [reflexivity|discriminate]. Qed.

(** The host of a node is its address without the port, also
    for addresses that contain colons; a host without a port is kept. *)
Theorem strip_port_correct host port :
  ":"%char ∉ chars port -> strip_port (host +:+ ":" +:+ port) = host /\
  (":"%char ∉ chars host -> strip_port host = host).
Proof.
  intros Hp. unfold strip_port. rewrite chars_app. split.
  - change (chars (":" +:+ port)) with (":"%char :: chars port). rewrite last_index_app by done.
    rewrite take_app_length. apply str_chars.
  - intros Hh. by rewrite last_index_None.
Qed.

Lemma strip_port_correct_witness : strip_port "::1:3306" = "::1".
Proof. apply (strip_port_correct "::1" "3306"). vm_compute. set_solver. Defined.
