(* ===== verification/Worker.v ===== *)
(** * The HTTP worker (src/dispatcher/worker/http.go)

    A job is a POST request to its URL; the response says what became of it.
    The network and the decoding of JSON are outside: they are arguments. *)

From S2P Require Import Prelude GoStrings Job JobQueue.
Local Open Scope Z_scope.

Record HTTPWorker := { hw_UserAgent : string }.

(** [NewWorker]; [defaultUserAgent] is the configured one. *)
Definition NewWorker (defaultUserAgent : string) (worker : HTTPWorker) : HTTPWorker :=
  {| hw_UserAgent := if String.eqb (hw_UserAgent worker) EmptyString then defaultUserAgent
                     else hw_UserAgent worker |}.

(** What is sent; the timeout of the client is in nanoseconds, zero is none. *)
Record http_request := {
  rq_URL : string;
  rq_Body : string;
  rq_ContentType : string;
  rq_UserAgent : string;
  rq_XAttempt : string;
  rq_Timeout : Z;
}.

Record http_response := {
  rs_StatusCode : Z;
  rs_Body : result string string;  (* reading it can fail *)
}.

Section work.
(** [http.NewRequest] on a URL, [client.Do], and [json.Unmarshal] of a body. *)
Context (new_request : string -> result string unit)
  (do_request : http_request -> result string http_response)
  (unmarshal : string -> result string Result).

Definition work_request (defaultUserAgent : string) (worker : HTTPWorker) (job : Job) : http_request := {|
  rq_URL := job_URL job;
  rq_Body := job_Payload job;
  rq_ContentType := "application/json";
  rq_UserAgent := if String.eqb (hw_UserAgent worker) EmptyString then defaultUserAgent else hw_UserAgent worker;
  rq_XAttempt := str (format_int (u64 (job_FailCount job + 1)));
  rq_Timeout := i64 (i64 (job_Timeout job) * ns_per_s);
|}.

Definition Work (defaultUserAgent : string) (worker : HTTPWorker) (job : Job) : Result :=
  match new_request (job_URL job) with
  | Err err =>
      {| res_Status := ResultStatusInternalFailure; res_Code := 0;
         res_Message := "Cannot create http request: " +:+ err |}
  | Ok _ =>
  match do_request (work_request defaultUserAgent worker job) with
  | Err err =>
      {| res_Status := ResultStatusInternalFailure; res_Code := 0;
         res_Message := "Request failed: " +:+ err |}
  | Ok resp =>
  match rs_Body resp with
  | Err err =>
      {| res_Status := ResultStatusFailure; res_Code := rs_StatusCode resp;
         res_Message := "Cannot read body: " +:+ err |}
  | Ok body =>
  match unmarshal body with
  | Err err =>
      {| res_Status := ResultStatusFailure; res_Code := rs_StatusCode resp;
         res_Message := "Cannot parse body as JSON: " +:+ err +:+ newline +:+ "Original response body:" +:+ newline +:+ body |}
  | Ok rslt =>
      if negb (IsValid rslt) then
        {| res_Status := ResultStatusFailure; res_Code := rs_StatusCode resp;
           res_Message := "Invalid result status: " +:+ res_Status rslt +:+ newline +:+ "Original response body:"
                          +:+ newline +:+ body |}
      else {| res_Status := res_Status rslt; res_Code := rs_StatusCode resp; res_Message := res_Message rslt |}
  end end end end.

(** What the worker behind the URL said, when it said something understood. *)
Definition worker_says (defaultUserAgent : string) (worker : HTTPWorker) (job : Job) (status : string) : Prop :=
  exists resp body rslt, do_request (work_request defaultUserAgent worker job) = Ok resp /\
    rs_Body resp = Ok body /\ unmarshal body = Ok rslt /\ res_Status rslt = status.

Lemma Work_cases ua worker job :
  (Work ua worker job).(res_Status) = ResultStatusInternalFailure \/
  (Work ua worker job).(res_Status) = ResultStatusFailure \/
  worker_says ua worker job (Work ua worker job).(res_Status) /\ IsValid (Work ua worker job) = true.
Proof.
  unfold Work, worker_says.
  destruct (new_request (job_URL job)); [|by left].
  destruct (do_request (work_request ua worker job)) as [resp|]; [|by left].
  destruct (rs_Body resp) as [body|] eqn:Eb; [|by right; left].
  destruct (unmarshal body) as [rslt|] eqn:Eu; [|by right; left].
  destruct (IsValid rslt) eqn:Ev; [|by right; left]. right. right. split; [|done].
  by exists resp, body, rslt.
Qed.

(** C38 (safety): whatever the network does, the worker returns a result that
    is a success or a permanent failure only when the response says so; anything
    else is a failure the queue retries as long as the job has retries left. *)
Theorem Work_conservative ua worker job :
  let r := Work ua worker job in
  (IsSuccess r = true -> worker_says ua worker job ResultStatusSuccess) /\
  (IsPermanentFailure r = true -> worker_says ua worker job ResultStatusPermanentFailure) /\
  (job_finished job r = true -> job_RetryCount job <> 0 ->
    worker_says ua worker job ResultStatusSuccess \/ worker_says ua worker job ResultStatusPermanentFailure).
Proof.
  intros r.
  assert (IsSuccess r = true -> worker_says ua worker job ResultStatusSuccess) as H1.
  { unfold IsSuccess. intros Hs%String.eqb_eq.
    pose proof (Work_cases ua worker job) as Hc. fold r in Hc.
    destruct Hc as [E|[E|[Hw _]]]; [rewrite E in Hs; discriminate Hs..|by rewrite Hs in Hw]. }
  assert (IsPermanentFailure r = true -> worker_says ua worker job ResultStatusPermanentFailure) as H2.
  { unfold IsPermanentFailure. intros Hs%String.eqb_eq.
    pose proof (Work_cases ua worker job) as Hc. fold r in Hc.
    destruct Hc as [E|[E|[Hw _]]]; [rewrite E in Hs; discriminate Hs..|by rewrite Hs in Hw]. }
  split_and!; [done..|]. unfold job_finished. intros Hf Hr. rewrite !orb_true_iff in Hf.
  destruct Hf as [[?|?]|?]; [auto..|lia].
Qed.

End work.

(** The request carries the payload of the job to its URL, with
    the number of the attempt, starting from one, in a header that parses back
    to it; an agent configured for the worker takes precedence. *)
Theorem work_request_correct ua worker job :
  0 <= job_FailCount job < i64_max ->
  let rq := work_request ua worker job in
  rq_URL rq = job_URL job /\ rq_Body rq = job_Payload job /\
  Atoi (chars (rq_XAttempt rq)) = Some (job_FailCount job + 1) /\
  (hw_UserAgent worker <> EmptyString -> rq_UserAgent rq = hw_UserAgent worker).
Proof.
  intros Hf. simpl. split_and!; try done.
  - rewrite chars_str, u64_id by word. rewrite Atoi_format by word. destruct (Z.leb_spec (job_FailCount job + 1) i64_max); [done|lia].
  - intros Hne. by destruct (String.eqb_spec (hw_UserAgent worker) EmptyString).
Qed.
Lemma work_request_correct_witness :
  Atoi (chars (rq_XAttempt (work_request "ua" {| hw_UserAgent := EmptyString |}
    {| job_ID := 1; job_Category := "c"; job_URL := "u"; job_Payload := "p"; job_CreatedAt := 0; job_NextTry := 0;
       job_Timeout := 30; job_RetryDelay := 0; job_RetryCount := 0; job_FailCount := 11; job_FailureURL := EmptyString |})))
  = Some 12.
Proof. apply (work_request_correct "ua" {| hw_UserAgent := EmptyString |}). simpl. word. Defined.
