(* ===== verification/Config.v ===== *)
(** * Configuration (src/config/config.go, default.go, src/main.go)

    Configuration values come, in this order, from explicit settings, from the
    environment and from defaults; a value that was looked up is remembered.
    The start-up code of main.go fills in defaults, declares a flag per key and
    sets every key from its flag. *)

From Stdlib Require Import Ascii.
From S2P Require Import Prelude GoStrings.
Local Open Scope Z_scope.

(** ** State and operations *)

Record config := {
  cached : gmap string string;
  defaultConf : gmap string string;   (* the default value of each item *)
}.

(** The default values of default.go. *)
Definition initial_defaults : gmap string string := list_to_map [
  ("bind", "127.0.0.1:8080");
  ("pid", EmptyString);
  ("access_log", EmptyString);
  ("access_log_tag", "fireworq.access");
  ("error_log", EmptyString);
  ("error_log_level", EmptyString);
  ("shutdown_timeout", "30");
  ("keep_alive", "false");
  ("config_refresh_interval", "1000");
  ("driver", "mysql");
  ("mysql_dsn", "tcp(localhost:3306)/fireworq");
  ("repository_mysql_dsn", EmptyString);
  ("queue_default", EmptyString);
  ("queue_default_polling_interval", "200");
  ("queue_default_max_workers", "20");
  ("queue_log", EmptyString);
  ("queue_log_tag", "fireworq.queue");
  ("queue_log_level", EmptyString);
  ("queue_mysql_dsn", EmptyString);
  ("dispatch_user_agent", EmptyString);
  ("dispatch_keep_alive", EmptyString);
  ("dispatch_max_conns_per_host", "10");
  ("dispatch_idle_conn_timeout", "0");
  ("redis_addr", EmptyString)].

Definition initial_config : config := {| cached := ∅; defaultConf := initial_defaults |}.

(** [strings.ToUpper] on the keys, which are ASCII. *)
Definition upper_char (a : ascii) : ascii :=
  if (97 <=? byte_of a) && (byte_of a <=? 122) then ascii_of (byte_of a - 32) else a.

Definition ToUpper (s : string) : string := str (upper_char <$> chars s).

Definition GetDefault (c : config) (key : string) : string := default EmptyString (defaultConf c !! key).

(** [getenv] is [os.Getenv]. *)
Definition Get (getenv : string -> string) (c : config) (key : string) : config * string :=
  match cached c !! key with
  | Some v => (c, v)
  | None =>
      let v := getenv ("FIREWORQ_" +:+ ToUpper key) in
      let v := if String.eqb v EmptyString then GetDefault c key else v in
      ({| cached := <[key := v]> (cached c); defaultConf := defaultConf c |}, v)
  end.

Definition Set_ (c : config) (k v : string) : config :=
  {| cached := <[k := v]> (cached c); defaultConf := defaultConf c |}.

Definition SetDefault (c : config) (k v : string) : config :=
  {| cached := cached c; defaultConf := <[k := v]> (defaultConf c) |}.

Definition Locally {A} (getenv : string -> string) (c : config) (k v : string) (block : config -> config * A)
    : config * A :=
  let '(c, original) := Get getenv c k in
  let '(c, a) := block (Set_ c k v) in
  (Set_ c k original, a).

Definition Keys (c : config) : list string := (map_to_list (defaultConf c)).*1.

(** ** Start-up (main.go) *)

Definition versionString (name version prerelease build sep : string) : string :=
  let prerelease := if String.eqb prerelease EmptyString then EmptyString else "-" +:+ prerelease in
  let build := if String.eqb build EmptyString then EmptyString else "+" +:+ build in
  name +:+ sep +:+ version +:+ prerelease +:+ build.

Definition initDefaultConfig (getenv : string -> string) (user_agent : string) (c : config) : config :=
  let c := SetDefault c "dispatch_user_agent" user_agent in
  let '(c, keep_alive) := Get getenv c "keep_alive" in
  let c := SetDefault c "dispatch_keep_alive" keep_alive in
  let level := if (0 <? String.length (getenv "DEBUG"))%nat then "debug" else "info" in
  SetDefault (SetDefault c "error_log_level" level) "queue_log_level" level.

(** [strings.Replace(k, "_", "-", -1)] *)
Definition flag_name (k : string) : string :=
  str ((fun a => if Ascii.eqb a "_"%char then "-"%char else a) <$> chars k).

(** [parseCmdArgs]: every key is a flag whose default is its current value;
    [flags] maps the names given on the command line to their values. *)
Fixpoint parse_settings (getenv : string -> string) (flags : gmap string string) (keys : list string) (c : config)
    : config * list (string * string) :=
  match keys with
  | [] => (c, [])
  | k :: keys' =>
      let '(c, v) := Get getenv c k in
      let '(c, settings) := parse_settings getenv flags keys' c in
      (c, (k, default v (flags !! flag_name k)) :: settings)
  end.

(** [for _, k := range config.Keys() { config.Set(k, *args.settings[k]) }] *)
Definition apply_settings (settings : list (string * string)) (c : config) : config :=
  foldl (fun c kv => Set_ c kv.1 kv.2) c settings.

Definition startup (getenv : string -> string) (user_agent : string) (flags : gmap string string) : config :=
  let c := initDefaultConfig getenv user_agent initial_config in
  let '(c, settings) := parse_settings getenv flags (Keys c) c in
  apply_settings settings c.

(** ** Theorems *)

Lemma Get_cached getenv c k : cached (Get getenv c k).1 !! k = Some (Get getenv c k).2.
Proof.
  unfold Get. destruct (cached c !! k) as [v|] eqn:E; simpl; [done|]. by rewrite lookup_insert_eq.
Qed.

Lemma Get_cached_ne getenv c k k' : k <> k' -> cached (Get getenv c k).1 !! k' = cached c !! k'.
Proof. intros Hne. unfold Get. destruct (cached c !! k); simpl; [done|]. by rewrite lookup_insert_ne. Qed.

Lemma Get_defaults getenv c k : defaultConf (Get getenv c k).1 = defaultConf c.
Proof. unfold Get. by destruct (cached c !! k). Qed.

Lemma Get_hit getenv c k v : cached c !! k = Some v -> Get getenv c k = (c, v).
Proof. intros E. unfold Get. by rewrite E. Qed.

(** The order of precedence.  A setting wins over the
    environment, a non-empty variable over the default; once a key was looked up
    its value does not change any more, neither by the environment nor by a new
    default, until it is set. *)
Theorem Get_precedence getenv getenv' c k :
  (forall v, Get getenv (Set_ c k v) k = (Set_ c k v, v)) /\
  (cached c !! k = None -> (Get getenv c k).2 =
    if decide (getenv ("FIREWORQ_" +:+ ToUpper k) = EmptyString) then GetDefault c k
    else getenv ("FIREWORQ_" +:+ ToUpper k)) /\
  (forall d, let '(c', v) := Get getenv c k in (Get getenv' (SetDefault c' k d) k).2 = v).
Proof.
  split_and!.
  - intros v. apply Get_hit. simpl. apply lookup_insert_eq.
  - intros E. unfold Get. rewrite E. simpl. destruct (String.eqb_spec (getenv ("FIREWORQ_" +:+ ToUpper k)) EmptyString);
      case_decide; done.
  - intros d. pose proof (Get_cached getenv c k) as Hc. destruct (Get getenv c k) as [c' v]. simpl in Hc.
    by rewrite (Get_hit getenv' _ k v).
Qed.

(** [Locally] leaves the value of its key as it was, whatever
    the block does to it. *)
Theorem Locally_restores {A} getenv c k v (block : config -> config * A) :
  (Get getenv (Locally getenv c k v block).1 k).2 = (Get getenv c k).2.
Proof.
  unfold Locally. destruct (Get getenv c k) as [c1 original] eqn:E. destruct (block (Set_ c1 k v)) as [c2 a]. simpl.
  rewrite (Get_hit getenv _ k original); [done|]. simpl. apply lookup_insert_eq.
Qed.

(** Looking one key up does not change what another look-up gives. *)
Lemma Get_Get getenv c k k' : (Get getenv (Get getenv c k).1 k').2 = (Get getenv c k').2.
Proof.
  destruct (decide (k = k')) as [<-|Hne].
  - by rewrite (Get_hit getenv _ k _ (Get_cached getenv c k)).
  - unfold Get at 1 3. rewrite Get_cached_ne by done.
    destruct (cached c !! k'); [done|]. simpl. unfold GetDefault. by rewrite Get_defaults.
Qed.

Lemma parse_settings_spec getenv flags keys c :
  (parse_settings getenv flags keys c).2 =
    (fun k => (k, default (Get getenv c k).2 (flags !! flag_name k))) <$> keys.
Proof.
  revert c. induction keys as [|k keys IH]; intros c; simpl; [done|].
  pose proof (Get_Get getenv c k) as Hgg.
  destruct (Get getenv c k) as [c1 v] eqn:E. specialize (IH c1).
  destruct (parse_settings getenv flags keys c1) as [c2 settings]. simpl in *. rewrite IH. f_equal.
  apply list_fmap_ext. intros i k' _. by rewrite Hgg.
Qed.

Lemma apply_settings_lookup settings c k v :
  NoDup settings.*1 -> (k, v) ∈ settings -> cached (apply_settings settings c) !! k = Some v.
Proof.
  unfold apply_settings. revert c. induction settings as [|[k' v'] settings IH]; intros c Hnd Hin; [set_solver|].
  apply NoDup_cons in Hnd as [Hni Hnd]. simpl. apply elem_of_cons in Hin as [[= <- <-]|Hin]; [|by apply IH].
  clear IH Hnd. assert (cached (Set_ c k v) !! k = Some v) as Hk by apply lookup_insert_eq.
  revert Hk. generalize (Set_ c k v). induction settings as [|[k2 v2] settings IH]; intros c' Hk; [done|]. simpl.
  apply IH; [set_solver|]. simpl. rewrite lookup_insert_ne; [done|]. set_solver.
Qed.

(** What a key is without a flag: its variable, or its default after
    [initDefaultConfig]. *)
Definition unflagged (getenv : string -> string) (user_agent k : string) : string :=
  (Get getenv (initDefaultConfig getenv user_agent initial_config) k).2.

Lemma fst_pairs {A B} (f : A -> B) (l : list A) : ((fun k => (k, f k)) <$> l).*1 = l.
Proof. induction l as [|x l IH]; [done|]. rewrite !fmap_cons. by rewrite IH. Qed.

Lemma elem_of_Keys c k : k ∈ Keys c <-> is_Some (defaultConf c !! k).
Proof.
  unfold Keys. rewrite list_elem_of_fmap. split.
  - intros ([k' d] & -> & Hd%elem_of_map_to_list). eauto.
  - intros [d Hd]. exists (k, d). by rewrite elem_of_map_to_list.
Qed.

Lemma SetDefault_keys c k k' v : k ∈ Keys c -> k ∈ Keys (SetDefault c k' v).
Proof. rewrite !elem_of_Keys. simpl. rewrite lookup_insert_is_Some'. by right. Qed.

Lemma initDefaultConfig_keys getenv user_agent c k : k ∈ Keys c -> k ∈ Keys (initDefaultConfig getenv user_agent c).
Proof.
  intros Hk. unfold initDefaultConfig.
  pose proof (Get_defaults getenv (SetDefault c "dispatch_user_agent" user_agent) "keep_alive") as Hdef.
  destruct (Get getenv (SetDefault c "dispatch_user_agent" user_agent) "keep_alive") as [c1 v1].
  do 3 apply SetDefault_keys. apply elem_of_Keys. cbn [fst] in Hdef. rewrite Hdef.
  by apply elem_of_Keys, SetDefault_keys.
Qed.

(** After start-up every key has the value of its flag on the
    command line, or else of its environment variable, or else its default. *)
Theorem startup_correct getenv getenv' user_agent flags k :
  k ∈ Keys initial_config ->
  (Get getenv' (startup getenv user_agent flags) k).2 =
    default (unflagged getenv user_agent k) (flags !! flag_name k).
Proof.
  intros Hk%(initDefaultConfig_keys getenv user_agent). unfold startup, unflagged.
  set (c := initDefaultConfig getenv user_agent initial_config) in *. clearbody c.
  destruct (parse_settings getenv flags (Keys c) c) as [c2 settings] eqn:E.
  pose proof (parse_settings_spec getenv flags (Keys c) c) as Hs. rewrite E in Hs. cbn [snd] in Hs. subst settings.
  rewrite (Get_hit getenv' _ k (default (Get getenv c k).2 (flags !! flag_name k))); [done|].
  apply apply_settings_lookup.
  - rewrite fst_pairs. apply NoDup_fst_map_to_list.
  - apply list_elem_of_fmap. by exists k.
Qed.

Lemma startup_correct_witness :
  (Get (fun _ => EmptyString) (startup (fun _ => EmptyString) "ua" {[ "queue-default" := "q" ]}) "queue_default").2 = "q".
Proof.
  rewrite (startup_correct (fun _ => EmptyString) (fun _ => EmptyString) "ua" {[ "queue-default" := "q" ]} "queue_default").
  - reflexivity.
  - apply elem_of_Keys. exists EmptyString. vm_compute. reflexivity.
Defined.

(** The flag of [keep_alive] does not reach [dispatch_keep_alive],
    whose default is taken from [keep_alive] before the flags are read: a daemon
    started with this flag alone does not keep connections to workers alive,
    although it does when the environment variable is set. *)
Theorem keep_alive_flag_ignored :
  (Get (fun _ => EmptyString) (startup (fun _ => EmptyString) "ua" {[ "keep-alive" := "true" ]}) "dispatch_keep_alive").2
    = "false" /\
  let getenv v := if String.eqb v "FIREWORQ_KEEP_ALIVE" then "true" else EmptyString in
  (Get getenv (startup getenv "ua" ∅) "dispatch_keep_alive").2 = "true".
Proof. split; vm_compute; reflexivity. Qed.
