(* ===== verification/DispatchStats.v ===== *)
(** * Dispatch statistics (src/stats/jobqueue.go, writer.go, extractor.go)

    A decorator of a queue that counts the outcome of every dispatch in Redis,
    per organisation and environment, in three time buckets.  Redis is a map of
    hashes with expiry times and a map of sorted sets; a pipeline that fails has
    executed a prefix of its commands.  Parsing a URL ([net/url]) is a
    parameter. *)

From Stdlib Require Import Ascii.
From S2P Require Import Prelude GoStrings Job QueueSpec JobQueue InMemory InMemoryQueue.
From S2P Require Import MySQLTable MySQLQueue.
Local Open Scope Z_scope.

(** ** Redis *)

Record redis := {
  rd_hashes : gmap string (gmap string Z);
  rd_ttl : gmap string Z;                    (* seconds *)
  rd_zsets : gmap string (gmap string Z);    (* member to score *)
}.

Inductive redis_cmd :=
| HIncrBy (key field : string) (n : Z)
| Expire (key : string) (seconds : Z)
| ZAdd (key member : string) (score : Z).

Definition redis_do (r : redis) (cmd : redis_cmd) : redis :=
  match cmd with
  | HIncrBy key field n =>
      let h := default ∅ (rd_hashes r !! key) in
      {| rd_hashes := <[key := <[field := default 0 (h !! field) + n]> h]> (rd_hashes r);
         rd_ttl := rd_ttl r; rd_zsets := rd_zsets r |}
  | Expire key s =>
      {| rd_hashes := rd_hashes r; rd_ttl := <[key := s]> (rd_ttl r); rd_zsets := rd_zsets r |}
  | ZAdd key member score =>
      let z := default ∅ (rd_zsets r !! key) in
      {| rd_hashes := rd_hashes r; rd_ttl := rd_ttl r;
         rd_zsets := <[key := <[member := score]> z]> (rd_zsets r) |}
  end.

(** A pipeline; [executed] commands take effect, all of them without an error. *)
Definition redis_exec (executed : nat) (cmds : list redis_cmd) (r : redis) : redis :=
  foldl redis_do r (take executed cmds).

(** The value of a counter. *)
Definition counter (r : redis) (key field : string) : Z :=
  default 0 (default ∅ (rd_hashes r !! key) !! field).

(** ** Writer *)

(** A reading of the wall clock, in its time zone. *)
Record clock := { ck_year : Z; ck_month : Z; ck_day : Z; ck_hour : Z; ck_minute : Z; ck_unix : Z }.

(** Zero-padded decimals ([%02d] and the layouts of [time.Format]). *)
Definition pad_to (width : nat) (n : Z) : string :=
  let d := format_int n in str (replicate (width - length d) "0"%char ++ d).

Definition format_day (c : clock) : string := pad_to 4 (ck_year c) +:+ pad_to 2 (ck_month c) +:+ pad_to 2 (ck_day c).
Definition format_hour (c : clock) : string := format_day c +:+ pad_to 2 (ck_hour c).

Definition five_min_bucket (c : clock) : Z := ck_minute c - Z.rem (ck_minute c) 5.

Definition stats_prefix (targetEnv orgID : string) : string := "webhook:" +:+ targetEnv +:+ ":stats:" +:+ orgID.

Definition fiveMinKey (targetEnv orgID : string) (now : clock) : string :=
  stats_prefix targetEnv orgID +:+ ":5m:" +:+ format_hour now +:+ pad_to 2 (five_min_bucket now).
Definition oneHourKey (targetEnv orgID : string) (now : clock) : string :=
  stats_prefix targetEnv orgID +:+ ":1h:" +:+ format_hour now.
Definition dailyKey (targetEnv orgID : string) (now : clock) : string :=
  stats_prefix targetEnv orgID +:+ ":1d:" +:+ format_day now.

Definition bucket_cmds (isSuccess isPermanentFail : bool) (key : string) : list redis_cmd :=
  HIncrBy key "total" 1 ::
  (if isSuccess then [HIncrBy key "success" 1]
   else if isPermanentFail then [HIncrBy key "fail" 1; HIncrBy key "permanent_fail" 1]
   else [HIncrBy key "fail" 1]).

Definition dispatch_cmds (targetEnv orgID : string) (isSuccess isPermanentFail : bool) (now : clock) : list redis_cmd :=
  let k5 := fiveMinKey targetEnv orgID now in
  let k1 := oneHourKey targetEnv orgID now in
  let kd := dailyKey targetEnv orgID now in
  ([k5; k1; kd] ≫= bucket_cmds isSuccess isPermanentFail) ++
  [Expire k5 (2 * 3600); Expire k1 (25 * 3600); Expire kd (7 * 24 * 3600);
   ZAdd ("webhook:" +:+ targetEnv +:+ ":active_subscribes") orgID (ck_unix now)].

(** [RecordDispatch] on a writer with a client; nothing is recorded without an
    organisation or an environment. *)
Definition RecordDispatch (executed : nat) (targetEnv orgID : string) (isSuccess isPermanentFail : bool)
    (now : clock) (r : redis) : redis :=
  if String.eqb orgID EmptyString || String.eqb targetEnv EmptyString then r
  else redis_exec executed (dispatch_cmds targetEnv orgID isSuccess isPermanentFail now) r.

(** ** Decorator *)

Section decorator.
Context {Env St H : Type} `{!Impl Env St H} {RC : Type} (tag : string).
(** [url.Parse] followed by [Query().Get]; [None] when the URL does not parse. *)
Context (url_param : string -> string -> option string).

Definition ExtractOrgID (failureURL : string) : string :=
  if String.eqb failureURL EmptyString then EmptyString else default EmptyString (url_param failureURL "org_id").
Definition ExtractTargetEnv (failureURL : string) : string :=
  if String.eqb failureURL EmptyString then EmptyString else default EmptyString (url_param failureURL "target_env").

(** How the decorator classifies a result, from the retries the job reports. *)
Definition classify (res : Result) (retryCount : Z) : bool * bool :=
  let isSuccess := IsSuccess res in
  (isSuccess, IsPermanentFailure res || (negb isSuccess && (retryCount =? 0))).

(** What is recorded: environment, organisation and classification.  The retry
    count is read from the job after the completion of the inner queue. *)
Definition stats_Complete (e : Env) (now_log now_stats : Z) (q : jobQueue St RC) (h : H) (res : Result)
    : option (jobQueue St RC * option (string * string * (bool * bool))) :=
  let failureURL := job_FailureURL (impl_job e (jq_impl q) h) in
  let orgID := ExtractOrgID failureURL in
  let targetEnv := ExtractTargetEnv failureURL in
  q' ← jobQueue_Complete tag e now_log now_stats q h res;
  if String.eqb orgID EmptyString || String.eqb targetEnv EmptyString then Some (q', None)
  else Some (q', Some (targetEnv, orgID, classify res (job_RetryCount (impl_job e (jq_impl q') h)))).
End decorator.

(** ** Theorems *)

Lemma counter_HIncrBy r key field n key' field' :
  counter (redis_do r (HIncrBy key field n)) key' field' =
    counter r key' field' + if decide (key = key') then if String.eqb field field' then n else 0 else 0.
Proof.
  unfold counter. simpl. destruct (decide (key = key')) as [->|Hk].
  - rewrite lookup_insert_eq. simpl. destruct (String.eqb_spec field field') as [->|Hf].
    + by rewrite lookup_insert_eq.
    + rewrite lookup_insert_ne by done. lia.
  - rewrite lookup_insert_ne by done. lia.
Qed.

Lemma counter_other r cmd key field :
  match cmd with HIncrBy _ _ _ => False | _ => True end -> counter (redis_do r cmd) key field = counter r key field.
Proof. by destruct cmd. Qed.

(** What commands add to a counter. *)
Definition increment (key field : string) (cmd : redis_cmd) : Z :=
  match cmd with
  | HIncrBy key' field' n => if decide (key' = key) then if String.eqb field' field then n else 0 else 0
  | _ => 0
  end.

Fixpoint increments (key field : string) (cmds : list redis_cmd) : Z :=
  match cmds with [] => 0 | cmd :: cmds => increment key field cmd + increments key field cmds end.

Lemma counter_foldl cmds r key field :
  counter (foldl redis_do r cmds) key field = counter r key field + increments key field cmds.
Proof.
  revert r. induction cmds as [|cmd cmds IH]; intros r; cbn [foldl increments]; [lia|]. rewrite IH.
  destruct cmd; cbn [increment]; rewrite ?counter_HIncrBy, ?counter_other by done; lia.
Qed.

Lemma increments_app key field cmds1 cmds2 :
  increments key field (cmds1 ++ cmds2) = increments key field cmds1 + increments key field cmds2.
Proof. induction cmds1 as [|cmd cmds1 IH]; simpl; [done|]. rewrite IH. lia. Qed.

(** What a dispatch adds to the counters of a bucket. *)
Definition dispatch_delta (isSuccess isPermanentFail : bool) (field : string) : Z :=
  if String.eqb field "total" then 1
  else if String.eqb field "success" then Z.b2z isSuccess
  else if String.eqb field "fail" then Z.b2z (negb isSuccess)
  else if String.eqb field "permanent_fail" then Z.b2z (negb isSuccess && isPermanentFail)
  else 0.

Lemma increments_bucket s p key key' field :
  increments key field (bucket_cmds s p key') = if decide (key' = key) then dispatch_delta s p field else 0.
Proof.
  unfold bucket_cmds, dispatch_delta.
  destruct s, p; cbn [increments increment]; (destruct (decide (key' = key)); [|done]);
    rewrite !(String.eqb_sym _ field); cbn [Z.b2z negb andb];
    (destruct (String.eqb_spec field "total") as [->|]; [done|]);
    (destruct (String.eqb_spec field "success") as [->|]; [done|]);
    (destruct (String.eqb_spec field "fail") as [->|]; [done|]);
    by destruct (String.eqb_spec field "permanent_fail") as [->|].
Qed.

Lemma dispatch_delta_nonneg s p field : 0 <= dispatch_delta s p field.
Proof. unfold dispatch_delta. destruct s, p; simpl; repeat case_match; lia. Qed.

Definition bucket_keys (targetEnv orgID : string) (now : clock) : list string :=
  [fiveMinKey targetEnv orgID now; oneHourKey targetEnv orgID now; dailyKey targetEnv orgID now].

Lemma bucket_keys_distinct targetEnv orgID now : NoDup (bucket_keys targetEnv orgID now).
Proof.
  assert (forall p a b, String.append p a = String.append p b -> a = b) as Hinj.
  { intros p a b E. by apply (inj (String.append p)) in E. }
  unfold bucket_keys, fiveMinKey, oneHourKey, dailyKey.
  repeat (apply NoDup_cons; split);
    [rewrite !not_elem_of_cons; split_and!|rewrite !not_elem_of_cons; split_and!|..|apply NoDup_nil_2];
    try apply not_elem_of_nil; by intros E%Hinj.
Qed.

Lemma increments_dispatch targetEnv orgID s p now key field :
  increments key field (dispatch_cmds targetEnv orgID s p now) =
    if decide (key ∈ bucket_keys targetEnv orgID now) then dispatch_delta s p field else 0.
Proof.
  pose proof (bucket_keys_distinct targetEnv orgID now) as Hnd. unfold bucket_keys in *.
  rewrite !NoDup_cons, !not_elem_of_cons in Hnd. destruct Hnd as ((H1 & H2 & _) & (H3 & _) & _).
  unfold dispatch_cmds. cbn [mbind list_bind]. rewrite app_nil_r, !increments_app, !increments_bucket.
  cbn [increments increment]. destruct (decide (key ∈ _)) as [Hin|Hin].
  - rewrite !elem_of_cons, elem_of_nil in Hin. destruct Hin as [->|[->|[->|[]]]];
      repeat case_decide; first [congruence | lia].
  - rewrite !not_elem_of_cons in Hin. destruct Hin as (? & ? & ? & _).
    rewrite !decide_False by congruence. lia.
Qed.

Lemma increments_take targetEnv orgID s p now key field n :
  let cmds := dispatch_cmds targetEnv orgID s p now in
  0 <= increments key field (take n cmds) <= increments key field cmds.
Proof.
  intros cmds. assert (Forall (fun cmd => 0 <= increment key field cmd) cmds) as Hall.
  { unfold cmds, dispatch_cmds, bucket_cmds. cbn [mbind list_bind].
    destruct s, p; repeat apply Forall_cons_2; try apply Forall_nil_2; cbn [increment];
      repeat case_match; lia. }
  clearbody cmds. revert n. induction Hall as [|cmd cmds Hc Hall IH]; intros n; [by rewrite take_nil|].
  destruct n as [|n]; cbn [take increments]; [specialize (IH 0%nat); cbn in IH; lia|]. specialize (IH n). lia.
Qed.

(** The commands that are no increments set the expiry times and the time of the
    organisation. *)
Lemma dispatch_ttl targetEnv orgID s p now r :
  let r' := foldl redis_do r (dispatch_cmds targetEnv orgID s p now) in
  rd_ttl r' = <[dailyKey targetEnv orgID now := 604800]> (<[oneHourKey targetEnv orgID now := 90000]>
    (<[fiveMinKey targetEnv orgID now := 7200]> (rd_ttl r))) /\
  rd_zsets r' = let k := "webhook:" +:+ targetEnv +:+ ":active_subscribes" in
    <[k := <[orgID := ck_unix now]> (default ∅ (rd_zsets r !! k))]> (rd_zsets r).
Proof. unfold dispatch_cmds, bucket_cmds. cbn [mbind list_bind]. by destruct s, p. Qed.

(** In every bucket each dispatch is a success or a failure, and permanent
    failures are failures. *)
Definition balanced (r : redis) : Prop :=
  forall key, counter r key "total" = counter r key "success" + counter r key "fail" /\
    0 <= counter r key "permanent_fail" <= counter r key "fail".

(** C40 (functional): what recording a dispatch does.  Without an organisation or an
    environment, nothing.  Otherwise, when the pipeline is executed as a whole, each
    of the three buckets of the time has one more dispatch, one more success or one
    more failure according to the result, and one more permanent failure exactly
    for a failure that is permanent; no other counter changes; the buckets expire
    after two hours, 25 hours and seven days, and the organisation is noted as
    active at the time.  Successes and failures then still add up to the total,
    with permanent failures among the failures.  When only some commands of the
    pipeline are executed, no counter gets more than that, and none gets less than
    it had. *)
Theorem RecordDispatch_correct targetEnv orgID s p now r :
  let cmds := dispatch_cmds targetEnv orgID s p now in
  let record executed := RecordDispatch executed targetEnv orgID s p now r in
  (orgID = EmptyString \/ targetEnv = EmptyString -> forall executed, record executed = r) /\
  (orgID <> EmptyString -> targetEnv <> EmptyString ->
    (forall key field, counter (record (length cmds)) key field =
      counter r key field + if decide (key ∈ bucket_keys targetEnv orgID now) then dispatch_delta s p field else 0) /\
    (rd_ttl (record (length cmds)) !! fiveMinKey targetEnv orgID now = Some 7200 /\
     rd_ttl (record (length cmds)) !! oneHourKey targetEnv orgID now = Some 90000 /\
     rd_ttl (record (length cmds)) !! dailyKey targetEnv orgID now = Some 604800) /\
    rd_zsets (record (length cmds)) !! ("webhook:" +:+ targetEnv +:+ ":active_subscribes") ≫= (.!! orgID)
      = Some (ck_unix now) /\
    (balanced r -> balanced (record (length cmds))) /\
    (forall executed key field,
      counter r key field <= counter (record executed) key field <= counter (record (length cmds)) key field)).
Proof.
  intros cmds record. split.
  - intros H executed. unfold record, RecordDispatch. destruct H as [-> | ->]; [done|]. by rewrite orb_true_r.
  - intros Ho He. assert (forall n, record n = foldl redis_do r (take n cmds)) as Er.
    { intros n. unfold record, RecordDispatch. by rewrite (proj2 (String.eqb_neq _ _) Ho), (proj2 (String.eqb_neq _ _) He). }
    rewrite !Er, firstn_all.
    assert (forall key field, counter (foldl redis_do r cmds) key field = counter r key field +
      if decide (key ∈ bucket_keys targetEnv orgID now) then dispatch_delta s p field else 0) as Hc.
    { intros key field. by rewrite counter_foldl, <- increments_dispatch. }
    destruct (dispatch_ttl targetEnv orgID s p now r) as [Ht Hz]. fold cmds in Ht, Hz.
    pose proof (bucket_keys_distinct targetEnv orgID now) as Hnd. unfold bucket_keys in Hnd.
    rewrite !NoDup_cons, !not_elem_of_cons in Hnd. destruct Hnd as ((H1 & H2 & _) & (H3 & _) & _).
    split_and!; [exact Hc|rewrite Ht..|rewrite Hz| |].
    + by rewrite !lookup_insert_ne, lookup_insert_eq by congruence.
    + by rewrite lookup_insert_ne, lookup_insert_eq by congruence.
    + by rewrite lookup_insert_eq.
    + cbn zeta. rewrite lookup_insert_eq. simpl. by rewrite lookup_insert_eq.
    + intros Hb key. rewrite !Hc. specialize (Hb key). destruct (decide _); destruct s, p; cbn; lia.
    + intros n key field. rewrite Er, !counter_foldl. pose proof (increments_take targetEnv orgID s p now key field n) as Hi.
      cbn zeta in Hi. fold cmds in Hi. destruct Hi. split; lia.
Qed.

(** A permanent failure of an organisation. *)
Lemma RecordDispatch_correct_witness :
  let now := {| ck_year := 2026; ck_month := 3; ck_day := 16; ck_hour := 14; ck_minute := 7; ck_unix := 1773669600 |} in
  let r := {| rd_hashes := ∅; rd_ttl := ∅; rd_zsets := ∅ |} in
  let r' := RecordDispatch 13 "staging" "100" false true now r in
  counter r' "webhook:staging:stats:100:5m:202603161405" "permanent_fail" = 1 /\
  counter r' "webhook:staging:stats:100:1h:2026031614" "success" = 0 /\
  counter r' "webhook:staging:stats:100:1d:20260316" "fail" = 1.
Proof.
  intros now r r'. destruct (proj2 (RecordDispatch_correct "staging" "100" false true now r)) as (H & _); [discriminate..|].
  change r' with (RecordDispatch (length (dispatch_cmds "staging" "100" false true now)) "staging" "100" false true now r).
  rewrite !H. vm_compute. split_and!; reflexivity.
Defined.

(** ** Classification *)

(** What a dispatch was, from the job as it was popped: a success, or a failure
    after which the job is gone. *)
Definition true_class (j : Job) (res : Result) : bool * bool :=
  (IsSuccess res, negb (IsSuccess res) && job_finished j res).

Lemma classify_true_class j res : classify res (job_RetryCount j) = true_class j res.
Proof.
  unfold classify, true_class, job_finished. f_equal.
  destruct (IsSuccess res) eqn:Es; simpl; [|done].
  by rewrite (success_not_permanent res Es).
Qed.

(** Over the MySQL driver, whose jobs are values, the decorator
    records exactly what the queue did: a failure is recorded as permanent if and
    only if the job was deleted and not rescheduled. *)
Theorem stats_Complete_mysql {RC} marshal_Result tag url_param e t1 t2 (q : jobQueue primaryBackup RC) j st res q' env org c :
  stats_Complete (Impl0 := mysql_Impl marshal_Result) tag url_param e t1 t2 q (MJob j st) res
    = Some (q', Some (env, org, c)) ->
  jobQueue_Complete (Impl0 := mysql_Impl marshal_Result) tag e t1 t2 q (MJob j st) res = Some q' /\
  env = ExtractTargetEnv url_param (job_FailureURL j) /\ org = ExtractOrgID url_param (job_FailureURL j) /\
  c = true_class j res.
Proof.
  unfold stats_Complete. intros E.
  destruct (jobQueue_Complete (Impl0 := mysql_Impl marshal_Result) tag e t1 t2 q (MJob j st) res) as [q1|]; [|done].
  simpl in E. destruct (_ || _); [done|]. injection E as <- <- <- <-.
  split_and!; [done..|]. apply classify_true_class.
Qed.

Definition any_param (url key : string) : option string := Some "x".

Definition sample_mysql_job : Job := {|
  job_ID := 2; job_Category := "c"; job_URL := "u"; job_Payload := "p"; job_CreatedAt := 1001; job_NextTry := 1001;
  job_Timeout := 0; job_RetryDelay := 5; job_RetryCount := 1; job_FailCount := 0; job_FailureURL := "http://f/";
|}.

Definition sample_mysql_queue : jobQueue primaryBackup Z :=
  jobQueue_Start 0 "q" 1 {| pb_jobQueue := node 7 empty_tables; pb_active := 1 |}.

Lemma stats_Complete_mysql_witness :
  exists q', stats_Complete (Impl0 := mysql_Impl (fun _ => EmptyString)) "t" any_param (env_at 2000 id true) 2001 2001
    sample_mysql_queue (MJob sample_mysql_job "grabbed") failure = Some (q', Some ("x", "x", (false, false))) /\
    (false, false) = true_class sample_mysql_job failure.
Proof.
  eexists. split; [vm_compute; reflexivity|].
  refine (proj2 (proj2 (proj2 (stats_Complete_mysql (fun _ => EmptyString) "t" any_param (env_at 2000 id true) 2001 2001
    sample_mysql_queue sample_mysql_job "grabbed" failure _ "x" "x" (false, false) _)))).
  vm_compute. reflexivity.
Defined.

(** Over the in-memory driver the decorator counts too many permanent
    failures: the completion has already decremented the retries of the job it
    then reads, so that a job with one retry left is recorded as permanently
    failed although it is rescheduled. *)
Theorem stats_Complete_inmemory_overcounts :
  exists (q q' : jobQueue inmemory Z) env org,
    stats_Complete (Impl0 := inmemory_Impl) "t" any_param 2000 2001 2001 q 0%nat failure
      = Some (q', Some (env, org, (false, true))) /\
    true_class (impl_job (Impl := inmemory_Impl) 2000 (jq_impl q) 0%nat) failure = (false, false) /\
    queue (jq_impl q') = [0%nat].
Proof.
  set (j := {| in_Category := "c"; in_URL := "http://w/"; in_Payload := "{}"; in_NextDelay := 0; in_Timeout := 0;
               in_RetryDelay := 2; in_RetryCount := 1; in_FailureURL := "http://f/" |}).
  set (qa := fst_or q0 (jobQueue_Push rc_count "t" 1000 1000 q0 j)).
  exists (fst_or qa (jobQueue_Pop rc_count "t" 1000 1001 qa 10)). do 3 eexists.
  split; [vm_compute; reflexivity|]. split; vm_compute; reflexivity.
Qed.
