(* ===== verification/Repository.v ===== *)
(** * Repositories of queue and routing definitions (src/repository)

    [Repositories] is the interface of src/repository/repository.go: the two
    repositories share one state, since with MySQL they share one database.  The
    in-memory implementation (src/repository/inmemory) keeps maps and counters
    under a lock.  The MySQL implementation (src/repository/mysql) works on the
    tables of src/data/repository/mysql/schema with one autocommitted statement
    at a time, any of which can fail, and caches the routings.

    A [FLOAT] column does not keep every [float64]: its values are the type
    [F], written by [store_float] and read by [load_float]. *)

From S2P Require Import Prelude GoStrings MySQLTable Model.
Local Open Scope Z_scope.

(** ** Interface *)

(** [*repository.QueueNotFoundError], or an error of the storage. *)
Inductive repo_error := QueueNotFoundError (QueueName : string) | StorageError (msg : string).

Definition repo_error_Error (err : repo_error) : string :=
  match err with
  | QueueNotFoundError qn => "No such queue: " +:+ qn
  | StorageError msg => msg
  end.

(** [Add] of a routing can panic ([None]); a returned error comes with the
    boolean the code returns beside it. *)
Class Repositories (E R : Type) := {
  queue_Add : E -> R -> Queue -> R * (bool * option string);
  queue_FindAll : E -> R -> R * result string (list Queue);
  queue_FindByName : E -> R -> string -> R * result string Queue;
  queue_DeleteByName : E -> R -> string -> R * option string;
  queue_Revision : E -> R -> result string Z;
  routing_Add : E -> R -> string -> string -> option (R * (bool * option repo_error));
  routing_FindAll : E -> R -> R * result string (list Routing);
  routing_FindQueueNameByJobCategory : R -> string -> string;
  routing_DeleteByJobCategory : E -> R -> string -> R * option string;
  routing_Revision : E -> R -> result string Z;
  routing_Reload : E -> R -> R * option string;
}.

(** ** Names in order *)

Definition name_less {A} (key : A -> string) (a b : A) : bool := String.ltb (key a) (key b).

Lemma ltb_leb a b : String.ltb a b = negb (String.leb b a).
Proof. unfold String.ltb, String.leb. rewrite String.compare_antisym. by destruct (String.compare b a). Qed.

#[export] Instance name_less_order {A} (key : A -> string) : LessOrder (name_less key).
Proof.
  split; unfold name_less; intros a b; rewrite !ltb_leb, ?negb_true_iff, ?negb_false_iff.
  - intros H. by destruct (String.leb_total (key a) (key b)) as [|H']; [|rewrite H' in H].
  - intros c. rewrite !ltb_leb, !negb_false_iff. intros H1 H2. apply Is_true_true.
    apply Is_true_true in H1, H2. by transitivity (key b).
Qed.

Lemma name_leq_antisym {A} (key : A -> string) (a b : A) :
  leq (name_less key) a b -> leq (name_less key) b a -> key a = key b.
Proof.
  unfold leq, name_less. rewrite !ltb_leb, !negb_false_iff. intros H1 H2. by apply String.leb_antisym.
Qed.

(** ** In-memory repositories *)

Record queueStorage := { qs_m : gmap string Queue; qs_revision : Z }.
Record routingStorage := { rs_m : gmap string string; rs_revision : Z }.

(** The package variables [qs] and [rs]. *)
Record im_repos := { im_qs : queueStorage; im_rs : routingStorage }.

Definition im_repos_empty : im_repos := {|
  im_qs := {| qs_m := ∅; qs_revision := 0 |};
  im_rs := {| rs_m := ∅; rs_revision := 0 |};
|}.

(** The zero value of [model.Queue]. *)
Definition zero_queue : Queue := {|
  Name := EmptyString; PollingInterval := 0; MaxWorkers := 0; MaxDispatchesPerSecond := 0%Qc; MaxBurstSize := 0;
|}.

(** Two definitions are compared through their JSON texts, that is by all their
    fields; a name that is not in the map gives the zero value. *)
Definition im_queue_Add (q : Queue) (s : queueStorage) : queueStorage * (bool * option string) :=
  if bool_decide (default zero_queue (qs_m s !! Name q) = q) then (s, (false, None))
  else ({| qs_m := <[Name q := q]> (qs_m s); qs_revision := u64 (qs_revision s + 1) |}, (true, None)).

Definition im_queue_FindAll (order : list Queue -> list Queue) (s : queueStorage) : result string (list Queue) :=
  Ok (sort_slice (name_less Name) (order (map_to_list (qs_m s)).*2)).

Definition im_queue_FindByName (name : string) (s : queueStorage) : result string Queue :=
  match qs_m s !! name with
  | None => Err "Queue not found"
  | Some queue => Ok queue
  end.

Definition im_queue_DeleteByName (name : string) (s : queueStorage) : queueStorage * option string :=
  ({| qs_m := delete name (qs_m s); qs_revision := u64 (qs_revision s + 1) |}, None).

Definition im_routing_Add (jobCategory queueName : string) (s : routingStorage)
    : routingStorage * (bool * option repo_error) :=
  if bool_decide (default EmptyString (rs_m s !! jobCategory) = queueName) then (s, (false, None))
  else ({| rs_m := <[jobCategory := queueName]> (rs_m s); rs_revision := u64 (rs_revision s + 1) |}, (true, None)).

Definition im_routing_FindAll (order : list Routing -> list Routing) (s : routingStorage)
    : result string (list Routing) :=
  Ok (order ((fun '(category, queue) => {| rt_QueueName := queue; rt_JobCategory := category |})
             <$> map_to_list (rs_m s))).

Definition im_routing_Find (category : string) (s : routingStorage) : string :=
  default EmptyString (rs_m s !! category).

Definition im_routing_Delete (category : string) (s : routingStorage) : routingStorage * option string :=
  ({| rs_m := delete category (rs_m s); rs_revision := u64 (rs_revision s + 1) |}, None).

(** The iteration orders of the maps. *)
Record im_env := { ie_queues : list Queue -> list Queue; ie_routings : list Routing -> list Routing }.

Definition with_qs {A} (s : im_repos) (r : queueStorage * A) : im_repos * A :=
  ({| im_qs := r.1; im_rs := im_rs s |}, r.2).
Definition with_rs {A} (s : im_repos) (r : routingStorage * A) : im_repos * A :=
  ({| im_qs := im_qs s; im_rs := r.1 |}, r.2).

#[export] Instance inmemory_repositories : Repositories im_env im_repos := {|
  queue_Add e s q := with_qs s (im_queue_Add q (im_qs s));
  queue_FindAll e s := (s, im_queue_FindAll (ie_queues e) (im_qs s));
  queue_FindByName e s name := (s, im_queue_FindByName name (im_qs s));
  queue_DeleteByName e s name := with_qs s (im_queue_DeleteByName name (im_qs s));
  queue_Revision e s := Ok (qs_revision (im_qs s));
  routing_Add e s category queue := Some (with_rs s (im_routing_Add category queue (im_rs s)));
  routing_FindAll e s := (s, im_routing_FindAll (ie_routings e) (im_rs s));
  routing_FindQueueNameByJobCategory s category := im_routing_Find category (im_rs s);
  routing_DeleteByJobCategory e s category := with_rs s (im_routing_Delete category (im_rs s));
  routing_Revision e s := Ok (rs_revision (im_rs s));
  routing_Reload e s := (s, None);
|}.

(** ** Tables of the MySQL repositories *)

Section tables.
Context {F : Type} `{!EqDecision F} (store_float : Qc -> option F) (load_float : F -> Qc).

(** The tables by their primary keys: [queue] (polling_interval, max_workers),
    [queue_throttle] (max_dispatches_per_second, max_burst_size), [routing]
    (queue_name) and [config_revision] (revision). *)
Record config_tables := {
  ct_queue : gmap string (Z * Z);
  ct_throttle : gmap string (F * Z);
  ct_routing : gmap string string;
  ct_revision : gmap string Z;
}.

Definition empty_config : config_tables :=
  {| ct_queue := ∅; ct_throttle := ∅; ct_routing := ∅; ct_revision := ∅ |}.

(** INSERT ... ON DUPLICATE KEY UPDATE and the number of affected rows: one for
    an inserted row, two for a changed row, none for a row set to its current
    values. *)
Definition upsert {V} `{!EqDecision V} (k : string) (v : V) (m : gmap string V) : gmap string V * Z :=
  match m !! k with
  | None => (<[k := v]> m, 1)
  | Some v' => if decide (v' = v) then (m, 0) else (<[k := v]> m, 2)
  end.

Definition varchar (s : string) : bool := strlen s <=? 255.

Definition set_queue (m : gmap string (Z * Z)) (t : config_tables) : config_tables :=
  {| ct_queue := m; ct_throttle := ct_throttle t; ct_routing := ct_routing t; ct_revision := ct_revision t |}.
Definition set_throttle (m : gmap string (F * Z)) (t : config_tables) : config_tables :=
  {| ct_queue := ct_queue t; ct_throttle := m; ct_routing := ct_routing t; ct_revision := ct_revision t |}.
Definition set_routing (m : gmap string string) (t : config_tables) : config_tables :=
  {| ct_queue := ct_queue t; ct_throttle := ct_throttle t; ct_routing := m; ct_revision := ct_revision t |}.
Definition set_revision (m : gmap string Z) (t : config_tables) : config_tables :=
  {| ct_queue := ct_queue t; ct_throttle := ct_throttle t; ct_routing := ct_routing t; ct_revision := m |}.

(** The statements; [None] is a value its column does not hold. *)
Definition sql_upsert_queue (q : Queue) (t : config_tables) : option (config_tables * Z) :=
  if varchar (Name q) && bool_decide (is_u32 (PollingInterval q)) && bool_decide (is_u32 (MaxWorkers q)) then
    let '(m, n) := upsert (Name q) (PollingInterval q, MaxWorkers q) (ct_queue t) in Some (set_queue m t, n)
  else None.

Definition sql_upsert_throttle (q : Queue) (t : config_tables) : option (config_tables * Z) :=
  f ← store_float (MaxDispatchesPerSecond q);
  if varchar (Name q) && bool_decide (is_u32 (MaxBurstSize q)) then
    let '(m, n) := upsert (Name q) (f, MaxBurstSize q) (ct_throttle t) in Some (set_throttle m t, n)
  else None.

Definition sql_delete_queue (name : string) (t : config_tables) : option (config_tables * Z) :=
  Some (set_queue (delete name (ct_queue t)) t, if ct_queue t !! name is Some _ then 1 else 0).

Definition sql_delete_throttle (name : string) (t : config_tables) : option (config_tables * Z) :=
  Some (set_throttle (delete name (ct_throttle t)) t, if ct_throttle t !! name is Some _ then 1 else 0).

Definition sql_upsert_routing (jobCategory queueName : string) (t : config_tables) : option (config_tables * Z) :=
  if varchar jobCategory && varchar queueName then
    let '(m, n) := upsert jobCategory queueName (ct_routing t) in Some (set_routing m t, n)
  else None.

Definition sql_delete_routing (category : string) (t : config_tables) : option (config_tables * Z) :=
  Some (set_routing (delete category (ct_routing t)) t, if ct_routing t !! category is Some _ then 1 else 0).

(** INSERT ... ('name', 1) ON DUPLICATE KEY UPDATE revision = revision + 1 *)
Definition sql_bump_revision (name : string) (t : config_tables) : option (config_tables * Z) :=
  match ct_revision t !! name with
  | None => Some (set_revision (<[name := 1]> (ct_revision t)) t, 1)
  | Some r => if r <? u64_max then Some (set_revision (<[name := r + 1]> (ct_revision t)) t, 2) else None
  end.

(** SELECT name, polling_interval, max_workers FROM queue ORDER BY name ASC,
    scanned into definitions without throttling. *)
Definition queue_of_row (name : string) (row : Z * Z) : Queue := {|
  Name := name; PollingInterval := row.1; MaxWorkers := row.2; MaxDispatchesPerSecond := 0%Qc; MaxBurstSize := 0;
|}.

Definition sql_select_queues (t : config_tables) : list Queue :=
  sort_slice (name_less Name) ((fun '(name, row) => queue_of_row name row) <$> map_to_list (ct_queue t)).

Definition sql_select_queue (name : string) (t : config_tables) : option Queue :=
  queue_of_row name <$> ct_queue t !! name.

(** SELECT ... FROM queue_throttle WHERE name IN (...), as the map the code
    makes of the rows. *)
Definition sql_select_throttles (names : list string) (t : config_tables) : gmap string (F * Z) :=
  filter (fun p => p.1 ∈ names) (ct_throttle t).

(** SELECT queue_name, job_category FROM routing ORDER BY queue_name ASC: the
    order of the routings of one queue is up to the storage engine. *)
Definition sql_select_routings (order : list Routing -> list Routing) (t : config_tables) : list Routing :=
  sort_slice (name_less rt_QueueName)
    (order ((fun '(category, queue) => {| rt_QueueName := queue; rt_JobCategory := category |})
            <$> map_to_list (ct_routing t))).

(** ** MySQL repositories *)

(** What the database does during an operation, by the number of the statement:
    what other connections do before it, whether it fails (and whether it had its
    effect nevertheless, the reply being lost), and whether the number of affected
    rows is known. *)
Record repo_env := {
  re_others : nat -> config_tables -> config_tables;
  re_fault : nat -> option (string * bool);
  re_no_rows : nat -> bool;
  re_order : list Routing -> list Routing;
}.

(** The database with the cache of the routing repository of this node; the
    cache is a nil map until a first [FindAll] succeeds. *)
Record mysql_repos := { mr_db : config_tables; mr_routings : option (gmap string string) }.

(** [db.Exec] *)
Definition exec (e : repo_env) (k : nat) (stmt : config_tables -> option (config_tables * Z)) (t : config_tables)
    : config_tables * result string Z :=
  let t := re_others e k t in
  match re_fault e k with
  | Some (err, effective) => (if effective : bool then from_option fst t (stmt t) else t, Err err)
  | None =>
      match stmt t with
      | Some (t', n) => (t', Ok n)
      | None => (t, Err "Data out of range")
      end
  end.

(** [db.Query], read to the end *)
Definition query {A} (e : repo_env) (k : nat) (select : config_tables -> A) (t : config_tables)
    : config_tables * result string A :=
  let t := re_others e k t in
  match re_fault e k with
  | Some (err, _) => (t, Err err)
  | None => (t, Ok (select t))
  end.

(** [i, err := res.RowsAffected(); if err == nil { updated = updated || (i != 0) }] *)
Definition rows_updated (e : repo_env) (k : nat) (i : Z) (updated : bool) : bool :=
  if re_no_rows e k then updated else updated || negb (i =? 0).

Definition updateRevision (e : repo_env) (k : nat) (name : string) (t : config_tables)
    : config_tables * option string :=
  match exec e k (sql_bump_revision name) t with
  | (t', Ok _) => (t', None)
  | (t', Err err) => (t', Some err)
  end.

Definition mysql_queue_Add (e : repo_env) (q : Queue) (t : config_tables)
    : config_tables * (bool * option string) :=
  let updated := false in
  match exec e 0 (sql_upsert_queue q) t with
  | (t, Err err) => (t, (updated, Some err))
  | (t, Ok i) =>
      let updated := rows_updated e 0 i updated in
      match exec e 1 (sql_upsert_throttle q) t with
      | (t, Err err) => (t, (updated, Some err))
      | (t, Ok i) =>
          let updated := rows_updated e 1 i updated in
          if updated then
            let '(t, err) := updateRevision e 2 "queue_definition" t in (t, (updated, err))
          else (t, (updated, None))
      end
  end.

Definition findQueueThrottles (e : repo_env) (k : nat) (names : list string) (t : config_tables)
    : config_tables * result string (gmap string (F * Z)) :=
  match names with
  | [] => (t, Ok ∅)
  | _ => query e k (sql_select_throttles names) t
  end.

(** [if throttle, ok := throttles[q.Name]; ok { ... }] *)
Definition with_throttle (throttles : gmap string (F * Z)) (q : Queue) : Queue :=
  match throttles !! Name q with
  | None => q
  | Some (dps, burst) => {|
      Name := Name q; PollingInterval := PollingInterval q; MaxWorkers := MaxWorkers q;
      MaxDispatchesPerSecond := load_float dps; MaxBurstSize := burst;
    |}
  end.

Definition mysql_queue_FindAll (e : repo_env) (t : config_tables) : config_tables * result string (list Queue) :=
  match query e 0 sql_select_queues t with
  | (t, Err err) => (t, Err err)
  | (t, Ok results) =>
      match findQueueThrottles e 1 (Name <$> results) t with
      | (t, Err err) => (t, Err err)
      | (t, Ok throttles) => (t, Ok (with_throttle throttles <$> results))
      end
  end.

Definition mysql_queue_FindByName (e : repo_env) (name : string) (t : config_tables)
    : config_tables * result string Queue :=
  match query e 0 (sql_select_queue name) t with
  | (t, Err err) => (t, Err err)
  | (t, Ok None) => (t, Err "sql: no rows in result set")
  | (t, Ok (Some queue)) =>
      match findQueueThrottles e 1 [Name queue] t with
      | (t, Err err) => (t, Err err)
      | (t, Ok throttles) => (t, Ok (with_throttle throttles queue))
      end
  end.

Definition mysql_queue_DeleteByName (e : repo_env) (name : string) (t : config_tables)
    : config_tables * option string :=
  match exec e 0 (sql_delete_queue name) t with
  | (t, Err err) => (t, Some err)
  | (t, Ok _) =>
      match exec e 1 (sql_delete_throttle name) t with
      | (t, Err err) => (t, Some err)
      | (t, Ok _) => updateRevision e 2 "queue_definition" t
      end
  end.

(** [QueryRow(...).Scan(&revision)]; no row is an error. *)
Definition mysql_Revision (e : repo_env) (name : string) (t : config_tables) : result string Z :=
  match query e 0 (fun t => ct_revision t !! name) t with
  | (_, Err err) => Err err
  | (_, Ok None) => Err "sql: no rows in result set"
  | (_, Ok (Some r)) => Ok r
  end.

(** Assigning to a nil map panics; the row is written by then. *)
Definition mysql_routing_Add (e : repo_env) (jobCategory queueName : string) (s : mysql_repos)
    : option (mysql_repos * (bool * option repo_error)) :=
  let updated := false in
  match query e 0 (fun t => ct_queue t !! queueName) (mr_db s) with
  | (t, Err _) | (t, Ok None) =>
      Some ({| mr_db := t; mr_routings := mr_routings s |}, (updated, Some (QueueNotFoundError queueName)))
  | (t, Ok (Some _)) =>
      match exec e 1 (sql_upsert_routing jobCategory queueName) t with
      | (t, Err err) => Some ({| mr_db := t; mr_routings := mr_routings s |}, (updated, Some (StorageError err)))
      | (t, Ok i) =>
          let updated := rows_updated e 1 i updated in
          if updated then
            routings ← mr_routings s;
            let '(t, err) := updateRevision e 2 "routing" t in
            Some ({| mr_db := t; mr_routings := Some (<[jobCategory := queueName]> routings) |},
                  (updated, StorageError <$> err))
          else Some ({| mr_db := t; mr_routings := mr_routings s |}, (updated, None))
      end
  end.

Definition mysql_routing_Find (category : string) (s : mysql_repos) : string :=
  default EmptyString (routings ← mr_routings s; routings !! category).

Definition mysql_routing_FindAll (e : repo_env) (s : mysql_repos) : mysql_repos * result string (list Routing) :=
  match query e 0 (sql_select_routings (re_order e)) (mr_db s) with
  | (t, Err err) => ({| mr_db := t; mr_routings := mr_routings s |}, Err err)
  | (t, Ok results) =>
      let routings := foldl (fun m r => <[rt_JobCategory r := rt_QueueName r]> m) ∅ results in
      ({| mr_db := t; mr_routings := Some routings |}, Ok results)
  end.

Definition mysql_routing_Reload (e : repo_env) (s : mysql_repos) : mysql_repos * option string :=
  match mysql_routing_FindAll e s with
  | (s, Ok _) => (s, None)
  | (s, Err err) => (s, Some err)
  end.

(** [NewRoutingRepository]: the error of the first [Reload] is ignored. *)
Definition NewRoutingRepository (e : repo_env) (t : config_tables) : mysql_repos :=
  (mysql_routing_Reload e {| mr_db := t; mr_routings := None |}).1.

Definition mysql_routing_Delete (e : repo_env) (category : string) (s : mysql_repos)
    : mysql_repos * option string :=
  match exec e 0 (sql_delete_routing category) (mr_db s) with
  | (t, Err err) => ({| mr_db := t; mr_routings := mr_routings s |}, Some err)
  | (t, Ok _) =>
      let '(t, err) := updateRevision e 1 "routing" t in
      ({| mr_db := t; mr_routings := delete category <$> mr_routings s |}, err)
  end.

Definition with_db {A} (s : mysql_repos) (r : config_tables * A) : mysql_repos * A :=
  ({| mr_db := r.1; mr_routings := mr_routings s |}, r.2).

Definition mysql_repositories : Repositories repo_env mysql_repos := {|
  queue_Add e s q := with_db s (mysql_queue_Add e q (mr_db s));
  queue_FindAll e s := with_db s (mysql_queue_FindAll e (mr_db s));
  queue_FindByName e s name := with_db s (mysql_queue_FindByName e name (mr_db s));
  queue_DeleteByName e s name := with_db s (mysql_queue_DeleteByName e name (mr_db s));
  queue_Revision e s := mysql_Revision e "queue_definition" (mr_db s);
  routing_Add e s category queue := mysql_routing_Add e category queue s;
  routing_FindAll e s := mysql_routing_FindAll e s;
  routing_FindQueueNameByJobCategory s category := mysql_routing_Find category s;
  routing_DeleteByJobCategory e s category := mysql_routing_Delete e category s;
  routing_Revision e s := mysql_Revision e "routing" (mr_db s);
  routing_Reload e s := mysql_routing_Reload e s;
|}.
End tables.

Arguments config_tables : clear implicits.
Arguments mysql_repos : clear implicits.
Arguments repo_env : clear implicits.

(** ** The contract of the queue repository

    [stored q] is the definition that is read back after [q] was added, [defs]
    the definitions a repository holds, [rev] its revision. *)

Class RepositoriesSpec {E R} (repos : Repositories E R) (quiet : E -> Prop) (good : R -> Prop)
    (stored : Queue -> option Queue) (defs : R -> gmap string Queue) (rev : R -> Z) : Prop := {
  spec_keys s name q : good s -> defs s !! name = Some q -> Name q = name;
  spec_stored_name q q' : stored q = Some q' -> Name q' = Name q;
  spec_Add e s q q' : quiet e -> good s -> Name q <> EmptyString -> stored q = Some q' -> rev s < u64_max ->
    exists s' updated, queue_Add e s q = (s', (updated, None)) /\ good s' /\
      defs s' = <[Name q := q']> (defs s) /\ (if updated : bool then rev s' = rev s + 1 else s' = s);
  spec_DeleteByName e s name : quiet e -> good s -> rev s < u64_max ->
    exists s', queue_DeleteByName e s name = (s', None) /\ good s' /\
      defs s' = delete name (defs s) /\ rev s' = rev s + 1;
  spec_FindByName e s name : quiet e -> good s ->
    exists err, queue_FindByName e s name = (s, match defs s !! name with Some q => Ok q | None => Err err end);
  spec_FindAll e s : quiet e -> good s ->
    exists l, queue_FindAll e s = (s, Ok l) /\ StronglySorted (leq (name_less Name)) l /\
      l ≡ₚ (map_to_list (defs s)).*2;
  spec_Revision e s : quiet e -> good s ->
    (rev s <> 0 -> queue_Revision e s = Ok (rev s)) /\ (forall r, queue_Revision e s = Ok r -> r = rev s);
  spec_Reload e s : quiet e -> good s ->
    good (routing_Reload e s).1 /\ defs (routing_Reload e s).1 = defs s /\ rev (routing_Reload e s).1 = rev s;
}.

(** *** The in-memory repository *)

Definition im_quiet (e : im_env) : Prop := forall l, ie_queues e l ≡ₚ l.

Record im_good (s : im_repos) : Prop := {
  ig_keys name q : qs_m (im_qs s) !! name = Some q -> Name q = name;
  ig_rev : 0 <= qs_revision (im_qs s);
}.

Lemma im_queue_Add_spec q s :
  Name q <> EmptyString -> 0 <= qs_revision s < u64_max ->
  (im_queue_Add q s).2.2 = None /\
  qs_m (im_queue_Add q s).1 = <[Name q := q]> (qs_m s) /\
  if (im_queue_Add q s).2.1 then qs_revision (im_queue_Add q s).1 = qs_revision s + 1 else (im_queue_Add q s).1 = s.
Proof.
  intros Hn Hr. unfold im_queue_Add. case_bool_decide as E; simpl; split_and!; try done.
  - destruct (qs_m s !! Name q) as [q0|] eqn:E0; simpl in E; subst; [by rewrite insert_id|done].
  - apply u64_id. word.
Qed.

#[export] Instance inmemory_repositories_spec :
  RepositoriesSpec inmemory_repositories im_quiet im_good Some
    (fun s => qs_m (im_qs s)) (fun s => qs_revision (im_qs s)).
Proof.
  split; simpl.
  - intros s name q Hs. apply Hs.
  - naive_solver.
  - intros e s q q' He [Hk Hr] Hn [= <-] Hmax.
    destruct (im_queue_Add_spec q (im_qs s) Hn (conj Hr Hmax)) as (He' & Hm & Hrev).
    destruct (im_queue_Add q (im_qs s)) as [qs' [u err]]; simpl in *. subst err.
    eexists _, u. split; [reflexivity|]. simpl. split_and!; [|done|].
    + split; simpl; [|destruct u; [|subst]; lia]. intros name q0. rewrite Hm, lookup_insert_Some. naive_solver.
    + destruct u; [done|]. subst. by destruct s.
  - intros e s name He [Hk Hr] Hmax. eexists. split; [reflexivity|]. simpl. split_and!; [|done|].
    + split; simpl; [|word]. intros n q. rewrite lookup_delete_Some. naive_solver.
    + apply u64_id. word.
  - intros e s name He Hs. exists "Queue not found". unfold im_queue_FindByName.
    by destruct (qs_m (im_qs s) !! name).
  - intros e s He Hs. eexists. split; [reflexivity|]. split; [apply sort_slice_sorted, _|].
    by rewrite sort_slice_perm, (He _).
  - intros e s He Hs. split; [done|]. naive_solver.
  - done.
Qed.

(** *** The MySQL repository *)

Section mysql_spec.
Context {F : Type} `{!EqDecision F} (store_float : Qc -> option F) (load_float : F -> Qc).

Record repo_quiet (e : repo_env F) : Prop := {
  rq_others k t : re_others e k t = t;
  rq_fault k : re_fault e k = None;
  rq_rows k : re_no_rows e k = false;
  rq_order l : re_order e l ≡ₚ l;
}.

(** The definitions the two tables hold together. *)
Definition mysql_defs (t : config_tables F) : gmap string Queue :=
  map_imap (fun name row => Some (with_throttle load_float (ct_throttle t) (queue_of_row name row))) (ct_queue t).

Definition mysql_stored (q : Queue) : option Queue :=
  f ← store_float (MaxDispatchesPerSecond q);
  if varchar (Name q) && bool_decide (is_u32 (PollingInterval q)) && bool_decide (is_u32 (MaxWorkers q))
     && bool_decide (is_u32 (MaxBurstSize q)) then
    Some {| Name := Name q; PollingInterval := PollingInterval q; MaxWorkers := MaxWorkers q;
            MaxDispatchesPerSecond := load_float f; MaxBurstSize := MaxBurstSize q |}
  else None.

Definition mysql_rev (t : config_tables F) : Z := default 0 (ct_revision t !! "queue_definition").

Definition mysql_good (s : mysql_repos F) : Prop := 0 <= mysql_rev (mr_db s).

Lemma exec_ok e k stmt (t t' : config_tables F) n :
  re_others e k t = t -> re_fault e k = None -> stmt t = Some (t', n) -> exec e k stmt t = (t', Ok n).
Proof. intros Ho Hf Hs. unfold exec. by rewrite Ho, Hf, Hs. Qed.

Lemma exec_quiet e k stmt (t t' : config_tables F) n :
  repo_quiet e -> stmt t = Some (t', n) -> exec e k stmt t = (t', Ok n).
Proof. intros He. apply exec_ok; apply He. Qed.

Lemma query_quiet {A} e k (select : config_tables F -> A) t :
  repo_quiet e -> query e k select t = (t, Ok (select t)).
Proof. intros He. unfold query. by rewrite (rq_others _ He), (rq_fault _ He). Qed.

Lemma updateRevision_quiet e k name (t : config_tables F) :
  repo_quiet e -> default 0 (ct_revision t !! name) < u64_max ->
  updateRevision e k name t =
    (set_revision (<[name := default 0 (ct_revision t !! name) + 1]> (ct_revision t)) t, None).
Proof.
  intros He Hr. unfold updateRevision, exec. rewrite (rq_others _ He), (rq_fault _ He). unfold sql_bump_revision.
  destruct (ct_revision t !! name) as [r|]; [|done]. simpl in *. by rewrite (proj2 (Z.ltb_lt _ _) Hr).
Qed.

Lemma upsert_spec {V} `{!EqDecision V} k (v : V) m :
  (upsert k v m).1 = <[k := v]> m /\ ((upsert k v m).2 = 0 -> (upsert k v m).1 = m).
Proof.
  unfold upsert. destruct (m !! k) as [v'|] eqn:E; [|by split].
  destruct (decide (v' = v)) as [->|]; [|by split]. split; [|done]. simpl. by rewrite insert_id.
Qed.

Lemma mysql_defs_lookup t name :
  mysql_defs t !! name =
    (fun row => with_throttle load_float (ct_throttle t) (queue_of_row name row)) <$> ct_queue t !! name.
Proof. unfold mysql_defs. rewrite map_lookup_imap. by destruct (ct_queue t !! name). Qed.

Lemma with_throttle_name m q : Name (with_throttle load_float m q) = Name q.
Proof. unfold with_throttle. by destruct (m !! Name q) as [[]|]. Qed.

(** The two row writes of [Add], as one write of both tables. *)
Lemma mysql_Add_writes q q' (t : config_tables F) :
  mysql_stored q = Some q' ->
  exists t1 n1 t2 n2, sql_upsert_queue q t = Some (t1, n1) /\ sql_upsert_throttle store_float q t1 = Some (t2, n2) /\
    mysql_defs t2 = <[Name q := q']> (mysql_defs t) /\ ct_revision t2 = ct_revision t /\
    (n1 = 0 -> n2 = 0 -> t2 = t).
Proof.
  unfold mysql_stored. destruct (store_float (MaxDispatchesPerSecond q)) as [f|] eqn:Ef; [|done]. simpl.
  destruct (varchar (Name q)) eqn:E1; [|done]. destruct (bool_decide (is_u32 (PollingInterval q))) eqn:E2; [|done].
  destruct (bool_decide (is_u32 (MaxWorkers q))) eqn:E3; [|done].
  destruct (bool_decide (is_u32 (MaxBurstSize q))) eqn:E4; [|done]. intros [= <-].
  unfold sql_upsert_queue, sql_upsert_throttle. rewrite E1, E2, E3, E4, Ef. simpl.
  destruct (upsert_spec (Name q) (PollingInterval q, MaxWorkers q) (ct_queue t)) as [Hq Hq0].
  destruct (upsert _ (PollingInterval q, MaxWorkers q) (ct_queue t)) as [mq n1]; simpl in *.
  eexists _, n1. destruct (upsert_spec (Name q) (f, MaxBurstSize q) (ct_throttle t)) as [Ht Ht0].
  destruct (upsert _ (f, MaxBurstSize q) (ct_throttle t)) as [mt n2] eqn:Eu; simpl in *.
  eexists _, n2. split; [reflexivity|]. simpl. rewrite Eu. split; [reflexivity|]. split_and!; [|done|].
  - apply map_eq. intros name. rewrite mysql_defs_lookup. simpl. subst mq mt.
    destruct (decide (name = Name q)) as [->|Hn].
    + rewrite !lookup_insert_eq. unfold with_throttle. simpl. by rewrite lookup_insert_eq.
    + rewrite !lookup_insert_ne, mysql_defs_lookup by done. unfold with_throttle. simpl.
      by rewrite lookup_insert_ne by done.
  - intros -> ->. rewrite Hq0, Ht0 by done. by destruct t.
Qed.

(** Writing the same definition again changes no row. *)
Lemma upsert_again {V} `{!EqDecision V} k (v : V) m : upsert k v (upsert k v m).1 = ((upsert k v m).1, 0).
Proof.
  destruct (upsert_spec k v m) as [-> _]. unfold upsert. rewrite lookup_insert_eq. by rewrite decide_True by done.
Qed.

Lemma mysql_Add_writes_again q (t t1 t2 : config_tables F) n1 n2 :
  sql_upsert_queue q t = Some (t1, n1) -> sql_upsert_throttle store_float q t1 = Some (t2, n2) ->
  sql_upsert_queue q t2 = Some (t2, 0) /\ sql_upsert_throttle store_float q t2 = Some (t2, 0).
Proof.
  unfold sql_upsert_queue, sql_upsert_throttle. destruct (_ && _ && _); [|done].
  pose proof (upsert_again (Name q) (PollingInterval q, MaxWorkers q) (ct_queue t)) as A1.
  destruct (upsert _ (PollingInterval q, MaxWorkers q) (ct_queue t)) as [mq m1]. intros [= <- <-].
  destruct (store_float (MaxDispatchesPerSecond q)) as [f|]; [|done]. simpl. destruct (_ && _); [|done].
  pose proof (upsert_again (Name q) (f, MaxBurstSize q) (ct_throttle t)) as A2.
  destruct (upsert _ (f, MaxBurstSize q) (ct_throttle t)) as [mt m2]. intros [= <- <-]. simpl in *.
  by rewrite A1, A2.
Qed.

Lemma mysql_queue_Add_spec e q q' (t : config_tables F) :
  repo_quiet e -> mysql_stored q = Some q' -> mysql_rev t < u64_max ->
  exists t' updated, mysql_queue_Add store_float e q t = (t', (updated, None)) /\
    mysql_defs t' = <[Name q := q']> (mysql_defs t) /\
    if updated : bool then mysql_rev t' = mysql_rev t + 1 else t' = t.
Proof.
  intros He Hs Hr. destruct (mysql_Add_writes q q' t Hs) as (t1 & n1 & t2 & n2 & H1 & H2 & Hd & Hrev & H0).
  unfold mysql_queue_Add. rewrite (exec_quiet _ _ _ _ _ _ He H1), (exec_quiet _ _ _ _ _ _ He H2).
  unfold rows_updated. rewrite !(rq_rows _ He). simpl.
  destruct (negb (n1 =? 0) || negb (n2 =? 0)) eqn:E.
  - rewrite updateRevision_quiet by (rewrite ?Hrev; done). eexists _, true. split; [reflexivity|]. split; [done|].
    unfold mysql_rev. simpl. by rewrite lookup_insert_eq, Hrev.
  - eexists _, false. split; [reflexivity|]. split; [done|]. apply H0; lia.
Qed.

Lemma select_queues_spec (t : config_tables F) :
  sql_select_queues t ≡ₚ (fun '(name, row) => queue_of_row name row) <$> map_to_list (ct_queue t).
Proof. apply sort_slice_perm. Qed.

Lemma map_imap_to_list {A B} (f : string -> A -> B) (m : gmap string A) :
  map_to_list (map_imap (fun k a => Some (f k a)) m) ≡ₚ (fun '(k, a) => (k, f k a)) <$> map_to_list m.
Proof.
  apply NoDup_Permutation.
  - apply NoDup_map_to_list.
  - apply NoDup_fmap_2_strong; [|apply NoDup_map_to_list].
    intros [k a] [k' a'] H1 H2 [= -> _]. apply elem_of_map_to_list in H1, H2. congruence.
  - intros [k b]. rewrite elem_of_map_to_list, map_lookup_imap, list_elem_of_fmap. split.
    + destruct (m !! k) as [a|] eqn:E; [|done]. simpl. intros [= <-]. exists (k, a).
      by rewrite elem_of_map_to_list.
    + intros ([k' a] & [= -> ->] & Ha). apply elem_of_map_to_list in Ha. by rewrite Ha.
Qed.

Lemma findQueueThrottles_quiet e k names (t : config_tables F) :
  repo_quiet e -> exists m, findQueueThrottles e k names t = (t, Ok m) /\
    forall q, Name q ∈ names -> with_throttle load_float m q = with_throttle load_float (ct_throttle t) q.
Proof.
  intros He. unfold findQueueThrottles. destruct names as [|n names]; [exists ∅; split; [done|]; set_solver|].
  rewrite query_quiet by done. eexists. split; [reflexivity|]. intros q Hq.
  unfold with_throttle, sql_select_throttles. rewrite map_lookup_filter.
  destruct (ct_throttle t !! Name q); simpl; [|done]. by rewrite option_guard_True.
Qed.

Lemma joined_queues_perm (t : config_tables F) :
  with_throttle load_float (ct_throttle t) <$> sql_select_queues t ≡ₚ (map_to_list (mysql_defs t)).*2.
Proof.
  unfold mysql_defs. rewrite map_imap_to_list, select_queues_spec, <- !list_fmap_compose.
  apply reflexive_eq, list_fmap_ext. by intros i [name row] _.
Qed.

Lemma mysql_FindAll_spec e (t : config_tables F) :
  repo_quiet e -> exists l, mysql_queue_FindAll load_float e t = (t, Ok l) /\
    StronglySorted (leq (name_less Name)) l /\ l ≡ₚ (map_to_list (mysql_defs t)).*2.
Proof.
  intros He. unfold mysql_queue_FindAll. rewrite query_quiet by done.
  destruct (findQueueThrottles_quiet e 1 (Name <$> sql_select_queues t) t He) as (m & -> & Hm).
  eexists. split; [reflexivity|].
  assert (with_throttle load_float m <$> sql_select_queues t =
          with_throttle load_float (ct_throttle t) <$> sql_select_queues t) as ->.
  { apply list_fmap_ext. intros i q Hq. apply Hm, list_elem_of_fmap_2, list_elem_of_lookup. eauto. }
  split; [|apply joined_queues_perm].
  assert (StronglySorted (leq (name_less Name)) (sql_select_queues t)) as Hs by apply sort_slice_sorted, _.
  clear Hm. induction Hs as [|q l Hl IH Hq]; simpl; [constructor|]. constructor; [done|].
  rewrite Forall_fmap. eapply Forall_impl; [exact Hq|]. intros q'. unfold leq, name_less. simpl.
  by rewrite !with_throttle_name.
Qed.

Lemma mysql_FindByName_spec e name (t : config_tables F) :
  repo_quiet e -> mysql_queue_FindByName load_float e name t =
    (t, match mysql_defs t !! name with Some q => Ok q | None => Err "sql: no rows in result set" end).
Proof.
  intros He. unfold mysql_queue_FindByName. rewrite query_quiet, mysql_defs_lookup by done.
  unfold sql_select_queue. destruct (ct_queue t !! name) as [row|]; [|done].
  destruct (findQueueThrottles_quiet e 1 [name] t He) as (m & Hq & Hm). cbn -[findQueueThrottles].
  rewrite Hq, Hm; [done|]. simpl. set_solver.
Qed.

Lemma mysql_DeleteByName_spec e name (t : config_tables F) :
  repo_quiet e -> mysql_rev t < u64_max ->
  exists t', mysql_queue_DeleteByName e name t = (t', None) /\
    mysql_defs t' = delete name (mysql_defs t) /\ mysql_rev t' = mysql_rev t + 1.
Proof.
  intros He Hr. unfold mysql_queue_DeleteByName. erewrite !exec_quiet by done.
  rewrite updateRevision_quiet by done. eexists. split; [reflexivity|]. split.
  - apply map_eq. intros n. rewrite mysql_defs_lookup. simpl. destruct (decide (n = name)) as [->|Hn].
    + by rewrite !lookup_delete_eq.
    + rewrite !lookup_delete_ne, mysql_defs_lookup by done. unfold with_throttle. simpl.
      by rewrite lookup_delete_ne by done.
  - unfold mysql_rev. simpl. by rewrite lookup_insert_eq.
Qed.

#[export] Instance mysql_repositories_spec :
  RepositoriesSpec (mysql_repositories store_float load_float) repo_quiet mysql_good mysql_stored
    (fun s => mysql_defs (mr_db s)) (fun s => mysql_rev (mr_db s)).
Proof.
  split; simpl.
  - intros s name q _. rewrite mysql_defs_lookup, fmap_Some. intros (row & _ & ->). by rewrite with_throttle_name.
  - intros q q'. unfold mysql_stored. destruct (store_float _); [|done]. simpl. case_match; naive_solver.
  - intros e s q q' He Hs _ Hq Hr. destruct (mysql_queue_Add_spec e q q' _ He Hq Hr) as (t' & u & -> & Hd & Hu).
    eexists _, u. split; [reflexivity|]. unfold mysql_good in *. simpl. split_and!; [|done|].
    + destruct u; [lia|]. by subst.
    + destruct u; [done|]. subst. by destruct s.
  - intros e s name He Hs Hr. destruct (mysql_DeleteByName_spec e name _ He Hr) as (t' & -> & Hd & Hrev).
    eexists. split; [reflexivity|]. unfold mysql_good in *. simpl. split_and!; [lia|done|done].
  - intros e s name He _. eexists. rewrite mysql_FindByName_spec by done. unfold with_db. simpl. by destruct s.
  - intros e s He _. destruct (mysql_FindAll_spec e (mr_db s) He) as (l & -> & Hl). exists l. split; [|done].
    unfold with_db. simpl. by destruct s.
  - intros e s He _. unfold mysql_Revision. rewrite query_quiet by done. unfold mysql_rev.
    destruct (ct_revision (mr_db s) !! "queue_definition"); simpl; naive_solver.
  - intros e s He Hs. unfold mysql_routing_Reload, mysql_routing_FindAll. by rewrite query_quiet by done.
Qed.
End mysql_spec.

(** ** Histories of a repository *)

Inductive repo_op := AddQueue (q : Queue) | DeleteQueue (name : string).

Section history.
Context {E R : Type} {repos : Repositories E R} {quiet : E -> Prop} {good : R -> Prop}
  {stored : Queue -> option Queue} {defs : R -> gmap string Queue} {rev : R -> Z}
  {spec : RepositoriesSpec repos quiet good stored defs rev}.

Definition repo_op_step (e : E) (op : repo_op) (s : R) : R * option string :=
  match op with
  | AddQueue q => let '(s, (_, err)) := queue_Add e s q in (s, err)
  | DeleteQueue name => queue_DeleteByName e s name
  end.

(** A sequence of operations, none of which returns an error. *)
Fixpoint repo_run (ops : list (E * repo_op)) (s : R) : option R :=
  match ops with
  | [] => Some s
  | (e, op) :: ops => let '(s, err) := repo_op_step e op s in if err is None then repo_run ops s else None
  end.

(** The last operation on a name decides. *)
Fixpoint last_defs (ops : list repo_op) (m : gmap string Queue) : gmap string Queue :=
  match ops with
  | [] => m
  | AddQueue q :: ops => last_defs ops (<[Name q := default q (stored q)]> m)
  | DeleteQueue name :: ops => last_defs ops (delete name m)
  end.

Definition storable (op : repo_op) : Prop :=
  match op with AddQueue q => Name q <> EmptyString /\ is_Some (stored q) | DeleteQueue _ => True end.

Lemma repo_op_step_spec e op s :
  quiet e -> storable op -> good s -> rev s < u64_max ->
  exists s', repo_op_step e op s = (s', None) /\ good s' /\ defs s' = last_defs [op] (defs s) /\ rev s' <= rev s + 1.
Proof.
  intros He Hop Hs Hr. destruct op as [q|name]; simpl.
  - destruct Hop as [Hn [q' Hq]]. destruct (spec_Add e s q q' He Hs Hn Hq Hr) as (s' & u & -> & Hs' & Hd & Hu).
    exists s'. rewrite Hq. split_and!; [done|done|done|]. destruct u; [lia|]. subst. lia.
  - destruct (spec_DeleteByName e s name He Hs Hr) as (s' & -> & Hs' & Hd & Hu). exists s'. split_and!; [done..|lia].
Qed.

Lemma repo_run_spec ops s :
  Forall (fun p => quiet p.1 /\ storable p.2) ops -> good s -> rev s + Z.of_nat (length ops) <= u64_max ->
  exists s', repo_run ops s = Some s' /\ good s' /\ defs s' = last_defs ops.*2 (defs s).
Proof.
  intros H. revert s. induction H as [|[e op] ops [He Hop] _ IH]; intros s Hs Hr; [by exists s|].
  simpl in He, Hop, Hr. destruct (repo_op_step_spec e op s He Hop Hs ltac:(lia)) as (s1 & E1 & Hs1 & Hd1 & Hr1).
  destruct (IH s1 Hs1 ltac:(lia)) as (s' & E' & Hs' & Hd'). exists s'. simpl. rewrite E1. split_and!; [done|done|].
  rewrite Hd', Hd1. by destruct op.
Qed.

Lemma defs_elem s q : good s -> q ∈ (map_to_list (defs s)).*2 <-> defs s !! Name q = Some q.
Proof.
  intros Hs. rewrite list_elem_of_fmap. split.
  - intros ([name q'] & -> & Hq). apply elem_of_map_to_list in Hq. simpl. by rewrite (spec_keys _ _ _ Hs Hq).
  - intros Hq. exists (Name q, q). by rewrite elem_of_map_to_list.
Qed.

Lemma defs_names_NoDup s : good s -> NoDup (Name <$> (map_to_list (defs s)).*2).
Proof.
  intros Hs. rewrite <- list_fmap_compose.
  assert (Name ∘ snd <$> map_to_list (defs s) = (map_to_list (defs s)).*1) as ->; [|apply NoDup_fst_map_to_list].
  apply list_fmap_ext. intros i [name q] Hi. simpl. apply (spec_keys s); [done|].
  apply elem_of_map_to_list, list_elem_of_lookup. eauto.
Qed.
End history.

Definition name_lt (a b : Queue) : Prop := String.ltb (Name a) (Name b) = true.

Lemma sorted_names_strict l :
  StronglySorted (leq (name_less Name)) l -> NoDup (Name <$> l) -> StronglySorted name_lt l.
Proof.
  induction 1 as [|q l Hl IH Hq]; simpl; [constructor|]. rewrite NoDup_cons. intros [Hn Hd].
  constructor; [by apply IH|]. rewrite Forall_forall in Hq |- *. intros q' Hq'. specialize (Hq _ Hq').
  unfold leq, name_less in Hq. unfold name_lt. rewrite ltb_leb in Hq |- *. apply negb_false_iff in Hq.
  apply negb_true_iff. destruct (String.leb (Name q') (Name q)) eqn:E'; [|done].
  destruct Hn. rewrite (String.leb_antisym _ _ Hq E'). by apply list_elem_of_fmap_2.
Qed.

(** C29 (refinement): after any sequence of additions and deletions of queue
    definitions, none of which fails, the repository holds for every name what the
    last operation on it left: [FindByName] returns exactly that, and [FindAll]
    lists exactly these definitions, each once, by name. *)
Theorem repository_history {E R} {repos : Repositories E R} {quiet good stored defs rev}
    {spec : RepositoriesSpec repos quiet good stored defs rev} (ops : list (E * repo_op)) (s : R) :
  good s -> rev s + Z.of_nat (length ops) <= u64_max -> Forall (fun p => quiet p.1 /\ storable (stored := stored) p.2) ops ->
  exists s', repo_run ops s = Some s' /\
    let m := last_defs (stored := stored) ops.*2 (defs s) in
    forall e, quiet e ->
      (forall name, exists err,
        queue_FindByName e s' name = (s', match m !! name with Some q => Ok q | None => Err err end)) /\
      (exists l, queue_FindAll e s' = (s', Ok l) /\ StronglySorted name_lt l /\
        forall q, q ∈ l <-> m !! Name q = Some q).
Proof.
  intros Hs Hr Hops. destruct (repo_run_spec ops s Hops Hs Hr) as (s' & Hrun & Hs' & Hd).
  exists s'. split; [done|]. cbn zeta. rewrite <- Hd. intros e He. split.
  - intros name. by apply spec_FindByName.
  - destruct (spec_FindAll e s' He Hs') as (l & El & Hl & Hp). exists l. split_and!; [done| |].
    + apply sorted_names_strict; [done|]. rewrite Hp. apply (defs_names_NoDup (rev := rev) _ Hs').
    + intros q. rewrite Hp. apply (defs_elem (rev := rev) _ _ Hs').
Qed.

(** [Add] of the MySQL repository is not atomic.  When only the
    throttling does not fit its columns, [Add] fails, yet the queue is defined from
    then on, without any throttling, and the revision is unchanged. *)
Theorem mysql_Add_not_atomic {F} `{!EqDecision F} (store_float : Qc -> option F) (load_float : F -> Qc) e e' q t :
  repo_quiet e -> repo_quiet e' ->
  varchar (Name q) = true -> is_u32 (PollingInterval q) -> is_u32 (MaxWorkers q) -> u32_max < MaxBurstSize q ->
  ct_throttle t !! Name q = None ->
  let '(t', (_, err)) := mysql_queue_Add store_float e q t in
  is_Some err /\ mysql_rev t' = mysql_rev t /\
  mysql_queue_FindByName load_float e' (Name q) t' = (t', Ok {|
    Name := Name q; PollingInterval := PollingInterval q; MaxWorkers := MaxWorkers q;
    MaxDispatchesPerSecond := 0%Qc; MaxBurstSize := 0 |}).
Proof.
  intros He He' Hn Hp Hw Hb Ht. unfold mysql_queue_Add.
  destruct (upsert_spec (Name q) (PollingInterval q, MaxWorkers q) (ct_queue t)) as [Hu _].
  destruct (upsert (Name q) (PollingInterval q, MaxWorkers q) (ct_queue t)) as [m n] eqn:Eu. simpl in Hu.
  rewrite (exec_quiet e 0 _ t (set_queue m t) n He)
    by (unfold sql_upsert_queue; rewrite Hn, !bool_decide_eq_true_2, Eu by done; done).
  assert (forall t, sql_upsert_throttle store_float q t = None) as Hf.
  { intros t0. unfold sql_upsert_throttle. destruct (store_float _); [|done]. simpl.
    rewrite Hn, bool_decide_eq_false_2; [done|]. word. }
  unfold exec. rewrite (rq_others _ He), (rq_fault _ He), Hf. split_and!; [by eexists|done|].
  rewrite mysql_FindByName_spec, mysql_defs_lookup by done. simpl. rewrite Hu, lookup_insert_eq. simpl.
  unfold with_throttle. simpl. by rewrite Ht.
Qed.

(** A definition whose revision could not be updated is never
    announced.  [Add] reports the error, but repeating it reports success without
    any update: the revision stays the same although the definition has changed, so
    that no other node reloads it, nor does this one start it. *)
Theorem mysql_Add_retry_unannounced {F} `{!EqDecision F} (store_float : Qc -> option F) (load_float : F -> Qc) e e' q q' t msg :
  re_fault e 0%nat = None -> re_fault e 1%nat = None -> re_fault e 2%nat = Some (msg, false) ->
  (forall k t, re_others e k t = t) -> (forall k, re_no_rows e k = false) -> repo_quiet e' ->
  mysql_stored store_float load_float q = Some q' -> mysql_defs load_float t !! Name q <> Some q' ->
  exists t', mysql_queue_Add store_float e q t = (t', (true, Some msg)) /\
    mysql_queue_Add store_float e' q t' = (t', (false, None)) /\
    mysql_defs load_float t' !! Name q = Some q' /\ mysql_rev t' = mysql_rev t.
Proof.
  intros E0 E1 E2 Ho Hrows He' Hs Hold.
  destruct (mysql_Add_writes store_float load_float q q' t Hs) as (t1 & n1 & t2 & n2 & H1 & H2 & Hd & Hrev & H0).
  destruct (mysql_Add_writes_again store_float q t t1 t2 n1 n2 H1 H2) as [K1 K2].
  exists t2. unfold mysql_queue_Add. rewrite (exec_ok e 0 _ _ _ _ (Ho _ _) E0 H1), (exec_ok e 1 _ _ _ _ (Ho _ _) E1 H2).
  rewrite (exec_quiet e' 0 _ _ _ _ He' K1), (exec_quiet e' 1 _ _ _ _ He' K2).
  unfold rows_updated. rewrite !Hrows, !(rq_rows _ He'). cbn [orb negb Z.eqb].
  assert (negb (n1 =? 0) || negb (n2 =? 0) = true) as Hn.
  { destruct (n1 =? 0) eqn:N1, (n2 =? 0) eqn:N2; try done. exfalso. apply Hold.
    rewrite <- (H0 ltac:(lia) ltac:(lia)), Hd. by rewrite lookup_insert_eq. }
  simpl in Hn |- *. rewrite Hn. unfold updateRevision, exec. rewrite Ho, E2.
  split_and!; [done|done|by rewrite Hd, lookup_insert_eq|unfold mysql_rev; by rewrite Hrev].
Qed.

(** ** Concrete runs *)

Module RepositoryRuns.
(** A [FLOAT UNSIGNED] column that keeps every non-negative number. *)
Definition keep_float (x : Qc) : option Qc := if Qclt_le_dec x 0 then None else Some x.
Definition read_float (x : Qc) : Qc := x.

Definition calm : repo_env Qc :=
  {| re_others _ t := t; re_fault _ := None; re_no_rows _ := false; re_order l := l |}.

Lemma calm_quiet : repo_quiet calm.
Proof. by split. Qed.

(** The third statement of an operation fails. *)
Definition third_fails : repo_env Qc := {|
  re_others _ t := t; re_fault k := if (k =? 2)%nat then Some ("server has gone away", false) else None;
  re_no_rows _ := false; re_order l := l |}.

Definition queue_named (name : string) (workers burst : Z) : Queue := {|
  Name := name; PollingInterval := 100; MaxWorkers := workers; MaxDispatchesPerSecond := 1%Qc; MaxBurstSize := burst;
|}.

Definition history : list (repo_env Qc * repo_op) := [
  (calm, AddQueue (queue_named "mail" 1 5)); (calm, AddQueue (queue_named "build" 2 5));
  (calm, AddQueue (queue_named "mail" 3 5)); (calm, AddQueue (queue_named "old" 3 5)); (calm, DeleteQueue "old") ].

Definition new_repos : mysql_repos Qc := NewRoutingRepository calm empty_config.

Lemma repository_history_witness :
  exists s', repo_run (repos := mysql_repositories keep_float read_float) history new_repos = Some s' /\
    (mysql_queue_FindAll read_float calm (mr_db s')).2 =
      Ok [queue_named "build" 2 5; queue_named "mail" 3 5].
Proof.
  destruct (repository_history (spec := mysql_repositories_spec keep_float read_float) history new_repos)
    as (s' & Hs' & _).
  - unfold mysql_good. vm_compute. discriminate.
  - vm_compute. discriminate.
  - assert (forall op, storable (stored := mysql_stored keep_float read_float) op ->
      repo_quiet calm /\ storable (stored := mysql_stored keep_float read_float) op) as H
      by (intros; split; [apply calm_quiet|done]).
    repeat (apply Forall_cons; split); try apply Forall_nil_2; apply H; simpl; try done;
      (split; [discriminate|]; vm_compute; eexists; reflexivity).
  - exists s'. split; [exact Hs'|]. vm_compute in Hs'. injection Hs' as <-. vm_compute. reflexivity.
Defined.

Lemma mysql_Add_not_atomic_witness :
  let q := queue_named "mail" 1 4294967296 in
  let '(t', (_, err)) := mysql_queue_Add keep_float calm q empty_config in
  is_Some err /\ mysql_rev t' = mysql_rev (F := Qc) empty_config /\
  mysql_queue_FindByName read_float calm "mail" t' = (t', Ok {|
    Name := "mail"; PollingInterval := 100; MaxWorkers := 1; MaxDispatchesPerSecond := 0%Qc; MaxBurstSize := 0 |}).
Proof.
  apply (mysql_Add_not_atomic keep_float read_float calm calm (queue_named "mail" 1 4294967296) empty_config);
    [apply calm_quiet|apply calm_quiet|reflexivity| | | |reflexivity]; unfold is_u32, u32_max; simpl; lia.
Defined.

Lemma mysql_Add_retry_unannounced_witness :
  exists t', mysql_queue_Add keep_float third_fails (queue_named "mail" 1 5) empty_config =
      (t', (true, Some "server has gone away")) /\
    mysql_queue_Add keep_float calm (queue_named "mail" 1 5) t' = (t', (false, None)) /\
    mysql_defs read_float t' !! "mail" = Some (queue_named "mail" 1 5) /\ mysql_rev t' = mysql_rev (F := Qc) empty_config.
Proof.
  apply (mysql_Add_retry_unannounced keep_float read_float third_fails calm (queue_named "mail" 1 5)
    (queue_named "mail" 1 5) empty_config "server has gone away");
    [reflexivity..|apply calm_quiet|vm_compute; reflexivity|vm_compute; discriminate].
Defined.
End RepositoryRuns.
