(* ===== verification/Routings.v ===== *)
(** * Routings: the contract of the routing repository and its cache

    [RoutingSpec] states what a routing repository promises while nobody else
    changes it: what was added is found, listed and survives a reload, and the queue
    definitions are left alone.  Both implementations meet it.  The second part looks
    at the cache of the MySQL repository when a listing runs concurrently. *)

From S2P Require Import Prelude GoStrings MySQLTable Model Repository.
Local Open Scope Z_scope.

Definition routing_of (p : string * string) : Routing := {| rt_QueueName := p.2; rt_JobCategory := p.1 |}.

(** [routes] are the routings the repository holds; [routable] says which
    routings it accepts, [coherent] that its cache is current, [room] that the
    revision can grow. *)
Class RoutingSpec {E R} (repos : Repositories E R) (quiet : E -> Prop) (good : R -> Prop)
    (defs : R -> gmap string Queue) (rev : R -> Z)
    (coherent room : R -> Prop) (routes : R -> gmap string string) (routable : R -> string -> string -> Prop) : Prop := {
  rt_Find s c : coherent s -> routing_FindQueueNameByJobCategory s c = default EmptyString (routes s !! c);
  rt_Add e s c q : quiet e -> good s -> coherent s -> room s -> routable s c q ->
    exists s' updated, routing_Add e s c q = Some (s', (updated, None)) /\
      coherent s' /\ good s' /\ defs s' = defs s /\ rev s' = rev s /\
      default EmptyString (routes s' !! c) = q /\ (forall c', c' <> c -> routes s' !! c' = routes s !! c');
  rt_Delete e s c : quiet e -> good s -> coherent s -> room s ->
    exists s', routing_DeleteByJobCategory e s c = (s', None) /\
      coherent s' /\ good s' /\ defs s' = defs s /\ rev s' = rev s /\ routes s' = delete c (routes s);
  rt_FindAll e s : quiet e -> coherent s ->
    exists s' l, routing_FindAll e s = (s', Ok l) /\ coherent s' /\ routes s' = routes s /\
      l ≡ₚ routing_of <$> map_to_list (routes s);
  rt_Reload e s : quiet e -> coherent s ->
    exists s', routing_Reload e s = (s', None) /\ coherent s' /\ routes s' = routes s;
}.

(** ** The in-memory repository *)

Definition im_quiet_routings (e : im_env) : Prop := im_quiet e /\ forall l, ie_routings e l ≡ₚ l.

Lemma routing_fmap (m : gmap string string) :
  (fun '(category, queue) => {| rt_QueueName := queue; rt_JobCategory := category |}) <$> map_to_list m =
  routing_of <$> map_to_list m.
Proof. apply list_fmap_ext. by intros i [c q] _. Qed.

#[export] Instance inmemory_routing_spec :
  RoutingSpec inmemory_repositories im_quiet_routings im_good (fun s => qs_m (im_qs s)) (fun s => qs_revision (im_qs s))
    (fun _ => True) (fun _ => True) (fun s => rs_m (im_rs s)) (fun _ _ _ => True).
Proof.
  split; simpl.
  - done.
  - intros e s c q _ [Hk Hr] _ _ _. unfold im_routing_Add, with_rs.
    case_bool_decide as E1; eexists _, _; (split; [reflexivity|]); simpl; split_and!; try done.
    + by rewrite lookup_insert_eq.
    + intros c' Hc. by rewrite lookup_insert_ne.
  - intros e s c _ [Hk Hr] _ _. eexists. split; [reflexivity|]. by split_and!.
  - intros e s [_ He] _. eexists _, _. split; [reflexivity|]. split_and!; [done|done|].
    by rewrite (He _), routing_fmap.
  - intros e s _ _. by exists s.
Qed.

(** ** The MySQL repository *)

Section mysql.
Context {F : Type} `{!EqDecision F} (store_float : Qc -> option F) (load_float : F -> Qc).

Definition routing_rev (t : config_tables F) : Z := default 0 (ct_revision t !! "routing").

Definition mysql_coherent (s : mysql_repos F) : Prop := mr_routings s = Some (ct_routing (mr_db s)).
Definition mysql_room (s : mysql_repos F) : Prop := routing_rev (mr_db s) < u64_max.
Definition mysql_routable (s : mysql_repos F) (c q : string) : Prop :=
  varchar c = true /\ varchar q = true /\ is_Some (ct_queue (mr_db s) !! q).

(** The map a listing makes of its rows. *)
Definition cache_of (rows : list Routing) : gmap string string :=
  foldl (fun m r => <[rt_JobCategory r := rt_QueueName r]> m) ∅ rows.

Lemma foldl_insert_perm (l : list Routing) (m : gmap string string) :
  NoDup (rt_JobCategory <$> l) ->
  forall c, foldl (fun m r => <[rt_JobCategory r := rt_QueueName r]> m) m l !! c =
    match list_find (fun r => rt_JobCategory r = c) l with
    | Some (_, r) => Some (rt_QueueName r)
    | None => m !! c
    end.
Proof.
  revert m. induction l as [|r l IH]; intros m Hnd c; simpl; [done|].
  simpl in Hnd. apply NoDup_cons in Hnd as [Hn Hnd]. rewrite IH by done.
  destruct (decide (rt_JobCategory r = c)) as [<-|Hc].
  - destruct (list_find (fun r' => rt_JobCategory r' = rt_JobCategory r) l) as [[k r']|] eqn:Ef.
    + apply list_find_Some in Ef as (Hk & He & _). destruct Hn. rewrite <- He.
      apply list_elem_of_fmap_2, list_elem_of_lookup. eauto.
    + by rewrite lookup_insert_eq.
  - rewrite lookup_insert_ne by done. by destruct (list_find _ l) as [[k r']|].
Qed.

Lemma cache_of_perm (m : gmap string string) rows :
  rows ≡ₚ routing_of <$> map_to_list m -> cache_of rows = m.
Proof.
  intros Hp. unfold cache_of. apply map_eq. intros c.
  assert (rt_JobCategory <$> (routing_of <$> map_to_list m) = (map_to_list m).*1) as Ec.
  { rewrite <- list_fmap_compose. apply list_fmap_ext. by intros i [c' q] _. }
  rewrite foldl_insert_perm by (rewrite Hp, Ec; apply NoDup_fst_map_to_list).
  destruct (list_find _ rows) as [[k r]|] eqn:Ef.
  - apply list_find_Some in Ef as (Hk & He & _). apply list_elem_of_lookup_2 in Hk. rewrite Hp in Hk.
    apply list_elem_of_fmap in Hk as ([c' q] & -> & Hin). simpl in He. subst c'.
    by apply elem_of_map_to_list in Hin.
  - rewrite lookup_empty. symmetry. apply eq_None_not_Some. intros [q Hq].
    apply list_find_None in Ef. rewrite Forall_forall in Ef.
    apply (Ef {| rt_QueueName := q; rt_JobCategory := c |}); [|done].
    rewrite Hp. apply list_elem_of_fmap. exists (c, q). by rewrite elem_of_map_to_list.
Qed.

Lemma select_routings_perm order (t : config_tables F) :
  (forall l, order l ≡ₚ l) -> sql_select_routings order t ≡ₚ routing_of <$> map_to_list (ct_routing t).
Proof. intros Ho. unfold sql_select_routings. by rewrite sort_slice_perm, Ho, routing_fmap. Qed.

Lemma mysql_routing_FindAll_spec e (s : mysql_repos F) :
  repo_quiet e ->
  mysql_routing_FindAll e s =
    ({| mr_db := mr_db s; mr_routings := Some (ct_routing (mr_db s)) |}, Ok (sql_select_routings (re_order e) (mr_db s))).
Proof.
  intros He. unfold mysql_routing_FindAll. rewrite query_quiet by done. fold (cache_of (sql_select_routings (re_order e) (mr_db s))).
  by rewrite (cache_of_perm (ct_routing (mr_db s))) by (apply select_routings_perm, He).
Qed.

#[export] Instance mysql_routing_spec :
  RoutingSpec (mysql_repositories store_float load_float) repo_quiet mysql_good
    (fun s => mysql_defs load_float (mr_db s)) (fun s => mysql_rev (mr_db s))
    mysql_coherent mysql_room (fun s => ct_routing (mr_db s)) mysql_routable.
Proof.
  split; simpl; unfold mysql_coherent, mysql_room, mysql_good in *.
  - intros s c Hc. unfold mysql_routing_Find. by rewrite Hc.
  - intros e s c q He Hg Hc Hroom (Hvc & Hvq & row & Hq). unfold mysql_routing_Add. rewrite query_quiet, Hq by done.
    destruct (upsert_spec c q (ct_routing (mr_db s))) as [Hu H0].
    destruct (upsert c q (ct_routing (mr_db s))) as [m n] eqn:Eu. simpl in Hu, H0.
    rewrite (exec_quiet e 1 _ (mr_db s) (set_routing m (mr_db s)) n He)
      by (unfold sql_upsert_routing; by rewrite Hvc, Hvq, Eu).
    unfold rows_updated. rewrite (rq_rows _ He). simpl. destruct (Z.eqb_spec n 0) as [Hn|Hn]; simpl.
    + eexists _, false. split; [reflexivity|]. simpl. rewrite Hc, (H0 Hn). split_and!; [by destruct (mr_db s)|done..| |done].
      rewrite <- (H0 Hn), Hu. by rewrite lookup_insert_eq.
    + rewrite Hc. simpl. rewrite updateRevision_quiet by done. eexists _, true. split; [reflexivity|]. simpl.
      split_and!; [by rewrite Hu| | | | |].
      * unfold mysql_rev in *. simpl. by rewrite lookup_insert_ne.
      * done.
      * unfold mysql_rev. simpl. by rewrite lookup_insert_ne.
      * by rewrite Hu, lookup_insert_eq.
      * intros c' Hc'. by rewrite Hu, lookup_insert_ne.
  - intros e s c He Hg Hc Hroom. unfold mysql_routing_Delete. erewrite exec_quiet by done.
    rewrite updateRevision_quiet by done. eexists. split; [reflexivity|]. simpl. rewrite Hc. simpl.
    split_and!; [done| |done| |done]; unfold mysql_rev in *; simpl; by rewrite lookup_insert_ne.
  - intros e s He Hc. rewrite mysql_routing_FindAll_spec by done. eexists _, _. split; [reflexivity|].
    split_and!; [done|done|]. apply select_routings_perm, He.
  - intros e s He Hc. unfold mysql_routing_Reload. rewrite mysql_routing_FindAll_spec by done. eauto.
Qed.

(** ** A listing that runs concurrently *)

(** [FindAll] reads the rows first, and takes the lock of the cache afterwards. *)
Definition listing_query (e : repo_env F) (s : mysql_repos F) : result string (list Routing) :=
  (query e 0 (sql_select_routings (re_order e)) (mr_db s)).2.

Definition listing_store (rows : list Routing) (s : mysql_repos F) : mysql_repos F :=
  {| mr_db := mr_db s; mr_routings := Some (cache_of rows) |}.

Lemma FindAll_is_query_store e s :
  mysql_routing_FindAll e s =
    match listing_query e s with
    | Err err => ({| mr_db := (query e 0 (sql_select_routings (re_order e)) (mr_db s)).1; mr_routings := mr_routings s |}, Err err)
    | Ok rows => (listing_store rows {| mr_db := (query e 0 (sql_select_routings (re_order e)) (mr_db s)).1;
                                        mr_routings := mr_routings s |}, Ok rows)
    end.
Proof.
  unfold mysql_routing_FindAll, listing_query, listing_store.
  by destruct (query e 0 (sql_select_routings (re_order e)) (mr_db s)) as [t [rows|err]].
Qed.
End mysql.

(** A listing of the routings can bring the cache back to the
    past.  It has read the rows; a routing is then changed, and the watcher reloads
    the cache and remembers the revision; when the listing stores its rows, the cache
    has the old routing again although the storage has the new one, and the revision
    is the one the watcher has seen, so that nothing reloads it. *)
Theorem routing_cache_stale {F} (e : repo_env F) s c q rows :
  repo_quiet e -> mysql_coherent s -> mysql_room s -> mysql_routable s c q ->
  default EmptyString (ct_routing (mr_db s) !! c) <> q -> 0 <= routing_rev (mr_db s) -> listing_query e s = Ok rows ->
  exists s1 s2, mysql_routing_Add e c q s = Some (s1, (true, None)) /\ mysql_routing_Reload e s1 = (s2, None) /\
    let s3 := listing_store rows s2 in
    mysql_routing_Find c s3 = default EmptyString (ct_routing (mr_db s) !! c) /\
    ct_routing (mr_db s3) !! c = Some q /\
    exists r, mysql_Revision e "routing" (mr_db s3) = Ok r /\ mysql_Revision e "routing" (mr_db s2) = Ok r.
Proof.
  intros He Hc Hroom (Hvc & Hvq & row & Hq) Hne Hrev Hrows. unfold mysql_routing_Add. rewrite query_quiet, Hq by done.
  destruct (upsert_spec c q (ct_routing (mr_db s))) as [Hu H0].
  destruct (upsert c q (ct_routing (mr_db s))) as [m n] eqn:Eu. simpl in Hu, H0.
  rewrite (exec_quiet e 1 _ (mr_db s) (set_routing m (mr_db s)) n He)
    by (unfold sql_upsert_routing; by rewrite Hvc, Hvq, Eu).
  assert (n <> 0) as Hn.
  { intros Hn. apply Hne. rewrite <- (H0 Hn), Hu. by rewrite lookup_insert_eq. }
  unfold rows_updated. rewrite (rq_rows _ He). simpl. rewrite (proj2 (Z.eqb_neq n 0) Hn). simpl. rewrite Hc. simpl.
  rewrite updateRevision_quiet by done. eexists _, _. split; [reflexivity|].
  unfold mysql_routing_Reload. rewrite mysql_routing_FindAll_spec by done. split; [reflexivity|].
  unfold listing_query in Hrows. rewrite query_quiet in Hrows by done. injection Hrows as <-.
  unfold mysql_routing_Find, listing_store, mysql_Revision. rewrite !query_quiet by done. simpl.
  rewrite (cache_of_perm (ct_routing (mr_db s))) by (apply select_routings_perm, He).
  rewrite Hu, !lookup_insert_eq. eauto.
Qed.

Module RoutingRuns.
Import RepositoryRuns.

(** A repository with two queues and a routing to the first. *)
Definition routed : mysql_repos Qc := {|
  mr_db := {| ct_queue := {["a" := (100, 1); "b" := (100, 1)]}; ct_throttle := ∅; ct_routing := {["mail" := "a"]};
              ct_revision := {["routing" := 1]} |};
  mr_routings := Some {["mail" := "a"]};
|}.

Lemma routing_cache_stale_witness :
  exists s1 s2, mysql_routing_Add calm "mail" "b" routed = Some (s1, (true, None)) /\
    mysql_routing_Reload calm s1 = (s2, None) /\
    mysql_routing_Find "mail" (listing_store [{| rt_QueueName := "a"; rt_JobCategory := "mail" |}] s2) = "a".
Proof.
  destruct (routing_cache_stale calm routed "mail" "b" [{| rt_QueueName := "a"; rt_JobCategory := "mail" |}])
    as (s1 & s2 & H1 & H2 & H3 & _).
  - apply calm_quiet.
  - reflexivity.
  - vm_compute. reflexivity.
  - split; [reflexivity|]. split; [reflexivity|]. vm_compute. eexists. reflexivity.
  - vm_compute. discriminate.
  - vm_compute. discriminate.
  - vm_compute. reflexivity.
  - exists s1, s2. split; [exact H1|]. split; [exact H2|]. exact H3.
Defined.
End RoutingRuns.
