(* ===== verification/Descriptions.v ===== *)
(** * The help text (src/config/descriptions.go)

    The description of a configuration key as the help of the command shows it:
    Markdown is stripped, lines are wrapped at a width and indented.  Texts are lists
    of bytes; the tokens of [bufio.Scanner] are taken to be shorter than its buffer
    of 64 KiB, as those of the descriptions are. *)

From Stdlib Require Import Ascii.
From S2P Require Import Prelude GoStrings Paging Repository Config.
Local Open Scope Z_scope.

Definition nl : ascii := "010"%char.
Definition cr : ascii := "013"%char.
Definition sp : ascii := " "%char.

(** [len] *)
Definition len {A} (l : list A) : Z := Z.of_nat (length l).

(** [strings.Repeat(" ", n)]; a negative count panics. *)
Definition spaces (n : Z) : option (list ascii) := if n <? 0 then None else Some (replicate (Z.to_nat n) sp).

(** ** bufio.Scanner *)

(** A carriage return at the end of a line is dropped. *)
Definition drop_cr (l : list ascii) : list ascii :=
  match last l with Some a => if Ascii.eqb a cr then take (length l - 1) l else l | None => l end.

(** [bufio.ScanLines]: no line follows the last newline. *)
Fixpoint scan_lines (cur l : list ascii) : list (list ascii) :=
  match l with
  | [] => match cur with [] => [] | _ => [drop_cr (reverse cur)] end
  | a :: l' => if Ascii.eqb a nl then drop_cr (reverse cur) :: scan_lines [] l' else scan_lines (a :: cur) l'
  end.

Definition ScanLines (l : list ascii) : list (list ascii) := scan_lines [] l.

(** The number of bytes of the white space ([isSpace] of bufio, in UTF-8) at the
    start of a text; zero when there is none. *)
Definition space_width (l : list ascii) : nat :=
  match byte_of <$> l with
  | b :: rest =>
      if ((9 <=? b) && (b <=? 13)) || (b =? 32) then 1%nat
      else if b =? 194 then match rest with c :: _ => if (c =? 133) || (c =? 160) then 2%nat else 0%nat | _ => 0%nat end
      else match rest with
      | c :: d :: _ =>
          if ((b =? 225) && (c =? 154) && (d =? 128))
             || ((b =? 226) && (c =? 128) && (((128 <=? d) && (d <=? 138)) || (d =? 168) || (d =? 169) || (d =? 175)))
             || ((b =? 226) && (c =? 129) && (d =? 159))
             || ((b =? 227) && (c =? 128) && (d =? 128)) then 3%nat else 0%nat
      | _ => 0%nat
      end
  | [] => 0%nat
  end.

(** [bufio.ScanWords]: [skip] bytes of a white space are left to skip. *)
Fixpoint scan_words (skip : nat) (cur l : list ascii) : list (list ascii) :=
  match l with
  | [] => match cur with [] => [] | _ => [reverse cur] end
  | a :: l' =>
      match skip with
      | S skip => scan_words skip cur l'
      | O =>
          match space_width l with
          | O => scan_words 0 (a :: cur) l'
          | S w => match cur with [] => scan_words w [] l' | _ => reverse cur :: scan_words w [] l' end
          end
      end
  end.

Definition ScanWords (l : list ascii) : list (list ascii) := scan_words 0 [] l.

(** ** Wrapping and indenting *)

(** One round of the loop of [wrapLine], on its buffer and its two counters. *)
Definition wrap_token (width : Z) (st : list ascii * Z * Z) (token : list ascii) : list ascii * Z * Z :=
  let '(buf, count, length) := st in
  if width <? length + 1 + len token then (buf ++ nl :: token, count + 1, len token)
  else (buf ++ (if 0 <? count then [sp] else []) ++ token, count + 1, length + (1 + len token)).

Definition wrapLine (width : Z) (s : list ascii) : list ascii :=
  if len s <=? width then s
  else (foldl (wrap_token width) ([], 0, 0) (ScanWords s)).1.1.

Definition wrapLines (width : Z) (s : list ascii) : list ascii :=
  concat ((fun line => wrapLine width line ++ [nl]) <$> ScanLines s).

Definition indentLines (n : Z) (s : list ascii) : option (list ascii) :=
  indent ← spaces n;
  Some (concat ((fun line => indent ++ line ++ [nl]) <$> ScanLines s)).

(** ** Markdown *)

(** The characters a tag has between its angle brackets: letters, digits, quotes,
    spaces, slashes, dots, underscores and hyphens *)
Definition tag_char (a : ascii) : bool :=
  let b := byte_of a in
  ((97 <=? b) && (b <=? 122)) || ((65 <=? b) && (b <=? 90)) || ((48 <=? b) && (b <=? 57))
  || existsb (Ascii.eqb a) ["'"%char; "034"%char; " "%char; "/"%char; "."%char; "_"%char; "-"%char].

(** The longest prefix of characters that satisfy a condition, and the rest. *)
Fixpoint span {A} (f : A -> bool) (l : list A) : list A * list A :=
  match l with
  | [] => ([], [])
  | a :: l' => if f a then let '(p, r) := span f l' in (a :: p, r) else ([], l)
  end.

(** The text after the tag at the start of a text, which begins after its opening bracket. *)
Definition match_tag (l : list ascii) : option (list ascii) :=
  match span tag_char l with
  | (_ :: _, ">"%char :: rest) => Some rest
  | _ => None
  end.

(** The text and the rest of the link at the start of a text, which begins after
    its opening bracket. *)
Definition match_link (l : list ascii) : option (list ascii * list ascii) :=
  match span (fun a => negb (Ascii.eqb a "]"%char)) l with
  | (x :: text, "]"%char :: "["%char :: l') =>
      match span (fun a => negb (Ascii.eqb a "]"%char)) l' with
      | (_, "]"%char :: rest) => Some (x :: text, rest)
      | _ => None
      end
  | (x :: text, "]"%char :: "("%char :: l') =>
      match span (fun a => negb (Ascii.eqb a ")"%char)) l' with
      | (_, ")"%char :: rest) => Some (x :: text, rest)
      | _ => None
      end
  | _ => None
  end.

(** [ReplaceAll]: leftmost matches, one after the other; every round consumes a
    character, so the length of the text is enough fuel. *)
Fixpoint strip_tags (fuel : nat) (l : list ascii) : list ascii :=
  match fuel, l with
  | S fuel, a :: l' =>
      match (if Ascii.eqb a "<"%char then match_tag l' else None) with
      | Some rest => strip_tags fuel rest
      | None => a :: strip_tags fuel l'
      end
  | _, _ => []
  end.

Fixpoint strip_links (fuel : nat) (l : list ascii) : list ascii :=
  match fuel, l with
  | S fuel, a :: l' =>
      match (if Ascii.eqb a "["%char then match_link l' else None) with
      | Some (text, rest) => text ++ strip_links fuel rest
      | None => a :: strip_links fuel l'
      end
  | _, _ => []
  end.

Definition stripMarkdown (s : list ascii) : list ascii :=
  let s := strip_tags (length s) s in
  let s := strip_links (length s) s in
  filter (fun a => a <> "`"%char) s.

(** ** Items *)

Record configItem := { ci_label : string; ci_defaultValue : string; ci_description : string }.

Record Item := { it_Name : string; it_DefaultValue : string; it_Label : string; it_Description : string }.

Definition configItem_export (item : configItem) (name : string) : Item := {|
  it_Name := name; it_DefaultValue := ci_defaultValue item; it_Label := ci_label item;
  it_Description := ci_description item;
|}.

Definition Argument (item : Item) : string := "--" +:+ flag_name (it_Name item).

(** [order] is the order in which the map is ranged over. *)
Definition Descriptions (order : list (string * configItem) -> list (string * configItem))
    (defaultConf : gmap string configItem) : list Item :=
  (fun '(name, item) => configItem_export item name) <$>
    sort_slice (name_less fst) (order (map_to_list defaultConf)).

(** [None] when a negative indent panics. *)
Definition Describe (item : Item) (indent width : Z) : option (list ascii) :=
  indent1 ← spaces indent;
  indent2 ← spaces (indent * 2);
  let argument := indent1 ++ chars (Argument item +:+ "=" +:+ it_Label item) in
  let defaultValue := indent2 ++ chars ("default: " +:+ it_DefaultValue item) in
  description ← indentLines (indent * 2) (wrapLines (width - indent * 2) (stripMarkdown (chars (it_Description item))));
  Some (argument ++ [nl] ++
        (if 0 <? strlen (it_DefaultValue item) then defaultValue ++ [nl] else []) ++ description).

Example describe_example :
  Describe {| it_Name := "queue_log"; it_DefaultValue := EmptyString; it_Label := "<file>";
    it_Description := "See [the format](#queue) of a <code>log</code>." |} 2 20 =
  Some (chars ("  --queue-log=<file>" +:+ newline +:+ "    See the format" +:+ newline +:+ "    of a log." +:+ newline)).
Proof. vm_compute. reflexivity. Qed.

(** ** Theorems *)

(** Texts separated by a character. *)
Fixpoint join (sep : ascii) (ls : list (list ascii)) : list ascii :=
  match ls with
  | [] => []
  | [l] => l
  | l :: ls => l ++ sep :: join sep ls
  end.

Lemma join_snoc sep ls l : ls <> [] -> join sep (ls ++ [l]) = join sep ls ++ sep :: l.
Proof.
  induction ls as [|x ls IH]; intros Hne; [done|]. destruct ls as [|y ls]; [done|].
  change (x ++ sep :: join sep ((y :: ls) ++ [l]) = (x ++ sep :: join sep (y :: ls)) ++ sep :: l).
  rewrite IH by done. by rewrite <- app_assoc.
Qed.

(** A line that fits, or that has at most one word. *)
Definition line_fits (width : Z) (ws : list (list ascii)) : Prop :=
  len (join sp ws) <= width \/ (length ws <= 1)%nat.

(** The lines written so far, the last one being written. *)
Record wrap_inv (width : Z) (words : list (list ascii)) (st : list ascii * Z * Z)
    (done : list (list (list ascii))) (cur : list (list ascii)) : Prop := {
  wi_buf : st.1.1 = join nl (join sp <$> (done ++ [cur]));
  wi_words : concat (done ++ [cur]) = words;
  wi_count : st.1.2 = len words;
  wi_empty : cur = [] -> done = [];
  wi_length : len (join sp cur) <= st.2;
  wi_fits : Forall (line_fits width) (done ++ [cur]);
}.

Lemma wrap_token_inv width words st lines cur token :
  wrap_inv width words st lines cur ->
  exists lines' cur', wrap_inv width (words ++ [token]) (wrap_token width st token) lines' cur'.
Proof.
  intros [Hb Hw Hc He Hl Hf]. destruct st as [[buf count] length]. simpl in *. subst buf count.
  destruct (Z.ltb_spec width (length + 1 + len token)) as [Hlt|Hle].
  - exists (lines ++ [cur]), [token]. split; simpl; try done.
    + rewrite (fmap_app (join sp) (lines ++ [cur]) [[token]]). change (join sp <$> [[token]]) with [token].
      rewrite join_snoc; [done|]. rewrite fmap_app. by destruct (join sp <$> lines).
    + rewrite concat_app, Hw. simpl. done.
    + unfold len. rewrite length_app. simpl. lia.
    + apply Forall_app. split; [done|]. apply Forall_singleton. right. simpl. lia.
  - exists lines, (cur ++ [token]). destruct (decide (cur = [])) as [->|Hne].
    + rewrite (He eq_refl) in *. simpl in *. subst words. split; simpl; try done.
      * unfold len in *. simpl in *. lia.
      * apply Forall_singleton. right. simpl. lia.
    + assert (len (join sp (cur ++ [token])) = len (join sp cur) + 1 + len token) as Hlen.
      { rewrite join_snoc by done. unfold len. rewrite length_app. simpl. lia. }
      assert (0 < len words) as Hpos.
      { subst words. rewrite concat_app. unfold len. rewrite length_app. simpl. destruct cur; [done|]. simpl. lia. }
      split; simpl.
      * rewrite (proj2 (Z.ltb_lt _ _) Hpos), !fmap_app. change (join sp <$> [cur]) with [join sp cur].
        change (join sp <$> [cur ++ [token]]) with [join sp (cur ++ [token])]. rewrite (join_snoc sp cur token Hne).
        destruct (join sp <$> lines) as [|x l]; [done|]. rewrite !(join_snoc nl (x :: l)) by done. by rewrite <- app_assoc.
      * subst words. rewrite !concat_app. simpl. by rewrite !app_nil_r, app_assoc.
      * unfold len. rewrite length_app. simpl. lia.
      * by destruct cur.
      * lia.
      * apply Forall_app in Hf as [Hf _]. apply Forall_app. split; [done|]. apply Forall_singleton. left. lia.
Qed.

Lemma wrap_tokens_inv width tokens words st lines cur :
  wrap_inv width words st lines cur ->
  exists lines' cur', wrap_inv width (words ++ tokens) (foldl (wrap_token width) st tokens) lines' cur'.
Proof.
  revert words st lines cur. induction tokens as [|token tokens IH]; intros words st lines cur Hi; simpl.
  - exists lines, cur. by rewrite app_nil_r.
  - destruct (wrap_token_inv _ _ _ _ _ token Hi) as (lines' & cur' & Hi').
    destruct (IH _ _ _ _ Hi') as (lines'' & cur'' & Hi''). rewrite <- app_assoc in Hi''. eauto.
Qed.

(** A line that fits is not touched; a longer one becomes lines that
    fit, or are a single word that is too long, and that have together the words of
    the line in their order. *)
Theorem wrapLine_correct width s :
  (len s <= width -> wrapLine width s = s) /\
  (width < len s -> exists lines, wrapLine width s = join nl (join sp <$> lines) /\ concat lines = ScanWords s /\
    Forall (line_fits width) lines).
Proof.
  unfold wrapLine. destruct (Z.leb_spec (len s) width) as [Hle|Hlt]; (split; [intros|intros]); try done; try lia.
  destruct (wrap_tokens_inv width (ScanWords s) [] ([], 0, 0) [] []) as (lines & cur & [Hb Hw _ _ _ Hf]).
  { split; simpl; try done. apply Forall_singleton. right. simpl. lia. }
  exists (lines ++ [cur]). done.
Qed.
