(* ===== verification/Server.v ===== *)
(** * Starting and stopping the process (src/main.go, src/log, src/redisclient, src/web/server.go, application.go)

    What [main] does with the configuration before it serves: log writers, the pid
    file, the parameters of the HTTP client and of the HTTP server, Redis; and how a
    signal ends it.  What the operating system answers is an argument.  A panic is
    [None]. *)

From Stdlib Require Import Ascii.
From S2P Require Import Prelude GoStrings MySQLQueue Config.
Local Open Scope Z_scope.

(** ** Log levels and writers (src/log) *)

Inductive level := DebugLevel | InfoLevel | WarnLevel | ErrorLevel | FatalLevel.

(** [strings.ToLower]; names of levels are ASCII *)
Definition lower_char (a : ascii) : ascii :=
  if (65 <=? byte_of a) && (byte_of a <=? 90) then ascii_of (byte_of a + 32) else a.

Definition ToLower (s : string) : string := str (lower_char <$> chars s).

Definition ParseLevel (name : string) (defaultLevel : level) : level :=
  let name := ToLower name in
  if String.eqb name "0" || String.eqb name "debug" then DebugLevel
  else if String.eqb name "1" || String.eqb name "info" then InfoLevel
  else if String.eqb name "2" || String.eqb name "warn" then WarnLevel
  else if String.eqb name "3" || String.eqb name "error" then ErrorLevel
  else if String.eqb name "4" || String.eqb name "fatal" then FatalLevel
  else defaultLevel.

(** A file is its name and its descriptor. *)
Inductive writer := Stream (name : string) | FileWriter (name : string) (fd : Z).

(** The file system: [MkdirAll] of the directory of a file, and [os.OpenFile]. *)
Record fs := {
  fs_MkdirAll : string -> option string;
  fs_OpenFile : string -> result string Z;
}.

Definition openFile (o : fs) (name : string) : result string Z :=
  match fs_MkdirAll o name with
  | Some err => Err err
  | None => fs_OpenFile o name
  end.

(** The writer is nil when there is an error. *)
Definition OpenFile (o : fs) (name : string) : option writer * option string :=
  match openFile o name with
  | Err err => (None, Some err)
  | Ok fd => (Some (FileWriter name fd), None)
  end.

(** [Reopen] of a nil writer panics. *)
Definition Reopen (o : fs) (w : option writer) : option (option writer * option string) :=
  match w with
  | None => None
  | Some (Stream name) => Some (Some (Stream name), None)
  | Some (FileWriter name fd) =>
      match openFile o name with
      | Err err => Some (Some (FileWriter name fd), Some err)
      | Ok fd => Some (Some (FileWriter name fd), None)
      end
  end.

(** ** initLogging (src/main.go) and logger.Init (src/jobqueue/logger) *)

Record logging := {
  lg_access : option writer;
  lg_error : option writer;
  lg_errorLevel : level;
  lg_queue : option writer;
  lg_queueTag : string;
  lg_queueLevel : level;
}.

(** A log that is configured is a file, and nil when it cannot be opened. *)
Definition open_log (o : fs) (name : string) (stream : string) : option writer :=
  if 0 <? strlen name then (OpenFile o name).1 else Some (Stream stream).

(** [logger.Init] panics when the file of the queue log cannot be opened. *)
Definition logger_Init (o : fs) (conf : string -> string) : option (option writer * string * level) :=
  let tag := conf "queue_log_tag" in
  let queue_level := ParseLevel (conf "queue_log_level") InfoLevel in
  if 0 <? strlen (conf "queue_log") then
    match OpenFile o (conf "queue_log") with
    | (w, None) => Some (w, tag, queue_level)
    | (_, Some _) => None
    end
  else Some (Some (Stream "stdout"), tag, queue_level).

Definition initLogging (o : fs) (conf : string -> string) : option logging :=
  let access := open_log o (conf "access_log") "stdout" in
  let error_level := ParseLevel (conf "error_log_level") InfoLevel in
  let error := open_log o (conf "error_log") "stderr" in
  '(queue, tag, queue_level) ← logger_Init o conf;
  Some {| lg_access := access; lg_error := error; lg_errorLevel := error_level;
          lg_queue := queue; lg_queueTag := tag; lg_queueLevel := queue_level |}.

(** The goroutine that reopens the log files on a signal; errors are logged. *)
Definition reopen_logs (o : fs) (l : logging) : option logging :=
  '(access, _) ← Reopen o (lg_access l);
  '(queue, _) ← Reopen o (lg_queue l);
  '(error, _) ← Reopen o (lg_error l);
  Some {| lg_access := access; lg_error := error; lg_errorLevel := lg_errorLevel l;
          lg_queue := queue; lg_queueTag := lg_queueTag l; lg_queueLevel := lg_queueLevel l |}.

(** ** initProcess *)

(** What is written where: the process identifier and a newline to the file
    [pid], if there is one and its directory can be made. *)
Definition initProcess (o : fs) (conf : string -> string) (pid : Z) : option (option (string * list ascii)) :=
  let name := conf "pid" in
  if bool_decide (name = EmptyString) then Some None
  else match fs_MkdirAll o name with
  | Some _ => Some None
  | None =>
      match fs_OpenFile o name with
      | Err _ => None
      | Ok _ => Some (Some (name, format_int pid ++ ["010"%char]))
      end
  end.

(** ** Parameters of HTTP (src/dispatcher/worker/http.go, src/web/web.go) *)

(** [strconv.ParseBool] *)
Definition ParseBool (s : string) : option bool :=
  if existsb (String.eqb s) ["1"; "t"; "T"; "TRUE"; "true"; "True"] then Some true
  else if existsb (String.eqb s) ["0"; "f"; "F"; "FALSE"; "false"; "False"] then Some false
  else None.

(** [strconv.ParseInt(s, 10, 32)]: a value and whether there is an error; a value
    out of range is the nearest one in range. *)
Definition ParseInt32 (s : string) : Z * bool :=
  let '(neg, l) :=
    match chars s with
    | "-"%char :: l => (true, l)
    | "+"%char :: l => (false, l)
    | l => (false, l)
    end in
  match l, parse_digits 0 l with
  | _ :: _, Some n =>
      let n := if neg : bool then - n else n in
      if n <? - 2147483648 then (- 2147483648, true)
      else if 2147483647 <? n then (2147483647, true)
      else (n, false)
  | _, _ => (0, true)
  end.

Section parameters.
Context (conf conf_default : string -> string).

(** A value that does not parse is replaced by the default, and that by false. *)
Definition conf_bool (key : string) : bool :=
  match ParseBool (conf key) with
  | Some b => b
  | None => default false (ParseBool (conf_default key))
  end.

Definition conf_int32 (key : string) : Z :=
  match ParseInt32 (conf key) with
  | (v, false) => v
  | (_, true) => (ParseInt32 (conf_default key)).1
  end.

Record http_params := {
  hp_MaxIdleConns : Z;
  hp_DisableKeepAlives : bool;
  hp_MaxIdleConnsPerHost : Z;
  hp_IdleConnTimeout : Z;   (* ns *)
  hp_UserAgent : string;
}.

Definition HTTPInit : http_params := {|
  hp_MaxIdleConns := 0;
  hp_DisableKeepAlives := negb (conf_bool "dispatch_keep_alive");
  hp_MaxIdleConnsPerHost := conf_int32 "dispatch_max_conns_per_host";
  hp_IdleConnTimeout := i64 (conf_int32 "dispatch_idle_conn_timeout" * 1000000000);
  hp_UserAgent := conf "dispatch_user_agent";
|}.

(** [web.Init]: the value of [disableKeepAlives]. *)
Definition web_Init : bool := negb (conf_bool "keep_alive").

(** [redisclient.Init]: the address of the client, if any; [ping] is the error of
    the first ping. *)
Definition redis_Init (ping : string -> option string) : option (option string) :=
  let addr := conf "redis_addr" in
  if bool_decide (addr = EmptyString) then Some None
  else match ping addr with Some _ => None | None => Some (Some addr) end.

Definition redis_IsEnabled (client : option string) : bool := match client with Some _ => true | None => false end.

(** ** Repositories (src/repository/mysql/db.go) *)

Definition repository_Dsn : string :=
  let dsn := conf "repository_mysql_dsn" in
  if bool_decide (dsn = EmptyString) then conf "mysql_dsn" else dsn.

Definition queue_Dsn : string :=
  let dsn := conf "queue_mysql_dsn" in
  if bool_decide (dsn = EmptyString) then conf "mysql_dsn" else dsn.

(** [NewDB]: the outcome of opening, the timeout of the server, and the outcome
    of each statement of the schema; the lifetime of connections on success. *)
Fixpoint run_schema (outcomes : list (option string)) : option string :=
  match outcomes with
  | [] => None
  | Some err :: _ => Some err
  | None :: outcomes => run_schema outcomes
  end.

Definition NewDB (open : option string) (wait_timeout : option Z) (schema : list (option string))
    : result string (option Z) :=
  match open with
  | Some err => Err err
  | None =>
      let lifetime := conn_max_lifetime wait_timeout in
      match run_schema schema with Some err => Err err | None => Ok lifetime end
  end.

(** [NewRepositories]: the repositories of the driver; an unknown driver, or a
    database that cannot be set up, panics. *)
Inductive repositories_impl := MySQLRepositories (lifetime : option Z) | InMemoryRepositories.

Definition NewRepositories (open : option string) (wait_timeout : option Z) (schema : list (option string))
    : option repositories_impl :=
  let driver := conf "driver" in
  if String.eqb driver "mysql" then
    match NewDB open wait_timeout schema with Ok lifetime => Some (MySQLRepositories lifetime) | Err _ => None end
  else if String.eqb driver "in-memory" then Some InMemoryRepositories
  else None.
End parameters.

(** ** main *)

Record process := {
  ps_logging : logging;
  ps_pidfile : option (string * list ascii);
  ps_http : http_params;
  ps_disableKeepAlives : bool;
  ps_redis : option string;
}.

Record cmdArgs := { ca_showVersion : bool; ca_showLicense : bool; ca_showCredits : bool; ca_flags : gmap string string }.

(** What a process that ends prints: a text on standard output or on standard
    error, or the usage after an error of the flags. *)
Inductive printed := ToStdout (text : string) | ToStderr (text : string) | Usage.

Inductive main_result := ExitCode (code : Z) (output : printed) | Started (p : process).

(** [main] after the flags that only print something. *)
Definition main_start (o : fs) (getenv : string -> string) (version : string -> string) (pid : Z)
    (ping : string -> option string) (flags : gmap string string) : option process :=
  let c := startup getenv (version "/") flags in
  let conf key := (Get getenv c key).2 in
  logs ← initLogging o conf;
  pidfile ← initProcess o conf pid;
  redis ← redis_Init conf ping;
  Some {| ps_logging := logs; ps_pidfile := pidfile; ps_http := HTTPInit conf (GetDefault c);
          ps_disableKeepAlives := web_Init conf (GetDefault c); ps_redis := redis |}.

(** What [main] does up to [startServer]; [args] is what the flag package makes of
    the command line, nil after an error or after the help. *)
Definition main_init (o : fs) (getenv : string -> string) (version : string -> string) (license credits : string)
    (pid : Z) (ping : string -> option string) (args : option cmdArgs) : option main_result :=
  match args with
  | None => Some (ExitCode 1 Usage)
  | Some a =>
      if ca_showVersion a then Some (ExitCode 0 (ToStderr (version " " +:+ newline)))
      else if ca_showLicense a then Some (ExitCode 0 (ToStdout (license +:+ newline)))
      else if ca_showCredits a then Some (ExitCode 0 (ToStdout (credits +:+ newline)))
      else Started <$> main_start o getenv version pid ping (ca_flags a)
  end.

(** ** Stopping (src/web/server.go, application.go) *)

(** [shutdownTimeout]; anything but an integer panics. *)
Definition shutdownTimeout (conf : string -> string) : option Z := u64 <$> Atoi (chars (conf "shutdown_timeout")).

(** [time.Duration(timeout) * time.Second], in nanoseconds *)
Definition shutdown_duration (timeout : Z) : Z := i64 (i64 timeout * 1000000000).

(** How the server ends, in nanoseconds after the first signal: when the second
    signal comes, if at all, how long the open requests take and the error of the
    shutdown then, the error of [Close], and how long the service takes to stop. *)
Record stopping := {
  sp_second : option Z;
  sp_requests : Z;
  sp_shutdown_err : option string;
  sp_close_err : option string;
  sp_service : Z;
}.

Definition deadline_exceeded : string := "context deadline exceeded".

(** [server.Shutdown]: when it returns and with which error. *)
Definition Shutdown (timeout : Z) (p : stopping) : Z * option string :=
  let expires := Z.max 0 timeout in
  if sp_requests p <=? expires then (sp_requests p, sp_shutdown_err p) else (expires, Some deadline_exceeded).

(** [graceful]: when it returns, the time that is left, and the error. *)
Definition graceful (timeout : Z) (p : stopping) : Z * Z * option string :=
  let '(done, err) := Shutdown timeout p in
  match sp_second p with
  | Some t => if t <? done then (t, 0, sp_close_err p) else (done, timeout - done, err)
  | None => (done, timeout - done, err)
  end.

(** [Serve]: when it returns and whether the service had stopped. *)
Definition Serve_stop (timeout : Z) (p : stopping) : Z * bool :=
  let '(t, remaining, _) := graceful timeout p in
  if sp_service p <? Z.max 0 remaining then (t + sp_service p, true) else (t + Z.max 0 remaining, false).

(** ** Theorems *)

Record stopping_ok (p : stopping) : Prop := {
  so_second t : sp_second p = Some t -> 0 <= t;
  so_requests : 0 <= sp_requests p;
  so_service : 0 <= sp_service p;
}.

Local Ltac compare_times :=
  repeat match goal with
  | |- context [?a <=? ?b] => destruct (Z.leb_spec a b); simpl
  | |- context [?a <? ?b] => destruct (Z.ltb_spec a b); simpl
  end; try lia.

Definition no_second (p : stopping) : stopping := {|
  sp_second := None; sp_requests := sp_requests p; sp_shutdown_err := sp_shutdown_err p;
  sp_close_err := sp_close_err p; sp_service := sp_service p |}.

(** C34 (bounds): after the first signal the process ends within the timeout,
    however long requests and jobs take.  A second signal while the HTTP server
    shuts down, that is before the last request is done and before the timeout,
    ends it at once, without waiting for the jobs; one that comes later, while the
    service stops, changes nothing.  Without a second signal it ends as soon as the
    requests and the jobs are done, with the service stopped, when they are done
    in time, and otherwise when the timeout is over.  A configured timeout is kept
    up to 2^63-1 nanoseconds. *)
Theorem Serve_deadline timeout p :
  stopping_ok p ->
  (Serve_stop timeout p).1 <= Z.max 0 timeout /\
  (forall t, sp_second p = Some t -> t < sp_requests p -> t < Z.max 0 timeout -> Serve_stop timeout p = (t, false)) /\
  (forall t, sp_second p = Some t -> Z.min (sp_requests p) (Z.max 0 timeout) <= t ->
    Serve_stop timeout p = Serve_stop timeout (no_second p)) /\
  (sp_second p = None ->
    Serve_stop timeout p =
      if sp_requests p + sp_service p <? timeout then (sp_requests p + sp_service p, true) else (Z.max 0 timeout, false)) /\
  (forall n, 0 <= n <= 9223372036 -> shutdown_duration n = n * 1000000000).
Proof.
  intros [Hs Hr Hv]. unfold Serve_stop, graceful, Shutdown. split_and!.
  - destruct (sp_second p) as [t|]; [specialize (Hs t eq_refl)|]; compare_times; simpl; lia.
  - intros t E Ht Hlt. specialize (Hs t E). rewrite E. compare_times; simpl; f_equal; lia.
  - intros t E Ht. rewrite E. cbn [no_second sp_second sp_requests sp_shutdown_err sp_service].
    compare_times; simpl; f_equal; lia.
  - intros E. rewrite E. compare_times; simpl; f_equal; lia.
  - intros n Hn. unfold shutdown_duration. rewrite !i64_id; [done|word..].
Qed.

(** Thirty seconds, with requests that take one second and jobs that take ten: a
    second signal during the requests ends the process, one after them does not. *)
Lemma Serve_deadline_witness :
  let p t := {| sp_second := Some t; sp_requests := 1000000000; sp_shutdown_err := None; sp_close_err := None;
                sp_service := 10000000000 |} in
  Serve_stop 30000000000 (p 500000000) = (500000000, false) /\
  Serve_stop 30000000000 (p 2000000000) = (11000000000, true).
Proof.
  intros p. assert (forall t, 0 <= t -> stopping_ok (p t)) as Hok by (intros t Ht; split; simpl; [congruence|lia|lia]).
  split.
  - destruct (Serve_deadline 30000000000 (p 500000000) (Hok 500000000 ltac:(lia))) as (_ & H & _).
    apply (H 500000000 eq_refl); simpl; lia.
  - destruct (Serve_deadline 30000000000 (p 2000000000) (Hok 2000000000 ltac:(lia))) as (_ & _ & H & _).
    rewrite (H 2000000000 eq_refl); [vm_compute; reflexivity|simpl; lia].
Defined.

(** When the access log is a file that cannot be opened, the process
    starts all the same, with a nil writer; the first signal to reopen the logs then
    ends it by a panic. *)
Theorem reopen_nil_access_log o o' conf err q :
  0 < strlen (conf "access_log") -> openFile o (conf "access_log") = Err err -> logger_Init o conf = Some q ->
  exists l, initLogging o conf = Some l /\ lg_access l = None /\ reopen_logs o' l = None.
Proof.
  intros Hn Ho Hq. unfold initLogging. rewrite Hq. destruct q as [[queue tag] lv]. simpl.
  eexists. split; [reflexivity|]. assert (open_log o (conf "access_log") "stdout" = None) as Ha.
  { unfold open_log, OpenFile. by rewrite (proj2 (Z.ltb_lt _ _) Hn), Ho. }
  simpl. split; [done|]. unfold reopen_logs. simpl. by rewrite Ha.
Qed.

(** A directory that cannot be made. *)
Definition denied : fs := {| fs_MkdirAll _ := Some "permission denied"; fs_OpenFile _ := Err "permission denied" |}.
Definition access_conf (key : string) : string := if String.eqb key "access_log" then "/var/log/access.log" else EmptyString.

Lemma reopen_nil_access_log_witness :
  exists l, initLogging denied access_conf = Some l /\ lg_access l = None /\ reopen_logs denied l = None.
Proof.
  apply (reopen_nil_access_log denied denied access_conf "permission denied" (Some (Stream "stdout"), EmptyString, InfoLevel)).
  - reflexivity.
  - reflexivity.
  - vm_compute. reflexivity.
Defined.
