(* ===== verification/Service.v ===== *)
(** * The service (src/service)

    [Service] runs one queue with its dispatcher for every queue definition of
    the repository (service.go, running_queue.go), routes pushed jobs to them, and
    follows the revisions of the repositories (config_watcher.go).

    Every operation runs in a critical section of [s.mu] and [s.muJob], and is a
    function here.  The queue driver is behind [QueueFactory]: its world is what
    outlives a running queue (the tables of MySQL, the counter of identifiers of
    the in-memory driver).  A panic is [None]. *)

From S2P Require Import Prelude GoStrings Job QueueSpec Model Dispatcher Repository.
Local Open Scope Z_scope.

(** [factory.Start], with [Stop] and [Push] of the queue it returns. *)
Class QueueFactory (QE W JQ : Type) := {
  qf_Start : QE -> W -> Queue -> option (W * JQ);
  qf_Stop : W -> JQ -> W;
  qf_Push : QE -> W -> JQ -> IncomingJob -> option (W * JQ * result QueueError Z);
}.

(** [service.PushResult] *)
Record PushResult := { pr_ID : Z; pr_QueueName : string }.

Inductive push_error :=
| NoRouting (category : string)
| UndefinedQueue (qn : string)
| PushFailed (err : QueueError).

Definition push_error_Error (err : push_error) : string :=
  match err with
  | NoRouting category => "No routing of job category '" +:+ category +:+ "' exists"
  | UndefinedQueue qn => "Undefined queue: " +:+ qn
  | PushFailed err => QueueError_Error err
  end.

(** When throttling is configured, the polling interval is fixed. *)
Definition throttleQueuePollingInterval : Z := 100.

(** The checks of [addJobQueue], with the change of the polling interval. *)
Definition check_throttle (q : Queue) : result string Queue :=
  if bool_decide (0 < MaxDispatchesPerSecond q)%Qc then
    if MaxBurstSize q =? 0 then Err "Cannot configure MaxDispatchesPerSecond without MaxBurstSize"
    else Ok {| Name := Name q; PollingInterval := throttleQueuePollingInterval; MaxWorkers := MaxWorkers q;
               MaxDispatchesPerSecond := MaxDispatchesPerSecond q; MaxBurstSize := MaxBurstSize q |}
  else if bool_decide (MaxDispatchesPerSecond q < 0)%Qc then Err "MaxDispatchesPerSecond should be non-negative"
  else if negb (MaxBurstSize q =? 0) then Err "Cannot configure MaxBurstSize without MaxDispatchesPerSecond"
  else Ok q.

Section service.
Context {E R : Type} {repos : Repositories E R}.
Context {QE W JQ : Type} {factory : QueueFactory QE W JQ}.
(** The value of [config.Get]. *)
Context (conf : string -> string).

(** A queue with its dispatcher, and the definition both were started with. *)
Record runningQueue := { rq_JobQueue : JQ; rq_dispatcher : dispatcher_config; rq_definition : Queue }.

(** [configWatcher]: its last revision; a watcher exists for the queues and one
    for the routings. *)
Record Service := {
  sv_defaultQueueName : string;
  sv_repos : R;
  sv_world : W;
  sv_runningQueues : gmap string runningQueue;
  sv_queueW : Z;
  sv_routingW : Z;
}.

Definition set_repos (r : R) (s : Service) : Service := {|
  sv_defaultQueueName := sv_defaultQueueName s; sv_repos := r; sv_world := sv_world s;
  sv_runningQueues := sv_runningQueues s; sv_queueW := sv_queueW s; sv_routingW := sv_routingW s;
|}.

Definition set_running (w : W) (m : gmap string runningQueue) (s : Service) : Service := {|
  sv_defaultQueueName := sv_defaultQueueName s; sv_repos := sv_repos s; sv_world := w;
  sv_runningQueues := m; sv_queueW := sv_queueW s; sv_routingW := sv_routingW s;
|}.

Definition set_watched (queueW routingW : Z) (s : Service) : Service := {|
  sv_defaultQueueName := sv_defaultQueueName s; sv_repos := sv_repos s; sv_world := sv_world s;
  sv_runningQueues := sv_runningQueues s; sv_queueW := queueW; sv_routingW := routingW;
|}.

(** ** Running queues *)

(** The dispatcher is started with the default configuration; the decorator of
    the statistics does not change the queue. *)
Definition startJobQueue (e : QE) (w : W) (q : Queue) : option (W * runningQueue) :=
  '(w, jq) ← qf_Start e w q;
  d ← Config_Start 0 q;
  Some (w, {| rq_JobQueue := jq; rq_dispatcher := d; rq_definition := q |}).

(** [runningQueue.Push]: the [Ping] of a polling dispatcher does nothing. *)
Definition runningQueue_Push (e : QE) (w : W) (q : runningQueue) (job : IncomingJob)
    : option (W * runningQueue * result QueueError Z) :=
  '(w, jq, r) ← qf_Push e w (rq_JobQueue q) job;
  Some (w, {| rq_JobQueue := jq; rq_dispatcher := rq_dispatcher q; rq_definition := rq_definition q |}, r).

(** ** Queues of the service *)

Definition getJobQueue (qn : string) (s : Service) : option runningQueue := sv_runningQueues s !! qn.

(** [<-jq.Deactivate(); <-jq.Stop(); delete(s.runningQueues, qn)] *)
Definition stopJobQueue (qn : string) (s : Service) : Service :=
  match sv_runningQueues s !! qn with
  | Some jq => set_running (qf_Stop (sv_world s) (rq_JobQueue jq)) (delete qn (sv_runningQueues s)) s
  | None => s
  end.

Definition putJobQueue (e : QE) (q : Queue) (s : Service) : option Service :=
  let s := stopJobQueue (Name q) s in
  '(w, jq) ← startJobQueue e (sv_world s) q;
  Some (set_running w (<[Name q := jq]> (sv_runningQueues s)) s).

(** [uint(strconv.Atoi(config.Get(key)))]; anything but an integer panics. *)
Definition conf_uint (key : string) : option Z := u64 <$> Atoi (chars (conf key)).

Definition defaultPollingInterval : option Z := conf_uint "queue_default_polling_interval".
Definition defaultMaxWorkers : option Z := conf_uint "queue_default_max_workers".
Definition configRefreshInterval : option Z := conf_uint "config_refresh_interval".

Definition fill_defaults (q : Queue) : option Queue :=
  polling ← (if PollingInterval q =? 0 then defaultPollingInterval else Some (PollingInterval q));
  workers ← (if MaxWorkers q =? 0 then defaultMaxWorkers else Some (MaxWorkers q));
  Some {| Name := Name q; PollingInterval := polling; MaxWorkers := workers;
          MaxDispatchesPerSecond := MaxDispatchesPerSecond q; MaxBurstSize := MaxBurstSize q |}.

(** The definition the caller passed is changed in place: it is returned with
    the error. *)
Definition addJobQueue (e : E) (qe : QE) (q : Queue) (s : Service) : option (Service * Queue * option string) :=
  match check_throttle q with
  | Err err => Some (s, q, Some err)
  | Ok q =>
      q ← fill_defaults q;
      let '(r, (updated, err)) := queue_Add e (sv_repos s) q in
      let s := set_repos r s in
      match err with
      | Some err => Some (s, q, Some err)
      | None => if updated : bool then s ← putJobQueue qe q s; Some (s, q, None) else Some (s, q, None)
      end
  end.

Definition DeleteJobQueue (e : E) (qn : string) (s : Service) : Service * option string :=
  let '(r, err) := queue_DeleteByName e (sv_repos s) qn in
  let s := set_repos r s in
  match err with
  | Some err => (s, Some err)
  | None => (stopJobQueue qn s, None)
  end.

(** ** Push *)

(** The queue of a category: its routing, else the default queue, else its
    routing after a reload; an empty name is no queue. *)
Definition route (e : E) (category : string) (s : Service) : Service * string :=
  let qn := routing_FindQueueNameByJobCategory (sv_repos s) category in
  let qn := if bool_decide (qn = EmptyString) then sv_defaultQueueName s else qn in
  if bool_decide (qn = EmptyString) then
    let s := set_repos (routing_Reload e (sv_repos s)).1 s in
    (s, routing_FindQueueNameByJobCategory (sv_repos s) category)
  else (s, qn).

(** Pushing to the queue [jq] that runs under [name]. *)
Definition push_running (qe : QE) (name qn : string) (jq : runningQueue) (job : IncomingJob) (s : Service)
    : option (Service * result push_error PushResult) :=
  '(w, jq, r) ← runningQueue_Push qe (sv_world s) jq job;
  let s := set_running w (<[name := jq]> (sv_runningQueues s)) s in
  match r with
  | Err err => Some (s, Err (PushFailed err))
  | Ok id => Some (s, Ok {| pr_ID := id; pr_QueueName := qn |})
  end.

(** A queue that is defined but does not run is started; [e1] and [e2] are the
    environments of the reload and of the lookup, [qe1] and [qe2] those of the start
    and of the push. *)
Definition Push (e1 e2 : E) (qe1 qe2 : QE) (job : IncomingJob) (s : Service)
    : option (Service * result push_error PushResult) :=
  let '(s, qn) := route e1 (in_Category job) s in
  if bool_decide (qn = EmptyString) then Some (s, Err (NoRouting (in_Category job)))
  else match getJobQueue qn s with
  | Some jq => push_running qe2 qn qn jq job s
  | None =>
      let '(r, found) := queue_FindByName e2 (sv_repos s) qn in
      let s := set_repos r s in
      match found with
      | Err _ => Some (s, Err (UndefinedQueue qn))
      | Ok q =>
          s ← putJobQueue qe1 q s;
          jq ← getJobQueue (Name q) s;
          push_running qe2 (Name q) qn jq job s
      end
  end.

(** ** Startup and reload *)

Definition initDefaultQueue (e : E) (qe : QE) (queueName : string) (s : Service) : option Service :=
  match getJobQueue queueName s with
  | Some _ => Some s
  | None =>
      let queue := {| Name := queueName; PollingInterval := 0; MaxWorkers := 0;
                      MaxDispatchesPerSecond := 0%Qc; MaxBurstSize := 0 |} in
      '(s, _, err) ← addJobQueue e qe queue s;
      if err is None then Some s else None
  end.

Fixpoint putJobQueues (qe : QE) (qs : list Queue) (s : Service) : option Service :=
  match qs with
  | [] => Some s
  | q :: qs => s ← putJobQueue qe q s; putJobQueues qe qs s
  end.

Definition service_startup (e1 e2 : E) (qe : QE) (s : Service) : option Service :=
  match queue_FindAll e1 (sv_repos s) with
  | (_, Err _) => None
  | (r, Ok qs) =>
      s ← putJobQueues qe qs (set_repos r s);
      let queueName := conf "queue_default" in
      if bool_decide (queueName = EmptyString) then Some s else initDefaultQueue e2 qe queueName s
  end.

(** [deactivateQueues] and [destroyQueues]: every queue is stopped, each in a
    goroutine of its own. *)
Definition destroyQueues (s : Service) : Service :=
  set_running (foldr (fun jq w => qf_Stop w (rq_JobQueue jq)) (sv_world s) (map_to_list (sv_runningQueues s)).*2) ∅ s.

Definition reloadQueues (e1 e2 : E) (qe : QE) (s : Service) : option Service :=
  service_startup e1 e2 qe (destroyQueues s).

Definition reloadRoutings (e : E) (s : Service) : Service :=
  set_repos (routing_Reload e (sv_repos s)).1 s.

(** [newConfigWatcher]: an error of [revision] leaves zero. *)
Definition newConfigWatcher (revision : result string Z) : Z :=
  match revision with Ok rev => rev | Err _ => 0 end.

Definition NewService (e0 e1 e2 : E) (qe : QE) (r : R) (w : W) : option Service :=
  service_startup e1 e2 qe {|
    sv_defaultQueueName := conf "queue_default"; sv_repos := r; sv_world := w; sv_runningQueues := ∅;
    sv_queueW := newConfigWatcher (queue_Revision e0 r);
    sv_routingW := newConfigWatcher (routing_Revision e0 r);
  |}.

Definition service_Stop (s : Service) : Service := destroyQueues s.

(** A tick of [configWatcher.loop]: whether to reload, with the new last
    revision. *)
Definition watcher_tick (revision : result string Z) (lastRevision : Z) : option Z :=
  match revision with
  | Ok rev => if rev =? lastRevision then None else Some rev
  | Err _ => None
  end.

Definition tick_queues (e0 e1 e2 : E) (qe : QE) (s : Service) : option Service :=
  match watcher_tick (queue_Revision e0 (sv_repos s)) (sv_queueW s) with
  | None => Some s
  | Some rev => reloadQueues e1 e2 qe (set_watched rev (sv_routingW s) s)
  end.

Definition tick_routings (e0 e1 : E) (s : Service) : Service :=
  match watcher_tick (routing_Revision e0 (sv_repos s)) (sv_routingW s) with
  | None => s
  | Some rev => reloadRoutings e1 (set_watched (sv_queueW s) rev s)
  end.
End service.

Arguments runningQueue : clear implicits.
Arguments Service : clear implicits.

(** ** Invariant *)

(** Throttling is configured completely and with its polling interval, or not
    at all. *)
Definition valid_throttle (q : Queue) : Prop :=
  ((0 < MaxDispatchesPerSecond q)%Qc /\ MaxBurstSize q <> 0 /\ PollingInterval q = throttleQueuePollingInterval) \/
  (MaxDispatchesPerSecond q = 0%Qc /\ MaxBurstSize q = 0).

Lemma check_throttle_valid q q' : check_throttle q = Ok q' -> valid_throttle q' /\ Name q' = Name q.
Proof.
  unfold check_throttle, valid_throttle. case_bool_decide as H1.
  - destruct (Z.eqb_spec (MaxBurstSize q) 0); [done|]. intros [= <-]. simpl. split; [by left|done].
  - case_bool_decide as H2; [done|]. destruct (Z.eqb_spec (MaxBurstSize q) 0) as [Hb|]; [|done]. simpl.
    intros [= <-]. split; [|done]. right. split; [|done].
    destruct (Qc_dec (MaxDispatchesPerSecond q) 0) as [[?|?]|?]; [by destruct H2|by destruct H1|done].
Qed.

(** Definitions by their names. *)
Definition by_name (qs : list Queue) : gmap string Queue := list_to_map ((fun q => (Name q, q)) <$> qs).

Lemma by_name_perm (m : gmap string Queue) l :
  (forall name q, m !! name = Some q -> Name q = name) -> l ≡ₚ (map_to_list m).*2 -> by_name l = m.
Proof.
  intros Hm Hl. unfold by_name. rewrite <- (list_to_map_to_list m).
  assert ((fun q => (Name q, q)) <$> l ≡ₚ map_to_list m) as Hp.
  { rewrite Hl, <- list_fmap_compose. apply reflexive_eq.
    rewrite <- (list_fmap_id (map_to_list m)) at 2. apply list_fmap_ext. intros i [name q] Hi. simpl.
    f_equal. apply Hm, elem_of_map_to_list, list_elem_of_lookup. eauto. }
  apply list_to_map_proper; [|done]. rewrite Hp. apply NoDup_fst_map_to_list.
Qed.

Section invariant.
Context {E R : Type} {repos : Repositories E R} {quiet : E -> Prop} {good : R -> Prop}
  {stored : Queue -> option Queue} {defs : R -> gmap string Queue} {rev : R -> Z}
  {spec : RepositoriesSpec repos quiet good stored defs rev}.
Context {QE W JQ : Type} {factory : QueueFactory QE W JQ} (conf : string -> string).

(** A running queue runs under the name of its definition, its dispatcher is
    the one of that definition. *)
Record running_ok (name : string) (rq : runningQueue JQ) : Prop := {
  ro_name : Name (rq_definition rq) = name;
  ro_dispatcher : Config_Start 0 (rq_definition rq) = Some (rq_dispatcher rq);
  ro_throttle : valid_throttle (rq_definition rq);
}.

Record service_ok (s : Service R W JQ) : Prop := {
  so_good : good (sv_repos s);
  so_defs name q : defs (sv_repos s) !! name = Some q -> valid_throttle q;
  so_running name rq : sv_runningQueues s !! name = Some rq -> running_ok name rq;
}.

Lemma fill_defaults_valid q q' :
  fill_defaults conf q = Some q' -> valid_throttle q -> valid_throttle q' /\ Name q' = Name q.
Proof.
  unfold fill_defaults. destruct (if PollingInterval q =? 0 then _ else _) as [polling|] eqn:Ep; [|done]. simpl.
  destruct (if MaxWorkers q =? 0 then _ else _); [|done]. simpl. intros [= <-] [(? & ? & Hp)|?]; (split; [|done]).
  - left. rewrite Hp in Ep. simpl in *. by injection Ep as <-.
  - by right.
Qed.

(** What [putJobQueue] does to the running queues. *)
Lemma putJobQueue_spec qe q (s s' : Service R W JQ) :
  putJobQueue qe q s = Some s' ->
  sv_repos s' = sv_repos s /\ sv_queueW s' = sv_queueW s /\ sv_routingW s' = sv_routingW s /\
  sv_defaultQueueName s' = sv_defaultQueueName s /\
  exists rq, sv_runningQueues s' = <[Name q := rq]> (sv_runningQueues s) /\
    rq_definition rq = q /\ Config_Start 0 q = Some (rq_dispatcher rq).
Proof.
  unfold putJobQueue, startJobQueue, stopJobQueue. destruct (sv_runningQueues s !! Name q) eqn:Eq; simpl;
    (destruct (qf_Start _ _ q) as [[w jq]|]; [|done]); simpl;
    (destruct (Config_Start 0 q) eqn:Ec; [|done]); simpl; intros [= <-]; simpl; (split_and!; [done..|]);
    eexists; (split; [by rewrite ?insert_delete_eq|by split]).
Qed.

Lemma putJobQueue_ok qe q (s s' : Service R W JQ) :
  putJobQueue qe q s = Some s' -> valid_throttle q -> service_ok s -> service_ok s'.
Proof.
  intros Hp Hv [Hg Hd Hr]. destruct (putJobQueue_spec _ _ _ _ Hp) as (Er & _ & _ & _ & rq & Em & <- & Hc).
  split; rewrite ?Er; [done|done|]. intros name rq'. rewrite Em, lookup_insert_Some.
  intros [[<- <-]|[_ ?]]; [by split|by apply Hr].
Qed.

Record repo_ok (r : R) : Prop := {
  rk_good : good r;
  rk_defs name q : defs r !! name = Some q -> valid_throttle q;
}.

Lemma service_ok_repos (s : Service R W JQ) r : service_ok s -> repo_ok r -> service_ok (set_repos r s).
Proof. intros [_ _ Hr] [Hg Hd]. by split. Qed.

Lemma service_repo_ok (s : Service R W JQ) : service_ok s -> repo_ok (sv_repos s).
Proof. intros [Hg Hd _]. by split. Qed.

(** The definition [addJobQueue] adds is one the repository can hold. *)
Definition addable (q : Queue) : Prop :=
  Name q <> EmptyString /\
  forall q1 q2, check_throttle q = Ok q1 -> fill_defaults conf q1 = Some q2 -> is_Some (stored q2).

(** Storing a definition keeps throttling configured. *)
Context (stored_valid : forall q q', stored q = Some q' -> valid_throttle q -> valid_throttle q').

Lemma repo_Add_ok e r q q' :
  quiet e -> repo_ok r -> Name q <> EmptyString -> valid_throttle q -> stored q = Some q' -> rev r < u64_max ->
  exists r' updated, queue_Add e r q = (r', (updated, None)) /\ repo_ok r' /\
    defs r' = <[Name q := q']> (defs r) /\ (if updated : bool then rev r' = rev r + 1 else r' = r).
Proof.
  intros He [Hg Hd] Hn Hv Hq Hr. destruct (spec_Add e r q q' He Hg Hn Hq Hr) as (r' & u & Ea & Hg' & Hd' & Hu).
  exists r', u. split_and!; [done| |done|done]. split; [done|]. intros name q0. rewrite Hd', lookup_insert_Some.
  intros [[_ <-]|[_ ?]]; [by eapply stored_valid|by eapply Hd].
Qed.

(** Adding a queue: an invalid definition is refused with nothing changed; a
    valid one is in the repository from then on. *)
Lemma addJobQueue_spec e qe q (s s' : Service R W JQ) q' err :
  quiet e -> addable q -> service_ok s -> rev (sv_repos s) < u64_max ->
  addJobQueue conf e qe q s = Some (s', q', err) ->
  service_ok s' /\
  match err with
  | Some _ => s' = s
  | None => valid_throttle q' /\ Name q' = Name q /\
      exists q2 updated, stored q' = Some q2 /\ defs (sv_repos s') = <[Name q := q2]> (defs (sv_repos s)) /\
        if updated : bool
        then (exists rq, sv_runningQueues s' = <[Name q := rq]> (sv_runningQueues s) /\ rq_definition rq = q')
        else s' = s
  end.
Proof.
  intros He [Hn Ha] Hs Hr. unfold addJobQueue. destruct (check_throttle q) as [q1|msg] eqn:E1; [|by intros [= <- <- <-]].
  destruct (fill_defaults conf q1) as [q2|] eqn:E2; [|done]. simpl.
  destruct (check_throttle_valid _ _ E1) as [Hv1 Hn1]. destruct (fill_defaults_valid _ _ E2 Hv1) as [Hv2 Hn2].
  destruct (Ha _ _ eq_refl E2) as [q3 Hq3]. rewrite Hn1 in Hn2.
  destruct (repo_Add_ok e (sv_repos s) q2 q3) as (r' & u & -> & Hr' & Hd & Hu); [done|by apply service_repo_ok| |done..|].
  { by rewrite Hn2. }
  assert (service_ok (set_repos r' s)) as Hs1 by by apply service_ok_repos.
  rewrite Hn2 in Hd. destruct u.
  - destruct (putJobQueue qe q2 (set_repos r' s)) as [s1|] eqn:Ep; [|done]. simpl. intros [= <- <- <-].
    destruct (putJobQueue_spec _ _ _ _ Ep) as (Er & _ & _ & _ & rq & Em & Hq & _).
    split; [by eapply putJobQueue_ok|]. split_and!; [done|done|]. exists q3, true. rewrite Er, Hn2 in *. by eauto.
  - intros [= <- <- <-]. split; [done|]. split_and!; [done|done|]. exists q3, false. split_and!; [done|done|].
    subst r'. by destruct s.
Qed.

(** *** Startup *)

Lemma Config_Start_some q : MaxWorkers q <= max_job_chan -> is_Some (Config_Start 0 q).
Proof.
  intros H. unfold Config_Start, defaultMinBufferSize. simpl.
  destruct (Z.ltb_spec 1000 (MaxWorkers q)); unfold max_job_chan, i64_max in *;
    (destruct (Z.ltb_spec 17592186044410 (if 1000 <? MaxWorkers q then MaxWorkers q else 1000)));
    repeat case_match; eauto; try lia.
Qed.

Lemma putJobQueue_starts qe q (s : Service R W JQ) :
  (forall w, is_Some (qf_Start qe w q)) -> MaxWorkers q <= max_job_chan -> is_Some (putJobQueue qe q s).
Proof.
  intros Hst Hq. unfold putJobQueue, startJobQueue.
  destruct (Hst (sv_world (stopJobQueue (Name q) s))) as [[w jq] ->]. simpl.
  destruct (Config_Start_some q Hq) as [d ->]. simpl. eauto.
Qed.

(** Starting a queue of the driver does not panic. *)
Context (starts : forall e w q, is_Some (qf_Start (QueueFactory := factory) e w q)).

Lemma putJobQueue_total qe q (s : Service R W JQ) :
  MaxWorkers q <= max_job_chan -> is_Some (putJobQueue qe q s).
Proof. apply putJobQueue_starts. intros w. apply starts. Qed.

Lemma putJobQueues_spec qe qs (s : Service R W JQ) :
  Forall (fun q => MaxWorkers q <= max_job_chan /\ valid_throttle q) qs -> NoDup (Name <$> qs) -> service_ok s ->
  exists s', putJobQueues qe qs s = Some s' /\ service_ok s' /\ sv_repos s' = sv_repos s /\
    sv_queueW s' = sv_queueW s /\ sv_defaultQueueName s' = sv_defaultQueueName s /\
    rq_definition <$> sv_runningQueues s' = by_name qs ∪ (rq_definition <$> sv_runningQueues s).
Proof.
  intros H. revert s. induction H as [|q qs [Hq Hv] _ IH]; intros s Hnd Hs.
  { exists s. split_and!; [done..|]. symmetry. apply (left_id_L ∅ (∪)). }
  simpl in Hnd. apply NoDup_cons in Hnd as [Hn Hnd]. simpl.
  destruct (putJobQueue_total qe q s Hq) as [s1 E1]. rewrite E1. simpl.
  destruct (putJobQueue_spec _ _ _ _ E1) as (Er & Ew & _ & Ed & rq & Em & Hrq & _).
  destruct (IH s1 Hnd (putJobQueue_ok _ _ _ _ E1 Hv Hs)) as (s' & E' & Hs' & Er' & Ew' & Ed' & Em').
  exists s'. split_and!; [done|done|congruence..|]. rewrite Em', Em, fmap_insert, Hrq.
  unfold by_name. simpl. rewrite <- insert_union_l. symmetry. apply insert_union_r.
  apply not_elem_of_list_to_map_1. by rewrite <- list_fmap_compose.
Qed.

(** The default queue, as [initDefaultQueue] defines it. *)
Definition default_zero : Queue := {|
  Name := conf "queue_default"; PollingInterval := 0; MaxWorkers := 0;
  MaxDispatchesPerSecond := 0%Qc; MaxBurstSize := 0 |}.

Definition default_ok : Prop :=
  conf "queue_default" <> EmptyString ->
  exists dq, fill_defaults conf default_zero = Some dq /\ stored dq = Some dq /\ MaxWorkers dq <= max_job_chan.

Definition all_startable (r : R) : Prop :=
  forall name q, defs r !! name = Some q -> MaxWorkers q <= max_job_chan.

Lemma default_addable : conf "queue_default" <> EmptyString -> default_ok -> addable default_zero.
Proof.
  intros Hc Hd. destruct (Hd Hc) as (dq & Ef & Es & _). split; [done|]. intros q1 q2. unfold check_throttle. simpl.
  intros [= <-]. rewrite Ef. intros [= <-]. eauto.
Qed.

Lemma initDefaultQueue_spec e qe (s : Service R W JQ) :
  quiet e -> default_ok -> service_ok s -> rev (sv_repos s) < u64_max -> conf "queue_default" <> EmptyString ->
  rq_definition <$> sv_runningQueues s = defs (sv_repos s) ->
  exists s', initDefaultQueue conf e qe (conf "queue_default") s = Some s' /\ service_ok s' /\
    sv_queueW s' = sv_queueW s /\ rq_definition <$> sv_runningQueues s' = defs (sv_repos s') /\
    is_Some (defs (sv_repos s') !! conf "queue_default") /\
    forall name, name <> conf "queue_default" -> defs (sv_repos s') !! name = defs (sv_repos s) !! name.
Proof.
  intros He Hd Hs Hr Hc Hm. unfold initDefaultQueue, getJobQueue.
  destruct (sv_runningQueues s !! conf "queue_default") as [rq|] eqn:Eq.
  { exists s. split_and!; [done..| |done]. by rewrite <- Hm, lookup_fmap, Eq. }
  destruct (Hd Hc) as (dq & Ef & Es & Hw). fold default_zero.
  destruct (fill_defaults_valid _ _ Ef) as [Hv Hn]; [by right|].
  destruct (repo_Add_ok e (sv_repos s) dq dq) as (r' & u & Ea & Hr' & Hd' & Hu);
    [done|by apply service_repo_ok|by rewrite Hn|done..|].
  unfold addJobQueue, check_throttle. simpl. rewrite Ef. simpl. rewrite Ea.
  assert (Hnone : defs (sv_repos s) !! Name dq = None) by (by rewrite Hn, <- Hm, lookup_fmap; simpl; rewrite Eq).
  destruct u; [|subst r'; by rewrite Hd', lookup_insert_eq in Hnone].
  destruct (putJobQueue_total qe dq (set_repos r' s) Hw) as [s' Ep]. rewrite Ep. simpl. exists s'.
  assert (service_ok s') as Hs' by (eapply putJobQueue_ok; [done|done|by apply service_ok_repos]).
  destruct (putJobQueue_spec _ _ _ _ Ep) as (Er & Ew & _ & _ & rq & Em & Hq & _). simpl in Er, Ew, Em.
  rewrite Er, Hd', Hn. simpl. split_and!; [done|done|done| |by rewrite lookup_insert_eq|].
  - rewrite Em, fmap_insert, Hq, Hm. by rewrite Hn.
  - intros name Hname. by rewrite lookup_insert_ne.
Qed.

(** [startup] runs exactly the definitions of the repository, the default queue
    among them. *)
Lemma service_startup_spec e1 e2 qe (s : Service R W JQ) :
  quiet e1 -> quiet e2 -> default_ok -> service_ok s -> rev (sv_repos s) < u64_max -> all_startable (sv_repos s) ->
  sv_runningQueues s = ∅ ->
  exists s', service_startup conf e1 e2 qe s = Some s' /\ service_ok s' /\ sv_queueW s' = sv_queueW s /\
    rq_definition <$> sv_runningQueues s' = defs (sv_repos s') /\
    (conf "queue_default" <> EmptyString -> is_Some (defs (sv_repos s') !! conf "queue_default")) /\
    forall name, name <> conf "queue_default" -> defs (sv_repos s') !! name = defs (sv_repos s) !! name.
Proof.
  intros He1 He2 Hd Hs Hr Ha H0. unfold service_startup. pose proof (so_good _ Hs) as Hg.
  destruct (spec_FindAll e1 (sv_repos s) He1 Hg) as (l & -> & _ & Hl).
  destruct (putJobQueues_spec qe l (set_repos (sv_repos s) s)) as (s1 & -> & Hs1 & Er1 & Ew1 & _ & Em1).
  - apply Forall_forall. intros q Hq. rewrite Hl in Hq. apply (defs_elem (rev := rev) _ _ Hg) in Hq.
    split; [by eapply Ha|by eapply so_defs].
  - rewrite Hl. apply (defs_names_NoDup (rev := rev) _ Hg).
  - by destruct s.
  - simpl in *. rewrite H0, fmap_empty, (right_id_L ∅ (∪)), (by_name_perm _ _ (fun _ _ => spec_keys _ _ _ Hg) Hl) in Em1.
    rewrite <- Er1 in Em1, Hr. case_bool_decide as Hc.
    + exists s1. rewrite Er1 in *. by split_and!.
    + destruct (initDefaultQueue_spec e2 qe s1 He2 Hd Hs1 Hr Hc Em1) as (s' & Ei & Hs' & Ew' & Em' & Hdef & Hsame).
      exists s'. split_and!; [done|done|congruence|done|done|]. intros name Hname. by rewrite Hsame, Er1.
Qed.

Lemma destroyQueues_ok (s : Service R W JQ) : service_ok s -> service_ok (destroyQueues s).
Proof. intros [Hg Hd _]. split; [done|done|]. intros name rq. simpl. by rewrite lookup_empty. Qed.

Lemma reloadQueues_spec e1 e2 qe (s : Service R W JQ) :
  quiet e1 -> quiet e2 -> default_ok -> service_ok s -> rev (sv_repos s) < u64_max -> all_startable (sv_repos s) ->
  exists s', reloadQueues conf e1 e2 qe s = Some s' /\ service_ok s' /\ sv_queueW s' = sv_queueW s /\
    rq_definition <$> sv_runningQueues s' = defs (sv_repos s') /\
    (conf "queue_default" <> EmptyString -> is_Some (defs (sv_repos s') !! conf "queue_default")) /\
    forall name, name <> conf "queue_default" -> defs (sv_repos s') !! name = defs (sv_repos s) !! name.
Proof. intros ? ? ? Hs ? ?. apply (service_startup_spec e1 e2 qe (destroyQueues s)); try done. by apply destroyQueues_ok. Qed.

(** *** Runs of a service *)

(** Requests, ticks of the watchers, and changes of the repositories by anyone
    else, in any order. *)
Inductive service_reachable : Service R W JQ -> Prop :=
| sr_new e0 e1 e2 qe r w s :
    quiet e1 -> quiet e2 -> repo_ok r -> rev r < u64_max -> all_startable r ->
    NewService conf e0 e1 e2 qe r w = Some s -> service_reachable s
| sr_add e qe q s s' q' err :
    service_reachable s -> quiet e -> addable q -> rev (sv_repos s) < u64_max ->
    addJobQueue conf e qe q s = Some (s', q', err) -> service_reachable s'
| sr_delete e qn s :
    service_reachable s -> quiet e -> rev (sv_repos s) < u64_max -> service_reachable (DeleteJobQueue e qn s).1
| sr_push e1 e2 qe1 qe2 job s s' res :
    service_reachable s -> quiet e1 -> quiet e2 -> Push e1 e2 qe1 qe2 job s = Some (s', res) -> service_reachable s'
| sr_tick_queues e0 e1 e2 qe s s' :
    service_reachable s -> quiet e1 -> quiet e2 -> rev (sv_repos s) < u64_max -> all_startable (sv_repos s) ->
    tick_queues conf e0 e1 e2 qe s = Some s' -> service_reachable s'
| sr_tick_routings e0 e1 s :
    service_reachable s -> quiet e1 -> service_reachable (tick_routings e0 e1 s)
| sr_external r s : service_reachable s -> repo_ok r -> service_reachable (set_repos r s).

Lemma service_ok_reload e (s : Service R W JQ) : quiet e -> service_ok s -> service_ok (reloadRoutings e s).
Proof.
  intros He [Hg Hd Hr]. destruct (spec_Reload e (sv_repos s) He Hg) as (Hg' & Hd' & _).
  split; simpl; rewrite ?Hd'; done.
Qed.

Lemma DeleteJobQueue_ok e qn (s : Service R W JQ) :
  quiet e -> service_ok s -> rev (sv_repos s) < u64_max -> service_ok (DeleteJobQueue e qn s).1.
Proof.
  intros He [Hg Hd Hr] Hrev. unfold DeleteJobQueue.
  destruct (spec_DeleteByName e (sv_repos s) qn He Hg Hrev) as (r' & -> & Hg' & Hd' & _).
  unfold stopJobQueue. simpl. assert (forall name q, defs r' !! name = Some q -> valid_throttle q) as Hv.
  { intros name q. rewrite Hd', lookup_delete_Some. intros [_ ?]. by eapply Hd. }
  destruct (sv_runningQueues s !! qn); split; simpl; try done. intros name rq. rewrite lookup_delete_Some.
  intros [_ ?]. by apply Hr.
Qed.

Lemma push_running_spec qe name qn rq job (s s' : Service R W JQ) res :
  push_running qe name qn rq job s = Some (s', res) ->
  exists w jq r, qf_Push qe (sv_world s) (rq_JobQueue rq) job = Some (w, jq, r) /\
    s' = set_running w (<[name := {| rq_JobQueue := jq; rq_dispatcher := rq_dispatcher rq;
                                     rq_definition := rq_definition rq |}]> (sv_runningQueues s)) s /\
    res = match r with Ok id => Ok {| pr_ID := id; pr_QueueName := qn |} | Err err => Err (PushFailed err) end.
Proof.
  unfold push_running, runningQueue_Push. destruct (qf_Push _ _ _ _) as [[[w jq] r]|]; [|done]. simpl.
  intros H. exists w, jq, r. by destruct r; injection H as <- <-.
Qed.

Lemma push_running_ok qe name qn rq job (s s' : Service R W JQ) res :
  sv_runningQueues s !! name = Some rq -> push_running qe name qn rq job s = Some (s', res) ->
  service_ok s -> service_ok s'.
Proof.
  intros Hrq Hp [Hg Hd Hr]. destruct (push_running_spec _ _ _ _ _ _ _ _ Hp) as (w & jq & r & _ & -> & _).
  split; simpl; [done|done|]. intros n rq'. rewrite lookup_insert_Some. intros [[<- <-]|[_ ?]]; [|by apply Hr].
  destruct (Hr _ _ Hrq). by split.
Qed.

Lemma route_ok e c (s : Service R W JQ) :
  quiet e -> service_ok s -> service_ok (route e c s).1 /\ sv_runningQueues (route e c s).1 = sv_runningQueues s /\
    defs (sv_repos (route e c s).1) = defs (sv_repos s).
Proof.
  intros He Hs. unfold route. case_match; [|by split_and!].
  destruct (spec_Reload e (sv_repos s) He (so_good _ Hs)) as (_ & Hd & _).
  split_and!; [by apply service_ok_reload|done|done].
Qed.

Lemma Push_ok e1 e2 qe1 qe2 job (s s' : Service R W JQ) res :
  quiet e1 -> quiet e2 -> service_ok s -> Push e1 e2 qe1 qe2 job s = Some (s', res) -> service_ok s'.
Proof.
  intros He1 He2 Hs. unfold Push. destruct (route_ok e1 (in_Category job) s He1 Hs) as (Hs1 & _ & _).
  destruct (route e1 (in_Category job) s) as [s1 qn]. simpl in Hs1. case_bool_decide; [by intros [= <- _]|].
  destruct (getJobQueue qn s1) as [rq|] eqn:Eq; [intros Hp; by eapply push_running_ok|].
  destruct (spec_FindByName e2 (sv_repos s1) qn He2 (so_good _ Hs1)) as (err & ->).
  assert (service_ok (set_repos (sv_repos s1) s1)) as Hs2 by by apply service_ok_repos, service_repo_ok.
  destruct (defs (sv_repos s1) !! qn) as [q|] eqn:Ed; [|by intros [= <- _]].
  destruct (putJobQueue qe1 q _) as [s2|] eqn:Ep; [|done]. simpl.
  destruct (getJobQueue (Name q) s2) as [rq|] eqn:Eg; [|done]. simpl. intros Hp.
  eapply push_running_ok; [exact Eg|exact Hp|]. eapply putJobQueue_ok; [exact Ep|by eapply so_defs|done].
Qed.

Lemma service_reachable_ok s : default_ok -> service_reachable s -> service_ok s.
Proof.
  intros Hdef. induction 1 as [e0 e1 e2 qe r w s He1 He2 [Hg Hd] Hr Ha Hn|e qe q s s' q' err _ IH He Ha Hr Hadd
    |e qn s _ IH He Hr|e1 e2 qe1 qe2 job s s' res _ IH He1 He2 Hp|e0 e1 e2 qe s s' _ IH He1 He2 Hr Ha Ht
    |e0 e1 s _ IH He|r s _ IH Hr].
  - unfold NewService in Hn.
    match type of Hn with service_startup _ _ _ _ ?s0 = _ =>
      destruct (service_startup_spec e1 e2 qe s0) as (s1 & E1 & Hs1 & _); try done end.
    rewrite E1 in Hn. by injection Hn as <-.
  - by destruct (addJobQueue_spec _ _ _ _ _ _ _ He Ha IH Hr Hadd).
  - by apply DeleteJobQueue_ok.
  - exact (Push_ok _ _ _ _ _ _ _ _ He1 He2 IH Hp).
  - unfold tick_queues in Ht. destruct (watcher_tick _ _) as [r|]; [|by injection Ht as <-].
    destruct (reloadQueues_spec e1 e2 qe (set_watched r (sv_routingW s) s)) as (s1 & E1 & Hs1 & _); try done.
    + destruct IH. by split.
    + rewrite E1 in Ht. by injection Ht as <-.
  - unfold tick_routings. destruct (watcher_tick _ _) as [r|]; [|done].
    apply service_ok_reload; [done|]. destruct IH. by split.
  - by apply service_ok_repos.
Qed.

Lemma valid_throttle_open q d :
  valid_throttle q -> Config_Start 0 q = Some d -> 0 <= MaxBurstSize q <= i64_max -> limiter_closed d = false.
Proof.
  intros Hv Hc Hb. unfold Config_Start in Hc. destruct (_ || _); [done|]. injection Hc as <-.
  unfold limiter_closed. simpl. case_bool_decide as H0; [done|]. destruct Hv as [(_ & Hn & _)|[? _]]; [|done].
  rewrite i64_id by word. destruct (Z.ltb_spec (MaxBurstSize q) 1); [lia|done].
Qed.

(** Whatever is asked of a service and whatever other nodes do
    to the repository, every running queue runs under the name of its definition,
    with the dispatcher of that definition, and with throttling configured
    completely or not at all; its rate limiter therefore lets jobs through. *)
Theorem service_runs_valid_queues s name rq :
  default_ok -> service_reachable s -> sv_runningQueues s !! name = Some rq ->
  Name (rq_definition rq) = name /\ Config_Start 0 (rq_definition rq) = Some (rq_dispatcher rq) /\
  valid_throttle (rq_definition rq) /\
  (0 <= MaxBurstSize (rq_definition rq) <= i64_max -> limiter_closed (rq_dispatcher rq) = false).
Proof.
  intros Hd Hs Hrq. destruct (so_running _ (service_reachable_ok _ Hd Hs) _ _ Hrq) as [Hn Hc Hv].
  split_and!; [done..|]. by apply valid_throttle_open.
Qed.

(** When the revision of the queue definitions has changed, a
    tick of the watcher ends with exactly the queues of the repository running, each
    with its definition there, the default queue among them; the tick adds no
    other definition, and remembers the revision it has seen. *)
Theorem tick_follows_repository e0 e1 e2 qe s r :
  default_ok -> service_reachable s -> quiet e0 -> quiet e1 -> quiet e2 -> rev (sv_repos s) < u64_max ->
  all_startable (sv_repos s) -> queue_Revision e0 (sv_repos s) = Ok r -> r <> sv_queueW s ->
  exists s', tick_queues conf e0 e1 e2 qe s = Some s' /\ sv_queueW s' = rev (sv_repos s) /\
    rq_definition <$> sv_runningQueues s' = defs (sv_repos s') /\
    (conf "queue_default" <> EmptyString -> is_Some (defs (sv_repos s') !! conf "queue_default")) /\
    forall name, name <> conf "queue_default" -> defs (sv_repos s') !! name = defs (sv_repos s) !! name.
Proof.
  intros Hd Hs He0 He1 He2 Hr Ha Hrev Hne. pose proof (service_reachable_ok _ Hd Hs) as Hok.
  unfold tick_queues, watcher_tick. rewrite Hrev, (proj2 (Z.eqb_neq _ _) Hne).
  destruct (reloadQueues_spec e1 e2 qe (set_watched r (sv_routingW s) s)) as (s' & E1 & _ & Hw & Hm & Hdef & Hsame);
    [done..| |done|done|].
  - destruct Hok. by split.
  - exists s'. split_and!; [done| |done..]. rewrite Hw. simpl. by apply (spec_Revision e0 _ He0 (so_good _ Hok)).
Qed.

(** *** Routing of a push *)

Fixpoint first_nonempty (l : list string) : string :=
  match l with
  | [] => EmptyString
  | x :: l => if decide (x = EmptyString) then first_nonempty l else x
  end.

(** The queue a category goes to: its cached routing, else the default queue,
    else its routing in the storage. *)
Definition target (e : E) (category : string) (s : Service R W JQ) : string :=
  first_nonempty [routing_FindQueueNameByJobCategory (sv_repos s) category; sv_defaultQueueName s;
    routing_FindQueueNameByJobCategory (routing_Reload e (sv_repos s)).1 category].

Lemma route_target e category (s : Service R W JQ) : (route e category s).2 = target e category s.
Proof.
  unfold route, target. cbn [first_nonempty].
  set (a := routing_FindQueueNameByJobCategory (sv_repos s) category).
  set (b := routing_FindQueueNameByJobCategory (routing_Reload e (sv_repos s)).1 category).
  repeat (case_decide || case_bool_decide); simpl; fold b; congruence.
Qed.

(** The queue [rq] a push to [qn] finds in the world [w]: the running one, or
    one started for the definition in the repository. *)
Inductive push_queue (qe : QE) (qn : string) (s : Service R W JQ) : W -> runningQueue JQ -> Prop :=
| pq_running rq : sv_runningQueues s !! qn = Some rq -> push_queue qe qn s (sv_world s) rq
| pq_started q w rq :
    sv_runningQueues s !! qn = None -> defs (sv_repos s) !! qn = Some q ->
    startJobQueue qe (sv_world s) q = Some (w, rq) -> push_queue qe qn s w rq.

Lemma Push_spec e1 e2 qe1 qe2 job s :
  service_ok s -> quiet e1 -> quiet e2 ->
  let qn := target e1 (in_Category job) s in
  (qn = EmptyString -> exists s', Push e1 e2 qe1 qe2 job s = Some (s', Err (NoRouting (in_Category job))) /\
    sv_runningQueues s' = sv_runningQueues s) /\
  (qn <> EmptyString -> sv_runningQueues s !! qn = None -> defs (sv_repos s) !! qn = None ->
    exists s', Push e1 e2 qe1 qe2 job s = Some (s', Err (UndefinedQueue qn)) /\
      sv_runningQueues s' = sv_runningQueues s) /\
  (qn <> EmptyString -> forall w rq w' jq r,
    push_queue qe1 qn s w rq -> qf_Push qe2 w (rq_JobQueue rq) job = Some (w', jq, r) ->
    exists s', Push e1 e2 qe1 qe2 job s =
        Some (s', match r with Ok id => Ok {| pr_ID := id; pr_QueueName := qn |} | Err err => Err (PushFailed err) end) /\
      sv_world s' = w' /\
      sv_runningQueues s' = <[qn := {| rq_JobQueue := jq; rq_dispatcher := rq_dispatcher rq;
                                       rq_definition := rq_definition rq |}]> (sv_runningQueues s)).
Proof.
  intros Hok He1 He2. cbn zeta. rewrite <- route_target.
  destruct (route_ok e1 (in_Category job) s He1 Hok) as (Hok1 & Em & Edefs). unfold Push.
  assert (sv_world (route e1 (in_Category job) s).1 = sv_world s) as Ew by (unfold route; by case_match).
  destruct (route e1 (in_Category job) s) as [s1 qn]. simpl in *. unfold getJobQueue. rewrite Em.
  destruct (spec_FindByName e2 (sv_repos s1) qn He2 (so_good _ Hok1)) as (msg & ->). rewrite Edefs.
  split_and!.
  - intros ->. rewrite bool_decide_eq_true_2 by done. eauto.
  - intros Hq Hr Hn. rewrite bool_decide_eq_false_2, Hr, Hn by done. eauto.
  - intros Hq w rq w' jq r Hpq Hpush. rewrite bool_decide_eq_false_2 by done.
    destruct Hpq as [rq Hrq|q w rq Hnone Hq' Hstart].
    + rewrite Hrq. unfold push_running, runningQueue_Push. rewrite Ew, Hpush. simpl. eexists. rewrite Em.
      destruct r; (split; [reflexivity|]); done.
    + rewrite Hnone, Hq'. assert (Name q = qn) as Hname by exact (spec_keys _ _ _ (so_good _ Hok) Hq').
      unfold putJobQueue, stopJobQueue. simpl. rewrite Hname, Em, Hnone. simpl. rewrite Ew, Hstart. simpl.
      rewrite Em, lookup_insert_eq. simpl. unfold push_running, runningQueue_Push. simpl. rewrite Hpush. simpl.
      eexists. destruct r; (split; [reflexivity|]); simpl; by rewrite insert_insert_eq.
Qed.

(** C19 (functional): a push is delivered to the queue its category is routed
    to, and to no other: with no routing, or to a queue that does not exist, it
    fails and leaves every queue alone; otherwise that queue, started if it was not
    running, receives the job, and the result carries its name. *)
Theorem Push_delivers e1 e2 qe1 qe2 job s :
  default_ok -> service_reachable s -> quiet e1 -> quiet e2 ->
  let qn := target e1 (in_Category job) s in
  (qn = EmptyString -> exists s', Push e1 e2 qe1 qe2 job s = Some (s', Err (NoRouting (in_Category job))) /\
    sv_runningQueues s' = sv_runningQueues s) /\
  (qn <> EmptyString -> sv_runningQueues s !! qn = None -> defs (sv_repos s) !! qn = None ->
    exists s', Push e1 e2 qe1 qe2 job s = Some (s', Err (UndefinedQueue qn)) /\
      sv_runningQueues s' = sv_runningQueues s) /\
  (qn <> EmptyString -> forall w rq w' jq r,
    push_queue qe1 qn s w rq -> qf_Push qe2 w (rq_JobQueue rq) job = Some (w', jq, r) ->
    exists s', Push e1 e2 qe1 qe2 job s =
        Some (s', match r with Ok id => Ok {| pr_ID := id; pr_QueueName := qn |} | Err err => Err (PushFailed err) end) /\
      sv_world s' = w' /\
      sv_runningQueues s' = <[qn := {| rq_JobQueue := jq; rq_dispatcher := rq_dispatcher rq;
                                       rq_definition := rq_definition rq |}]> (sv_runningQueues s)).
Proof. intros Hd Hs. by apply Push_spec, service_reachable_ok. Qed.
End invariant.
