(* ===== verification/ServiceRunning.v ===== *)
(** * What holds of every queue a service runs

    Two arguments about any service on any driver: a property that every started
    queue has and every push keeps is a property of every running queue; a relation
    between states of the world that starting and stopping respect relates the world
    before a queue is put in the place of another and after it. *)

From S2P Require Import Prelude Job QueueSpec JobQueue Model Dispatcher Repository Service.
Local Open Scope Z_scope.

(** ** Running queues *)

Section running.
Context {E R : Type} {repos : Repositories E R} {QE W JQ : Type} {factory : QueueFactory QE W JQ}.
Context (conf : string -> string) (P : string -> JQ -> Prop).
Context (started : forall e w q w' jq, qf_Start (QueueFactory := factory) e w q = Some (w', jq) -> P (Name q) jq).

Definition all_running (s : Service R W JQ) : Prop :=
  forall name rq, sv_runningQueues s !! name = Some rq -> P name (rq_JobQueue rq).

Lemma all_running_repos r (s : Service R W JQ) : all_running s -> all_running (set_repos r s).
Proof. done. Qed.

Lemma stopJobQueue_running qn (s : Service R W JQ) : all_running s -> all_running (stopJobQueue qn s).
Proof.
  intros Hs name rq. unfold stopJobQueue. destruct (sv_runningQueues s !! qn); [|apply Hs]. simpl.
  intros [_ ?]%lookup_delete_Some. by apply Hs.
Qed.

Lemma putJobQueue_running qe q (s s' : Service R W JQ) : putJobQueue qe q s = Some s' -> all_running s -> all_running s'.
Proof.
  unfold putJobQueue, startJobQueue. intros Hp Hs.
  destruct (qf_Start qe _ q) as [[w jq]|] eqn:Eq; [|done]. simpl in Hp.
  destruct (Config_Start 0 q); [|done]. injection Hp as <-. intros name rq. simpl. rewrite lookup_insert_Some.
  intros [[<- <-]|[_ Hrq]]; [by eapply started|]. by apply (stopJobQueue_running (Name q) s Hs).
Qed.

Lemma putJobQueues_running qe qs (s s' : Service R W JQ) :
  putJobQueues qe qs s = Some s' -> all_running s -> all_running s'.
Proof.
  revert s. induction qs as [|q qs IH]; intros s; simpl; [by intros [= <-]|].
  destruct (putJobQueue qe q s) as [s1|] eqn:E1; [|done]. simpl. intros Hp Hs.
  eapply IH; [exact Hp|]. by eapply putJobQueue_running.
Qed.

Lemma addJobQueue_running e qe q (s s' : Service R W JQ) q' err :
  addJobQueue conf e qe q s = Some (s', q', err) -> all_running s -> all_running s'.
Proof.
  unfold addJobQueue. intros Ha Hs. destruct (check_throttle q) as [q1|]; [|by injection Ha as <-].
  destruct (fill_defaults conf q1) as [q2|]; [|done]. simpl in Ha.
  destruct (queue_Add e _ q2) as [r' [u [?|]]]; [by injection Ha as <-|].
  destruct u; [|by injection Ha as <-].
  destruct (putJobQueue qe q2 _) as [s2|] eqn:E2; [|done]. injection Ha as <- _ _. by eapply putJobQueue_running.
Qed.

Lemma service_startup_running e1 e2 qe (s s' : Service R W JQ) :
  service_startup conf e1 e2 qe s = Some s' -> all_running s -> all_running s'.
Proof.
  unfold service_startup. destruct (queue_FindAll _ _) as [r [qs|err]]; [|done]. intros Hi Hs.
  destruct (putJobQueues _ _ _) as [s1|] eqn:E1; [|done]. simpl in Hi.
  assert (all_running s1) as H1 by (eapply putJobQueues_running; [exact E1|done]).
  case_bool_decide; [by injection Hi as <-|]. unfold initDefaultQueue in Hi.
  destruct (getJobQueue _ s1); [by injection Hi as <-|].
  destruct (addJobQueue conf e2 qe _ s1) as [[[s2 q2] err]|] eqn:E2; [|done]. simpl in Hi.
  destruct err; [done|]. injection Hi as <-. by eapply addJobQueue_running.
Qed.

Lemma reloadQueues_running e1 e2 qe (s s' : Service R W JQ) :
  reloadQueues conf e1 e2 qe s = Some s' -> all_running s'.
Proof.
  intros Hr. eapply service_startup_running; [exact Hr|]. intros name rq. simpl. by rewrite lookup_empty.
Qed.

Lemma tick_queues_running e0 e1 e2 qe (s s' : Service R W JQ) :
  tick_queues conf e0 e1 e2 qe s = Some s' -> all_running s -> all_running s'.
Proof.
  unfold tick_queues. destruct (watcher_tick _ _); [|by intros [= <-]]. intros Hr _. by eapply reloadQueues_running.
Qed.

Context (pushed : forall e w name jq job w' jq' r,
  P name jq -> qf_Push (QueueFactory := factory) e w jq job = Some (w', jq', r) -> P name jq').

Lemma push_running_running qe name qn rq job (s s' : Service R W JQ) r :
  push_running qe name qn rq job s = Some (s', r) -> sv_runningQueues s !! name = Some rq -> all_running s -> all_running s'.
Proof.
  unfold push_running, runningQueue_Push. intros Hp Hrq Hs.
  destruct (qf_Push qe _ _ job) as [[[w jq] r1]|] eqn:Eq; [|done]. simpl in Hp.
  assert (sv_runningQueues s' = <[name := {| rq_JobQueue := jq; rq_dispatcher := rq_dispatcher rq;
    rq_definition := rq_definition rq |}]> (sv_runningQueues s)) as Em by (destruct r1; by injection Hp as <- _).
  intros n rq'. rewrite Em, lookup_insert_Some. intros [[<- <-]|[_ ?]]; [|by apply Hs].
  eapply pushed; [|exact Eq]. by apply Hs.
Qed.

Lemma Push_running e1 e2 qe1 qe2 job (s s' : Service R W JQ) r :
  Push e1 e2 qe1 qe2 job s = Some (s', r) -> all_running s -> all_running s'.
Proof.
  unfold Push. intros Hp Hs. destruct (route e1 (in_Category job) s) as [s1 qn] eqn:Er.
  assert (all_running s1) as Hs1.
  { unfold route in Er.
    repeat match type of Er with context [if ?b then _ else _] => destruct b end; by injection Er as <- _. }
  case_bool_decide; [by injection Hp as <- _|].
  destruct (getJobQueue qn s1) as [rq|] eqn:Eg; [by eapply push_running_running|].
  destruct (queue_FindByName e2 _ qn) as [r1 [q|err]]; [|by injection Hp as <- _].
  destruct (putJobQueue qe1 q _) as [s2|] eqn:E2; [|done]. simpl in Hp.
  destruct (getJobQueue (Name q) s2) as [rq|] eqn:E3; [|done]. simpl in Hp.
  eapply push_running_running; [exact Hp|exact E3|]. by eapply putJobQueue_running.
Qed.
End running.

(** ** The world *)

Section world.
Context {E R : Type} {repos : Repositories E R} {QE W JQ : Type} {factory : QueueFactory QE W JQ}.
Context (rel : relation W) `{!PreOrder rel}.
Context (started : forall e w q w' jq, qf_Start (QueueFactory := factory) e w q = Some (w', jq) -> rel w w').
Context (stopped : forall w jq, rel w (qf_Stop (QueueFactory := factory) w jq)).

Lemma stopJobQueue_world qn (s : Service R W JQ) : rel (sv_world s) (sv_world (stopJobQueue qn s)).
Proof. unfold stopJobQueue. destruct (sv_runningQueues s !! qn); [apply stopped|reflexivity]. Qed.

Lemma putJobQueue_world qe q (s s' : Service R W JQ) : putJobQueue qe q s = Some s' -> rel (sv_world s) (sv_world s').
Proof.
  unfold putJobQueue, startJobQueue. intros Hp.
  destruct (qf_Start qe _ q) as [[w jq]|] eqn:Eq; [|done]. simpl in Hp.
  destruct (Config_Start 0 q); [|done]. injection Hp as <-. simpl. etrans; [apply stopJobQueue_world|by eapply started].
Qed.

End world.
