(* ===== verification/ServiceLocks.v ===== *)
(** * The goroutines and locks of a service (src/service/service.go,
    config_watcher.go, running_queue.go)

    A service is used by many goroutines at once: the handlers of requests, the
    two watchers and, once the server is down, the goroutine of [Stop].  They share
    the running queues under two locks, the mutex [mu] and the read-write mutex
    [muJob].  Each goroutine is the list of what it has still to do: operations on
    the locks, on the channels of the watchers and on the map of running queues.
    What the data decides (an answer of the repository, the names to start) is
    given with the step.  The data itself is the subject of [Service]; here the
    steps of all goroutines interleave.

    The theorems: no two goroutines race for the map, every queue that leaves the
    map was deactivated and stopped once, no job is pushed to a stopped queue; and
    [Stop] never deadlocks and ends. *)

From S2P Require Import Prelude.

(** ** Goroutines *)

(** A running queue: its dispatcher works; [Deactivate] has stopped the
    dispatcher; [Stop] has stopped the queue.  The channel of a second [Deactivate]
    or [Stop] would never deliver. *)
Inductive phase := PRunning | PDeactivated | PStopped.

#[export] Instance phase_eq_dec : EqDecision phase.
Proof. solve_decision. Defined.

(** The two watchers, [s.queueW] and [s.routingW]. *)
Inductive watcher := QueueW | RoutingW.

#[export] Instance watcher_eq_dec : EqDecision watcher.
Proof. solve_decision. Defined.

Inductive instr :=
| ILockMu | IUnlockMu                   (* [s.mu] *)
| IWantJob                              (* [s.muJob.Lock()]: readers are shut out from here on *)
| IJobLocked                            (* ... and it returns when the readers are gone *)
| IUnlockJob
| IRLock | IRUnlock                     (* [s.muJob] for reading *)
| IDeactivateAll                        (* [deactivateQueues]: a goroutine per running queue *)
| IDeactivating (ns : gset string)      (* ... its loop over [ch]: the queues still to be deactivated *)
| IDestroy                              (* [destroyQueues] *)
| IStopping (ns : gset string)
| IClear                                (* [s.runningQueues = make(...)] *)
| IStartup                              (* [startup] *)
| IAddQ (qn : string)                   (* [addJobQueue] up to the answer of the repository *)
| IDeleteQ (qn : string)                (* [s.queue.DeleteByName(qn)] *)
| IFindQ (qn : string)                  (* [s.queue.FindByName(qn)] of [Push] *)
| IPut (qn : string)                    (* [putJobQueue] *)
| IDeactivate (qn : string)             (* [<-jq.Deactivate()] *)
| IStop (qn : string)                   (* [<-jq.Stop()] *)
| IDelete (qn : string)                 (* [delete(s.runningQueues, qn)] *)
| IStart (qn : string)                  (* [startJobQueue] and the assignment to the map *)
| IGet (qn : string)                    (* [getJobQueue] of [Push] *)
| IPushTo (qn : string)                 (* [jq.Push(job)] *)
| ILookup (qn : string)                 (* [getJobQueue] of [GetJobQueue] *)
| ISelect (w : watcher)                 (* the select statement of [configWatcher.loop] *)
| IReloadRoutings
| IExit (w : watcher)                   (* [w.stoppedC <- struct{}{}] *)
| ISend (w : watcher)                   (* [w.stopC <- struct{}{}] of [configWatcher.stop] *)
| IRecv (w : watcher)                   (* the receive from [w.stoppedC] *)
| IReport.                              (* [stopped <- struct{}{}] *)

(** ** What the methods do *)

(** Both locks for writing, released by the deferred calls. *)
Definition locked (body : list instr) : list instr :=
  [ILockMu; IWantJob; IJobLocked] ++ body ++ [IUnlockJob; IUnlockMu].

Definition AddJobQueue_code (qn : string) : list instr := locked [IAddQ qn].

Definition DeleteJobQueue_code (qn : string) : list instr := locked [IDeleteQ qn].

Definition GetJobQueue_code (qn : string) : list instr := [IRLock; ILookup qn; IRUnlock].

(** [Push], from the choice of the queue on. *)
Definition Push_code (qn : string) : list instr := [IRLock; IGet qn].

(** What [Push] does when the queue does not run. *)
Definition Push_slow (qn : string) : list instr := locked [IFindQ qn].

Definition reloadQueues_code : list instr :=
  [ILockMu; IDeactivateAll; IWantJob; IJobLocked; IDestroy; IStartup; IUnlockJob; IUnlockMu].

Definition reload_code (w : watcher) : list instr :=
  match w with QueueW => reloadQueues_code | RoutingW => [IReloadRoutings] end.

Definition Stop_code : list instr :=
  [ISend QueueW; IRecv QueueW; ISend RoutingW; IRecv RoutingW;
   ILockMu; IDeactivateAll; IWantJob; IJobLocked; IDestroy; IReport; IUnlockJob; IUnlockMu].

(** A call of a handler to the service. *)
Inductive request :=
| RAdd (qn : string) | RDelete (qn : string) | RPush (qn : string) | RGet (qn : string).

Definition request_code (r : request) : list instr :=
  match r with
  | RAdd qn => AddJobQueue_code qn
  | RDelete qn => DeleteJobQueue_code qn
  | RPush qn => Push_code qn
  | RGet qn => GetJobQueue_code qn
  end.

(** ** The state *)

(** What must not happen: a queue leaves the map without having been stopped, or
    a job is pushed to a queue that is stopped or not there. *)
Inductive fault := Leaked (qn : string) | PushedStopped (qn : string).

(** Goroutines 0 and 1 are the loops of the watchers, 2 is that of [Stop], the
    others are handlers, in the order of their calls. *)
Record system := {
  s_threads : list (list instr);
  s_mu : option nat;               (* who holds [mu] *)
  s_muJob : option nat;            (* who holds [muJob] for writing, or waits for its readers *)
  s_readers : gset nat;            (* who holds [muJob] for reading *)
  s_running : gmap string phase;   (* [runningQueues] *)
  s_stopC : watcher -> bool;       (* the buffer of [stopC] holds an element *)
  s_stoppedC : watcher -> bool;
  s_stopping : bool;               (* [Stop] was called *)
  s_faults : list fault;
  s_crashed : bool;                (* a goroutine panicked *)
}.

Definition wid (w : watcher) : nat := match w with QueueW => 0 | RoutingW => 1 end.
Definition stop_id : nat := 2.

(** [NewService], when it returns: the queues of [names] run, the watchers have
    started. *)
Definition start_service (names : list string) : system := {|
  s_threads := [[ISelect QueueW]; [ISelect RoutingW]; []];
  s_mu := None; s_muJob := None; s_readers := ∅;
  s_running := foldr (fun qn m => <[qn := PRunning]> m) ∅ names;
  s_stopC := fun _ => false; s_stoppedC := fun _ => false; s_stopping := false;
  s_faults := []; s_crashed := false;
|}.

Definition goto (t : nat) (code : list instr) (s : system) : system := {|
  s_threads := <[t := code]> (s_threads s); s_mu := s_mu s; s_muJob := s_muJob s;
  s_readers := s_readers s; s_running := s_running s; s_stopC := s_stopC s;
  s_stoppedC := s_stoppedC s; s_stopping := s_stopping s; s_faults := s_faults s;
  s_crashed := s_crashed s;
|}.

Definition set_locks (mu muJob : option nat) (readers : gset nat) (s : system) : system := {|
  s_threads := s_threads s; s_mu := mu; s_muJob := muJob;
  s_readers := readers; s_running := s_running s; s_stopC := s_stopC s;
  s_stoppedC := s_stoppedC s; s_stopping := s_stopping s; s_faults := s_faults s;
  s_crashed := s_crashed s;
|}.

Definition set_map (m : gmap string phase) (fs : list fault) (s : system) : system := {|
  s_threads := s_threads s; s_mu := s_mu s; s_muJob := s_muJob s;
  s_readers := s_readers s; s_running := m; s_stopC := s_stopC s;
  s_stoppedC := s_stoppedC s; s_stopping := s_stopping s; s_faults := fs ++ s_faults s;
  s_crashed := s_crashed s;
|}.

Definition set_channels (stopC stoppedC : watcher -> bool) (s : system) : system := {|
  s_threads := s_threads s; s_mu := s_mu s; s_muJob := s_muJob s;
  s_readers := s_readers s; s_running := s_running s; s_stopC := stopC;
  s_stoppedC := stoppedC; s_stopping := s_stopping s; s_faults := s_faults s;
  s_crashed := s_crashed s;
|}.

Definition panic (s : system) : system := {|
  s_threads := s_threads s; s_mu := s_mu s; s_muJob := s_muJob s;
  s_readers := s_readers s; s_running := s_running s; s_stopC := s_stopC s;
  s_stoppedC := s_stoppedC s; s_stopping := s_stopping s; s_faults := s_faults s;
  s_crashed := true;
|}.

Definition spawn (code : list instr) (s : system) : system := {|
  s_threads := s_threads s ++ [code]; s_mu := s_mu s; s_muJob := s_muJob s;
  s_readers := s_readers s; s_running := s_running s; s_stopC := s_stopC s;
  s_stoppedC := s_stoppedC s; s_stopping := s_stopping s; s_faults := s_faults s;
  s_crashed := s_crashed s;
|}.

Definition call_stop (s : system) : system := {|
  s_threads := <[stop_id := Stop_code]> (s_threads s); s_mu := s_mu s; s_muJob := s_muJob s;
  s_readers := s_readers s; s_running := s_running s; s_stopC := s_stopC s;
  s_stoppedC := s_stoppedC s; s_stopping := true; s_faults := s_faults s;
  s_crashed := s_crashed s;
|}.

Definition upd (f : watcher -> bool) (w : watcher) (b : bool) (w' : watcher) : bool :=
  if decide (w = w') then b else f w'.

(** ** Steps *)

(** What the environment decides in a step of a goroutine. *)
Inductive choice :=
| Go                                  (* nothing *)
| Done (qn : string)                  (* which queue of several is deactivated or stopped next *)
| Names (qs : option (list string))   (* the queues [startup] puts; [None] is its panic *)
| Found (q : option string)           (* the queue [FindByName] finds *)
| Answer (ok : bool)                  (* whether to go on after [Add], [DeleteByName]; whether
                                         [startJobQueue] panics *)
| Ticked (changed : bool)             (* the watcher selects the ticker; whether there is a new revision *)
| Asked.                              (* the watcher selects [stopC] *)

(** The queues of [m] that are dropped without having been stopped. *)
Definition leaks (m : gmap string phase) : list fault :=
  Leaked <$> (filter (fun e => e.2 <> PStopped) (map_to_list m)).*1.

Definition leak1 (qn : string) (m : gmap string phase) : list fault :=
  match m !! qn with
  | None | Some PStopped => []
  | Some _ => [Leaked qn]
  end.

Definition push_faults (qn : string) (m : gmap string phase) : list fault :=
  match m !! qn with
  | None | Some PStopped => [PushedStopped qn]
  | Some _ => []
  end.

(** [<-jq.Deactivate()] and [<-jq.Stop()] on the queue of name [qn]; blocked for
    ever when the queue is not in the phase [p] before. *)
Definition advance (p p' : phase) (qn : string) (m : gmap string phase) : option (gmap string phase) :=
  if decide (m !! qn = Some p) then Some (<[qn := p']> m) else None.

(** The queue that runs under [qn] is stopped and removed. *)
Definition remove_code (qn : string) (m : gmap string phase) : list instr :=
  if m !! qn is Some _ then [IDeactivate qn; IStop qn; IDelete qn] else [].

(** Goroutine [t] is about to do [i], then [rest].  A panic of [startJobQueue]
    ends the process in a watcher; in a handler it is recovered by the server, after
    the deferred calls have released the locks. *)
Definition step_locks (t : nat) (i : instr) (rest : list instr) (s : system) : option system :=
  match i with
  | ILockMu => if s_mu s is None then Some (goto t rest (set_locks (Some t) (s_muJob s) (s_readers s) s)) else None
  | IUnlockMu => Some (goto t rest (set_locks None (s_muJob s) (s_readers s) s))
  | IWantJob => if s_muJob s is None then Some (goto t rest (set_locks (s_mu s) (Some t) (s_readers s) s)) else None
  | IJobLocked => if decide (s_readers s = ∅) then Some (goto t rest s) else None
  | IUnlockJob => Some (goto t rest (set_locks (s_mu s) None (s_readers s) s))
  | IRLock =>
      if s_muJob s is None then Some (goto t rest (set_locks (s_mu s) None ({[t]} ∪ s_readers s) s)) else None
  | IRUnlock => Some (goto t rest (set_locks (s_mu s) (s_muJob s) (s_readers s ∖ {[t]}) s))
  | _ => None
  end.

Definition step_queues (t : nat) (i : instr) (c : choice) (rest : list instr) (s : system) : option system :=
  let m := s_running s in
  match i, c with
  | IDeactivateAll, Go => Some (goto t (IDeactivating (dom m) :: rest) s)
  | IDeactivating ns, Done qn =>
      if decide (qn ∈ ns) then
        m ← advance PRunning PDeactivated qn m;
        Some (goto t (IDeactivating (ns ∖ {[qn]}) :: rest) (set_map m [] s))
      else None
  | IDeactivating ns, Go => if decide (ns = ∅) then Some (goto t rest s) else None
  | IDestroy, Go => Some (goto t (IStopping (dom m) :: IClear :: rest) s)
  | IStopping ns, Done qn =>
      if decide (qn ∈ ns) then
        m ← advance PDeactivated PStopped qn m;
        Some (goto t (IStopping (ns ∖ {[qn]}) :: rest) (set_map m [] s))
      else None
  | IStopping ns, Go => if decide (ns = ∅) then Some (goto t rest s) else None
  | IClear, Go => Some (goto t rest (set_map ∅ (leaks m) s))
  | IStartup, Names None => Some (panic s)
  | IStartup, Names (Some qs) => Some (goto t ((IPut <$> qs) ++ rest) s)
  | IAddQ qn, Answer updated => Some (goto t (if updated : bool then IPut qn :: rest else rest) s)
  | IDeleteQ qn, Answer deleted => Some (goto t (if deleted : bool then remove_code qn m ++ rest else rest) s)
  | IFindQ _, Found q => Some (goto t (if q is Some qn then IPut qn :: IPushTo qn :: rest else rest) s)
  | IPut qn, Go => Some (goto t (remove_code qn m ++ IStart qn :: rest) s)
  | IDeactivate qn, Go => m ← advance PRunning PDeactivated qn m; Some (goto t rest (set_map m [] s))
  | IStop qn, Go => m ← advance PDeactivated PStopped qn m; Some (goto t rest (set_map m [] s))
  | IDelete qn, Go => Some (goto t rest (set_map (delete qn m) (leak1 qn m) s))
  | IStart qn, Go => Some (goto t rest (set_map (<[qn := PRunning]> m) (leak1 qn m) s))
  | IStart qn, Answer false =>
      Some (if decide (t < 2) then panic s else goto t [IUnlockJob; IUnlockMu] s)
  | IGet qn, Go =>
      Some (goto t (if m !! qn is Some _ then IPushTo qn :: IRUnlock :: rest
                    else IRUnlock :: Push_slow qn ++ rest) s)
  | IPushTo qn, Go => Some (goto t rest (set_map m (push_faults qn m) s))
  | ILookup _, Go => Some (goto t rest s)
  | _, _ => None
  end.

Definition step_channels (t : nat) (i : instr) (c : choice) (rest : list instr) (s : system) : option system :=
  match i, c with
  | ISelect w, Ticked changed =>
      Some (if changed : bool then goto t (reload_code w ++ ISelect w :: rest) s else s)
  | ISelect w, Asked =>
      if s_stopC s w then Some (goto t (IExit w :: rest) (set_channels (upd (s_stopC s) w false) (s_stoppedC s) s))
      else None
  | IReloadRoutings, Go => Some (goto t rest s)
  | IExit w, Go =>
      if s_stoppedC s w then None
      else Some (goto t rest (set_channels (s_stopC s) (upd (s_stoppedC s) w true) s))
  | ISend w, Go =>
      if s_stopC s w then None
      else Some (goto t rest (set_channels (upd (s_stopC s) w true) (s_stoppedC s) s))
  | IRecv w, Go =>
      if s_stoppedC s w then Some (goto t rest (set_channels (s_stopC s) (upd (s_stoppedC s) w false) s))
      else None
  | IReport, Go => Some (goto t rest s)
  | _, _ => None
  end.

Definition step_instr (t : nat) (i : instr) (c : choice) (rest : list instr) (s : system) : option system :=
  match i with
  | ILockMu | IUnlockMu | IWantJob | IJobLocked | IUnlockJob | IRLock | IRUnlock =>
      if c is Go then step_locks t i rest s else None
  | ISelect _ | IReloadRoutings | IExit _ | ISend _ | IRecv _ | IReport => step_channels t i c rest s
  | _ => step_queues t i c rest s
  end.

(** A step of a goroutine, a new request, or the call of [Stop]. *)
Inductive label :=
| Run (t : nat) (c : choice)
| Request (r : request)
| CallStop.

Definition sstep (l : label) (s : system) : option system :=
  if s_crashed s then None else
  match l with
  | Run t c =>
      code ← s_threads s !! t;
      match code with
      | [] => None
      | i :: rest => step_instr t i c rest s
      end
  | Request r => Some (spawn (request_code r) s)
  | CallStop => if s_stopping s then None else Some (call_stop s)
  end.

Fixpoint run (ls : list label) (s : system) : option system :=
  match ls with
  | [] => Some s
  | l :: ls => s ← sstep l s; run ls s
  end.

Inductive reachable (names : list string) : system -> Prop :=
| reach_start : reachable names (start_service names)
| reach_step s l s' : reachable names s -> sstep l s = Some s' -> reachable names s'.

(** A step that neither begins a request nor a reload. *)
Definition own_label (l : label) : bool :=
  match l with
  | Run _ (Ticked _) => false
  | Run _ _ => true
  | Request _ | CallStop => false
  end.

(** ** Races *)

(** The next operation reads, or writes, the map [s.runningQueues]. *)
Definition reads_map (i : instr) : bool :=
  match i with
  | IDeactivateAll | IDestroy | IDeleteQ _ | IPut _ | IGet _ | ILookup _ => true
  | _ => false
  end.

Definition writes_map (i : instr) : bool :=
  match i with
  | IClear | IDelete _ | IStart _ => true
  | _ => false
  end.

(** What goroutine [t] does next. *)
Definition next (s : system) (t : nat) : option instr := s_threads s !! t ≫= head.

(** ** Invariant

    What a goroutine holds is determined by what it has still to do, read from the
    end: [held_of].  The [mode] of the owner of [mu] determines the phases of the
    running queues. *)

Inductive mode :=
| Fresh                        (* every queue runs *)
| Deact (ns : gset string)     (* those of [ns] run, the others are deactivated *)
| Stopg (ns : gset string)     (* those of [ns] are deactivated, the others stopped *)
| Present (qn : string)        (* every queue runs, [qn] among them *)
| Absent (qn : string)         (* every queue runs, and [qn] is none of them *)
| OneDeact (qn : string)       (* every queue runs but [qn], which is deactivated *)
| OneStopped (qn : string)
| Empty.                       (* there is no queue *)

Inductive level := OnlyMu | WaitJob | WithJob.

Inductive held :=
| Free
| Reading (qn : option string)      (* with [qn] in the map *)
| Held (l : level) (m : mode).

(** What is held before [i] when [h] is held after it. *)
Definition pre (i : instr) (h : held) : option held :=
  match i, h with
  | ILockMu, Held OnlyMu Fresh => Some Free
  | IUnlockMu, Free => Some (Held OnlyMu Fresh)
  | IWantJob, Held WaitJob ((Fresh | Deact _) as m) => Some (Held OnlyMu m)
  | IJobLocked, Held WithJob ((Fresh | Deact _) as m) => Some (Held WaitJob m)
  | IUnlockJob, Held OnlyMu Fresh => Some (Held WithJob Fresh)
  | IRLock, Reading None => Some Free
  | IRUnlock, Free => Some (Reading None)
  | IDeactivateAll, Held OnlyMu (Deact ns) => if decide (ns = ∅) then Some (Held OnlyMu Fresh) else None
  | IDeactivating ms, Held OnlyMu (Deact ns) => if decide (ns = ∅) then Some (Held OnlyMu (Deact ms)) else None
  | IDestroy, Held WithJob (Fresh | Empty) => Some (Held WithJob (Deact ∅))
  | IStopping ms, Held WithJob (Stopg ns) => if decide (ns = ∅) then Some (Held WithJob (Stopg ms)) else None
  | IClear, Held WithJob (Fresh | Empty) => Some (Held WithJob (Stopg ∅))
  | (IStartup | IAddQ _ | IDeleteQ _ | IFindQ _), Held WithJob Fresh => Some (Held WithJob Fresh)
  | IPut _, Held WithJob Fresh => Some (Held WithJob Fresh)
  | IPut qn, Held WithJob (Present qn') => if decide (qn = qn') then Some (Held WithJob Fresh) else None
  | IDeactivate qn, Held WithJob (OneDeact qn') => if decide (qn = qn') then Some (Held WithJob (Present qn)) else None
  | IStop qn, Held WithJob (OneStopped qn') => if decide (qn = qn') then Some (Held WithJob (OneDeact qn)) else None
  | IDelete qn, Held WithJob Fresh => Some (Held WithJob (OneStopped qn))
  | IDelete qn, Held WithJob (Absent qn') => if decide (qn = qn') then Some (Held WithJob (OneStopped qn)) else None
  | IStart qn, Held WithJob Fresh => Some (Held WithJob (Absent qn))
  | IStart qn, Held WithJob (Present qn') => if decide (qn = qn') then Some (Held WithJob (Absent qn)) else None
  | IGet _, Free => Some (Reading None)
  | IPushTo qn, Reading None => Some (Reading (Some qn))
  | IPushTo qn, Held WithJob Fresh => Some (Held WithJob (Present qn))
  | ILookup _, Reading None => Some (Reading None)
  | (ISelect _ | IReloadRoutings | IExit _ | ISend _ | IRecv _), Free => Some Free
  | IReport, Held WithJob Fresh => Some (Held WithJob Empty)
  | _, _ => None
  end.

Definition held_of (code : list instr) : option held := foldr (fun i h => h ≫= pre i) (Some Free) code.

Definition has_mu (h : held) : bool := if h is Held _ _ then true else false.
Definition has_muJob (h : held) : bool :=
  match h with Held (WaitJob | WithJob) _ => true | _ => false end.
Definition is_reading (h : held) : bool := if h is Reading _ then true else false.

(** The phase of the running queue [qn]. *)
Definition expected (m : mode) (qn : string) : phase :=
  match m with
  | Fresh | Present _ | Absent _ | Empty => PRunning
  | Deact ns => if decide (qn ∈ ns) then PRunning else PDeactivated
  | Stopg ns => if decide (qn ∈ ns) then PDeactivated else PStopped
  | OneDeact qn' => if decide (qn = qn') then PDeactivated else PRunning
  | OneStopped qn' => if decide (qn = qn') then PStopped else PRunning
  end.

(** The queues that must be, or must not be, in the map. *)
Definition domain_ok (m : mode) (D : gset string) : Prop :=
  match m with
  | Fresh => True
  | Deact ns | Stopg ns => ns ⊆ D
  | Present qn | OneDeact qn | OneStopped qn => qn ∈ D
  | Absent qn => qn ∉ D
  | Empty => D = ∅
  end.

Definition mode_ok (m : mode) (running : gmap string phase) : Prop :=
  domain_ok m (dom running) /\ forall qn p, running !! qn = Some p -> p = expected m qn.

(** What goroutine [t] holds. *)
Definition holds (s : system) (t : nat) (h : held) : Prop :=
  exists code, s_threads s !! t = Some code /\ held_of code = Some h.

Record locks_ok (s : system) : Prop := {
  l_typed : forall t code, s_threads s !! t = Some code -> exists h, held_of code = Some h;
  l_mu : forall t, s_mu s = Some t <-> exists h, holds s t h /\ has_mu h = true;
  l_muJob : forall t, s_muJob s = Some t <-> exists h, holds s t h /\ has_muJob h = true;
  l_readers : forall t, t ∈ s_readers s <-> exists h, holds s t h /\ is_reading h = true;
  l_writer : forall t m, holds s t (Held WithJob m) -> s_readers s = ∅;
  l_mode : forall t l m, holds s t (Held l m) -> mode_ok m (s_running s);
  l_free : s_mu s = None -> mode_ok Fresh (s_running s);
  l_reading : forall t qn, holds s t (Reading (Some qn)) -> qn ∈ dom (s_running s);
  l_faults : s_faults s = [];
}.

Definition mode_of (h : held) : mode := if h is Held _ m then m else Fresh.

(** Before the write lock is held the queues run or are being deactivated. *)
Lemma early_mode code l m : held_of code = Some (Held l m) -> l <> WithJob -> m = Fresh \/ exists ns, m = Deact ns.
Proof.
  destruct code as [|i rest]; simpl; [done|]. destruct (held_of rest) as [h|]; simpl; [|done].
  intros Hp Hl. destruct i, h as [|[]|[] []]; simpl in Hp; repeat case_decide; simplify_eq; solve [done | eauto].
Qed.

Lemma holds_goto s s' t code code' h' t2 h2 :
  s_threads s !! t = Some code -> s_threads s' = <[t := code']> (s_threads s) -> held_of code' = Some h' ->
  holds s' t2 h2 <-> (t2 = t /\ h2 = h') \/ (t2 <> t /\ holds s t2 h2).
Proof.
  intros Ht Hs Hh. unfold holds. rewrite Hs. destruct (decide (t2 = t)) as [->|Hne].
  - rewrite list_lookup_insert_eq by (by eapply lookup_lt_Some). naive_solver.
  - rewrite list_lookup_insert_ne by done. naive_solver.
Qed.

(** Who holds a lock after a goroutine [t] moved from holding [h] to holding
    [h']; [f] tells whether a goroutine has the lock. *)
Lemma owner_goto s s' t code code' h h' (f : held -> bool) o o' t2 :
  s_threads s !! t = Some code -> held_of code = Some h -> s_threads s' = <[t := code']> (s_threads s) ->
  held_of code' = Some h' ->
  (forall t, o = Some t <-> exists h, holds s t h /\ f h = true) ->
  o' = (if f h' then Some t else if f h then None else o) -> (f h' = true -> f h = true \/ o = None) ->
  o' = Some t2 <-> exists h2, holds s' t2 h2 /\ f h2 = true.
Proof.
  intros Ht Hh Hs Hh' Ho -> Hf.
  assert (Hown : f h = true -> o = Some t) by (intros E; apply Ho; exists h; split; [by exists code|done]).
  trans ((t2 = t /\ f h' = true) \/ (t2 <> t /\ o = Some t2)).
  - destruct (f h') eqn:E'; [|destruct (f h) eqn:E].
    + split; [intros; simplify_eq; eauto|]. intros [[-> _]|[Hne Ho2]]; [done|].
      destruct (Hf eq_refl) as [E| ->]; [rewrite Hown in Ho2 by done; congruence|done].
    + rewrite Hown by done. split; [done|]. intros [[_ ?]|[??]]; congruence.
    + split; [|intros [[_ ?]|[_ ?]]; done]. intros Ho2. right. split; [|done]. intros ->.
      apply Ho in Ho2 as (h0 & (c0 & Hc0 & Hh0) & Hf0). simplify_eq. congruence.
  - setoid_rewrite holds_goto; [|eassumption..]. rewrite Ho. split.
    + intros [[-> ?]|[? (h0&?&?)]]; eauto 10.
    + intros (h0 & [[-> ->]|[??]] & ?); eauto 10.
Qed.

Lemma readers_goto s s' t code code' h h' (R R' : gset nat) t2 :
  s_threads s !! t = Some code -> held_of code = Some h -> s_threads s' = <[t := code']> (s_threads s) ->
  held_of code' = Some h' ->
  (forall t, t ∈ R <-> exists h, holds s t h /\ is_reading h = true) ->
  R' = (if is_reading h' then {[t]} ∪ R else R ∖ {[t]}) ->
  t2 ∈ R' <-> exists h2, holds s' t2 h2 /\ is_reading h2 = true.
Proof.
  intros Ht Hh Hs Hh' HR ->. setoid_rewrite holds_goto; [|eassumption..].
  trans ((t2 = t /\ is_reading h' = true) \/ (t2 <> t /\ t2 ∈ R)).
  - destruct (is_reading h'); destruct (decide (t2 = t)); set_solver.
  - rewrite HR. split.
    + intros [[-> ?]|[? (h0&?&?)]]; eauto 10.
    + intros (h0 & [[-> ->]|[??]] & ?); eauto 10.
Qed.

(** A goroutine moves on: the locks follow what it holds, and the map changes
    only under the locks. *)
Lemma goto_ok s s' t code code' h h' :
  locks_ok s -> s_threads s !! t = Some code -> held_of code = Some h -> held_of code' = Some h' ->
  s_threads s' = <[t := code']> (s_threads s) ->
  s_mu s' = (if has_mu h' then Some t else if has_mu h then None else s_mu s) ->
  (has_mu h' = true -> has_mu h = true \/ s_mu s = None) ->
  s_muJob s' = (if has_muJob h' then Some t else if has_muJob h then None else s_muJob s) ->
  (has_muJob h' = true -> has_muJob h = true \/ s_muJob s = None) ->
  s_readers s' = (if is_reading h' then {[t]} ∪ s_readers s else s_readers s ∖ {[t]}) ->
  (is_reading h' = true -> is_reading h = true \/ s_muJob s = None) ->
  (forall m, h' = Held WithJob m -> s_readers s = ∅) ->
  (if has_mu h || has_mu h' then mode_ok (mode_of h') (s_running s') else s_running s' = s_running s) ->
  (forall qn, h' = Reading (Some qn) -> qn ∈ dom (s_running s')) ->
  (dom (s_running s') = dom (s_running s) \/ exists m, h = Held WithJob m) ->
  s_faults s' = [] -> locks_ok s'.
Proof.
  intros Hok Ht Hh Hh' Hs Hmu Hmu2 Hw Hw2 HR HR2 Hexcl Hmode Hread Hdom Hf.
  assert (Hg : forall t2 h2, holds s' t2 h2 <-> (t2 = t /\ h2 = h') \/ (t2 <> t /\ holds s t2 h2))
    by (intros; by eapply holds_goto).
  assert (Hht : holds s t h) by (by exists code).
  assert (Hother : forall t2 h2, t2 <> t -> holds s t2 h2 -> has_mu h2 = true -> has_mu h = false /\ has_mu h' = false).
  { intros t2 h2 Hne H2 E2. assert (Ho : s_mu s = Some t2) by (apply l_mu; eauto).
    assert (has_mu h = false).
    { destruct (has_mu h) eqn:E; [|done]. assert (s_mu s = Some t) by (apply l_mu; eauto). congruence. }
    split; [done|]. destruct (has_mu h') eqn:E'; [|done]. destruct (Hmu2 eq_refl); congruence. }
  assert (Hreader : forall t2 h2, holds s t2 h2 -> is_reading h2 = true -> s_readers s <> ∅).
  { intros t2 h2 H2 E2. assert (t2 ∈ s_readers s) by (apply l_readers; eauto). set_solver. }
  constructor; [intros t2 code2; rewrite Hs|..].
  - destruct (decide (t2 = t)) as [->|Hne].
    + rewrite list_lookup_insert_eq by (by eapply lookup_lt_Some). naive_solver.
    + rewrite list_lookup_insert_ne by done. by apply l_typed.
  - intros t2. eapply owner_goto; [done..|apply l_mu; done|done|done].
  - intros t2. eapply owner_goto; [done..|apply l_muJob; done|done|done].
  - intros t2. eapply readers_goto; [done..|apply l_readers; done|done].
  - intros t2 m [[-> <-]|[Hne H2]]%Hg; rewrite HR; simpl.
    + rewrite (Hexcl m) by done. set_solver.
    + assert (Hw3 : s_muJob s = Some t2) by (apply l_muJob; eauto).
      rewrite (l_writer s Hok t2 m H2). destruct (is_reading h') eqn:E; [|set_solver].
      destruct (HR2 eq_refl) as [E2|]; [|congruence]. by destruct (Hreader t h Hht E2); eapply l_writer.
  - intros t2 l m [[-> <-]|[Hne H2]]%Hg; [by rewrite orb_true_r in Hmode|].
    destruct (Hother t2 _ Hne H2 eq_refl) as [E E']. rewrite E, E' in Hmode. rewrite Hmode. by eapply l_mode.
  - rewrite Hmu. intros E0. destruct (has_mu h') eqn:E'; [done|].
    destruct (has_mu h) eqn:E; simpl in Hmode.
    + by destruct h'.
    + rewrite Hmode. by apply l_free.
  - intros t2 qn [[-> <-]|[Hne H2]]%Hg; [by apply Hread|].
    destruct Hdom as [->|[m ->]]; [by eapply l_reading|].
    by destruct (Hreader t2 _ H2 eq_refl); eapply l_writer.
  - done.
Qed.

(** ** Modes *)

Lemma mode_Fresh m running :
  mode_ok m running -> match m with Present _ | Absent _ | Empty | Fresh => True | _ => False end -> mode_ok Fresh running.
Proof. intros [_ Hp] Hm. split; [done|]. intros qn p Hqn. rewrite (Hp qn p Hqn). by destruct m. Qed.

Lemma mode_put m qn : mode_ok Fresh m -> mode_ok (if m !! qn is Some _ then Present qn else Absent qn) m.
Proof.
  intros [_ Hp]. destruct (m !! qn) eqn:E; split; simpl; try exact Hp.
  - by apply elem_of_dom.
  - by apply not_elem_of_dom.
Qed.

Lemma mode_deactivating m : mode_ok Fresh m -> mode_ok (Deact (dom m)) m.
Proof.
  intros [_ Hp]. split; [simpl; set_solver|]. intros qn p Hqn. simpl. rewrite decide_True; [by eapply Hp|by eapply elem_of_dom_2].
Qed.

Lemma mode_stopping m : mode_ok (Deact ∅) m -> mode_ok (Stopg (dom m)) m.
Proof.
  intros [_ Hp]. split; [simpl; set_solver|]. intros qn p Hqn. simpl. rewrite decide_True by (by eapply elem_of_dom_2). by eapply (Hp qn).
Qed.

(** The phase of [qn] advances as the mode does. *)
Lemma mode_advance m m' p p' qn running running' :
  mode_ok m running -> advance p p' qn running = Some running' ->
  expected m' qn = p' -> (forall qn2, qn2 <> qn -> expected m' qn2 = expected m qn2) ->
  (domain_ok m (dom running) -> qn ∈ dom running -> domain_ok m' (dom running)) ->
  mode_ok m' running' /\ dom running' = dom running.
Proof.
  unfold advance. intros [Hd Hp] Ha He Hne HD. case_decide as Hqn; simplify_eq.
  assert (Hin : qn ∈ dom running) by (by eapply elem_of_dom_2).
  assert (Hdom : dom (<[qn := expected m' qn]> running) = dom running) by (rewrite dom_insert_L; set_solver).
  split; [|done]. split; [rewrite Hdom; auto|]. intros qn2 p2. destruct (decide (qn2 = qn)) as [->|].
  - rewrite lookup_insert_eq. congruence.
  - rewrite lookup_insert_ne by done. intros E. rewrite Hne by done. by eapply Hp.
Qed.

Lemma mode_cleared m : mode_ok (Stopg ∅) m -> leaks m = [].
Proof.
  intros [_ Hp]. unfold leaks. enough (filter (fun e => e.2 <> PStopped) (map_to_list m) = []) as -> by done.
  apply elem_of_nil_inv. intros [qn p] [Hne Hin]%list_elem_of_filter. apply elem_of_map_to_list in Hin.
  apply Hne. by apply Hp in Hin.
Qed.

Lemma mode_delete m qn : mode_ok (OneStopped qn) m -> mode_ok (Absent qn) (delete qn m) /\ leak1 qn m = [].
Proof.
  intros [Hd Hp]. split; [split|].
  - simpl. set_solver.
  - intros qn2 p2. rewrite lookup_delete_Some. intros [Hne E]. apply Hp in E. simpl in E. by rewrite decide_False in E.
  - unfold leak1. destruct (m !! qn) as [p|] eqn:E; [|done]. apply Hp in E. simpl in E. rewrite decide_True in E by done. by subst.
Qed.

Lemma mode_start m qn : mode_ok (Absent qn) m -> mode_ok (Present qn) (<[qn := PRunning]> m) /\ leak1 qn m = [].
Proof.
  intros [Hd Hp]. split; [split|].
  - simpl. set_solver.
  - intros qn2 p2. destruct (decide (qn2 = qn)) as [->|]; [by rewrite lookup_insert_eq; intros [= <-]|].
    rewrite lookup_insert_ne by done. apply Hp.
  - simpl in Hd. apply not_elem_of_dom in Hd. unfold leak1. by rewrite Hd.
Qed.

(** ** Steps preserve the invariant *)

(** What is known of a goroutine that is about to do [i]. *)
Lemma thread_facts s t i rest :
  locks_ok s -> s_threads s !! t = Some (i :: rest) ->
  exists h h', held_of rest = Some h' /\ pre i h' = Some h /\ held_of (i :: rest) = Some h /\
    (has_mu h = true -> s_mu s = Some t) /\ (has_muJob h = true -> s_muJob s = Some t) /\
    (is_reading h = false -> s_readers s ∖ {[t]} = s_readers s) /\
    (forall m, h = Held WithJob m -> s_readers s = ∅) /\
    (forall l m, h = Held l m -> mode_ok m (s_running s)) /\
    (forall qn, h = Reading (Some qn) -> qn ∈ dom (s_running s)).
Proof.
  intros Hok Ht. destruct (l_typed s Hok t _ Ht) as [h Hh].
  assert (Hht : holds s t h) by (by eexists).
  assert (exists h', held_of rest = Some h' /\ pre i h' = Some h) as (h' & Hr & Hp).
  { simpl in Hh. destruct (held_of rest) as [h'|]; [|done]. by exists h'. }
  exists h, h'. split_and!; try done.
  - intros ?. apply l_mu; eauto.
  - intros ?. apply l_muJob; eauto.
  - intros E. enough (t ∉ s_readers s) by set_solver. intros (h2 & (c2 & ? & ?) & ?)%l_readers; [|done]. simplify_eq. congruence.
  - intros m ->. by eapply l_writer.
  - intros l m ->. by eapply l_mode.
  - intros qn ->. by eapply l_reading.
Qed.

(** The owner of [mu] moves on and keeps its locks. *)
Lemma owner_ok s s' t code code' l m m' :
  locks_ok s -> s_threads s !! t = Some code -> held_of code = Some (Held l m) -> held_of code' = Some (Held l m') ->
  s_threads s' = <[t := code']> (s_threads s) ->
  s_mu s' = s_mu s -> s_muJob s' = s_muJob s -> s_readers s' = s_readers s ->
  mode_ok m' (s_running s') -> dom (s_running s') = dom (s_running s) \/ l = WithJob ->
  s_faults s' = [] -> locks_ok s'.
Proof.
  intros Hok Ht Hh Hh' Hs Hmu Hw HR Hm Hd Hf.
  assert (Hht : holds s t (Held l m)) by (by eexists).
  assert (Hmt : s_mu s = Some t) by (apply l_mu; eauto).
  assert (Hwt : has_muJob (Held l m) = true -> s_muJob s = Some t) by (intros; apply l_muJob; eauto).
  eapply (goto_ok s s' t code code' (Held l m) (Held l m')); try done; simpl.
  - congruence.
  - auto.
  - rewrite Hw. destruct l; simpl in *; auto.
  - destruct l; simpl in *; auto.
  - rewrite HR. enough (t ∉ s_readers s) by set_solver.
    intros (h2 & (c2 & ? & ?) & ?)%l_readers; [|done]. simplify_eq.
  - intros m0 E. injection E as -> _. by eapply l_writer.
  - destruct Hd as [| ->]; eauto.
Qed.

(** A goroutine without [mu] moves on, keeping what it holds and the map. *)
Lemma bystander_ok s s' t code code' h h' :
  locks_ok s -> s_threads s !! t = Some code -> held_of code = Some h -> held_of code' = Some h' ->
  s_threads s' = <[t := code']> (s_threads s) ->
  s_mu s' = s_mu s -> s_muJob s' = s_muJob s -> s_readers s' = s_readers s -> s_running s' = s_running s ->
  has_mu h = false -> has_mu h' = false -> is_reading h' = is_reading h ->
  (forall qn, h' = Reading (Some qn) -> qn ∈ dom (s_running s)) ->
  s_faults s' = [] -> locks_ok s'.
Proof.
  intros Hok Ht Hh Hh' Hs Hmu Hw HR Hm Hf1 Hf2 Hr Hq Hf.
  assert (Hht : holds s t h) by (by eexists).
  assert (Hj : has_muJob h = false /\ has_muJob h' = false) by (by destruct h, h'). destruct Hj as [Hj Hj'].
  eapply (goto_ok s s' t code code' h h'); try done; rewrite ?Hf1, ?Hf2, ?Hj, ?Hj', ?Hm; try done; try auto.
  - rewrite HR, Hr. destruct (is_reading h) eqn:E.
    + assert (t ∈ s_readers s) by (apply l_readers; eauto). set_solver.
    + enough (t ∉ s_readers s) by set_solver.
      intros (h2 & (c2 & ? & ?) & ?)%l_readers; [|done]. simplify_eq. congruence.
  - rewrite Hr. auto.
  - by intros m ->.
Qed.

Lemma step_locks_ok s s' t i rest :
  locks_ok s -> s_threads s !! t = Some (i :: rest) -> step_locks t i rest s = Some s' -> locks_ok s'.
Proof.
  intros Hok Ht Hs. destruct (thread_facts s t i rest Hok Ht) as (h & h' & Hr & Hp & Hh & Hmu & Hw & Hnr & Hex & Hmode & _).
  assert (Hfree : s_mu s = None -> mode_ok Fresh (s_running s)) by (by apply l_free).
  assert (Hfaults : s_faults s = []) by (by apply l_faults).
  destruct i; simpl in Hs; try done; destruct h' as [|[]|[] []]; simplify_eq/=; repeat case_match; simplify_eq;
    (eapply (goto_ok s); [exact Hok|exact Ht|exact Hh|exact Hr|done|..]; simpl;
     try done; try solve [auto]; try (by rewrite Hnr); try (by rewrite Hex); eauto).
Qed.

Lemma held_cons i rest : held_of (i :: rest) = held_of rest ≫= pre i.
Proof. done. Qed.

Lemma held_puts qs rest :
  held_of rest = Some (Held WithJob Fresh) -> held_of ((IPut <$> qs) ++ rest) = Some (Held WithJob Fresh).
Proof. intros Hr. induction qs as [|qn qs IH]; [done|]. rewrite fmap_cons, <- app_comm_cons, held_cons. by rewrite IH. Qed.

(** The code that removes a queue, before code that needs [qn] absent or does not
    care. *)
Lemma held_remove qn m rest h :
  held_of rest = Some h -> h = Held WithJob (Absent qn) \/ h = Held WithJob Fresh ->
  held_of (remove_code qn m ++ rest) = Some (if m !! qn is Some _ then Held WithJob (Present qn) else h).
Proof.
  intros Hr Hh. unfold remove_code. destruct (m !! qn); [|done]. rewrite <- !app_comm_cons, !held_cons, app_nil_l, Hr.
  destruct Hh as [-> | ->]; by repeat (simpl; rewrite decide_True by done).
Qed.

Lemma push_faults_none s t qn h :
  locks_ok s -> holds s t h -> h = Reading (Some qn) \/ h = Held WithJob (Present qn) ->
  push_faults qn (s_running s) = [].
Proof.
  intros Hok Hh Hc. unfold push_faults.
  assert (exists m, mode_ok m (s_running s) /\ qn ∈ dom (s_running s) /\ expected m qn <> PStopped) as (m & Hm & Hd & He).
  { destruct Hc as [-> | ->].
    - assert (Hd : qn ∈ dom (s_running s)) by (by eapply l_reading).
      destruct (s_mu s) as [t2|] eqn:E; [|exists Fresh; split_and!; try done; by apply l_free].
      apply l_mu in E as (h2 & H2 & E2); [|done]. destruct h2 as [| |l m]; try done.
      exists m. split_and!; [by eapply l_mode|done|].
      assert (l <> WithJob) as Hl.
      { intros ->. assert (t ∈ s_readers s) by (apply l_readers; eauto). by rewrite (l_writer s Hok t2 m H2) in *. }
      destruct H2 as (code2 & _ & Hc2). destruct (early_mode _ _ _ Hc2 Hl) as [-> |[ns ->]]; simpl; [done|by case_decide].
    - exists (Present qn). split_and!; [by eapply l_mode| |done]. by apply (l_mode s Hok t WithJob (Present qn)). }
  apply elem_of_dom in Hd as [p Hp]. rewrite Hp. apply Hm in Hp. by destruct p.
Qed.

(** Inversion of [pre i h' = Some h]. *)
Ltac invert_pre h' Hp := destruct h' as [|[]|[] []]; simpl in Hp; repeat case_decide; simplify_eq.

Lemma pre_app i rest h' h :
  held_of rest = Some h' -> pre i h' = Some h -> held_of (i :: rest) = Some h.
Proof. intros Hr Hp. by rewrite held_cons, Hr. Qed.

(** Goroutines that are done with waiting for several queues, or with one. *)
Lemma step_several_ok s s' t i c rest :
  locks_ok s -> s_threads s !! t = Some (i :: rest) -> step_queues t i c rest s = Some s' ->
  match i with IDeactivateAll | IDeactivating _ | IDestroy | IStopping _ | IClear => True | _ => False end ->
  locks_ok s'.
Proof.
  intros Hok Ht Hs Hi. destruct (thread_facts s t i rest Hok Ht) as (h & h' & Hr & Hp & Hh & Hmu & Hw & _ & _ & Hmode & _).
  assert (Hfaults : s_faults s = []) by (by apply l_faults).
  destruct i; try done; destruct c; simpl in Hs; try done.
  - invert_pre h' Hp. eapply (owner_ok s); [exact Hok|exact Ht|exact Hh| |done..| | |done]; [|simpl|by left].
    + eapply pre_app; [exact Hr|]. simpl. by rewrite decide_True.
    + by eapply mode_deactivating, Hmode.
  - invert_pre h' Hp. eapply (owner_ok s); [exact Hok|exact Ht|exact Hh|exact Hr|done..| |by left|done].
    by eapply Hmode.
  - case_decide as Hqn; [|done]. destruct (advance _ _ _ _) as [m'|] eqn:Ea; simplify_eq/=. invert_pre h' Hp.
    destruct (mode_advance _ (Deact (ns ∖ {[qn]})) _ _ _ _ _ (Hmode _ _ eq_refl) Ea) as [Hm Hd]; simpl.
    + rewrite decide_False by set_solver. done.
    + intros qn2 Hne. by rewrite (decide_ext (qn2 ∈ ns ∖ {[qn]}) (qn2 ∈ ns)) by set_solver.
    + set_solver.
    + eapply (owner_ok s); [exact Hok|exact Ht|exact Hh| |done..|exact Hm|by left|done].
      eapply pre_app; [exact Hr|]. simpl. by rewrite decide_True.
  - invert_pre h' Hp; (eapply (owner_ok s); [exact Hok|exact Ht|exact Hh| |done..| |by left|done]);
      try (by eapply mode_stopping, Hmode);
      (eapply pre_app; [eapply pre_app; [exact Hr|done]|]; simpl; by rewrite decide_True).
  - invert_pre h' Hp. eapply (owner_ok s); [exact Hok|exact Ht|exact Hh|exact Hr|done..| |by left|done].
    by eapply Hmode.
  - case_decide as Hqn; [|done]. destruct (advance _ _ _ _) as [m'|] eqn:Ea; simplify_eq/=. invert_pre h' Hp.
    destruct (mode_advance _ (Stopg (ns ∖ {[qn]})) _ _ _ _ _ (Hmode _ _ eq_refl) Ea) as [Hm Hd]; simpl.
    + rewrite decide_False by set_solver. done.
    + intros qn2 Hne. by rewrite (decide_ext (qn2 ∈ ns ∖ {[qn]}) (qn2 ∈ ns)) by set_solver.
    + set_solver.
    + eapply (owner_ok s); [exact Hok|exact Ht|exact Hh| |done..|exact Hm|by left|done].
      eapply pre_app; [exact Hr|]. simpl. by rewrite decide_True.
  - invert_pre h' Hp; (eapply (owner_ok s); [exact Hok|exact Ht|exact Hh|exact Hr|done..| |by right|]);
      simpl; try (by rewrite (mode_cleared _ (Hmode _ _ eq_refl)), Hfaults); split; simpl; [done|set_solver|set_solver|set_solver].
Qed.

Lemma step_single_ok s s' t i c rest :
  locks_ok s -> s_threads s !! t = Some (i :: rest) -> step_queues t i c rest s = Some s' -> s_crashed s' = false ->
  match i with IDeactivate _ | IStop _ | IDelete _ | IStart _ => True | _ => False end ->
  locks_ok s'.
Proof.
  intros Hok Ht Hs Hc Hi. destruct (thread_facts s t i rest Hok Ht) as (h & h' & Hr & Hp & Hh & Hmu & Hw & _ & _ & Hmode & _).
  assert (Hfaults : s_faults s = []) by (by apply l_faults).
  destruct i; try done; destruct c; simpl in Hs; try done.
  - destruct (advance _ _ _ _) as [m'|] eqn:Ea; simplify_eq/=. invert_pre h' Hp.
    destruct (mode_advance _ (OneDeact qn0) _ _ _ _ _ (Hmode _ _ eq_refl) Ea) as [Hm Hd]; simpl; [by rewrite decide_True|
      by intros; rewrite decide_False|done|].
    eapply (owner_ok s); [exact Hok|exact Ht|exact Hh|exact Hr|done..|exact Hm|by left|done].
  - destruct (advance _ _ _ _) as [m'|] eqn:Ea; simplify_eq/=. invert_pre h' Hp.
    destruct (mode_advance _ (OneStopped qn0) _ _ _ _ _ (Hmode _ _ eq_refl) Ea) as [Hm Hd]; simpl; [by rewrite decide_True|
      by intros; rewrite !decide_False|done|].
    eapply (owner_ok s); [exact Hok|exact Ht|exact Hh|exact Hr|done..|exact Hm|by left|done].
  - invert_pre h' Hp; destruct (mode_delete _ _ (Hmode _ _ eq_refl)) as [Hm Hl];
      (eapply (owner_ok s); [exact Hok|exact Ht|exact Hh|exact Hr|done..| |by right|]); simpl; rewrite ?Hl, ?Hfaults;
      try done; by eapply mode_Fresh.
  - invert_pre h' Hp; destruct (mode_start _ _ (Hmode _ _ eq_refl)) as [Hm Hl];
      (eapply (owner_ok s); [exact Hok|exact Ht|exact Hh|exact Hr|done..| |by right|]); simpl; rewrite ?Hl, ?Hfaults;
      try done; by eapply mode_Fresh.
  - destruct ok; [done|]. case_decide; simplify_eq/=.
    invert_pre h' Hp; (eapply (owner_ok s); [exact Hok|exact Ht|exact Hh| |done..| |by left|done]; [done|];
      eapply mode_Fresh; [by eapply Hmode|done]).
Qed.

Lemma step_data_ok s s' t i c rest :
  locks_ok s -> s_threads s !! t = Some (i :: rest) -> step_queues t i c rest s = Some s' -> s_crashed s' = false ->
  match i with IStartup | IAddQ _ | IDeleteQ _ | IFindQ _ | IPut _ => True | _ => False end ->
  locks_ok s'.
Proof.
  intros Hok Ht Hs Hc Hi. destruct (thread_facts s t i rest Hok Ht) as (h & h' & Hr & Hp & Hh & Hmu & Hw & _ & _ & Hmode & _).
  assert (Hfaults : s_faults s = []) by (by apply l_faults).
  destruct i; try done; destruct c; simpl in Hs; try done.
  - destruct qs as [qs|]; simplify_eq/=. invert_pre h' Hp.
    eapply (owner_ok s); [exact Hok|exact Ht|exact Hh|by apply held_puts|done..|by eapply Hmode|by left|done].
  - simplify_eq. invert_pre h' Hp.
    eapply (owner_ok s); [exact Hok|exact Ht|exact Hh| |done..|by eapply Hmode|by left|done].
    destruct ok; [|done]. by eapply pre_app.
  - invert_pre h' Hp. destruct ok; simplify_eq.
    + eapply (owner_ok s); [exact Hok|exact Ht|exact Hh| |done..| |by left|done].
      * rewrite (held_remove _ _ _ _ Hr) by auto. instantiate (1 := if s_running s !! qn is Some _ then Present qn else Fresh).
        by destruct (s_running s !! qn).
      * pose proof (mode_put (s_running s) qn (Hmode _ _ eq_refl)). simpl. destruct (s_running s !! qn); [done|by eapply Hmode].
    + eapply (owner_ok s); [exact Hok|exact Ht|exact Hh|exact Hr|done..|by eapply Hmode|by left|done].
  - simplify_eq. invert_pre h' Hp.
    eapply (owner_ok s); [exact Hok|exact Ht|exact Hh| |done..|by eapply Hmode|by left|done].
    destruct q; [|done]. eapply pre_app; [by eapply pre_app|]. simpl. by rewrite decide_True.
  - simplify_eq.
    assert (held_of (IStart qn :: rest) = Some (Held WithJob (Absent qn)) /\ h = Held WithJob Fresh) as [Hst ->].
    { invert_pre h' Hp; (split; [|done]); (eapply pre_app; [exact Hr|]); simpl; by rewrite ?decide_True. }
    eapply (owner_ok s); [exact Hok|exact Ht|exact Hh| |done..| |by left|done].
    + rewrite (held_remove _ _ _ _ Hst) by auto.
      instantiate (1 := if s_running s !! qn is Some _ then Present qn else Absent qn). by destruct (s_running s !! qn).
    + by eapply mode_put, Hmode.
Qed.

Lemma step_push_ok s s' t i c rest :
  locks_ok s -> s_threads s !! t = Some (i :: rest) -> step_queues t i c rest s = Some s' ->
  match i with IGet _ | IPushTo _ | ILookup _ => True | _ => False end ->
  locks_ok s'.
Proof.
  intros Hok Ht Hs Hi. destruct (thread_facts s t i rest Hok Ht) as (h & h' & Hr & Hp & Hh & Hmu & Hw & _ & _ & Hmode & _).
  assert (Hfaults : s_faults s = []) by (by apply l_faults).
  destruct i; try done; destruct c; simpl in Hs; try done; simplify_eq.
  - invert_pre h' Hp. destruct (s_running s !! qn) as [p|] eqn:E.
    + eapply (bystander_ok s _ t _ _ _ (Reading (Some qn))); [exact Hok|exact Ht|exact Hh| |done..| |done];
        [eapply (pre_app _ _ (Reading None)); [by eapply pre_app|done]|]. intros qn2 [= <-]. by eapply elem_of_dom_2.
    + eapply (bystander_ok s _ t _ _ _ (Reading None)); [exact Hok|exact Ht|exact Hh| |done..|done|done].
      eapply (pre_app _ _ Free); [|done]. simpl.
      by rewrite Hr.
  - assert (Hpf : push_faults qn (s_running s) = []).
    { eapply (push_faults_none s t qn h Hok); [by eexists|]. invert_pre h' Hp; auto. }
    invert_pre h' Hp.
    + eapply (bystander_ok s); [exact Hok|exact Ht|exact Hh|exact Hr|done..|done|]. simpl. by rewrite Hpf.
    + eapply (owner_ok s); [exact Hok|exact Ht|exact Hh|exact Hr|done..| |by left|]; simpl; [|by rewrite Hpf].
      by eapply mode_Fresh; [by eapply Hmode|].
  - invert_pre h' Hp. eapply (bystander_ok s); [exact Hok|exact Ht|exact Hh|exact Hr|done..|done|done].
Qed.

Lemma step_channels_ok s s' t i c rest :
  locks_ok s -> s_threads s !! t = Some (i :: rest) -> step_channels t i c rest s = Some s' -> locks_ok s'.
Proof.
  intros Hok Ht Hs. destruct (thread_facts s t i rest Hok Ht) as (h & h' & Hr & Hp & Hh & Hmu & Hw & _ & _ & Hmode & _).
  assert (Hfaults : s_faults s = []) by (by apply l_faults).
  destruct i; try done; destruct c; simpl in Hs; try done; repeat case_match; simplify_eq; try done;
    try (invert_pre h' Hp; eapply (bystander_ok s _ t _ _ _ Free); [exact Hok|exact Ht|exact Hh| |done..|done|done];
      first [exact Hr|by eapply pre_app]).
  - invert_pre h' Hp. eapply (bystander_ok s _ t _ _ _ Free); [exact Hok|exact Ht|exact Hh| |done..|done|done].
    destruct w; simpl; rewrite ?Hr; simpl; done.
  - invert_pre h' Hp. eapply (owner_ok s); [exact Hok|exact Ht|exact Hh|exact Hr|done..| |by left|done].
    by eapply mode_Fresh; [by eapply Hmode|].
Qed.

Lemma same_ok s s' :
  locks_ok s -> s_threads s' = s_threads s -> s_mu s' = s_mu s -> s_muJob s' = s_muJob s ->
  s_readers s' = s_readers s -> s_running s' = s_running s -> s_faults s' = s_faults s -> locks_ok s'.
Proof.
  intros Hok Hs Hmu Hw HR Hm Hf.
  assert (Hg : forall t h, holds s' t h <-> holds s t h) by (intros; unfold holds; by rewrite Hs).
  constructor; rewrite ?Hs, ?Hmu, ?Hw, ?HR, ?Hm, ?Hf; try setoid_rewrite Hg; apply Hok.
Qed.

Lemma spawn_ok s code : locks_ok s -> held_of code = Some Free -> locks_ok (spawn code s).
Proof.
  intros Hok Hc.
  assert (Hg : forall t h, h <> Free -> holds (spawn code s) t h <-> holds s t h).
  { intros t h Hh. unfold holds. simpl. split; intros (c & Ht & E); exists c; (split; [|done]).
    - apply lookup_app_Some in Ht as [|[_ [_ <-]%list_lookup_singleton_Some]]; [done|congruence].
    - by apply lookup_app_l_Some. }
  assert (Hf : forall t (f : held -> bool), f Free = false ->
    (exists h, holds (spawn code s) t h /\ f h = true) <-> exists h, holds s t h /\ f h = true).
  { intros t f Hf. split; intros (h & Hh & E); exists h; (split; [|done]); (apply Hg in Hh || apply Hg); (done || congruence). }
  constructor; simpl; try (setoid_rewrite Hf; [|done]); try apply Hok.
  - intros t c [|[_ [_ <-]%list_lookup_singleton_Some]]%lookup_app_Some; [by eapply l_typed|eauto].
  - intros t m Hh%Hg; [|done]. by eapply l_writer.
  - intros t l m Hh%Hg; [|done]. by eapply l_mode.
  - intros t qn Hh%Hg; [|done]. by eapply l_reading.
Qed.

Lemma step_instr_ok s s' t i c rest :
  locks_ok s -> s_threads s !! t = Some (i :: rest) -> step_instr t i c rest s = Some s' ->
  s_crashed s' = false -> locks_ok s'.
Proof.
  intros Hok Ht Hs Hc.
  destruct i; cbn [step_instr] in Hs;
    first [eapply step_several_ok; [exact Hok|exact Ht|exact Hs|exact I]
      | eapply step_single_ok; [exact Hok|exact Ht|exact Hs|exact Hc|exact I]
      | eapply step_data_ok; [exact Hok|exact Ht|exact Hs|exact Hc|exact I]
      | eapply step_push_ok; [exact Hok|exact Ht|exact Hs|exact I]
      | eapply step_channels_ok; [exact Hok|exact Ht|exact Hs]
      | destruct c; [|discriminate Hs..]; eapply step_locks_ok; [exact Hok|exact Ht|exact Hs]].
Qed.

(** ** The channels of the watchers *)

(** An instruction that is not about a channel of a watcher. *)
Definition body_instr (i : instr) : bool :=
  match i with ISelect _ | IExit _ | ISend _ | IRecv _ => false | _ => true end.

Definition looping (s : system) (w : watcher) : Prop :=
  exists body, s_threads s !! wid w = Some (body ++ [ISelect w]) /\ forallb body_instr body = true.

(** How far [Stop] has come with a watcher. *)
Inductive progress := NotAsked | Awaited | Over.

Definition watcher_ok (s : system) (w : watcher) (p : progress) : Prop :=
  match p with
  | NotAsked => s_stopC s w = false /\ s_stoppedC s w = false /\ looping s w
  | Awaited =>
      (s_stopC s w = true /\ s_stoppedC s w = false /\ looping s w) \/
      (s_stopC s w = false /\ s_stoppedC s w = false /\ s_threads s !! wid w = Some [IExit w]) \/
      (s_stopC s w = false /\ s_stoppedC s w = true /\ s_threads s !! wid w = Some [])
  | Over => s_stopC s w = false /\ s_stoppedC s w = false /\ s_threads s !! wid w = Some []
  end.

(** What [Stop] has still to do, with the progress of the two watchers. *)
Inductive stop_stage : bool -> list instr -> progress -> progress -> Prop :=
| stage_idle : stop_stage false [] NotAsked NotAsked
| stage_send1 : stop_stage true Stop_code NotAsked NotAsked
| stage_recv1 : stop_stage true (drop 1 Stop_code) Awaited NotAsked
| stage_send2 : stop_stage true (drop 2 Stop_code) Over NotAsked
| stage_recv2 : stop_stage true (drop 3 Stop_code) Over Awaited
| stage_body code : forallb body_instr code = true -> stop_stage true code Over Over.

Record channels_ok (s : system) : Prop := {
  c_stop : exists code p q, s_threads s !! stop_id = Some code /\ stop_stage (s_stopping s) code p q /\
             watcher_ok s QueueW p /\ watcher_ok s RoutingW q;
  c_requests : forall t code, (stop_id < t)%nat -> s_threads s !! t = Some code -> forallb body_instr code = true;
}.

(** A step on the locks or the queues leaves the channels alone. *)
Lemma body_step t i c rest s s' :
  body_instr i = true -> step_instr t i c rest s = Some s' -> s_crashed s' = false ->
  s_stopC s' = s_stopC s /\ s_stoppedC s' = s_stoppedC s /\ s_stopping s' = s_stopping s /\
  exists p, forallb body_instr p = true /\
    (s_threads s' = <[t := p ++ rest]> (s_threads s) \/ (2 <= t /\ s_threads s' = <[t := p]> (s_threads s)))%nat.
Proof.
  intros Hb Hs Hc.
  assert (Hrem : forall qn, forallb body_instr (remove_code qn (s_running s)) = true)
    by (intros; unfold remove_code; by destruct (_ !! _)).
  assert (Hputs : forall qs, forallb body_instr (IPut <$> qs) = true) by (by induction qs).
  destruct i; try done; destruct c; simpl in Hs; try done; unfold advance in Hs;
    repeat case_match; repeat case_decide; simplify_eq/=; split_and!; try done;
    try (exists []; split; [done|]; left; done);
    try (eexists [_]; split; [|left; reflexivity]; done);
    try (eexists [_;_]; split; [|left; reflexivity]; done).
  - exists (IPut <$> l). auto.
  - exists (remove_code qn (s_running s)). auto.
  - exists (remove_code qn (s_running s) ++ [IStart qn]). rewrite forallb_app, Hrem, <- app_assoc. auto.
  - exists [IUnlockJob; IUnlockMu]. split; [done|]. right. split; [lia|done].
  - exists (IRUnlock :: Push_slow qn). auto.
Qed.

Lemma step_frame t i c rest s s' t' :
  step_instr t i c rest s = Some s' -> t' <> t -> s_threads s' !! t' = s_threads s !! t'.
Proof.
  intros Hs Hne.
  destruct i; destruct c; simpl in Hs; try done; unfold advance in Hs;
    repeat case_match; repeat case_decide; simplify_eq/=; try done; by rewrite list_lookup_insert_ne.
Qed.

Lemma watcher_frame s s' w p :
  watcher_ok s w p -> s_stopC s' w = s_stopC s w -> s_stoppedC s' w = s_stoppedC s w ->
  s_threads s' !! wid w = s_threads s !! wid w -> watcher_ok s' w p.
Proof. intros Hw E1 E2 E3. unfold watcher_ok, looping in *. by rewrite E1, E2, E3. Qed.

(** A watcher that is asked to stop no sooner than [p] goes on. *)
Lemma watcher_step s s' w p c i rest :
  watcher_ok s w p -> s_threads s !! wid w = Some (i :: rest) -> step_instr (wid w) i c rest s = Some s' ->
  s_crashed s' = false ->
  watcher_ok s' w p /\ s_stopping s' = s_stopping s /\
  forall w', w' <> w -> s_stopC s' w' = s_stopC s w' /\ s_stoppedC s' w' = s_stoppedC s w'.
Proof.
  intros Hw Ht Hs Hc.
  assert (Hlt : (wid w < length (s_threads s))%nat) by (by eapply lookup_lt_Some).
  assert (Hl : s_stoppedC s w = false /\ looping s w /\ p <> Over \/
    p = Awaited /\ s_stopC s w = false /\ s_stoppedC s w = false /\ i = IExit w /\ rest = []).
  { destruct p; simpl in Hw; naive_solver. }
  destruct Hl as [(Hst & (body & Hbody & Hb) & Hp)|(-> & E1 & E2 & -> & ->)].
  - rewrite Ht in Hbody. injection Hbody as Hbody. destruct body as [|j body]; simplify_eq/=.
    + destruct c; try done; repeat case_match; simplify_eq/=; (split; [|split; [done|]]); try done.
      * assert (Hloop : looping (goto (wid w) (reload_code w ++ [ISelect w]) s) w)
          by (exists (reload_code w); simpl; rewrite list_lookup_insert_eq by done; by destruct w).
        destruct p; simpl in *; naive_solver.
      * destruct p; simpl in *; [destruct Hw as (?&?&?); congruence| |done]. right. left. unfold upd.
        rewrite decide_True, list_lookup_insert_eq by done. done.
      * intros w' Hne. unfold upd. by rewrite decide_False.
    + apply andb_true_iff in Hb as [Hj Hb].
      destruct (body_step _ _ _ _ _ _ Hj Hs Hc) as (F1 & F2 & F3 & q & Hq & [F4|[Hge _]]); [|by destruct w; simpl in Hge; lia].
      rewrite F1, F2. split; [|done].
      assert (Hloop : looping s' w).
      { exists (q ++ body). rewrite F4, list_lookup_insert_eq, <- app_assoc by done. rewrite forallb_app, Hq, Hb. done. }
      assert (Hno : s_threads s !! wid w <> Some [IExit w] /\ s_threads s !! wid w <> Some []).
      { rewrite Ht. split; [|done]. intros [= -> ?]. done. }
      destruct p; simpl in *; rewrite ?F1, ?F2; naive_solver.
  - simpl in Hs. destruct c; try done. rewrite E2 in Hs. simplify_eq/=. split; [|split; [done|]].
    + right. right. unfold upd. simpl. rewrite decide_True, list_lookup_insert_eq by done. done.
    + intros w' Hne. unfold upd. by rewrite decide_False.
Qed.

Lemma sent_ok s s' w :
  watcher_ok s w NotAsked -> s_stopC s' = upd (s_stopC s) w true -> s_stoppedC s' = s_stoppedC s ->
  s_threads s' !! wid w = s_threads s !! wid w -> watcher_ok s' w Awaited.
Proof.
  intros (E1 & E2 & Hl) F1 F2 F3. left. rewrite F1, F2. unfold upd, looping in *. rewrite decide_True, F3 by done. done.
Qed.

Lemma received_ok s s' w :
  watcher_ok s w Awaited -> s_stoppedC s w = true -> s_stopC s' = s_stopC s -> s_stoppedC s' = upd (s_stoppedC s) w false ->
  s_threads s' !! wid w = s_threads s !! wid w -> watcher_ok s' w Over.
Proof.
  intros [(?&?&?)|[(?&?&?)|(E1 & E2 & Hl)]] E F1 F2 F3; [congruence..|]. unfold watcher_ok. rewrite F1, F2, F3. unfold upd.
  by rewrite decide_True.
Qed.

Lemma forallb_cons (f : instr -> bool) i code :
  forallb f (i :: code) = true -> f i = true /\ forallb f code = true.
Proof. apply andb_true_iff. Qed.

Lemma stopper_step s s' c i rest p q :
  s_threads s !! stop_id = Some (i :: rest) -> stop_stage (s_stopping s) (i :: rest) p q ->
  watcher_ok s QueueW p -> watcher_ok s RoutingW q ->
  step_instr stop_id i c rest s = Some s' -> s_crashed s' = false ->
  exists code p q, s_threads s' !! stop_id = Some code /\ stop_stage (s_stopping s') code p q /\
             watcher_ok s' QueueW p /\ watcher_ok s' RoutingW q.
Proof.
  intros Ht Hst Hq Hr Hs Hc.
  assert (Hlt : (stop_id < length (s_threads s))%nat) by (by eapply lookup_lt_Some).
  assert (Hfr : forall w, s_threads s' !! wid w = s_threads s !! wid w) by (intros w; eapply step_frame; [exact Hs|by destruct w]).
  remember (i :: rest) as code eqn:Ecode. remember (s_stopping s) as b eqn:Eb.
  destruct Hst as [| | | | |code Hb]; simplify_eq; try (unfold Stop_code in Ecode; cbn [drop] in Ecode; injection Ecode as <- <-).
  - destruct c; simpl in Hs; try done. destruct (s_stopC s QueueW) eqn:E; simplify_eq. eexists _, _, _. simpl.
    rewrite list_lookup_insert_eq by done. split; [done|]. rewrite <- Eb.
    split; [apply stage_recv1|]. split; [eapply (sent_ok s); [exact Hq|done..]|eapply (watcher_frame s); [exact Hr|done..]].
  - destruct c; simpl in Hs; try done. destruct (s_stoppedC s QueueW) eqn:E; simplify_eq. eexists _, _, _. simpl.
    rewrite list_lookup_insert_eq by done. split; [done|]. rewrite <- Eb.
    split; [apply stage_send2|]. split; [eapply (received_ok s); [exact Hq|done..]|eapply (watcher_frame s); [exact Hr|done..]].
  - destruct c; simpl in Hs; try done. destruct (s_stopC s RoutingW) eqn:E; simplify_eq. eexists _, _, _. simpl.
    rewrite list_lookup_insert_eq by done. split; [done|]. rewrite <- Eb.
    split; [apply stage_recv2|]. split; [eapply (watcher_frame s); [exact Hq|done..]|eapply (sent_ok s); [exact Hr|done..]].
  - destruct c; simpl in Hs; try done. destruct (s_stoppedC s RoutingW) eqn:E; simplify_eq. eexists _, _, _. simpl.
    rewrite list_lookup_insert_eq by done. split; [done|]. rewrite <- Eb.
    split; [by apply stage_body|]. split; [eapply (watcher_frame s); [exact Hq|done..]|eapply (received_ok s); [exact Hr|done..]].
  - apply forallb_cons in Hb as [Hi Hb].
    destruct (body_step _ _ _ _ _ _ Hi Hs Hc) as (F1 & F2 & F3 & r & Hrb & F4).
    assert (exists code, s_threads s' !! stop_id = Some code /\ forallb body_instr code = true) as (code & E & Hcode).
    { destruct F4 as [F4|[_ F4]]; rewrite F4, list_lookup_insert_eq by done; eexists; (split; [done|]); [|done].
      by rewrite forallb_app, Hrb, Hb. }
    exists code, Over, Over. rewrite F3, <- Eb. split; [done|]. split; [by apply stage_body|].
    split; (eapply watcher_frame; [eassumption|by rewrite ?F1, ?F2..|apply Hfr]).
Qed.

Lemma step_channels_inv s s' t c i rest :
  channels_ok s -> s_threads s !! t = Some (i :: rest) -> step_instr t i c rest s = Some s' ->
  s_crashed s' = false -> channels_ok s'.
Proof.
  intros [(code & p & q & Hcode & Hst & Hq & Hr) Hreq] Ht Hs Hc.
  assert (Hlt : (t < length (s_threads s))%nat) by (by eapply lookup_lt_Some).
  assert (Hfr : forall t', t' <> t -> s_threads s' !! t' = s_threads s !! t') by (intros; by eapply step_frame).
  assert (Hreq' : (t <= stop_id)%nat -> forall t' code, (stop_id < t')%nat -> s_threads s' !! t' = Some code -> forallb body_instr code = true).
  { intros Hle t' code' Hlt'. rewrite Hfr by lia. by apply Hreq. }
  destruct t as [|[|[|t]]].
  - split; [|apply Hreq'; unfold stop_id; lia].
    destruct (watcher_step s s' QueueW p c i rest Hq Ht Hs Hc) as (Hq' & F & Hw).
    destruct (Hw RoutingW) as [F1 F2]; [done|].
    exists code, p, q. rewrite F, Hfr by done. split_and!; try done. by eapply watcher_frame; [..|apply Hfr].
  - split; [|apply Hreq'; unfold stop_id; lia].
    destruct (watcher_step s s' RoutingW q c i rest Hr Ht Hs Hc) as (Hr' & F & Hw).
    destruct (Hw QueueW) as [F1 F2]; [done|].
    exists code, p, q. rewrite F, Hfr by done. split_and!; try done. by eapply watcher_frame; [..|apply Hfr].
  - split; [|apply Hreq'; unfold stop_id; lia]. unfold stop_id in Hcode. simplify_eq. by eapply stopper_step.
  - assert (Hb := Hreq (S (S (S t))) _ ltac:(unfold stop_id; lia) Ht). apply forallb_cons in Hb as [Hi Hb].
    destruct (body_step _ _ _ _ _ _ Hi Hs Hc) as (F1 & F2 & F3 & r & Hrb & F4). split.
    + exists code, p, q. rewrite F3, Hfr by done.
      split_and!; try done; (eapply watcher_frame; [eassumption|by rewrite ?F1, ?F2..|by apply Hfr]).
    + intros t' code' Hlt'. destruct (decide (t' = S (S (S t)))) as [->|]; [|rewrite Hfr by done; by apply Hreq].
      destruct F4 as [F4|[_ F4]]; rewrite F4, list_lookup_insert_eq by done; intros [= <-]; [|done].
      by rewrite forallb_app, Hrb.
Qed.

(** ** Reachable states *)

Lemma crash_panics t i c rest s s' :
  step_instr t i c rest s = Some s' -> s_crashed s = false -> s_crashed s' = true -> s' = panic s.
Proof.
  intros Hs H0 Hc. destruct i; destruct c; simpl in Hs; try done; unfold advance in Hs;
    repeat case_match; repeat case_decide; simplify_eq/=; congruence.
Qed.

Definition system_ok (s : system) : Prop := locks_ok s /\ channels_ok s.

Lemma start_ok names : system_ok (start_service names).
Proof.
  assert (Hm : mode_ok Fresh (s_running (start_service names))).
  { split; [done|]. simpl. induction names as [|qn names IH]; simpl; [done|]. intros qn2 p.
    destruct (decide (qn2 = qn)) as [->|]; [by rewrite lookup_insert_eq; intros [= <-]|].
    rewrite lookup_insert_ne by done. apply IH. }
  assert (Hh : forall t h, holds (start_service names) t h -> h = Free).
  { intros t h (code & Ht & Hc). destruct t as [|[|[|t]]]; simplify_eq/=; done. }
  split; constructor; simpl; try done.
  - intros [|[|[|t]]] code Ht; simplify_eq/=; eauto.
  - intros t. split; [done|]. by intros (h & ->%Hh & ?).
  - intros t. split; [done|]. by intros (h & ->%Hh & ?).
  - intros t. split; [set_solver|]. by intros (h & ->%Hh & ?).
  - by intros t l m ?%Hh.
  - by intros t qn ?%Hh.
  - exists [], NotAsked, NotAsked. split_and!; [done|apply stage_idle|..]; (split; [done|]); (split; [done|]); by exists [].
  - intros [|[|[|t]]] code Hlt Ht; unfold stop_id in Hlt; simplify_eq/=; lia.
Qed.

Lemma held_request r : held_of (request_code r) = Some Free.
Proof. by destruct r. Qed.

Lemma spawn_channels s r : channels_ok s -> channels_ok (spawn (request_code r) s).
Proof.
  intros [(code & p & q & Hcode & Hst & Hq & Hr) Hreq].
  assert (Hlt : (stop_id < length (s_threads s))%nat) by (by eapply lookup_lt_Some). split.
  - exists code, p, q. simpl. rewrite lookup_app_l by done. split_and!; try done;
      (eapply watcher_frame; [eassumption|done|done|]); simpl; apply lookup_app_l; unfold stop_id in Hlt; simpl; lia.
  - intros t c Ht [|[_ [_ <-]%list_lookup_singleton_Some]]%lookup_app_Some; [by eapply Hreq|by destruct r].
Qed.

Lemma call_stop_ok s : system_ok s -> s_stopping s = false -> system_ok (call_stop s).
Proof.
  intros [Hok [(code & p & q & Hcode & Hst & Hq & Hr) Hreq]] E. rewrite E in Hst. inversion Hst; subst.
  assert (Hlt : (stop_id < length (s_threads s))%nat) by (by eapply lookup_lt_Some). split.
  - eapply (bystander_ok s _ stop_id [] Stop_code Free Free); try done. exact (l_faults s Hok).
  - split.
    + exists Stop_code, NotAsked, NotAsked. split; [simpl; by rewrite list_lookup_insert_eq|].
      split_and!; [apply stage_send1|..]; (eapply (watcher_frame s); [assumption|done|done|]);
        simpl; by rewrite list_lookup_insert_ne.
    + intros t c Ht. simpl. rewrite list_lookup_insert_ne by lia. by apply Hreq.
Qed.

Lemma panic_ok s : system_ok s -> system_ok (panic s).
Proof. intros [Hok [Hst Hreq]]. split; [by eapply same_ok|]. by split. Qed.

Lemma sstep_ok l s s' : system_ok s -> sstep l s = Some s' -> system_ok s'.
Proof.
  intros Hsys Hs. unfold sstep in Hs. destruct (s_crashed s) eqn:Hc; [done|]. destruct l as [t c|r|].
  - destruct (s_threads s !! t) as [[|i rest]|] eqn:Ht; [done| |done]. cbn [mbind option_bind] in Hs.
    destruct (s_crashed s') eqn:Hc'; [rewrite (crash_panics _ _ _ _ _ _ Hs Hc Hc'); by apply panic_ok|].
    destruct Hsys as [Hok Hch]. split; [by eapply step_instr_ok|by eapply step_channels_inv].
  - simplify_eq. destruct Hsys as [Hok Hch]. split; [|by apply spawn_channels].
    apply spawn_ok; [done|apply held_request].
  - destruct (s_stopping s) eqn:E; simplify_eq. by apply call_stop_ok.
Qed.

Lemma reachable_ok names s : reachable names s -> system_ok s.
Proof. induction 1 as [|s l s' _ IH Hs]; [apply start_ok|by eapply sstep_ok]. Qed.

(** ** Absence of deadlock *)

(** Goroutine [t] can move without a tick. *)
Definition can_step (s : system) (t : nat) : Prop :=
  exists c s', own_label (Run t c) = true /\ sstep (Run t c) s = Some s'.

Lemma can_step_intro s t i rest c :
  s_crashed s = false -> s_threads s !! t = Some (i :: rest) -> own_label (Run t c) = true ->
  is_Some (step_instr t i c rest s) -> can_step s t.
Proof. intros Hc Ht Ho [s' Hs]. exists c, s'. split; [done|]. unfold sstep. by rewrite Hc, Ht. Qed.

Lemma advance_some p p' qn m : m !! qn = Some p -> is_Some (advance p p' qn m).
Proof. intros E. unfold advance. rewrite decide_True by done. eauto. Qed.

(** In every mode there is a queue to wait for in the phase it is waited for. *)
Lemma mode_lookup m qn running : mode_ok m running -> qn ∈ dom running -> running !! qn = Some (expected m qn).
Proof. intros [_ Hp] [p E]%elem_of_dom. by rewrite (Hp qn p E) in E. Qed.

Lemma writer_steps s t m : system_ok s -> s_crashed s = false -> holds s t (Held WithJob m) -> can_step s t.
Proof.
  intros [Hok _] Hc (code & Ht & Hh). destruct code as [|i rest]; [done|].
  assert (Hm : mode_ok m (s_running s)) by (eapply l_mode; [done|by eexists]).
  assert (Hl := mode_lookup m). rewrite held_cons in Hh. destruct (held_of rest) as [h'|]; [|done]. simpl in Hh.
  assert (Hgo : is_Some (step_instr t i Go rest s) -> can_step s t) by (by apply can_step_intro).
  assert (Hans : is_Some (step_instr t i (Answer true) rest s) -> can_step s t) by (by apply can_step_intro).
  destruct i; try (apply Hgo; simpl; eauto; fail); try (apply Hans; simpl; eauto; fail); try (invert_pre h' Hh; done).
  - destruct (decide (ns = ∅)) as [->|[qn Hqn]%set_choose_L]; [apply Hgo; simpl; rewrite decide_True by done; eauto|].
    assert (m = Stopg ns) as -> by (invert_pre h' Hh; done). destruct Hm as [Hd ?].
    eapply (can_step_intro s t _ rest (Done qn)); [done..|]. simpl. rewrite decide_True by done.
    destruct (advance_some PDeactivated PStopped qn (s_running s)) as [m' ->]; [|by eauto].
    rewrite (Hl qn) by (done || set_solver). simpl. by rewrite decide_True.
  - eapply (can_step_intro s t _ rest (Names (Some []))); [done..|]. simpl. eauto.
  - eapply (can_step_intro s t _ rest (Found None)); [done..|]. simpl. eauto.
  - assert (m = Present qn) as -> by (invert_pre h' Hh; done). apply Hgo. simpl.
    destruct (advance_some PRunning PDeactivated qn (s_running s)) as [m' ->]; [|by eauto]. rewrite (Hl qn); [done|done|apply Hm].
  - assert (m = OneDeact qn) as -> by (invert_pre h' Hh; done). apply Hgo. simpl.
    destruct (advance_some PDeactivated PStopped qn (s_running s)) as [m' ->]; [|by eauto].
    rewrite (Hl qn); [simpl; by rewrite decide_True|done|apply Hm].
Qed.

Lemma reader_steps s t o : system_ok s -> s_crashed s = false -> holds s t (Reading o) -> can_step s t.
Proof.
  intros [Hok _] Hc (code & Ht & Hh). destruct code as [|i rest]; [done|].
  rewrite held_cons in Hh. destruct (held_of rest) as [h'|]; [|done]. simpl in Hh.
  assert (Hgo : is_Some (step_instr t i Go rest s) -> can_step s t) by (by apply can_step_intro).
  destruct i; try (apply Hgo; simpl; eauto; fail); invert_pre h' Hh; done.
Qed.

Lemma owner_steps s t l m :
  system_ok s -> s_crashed s = false -> holds s t (Held l m) -> exists t', can_step s t'.
Proof.
  intros Hsys Hc Hh. destruct (Hsys) as [Hok _]. destruct l; [| |by exists t; eapply writer_steps].
  - exists t. assert (Hm : mode_ok m (s_running s)) by (by eapply l_mode).
    assert (Hw : s_muJob s = None).
    { destruct (s_muJob s) as [t2|] eqn:E; [|done]. apply l_muJob in E as (h2 & H2 & E2); [|done].
      assert (s_mu s = Some t2) by (apply l_mu; [done|]; exists h2; split; [done|by destruct h2]).
      assert (s_mu s = Some t) by (apply l_mu; eauto). destruct Hh as (c1 & ? & ?), H2 as (c2 & ? & ?). simplify_eq. }
    destruct Hh as (code & Ht & Hh). destruct code as [|i rest]; [done|].
    rewrite held_cons in Hh. destruct (held_of rest) as [h'|]; [|done]. simpl in Hh.
    assert (Hgo : is_Some (step_instr t i Go rest s) -> can_step s t) by (by apply can_step_intro).
    destruct i; try (apply Hgo; simpl; rewrite ?Hw; eauto; fail); try (invert_pre h' Hh; done).
    destruct (decide (ns = ∅)) as [->|[qn Hqn]%set_choose_L]; [apply Hgo; simpl; rewrite decide_True by done; eauto|].
    assert (m = Deact ns) as -> by (invert_pre h' Hh; done). destruct (Hm) as [Hd ?].
    eapply (can_step_intro s t _ rest (Done qn)); [done..|]. simpl. rewrite decide_True by done.
    destruct (advance_some PRunning PDeactivated qn (s_running s)) as [m' ->]; [|by eauto].
    rewrite (mode_lookup _ qn _ Hm) by set_solver. simpl. by rewrite decide_True.
  - destruct (decide (s_readers s = ∅)) as [E|[t2 Ht2]%set_choose_L].
    + exists t. destruct Hh as (code & Ht & Hh). destruct code as [|i rest]; [done|].
      rewrite held_cons in Hh. destruct (held_of rest) as [h'|]; [|done]. simpl in Hh.
      destruct i; try (invert_pre h' Hh; done). eapply (can_step_intro _ _ _ _ Go); [done..|]. simpl. rewrite decide_True by done. eauto.
    + exists t2. apply l_readers in Ht2 as (h2 & H2 & E2); [|done]. destruct h2; try done. by eapply reader_steps.
Qed.

(** Nobody holds a lock: a goroutine that is not at a channel can move. *)
Lemma free_steps s t i rest :
  system_ok s -> s_crashed s = false -> s_mu s = None -> s_muJob s = None ->
  s_threads s !! t = Some (i :: rest) -> held_of (i :: rest) = Some Free -> body_instr i = true -> can_step s t.
Proof.
  intros Hsys Hc Hmu Hw Ht Hh Hb. rewrite held_cons in Hh. destruct (held_of rest) as [h'|]; [|done]. simpl in Hh.
  assert (Hgo : is_Some (step_instr t i Go rest s) -> can_step s t) by (by apply can_step_intro).
  destruct i; try done; try (invert_pre h' Hh; done); apply Hgo; simpl; rewrite ?Hmu, ?Hw; eauto.
Qed.

Lemma awaited_steps s w :
  system_ok s -> s_crashed s = false -> s_mu s = None -> s_muJob s = None ->
  (forall t h, holds s t h -> h = Free) -> watcher_ok s w Awaited ->
  can_step s (wid w) \/ s_stoppedC s w = true.
Proof.
  intros Hsys Hc Hmu Hw Hfree [(E1 & E2 & body & Ht & Hb)|[(E1 & E2 & Ht)|(E1 & E2 & Ht)]]; [left|left|by right].
  - destruct body as [|i body].
    + eapply (can_step_intro _ _ _ _ Asked); [done..|]. simpl. rewrite E1. eauto.
    + apply forallb_cons in Hb as [Hi _]. destruct (l_typed s (proj1 Hsys) _ _ Ht) as [h Hh].
      eapply free_steps; [done..|exact Ht| |done].
      assert (h = Free) as -> by (apply (Hfree (wid w)); by eexists). exact Hh.
  - eapply (can_step_intro _ _ _ _ Go); [done..|]. simpl. rewrite E2. eauto.
Qed.

(** After [Stop] was called, as long as a goroutine has anything to do one can
    move. *)
Lemma stop_no_deadlock s t i rest :
  system_ok s -> s_crashed s = false -> s_stopping s = true -> s_threads s !! t = Some (i :: rest) ->
  exists t', can_step s t'.
Proof.
  intros Hsys Hc Hstop Ht. destruct (Hsys) as [Hok [(code & p & q & Hcode & Hst & Hq & Hr) Hreq]].
  destruct (s_mu s) as [t1|] eqn:Hmu.
  { apply l_mu in Hmu as (h & Hh & E); [|done]. destruct h; try done. by eapply owner_steps. }
  destruct (decide (s_readers s = ∅)) as [Hrd|[t2 Ht2]%set_choose_L].
  2:{ exists t2. apply l_readers in Ht2 as (h2 & H2 & E2); [|done]. destruct h2; try done. by eapply reader_steps. }
  assert (Hfree : forall t h, holds s t h -> h = Free).
  { intros t' h Hh. destruct h as [| |l m]; [done| |].
    - assert (t' ∈ s_readers s) by (apply l_readers; eauto). set_solver.
    - assert (s_mu s = Some t') by (apply l_mu; eauto). congruence. }
  assert (Hw : s_muJob s = None).
  { destruct (s_muJob s) as [t2|] eqn:E; [|done]. apply l_muJob in E as (h2 & ->%Hfree & E2); done. }
  assert (Hbody : forall t i rest, s_threads s !! t = Some (i :: rest) -> body_instr i = true -> can_step s t).
  { intros t' i' rest' Ht' Hi. destruct (l_typed s Hok _ _ Ht') as [h Hh].
    eapply free_steps; [done..|exact Ht'| |done]. assert (h = Free) as -> by (apply (Hfree t'); by eexists). exact Hh. }
  rewrite Hstop in Hst. inversion Hst as [| | | | |code0 Hcb]; subst.
  - exists stop_id. eapply (can_step_intro _ _ _ _ Go); [done|exact Hcode|done|]. simpl. destruct Hq as [-> _]. eauto.
  - destruct (awaited_steps s QueueW) as [|E]; eauto. exists stop_id.
    eapply (can_step_intro _ _ _ _ Go); [done|exact Hcode|done|]. simpl. rewrite E. eauto.
  - exists stop_id. eapply (can_step_intro _ _ _ _ Go); [done|exact Hcode|done|]. simpl. destruct Hr as [-> _]. eauto.
  - destruct (awaited_steps s RoutingW) as [|E]; eauto. exists stop_id.
    eapply (can_step_intro _ _ _ _ Go); [done|exact Hcode|done|]. simpl. rewrite E. eauto.
  - exists t. apply (Hbody t i rest Ht). destruct Hq as (_ & _ & Hq), Hr as (_ & _ & Hr).
    destruct t as [|[|[|t]]]; [simpl in Hq; congruence|simpl in Hr; congruence| |].
    + unfold stop_id in Hcode. simplify_eq. by apply forallb_cons in Hcb as [? _].
    + assert (Hb := Hreq (S (S (S t))) _ ltac:(unfold stop_id; lia) Ht). by apply forallb_cons in Hb as [? _].
Qed.

(** ** Termination *)

(** Operations that unfold by the number of queues, and the length of the
    others. *)
Definition wide (i : instr) : nat :=
  match i with IDeactivateAll | IDestroy | IStartup => 1 | _ => 0 end.

Definition weight (i : instr) : nat :=
  match i with
  | IDeactivating ns | IStopping ns => 1 + size ns
  | IStart _ => 3
  | IPut _ => 7
  | IAddQ _ => 8
  | IDeleteQ _ => 4
  | IFindQ _ => 9
  | IGet _ => 16
  | ISelect _ => 2
  | _ => 1
  end.

Definition total (f : instr -> nat) (s : system) : nat := sum_list_with (sum_list_with f) (s_threads s).

Lemma sum_insert (f : list instr -> nat) l t code code' :
  l !! t = Some code -> sum_list_with f (<[t := code']> l) + f code = sum_list_with f l + f code'.
Proof.
  revert t. induction l as [|c l IH]; intros [|t] Ht; simplify_eq/=; [lia|]. specialize (IH t Ht). lia.
Qed.

Lemma weight_remove qn m : sum_list_with weight (remove_code qn m) <= 3 /\ sum_list_with wide (remove_code qn m) = 0.
Proof. unfold remove_code. destruct (m !! qn); simpl; lia. Qed.

Lemma size_remove (ns : gset string) qn : qn ∈ ns -> size (ns ∖ {[qn]}) < size ns.
Proof. intros Hq. apply subset_size. set_solver. Qed.

(** What goroutine [t] has to do becomes less. *)
Definition less_code (code' code : list instr) : Prop :=
  sum_list_with wide code' < sum_list_with wide code \/
  (sum_list_with wide code' = sum_list_with wide code /\ sum_list_with weight code' < sum_list_with weight code).

Lemma step_less t i c rest s s' :
  step_instr t i c rest s = Some s' -> own_label (Run t c) = true -> s_crashed s' = false ->
  exists code', s_threads s' = <[t := code']> (s_threads s) /\ less_code code' (i :: rest).
Proof.
  intros Hs Ho Hc. unfold less_code.
  assert (Hputs : forall qs, sum_list_with wide (IPut <$> qs) = 0) by (intros qs; by induction qs).
  destruct i; destruct c; simpl in Hs; try done; unfold advance in Hs;
    repeat case_match; repeat case_decide; simplify_eq/=; (eexists; split; [reflexivity|]);
    rewrite ?sum_list_with_app; simpl; rewrite ?Hputs;
    try (pose proof (weight_remove qn (s_running s)));
    try (pose proof (size_remove ns qn ltac:(assumption))); simpl; try lia.
Qed.

Definition own_step (s' s : system) : Prop := exists l, own_label l = true /\ sstep l s = Some s'.

Lemma own_step_less s' s :
  own_step s' s -> s_crashed s' = true \/ total wide s' < total wide s \/
    (total wide s' = total wide s /\ total weight s' < total weight s).
Proof.
  intros (l & Ho & Hs). destruct l as [t c|r|]; try done. unfold sstep in Hs. destruct (s_crashed s); [done|].
  destruct (s_threads s !! t) as [[|i rest]|] eqn:Ht; [done| |done]. cbn [mbind option_bind] in Hs.
  destruct (s_crashed s') eqn:Hc; [by left|right].
  destruct (step_less _ _ _ _ _ _ Hs Ho Hc) as (code' & E & Hl). unfold total. rewrite E.
  pose proof (sum_insert (sum_list_with wide) _ _ _ code' Ht).
  pose proof (sum_insert (sum_list_with weight) _ _ _ code' Ht).
  unfold less_code in Hl. lia.
Qed.

Lemma own_steps_end s : Acc own_step s.
Proof.
  remember (total wide s) as a eqn:Ha. revert s Ha. induction a as [a IHa] using lt_wf_ind. intros s Ha.
  remember (total weight s) as b eqn:Hb. revert s Ha Hb. induction b as [b IHb] using lt_wf_ind. intros s Ha Hb.
  constructor. intros s' Hs. destruct (own_step_less s' s Hs) as [Hc|[Hw|[Hw Hl]]].
  - constructor. intros s2 (l & _ & H2). unfold sstep in H2. by rewrite Hc in H2.
  - eapply IHa; [|reflexivity]. lia.
  - eapply IHb; [|lia|reflexivity]. lia.
Qed.

Lemma own_step_stopping s s' : own_step s' s -> s_stopping s = true -> s_stopping s' = true.
Proof.
  intros (l & Ho & Hs) E. destruct l as [t c|r|]; try done. unfold sstep in Hs. destruct (s_crashed s); [done|].
  destruct (s_threads s !! t) as [[|i rest]|]; [done| |done]. cbn [mbind option_bind] in Hs.
  destruct i; destruct c; simpl in Hs; try done; unfold advance in Hs;
    repeat case_match; repeat case_decide; simplify_eq/=; done.
Qed.

(** ** Theorems *)

(** The goroutine that writes the map next has both locks, one that reads it has
    one of them. *)
Lemma access_held s t i :
  locks_ok s -> next s t = Some i ->
  exists h, holds s t h /\ (writes_map i = true -> exists m, h = Held WithJob m) /\
    (reads_map i || writes_map i = true -> h <> Free) /\ (i = IReport -> h = Held WithJob Empty).
Proof.
  intros Hok Hn. unfold next in Hn. destruct (s_threads s !! t) as [[|j rest]|] eqn:Ht; simplify_eq/=.
  destruct (l_typed s Hok _ _ Ht) as [h Hh]. exists h. split; [by eexists|].
  rewrite held_cons in Hh. destruct (held_of rest) as [h'|]; [|done]. simpl in Hh.
  destruct i; (split_and!; [intros ?|intros ?|intros ?]); try done; invert_pre h' Hh; eauto.
Qed.

(** C20 (safety): whatever the requests, the watchers and [Stop] do at the same
    time, a goroutine that is about to write the map of running queues is alone: no
    other one is about to read or write it.  No queue is dropped from the map
    unless it was deactivated and stopped, no job is pushed to a queue that is
    stopped, and when [Stop] reports no queue runs. *)
Theorem service_locking_safe names s :
  reachable names s ->
  s_faults s = [] /\
  (forall t t' i i', t <> t' -> next s t = Some i -> next s t' = Some i' ->
     writes_map i = true -> reads_map i' = false /\ writes_map i' = false) /\
  (forall t, next s t = Some IReport -> s_running s = ∅).
Proof.
  intros Hr. destruct (reachable_ok names s Hr) as [Hok _]. split; [by apply l_faults|]. split.
  - intros t t' i i' Hne Hn Hn' Hw. apply orb_false_iff. destruct (reads_map i' || writes_map i') eqn:E; [|done]. exfalso.
    destruct (access_held s t i Hok Hn) as (h & Hh & Hh1 & _). destruct (Hh1 Hw) as [m ->].
    destruct (access_held s t' i' Hok Hn') as (h' & Hh' & _ & Hh2 & _). specialize (Hh2 E).
    destruct h' as [|o|l' m']; [done| |].
    + assert (t' ∈ s_readers s) by (apply l_readers; eauto). by rewrite (l_writer s Hok t m Hh) in *.
    + assert (s_mu s = Some t) by (apply l_mu; eauto). assert (s_mu s = Some t') by (apply l_mu; eauto). congruence.
  - intros t Hn. destruct (access_held s t IReport Hok Hn) as (h & Hh & _ & _ & Hh3). rewrite (Hh3 eq_refl) in Hh.
    destruct (l_mode s Hok t WithJob Empty Hh) as [Hd _]. by apply dom_empty_iff_L.
Qed.

(** C21 (termination): after [Stop] was called, the goroutines of the service take
    finitely many steps when no further request comes and no watcher ticks; when
    they can take no more, either the process has panicked in a reload or every
    goroutine has ended, [Stop] having reported. *)
Theorem service_Stop_ends names s :
  reachable names s -> s_stopping s = true ->
  Acc own_step s /\
  forall s', rtc (flip own_step) s s' -> (forall s2, ~ own_step s2 s') ->
    s_crashed s' = true \/ Forall (fun code => code = []) (s_threads s').
Proof.
  intros Hr Hstop. split; [apply own_steps_end|]. intros s' Hrun Hend.
  induction Hrun as [s|s s1 s' Hs _ IH].
  - destruct (s_crashed s) eqn:Hc; [by left|right]. apply Forall_lookup. intros t code Ht.
    destruct code as [|i rest]; [done|]. exfalso.
    destruct (stop_no_deadlock s t i rest (reachable_ok _ _ Hr) Hc Hstop Ht) as (t' & c & s2 & Ho & H2).
    apply (Hend s2). by eexists.
  - apply IH; [|by eapply own_step_stopping|done]. destruct Hs as (l & _ & Hs). by eapply reach_step.
Qed.

Lemma locks_run_reachable names ls s s' : reachable names s -> run ls s = Some s' -> reachable names s'.
Proof.
  revert s. induction ls as [|l ls IH]; simpl; intros s Hr Hs; [by simplify_eq|].
  destruct (sstep l s) as [s1|] eqn:E; [|done]. eapply IH; [by eapply reach_step|done].
Qed.

Lemma run_own ls s s' : forallb own_label ls = true -> run ls s = Some s' -> rtc (flip own_step) s s'.
Proof.
  revert s. induction ls as [|l ls IH]; simpl; intros s Ho Hs; [simplify_eq; apply rtc_refl|].
  apply andb_true_iff in Ho as [Hl Ho]. destruct (sstep l s) as [s1|] eqn:E; [|done].
  eapply rtc_l; [by exists l|by apply IH].
Qed.

Lemma ended_no_step s s' : forallb (fun code => match code with [] => true | _ => false end) (s_threads s) = true -> ~ own_step s' s.
Proof.
  intros Hf (l & Ho & Hs). destruct l as [t c|r|]; try done. unfold sstep in Hs. destruct (s_crashed s); [done|].
  destruct (s_threads s !! t) as [[|i rest]|] eqn:Ht; [done| |done].
  rewrite forallb_forall in Hf. apply list_elem_of_lookup_2, list_elem_of_In in Ht. by specialize (Hf _ Ht).
Qed.

(** ** A run

    A push is under way while a definition is being added; [Stop] is called, and
    waits for both. *)
Module LockRuns.

Definition names : list string := ["a"; "b"].

Definition s0 : system := start_service names.

Definition ls1 : list label :=
  [Request (RPush "a"); Request (RAdd "c"); Run 3 Go; Run 4 Go; Run 4 Go; Run 3 Go; CallStop].

Definition ls2 : list label := [Run 3 Go; Run 3 Go; Run 4 Go; Run 4 (Answer true); Run 4 Go].

Definition ls3 : list label :=
  [Run 4 Go; Run 4 Go; Run 4 Go; Run 2 Go; Run 0 Asked; Run 0 Go; Run 2 Go; Run 2 Go; Run 1 Asked; Run 1 Go; Run 2 Go;
   Run 2 Go; Run 2 Go; Run 2 (Done "b"); Run 2 (Done "a"); Run 2 (Done "c"); Run 2 Go; Run 2 Go; Run 2 Go;
   Run 2 Go; Run 2 (Done "a"); Run 2 (Done "c"); Run 2 (Done "b"); Run 2 Go; Run 2 Go; Run 2 Go; Run 2 Go; Run 2 Go].

Definition s1 : system := default s0 (run ls1 s0).
Definition s2 : system := default s0 (run ls2 s1).
Definition s3 : system := default s0 (run ls3 s2).

Lemma locks_run_s1 : run ls1 s0 = Some s1.
Proof. vm_compute. reflexivity. Qed.

Lemma locks_run_s2 : run ls2 s1 = Some s2.
Proof. vm_compute. reflexivity. Qed.

Lemma locks_run_s3 : run ls3 s2 = Some s3.
Proof. vm_compute. reflexivity. Qed.

Lemma locks_reachable_s1 : reachable names s1.
Proof. eapply locks_run_reachable; [apply reach_start|exact locks_run_s1]. Qed.

Lemma locks_reachable_s2 : reachable names s2.
Proof. eapply locks_run_reachable; [exact locks_reachable_s1|exact locks_run_s2]. Qed.

(** While the push reads, the other goroutine waits for the lock. *)
Example writer_waits : sstep (Run 4 Go) s1 = None /\ s_readers s1 = {[3]}.
Proof. vm_compute. split; reflexivity. Qed.

Lemma service_locking_safe_witness :
  next s2 4 = Some (IStart "c") /\ next s2 2 = Some (ISend QueueW) /\ s_faults s2 = [] /\
  reads_map (ISend QueueW) = false /\ writes_map (ISend QueueW) = false.
Proof.
  destruct (service_locking_safe names s2 locks_reachable_s2) as (Hf & Hrace & _).
  assert (H4 : next s2 4 = Some (IStart "c")) by (vm_compute; reflexivity).
  assert (H2 : next s2 2 = Some (ISend QueueW)) by (vm_compute; reflexivity).
  split; [exact H4|]. split; [exact H2|]. split; [exact Hf|].
  exact (Hrace 4 2 (IStart "c") (ISend QueueW) ltac:(lia) H4 H2 eq_refl).
Defined.

Lemma service_Stop_ends_witness :
  s_stopping s1 = true /\ Acc own_step s1 /\ (s_crashed s3 = true \/ Forall (fun code => code = []) (s_threads s3)).
Proof.
  assert (Hs : s_stopping s1 = true) by (vm_compute; reflexivity).
  destruct (service_Stop_ends names s1 locks_reachable_s1 Hs) as [Hacc Hend].
  split; [exact Hs|]. split; [exact Hacc|]. apply Hend.
  - etransitivity; [eapply (run_own ls2); [reflexivity|exact locks_run_s2]|eapply (run_own ls3); [reflexivity|exact locks_run_s3]].
  - intros s'. apply ended_no_step. vm_compute. reflexivity.
Defined.

(** Queues end deactivated and stopped, the new one too. *)
Example all_stopped : s_running s3 = ∅ /\ s_faults s3 = [].
Proof. vm_compute. split; reflexivity. Qed.

End LockRuns.
