(* ===== verification/InMemoryService.v ===== *)
(** * A service on the in-memory driver

    [factory.Start] with the in-memory driver, whose counter of job identifiers
    is a variable of the package, and concrete runs of a service with in-memory
    repositories: the witnesses of the theorems of [Service], and what a reload
    does to jobs that are only in memory. *)

From S2P Require Import Prelude GoStrings Job QueueSpec InMemory JobQueue Model Dispatcher Repository Config Service ServiceRunning.
Local Open Scope Z_scope.

(** [NewImpl] and [NewRepositories]: the driver of the configuration; any other
    name panics. *)
Inductive driver := MySQL | InMemoryDriver.

Definition NewImpl_driver (name : string) : option driver :=
  if String.eqb name "mysql" then Some MySQL
  else if String.eqb name "in-memory" then Some InMemoryDriver
  else None.

Section inmemory_factory.
Context {RC : Type} (rc_New : RC) (rc_Incr : Z -> RC -> RC) (tag : string).

(** The queue with the current value of the package variable [lastID]. *)
Definition at_lastID (w : Z) (q : jobQueue inmemory RC) : jobQueue inmemory RC := {|
  jq_name := jq_name q; jq_maxWorkers := jq_maxWorkers q;
  jq_impl := {| store := store (jq_impl q); queue := queue (jq_impl q); lastID := w |};
  jq_stats := jq_stats q; jq_log := jq_log q; jq_warnings := jq_warnings q;
|}.

(** The environment is the clock. *)
Definition inmemory_factory : QueueFactory Z Z (jobQueue inmemory RC) := {|
  qf_Start _ w q := Some (w, jobQueue_Start rc_New (Name q) (MaxWorkers q) (inmemory_New w));
  qf_Stop w _ := w;
  qf_Push now w q job :=
    '(q', r) ← jobQueue_Push rc_Incr tag now now (at_lastID w q) job;
    Some (lastID (jq_impl q'), q', r);
|}.
End inmemory_factory.

(** C30 (error): with the in-memory driver, a tick that sees a new revision of
    the queue definitions throws every waiting job away: all queues, also those
    whose definition has not changed, are replaced by empty ones. *)
Theorem inmemory_reload_drops_jobs {RC} (rc_New : RC) rc_Incr tag conf e0 e1 e2 now
    (s s' : Service im_repos Z (jobQueue inmemory RC)) :
  tick_queues (factory := inmemory_factory rc_New rc_Incr tag) conf e0 e1 e2 now s = Some s' ->
  qs_revision (im_qs (sv_repos s)) <> sv_queueW s ->
  forall name rq, sv_runningQueues s' !! name = Some rq -> queue (jq_impl (rq_JobQueue rq)) = [].
Proof.
  unfold tick_queues, watcher_tick. simpl. intros Ht Hne. rewrite (proj2 (Z.eqb_neq _ _) Hne) in Ht.
  refine (reloadQueues_running (factory := inmemory_factory rc_New rc_Incr tag) conf
    (fun _ jq => queue (jq_impl jq) = []) _ _ _ _ _ _ Ht).
  by intros ? ? ? ? ? [= <- <-].
Qed.

(** ** Concrete runs *)

Module ServiceRuns.
(** The default configuration with a default queue. *)
Definition conf (key : string) : string :=
  if String.eqb key "queue_default" then "default" else GetDefault initial_config key.

Definition e : im_env := {| ie_queues l := l; ie_routings l := l |}.

Definition count (n c : Z) : Z := n + c.

#[local] Instance memory : QueueFactory Z Z (jobQueue inmemory Z) := inmemory_factory 0 count "t".

Local Abbreviation service := (Service im_repos Z (jobQueue inmemory Z)).

Definition nothing : service := {|
  sv_defaultQueueName := EmptyString; sv_repos := im_repos_empty; sv_world := 0; sv_runningQueues := ∅;
  sv_queueW := 0; sv_routingW := 0 |}.

Definition mail : IncomingJob := {|
  in_Category := "mail"; in_URL := "http://w/"; in_Payload := "{}"; in_NextDelay := 0; in_Timeout := 0;
  in_RetryDelay := 0; in_RetryCount := 0; in_FailureURL := EmptyString |}.

Definition other : Queue := {|
  Name := "other"; PollingInterval := 0; MaxWorkers := 5; MaxDispatchesPerSecond := (Q2Qc (Qmake 5 2)); MaxBurstSize := 3 |}.

(** Start, push a job, define another queue, and let the watcher tick. *)
Definition s0 : service := default nothing (NewService conf e e e 1000 im_repos_empty 0).
Definition s1 : service := from_option fst nothing (Push e e 1000 1000 mail s0).
Definition s2 : service := from_option (fun p => p.1.1) nothing (addJobQueue conf e 1000 other s1).
Definition s3 : service := default nothing (tick_queues conf e e e 2000 s2).

Definition jobs_of (name : string) (s : service) : option nat :=
  (fun rq => length (queue (jq_impl (rq_JobQueue rq)))) <$> sv_runningQueues s !! name.

Local Abbreviation reachable := (service_reachable (quiet := im_quiet) (good := im_good) (stored := Some)
  (defs := fun s => qs_m (im_qs s)) (rev := fun s => qs_revision (im_qs s)) conf).

Lemma stored_valid (q q' : Queue) : Some q = Some q' -> valid_throttle q -> valid_throttle q'.
Proof. by intros [= ->]. Qed.

Lemma starts (n w : Z) (q : Queue) : is_Some (qf_Start (JQ := jobQueue inmemory Z) n w q).
Proof. simpl. eauto. Qed.

Lemma e_quiet : im_quiet e.
Proof. intros l. reflexivity. Qed.

Lemma conf_default_ok : default_ok (stored := Some) conf.
Proof. intros _. eexists. split; [vm_compute; reflexivity|]. split; [reflexivity|]. vm_compute. discriminate. Qed.

Lemma reachable_s0 : reachable s0.
Proof.
  refine (sr_new conf e e e 1000 im_repos_empty 0 s0 e_quiet e_quiet _ _ _ _).
  - split; [split|]; intros; vm_compute in *; congruence.
  - vm_compute. reflexivity.
  - intros name q. simpl. by rewrite lookup_empty.
  - vm_compute. reflexivity.
Qed.

Lemma reachable_s1 : reachable s1.
Proof.
  refine (sr_push conf e e 1000 1000 mail s0 s1 (Ok {| pr_ID := 1; pr_QueueName := "default" |}) reachable_s0 e_quiet e_quiet _).
  vm_compute. reflexivity.
Qed.

Lemma reachable_s2 : reachable s2.
Proof.
  refine (sr_add conf e 1000 other s1 s2 {| Name := "other"; PollingInterval := 100; MaxWorkers := 5;
    MaxDispatchesPerSecond := (Q2Qc (Qmake 5 2)); MaxBurstSize := 3 |} None reachable_s1 e_quiet _ _ _).
  - split; [discriminate|]. eauto.
  - vm_compute. reflexivity.
  - vm_compute. reflexivity.
Qed.

Definition running_in (name : string) (s : service) : runningQueue (jobQueue inmemory Z) :=
  default {| rq_JobQueue := jobQueue_Start 0 EmptyString 0 (inmemory_New 0);
             rq_dispatcher := {| c_bufferSize := 0; c_maxWorkers := 0; c_limit := None; c_burst := 0; c_interval := 0 |};
             rq_definition := zero_queue |} (sv_runningQueues s !! name).

Lemma service_runs_valid_queues_witness :
  sv_runningQueues s2 !! "other" = Some (running_in "other" s2) /\
  Name (rq_definition (running_in "other" s2)) = "other" /\
  valid_throttle (rq_definition (running_in "other" s2)) /\
  limiter_closed (rq_dispatcher (running_in "other" s2)) = false.
Proof.
  assert (sv_runningQueues s2 !! "other" = Some (running_in "other" s2)) as Hrq by (vm_compute; reflexivity).
  destruct (service_runs_valid_queues conf stored_valid starts s2 "other" (running_in "other" s2)
    conf_default_ok reachable_s2 Hrq) as (H1 & _ & H3 & H4).
  split; [exact Hrq|]. split; [exact H1|]. split; [exact H3|]. apply H4. vm_compute. split; discriminate.
Defined.

Lemma startable_check (m : gmap string Queue) :
  forallb (fun p => MaxWorkers p.2 <=? max_job_chan) (map_to_list m) = true ->
  forall name q, m !! name = Some q -> MaxWorkers q <= max_job_chan.
Proof.
  rewrite forallb_forall. intros H name q Hq. apply elem_of_map_to_list, list_elem_of_In, H in Hq.
  by apply Z.leb_le.
Qed.

Lemma startable_s2 : all_startable (defs := fun s => qs_m (im_qs s)) (sv_repos s2).
Proof. refine (startable_check (qs_m (im_qs (sv_repos s2))) _). vm_compute. reflexivity. Qed.

Lemma tick_follows_repository_witness :
  exists s', tick_queues conf e e e 2000 s2 = Some s' /\ sv_queueW s' = qs_revision (im_qs (sv_repos s2)) /\
    rq_definition <$> sv_runningQueues s' = qs_m (im_qs (sv_repos s')).
Proof.
  destruct (tick_follows_repository (rev := fun s => qs_revision (im_qs s)) conf stored_valid starts e e e 2000 s2 2
    conf_default_ok reachable_s2 e_quiet e_quiet e_quiet) as (s' & H1 & H2 & H3 & _).
  - vm_compute. reflexivity.
  - exact startable_s2.
  - reflexivity.
  - vm_compute. discriminate.
  - exists s'. split; [exact H1|]. split; [exact H2|exact H3].
Defined.

Lemma Push_delivers_witness :
  exists s', Push e e 3000 3000 mail s2 = Some (s', Ok {| pr_ID := 2; pr_QueueName := "default" |}) /\
    jobs_of "default" s' = Some 2%nat /\ jobs_of "other" s' = Some 0%nat.
Proof.
  destruct (Push_delivers conf stored_valid starts e e 3000 3000 mail s2 conf_default_ok reachable_s2 e_quiet e_quiet)
    as (_ & _ & H).
  destruct (H ltac:(vm_compute; discriminate) (sv_world s2) (running_in "default" s2)
    2 (from_option (fun p => p.1.2) (rq_JobQueue (running_in "default" s2))
         (qf_Push (JQ := jobQueue inmemory Z) 3000 (sv_world s2) (rq_JobQueue (running_in "default" s2)) mail))
    (Ok 2)) as (s' & Hp & _ & Hm).
  - apply pq_running. vm_compute. reflexivity.
  - vm_compute. reflexivity.
  - exists s'. split; [exact Hp|]. unfold jobs_of. rewrite Hm. vm_compute. split; reflexivity.
Defined.

(** The job pushed to the default queue is gone although only another queue was
    defined. *)
Lemma inmemory_reload_drops_jobs_witness :
  jobs_of "default" s2 = Some 1%nat /\ tick_queues conf e e e 2000 s2 = Some s3 /\
  sv_runningQueues s3 !! "default" = Some (running_in "default" s3) /\
  queue (jq_impl (rq_JobQueue (running_in "default" s3))) = [].
Proof.
  assert (tick_queues conf e e e 2000 s2 = Some s3) as Ht by (vm_compute; reflexivity).
  assert (sv_runningQueues s3 !! "default" = Some (running_in "default" s3)) as Hrq by (vm_compute; reflexivity).
  split; [vm_compute; reflexivity|]. split; [exact Ht|]. split; [exact Hrq|].
  refine (inmemory_reload_drops_jobs 0 count "t" conf e e e 2000 s2 s3 Ht _ "default" _ Hrq).
  vm_compute. discriminate.
Defined.

(** A polling interval is not checked: this one is accepted, and the ticker of
    its dispatcher panics. *)
Definition slow : Queue := {|
  Name := "slow"; PollingInterval := 9223372036855; MaxWorkers := 5; MaxDispatchesPerSecond := 0%Qc; MaxBurstSize := 0 |}.

Theorem interval_overflow_panics :
  exists s' q', addJobQueue conf e 1000 slow s0 = Some (s', q', None) /\
    (fun rq => ticker_period (c_interval (rq_dispatcher rq))) <$> sv_runningQueues s' !! "slow" = Some None.
Proof.
  pose (r := addJobQueue conf e 1000 slow s0).
  assert ((fun p => ((fun rq => ticker_period (c_interval (rq_dispatcher rq))) <$> sv_runningQueues p.1.1 !! "slow", p.2)) <$> r =
    Some (Some None, None)) as Hr by (vm_compute; reflexivity).
  destruct r as [[[s' q'] err]|] eqn:Er; [|discriminate Hr]. simpl in Hr.
  exists s', q'. injection Hr as Ht He. rewrite He in Er. split; [exact Er|exact Ht].
Qed.
End ServiceRuns.
