(* ===== verification/ConfigSync.v ===== *)
(** * Nodes of a cluster following one MySQL repository

    Several nodes share the configuration tables.  On each, requests (definition
    and deletion of queues, a push that starts a queue) and the reload of the queue
    watcher take the lock [s.mu] one at a time, and perform one statement after
    another; the watcher reads the revision without that lock.  A step is one
    statement, or one change of the running queues of a node; steps of different
    nodes interleave freely.

    Any statement can fail, having taken effect or not; a request that meets an
    error gives up and leaves the tables as they are, a reload panics and the node is
    gone until it is started again. *)

From S2P Require Import Prelude Model Dispatcher Repository Service.
Local Open Scope Z_scope.

Section sync.
Context {F : Type} `{!EqDecision F} (store_float : Qc -> option F) (load_float : F -> Qc).
(** The value of [config.Get]. *)
Context (conf : string -> string).

(** The definition [initDefaultQueue] adds, when a default queue is configured. *)
Definition default_queue : option Queue :=
  if bool_decide (conf "queue_default" = EmptyString) then None else fill_defaults conf (default_zero conf).

(** Where the holder of [s.mu] is. *)
Inductive crit_pc :=
| COff                                    (* the node has not been started *)
| CIdle                                   (* nobody holds the lock *)
| CAdd1 (q : Queue)                       (* [Add]: before its first statement *)
| CAdd2 (q : Queue) (updated : bool)
| CAdd3 (q : Queue)                       (* before [updateRevision] *)
| CPut (q : Queue)                        (* before [putJobQueue] *)
| CDel1 (name : string)                   (* [DeleteByName] *)
| CDel2 (name : string)
| CDel3 (name : string)
| CDrop (name : string)                   (* before the running queue is stopped *)
| CFind1 (name : string)                  (* [FindByName] of a push *)
| CFind2 (q : Queue)
| CRead1                                  (* [FindAll] of a reload *)
| CRead2 (rows : list Queue).

(** The watcher: at its ticker, waiting for the lock, or reloading. *)
Inductive watch_pc := WIdle | WWaiting | WReloading.

Record node := {
  n_last : Z;                             (* [lastRevision] *)
  n_watch : watch_pc;
  n_crit : crit_pc;
  n_running : gmap string Queue;          (* definitions of the running queues *)
}.

Record nodes := {
  cl_db : config_tables F;
  cl_nodes : list node;
  cl_unannounced : bool;   (* history: a change was given up before its revision was updated, and
                              the revision has not been updated since *)
}.

Definition node_off : node := {| n_last := 0; n_watch := WReloading; n_crit := COff; n_running := ∅ |}.

(** The lock is released; a reload has ended. *)
Definition finish (running : gmap string Queue) (n : node) : node := {|
  n_last := n_last n; n_watch := match n_watch n with WReloading => WIdle | w => w end;
  n_crit := CIdle; n_running := running;
|}.

Definition goto (pc : crit_pc) (n : node) : node :=
  {| n_last := n_last n; n_watch := n_watch n; n_crit := pc; n_running := n_running n |}.

(** One statement or one change of the running queues by the holder of the
    lock. *)
Definition crit_step (db : config_tables F) (n : node) : option (config_tables F * node) :=
  match n_crit n with
  | COff | CIdle => None
  | CAdd1 q => '(db, i) ← sql_upsert_queue q db; Some (db, goto (CAdd2 q (negb (i =? 0))) n)
  | CAdd2 q updated =>
      '(db, i) ← sql_upsert_throttle store_float q db;
      Some (db, if updated || negb (i =? 0) then goto (CAdd3 q) n else finish (n_running n) n)
  | CAdd3 q => '(db, _) ← sql_bump_revision "queue_definition" db; Some (db, goto (CPut q) n)
  | CPut q => Some (db, finish (<[Name q := q]> (n_running n)) n)
  | CDel1 name => '(db, _) ← sql_delete_queue name db; Some (db, goto (CDel2 name) n)
  | CDel2 name => '(db, _) ← sql_delete_throttle name db; Some (db, goto (CDel3 name) n)
  | CDel3 name => '(db, _) ← sql_bump_revision "queue_definition" db; Some (db, goto (CDrop name) n)
  | CDrop name => Some (db, finish (delete name (n_running n)) n)
  | CFind1 name =>
      Some (db, match sql_select_queue name db with
                | None => finish (n_running n) n
                | Some q => goto (CFind2 q) n
                end)
  | CFind2 q =>
      let q := with_throttle load_float (sql_select_throttles [Name q] db) q in
      Some (db, finish (<[Name q := q]> (n_running n)) n)
  | CRead1 => Some (db, goto (CRead2 (sql_select_queues db)) n)
  | CRead2 rows =>
      let running := by_name (with_throttle load_float (sql_select_throttles (Name <$> rows) db) <$> rows) in
      let n := {| n_last := n_last n; n_watch := n_watch n; n_crit := n_crit n; n_running := running |} in
      Some (db, match default_queue with
                | Some q => if running !! Name q is Some _ then finish running n else goto (CAdd1 q) n
                | None => finish running n
                end)
  end.

(** A panic in the watcher ends the process. *)
Definition crashed (n : node) : node :=
  {| n_last := n_last n; n_watch := WReloading; n_crit := COff; n_running := ∅ |}.

(** The statement of the holder of the lock fails, having taken effect if
    [applied]: a request gives up, a reload panics. *)
Definition fail_step (applied : bool) (db : config_tables F) (n : node) : option (config_tables F * node) :=
  let given_up := match n_crit n, n_watch n with
                  | (CRead1 | CRead2 _), _ | _, WReloading => crashed n
                  | _, _ => finish (n_running n) n
                  end in
  match n_crit n with
  | COff | CIdle | CPut _ | CDrop _ => None
  | _ => if applied then '(db, _) ← crit_step db n; Some (db, given_up) else Some (db, given_up)
  end.

Definition revision (db : config_tables F) : option Z := ct_revision db !! "queue_definition".

Inductive sync_label :=
| SStart                                  (* [NewService] *)
| SAdd (q : Queue)                        (* a request takes the lock *)
| SDelete (name : string)
| SFind (name : string)                   (* a push to a queue that does not run *)
| STick                                   (* the ticker fires *)
| SReload                                 (* the watcher takes the lock *)
| SStep
| SFail (applied : bool).                 (* the next statement fails *)

Definition node_step (l : sync_label) (db : config_tables F) (n : node) : option (config_tables F * node) :=
  match l, n_crit n, n_watch n with
  | SStart, COff, _ =>
      Some (db, {| n_last := default 0 (revision db); n_watch := WReloading; n_crit := CRead1; n_running := ∅ |})
  | SAdd q, CIdle, _ =>
      match check_throttle q with
      | Err _ => Some (db, n)
      | Ok q => q ← fill_defaults conf q; Some (db, goto (CAdd1 q) n)
      end
  | SDelete name, CIdle, _ => Some (db, goto (CDel1 name) n)
  | SFind name, CIdle, _ => if n_running n !! name is Some _ then None else Some (db, goto (CFind1 name) n)
  | STick, _, WIdle =>
      Some (db, match revision db with
                | Some r => if r =? n_last n then n
                            else {| n_last := r; n_watch := WWaiting; n_crit := n_crit n; n_running := n_running n |}
                | None => n
                end)
  | SReload, CIdle, WWaiting =>
      Some (db, {| n_last := n_last n; n_watch := WReloading; n_crit := CRead1; n_running := ∅ |})
  | SStep, _, _ => crit_step db n
  | SFail applied, _, _ => fail_step applied db n
  | _, _, _ => None
  end.

(** A definition has been changed whose revision has not been updated yet. *)
Definition dirty (n : node) : bool :=
  match n_crit n with
  | CAdd2 _ updated => updated
  | CAdd3 _ | CDel2 _ | CDel3 _ => true
  | _ => false
  end.

(** Whether a node that goes from [n] to [n'] leaves a change behind. *)
Definition gives_up (db db' : config_tables F) (n n' : node) : bool :=
  negb (dirty n') && (dirty n || negb (bool_decide (ct_queue db' = ct_queue db /\ ct_throttle db' = ct_throttle db))).

Definition cluster_step (i : nat) (l : sync_label) (c : nodes) : option nodes :=
  n ← cl_nodes c !! i;
  '(db, n') ← node_step l (cl_db c) n;
  Some {| cl_db := db; cl_nodes := <[i := n']> (cl_nodes c);
          cl_unannounced := bool_decide (ct_revision db = ct_revision (cl_db c)) &&
            (cl_unannounced c || gives_up (cl_db c) db n n') |}.

Inductive sync_reachable : nodes -> Prop :=
| sync_init db k : 0 <= default 0 (revision db) ->
    sync_reachable {| cl_db := db; cl_nodes := replicate k node_off; cl_unannounced := false |}
| sync_next i l c c' : sync_reachable c -> cluster_step i l c = Some c' -> sync_reachable c'.

(** Every change of the definitions has been followed by an update of the
    revision. *)
Definition announced (c : nodes) : Prop :=
  Forall (fun n => dirty n = false) (cl_nodes c) /\ cl_unannounced c = false.

(** ** Invariant *)

(** What a node that has seen the current revision knows. *)
Definition synced (db : config_tables F) (n : node) : Prop :=
  match n_crit n with
  | COff | CRead1 => True
  | CRead2 rows => rows = sql_select_queues db
  | CIdle | CAdd1 _ | CAdd2 _ false | CDel1 _ => n_running n = mysql_defs load_float db
  | CFind1 name => n_running n = mysql_defs load_float db /\ n_running n !! name = None
  | _ => False
  end.

Record node_inv (db : config_tables F) (all_announced : Prop) (n : node) : Prop := {
  ni_last : n_last n <= mysql_rev db;
  ni_synced : all_announced -> n_last n = mysql_rev db -> n_watch n <> WWaiting -> synced db n;
}.

Lemma upsert_queue_same q (db db' : config_tables F) i :
  sql_upsert_queue q db = Some (db', i) -> ct_revision db' = ct_revision db /\ (i = 0 -> db' = db).
Proof.
  unfold sql_upsert_queue. destruct (_ && _ && _); [|done].
  destruct (upsert_spec (Name q) (PollingInterval q, MaxWorkers q) (ct_queue db)) as [_ H].
  destruct (upsert _ _ _) as [m k]. intros [= <- <-]. split; [done|]. intros ->. simpl in H. rewrite H by done.
  by destruct db.
Qed.

Lemma upsert_throttle_same q (db db' : config_tables F) i :
  sql_upsert_throttle store_float q db = Some (db', i) -> ct_revision db' = ct_revision db /\ (i = 0 -> db' = db).
Proof.
  unfold sql_upsert_throttle. destruct (store_float _) as [f|]; [|done]. simpl. destruct (_ && _); [|done].
  destruct (upsert_spec (Name q) (f, MaxBurstSize q) (ct_throttle db)) as [_ H].
  destruct (upsert _ _ _) as [m k]. intros [= <- <-]. split; [done|]. intros ->. simpl in H. rewrite H by done.
  by destruct db.
Qed.

Lemma bump_revision_rev (db db' : config_tables F) i :
  sql_bump_revision "queue_definition" db = Some (db', i) -> mysql_rev db' = mysql_rev db + 1.
Proof.
  unfold sql_bump_revision, mysql_rev. destruct (ct_revision db !! _) as [r|]; [destruct (r <? u64_max); [|done]|];
    intros [= <- _]; simpl; by rewrite lookup_insert_eq.
Qed.

(** The definitions a reload runs are those of the tables. *)
Lemma reload_defs (db : config_tables F) :
  by_name (with_throttle load_float (sql_select_throttles (Name <$> sql_select_queues db) db)
           <$> sql_select_queues db) = mysql_defs load_float db.
Proof.
  assert (with_throttle load_float (sql_select_throttles (Name <$> sql_select_queues db) db) <$> sql_select_queues db
    = with_throttle load_float (ct_throttle db) <$> sql_select_queues db) as ->.
  { apply list_fmap_ext. intros k q Hq. unfold with_throttle, sql_select_throttles. rewrite map_lookup_filter.
    destruct (ct_throttle db !! Name q); simpl; [|done]. rewrite option_guard_True; [done|].
    apply list_elem_of_fmap_2, list_elem_of_lookup. eauto. }
  apply by_name_perm; [|apply joined_queues_perm]. intros name q. rewrite mysql_defs_lookup, fmap_Some.
  intros (row & _ & ->). by rewrite with_throttle_name.
Qed.

(** Every step of a node leaves the tables alone, or changes definitions that
    it has yet to announce, or announces them. *)
Inductive step_kind (db db' : config_tables F) (n n' : node) : Prop :=
| sk_local : db' = db -> dirty n' = dirty n ->
    (forall P : Prop, (P -> dirty n = false) -> node_inv db P n -> node_inv db P n') -> step_kind db db' n n'
| sk_write : ct_revision db' = ct_revision db -> dirty n' || gives_up db db' n n' = true -> n_last n' = n_last n ->
    step_kind db db' n n'
| sk_announce : mysql_rev db' = mysql_rev db + 1 -> n_last n' = n_last n -> step_kind db db' n n'.

(** A local step within the same revision. *)
Lemma step_local (db : config_tables F) n n' :
  dirty n' = dirty n -> n_last n' = n_last n ->
  (n_watch n' <> WWaiting -> n_watch n <> WWaiting) -> (dirty n = false -> synced db n -> synced db n') ->
  step_kind db db n n'.
Proof.
  intros Hd Hl Hw Hs. apply sk_local; [done..|]. intros P HP [H1 H2]. split; [by rewrite Hl|].
  rewrite Hl. intros. apply Hs; [by apply HP|]. apply H2; auto.
Qed.

Lemma finish_waiting running n : n_watch (finish running n) <> WWaiting -> n_watch n <> WWaiting.
Proof. unfold finish. simpl. by destruct (n_watch n). Qed.

Lemma crit_step_kind (db db' : config_tables F) n n' : crit_step db n = Some (db', n') -> step_kind db db' n n'.
Proof.
  unfold crit_step. destruct n as [last watch crit running]. simpl.
  destruct crit as [| |q|q u|q|q|name|name|name|name|name|q| |rows]; simpl; try done.
  - destruct (sql_upsert_queue q db) as [[db1 i]|] eqn:Eu; [|done]. intros [= <- <-].
    destruct (upsert_queue_same _ _ _ _ Eu) as [Hr H0]. destruct (Z.eqb_spec i 0) as [Hi|Hi].
    + rewrite (H0 Hi). by apply step_local.
    + by apply sk_write; simpl.
  - destruct (sql_upsert_throttle store_float q db) as [[db1 i]|] eqn:Eu; [|done]. intros [= <- <-].
    destruct (upsert_throttle_same _ _ _ _ Eu) as [Hr H0]. destruct u; simpl; [by apply sk_write; simpl|].
    destruct (Z.eqb_spec i 0) as [Hi|Hi]; simpl; [|by apply sk_write; simpl].
    rewrite (H0 Hi). by apply step_local; [..|apply finish_waiting|].
  - destruct (sql_bump_revision _ db) as [[db1 i]|] eqn:Eb; [|done]. intros [= <- <-].
    apply sk_announce; [by eapply bump_revision_rev|done].
  - intros [= <- <-]. by apply step_local; [..|apply finish_waiting|].
  - intros [= <- <-]. by apply sk_write; simpl.
  - intros [= <- <-]. by apply sk_write; simpl.
  - destruct (sql_bump_revision _ db) as [[db1 i]|] eqn:Eb; [|done]. intros [= <- <-].
    apply sk_announce; [by eapply bump_revision_rev|done].
  - intros [= <- <-]. by apply step_local; [..|apply finish_waiting|].
  - intros [= <- <-]. unfold sql_select_queue. destruct (ct_queue db !! name) as [row|] eqn:Er; simpl.
    + apply step_local; [done..|]. unfold synced. simpl. intros _ [-> Hn].
      by rewrite mysql_defs_lookup, Er in Hn.
    + apply step_local; [done|done|apply finish_waiting|]. unfold synced. simpl. by intros _ [-> _].
  - intros [= <- <-]. by apply step_local; [..|apply finish_waiting|].
  - intros [= <- <-]. by apply step_local.
  - intros [= <- <-].
    assert (forall n', dirty n' = false -> n_last n' = last -> (n_watch n' <> WWaiting -> watch <> WWaiting) ->
      (rows = sql_select_queues db -> synced db n') ->
      step_kind db db {| n_last := last; n_watch := watch; n_crit := CRead2 rows; n_running := running |} n') as Hk.
    { intros n' Hd Hl Hw Hs. by apply step_local. }
    destruct default_queue as [q|]; [case_match|]; apply Hk; try done;
      first [by destruct watch | unfold synced; simpl; intros ->; apply reload_defs].
Qed.

(** A statement changes the definitions, or the revision, or nothing. *)
Lemma crit_step_tables (db db' : config_tables F) n n' :
  crit_step db n = Some (db', n') ->
  (ct_revision db' = ct_revision db /\ ct_routing db' = ct_routing db) \/ mysql_rev db' = mysql_rev db + 1.
Proof.
  unfold crit_step. destruct n as [last watch crit running]. simpl.
  destruct crit as [| |q|q u|q|q|name|name|name|name|name|q| |rows]; simpl; try done; try (intros [= <- _]; by left);
    try (intros [= <- _]; by left); try (destruct (sql_bump_revision _ db) as [[db1 i]|] eqn:Eb; [|done]; intros [= <- _];
      right; by eapply bump_revision_rev).
  - unfold sql_upsert_queue. destruct (_ && _ && _); [|done]. destruct (upsert _ _ _) as [m k]. intros [= <- _]. by left.
  - unfold sql_upsert_throttle. destruct (store_float _) as [f|]; [|done]. simpl. destruct (_ && _); [|done].
    destruct (upsert _ _ _) as [m k]. intros [= <- _]. by left.
Qed.

Lemma fail_step_kind applied (db db' : config_tables F) n n' :
  fail_step applied db n = Some (db', n') -> step_kind db db' n n'.
Proof.
  intros Hf.
  assert (dirty n' = false /\ n_last n' = n_last n /\
    (dirty n = false -> n_watch n' <> WWaiting -> (n_watch n <> WWaiting -> synced db n) -> synced db n')) as (Hd & Hl & Hs).
  { unfold fail_step in Hf. destruct n as [last [] [] running]; simpl in Hf; try done; destruct applied;
      try (destruct (crit_step db _) as [[db1 n1]|]; [|done]); simpl in Hf; injection Hf as <- <-;
      (split; [done|split; [done|]]); unfold synced; simpl; try done; intros; simpl in *;
      repeat (match goal with b : bool |- _ => destruct b end); try done; naive_solver. }
  assert ((ct_revision db' = ct_revision db /\ ct_routing db' = ct_routing db) \/ mysql_rev db' = mysql_rev db + 1) as [[Hr Hro]|Hb].
  { unfold fail_step in Hf. destruct applied; [|destruct (n_crit n); simplify_eq; by left].
    destruct (crit_step db n) as [[db1 n1]|] eqn:Ec; [|by destruct (n_crit n)].
    assert (db1 = db') as <- by (destruct (n_crit n); simplify_eq/=; done). by eapply crit_step_tables. }
  - destruct (gives_up db db' n n') eqn:Eg.
    + apply sk_write; [done| |done]. by rewrite Eg, orb_true_r.
    + unfold gives_up in Eg. rewrite Hd in Eg. simpl in Eg. apply orb_false_iff in Eg as [Hdn Eg].
      apply negb_false_iff, bool_decide_eq_true in Eg as [E1 E2].
      assert (db' = db) as -> by (destruct db, db'; simpl in *; congruence).
      apply sk_local; [done|by rewrite Hd, Hdn|]. intros P HP [H1 H2]. split; [by rewrite Hl|].
      rewrite Hl. intros HP' Hlast Hw. apply Hs; auto.
  - by apply sk_announce.
Qed.

Lemma node_step_kind l (db db' : config_tables F) n n' : node_step l db n = Some (db', n') -> step_kind db db' n n'.
Proof.
  unfold node_step. destruct l as [|q|name|name| | | |applied].
  - destruct n as [last watch [] running]; simpl; try done. intros [= <- <-].
    apply sk_local; [done..|]. intros P _ _. split; [|done]. done.
  - destruct n as [last watch [] running]; simpl; try done.
    destruct (check_throttle q) as [q1|]; [|intros [= <- <-]; by apply step_local].
    destruct (fill_defaults conf q1) as [q2|]; [|done]. intros [= <- <-]. by apply step_local.
  - destruct n as [last watch [] running]; simpl; try done. intros [= <- <-]. by apply step_local.
  - destruct n as [last watch [] running]; simpl; try done. destruct (running !! name) eqn:Er; [done|].
    intros [= <- <-]. by apply step_local.
  - assert (n_watch n = WIdle -> Some (db, match revision db with
      | Some r => if r =? n_last n then n
                  else {| n_last := r; n_watch := WWaiting; n_crit := n_crit n; n_running := n_running n |}
      | None => n end) = Some (db', n') -> step_kind db db' n n') as H.
    { intros Hw [= <- <-]. destruct (revision db) as [r|] eqn:Er; [|by apply step_local].
      destruct (r =? n_last n); [by apply step_local|]. apply sk_local; [done..|].
      intros P _ _. split; [|done]. unfold mysql_rev. unfold revision in Er. by rewrite Er. }
    destruct n as [last [] [] running]; simpl in *; try done; by apply H.
  - destruct n as [last [] [] running]; simpl; try done. intros [= <- <-].
    apply sk_local; [done..|]. intros P _ [H _]. by split.
  - intros H. apply crit_step_kind. by destruct n as [last [] [] running].
  - intros H. apply (fail_step_kind applied). by destruct n as [last [] [] running].
Qed.

Definition cluster_inv (c : nodes) : Prop := Forall (node_inv (cl_db c) (announced c)) (cl_nodes c).

Lemma sync_reachable_inv c : sync_reachable c -> cluster_inv c.
Proof.
  induction 1 as [db k Hrev|i l c c' _ IH Hc].
  - apply Forall_replicate. by split.
  - unfold cluster_step in Hc. destruct (cl_nodes c !! i) as [n|] eqn:En; [|done]. simpl in Hc.
    destruct (node_step l (cl_db c) n) as [[db n']|] eqn:Es; [|done]. injection Hc as <-.
    unfold cluster_inv in *. pose proof (Forall_lookup_1 _ _ _ _ IH En) as Hn. simpl.
    destruct (node_step_kind _ _ _ _ _ Es) as [-> Hd Hk|Hrev Hd Hl|Hrev Hl].
    + match goal with |- Forall (node_inv _ (announced ?c1)) _ => assert (announced c1 -> announced c) as Ha end.
      { unfold announced. simpl. rewrite !Forall_lookup. intros [H Hu]. split.
        - intros k m Hm. destruct (decide (k = i)) as [->|Hk'].
          + rewrite En in Hm. injection Hm as <-. rewrite <- Hd. apply (H i).
            by apply list_lookup_insert_eq, lookup_lt_Some with n.
          + apply (H k). by rewrite list_lookup_insert_ne.
        - rewrite bool_decide_true in Hu by done. by destruct (cl_unannounced c). }
      apply Forall_insert.
      * eapply Forall_impl; [exact IH|]. intros m [H1 H2]. split; [done|]. auto.
      * apply Hk; [|destruct Hn as [H1 H2]; split; auto].
        intros H. apply (Forall_lookup_1 _ _ _ _ (proj1 (Ha H)) En).
    + assert (mysql_rev db = mysql_rev (cl_db c)) as Hrev' by (unfold mysql_rev; by rewrite Hrev).
      match goal with |- Forall (node_inv _ (announced ?c1)) _ => assert (~ announced c1) as Ha end.
      { intros [H Hu]. simpl in *. rewrite bool_decide_true in Hu by done. simpl in Hu. apply orb_false_iff in Hu as [_ Hu].
        assert (dirty n' = false) as H'; [|by rewrite H', Hu in Hd].
        apply (Forall_lookup_1 _ _ i _ H). by apply list_lookup_insert_eq, lookup_lt_Some with n. }
      apply Forall_insert; [eapply Forall_impl; [exact IH|]; intros m [H1 _]|destruct Hn as [H1 _]];
        (split; [|done]); lia.
    + apply Forall_insert; [eapply Forall_impl; [exact IH|]; intros m [H1 _]|destruct Hn as [H1 _]];
        split; lia.
Qed.

(** A node taking several steps. *)
Fixpoint node_run (i : nat) (ls : list sync_label) (c : nodes) : option nodes :=
  match ls with
  | [] => Some c
  | l :: ls => c ← cluster_step i l c; node_run i ls c
  end.

Lemma cluster_step_at i l c n db n' :
  cl_nodes c !! i = Some n -> node_step l (cl_db c) n = Some (db, n') ->
  cluster_step i l c = Some {| cl_db := db; cl_nodes := <[i := n']> (cl_nodes c);
    cl_unannounced := bool_decide (ct_revision db = ct_revision (cl_db c)) &&
      (cl_unannounced c || gives_up (cl_db c) db n n') |}.
Proof. intros Hn Hs. unfold cluster_step. by rewrite Hn; simpl; rewrite Hs. Qed.

(** The default queue is defined, or there is none. *)
Definition default_defined (db : config_tables F) : Prop :=
  match default_queue with Some q => is_Some (mysql_defs load_float db !! Name q) | None => True end.

Lemma reload_run i c n r :
  cl_nodes c !! i = Some n -> n_watch n = WIdle -> n_crit n = CIdle -> revision (cl_db c) = Some r -> n_last n <> r ->
  default_defined (cl_db c) ->
  exists c', node_run i [STick; SReload; SStep; SStep] c = Some c' /\ cl_db c' = cl_db c /\
    cl_nodes c' !! i = Some {| n_last := r; n_watch := WIdle; n_crit := CIdle;
                               n_running := mysql_defs load_float (cl_db c) |}.
Proof.
  intros Hn Hw Hc Hr Hl Hdef. pose proof (lookup_lt_Some _ _ _ Hn) as Hi. destruct n as [last watch crit running].
  simpl in *. subst watch crit. cbn [node_run].
  erewrite cluster_step_at; [|done|simpl; rewrite Hr, (proj2 (Z.eqb_neq r last)) by done; reflexivity]. cbn [mbind option_bind].
  erewrite cluster_step_at; [|simpl; by rewrite list_lookup_insert_eq|reflexivity]. cbn [mbind option_bind cl_nodes].
  erewrite cluster_step_at; [|simpl; rewrite list_lookup_insert_eq; [done|by rewrite length_insert]|reflexivity].
  cbn [mbind option_bind cl_nodes cl_db].
  erewrite cluster_step_at; [|simpl; rewrite list_lookup_insert_eq; [done|by rewrite !length_insert]|reflexivity].
  cbn [mbind option_bind cl_nodes cl_db]. eexists. split; [reflexivity|]. split; [done|]. cbn [cl_nodes].
  rewrite list_lookup_insert_eq by (by rewrite !length_insert). f_equal. rewrite reload_defs.
  unfold default_defined in Hdef. destruct default_queue as [q|]; [|done]. by destruct Hdef as [q' ->].
Qed.

(** C22 (liveness): nodes follow the repository.  However the statements of the
    nodes interleave and whatever fails, when every change of the definitions has
    been followed by an update of the revision ([announced]), a node at rest whose
    watcher has seen the current revision runs exactly the queues of the repository,
    so no announced change is ever missed; and a node at rest that has not seen it
    runs exactly these after one tick and the reload it causes, if the statements of
    the reload succeed and the default queue, if any, is defined. *)
Theorem nodes_follow_repository c i n :
  sync_reachable c -> announced c -> cl_nodes c !! i = Some n -> n_watch n = WIdle -> n_crit n = CIdle ->
  (n_last n = mysql_rev (cl_db c) -> n_running n = mysql_defs load_float (cl_db c)) /\
  (forall r, revision (cl_db c) = Some r -> n_last n <> r -> default_defined (cl_db c) ->
    exists c', node_run i [STick; SReload; SStep; SStep] c = Some c' /\ cl_db c' = cl_db c /\
      cl_nodes c' !! i = Some {| n_last := r; n_watch := WIdle; n_crit := CIdle;
                                 n_running := mysql_defs load_float (cl_db c) |}).
Proof.
  intros Hr Ha Hn Hw Hc. split; [|intros r Hrev Hne Hdef; by eapply reload_run].
  intros Hl. destruct (Forall_lookup_1 _ _ _ _ (sync_reachable_inv _ Hr) Hn) as [_ Hs].
  specialize (Hs Ha Hl ltac:(by rewrite Hw)). unfold synced in Hs. by rewrite Hc in Hs.
Qed.

(** ** Throttling

    The rate and the burst of a queue are one row, written by one statement after
    [check_throttle]; so no reader ever sees a rate without a burst. *)

(** The rate limiter made of these lets jobs through: the rate is not limited, or
    the burst admits one. *)
Definition limiter_ok (rate : Qc) (burst : Z) : Prop := rate = 0%Qc \/ ((0 < rate)%Qc /\ 0 < burst <= u32_max).

Definition queue_ok (q : Queue) : Prop := limiter_ok (MaxDispatchesPerSecond q) (MaxBurstSize q).

Definition throttles_ok (db : config_tables F) : Prop :=
  forall name f burst, ct_throttle db !! name = Some (f, burst) -> limiter_ok (load_float f) burst.

Definition running_ok (m : gmap string Queue) : Prop :=
  forall name q, m !! name = Some q -> Name q = name /\ queue_ok q.

Definition pc_ok (pc : crit_pc) : Prop :=
  match pc with
  | CAdd1 q | CAdd2 q _ => valid_throttle q
  | CAdd3 q | CPut q => queue_ok q
  | CFind2 q => MaxDispatchesPerSecond q = 0%Qc
  | CRead2 rows => Forall (fun q => MaxDispatchesPerSecond q = 0%Qc) rows
  | _ => True
  end.

Definition node_ok (n : node) : Prop := pc_ok (n_crit n) /\ running_ok (n_running n).

(** FLOAT keeps zero, and rounds nothing to a negative number. *)
Context (float_zero : forall f, store_float 0%Qc = Some f -> load_float f = 0%Qc).
Context (float_nonneg : forall x f, store_float x = Some f -> (0 <= x)%Qc -> (0 <= load_float f)%Qc).

Lemma valid_stored q f :
  valid_throttle q -> store_float (MaxDispatchesPerSecond q) = Some f -> is_u32 (MaxBurstSize q) ->
  queue_ok q /\ limiter_ok (load_float f) (MaxBurstSize q).
Proof.
  intros Hv Hf Hb. unfold queue_ok, limiter_ok. destruct Hv as [(Hr & Hn & _)|[Hr _]].
  - assert (0 < MaxBurstSize q <= u32_max) by (unfold is_u32 in Hb; lia). split; [by right|].
    destruct (Qcle_lt_or_eq 0 (load_float f)) as [|E]; [by eapply float_nonneg, Qclt_le_weak|by right|by left].
  - rewrite Hr in Hf. split; left; auto.
Qed.

Lemma with_throttle_ok (db : config_tables F) names q :
  throttles_ok db -> MaxDispatchesPerSecond q = 0%Qc ->
  queue_ok (with_throttle load_float (sql_select_throttles names db) q).
Proof.
  intros Ht Hq. unfold with_throttle. destruct (sql_select_throttles names db !! Name q) as [[f b]|] eqn:E; [|by left].
  unfold sql_select_throttles in E. apply map_lookup_filter_Some in E as [E _]. by eapply Ht.
Qed.

Lemma running_insert m q : running_ok m -> queue_ok q -> running_ok (<[Name q := q]> m).
Proof. intros Hm Hq name q'. rewrite lookup_insert_Some. intros [[<- <-]|[_ H]]; [done|by apply Hm]. Qed.

Lemma by_name_ok qs : Forall queue_ok qs -> running_ok (by_name qs).
Proof.
  intros Hq name q E. apply elem_of_list_to_map_2, list_elem_of_fmap in E as (q' & [= -> ->] & Hin).
  split; [done|]. by eapply Forall_forall.
Qed.

Lemma crit_step_ok (db db' : config_tables F) n n' :
  throttles_ok db -> node_ok n -> crit_step db n = Some (db', n') -> throttles_ok db' /\ node_ok n'.
Proof.
  intros Ht [Hp Hr]. unfold crit_step, node_ok. destruct n as [last watch crit running]. simpl in *.
  destruct crit as [| |q|q u|q|q|name|name|name|name|name|q| |rows]; simpl in *; try done.
  - unfold sql_upsert_queue. destruct (_ && _ && _); [|done]. destruct (upsert _ _ _) as [m k]. by intros [= <- <-].
  - unfold sql_upsert_throttle. destruct (store_float (MaxDispatchesPerSecond q)) as [f|] eqn:Ef; simpl; [|done].
    destruct (varchar _ && _) eqn:Eb; simpl; [|done]. apply andb_true_iff in Eb as [_ Eb]. apply bool_decide_eq_true in Eb.
    destruct (valid_stored q f Hp Ef Eb) as [Hq Hl].
    destruct (upsert_spec (Name q) (f, MaxBurstSize q) (ct_throttle db)) as [Hm _]. destruct (upsert _ _ _) as [m k].
    intros [= <- <-]. simpl in Hm. split.
    + intros name f' b. simpl. rewrite Hm, lookup_insert_Some. intros [[_ [= <- <-]]|[_ H]]; [done|by eapply Ht].
    + by destruct (u || _).
  - unfold sql_bump_revision. repeat case_match; try done; by intros [= <- <-].
  - intros [= <- <-]. split; [done|]. split; [done|]. by apply running_insert.
  - by intros [= <- <-].
  - intros [= <- <-]. split; [|done]. intros name' f b. simpl. rewrite lookup_delete_Some. intros [_ H]. by eapply Ht.
  - unfold sql_bump_revision. repeat case_match; try done; by intros [= <- <-].
  - intros [= <- <-]. split; [done|]. split; [done|]. intros name' q. simpl. rewrite lookup_delete_Some.
    intros [_ H]. by apply Hr.
  - intros [= <- <-]. split; [done|]. unfold sql_select_queue. by destruct (ct_queue db !! name).
  - intros [= <- <-]. split; [done|]. split; [done|]. simpl.
    assert (Hq := with_throttle_ok db [Name q] q Ht Hp). by apply running_insert.
  - intros [= <- <-]. split; [done|]. split; [|done]. unfold sql_select_queues. simpl. apply Forall_forall.
    intros q Hq. apply elem_of_sort_slice, list_elem_of_fmap in Hq as ([name row] & -> & _). done.
  - intros [= <- <-]. split; [done|].
    assert (running_ok (by_name (with_throttle load_float (sql_select_throttles (Name <$> rows) db) <$> rows))) as Hb.
    { apply by_name_ok, Forall_fmap. eapply Forall_impl; [exact Hp|]. intros q Hq. by apply with_throttle_ok. }
    unfold default_queue. case_bool_decide; [done|].
    destruct (fill_defaults conf (default_zero conf)) as [q|] eqn:Ef; [|done].
    case_match; [done|]. split; [|done]. eapply (fill_defaults_valid conf); [exact Ef|]. by right.
Qed.

Lemma node_step_ok l (db db' : config_tables F) n n' :
  throttles_ok db -> node_ok n -> node_step l db n = Some (db', n') -> throttles_ok db' /\ node_ok n'.
Proof.
  intros Ht Hn. unfold node_step. destruct n as [last watch crit running]. destruct Hn as [Hp Hr].
  destruct l as [|q|name|name| | | |applied]; simpl.
  - destruct crit; try done. by intros [= <- <-].
  - destruct crit; try done. destruct (check_throttle q) as [q1|] eqn:Ec; [|by intros [= <- <-]].
    destruct (fill_defaults conf q1) as [q2|] eqn:Ef; [|done]. intros [= <- <-]. split; [done|]. split; [|done].
    eapply (fill_defaults_valid conf); [exact Ef|]. by apply check_throttle_valid in Ec as [].
  - destruct crit; try done. by intros [= <- <-].
  - destruct crit; try done. destruct (running !! name); [done|]. by intros [= <- <-].
  - assert (forall r, throttles_ok db /\ node_ok {| n_last := r; n_watch := WWaiting; n_crit := crit; n_running := running |}) as H by done.
    destruct crit, watch; try done; intros [= <- <-]; (split; [done|]); destruct (revision db) as [r|]; try done;
      destruct (r =? last); done.
  - destruct crit, watch; try done. by intros [= <- <-].
  - intros Hs. eapply (crit_step_ok db); [done| |by destruct crit, watch]. done.
  - intros Hf.
    assert (fail_step applied db {| n_last := last; n_watch := watch; n_crit := crit; n_running := running |} = Some (db', n')) as Hf'
      by (by destruct crit, watch). clear Hf. unfold fail_step in Hf'. simpl in Hf'.
    assert (throttles_ok db').
    { destruct applied; [|by destruct crit; simplify_eq].
      destruct (crit_step db _) as [[db1 n1]|] eqn:Ec; [|by destruct crit].
      assert (db1 = db') as <- by (destruct crit; simplify_eq/=; done). by eapply (crit_step_ok db). }
    split; [done|].
    assert (exists w, n' = {| n_last := last; n_watch := w; n_crit := CIdle; n_running := running |} \/
      n' = {| n_last := last; n_watch := w; n_crit := COff; n_running := ∅ |}) as (w & [-> | ->]); [|done|done].
    destruct crit, watch; try done; destruct applied; simpl in Hf';
      try (destruct (crit_step db _) as [[db1 n1]|]; [|done]); simpl in Hf'; injection Hf' as _ <-; eauto.
Qed.

(** The states of a cluster of [k] nodes that was started on the tables [db]. *)
Inductive sync_from (db : config_tables F) (k : nat) : nodes -> Prop :=
| from_init : sync_from db k {| cl_db := db; cl_nodes := replicate k node_off; cl_unannounced := false |}
| from_next i l c c' : sync_from db k c -> cluster_step i l c = Some c' -> sync_from db k c'.

Lemma sync_from_ok db k c :
  throttles_ok db -> sync_from db k c -> throttles_ok (cl_db c) /\ Forall node_ok (cl_nodes c).
Proof.
  intros Hdb. induction 1 as [|i l c c' _ [IHt IHn] Hs].
  - split; [done|]. simpl. by apply Forall_replicate.
  - unfold cluster_step in Hs. destruct (cl_nodes c !! i) as [n|] eqn:En; [|done]. simpl in Hs.
    destruct (node_step l (cl_db c) n) as [[db' n']|] eqn:Es; [|done]. injection Hs as <-. simpl.
    destruct (node_step_ok l _ _ _ _ IHt (Forall_lookup_1 _ _ _ _ IHn En) Es) as [H1 H2].
    split; [done|]. by apply Forall_insert.
Qed.

(** C23 (invariant): a cluster that is started on empty tables, or on tables with
    complete throttle rows, never runs a queue whose rate limiter blocks all jobs.
    Whatever the requests ask for, however the statements of the nodes interleave and
    whatever fails, also between the two statements that write a definition: on every
    node each queue runs under the name of its definition, and its rate is unlimited
    or its burst admits a job. *)
Theorem cluster_runs_valid_queues db k c i n name q :
  throttles_ok db -> sync_from db k c -> cl_nodes c !! i = Some n -> n_running n !! name = Some q ->
  Name q = name /\ queue_ok q /\ forall d, Config_Start 0 q = Some d -> limiter_closed d = false.
Proof.
  intros Hdb Hc Hn Hq. destruct (sync_from_ok db k c Hdb Hc) as [_ Hok].
  destruct (Forall_lookup_1 _ _ _ _ Hok Hn) as [_ Hr]. destruct (Hr name q Hq) as [Hname Hl].
  split; [done|]. split; [done|]. intros d Hd. unfold Config_Start in Hd. destruct (_ || _); [done|]. injection Hd as <-.
  unfold limiter_closed. simpl. case_bool_decide as H0; [done|]. destruct Hl as [?|[_ Hb]]; [done|].
  unfold u32_max in Hb. rewrite i64_id by word. destruct (Z.ltb_spec (MaxBurstSize q) 1); [lia|done].
Qed.
End sync.

(** ** Concrete runs *)

Module SyncRuns.
Import RepositoryRuns.

(** No default queue. *)
Definition conf (key : string) : string := EmptyString.

Local Abbreviation step := (cluster_step keep_float read_float conf).

Fixpoint steps (ls : list (nat * sync_label)) (c : nodes (F := Qc)) : option (nodes (F := Qc)) :=
  match ls with
  | [] => Some c
  | (i, l) :: ls => c ← step i l c; steps ls c
  end.

Lemma steps_reachable ls c c' :
  sync_reachable keep_float read_float conf c -> steps ls c = Some c' -> sync_reachable keep_float read_float conf c'.
Proof.
  revert c. induction ls as [|[i l] ls IH]; intros c Hc; simpl; [by intros [= <-]|].
  destruct (step i l c) as [c1|] eqn:E1; [|done]. simpl. apply IH. by eapply sync_next.
Qed.

Lemma steps_from db k ls c c' :
  sync_from keep_float read_float conf db k c -> steps ls c = Some c' -> sync_from keep_float read_float conf db k c'.
Proof.
  revert c. induction ls as [|[i l] ls IH]; intros c Hc; simpl; [by intros [= <-]|].
  destruct (step i l c) as [c1|] eqn:E1; [|done]. simpl. apply IH. by eapply from_next.
Qed.

Definition two_nodes : nodes (F := Qc) :=
  {| cl_db := empty_config; cl_nodes := replicate 2 node_off; cl_unannounced := false |}.

(** Both nodes start; the first defines a queue, but the update of the revision
    fails; it defines the queue again, with another number of workers, and the second
    one reads the revision before it is updated. *)
Definition half_added : list (nat * sync_label) := [
  (0%nat, SStart); (0%nat, SStep); (0%nat, SStep); (1%nat, SStart); (1%nat, SStep); (1%nat, SStep);
  (0%nat, SAdd (queue_named "mail" 1 5)); (0%nat, SStep); (0%nat, SStep); (0%nat, SFail false) ].

Definition trace : list (nat * sync_label) := half_added ++ [
  (0%nat, SAdd (queue_named "mail" 2 5)); (0%nat, SStep); (1%nat, STick); (0%nat, SStep); (0%nat, SStep);
  (0%nat, SStep) ].

Definition after_add : nodes (F := Qc) := default two_nodes (steps trace two_nodes).

(** The change that was given up is not announced. *)
Example half_added_unannounced : (cl_unannounced <$> steps half_added two_nodes) = Some true.
Proof. vm_compute. reflexivity. Qed.

Lemma nodes_follow_repository_witness :
  exists c', node_run keep_float read_float conf 1 [STick; SReload; SStep; SStep] after_add = Some c' /\
    (n_running <$> cl_nodes c' !! 1%nat) = Some {["mail" := queue_named "mail" 2 5]}.
Proof.
  destruct (nodes_follow_repository keep_float read_float conf after_add 1
    {| n_last := 0; n_watch := WIdle; n_crit := CIdle; n_running := ∅ |}) as [_ H].
  - apply (steps_reachable trace two_nodes); [by apply (sync_init keep_float read_float conf empty_config 2)|].
    vm_compute. reflexivity.
  - vm_compute. split; [repeat constructor|reflexivity].
  - vm_compute. reflexivity.
  - reflexivity.
  - reflexivity.
  - destruct (H 1) as (c' & Hc & _ & Hn); [vm_compute; reflexivity|discriminate|exact I|].
    exists c'. split; [exact Hc|]. rewrite Hn. vm_compute. reflexivity.
Defined.

(** The second node starts the queue between the two statements of the first: it
    runs, for the time being, without a limit. *)
Definition between : list (nat * sync_label) := [
  (0%nat, SStart); (0%nat, SStep); (0%nat, SStep); (1%nat, SStart); (1%nat, SStep); (1%nat, SStep);
  (0%nat, SAdd (queue_named "mail" 1 5)); (0%nat, SStep);
  (1%nat, SFind "mail"); (1%nat, SStep); (1%nat, SStep) ].

Definition unthrottled : Queue := {|
  Name := "mail"; PollingInterval := 100; MaxWorkers := 1; MaxDispatchesPerSecond := 0%Qc; MaxBurstSize := 0 |}.

Lemma cluster_runs_valid_queues_witness :
  exists c n, steps between two_nodes = Some c /\ cl_nodes c !! 1%nat = Some n /\
    n_running n !! "mail" = Some unthrottled /\ queue_ok unthrottled.
Proof.
  destruct (steps between two_nodes) as [c|] eqn:E; [|vm_compute in E; congruence].
  assert (Hc : sync_from keep_float read_float conf empty_config 2 c)
    by (apply (steps_from empty_config 2 between two_nodes); [apply from_init|exact E]).
  vm_compute in E. injection E as <-. eexists _, _. split; [reflexivity|]. split; [reflexivity|].
  split; [reflexivity|].
  refine (proj1 (proj2 (cluster_runs_valid_queues keep_float read_float conf _ _ empty_config 2 _ 1 _ "mail" unthrottled
    _ Hc eq_refl eq_refl))).
  - unfold keep_float. intros f. by destruct (Qclt_le_dec 0 0); intros [= <-].
  - unfold keep_float. intros x f. destruct (Qclt_le_dec x 0); [done|]. by intros [= <-].
  - intros name f b H. simpl in H. by rewrite lookup_empty in H.
Defined.
End SyncRuns.
