(* ===== verification/WebResponse.v ===== *)
(** * Responses of the HTTP API (src/web/error.go, response.go, response_buffer.go, handler.go)

    A handler writes into a buffer and returns an error or nil; [handler_ServeHTTP]
    turns its outcome into a response.  [ResponseWriter] is the writer of net/http
    as documented: headers count up to the first write, a second status is
    ignored. *)

From S2P Require Import Prelude GoStrings.
Local Open Scope Z_scope.

(** ** net/http *)

Definition StatusText (status : Z) : string :=
  if status =? 200 then "OK"
  else if status =? 400 then "Bad Request"
  else if status =? 404 then "Not Found"
  else if status =? 405 then "Method Not Allowed"
  else if status =? 500 then "Internal Server Error"
  else if status =? 501 then "Not Implemented"
  else EmptyString.

Abbreviation header := (gmap string string) (only parsing).

(** [sent] is the status with the headers at that time. *)
Record ResponseWriter := { rw_header : header; rw_sent : option (Z * header); rw_body : string }.

Definition new_writer : ResponseWriter := {| rw_header := ∅; rw_sent := None; rw_body := EmptyString |}.

Definition Header_Set (k v : string) (w : ResponseWriter) : ResponseWriter :=
  {| rw_header := <[k := v]> (rw_header w); rw_sent := rw_sent w; rw_body := rw_body w |}.

Definition WriteHeader (status : Z) (w : ResponseWriter) : ResponseWriter :=
  match rw_sent w with
  | Some _ => w
  | None => {| rw_header := rw_header w; rw_sent := Some (status, rw_header w); rw_body := rw_body w |}
  end.

Definition Write (s : string) (w : ResponseWriter) : ResponseWriter :=
  let w := WriteHeader 200 w in
  {| rw_header := rw_header w; rw_sent := rw_sent w; rw_body := rw_body w +:+ s |}.

(** [http.Error] *)
Definition http_Error (msg : string) (code : Z) (w : ResponseWriter) : ResponseWriter :=
  let w := Header_Set "Content-Type" "text/plain; charset=utf-8" w in
  let w := Header_Set "X-Content-Type-Options" "nosniff" w in
  Write (msg +:+ newline) (WriteHeader code w).

(** What the client receives; nothing written is an empty 200. *)
Record response := { rs_status : Z; rs_header : header; rs_body : string }.

Definition finished (w : ResponseWriter) : response :=
  match rw_sent w with
  | Some (status, h) => {| rs_status := status; rs_header := h; rs_body := rw_body w |}
  | None => {| rs_status := 200; rs_header := rw_header w; rs_body := rw_body w |}
  end.

(** ** Errors *)

Definition itoa (n : Z) : string := str (format_int n).

(** A client error, a server error (each simple or with a detail), or any other
    error. *)
Inductive web_error :=
| simpleClientError (status : Z)
| detailedClientError (status : Z) (message : string)
| simpleServerError (status : Z)
| detailedServerError (status : Z) (message : string)
| otherError (message : string).

Definition simple_message (status : Z) : string := itoa status +:+ " " +:+ StatusText status.
Definition detailed_message (status : Z) (message : string) : string :=
  itoa status +:+ " " +:+ StatusText status +:+ newline +:+ newline +:+ message.

Definition web_error_Error (err : web_error) : string :=
  match err with
  | simpleClientError status | simpleServerError status => simple_message status
  | detailedClientError status message | detailedServerError status message => detailed_message status message
  | otherError message => message
  end.

Definition errMethodNotAllowed : web_error := simpleClientError 405.
Definition errNotFound : web_error := simpleClientError 404.
Definition errBadRequest : web_error := simpleClientError 400.
Definition errNotImplemented : web_error := simpleServerError 501.
Definition errInternalServerError : web_error := simpleServerError 500.

(** [WithDetail] of the two simple errors. *)
Definition WithDetail (err : web_error) (detail : string) : web_error :=
  match err with
  | simpleClientError status => detailedClientError status detail
  | simpleServerError status => detailedServerError status detail
  | err => err
  end.

Definition httpStatus (err : web_error) : option Z :=
  match err with
  | simpleClientError status | detailedClientError status _
  | simpleServerError status | detailedServerError status _ => Some status
  | otherError _ => None
  end.

(** ** The buffer *)

(** A nil header map is [None]. *)
Record responseBuffer := { rb_buf : string; rb_status : Z; rb_header : option header }.

Definition rb_new : responseBuffer := {| rb_buf := EmptyString; rb_status := 0; rb_header := None |}.

Definition rb_Write (s : string) (rb : responseBuffer) : responseBuffer :=
  {| rb_buf := rb_buf rb +:+ s; rb_status := rb_status rb; rb_header := rb_header rb |}.

Definition rb_WriteHeader (status : Z) (rb : responseBuffer) : responseBuffer :=
  {| rb_buf := rb_buf rb; rb_status := status; rb_header := rb_header rb |}.

(** [rb.Header().Set(k, v)] *)
Definition rb_Header_Set (k v : string) (rb : responseBuffer) : responseBuffer :=
  {| rb_buf := rb_buf rb; rb_status := rb_status rb; rb_header := Some (<[k := v]> (default ∅ (rb_header rb))) |}.

Definition rb_WriteTo (rb : responseBuffer) (w : ResponseWriter) : ResponseWriter :=
  let w := {| rw_header := default ∅ (rb_header rb) ∪ rw_header w; rw_sent := rw_sent w; rw_body := rw_body w |} in
  let w := if 0 <? strlen (rb_buf rb) then Header_Set "Content-Length" (itoa (strlen (rb_buf rb))) w else w in
  let w := if rb_status rb =? 0 then w else WriteHeader (rb_status rb) w in
  if 0 <? strlen (rb_buf rb) then Write (rb_buf rb) w else w.

Definition writeJSON (json : string) (rb : responseBuffer) : responseBuffer :=
  let rb := rb_Header_Set "Content-Type" "application/json" rb in
  let rb := rb_Header_Set "Content-Length" (itoa (strlen json)) rb in
  rb_Write json (rb_WriteHeader 200 rb).

(** ** Handlers *)

(** The buffer and the error a handler leaves. *)
Definition outcome : Type := responseBuffer * option web_error.

(** [handler.ServeHTTP], after the handler has run.  A client or server error
    returns at once; after any other error the buffer is still written. *)
Definition handler_ServeHTTP (disableKeepAlives : bool) (o : outcome) (w : ResponseWriter) : ResponseWriter :=
  let w := if disableKeepAlives then Header_Set "Connection" "close" w else w in
  let '(rb, err) := o in
  match err with
  | None => rb_WriteTo rb w
  | Some err =>
      match httpStatus err with
      | Some status => http_Error (web_error_Error err) status w
      | None =>
          let se := WithDetail errInternalServerError (web_error_Error err) in
          rb_WriteTo rb (http_Error (web_error_Error se) (default 0 (httpStatus se)) w)
      end
  end.

(** The whole response to a request. *)
Definition respond (disableKeepAlives : bool) (o : outcome) : response :=
  finished (handler_ServeHTTP disableKeepAlives o new_writer).

Lemma strlen_pos s : 0 < strlen s <-> s <> EmptyString.
Proof. unfold strlen. destruct s; simpl; split; try done; lia. Qed.

(** ** What handlers leave *)

(** The status and the body of an error. *)
Definition error_status (err : web_error) : Z := default 500 (httpStatus err).
Definition error_body (err : web_error) : string :=
  (match err with otherError message => detailed_message 500 message | err => web_error_Error err end) +:+ newline.

(** The statuses of errors. *)
Definition error_statuses : list Z := [400; 404; 405; 500; 501].

(** A handler of the API leaves an untouched buffer with an error, a JSON text,
    or plain text. *)
Inductive well_behaved : outcome -> Prop :=
| wb_error err : error_status err ∈ error_statuses -> well_behaved (rb_new, Some err)
| wb_json j : well_behaved (writeJSON j rb_new, None)
| wb_text s : well_behaved (rb_Write s rb_new, None).

Create HintDb web.
#[export] Hint Constructors well_behaved : web.

Definition connection (k : bool) : option string := if k then Some "close" else None.

(** What the client may rely on: a JSON text with its length, a plain text with
    its length, or the text of an error under its status. *)
Definition response_ok (k : bool) (o : outcome) (r : response) : Prop :=
  rs_header r !! "Connection" = connection k /\
  match o with
  | (_, Some err) => rs_status r = error_status err /\ rs_body r = error_body err /\
      rs_header r !! "Content-Type" = Some "text/plain; charset=utf-8"
  | (rb, None) => rs_status r = 200 /\ rs_body r = rb_buf rb /\
      rs_header r !! "Content-Type" = default ∅ (rb_header rb) !! "Content-Type" /\
      (rb_buf rb <> EmptyString -> rs_header r !! "Content-Length" = Some (itoa (strlen (rb_buf rb))))
  end.

Lemma append_nil_l (s : string) : EmptyString +:+ s = s.
Proof. done. Qed.

(** A buffer written to a fresh response. *)
Lemma rb_WriteTo_spec rb k :
  rb_status rb = 0 \/ rb_status rb = 200 -> default ∅ (rb_header rb) !! "Connection" = None ->
  response_ok k (rb, None) (finished (rb_WriteTo rb (if k then Header_Set "Connection" "close" new_writer else new_writer))).
Proof.
  intros Hs Hc. unfold rb_WriteTo. destruct (Z.ltb_spec 0 (strlen (rb_buf rb))) as [Hj|Hj].
  - assert (forall h, let h' := <["Content-Length" := itoa (strlen (rb_buf rb))]> (default ∅ (rb_header rb) ∪ h) in
      h !! "Content-Type" = None -> h !! "Connection" = connection k ->
      response_ok k (rb, None) {| rs_status := 200; rs_header := h'; rs_body := EmptyString +:+ rb_buf rb |}) as H.
    { intros h h' Ht Hk. split; simpl; unfold h'; rewrite !lookup_insert_ne, lookup_union by done.
      - rewrite Hc, Hk. by destruct k.
      - split_and!; [done|done| |].
        + rewrite Ht. by destruct (default ∅ (rb_header rb) !! "Content-Type").
        + intros _. by rewrite lookup_insert_eq. }
    destruct Hs as [->| ->]; destruct k; cbn -[strlen itoa]; apply H; rewrite ?lookup_insert_ne by done; done.
  - assert (rb_buf rb = EmptyString) as Hb.
    { destruct (decide (rb_buf rb = EmptyString)) as [|Hn]; [done|]. apply strlen_pos in Hn. lia. }
    assert (forall h, h !! "Content-Type" = None -> h !! "Connection" = connection k ->
      response_ok k (rb, None) {| rs_status := 200; rs_header := default ∅ (rb_header rb) ∪ h; rs_body := EmptyString |}) as H.
    { intros h Ht Hk. split; simpl; rewrite !lookup_union.
      - rewrite Hc, Hk. by destruct k.
      - rewrite Hb, Ht. split_and!; [done|done| |done]. by destruct (default ∅ (rb_header rb) !! "Content-Type"). }
    destruct Hs as [->| ->]; destruct k; cbn -[strlen itoa]; apply H; done.
Qed.

(** The error comes alone, although [handler_ServeHTTP] goes on to write the
    buffer after an error that is neither the client's nor the server's. *)
Lemma respond_ok k o : well_behaved o -> response_ok k o (respond k o).
Proof.
  intros [err _|j|s]; unfold respond, handler_ServeHTTP.
  - destruct k, err; (split; [reflexivity|split; [reflexivity|split; reflexivity]]).
  - apply rb_WriteTo_spec; [by right|]. simpl. by rewrite !lookup_insert_ne by done.
  - apply rb_WriteTo_spec; [by left|done].
Qed.
