(* ===== verification/Web.v ===== *)
(** * Handlers of the HTTP API (src/web/job.go, queue.go, routing.go, misc.go, application.go)

    A handler takes a request and the service, and returns the service with what
    it leaves in the buffer and its error.  encoding/json is a parameter, one
    function per direction; gorilla/mux decides which handler a request reaches and
    what its variables are.  A panic is [None]: net/http then closes the
    connection. *)

From Stdlib Require Import Ascii.
From S2P Require Import Prelude GoStrings Job QueueSpec JobQueue Model Dispatcher FailureLog Inspector.
From S2P Require Import MySQLNames Repository Service WebResponse.
Local Open Scope Z_scope.

(** ** Jobs *)

(** [web.IncomingJob]: the raw JSON of the payload and its decoded value. *)
Record web_job := {
  wj_Category : string;
  wj_URL : string;
  wj_PayloadField : string;
  wj_payloadField : string;
  wj_RunAfter : Z;
  wj_Timeout : Z;
  wj_RetryDelay : Z;
  wj_MaxRetries : Z;
  wj_FailureURL : string;
}.

Definition wj_with_payload (p : string) (job : web_job) : web_job := {|
  wj_Category := wj_Category job; wj_URL := wj_URL job; wj_PayloadField := wj_PayloadField job; wj_payloadField := p;
  wj_RunAfter := wj_RunAfter job; wj_Timeout := wj_Timeout job; wj_RetryDelay := wj_RetryDelay job;
  wj_MaxRetries := wj_MaxRetries job; wj_FailureURL := wj_FailureURL job;
|}.

Definition wj_with_category (c : string) (job : web_job) : web_job := {|
  wj_Category := c; wj_URL := wj_URL job; wj_PayloadField := wj_PayloadField job;
  wj_payloadField := wj_payloadField job; wj_RunAfter := wj_RunAfter job; wj_Timeout := wj_Timeout job;
  wj_RetryDelay := wj_RetryDelay job; wj_MaxRetries := wj_MaxRetries job; wj_FailureURL := wj_FailureURL job;
|}.

Definition quote : ascii := "034"%char.

(** [payload[0] == '"' && payload[len(payload)-1] == '"'] *)
Definition quoted (l : list ascii) : bool :=
  match head l, last l with
  | Some a, Some b => Ascii.eqb a quote && Ascii.eqb b quote
  | _, _ => false
  end.

Section job.
(** [json.Unmarshal] into a string. *)
Context (json_unquote : string -> option string).

(** The decoded payload, or an error. *)
Definition decoded_payload (p : string) : option string :=
  if quoted (chars p) then json_unquote p
  else if String.eqb p "null" then Some EmptyString
  else Some p.

Definition DecodePayload (job : web_job) : result string web_job :=
  match decoded_payload (wj_PayloadField job) with
  | None => Err "The payload seems to be a string but is broken"
  | Some buf => Ok (wj_with_payload buf job)
  end.

(** [Payload]: an empty payload is decoded again, an error then is ignored. *)
Definition web_job_Payload (job : web_job) : string :=
  if bool_decide (wj_payloadField job = EmptyString)
  then match DecodePayload job with Ok job => wj_payloadField job | Err _ => wj_payloadField job end
  else wj_payloadField job.

(** [uint64(job.RunAfterField * 1000)] *)
Definition web_job_NextDelay (job : web_job) : Z := u64 (wj_RunAfter job * 1000).

(** The job as the queues see it, through its methods. *)
Definition web_job_IncomingJob (job : web_job) : IncomingJob := {|
  in_Category := wj_Category job; in_URL := wj_URL job; in_Payload := web_job_Payload job;
  in_NextDelay := web_job_NextDelay job; in_Timeout := wj_Timeout job; in_RetryDelay := wj_RetryDelay job;
  in_RetryCount := wj_MaxRetries job; in_FailureURL := wj_FailureURL job;
|}.
End job.

(** ** Running queues as the handlers use them *)

Record inspector_ops (QE W : Type) := {
  io_FindAllGrabbed : QE -> W -> Z -> string -> SortOrder -> option (result QueueError InspectedJobs);
  io_FindAllWaiting : QE -> W -> Z -> string -> SortOrder -> option (result QueueError InspectedJobs);
  io_FindAllDeferred : QE -> W -> Z -> string -> SortOrder -> option (result QueueError InspectedJobs);
  io_Find : QE -> W -> Z -> result QueueError InspectedJob;
  io_Delete : QE -> W -> Z -> W * option QueueError;
}.
Arguments io_FindAllGrabbed {QE W}. Arguments io_FindAllWaiting {QE W}. Arguments io_FindAllDeferred {QE W}.
Arguments io_Find {QE W}. Arguments io_Delete {QE W}.

Record failureLog_ops (QE W : Type) := {
  fo_FindAll : QE -> W -> Z -> string -> option (result QueueError FailedJobs);
  fo_FindAllRecentFailures : QE -> W -> Z -> string -> option (result QueueError FailedJobs);
  fo_Find : QE -> W -> Z -> result QueueError FailedJob;
  fo_Delete : QE -> W -> Z -> W * option QueueError;
}.
Arguments fo_FindAll {QE W}. Arguments fo_FindAllRecentFailures {QE W}.
Arguments fo_Find {QE W}. Arguments fo_Delete {QE W}.

(** What the handlers ask of a running queue; a driver without an inspector or
    a failure log has none. *)
Class QueueViews (QE W JQ : Type) := {
  qv_IsActive : W -> JQ -> bool;
  qv_Stats : JQ -> Stats;
  qv_dispatcher_Stats : runningQueue JQ -> dispatcher_Stats;
  qv_Node : QE -> W -> JQ -> result QueueError (option Node);
  qv_Inspector : JQ -> option (inspector_ops QE W);
  qv_FailureLog : JQ -> option (failureLog_ops QE W);
}.

(** [web.Stats] *)
Record web_Stats := { ws_Jobqueue : Stats; ws_Dispatcher : dispatcher_Stats; ws_ActiveNodes : Z }.

(** ** Requests and values in JSON *)

Record request := {
  rq_Method : string;
  rq_Body : string;
  rq_var : string -> string;      (* mux.Vars *)
  rq_query : string -> string;    (* req.URL.Query().Get *)
}.

Inductive json_value :=
| JQueue (q : Queue)
| JQueues (qs : list Queue)
| JRouting (r : Routing)
| JRoutings (rs : list Routing)
| JPushResult (r : PushResult) (job : web_job)
| JSettings (m : gmap string string)
| JStats (s : web_Stats)
| JStatsByName (m : gmap string web_Stats)
| JNode (n : Node)
| JInspectedJobs (js : InspectedJobs)
| JInspectedJob (j : InspectedJob)
| JFailedJobs (js : FailedJobs)
| JFailedJob (j : FailedJob).

(** [strconv.Atoi] of the parameter [limit], 100 when it is not a number; the
    conversion to [uint] wraps. *)
Definition limit_of (req : request) : Z :=
  match Atoi (chars (rq_query req "limit")) with Some l => u64 l | None => 100 end.

Definition order_of (req : request) : SortOrder :=
  if String.eqb (rq_query req "order") "asc" then Asc else Desc.

Section handlers.
Context {E R : Type} {repos : Repositories E R}.
Context {QE W JQ : Type} {factory : QueueFactory QE W JQ} {views : QueueViews QE W JQ}.
Context (conf : string -> string) (conf_keys : list string) (Version : string).
Context (marshal : json_value -> result string string)
  (decode_job : string -> result string web_job)
  (decode_queue : string -> result string Queue)
  (decode_routing : string -> result string Routing)
  (json_unquote : string -> option string).

Local Abbreviation service := (Service R W JQ).

(** [return err] *)
Definition fail (err : web_error) : outcome := (rb_new, Some err).

(** [j, err := json.Marshal(v); if err != nil { return err }; writeJSON(w, j)] *)
Definition reply (v : json_value) : outcome :=
  match marshal v with
  | Ok j => (writeJSON j rb_new, None)
  | Err err => fail (otherError err)
  end.

Definition set_world (w : W) (s : service) : service := set_running w (sv_runningQueues s) s.

(** *** misc.go *)

Definition serveVersion : outcome := (rb_Write (Version +:+ newline) rb_new, None).

Definition serveSettings : outcome := reply (JSettings (list_to_map ((fun k => (k, conf k)) <$> conf_keys))).

(** *** job.go *)

(** [Payload] is called for the answer, too: a job that was accepted has its
    payload decoded. *)
Definition serveJob (e1 e2 : E) (qe1 qe2 : QE) (req : request) (s : service) : option (service * outcome) :=
  if negb (String.eqb (rq_Method req) "POST") then Some (s, fail errMethodNotAllowed)
  else match decode_job (rq_Body req) with
  | Err err => Some (s, fail (WithDetail errBadRequest err))
  | Ok job =>
      match DecodePayload json_unquote job with
      | Err err => Some (s, fail (WithDetail errBadRequest err))
      | Ok job =>
          if bool_decide (wj_URL job = EmptyString) then Some (s, fail (WithDetail errBadRequest "Missing field: url"))
          else
            let job := wj_with_category (rq_var req "category") job in
            '(s, r) ← Push e1 e2 qe1 qe2 (web_job_IncomingJob json_unquote job) s;
            match r with
            | Err err => Some (s, fail (otherError (push_error_Error err)))
            | Ok r => Some (s, reply (JPushResult r job))
            end
      end
  end.

(** *** queue.go *)

Definition serveQueueList (e : E) (s : service) : service * outcome :=
  let '(r, found) := queue_FindAll e (sv_repos s) in
  (set_repos r s, match found with Ok queues => reply (JQueues queues) | Err err => fail (otherError err) end).

(** [runningQueue.WorkerStats] *)
Definition WorkerStats (s : service) (rq : runningQueue JQ) : dispatcher_Stats :=
  if qv_IsActive (sv_world s) (rq_JobQueue rq) then qv_dispatcher_Stats rq
  else {| OutstandingJobs := 0; TotalWorkers := 0; IdleWorkers := 0 |}.

Definition stats_of (s : service) (rq : runningQueue JQ) : web_Stats := {|
  ws_Jobqueue := qv_Stats (QE := QE) (rq_JobQueue rq);
  ws_Dispatcher := WorkerStats s rq;
  ws_ActiveNodes := if qv_IsActive (sv_world s) (rq_JobQueue rq) then 1 else 0;
|}.

Definition serveQueueListStats (e : E) (s : service) : service * outcome :=
  let '(r, found) := queue_FindAll e (sv_repos s) in
  let s := set_repos r s in
  (s, match found with
      | Err err => fail (otherError err)
      | Ok queues => reply (JStatsByName (foldl (fun m q =>
            match getJobQueue (Name q) s with
            | Some rq => <[Name q := stats_of s rq]> m
            | None => m
            end) ∅ queues))
      end).

Definition with_name (name : string) (q : Queue) : Queue := {|
  Name := name; PollingInterval := PollingInterval q; MaxWorkers := MaxWorkers q;
  MaxDispatchesPerSecond := MaxDispatchesPerSecond q; MaxBurstSize := MaxBurstSize q;
|}.

(** [e1] is the environment of the lookup, [e2] that of the change. *)
Definition serveQueue (e1 e2 : E) (qe : QE) (req : request) (s : service) : option (service * outcome) :=
  let name := rq_var req "queue" in
  if String.eqb (rq_Method req) "PUT" then
    match decode_queue (rq_Body req) with
    | Err err => Some (s, fail (WithDetail errBadRequest err))
    | Ok definition =>
        '(s, definition, err) ← addJobQueue conf e2 qe (with_name name definition) s;
        match err with
        | Some err => Some (s, fail (otherError err))
        | None => Some (s, reply (JQueue definition))
        end
    end
  else
    let '(r, found) := queue_FindByName e1 (sv_repos s) name in
    let s := set_repos r s in
    match found with
    | Err _ => Some (s, fail errNotFound)
    | Ok definition =>
        if String.eqb (rq_Method req) "DELETE" then
          let '(s, err) := DeleteJobQueue e2 name s in
          match err with
          | Some err => Some (s, fail (otherError err))
          | None => Some (s, reply (JQueue definition))
          end
        else Some (s, reply (JQueue definition))
    end.

Definition no_such_queue (req : request) : web_error := WithDetail errNotFound ("No such queue: " +:+ rq_var req "queue").

Definition serveQueueNode (qe : QE) (req : request) (s : service) : outcome :=
  match getJobQueue (rq_var req "queue") s with
  | None => fail (no_such_queue req)
  | Some q =>
      match qv_Node qe (sv_world s) (rq_JobQueue q) with
      | Err err => fail (otherError (QueueError_Error err))
      | Ok None => fail (WithDetail errNotFound "No node is active for this queue")
      | Ok (Some node) => reply (JNode node)
      end
  end.

Definition serveQueueStats (req : request) (s : service) : outcome :=
  match getJobQueue (rq_var req "queue") s with
  | None => fail (no_such_queue req)
  | Some q => reply (JStats (stats_of s q))
  end.

Inductive listing_kind := LGrabbed | LWaiting | LDeferred.

Definition inspector_FindAll (kind : listing_kind) (i : inspector_ops QE W) :=
  match kind with
  | LGrabbed => io_FindAllGrabbed i
  | LWaiting => io_FindAllWaiting i
  | LDeferred => io_FindAllDeferred i
  end.

(** [serveQueueJobs] with the listing of [serveQueueGrabbed], [serveQueueWaiting]
    or [serveQueueDeferred]. *)
Definition serveQueueJobs (kind : listing_kind) (qe : QE) (req : request) (s : service) : option outcome :=
  match getJobQueue (rq_var req "queue") s with
  | None => Some (fail errNotFound)
  | Some q =>
      match qv_Inspector (rq_JobQueue q) with
      | None => Some (fail errNotImplemented)
      | Some inspector =>
          jobs ← inspector_FindAll kind inspector qe (sv_world s) (limit_of req) (rq_query req "cursor") (order_of req);
          Some (match jobs with
                | Err err => fail (otherError (QueueError_Error err))
                | Ok jobs => reply (JInspectedJobs jobs)
                end)
      end
  end.

Definition serveQueueFailed (qe : QE) (req : request) (s : service) : option outcome :=
  match getJobQueue (rq_var req "queue") s with
  | None => Some (fail errNotFound)
  | Some q =>
      match qv_FailureLog (rq_JobQueue q) with
      | None => Some (fail errNotImplemented)
      | Some failureLog =>
          let findAll := if String.eqb (rq_query req "order") "created"
            then fo_FindAll failureLog else fo_FindAllRecentFailures failureLog in
          jobs ← findAll qe (sv_world s) (limit_of req) (rq_query req "cursor");
          Some (match jobs with
                | Err err => fail (otherError (QueueError_Error err))
                | Ok jobs => reply (JFailedJobs jobs)
                end)
      end
  end.

(** [err == sql.ErrNoRows] *)
Definition is_no_rows (err : QueueError) : bool :=
  match err with StoreError msg => String.eqb msg no_rows | _ => false end.

Definition find_error (err : QueueError) : web_error :=
  if is_no_rows err then errNotFound else otherError (QueueError_Error err).

(** The handler of one job, and its twin for one failure: look it up, delete it
    on request, and show it. *)
Definition serve_item {A} (find : Z -> result QueueError A) (del : Z -> W * option QueueError)
    (show : A -> json_value) (req : request) (id : Z) (s : service) : service * outcome :=
  match find (u64 id) with
  | Err err => (s, fail (find_error err))
  | Ok item =>
      if String.eqb (rq_Method req) "DELETE" then
        let '(w, err) := del (u64 id) in
        (set_world w s, match err with
                        | Some err => fail (otherError (QueueError_Error err))
                        | None => reply (show item)
                        end)
      else (s, reply (show item))
  end.

Definition serveQueueJob (qe1 qe2 : QE) (req : request) (s : service) : service * outcome :=
  match Atoi (chars (rq_var req "id")) with
  | None => (s, fail errBadRequest)
  | Some id =>
      match getJobQueue (rq_var req "queue") s with
      | None => (s, fail errNotFound)
      | Some q =>
          match qv_Inspector (rq_JobQueue q) with
          | None => (s, fail errNotImplemented)
          | Some i => serve_item (io_Find i qe1 (sv_world s)) (io_Delete i qe2 (sv_world s)) JInspectedJob req id s
          end
      end
  end.

Definition serveQueueFailedJob (qe1 qe2 : QE) (req : request) (s : service) : service * outcome :=
  match Atoi (chars (rq_var req "id")) with
  | None => (s, fail errBadRequest)
  | Some id =>
      match getJobQueue (rq_var req "queue") s with
      | None => (s, fail errNotFound)
      | Some q =>
          match qv_FailureLog (rq_JobQueue q) with
          | None => (s, fail errNotImplemented)
          | Some l => serve_item (fo_Find l qe1 (sv_world s)) (fo_Delete l qe2 (sv_world s)) JFailedJob req id s
          end
      end
  end.

(** *** routing.go *)

Definition serveRoutingList (e : E) (s : service) : service * outcome :=
  let '(r, found) := routing_FindAll e (sv_repos s) in
  (set_repos r s, match found with Ok routings => reply (JRoutings routings) | Err err => fail (otherError err) end).

Definition routing_error (err : repo_error) : web_error :=
  match err with
  | QueueNotFoundError _ => WithDetail errNotFound (repo_error_Error err)
  | StorageError _ => otherError (repo_error_Error err)
  end.

Definition serveRouting (e : E) (req : request) (s : service) : option (service * outcome) :=
  let jobCategory := rq_var req "category" in
  if String.eqb (rq_Method req) "PUT" then
    match decode_routing (rq_Body req) with
    | Err err => Some (s, fail (WithDetail errBadRequest err))
    | Ok definition =>
        '(r, (_, err)) ← routing_Add e (sv_repos s) jobCategory (rt_QueueName definition);
        let s := set_repos r s in
        match err with
        | Some err => Some (s, fail (routing_error err))
        | None => Some (s, reply (JRouting {| rt_QueueName := rt_QueueName definition; rt_JobCategory := jobCategory |}))
        end
    end
  else
    let qn := routing_FindQueueNameByJobCategory (sv_repos s) jobCategory in
    if bool_decide (qn = EmptyString) then Some (s, fail errNotFound)
    else
      let definition := {| rt_QueueName := qn; rt_JobCategory := jobCategory |} in
      if String.eqb (rq_Method req) "DELETE" then
        let '(r, err) := routing_DeleteByJobCategory e (sv_repos s) jobCategory in
        let s := set_repos r s in
        Some (s, match err with Some err => fail (otherError err) | None => reply (JRouting definition) end)
      else Some (s, reply (JRouting definition)).

(** *** application.go *)

(** The patterns of [newServer], in their order; "/stats" is served by a
    package. *)
Inductive app_route :=
| RVersion | RSettings | RJob | RQueueList | RQueueListStats | RQueue | RQueueNode | RQueueStats
| RQueueGrabbed | RQueueWaiting | RQueueDeferred | RQueueJob | RQueueFailed | RQueueFailedJob
| RRoutingList | RRouting.

Record envs := { en_repo1 : E; en_repo2 : E; en_queue1 : QE; en_queue2 : QE }.

Definition app_handle (r : app_route) (en : envs) (req : request) (s : service) : option (service * outcome) :=
  let e1 := en_repo1 en in let e2 := en_repo2 en in
  let qe1 := en_queue1 en in let qe2 := en_queue2 en in
  match r with
  | RVersion => Some (s, serveVersion)
  | RSettings => Some (s, serveSettings)
  | RJob => serveJob e1 e2 qe1 qe2 req s
  | RQueueList => Some (serveQueueList e1 s)
  | RQueueListStats => Some (serveQueueListStats e1 s)
  | RQueue => serveQueue e1 e2 qe1 req s
  | RQueueNode => Some (s, serveQueueNode qe1 req s)
  | RQueueStats => Some (s, serveQueueStats req s)
  | RQueueGrabbed => o ← serveQueueJobs LGrabbed qe1 req s; Some (s, o)
  | RQueueWaiting => o ← serveQueueJobs LWaiting qe1 req s; Some (s, o)
  | RQueueDeferred => o ← serveQueueJobs LDeferred qe1 req s; Some (s, o)
  | RQueueJob => Some (serveQueueJob qe1 qe2 req s)
  | RQueueFailed => o ← serveQueueFailed qe1 req s; Some (s, o)
  | RQueueFailedJob => Some (serveQueueFailedJob qe1 qe2 req s)
  | RRoutingList => Some (serveRoutingList e1 s)
  | RRouting => serveRouting e1 req s
  end.

(** The response to a request; [None] when the connection is closed by a
    panic. *)
Definition app_serve (disableKeepAlives : bool) (r : app_route) (en : envs) (req : request) (s : service)
    : option (service * response) :=
  '(s, o) ← app_handle r en req s;
  Some (s, respond disableKeepAlives o).

(** ** Every response is well formed *)

Lemma fail_well_behaved err : error_status err ∈ error_statuses -> well_behaved (fail err).
Proof. apply wb_error. Qed.

Lemma find_error_status err : error_status (find_error err) ∈ error_statuses.
Proof. unfold find_error, error_statuses. destruct (is_no_rows err); vm_compute; set_solver. Qed.

Lemma routing_error_status err : error_status (routing_error err) ∈ error_statuses.
Proof. unfold error_statuses. destruct err; cbn; set_solver. Qed.

Ltac status_ok :=
  first [apply find_error_status | apply routing_error_status | unfold error_statuses; cbn; set_solver].

Lemma reply_well_behaved v : well_behaved (reply v).
Proof. unfold reply. destruct (marshal v); [apply wb_json|apply fail_well_behaved; status_ok]. Qed.

Lemma serve_item_well_behaved {A} find del (show : A -> json_value) req id s :
  well_behaved (serve_item find del show req id s).2.
Proof.
  unfold serve_item. destruct (find (u64 id)); [|apply fail_well_behaved; status_ok].
  destruct (String.eqb _ _); [|apply reply_well_behaved].
  destruct (del (u64 id)) as [w [err|]]; [apply fail_well_behaved; status_ok|apply reply_well_behaved].
Qed.

(** Case analysis over what a handler does, down to its outcomes. *)
Ltac handler_cases :=
  repeat match goal with
  | |- well_behaved (fail _) => apply fail_well_behaved; status_ok
  | |- well_behaved (reply _) => apply reply_well_behaved
  | |- well_behaved (serve_item _ _ _ _ _ _).2 => apply serve_item_well_behaved
  | H : Some _ = Some _ |- _ => injection H as H; subst
  | H : (_, _) = (_, _) |- _ => injection H as H; subst
  | H : None = Some _ |- _ => discriminate H
  | H : mbind _ ?x = Some _ |- _ => destruct x as [?|] eqn:?; simpl in H
  | H : context [match ?x with _ => _ end] |- _ => destruct x eqn:?; simpl in H
  | |- context [match ?x with _ => _ end] => destruct x eqn:?; simpl
  end.

Lemma app_handle_well_behaved r en req s s' o : app_handle r en req s = Some (s', o) -> well_behaved o.
Proof.
  intros H. destruct r; unfold app_handle in H.
  - injection H as <- <-. apply wb_text.
  - injection H as <- <-. apply reply_well_behaved.
  - unfold serveJob in H.  handler_cases.
  - unfold serveQueueList in H. handler_cases.
  - unfold serveQueueListStats in H. handler_cases.
  - unfold serveQueue in H.  handler_cases.
  - unfold serveQueueNode in H. handler_cases.
  - unfold serveQueueStats in H. handler_cases.
  - unfold serveQueueJobs in H.  handler_cases.
  - unfold serveQueueJobs in H.  handler_cases.
  - unfold serveQueueJobs in H.  handler_cases.
  - injection H as H. apply (f_equal snd) in H. simpl in H. subst o. unfold serveQueueJob. handler_cases.
  - unfold serveQueueFailed in H.  handler_cases.
  - injection H as H. apply (f_equal snd) in H. simpl in H. subst o. unfold serveQueueFailedJob. handler_cases.
  - unfold serveRoutingList in H. handler_cases.
  - unfold serveRouting in H.  handler_cases.
Qed.

(** C27 (type): every response of the API is well formed, whatever the request
    and whatever fails: a JSON or plain text with status 200, its content type and
    its length, or the text of one error under the status of that error; nothing a
    handler wrote is mixed with an error. *)
Theorem app_responses_well_formed k r en req s s' resp :
  app_serve k r en req s = Some (s', resp) ->
  exists o, app_handle r en req s = Some (s', o) /\ response_ok k o resp /\
    (rs_status resp = 200 /\ o.2 = None \/ rs_status resp ∈ error_statuses /\ is_Some o.2).
Proof.
  unfold app_serve. destruct (app_handle r en req s) as [[s1 o]|] eqn:Eh; [|done]. simpl. intros [= <- <-].
  pose proof (app_handle_well_behaved _ _ _ _ _ _ Eh) as Ho. exists o.
  pose proof (respond_ok k o Ho) as Hr. split_and!; [done|done|].
  destruct Ho as [err Hs|j|t]; destruct Hr as (_ & Hst & _); rewrite Hst; eauto.
Qed.
End handlers.
