(* ===== verification/MySQLService.v ===== *)
(** * A service on the MySQL driver

    [factory.Start] with the MySQL driver: every queue is a primary/backup queue on
    tables of its own, which outlive the queue.  The database is the world of the
    service; a running queue reads its tables from it and writes them back.  The
    inspector and the failure log are those of the driver; the in-memory driver has
    neither. *)

From S2P Require Import Prelude GoStrings Paging Job QueueSpec InMemory JobQueue MySQLTable MySQLQueue Model.
From S2P Require Import Dispatcher FailureLog Inspector MySQLNames Repository Service ServiceRunning.
From S2P Require Import WebResponse Web.
Local Open Scope Z_scope.

(** ** The primary/backup queue *)

(** What the database answers to the calls of a queue: the outcomes of the calls
    of [Start], the environment of the operations, the order of the failure rows,
    the clock of the log, and the row of the process list for [Node]. *)
Record server_env := {
  se_open : result string unit;
  se_wait_timeout : option Z;
  se_create_jobqueue : result sql_error unit;
  se_create_failure : result sql_error unit;
  se_alter : result sql_error unit;
  se_open_pop : result string Z;
  se_env : mysql_env;
  se_failures : list failure_row -> list failure_row;
  se_log_now : Z;
  se_process : result string (option (string * string));
}.

(** [newJobQueue], on the tables of the database *)
Definition newJobQueue (name : string) (t : tables) : mysql_queue :=
  {| mq_name := name; mq_tables := t; mq_dbPop := None; mq_stopped := false |}.

(** [Start]: the activator starts as neither primary nor backup. *)
Definition primaryBackup_Start (se : server_env) (s : mysql_queue) : option primaryBackup :=
  '(s, _) ← mysql_Start (se_open se) (se_wait_timeout se) (se_create_jobqueue se) (se_create_failure se)
    (se_alter se) (se_open_pop se) s;
  Some {| pb_jobQueue := s; pb_active := -1 |}.

(** [Stop]: the activator ends inactive, then the queue is stopped. *)
Definition primaryBackup_Stop (p : primaryBackup) : primaryBackup :=
  {| pb_jobQueue := mysql_Stop (pb_jobQueue p); pb_active := 0 |}.

(** ** The database *)

(** The tables of every queue, by the name of the queue table. *)
Local Abbreviation database := (gmap string tables).

Definition table_key (name : string) : string :=
  tn_JobQueue (newTableName {| Name := name; PollingInterval := 0; MaxWorkers := 0;
                               MaxDispatchesPerSecond := 0%Qc; MaxBurstSize := 0 |}).

Definition db_tables (w : database) (name : string) : tables := default empty_tables (w !! table_key name).
Definition db_store (name : string) (t : tables) (w : database) : database := <[table_key name := t]> w.

Section mysql_factory.
Context {RC : Type} (rc_New : RC) (rc_Incr : Z -> RC -> RC) (rc_Rate : RC -> Z) (tag : string).
Context (marshal_Result : Result -> string) (read_Result : string -> result string (option Result)).
Context (json_valid : string -> bool) (json_quote : string -> string).

Local Abbreviation queue := (jobQueue primaryBackup RC).

Definition mysql_tables (q : queue) : tables := mq_tables (pb_jobQueue (jq_impl q)).

(** The queue with the tables as they are in the database. *)
Definition at_database (w : database) (q : queue) : queue := {|
  jq_name := jq_name q; jq_maxWorkers := jq_maxWorkers q;
  jq_impl := pb_with (mq_with_tables (db_tables w (jq_name q)) (pb_jobQueue (jq_impl q))) (jq_impl q);
  jq_stats := jq_stats q; jq_log := jq_log q; jq_warnings := jq_warnings q;
|}.

(** Starting and stopping leave the rows of a queue alone: that the statements of
    [Start] do so is proved of their texts ([SqlStatements.start_tables_correct]),
    and whether they succeed is given by [se]; a queue without tables has empty ones
    ([db_tables]).  The recovery of orphans is not part of [Start]: the activator
    of the queue runs it later, in a goroutine, which is the subject of
    [PrimaryBackup]. *)
Definition mysql_factory : QueueFactory server_env database queue := {|
  qf_Start se w q :=
    let t := db_tables w (Name q) in
    p ← primaryBackup_Start se (newJobQueue (Name q) t);
    Some (db_store (Name q) t w, jobQueue_Start rc_New (Name q) (MaxWorkers q) p);
  qf_Stop w _ := w;
  qf_Push se w q job :=
    '(q', r) ← jobQueue_Push (Impl0 := mysql_Impl marshal_Result) rc_Incr tag (se_env se) (se_log_now se) (at_database w q) job;
    Some (db_store (jq_name q) (mysql_tables q') w, q', r);
|}.

(** [jobQueue.Inspector] and [jobQueue.FailureLog], for a queue of the database *)
Definition mysql_inspector (q : queue) : inspector_ops server_env database := {|
  io_FindAllGrabbed se w := FindAllGrabbed json_valid json_quote (se_env se) (db_tables w (jq_name q));
  io_FindAllWaiting se w := FindAllWaiting json_valid json_quote (se_env se) (db_tables w (jq_name q));
  io_FindAllDeferred se w := FindAllDeferred json_valid json_quote (se_env se) (db_tables w (jq_name q));
  io_Find se w := inspector_Find json_valid json_quote (se_env se) (db_tables w (jq_name q));
  io_Delete se w id :=
    let '(s, err) := inspector_Delete (se_env se) (pb_jobQueue (jq_impl (at_database w q))) id in
    (db_store (jq_name q) (mq_tables s) w, err);
|}.

Definition mysql_failureLog (q : queue) : failureLog_ops server_env database := {|
  fo_FindAll se w := failureLog_FindAll json_valid json_quote read_Result (se_env se) (se_failures se) (db_tables w (jq_name q));
  fo_FindAllRecentFailures se w :=
    failureLog_FindAllRecentFailures json_valid json_quote read_Result (se_env se) (se_failures se) (db_tables w (jq_name q));
  fo_Find se w := failureLog_Find json_valid json_quote read_Result (se_env se) (db_tables w (jq_name q));
  fo_Delete se w id :=
    let '(s, err) := failureLog_Delete (se_env se) (pb_jobQueue (jq_impl (at_database w q))) id in
    (db_store (jq_name q) (mq_tables s) w, err);
|}.

(** The state of the dispatcher of a running queue is not part of the service. *)
Context {QS J : Type} (dispatcher_of : runningQueue queue -> dispatcher (QS := QS) (J := J)).

Definition mysql_views : QueueViews server_env database queue := {|
  qv_IsActive _ q := jobQueue_IsActive (Impl0 := mysql_Impl marshal_Result) q;
  qv_Stats q := jobQueue_Stats rc_Rate q;
  qv_dispatcher_Stats rq := Dispatcher_Stats (rq_dispatcher rq) (dispatcher_of rq);
  qv_Node se _ _ := queue_Node (se_process se);
  qv_Inspector q := Some (mysql_inspector q);
  qv_FailureLog q := Some (mysql_failureLog q);
|}.
End mysql_factory.

(** The views of a queue in memory: [Node] is nil without an error. *)
Section inmemory_views.
Context {RC QS J : Type} (rc_Rate : RC -> Z)
  (dispatcher_of : runningQueue (jobQueue inmemory RC) -> dispatcher (QS := QS) (J := J)).

Definition inmemory_views : QueueViews Z Z (jobQueue inmemory RC) := {|
  qv_IsActive _ q := jobQueue_IsActive q;
  qv_Stats q := jobQueue_Stats rc_Rate q;
  qv_dispatcher_Stats rq := Dispatcher_Stats (rq_dispatcher rq) (dispatcher_of rq);
  qv_Node _ _ _ := Ok None;
  qv_Inspector _ := None;
  qv_FailureLog _ := None;
|}.
End inmemory_views.

(** ** What a service does to the database *)

Lemma db_tables_store_eq name t w : db_tables (db_store name t w) name = t.
Proof. unfold db_tables, db_store. by rewrite lookup_insert_eq. Qed.

Lemma db_tables_store name w name' : db_tables (db_store name (db_tables w name) w) name' = db_tables w name'.
Proof.
  unfold db_tables, db_store. destruct (decide (table_key name = table_key name')) as [->|Hn].
  - by rewrite lookup_insert_eq.
  - by rewrite lookup_insert_ne.
Qed.

Definition same_jobs (w w' : gmap string tables) : Prop := forall name, db_tables w' name = db_tables w name.

#[export] Instance same_jobs_preorder : PreOrder same_jobs.
Proof. split; [by intros w name|]. intros w1 w2 w3 H12 H23 name. by rewrite H23, H12. Qed.

Section mysql_service.
Context {E R : Type} {repos : Repositories E R} {quiet : E -> Prop} {good : R -> Prop}
  {stored : Queue -> option Queue} {defs : R -> gmap string Queue} {rev : R -> Z}
  {spec : RepositoriesSpec repos quiet good stored defs rev}.
Context {RC : Type} (rc_New : RC) (rc_Incr : Z -> RC -> RC) (rc_Rate : RC -> Z) (tag : string).
Context (marshal_Result : Result -> string) (read_Result : string -> result string (option Result)).
Context (json_valid : string -> bool) (json_quote : string -> string) (conf : string -> string).
Context {QS J : Type} (dispatcher_of : runningQueue (jobQueue primaryBackup RC) -> dispatcher (QS := QS) (J := J)).

#[local] Instance factory : QueueFactory server_env (gmap string tables) (jobQueue primaryBackup RC) :=
  mysql_factory rc_New rc_Incr tag marshal_Result.
#[local] Instance views : QueueViews server_env (gmap string tables) (jobQueue primaryBackup RC) :=
  mysql_views rc_Rate marshal_Result read_Result json_valid json_quote dispatcher_of.

Local Abbreviation service := (Service R (gmap string tables) (jobQueue primaryBackup RC)).
Local Abbreviation reachable := (service_reachable (quiet := quiet) (good := good) (stored := stored)
  (defs := defs) (rev := rev) conf).

Lemma mysql_factory_Start se w q w' jq :
  qf_Start (QueueFactory := factory) se w q = Some (w', jq) ->
  jq_name jq = Name q /\ w' = db_store (Name q) (db_tables w (Name q)) w.
Proof. simpl. destruct (primaryBackup_Start se _); [|done]. simpl. by intros [= <- <-]. Qed.

Lemma jobQueue_Push_name se now (jq : jobQueue primaryBackup RC) job jq' r :
  jobQueue_Push (Impl0 := mysql_Impl marshal_Result) rc_Incr tag se now jq job = Some (jq', r) -> jq_name jq' = jq_name jq.
Proof.
  unfold jobQueue_Push. destruct (impl_Push se (jq_impl jq) job) as [[p [h|err]]|]; [..|done]; by intros [= <- _].
Qed.

Lemma mysql_factory_Push_name se w name jq job w' jq' r :
  jq_name jq = name -> qf_Push (QueueFactory := factory) se w jq job = Some (w', jq', r) -> jq_name jq' = name.
Proof.
  intros <-. simpl. destruct (jobQueue_Push _ _ _ _ _ _) as [[q1 r1]|] eqn:Ep; [|done]. simpl. intros [= <- <- <-].
  by apply jobQueue_Push_name in Ep.
Qed.

(** A running queue has the name it runs under. *)
Definition named (name : string) (jq : jobQueue primaryBackup RC) : Prop := jq_name jq = name.

Lemma started_named e w q w' jq : qf_Start (QueueFactory := factory) e w q = Some (w', jq) -> named (Name q) jq.
Proof. intros Hq. by apply mysql_factory_Start in Hq as [? _]. Qed.

Lemma started_same_jobs e w q w' jq : qf_Start (QueueFactory := factory) e w q = Some (w', jq) -> same_jobs w w'.
Proof. intros Hq name. apply mysql_factory_Start in Hq as [_ ->]. apply db_tables_store. Qed.

Lemma reachable_named (s : service) : reachable s -> all_running named s.
Proof.
  induction 1 as [? ? ? ? ? ? ? ? ? ? ? ? Hn|? ? ? ? ? ? ? ? IH ? ? ? Ha|e qn s ? IH ? ?|? ? ? ? ? ? ? ? ? IH ? ? Hp
    |? ? ? ? ? ? ? IH ? ? ? ? Ht|e0 e1 s ? IH ?|r s ? IH ?].
  - eapply (service_startup_running conf named started_named); [exact Hn|]. intros name rq. simpl. by rewrite lookup_empty.
  - by eapply (addJobQueue_running conf named started_named).
  - unfold DeleteJobQueue. destruct (queue_DeleteByName e _ qn) as [r' [err|]]; [exact IH|].
    by apply stopJobQueue_running.
  - eapply (Push_running named started_named); [|exact Hp|exact IH]. intros *. apply mysql_factory_Push_name.
  - by eapply (tick_queues_running conf named started_named).
  - unfold tick_routings. by destruct (watcher_tick _ _).
  - exact IH.
Qed.

Lemma push_running_inv se name qn rq job (s s' : service) r :
  push_running se name qn rq job s = Some (s', Ok r) ->
  exists w' jq, qf_Push (QueueFactory := factory) se (sv_world s) (rq_JobQueue rq) job = Some (w', jq, Ok (pr_ID r)) /\
    pr_QueueName r = qn /\ w' = sv_world s' /\ getJobQueue name s' =
      Some {| rq_JobQueue := jq; rq_dispatcher := rq_dispatcher rq; rq_definition := rq_definition rq |}.
Proof.
  unfold push_running, runningQueue_Push. destruct (qf_Push se _ _ job) as [[[w jq] [id|err]]|]; [|done..].
  simpl. intros [= <- <-]. exists w, jq. unfold getJobQueue. simpl. by rewrite lookup_insert_eq.
Qed.

(** A push that succeeded went to a queue that runs, or was just started, under
    the name it reports, in the database as the service had it. *)
Lemma Push_inv e1 e2 se1 se2 job (s s' : service) r :
  quiet e1 -> quiet e2 -> good (sv_repos s) -> all_running named s -> Push e1 e2 se1 se2 job s = Some (s', Ok r) ->
  exists w rq w' jq, jq_name (rq_JobQueue rq) = pr_QueueName r /\ same_jobs (sv_world s) w /\
    qf_Push (QueueFactory := factory) se2 w (rq_JobQueue rq) job = Some (w', jq, Ok (pr_ID r)) /\
    sv_world s' = w' /\ getJobQueue (pr_QueueName r) s' =
      Some {| rq_JobQueue := jq; rq_dispatcher := rq_dispatcher rq; rq_definition := rq_definition rq |}.
Proof.
  intros He1 He2 Hg Hs Hp. unfold Push in Hp.
  destruct (route e1 (in_Category job) s) as [s1 qn] eqn:Er.
  assert (good (sv_repos s1) /\ sv_world s1 = sv_world s /\ sv_runningQueues s1 = sv_runningQueues s) as (Hg1 & Ew & Em).
  { unfold route in Er. pose proof (spec_Reload e1 (sv_repos s) He1 Hg) as (Hg' & _).
    repeat match type of Er with context [if ?b then _ else _] => destruct b end; by injection Er as <- _. }
  case_bool_decide; [done|]. destruct (getJobQueue qn s1) as [rq|] eqn:Eg.
  - apply push_running_inv in Hp as (w' & jq & Hq & Hr & <- & Hget). rewrite Hr. exists (sv_world s1), rq, w', jq.
    rewrite Ew in *. split_and!; [|reflexivity|done|done|done]. apply Hs. unfold getJobQueue in Eg. by rewrite <- Em.
  - destruct (spec_FindByName e2 (sv_repos s1) qn He2 Hg1) as (err & Ef). rewrite Ef in Hp.
    destruct (defs (sv_repos s1) !! qn) as [q|] eqn:Eq; [|done].
    pose proof (spec_keys _ _ _ Hg1 Eq) as Hn.
    destruct (putJobQueue se1 q _) as [s2|] eqn:E2; [|done]. simpl in Hp.
    destruct (getJobQueue (Name q) s2) as [rq|] eqn:E3; [|done]. simpl in Hp. rewrite Hn in *.
    apply push_running_inv in Hp as (w' & jq & Hq & Hr & <- & Hget). rewrite Hr. exists (sv_world s2), rq, w', jq.
    split_and!; [| |done|done|done].
    + eapply (putJobQueue_running named started_named) in E2; [by apply (E2 qn)|].
      intros n rq0. simpl. rewrite Em. apply Hs.
    + apply (putJobQueue_world same_jobs) in E2; [|exact started_same_jobs|done].
      simpl in E2. by rewrite Ew in E2.
Qed.

(** The row of a job that was accepted. *)
Lemma qf_Push_row se w jq job w' jq' id :
  qf_Push (QueueFactory := factory) se w jq job = Some (w', jq', Ok id) ->
  is_u64 id /\ is_u32 (in_RetryCount job) /\ t_jobs (db_tables w' (jq_name jq)) !! id = Some {|
    r_job_id := id; r_next_try := me_now (se_env se) + in_NextDelay job; r_grabber_id := None; r_status := Claimed;
    r_created_at := me_now (se_env se); r_retry_count := in_RetryCount job; r_retry_delay := in_RetryDelay job;
    r_fail_count := 0; r_category := in_Category job; r_url := in_URL job; r_payload := in_Payload job;
    r_timeout := in_Timeout job; r_failure_url := Some (in_FailureURL job) |}.
Proof.
  simpl. unfold jobQueue_Push. simpl. unfold mysql_Push. destruct (me_fault (se_env se) 0); [done|]. simpl.
  unfold sql_insert_job. destruct (row_fits _) eqn:Ef; [|done]. destruct (me_fault (se_env se) 1); [done|]. simpl.
  intros [= <- <- <-]. destruct (row_fits_ranges _ Ef) as (Hid & _ & _ & Hrc & _). simpl in Hid, Hrc.
  rewrite u64_id by done. split; [done|]. split; [done|].
  rewrite db_tables_store_eq. apply lookup_insert_eq.
Qed.

(** A waiting job as the inspector shows it, pushed at a time under an
    identifier. *)
Definition inspected_waiting (now id : Z) (job : IncomingJob) : InspectedJob := {|
  ij_ID := id; ij_Category := in_Category job; ij_URL := in_URL job;
  ij_Payload := shown_payload json_valid json_quote (in_Payload job); ij_Status := "claimed";
  ij_CreatedAt := time_of_ms now; ij_NextTry := time_of_ms (now + in_NextDelay job);
  ij_Timeout := in_Timeout job; ij_FailCount := 0; ij_MaxRetries := in_RetryCount job;
  ij_RetryDelay := in_RetryDelay job; ij_FailureURL := in_FailureURL job;
|}.

(** C25 (roundtrip): a job whose push was accepted can be inspected under the
    identifier and the queue the push reported: the answer has the fields of the
    job, the status of a job that waits, and the times of the push. *)
Theorem pushed_job_inspected (marshal : json_value -> result string string) conf_keys Version decode_job decode_queue
    decode_routing unquote e1 e2 se1 se2 job (s s' : service) r en req :
  reachable s -> good (sv_repos s) -> quiet e1 -> quiet e2 -> Push e1 e2 se1 se2 job s = Some (s', Ok r) -> pr_ID r <= i64_max ->
  me_fault (se_env (en_queue1 en)) 0 = None -> rq_Method req <> "DELETE" ->
  rq_var req "queue" = pr_QueueName r -> rq_var req "id" = str (format_int (pr_ID r)) ->
  app_handle conf conf_keys Version marshal decode_job decode_queue decode_routing unquote RQueueJob en req s' =
    Some (s', reply marshal (JInspectedJob (inspected_waiting (me_now (se_env se2)) (pr_ID r) job))).
Proof.
  intros Hs Hg He1 He2 Hp Hid Hf Hm Hq Hi.
  destruct (Push_inv _ _ _ _ _ _ _ _ He1 He2 Hg (reachable_named _ Hs) Hp) as (w & rq & w' & jq & Hn & _ & Hpush & Hw & Hget).
  pose proof (mysql_factory_Push_name _ _ _ _ _ _ _ _ Hn Hpush) as Hn'.
  destruct (qf_Push_row _ _ _ _ _ _ _ Hpush) as (Hu & Hrc & Hrow).
  unfold app_handle, serveQueueJob. rewrite Hi, chars_str, Atoi_format by done. rewrite (proj2 (Z.leb_le _ _) Hid).
  rewrite Hq, Hget. unfold serve_item. cbn. unfold inspector_Find. rewrite Hf, u64_id, Hw, Hn' by done.
  rewrite Hn in Hrow. rewrite Hrow, (proj2 (String.eqb_neq _ _) Hm). unfold inspector_scan, inspected_waiting. simpl.
  by rewrite u64_id by word.
Qed.

Lemma findAll_huge e t status minTime maxTime limit cursor :
  max_inspected_slice < u64 (limit + 1) ->
  findAllAsc json_valid json_quote e t status minTime maxTime limit cursor = None /\
  findAllDesc json_valid json_quote e t status minTime maxTime limit cursor = None.
Proof.
  intros H. apply Z.ltb_lt in H. unfold findAllAsc, findAllDesc. destruct (decode_cursor cursor) as [[]|]; by rewrite H.
Qed.

Lemma findAllByQuery_huge e order query t limit cursor :
  me_fault e 0 = None -> max_failed_slice < limit ->
  findAllByQuery json_valid json_quote read_Result e order query t limit cursor = None.
Proof.
  intros Hf H. apply Z.ltb_lt in H. unfold findAllByQuery. rewrite Hf. destruct (decode_cursor cursor) as [[]|]; by rewrite H.
Qed.

(** The listings of jobs. *)
Definition jobs_listing (r : app_route) : Prop := r = RQueueGrabbed \/ r = RQueueWaiting \/ r = RQueueDeferred.

(** A negative [limit] closes the connection: the handler panics
    when it allocates the listing.  For the listings of jobs [-1] is an exception:
    the capacity wraps to zero. *)
Theorem negative_limit_panics (marshal : json_value -> result string string) conf_keys Version decode_job decode_queue
    decode_routing unquote k r en req (s : service) rq l :
  getJobQueue (rq_var req "queue") s = Some rq -> Atoi (chars (rq_query req "limit")) = Some l ->
  jobs_listing r /\ l < -1 \/
  r = RQueueFailed /\ l < 0 /\ me_fault (se_env (en_queue1 en)) 0 = None ->
  app_serve conf conf_keys Version marshal decode_job decode_queue decode_routing unquote k r en req s = None.
Proof.
  intros Hq Hl Hr. pose proof (Atoi_range _ _ Hl) as Hrange. unfold app_serve, app_handle.
  destruct Hr as [[Hr Hneg]|[Hr [Hneg Hf]]].
  - assert (max_inspected_slice < u64 (u64 l + 1)) as Hbig.
    { unfold max_inspected_slice. rewrite (u64_neg l) by word. rewrite u64_id by word. word. }
    pose proof (fun t st a b => findAll_huge (se_env (en_queue1 en)) t st a b (u64 l) (rq_query req "cursor") Hbig) as Hnone.
    destruct Hr as [Hr|[Hr|Hr]]; subst r; unfold serveQueueJobs; rewrite Hq; simpl; unfold limit_of; rewrite Hl;
      unfold FindAllGrabbed, FindAllWaiting, FindAllDeferred; destruct (order_of req);
      (rewrite (proj1 (Hnone _ _ _ _)) || rewrite (proj2 (Hnone _ _ _ _))); done.
  - assert (max_failed_slice < u64 l) as Hbig.
    { unfold max_failed_slice. rewrite (u64_neg l) by word. word. }
    subst r. unfold serveQueueFailed. rewrite Hq. simpl. unfold limit_of. rewrite Hl.
    destruct (String.eqb _ _); simpl; unfold failureLog_FindAll, failureLog_FindAllRecentFailures;
      by rewrite findAllByQuery_huge.
Qed.
End mysql_service.
