(* ===== verification/Api.v ===== *)
(** * The API from end to end

    Sequences of requests against a service, over any repository and driver that
    meet their contracts: a definition that was put is got back until it is
    deleted, and a job posted under a category reaches the queue its routing names,
    with the fields of the request. *)

From S2P Require Import Prelude GoStrings Job QueueSpec JobQueue Model Dispatcher FailureLog Inspector.
From S2P Require Import Repository Routings Service WebResponse Web.
Local Open Scope Z_scope.

Lemma set_repos_id {R W JQ} (s : Service R W JQ) : set_repos (sv_repos s) s = s.
Proof. by destruct s. Qed.

(** The payload of a job that was accepted is the decoded one. *)
Lemma accepted_payload unquote job c p :
  decoded_payload unquote (wj_PayloadField job) = Some p ->
  web_job_Payload unquote (wj_with_category c (wj_with_payload p job)) = p.
Proof.
  intros Hp. unfold web_job_Payload, DecodePayload. simpl. rewrite Hp. simpl. by case_bool_decide.
Qed.

(** The definition a valid request of a queue stands for. *)
Definition accepted_definition (conf : string -> string) (name : string) (d : Queue) : option Queue :=
  match check_throttle (with_name name d) with Ok q => fill_defaults conf q | Err _ => None end.

(** The job a queue receives for a request. *)
Definition delivered_job (category payload : string) (job : web_job) : IncomingJob := {|
  in_Category := category; in_URL := wj_URL job; in_Payload := payload;
  in_NextDelay := u64 (wj_RunAfter job * 1000); in_Timeout := wj_Timeout job; in_RetryDelay := wj_RetryDelay job;
  in_RetryCount := wj_MaxRetries job; in_FailureURL := wj_FailureURL job |}.

Section api.
Context {E R : Type} {repos : Repositories E R} {quiet : E -> Prop} {good : R -> Prop}
  {stored : Queue -> option Queue} {defs : R -> gmap string Queue} {rev : R -> Z}
  {spec : RepositoriesSpec repos quiet good stored defs rev}
  {coherent room : R -> Prop} {routes : R -> gmap string string} {routable : R -> string -> string -> Prop}
  {rspec : RoutingSpec repos quiet good defs rev coherent room routes routable}.
Context {QE W JQ : Type} {factory : QueueFactory QE W JQ} {views : QueueViews QE W JQ}.
Context (conf : string -> string) (conf_keys : list string) (Version : string).
Context (marshal : json_value -> result string string)
  (decode_job : string -> result string web_job)
  (decode_queue : string -> result string Queue)
  (decode_routing : string -> result string Routing)
  (json_unquote : string -> option string).
Context (stored_valid : forall q q', stored q = Some q' -> valid_throttle q -> valid_throttle q').

Local Abbreviation handle :=
  (app_handle conf conf_keys Version marshal decode_job decode_queue decode_routing json_unquote).
Local Abbreviation ok := (service_ok (good := good) (defs := defs)).

Lemma serve_get en req (s : Service R W JQ) :
  quiet (en_repo1 en) -> good (sv_repos s) -> rq_Method req = "GET" ->
  handle RQueue en req s = Some (s, match defs (sv_repos s) !! rq_var req "queue" with
    | Some q => reply marshal (JQueue q) | None => fail errNotFound end).
Proof.
  intros He Hg Hm. unfold app_handle, serveQueue. rewrite Hm. simpl.
  destruct (spec_FindByName (en_repo1 en) (sv_repos s) (rq_var req "queue") He Hg) as (err & ->).
  rewrite set_repos_id. by destruct (defs (sv_repos s) !! rq_var req "queue").
Qed.

(** A definition that passes the checks is added and its queue runs, or ran
    already. *)
Lemma addJobQueue_accepts e qe q q1 q2 q3 (s : Service R W JQ) :
  quiet e -> (forall w, is_Some (qf_Start qe w q2)) -> ok s -> rev (sv_repos s) < u64_max -> Name q <> EmptyString ->
  check_throttle q = Ok q1 -> fill_defaults conf q1 = Some q2 -> stored q2 = Some q3 -> MaxWorkers q2 <= max_job_chan ->
  exists s', addJobQueue conf e qe q s = Some (s', q2, None) /\ ok s' /\
    defs (sv_repos s') = <[Name q := q3]> (defs (sv_repos s)) /\ rev (sv_repos s') <= rev (sv_repos s) + 1.
Proof.
  intros He Hst Hs Hr Hn H1 H2 H3 Hw. destruct (check_throttle_valid _ _ H1) as [Hv1 Hn1].
  destruct (fill_defaults_valid conf _ _ H2 Hv1) as [Hv2 Hn2]. rewrite Hn1 in Hn2.
  destruct (repo_Add_ok stored_valid e (sv_repos s) q2 q3) as (r' & u & Ea & Hr' & Hd & Hu);
    [done|by apply service_repo_ok|by rewrite Hn2|done..|].
  unfold addJobQueue. rewrite H1, H2. simpl. rewrite Ea. rewrite Hn2 in Hd.
  assert (ok (set_repos r' s)) as Hs' by by apply service_ok_repos.
  destruct u.
  - destruct (putJobQueue_starts qe q2 (set_repos r' s) Hst Hw) as [s' Ep]. rewrite Ep. simpl. exists s'.
    destruct (putJobQueue_spec _ _ _ _ Ep) as (Er & _). rewrite Er. simpl.
    split_and!; [done|by eapply putJobQueue_ok|done|lia].
  - exists (set_repos r' s). simpl. split_and!; [done..|]. subst r'. lia.
Qed.

Lemma DeleteJobQueue_spec e qn (s : Service R W JQ) :
  quiet e -> ok s -> rev (sv_repos s) < u64_max ->
  exists s', DeleteJobQueue e qn s = (s', None) /\ ok s' /\
    defs (sv_repos s') = delete qn (defs (sv_repos s)) /\ getJobQueue qn s' = None.
Proof.
  intros He Hs Hr. pose proof (DeleteJobQueue_ok e qn s He Hs Hr) as Hok. revert Hok. unfold DeleteJobQueue.
  destruct (spec_DeleteByName e (sv_repos s) qn He (so_good _ Hs) Hr) as (r' & -> & _ & Hd & _).
  intros Hok. eexists. split; [reflexivity|]. split; [exact Hok|]. unfold stopJobQueue, getJobQueue. simpl.
  destruct (sv_runningQueues s !! qn) eqn:Eq; simpl; (split; [done|]); [by rewrite lookup_delete_eq|done].
Qed.

(** C26 (roundtrip): a valid definition that is put is answered by 200 with its
    defaults filled in; it is then got back as the repository stores it, until it is
    deleted; afterwards it is not found, and the queue does not run. *)
Theorem queue_put_get_delete en put get del (s : Service R W JQ) d q2 q3 :
  quiet (en_repo1 en) -> quiet (en_repo2 en) -> ok s -> rev (sv_repos s) + 2 <= u64_max ->
  rq_Method put = "PUT" -> rq_Method get = "GET" -> rq_Method del = "DELETE" ->
  rq_var get "queue" = rq_var put "queue" -> rq_var del "queue" = rq_var put "queue" -> rq_var put "queue" <> EmptyString ->
  decode_queue (rq_Body put) = Ok d -> accepted_definition conf (rq_var put "queue") d = Some q2 -> stored q2 = Some q3 -> MaxWorkers q2 <= max_job_chan ->
  (forall w, is_Some (qf_Start (en_queue1 en) w q2)) ->
  exists s1 s2, handle RQueue en put s = Some (s1, reply marshal (JQueue q2)) /\
    handle RQueue en get s1 = Some (s1, reply marshal (JQueue q3)) /\
    handle RQueue en del s1 = Some (s2, reply marshal (JQueue q3)) /\
    handle RQueue en get s2 = Some (s2, fail errNotFound) /\ getJobQueue (rq_var put "queue") s2 = None.
Proof.
  intros He1 He2 Hs Hr Hp Hg Hd Hgn Hdn Hn Hbody Hacc H3 Hw Hst. unfold accepted_definition in Hacc.
  destruct (check_throttle (with_name (rq_var put "queue") d)) as [q1|] eqn:H1; [|done].
  destruct (addJobQueue_accepts (en_repo2 en) (en_queue1 en) (with_name (rq_var put "queue") d) q1 q2 q3 s)
    as (s1 & Ea & Hs1 & Hd1 & Hr1); [done..|lia|done|done|done|done|done|].
  destruct (DeleteJobQueue_spec (en_repo2 en) (rq_var put "queue") s1) as (s2 & Ed & Hs2 & Hd2 & Hnone); [done|done|lia|].
  pose proof (so_good _ Hs1) as Hg1. pose proof (so_good _ Hs2) as Hg2.
  exists s1, s2. rewrite (serve_get en get s1), (serve_get en get s2), Hgn by done. split_and!; [| | | |done].
  - unfold app_handle, serveQueue. rewrite Hp. simpl. by rewrite Hbody, Ea.
  - rewrite Hd1. simpl. by rewrite lookup_insert_eq.
  - unfold app_handle, serveQueue. rewrite Hd. simpl. rewrite Hdn.
    destruct (spec_FindByName (en_repo1 en) (sv_repos s1) (rq_var put "queue") He1 (so_good _ Hs1)) as (err & ->).
    rewrite set_repos_id, Hd1. simpl. rewrite lookup_insert_eq. by rewrite Ed.
  - by rewrite Hd2, lookup_delete_eq.
Qed.

(** C24 (functional): after a routing of a category to a queue was put, a job
    posted under that category is delivered to that queue, which is started if it
    was not running, and to no other; the queue receives the URL, the times and the
    retries of the request and its payload decoded, and the answer names the queue
    and the identifier of the job. *)
Theorem job_follows_routing en put post (s : Service R W JQ) def job p w rq w' jq id :
  quiet (en_repo1 en) -> quiet (en_repo2 en) -> ok s -> coherent (sv_repos s) -> room (sv_repos s) ->
  rq_Method put = "PUT" -> decode_routing (rq_Body put) = Ok def -> rt_QueueName def <> EmptyString ->
  routable (sv_repos s) (rq_var put "category") (rt_QueueName def) ->
  rq_Method post = "POST" -> rq_var post "category" = rq_var put "category" ->
  decode_job (rq_Body post) = Ok job -> wj_URL job <> EmptyString ->
  decoded_payload json_unquote (wj_PayloadField job) = Some p ->
  push_queue (defs := defs) (en_queue1 en) (rt_QueueName def) s w rq ->
  qf_Push (en_queue2 en) w (rq_JobQueue rq) (delivered_job (rq_var put "category") p job) = Some (w', jq, Ok id) ->
  exists s1 s2,
    handle RRouting en put s = Some (s1, reply marshal (JRouting {|
      rt_QueueName := rt_QueueName def; rt_JobCategory := rq_var put "category" |})) /\
    handle RJob en post s1 = Some (s2, reply marshal (JPushResult {| pr_ID := id; pr_QueueName := rt_QueueName def |}
      (wj_with_category (rq_var put "category") (wj_with_payload p job)))) /\
    sv_runningQueues s2 = <[rt_QueueName def := {| rq_JobQueue := jq; rq_dispatcher := rq_dispatcher rq;
                                                   rq_definition := rq_definition rq |}]> (sv_runningQueues s).
Proof.
  intros He1 He2 Hs Hco Hro Hput Hdef Hqn Hrt Hpost Hc Hjob Hurl Hp Hpq Hpush.
  set (c := rq_var put "category") in *. set (qn := rt_QueueName def) in *.
  destruct (rt_Add (en_repo1 en) (sv_repos s) c qn He1 (so_good _ Hs) Hco Hro Hrt)
    as (r' & u & Ea & Hco' & Hg' & Hd' & Hrev' & Hroute & _).
  set (s1 := set_repos r' s). assert (ok s1) as Hs1.
  { apply service_ok_repos; [done|]. split; [done|]. rewrite Hd'. apply Hs. }
  assert (push_queue (defs := defs) (en_queue1 en) qn s1 w rq) as Hpq1.
  { destruct Hpq as [rq Hrq|q w rq Hnone Hq Hst]; [by apply (pq_running _ _ s1)|].
    apply (pq_started _ _ s1 q); [done| |done]. simpl. by rewrite Hd'. }
  destruct (Push_spec (en_repo1 en) (en_repo2 en) (en_queue1 en) (en_queue2 en)
    (web_job_IncomingJob json_unquote (wj_with_category c (wj_with_payload p job))) s1 Hs1 He1 He2) as (_ & _ & HP).
  assert (target (en_repo1 en) c s1 = qn) as Ht.
  { unfold target. cbn [first_nonempty]. rewrite (rt_Find _ _ Hco'), Hroute. by rewrite decide_False. }
  simpl in HP. rewrite Ht in HP. edestruct (HP Hqn w rq w' jq (Ok id) Hpq1) as (s2 & EP & _ & Em).
  { unfold web_job_IncomingJob. rewrite (accepted_payload _ _ _ _ Hp). exact Hpush. }
  exists s1, s2. split_and!; [| |exact Em].
  - unfold app_handle, serveRouting. rewrite Hput. simpl. rewrite Hdef. fold c. fold qn. by rewrite Ea.
  - unfold app_handle, serveJob. rewrite Hpost, Hjob. simpl. unfold DecodePayload. rewrite Hp. simpl.
    rewrite bool_decide_eq_false_2 by done. rewrite Hc. by rewrite EP.
Qed.
End api.
