(* ===== verification/ApiRuns.v ===== *)
(** * Runs of the API on MySQL

    A service with MySQL repositories and MySQL queues, started on two queue
    definitions and one routing, and requests to it: the witnesses of the theorems
    of [Web], [MySQLService] and [Api]. *)

From S2P Require Import Prelude GoStrings Job QueueSpec JobQueue MySQLTable MySQLQueue Model Dispatcher.
From S2P Require Import FailureLog Inspector MySQLNames Repository Routings Service ServiceRunning.
From S2P Require Import InMemoryService WebResponse Web MySQLService Api.
Local Open Scope Z_scope.

Module ApiRuns.
Import RepositoryRuns RoutingRuns.

(** No default queue. *)
Definition conf (key : string) : string := Config.GetDefault Config.initial_config key.

(** A database that answers at a time, with connection 7. *)
Definition at_time (now : Z) : server_env := {|
  se_open := Ok tt; se_wait_timeout := Some 28800; se_create_jobqueue := Ok tt; se_create_failure := Ok tt;
  se_alter := Err (MySQLError ER_DUP_FIELDNAME); se_open_pop := Ok 7;
  se_env := {| me_now := now; me_app_now := now; me_order _ l := l; me_fault _ := None; me_others t := t; me_commit := true |};
  se_failures l := l; se_log_now := now; se_process := Ok (Some ("7", "10.0.0.1:3306")) |}.

Definition marshal_Result (res : Result) : string := res_Message res.
Definition read_Result (s : string) : result string (option Result) := Ok None.
Definition json_valid (s : string) : bool := negb (String.eqb s EmptyString).
Definition json_quote (s : string) : string := s.
Definition idle (rq : runningQueue (jobQueue primaryBackup Z)) : dispatcher (QS := unit) (J := unit) := d_start tt.

#[local] Instance repos : Repositories (repo_env Qc) (mysql_repos Qc) := mysql_repositories keep_float read_float.
#[local] Instance queues : QueueFactory server_env (gmap string tables) (jobQueue primaryBackup Z) :=
  mysql_factory 0 Z.add "t" marshal_Result.
#[local] Instance views : QueueViews server_env (gmap string tables) (jobQueue primaryBackup Z) :=
  mysql_views id marshal_Result read_Result json_valid json_quote idle.

Local Abbreviation service := (Service (mysql_repos Qc) (gmap string tables) (jobQueue primaryBackup Z)).

(** A JSON library that knows the values of these runs. *)
Definition marshal (v : json_value) : result string string :=
  match v with
  | JQueue q => Ok (Name q)
  | JRouting r => Ok (rt_QueueName r)
  | JPushResult r _ => Ok (str (format_int (pr_ID r)))
  | JInspectedJob j => Ok (ij_URL j)
  | _ => Err "unsupported"
  end.

Definition posted (url : string) : web_job := {|
  wj_Category := EmptyString; wj_URL := url; wj_PayloadField := "{}"; wj_payloadField := EmptyString; wj_RunAfter := 2;
  wj_Timeout := 0; wj_RetryDelay := 0; wj_MaxRetries := 3; wj_FailureURL := EmptyString |}.

Definition decode_job (body : string) : result string web_job := Ok (posted body).
Definition decode_queue (body : string) : result string Queue := Ok (queue_named EmptyString 0 5).
Definition decode_routing (body : string) : result string Routing :=
  Ok {| rt_QueueName := body; rt_JobCategory := EmptyString |}.

Definition req (method body : string) (vars : list (string * string)) : request := {|
  rq_Method := method; rq_Body := body;
  rq_var key := default EmptyString ((list_to_map vars : gmap string string) !! key);
  rq_query key := default EmptyString ((list_to_map vars : gmap string string) !! key) |}.

Definition en : envs := {| en_repo1 := calm; en_repo2 := calm; en_queue1 := at_time 1000; en_queue2 := at_time 1000 |}.

Local Abbreviation handle := (app_handle conf [] "1" marshal decode_job decode_queue decode_routing Some).
Local Abbreviation serve := (app_serve conf [] "1" marshal decode_job decode_queue decode_routing Some).

(** The service started on [routed]: queues "a" and "b", a routing of "mail" to
    "a". *)
Definition nothing : service := {|
  sv_defaultQueueName := EmptyString; sv_repos := routed; sv_world := ∅; sv_runningQueues := ∅; sv_queueW := 0; sv_routingW := 0 |}.
Definition s0 : service := default nothing (NewService conf calm calm calm (at_time 1000) routed ∅).

Local Abbreviation reachable := (service_reachable (quiet := repo_quiet) (good := mysql_good)
  (stored := mysql_stored keep_float read_float) (defs := fun s => mysql_defs read_float (mr_db s))
  (rev := fun s => mysql_rev (mr_db s)) conf).

Lemma mysql_stored_valid q q' :
  mysql_stored keep_float read_float q = Some q' -> valid_throttle q -> valid_throttle q'.
Proof.
  unfold mysql_stored, keep_float, read_float. destruct (Qclt_le_dec _ _); [done|]. simpl. case_match; [|done].
  by intros [= <-].
Qed.

(** A property of every definition of a repository, by evaluation. *)
Lemma defs_check (P : Queue -> Prop) (f : Queue -> bool) (m : gmap string Queue) :
  (forall q, f q = true -> P q) -> forallb (fun p => f p.2) (map_to_list m) = true ->
  forall name q, m !! name = Some q -> P q.
Proof.
  rewrite forallb_forall. intros Hf H name q Hq. apply elem_of_map_to_list, list_elem_of_In, H in Hq. by apply Hf.
Qed.

Lemma unthrottled q :
  (if Qc_eq_dec (MaxDispatchesPerSecond q) 0 then true else false) && (MaxBurstSize q =? 0) = true -> valid_throttle q.
Proof. destruct (Qc_eq_dec _ _); [|done]. intros H%Z.eqb_eq. by right. Qed.

Lemma routed_ok : repo_ok (good := mysql_good) (defs := fun s => mysql_defs read_float (mr_db s)) routed.
Proof.
  split; [vm_compute; discriminate|]. refine (defs_check _ _ (mysql_defs read_float (mr_db routed)) unthrottled _).
  vm_compute. reflexivity.
Qed.

Lemma routed_startable : all_startable (defs := fun s => mysql_defs read_float (mr_db s)) routed.
Proof.
  refine (defs_check _ (fun q => MaxWorkers q <=? max_job_chan) (mysql_defs read_float (mr_db routed)) _ _).
  - intros q. apply Z.leb_le.
  - vm_compute. reflexivity.
Qed.

Lemma nothing_ok : service_ok (good := mysql_good) (defs := fun s => mysql_defs read_float (mr_db s)) nothing.
Proof.
  destruct routed_ok as [Hg Hd]. split; [exact Hg|exact Hd|]. intros name rq. simpl. by rewrite lookup_empty.
Qed.

Lemma api_reachable_s0 : reachable s0.
Proof.
  refine (sr_new conf calm calm calm (at_time 1000) routed ∅ s0 calm_quiet calm_quiet routed_ok _ routed_startable _).
  - vm_compute. reflexivity.
  - vm_compute. reflexivity.
Qed.

Definition response_of (o : option (service * response)) : option response := snd <$> o.

Lemma app_responses_well_formed_witness :
  exists s' resp o, serve true RQueueJob en (req "GET" EmptyString [("queue", "a"); ("id", "5")]) s0 = Some (s', resp) /\
    rs_status resp = 404 /\ response_ok true o resp.
Proof.
  pose (r := serve true RQueueJob en (req "GET" EmptyString [("queue", "a"); ("id", "5")]) s0).
  assert (rs_status <$> response_of r = Some 404) as Hst by (vm_compute; reflexivity).
  destruct r as [[s' resp]|] eqn:Er; [|discriminate Hst].
  destruct (app_responses_well_formed conf [] "1" marshal decode_job decode_queue decode_routing Some true RQueueJob en
    (req "GET" EmptyString [("queue", "a"); ("id", "5")]) s0 s' resp Er) as (o & _ & Ho & _).
  exists s', resp, o. split; [exact Er|]. split; [|exact Ho]. simpl in Hst. congruence.
Defined.

Lemma queue_put_get_delete_witness :
  let put := req "PUT" EmptyString [("queue", "new")] in
  let get := req "GET" EmptyString [("queue", "new")] in
  let del := req "DELETE" EmptyString [("queue", "new")] in
  exists s1 s2, handle RQueue en put nothing = Some (s1, reply marshal (JQueue (queue_named "new" 20 5))) /\
    handle RQueue en get s1 = Some (s1, reply marshal (JQueue (queue_named "new" 20 5))) /\
    handle RQueue en del s1 = Some (s2, reply marshal (JQueue (queue_named "new" 20 5))) /\
    handle RQueue en get s2 = Some (s2, fail errNotFound).
Proof.
  intros put get del.
  destruct (queue_put_get_delete (spec := mysql_repositories_spec keep_float read_float)
    conf [] "1" marshal decode_job decode_queue decode_routing Some mysql_stored_valid
    en put get del nothing (queue_named EmptyString 0 5) (queue_named "new" 20 5)
    (queue_named "new" 20 5) calm_quiet calm_quiet nothing_ok) as (s1 & s2 & H1 & H2 & H3 & H4 & _).
  - vm_compute. discriminate.
  - reflexivity.
  - reflexivity.
  - reflexivity.
  - reflexivity.
  - reflexivity.
  - discriminate.
  - reflexivity.
  - vm_compute. reflexivity.
  - vm_compute. reflexivity.
  - vm_compute. discriminate.
  - intros w. simpl. eexists. reflexivity.
  - exists s1, s2. split; [exact H1|]. split; [exact H2|]. split; [exact H3|exact H4].
Defined.
(** The queue a name runs in a service. *)
Definition running_in (name : string) (s : service) : runningQueue (jobQueue primaryBackup Z) :=
  default {| rq_JobQueue := jobQueue_Start 0 EmptyString 0 {| pb_jobQueue := newJobQueue EmptyString empty_tables; pb_active := 0 |};
             rq_dispatcher := {| c_bufferSize := 0; c_maxWorkers := 0; c_limit := None; c_burst := 0; c_interval := 0 |};
             rq_definition := queue_named EmptyString 0 0 |} (sv_runningQueues s !! name).

Definition b : Queue := {|
  Name := "b"; PollingInterval := 100; MaxWorkers := 1; MaxDispatchesPerSecond := 0%Qc; MaxBurstSize := 0 |}.
Definition b_world : gmap string tables := from_option fst ∅ (startJobQueue (at_time 1000) ∅ b).
Definition b_running : runningQueue (jobQueue primaryBackup Z) :=
  from_option snd (running_in "b" nothing) (startJobQueue (at_time 1000) ∅ b).
Definition b_job : IncomingJob := {|
  in_Category := "mail"; in_URL := "http://w/"; in_Payload := "{}"; in_NextDelay := 2000; in_Timeout := 0;
  in_RetryDelay := 0; in_RetryCount := 3; in_FailureURL := EmptyString |}.
Definition b_pushed : option (gmap string tables * jobQueue primaryBackup Z * result QueueError Z) :=
  qf_Push (at_time 1000) b_world (rq_JobQueue b_running) b_job.

Lemma job_follows_routing_witness :
  exists s1 s2, handle RRouting en (req "PUT" "b" [("category", "mail")]) nothing =
      Some (s1, reply marshal (JRouting {| rt_QueueName := "b"; rt_JobCategory := "mail" |})) /\
    handle RJob en (req "POST" "http://w/" [("category", "mail")]) s1 = Some (s2, (writeJSON "1" rb_new, None)).
Proof.
  assert (snd <$> b_pushed = Some (Ok 1)) as Hp by (vm_compute; reflexivity).
  destruct b_pushed as [[[w' jq] r]|] eqn:Eb; [|discriminate Hp]. assert (r = Ok 1) as -> by (simpl in Hp; congruence).
  destruct (job_follows_routing (spec := mysql_repositories_spec keep_float read_float)
    (rspec := mysql_routing_spec keep_float read_float) conf [] "1" marshal decode_job decode_queue decode_routing Some
    en (req "PUT" "b" [("category", "mail")]) (req "POST" "http://w/" [("category", "mail")]) nothing
    {| rt_QueueName := "b"; rt_JobCategory := EmptyString |} (posted "http://w/") "{}" b_world b_running w' jq 1
    calm_quiet calm_quiet nothing_ok) as (s1 & s2 & H1 & H2 & _).
  - reflexivity.
  - vm_compute. reflexivity.
  - reflexivity.
  - reflexivity.
  - discriminate.
  - split; [reflexivity|]. split; [reflexivity|]. eexists. vm_compute. reflexivity.
  - reflexivity.
  - reflexivity.
  - reflexivity.
  - discriminate.
  - reflexivity.
  - apply (pq_started _ _ nothing b); [reflexivity|vm_compute; reflexivity|].
    unfold b_world, b_running. destruct (startJobQueue (at_time 1000) ∅ b) as [[w rq]|] eqn:Es; [exact Es|].
    exfalso. revert Es. vm_compute. discriminate.
  - exact Eb.
  - exists s1, s2. split; [exact H1|exact H2].
Defined.

Lemma negative_limit_panics_witness :
  serve true RQueueWaiting en (req "GET" EmptyString [("queue", "a"); ("limit", "-2")]) s0 = None.
Proof.
  apply (negative_limit_panics 0 Z.add id "t" marshal_Result read_Result json_valid json_quote conf idle marshal [] "1"
    decode_job decode_queue decode_routing Some true RQueueWaiting en
    (req "GET" EmptyString [("queue", "a"); ("limit", "-2")]) s0 (running_in "a" s0) (-2)).
  - vm_compute. reflexivity.
  - vm_compute. reflexivity.
  - left. split; [right; left; reflexivity|lia].
Defined.

(** A job pushed to queue "a". *)
Definition s1 : service := from_option fst nothing (Push calm calm (at_time 1000) (at_time 1000) b_job s0).

Lemma pushed_job_inspected_witness :
  handle RQueueJob en (req "GET" EmptyString [("queue", "a"); ("id", "1")]) s1 =
    Some (s1, (writeJSON "http://w/" rb_new, None)).
Proof.
  assert (snd <$> Push calm calm (at_time 1000) (at_time 1000) b_job s0 =
    Some (Ok {| pr_ID := 1; pr_QueueName := "a" |})) as Hp by (vm_compute; reflexivity).
  unfold s1. destruct (Push calm calm (at_time 1000) (at_time 1000) b_job s0) as [[s' r]|] eqn:Ep; [|discriminate Hp].
  assert (r = Ok {| pr_ID := 1; pr_QueueName := "a" |}) as Hr by (simpl in Hp; congruence). subst r.
  refine (pushed_job_inspected (spec := mysql_repositories_spec keep_float read_float) 0 Z.add id "t" marshal_Result
    read_Result json_valid json_quote conf idle marshal [] "1" decode_job decode_queue decode_routing Some
    calm calm (at_time 1000) (at_time 1000) b_job s0 s' {| pr_ID := 1; pr_QueueName := "a" |} en
    (req "GET" EmptyString [("queue", "a"); ("id", "1")]) api_reachable_s0 _ calm_quiet calm_quiet Ep _ eq_refl _ _ _).
  - vm_compute. discriminate.
  - vm_compute. discriminate.
  - discriminate.
  - reflexivity.
  - vm_compute. reflexivity.
Defined.
End ApiRuns.
