(* ===== verification/SqlTemplates.v ===== *)
(** * The texts of the statements of a MySQL queue (src/jobqueue/mysql/sql.go)

    The statements are templates, embedded in the program from the files of
    src/data/jobqueue/mysql, in which the names of the two tables of a queue are filled
    in.  This file has those texts, the part of text/template they use (text and
    fields of the data) and the functions of sql.go that load and fill the
    templates.  What the texts mean is the matter of [Sql] and [SqlStatements]. *)

From Stdlib Require Import Ascii.
From S2P Require Import Prelude GoStrings Model MySQLNames.
Local Open Scope Z_scope.

(** ** Templates *)

(** A parsed template: literal text, or a field of the data. *)
Inductive node := NText (s : string) | NField (field : string).

Definition template := list node.

Definition is_lower (a : ascii) : bool := byte_in 97 122 a.
Definition is_upper (a : ascii) : bool := byte_in 65 90 a.
Definition is_letter (a : ascii) : bool := is_lower a || is_upper a || Ascii.eqb a "_"%char.

(** The action [{{.Field}}]; no other action occurs in the templates of this
    package, and none is accepted here. *)
Definition parse_action (l : list ascii) : option string :=
  match l with
  | dot :: (c :: _) as name =>
      if Ascii.eqb dot "."%char && forallb (fun a => is_letter a || is_digit a) name && is_letter c
      then Some (str name) else None
  | _ => None
  end.

Definition text_node (acc : list ascii) : list node :=
  match acc with [] => [] | _ => [NText (str (rev acc))] end.

(** [template.Parse]: [acc] holds, reversed, the text or the action read so far;
    an action that is not closed is an error. *)
Fixpoint template_parse (action : bool) (acc : list ascii) (l : list ascii) : option template :=
  match l with
  | [] => if action then None else Some (text_node acc)
  | a :: l' =>
      let other := template_parse action (a :: acc) l' in
      match l' with
      | b :: l'' =>
          if action then
            if Ascii.eqb a "}"%char && Ascii.eqb b "}"%char then
              f ← parse_action (rev acc);
              rest ← template_parse false [] l'';
              Some (NField f :: rest)
            else other
          else
            if Ascii.eqb a "{"%char && Ascii.eqb b "{"%char then
              rest ← template_parse true [] l'';
              Some (text_node acc ++ rest)
            else other
      | [] => other
      end
  end.

(** Fields of the data, here of a [tableName]; another field is an error. *)
Definition field_value (tn : tableName) (f : string) : option string :=
  if String.eqb f "JobQueue" then Some (tn_JobQueue tn)
  else if String.eqb f "Payload" then Some (tn_Payload tn)
  else if String.eqb f "Failure" then Some (tn_Failure tn)
  else None.

(** [tmpl.Execute(buffer, tn)]: what was written, and whether it succeeded; an
    error leaves what was written before it. *)
Fixpoint Execute (tmpl : template) (tn : tableName) : string * bool :=
  match tmpl with
  | [] => (EmptyString, true)
  | NText s :: tmpl => let '(out, ok) := Execute tmpl tn in (s +:+ out, ok)
  | NField f :: tmpl =>
      match field_value tn f with
      | None => (EmptyString, false)
      | Some v => let '(out, ok) := Execute tmpl tn in (v +:+ out, ok)
      end
  end.

(** ** The embedded files *)

(** data/jobqueue/mysql/schema/job_queue.sql *)
Definition job_queue_sql : string := "CREATE TABLE IF NOT EXISTS `{{.JobQueue}}` (
  `job_id` BIGINT UNSIGNED NOT NULL AUTO_INCREMENT,
  `next_try` BIGINT UNSIGNED NOT NULL,
  `grabber_id` BIGINT UNSIGNED,
  `status` ENUM('claimed', 'grabbed') NOT NULL DEFAULT 'claimed',
  `created_at` BIGINT UNSIGNED NOT NULL,
  `retry_count` INT UNSIGNED NOT NULL DEFAULT 0,
  `retry_delay` INT UNSIGNED NOT NULL DEFAULT 0,
  `fail_count` INT UNSIGNED NOT NULL DEFAULT 0,

  `category` VARCHAR(255) NOT NULL,
  `url` BLOB,
  `payload` MEDIUMBLOB,
  `timeout` INT UNSIGNED,
  `failure_url` BLOB,

  PRIMARY KEY (`job_id`),
  KEY `grab` (`status`, `next_try`)
) ENGINE=InnoDB DEFAULT CHARSET=binary;
".

(** data/jobqueue/mysql/schema/job_failure.sql *)
Definition job_failure_sql : string := "CREATE TABLE IF NOT EXISTS `{{.Failure}}` (
  `failure_id` BIGINT UNSIGNED NOT NULL AUTO_INCREMENT,
  `job_id` BIGINT UNSIGNED NOT NULL,
  `category` VARCHAR(255) NOT NULL,
  `url` BLOB,
  `payload` MEDIUMBLOB,
  `result` MEDIUMBLOB,
  `fail_count` INT UNSIGNED NOT NULL,
  `failed_at` BIGINT UNSIGNED NOT NULL,
  `created_at` BIGINT UNSIGNED NOT NULL,
  PRIMARY KEY (`failure_id`),
  KEY `creation_order` (`created_at`)
) ENGINE=InnoDB DEFAULT CHARSET=binary;
".

(** data/jobqueue/mysql/query/grab_jobs.sql *)
Definition grab_jobs_sql : string := "SELECT job_id FROM `{{.JobQueue}}`
WHERE status = 'claimed'
  AND next_try <= FLOOR(UNIX_TIMESTAMP(CURRENT_TIME(3)) * 1000)
ORDER BY next_try ASC
LIMIT
".

(** data/jobqueue/mysql/query/grabbed_jobs.sql *)
Definition grabbed_jobs_sql : string := "SELECT job_id, category, url, payload, next_try, status, created_at, retry_count, retry_delay, fail_count, timeout, failure_url
  FROM `{{.JobQueue}}`
WHERE status = ? AND job_id IN
".

(** data/jobqueue/mysql/query/launch_jobs.sql *)
Definition launch_jobs_sql : string := "UPDATE `{{.JobQueue}}`
SET status = 'grabbed', grabber_id = CONNECTION_ID()
WHERE job_id IN
".

(** data/jobqueue/mysql/query/insert_job.sql *)
Definition insert_job_sql : string := "INSERT INTO `{{.JobQueue}}` (next_try, created_at, retry_count, retry_delay, fail_count, category, url, payload, timeout, failure_url)
VALUES (FLOOR(UNIX_TIMESTAMP(CURRENT_TIME(3)) * 1000) + ?, FLOOR(UNIX_TIMESTAMP(CURRENT_TIME(3)) * 1000), ?, ?, ?, ?, ?, ?, ?, ?)
".

(** data/jobqueue/mysql/query/insert_failed_job.sql *)
Definition insert_failed_job_sql : string := "INSERT INTO `{{.Failure}}` (job_id, category, url, payload, result, fail_count, failed_at, created_at)
VALUES (?, ?, ?, ?, ?, ?, ?, ?)
".

(** data/jobqueue/mysql/query/delete_failed_job.sql *)
Definition delete_failed_job_sql : string := "DELETE FROM `{{.Failure}}`
WHERE failure_id = ?
".

(** data/jobqueue/mysql/query/delete_job.sql *)
Definition delete_job_sql : string := "DELETE FROM `{{.JobQueue}}`
WHERE job_id = ?
".

(** data/jobqueue/mysql/query/update_job.sql *)
Definition update_job_sql : string := "UPDATE `{{.JobQueue}}`
SET grabber_id = NULL, status = 'claimed',
	next_try = FLOOR(UNIX_TIMESTAMP(CURRENT_TIME(3)) * 1000) + ?, retry_count = ?, fail_count = ?
WHERE job_id = ?
".

(** data/jobqueue/mysql/query/orphan_jobs.sql *)
Definition orphan_jobs_sql : string := "SELECT job_id FROM `{{.JobQueue}}`
WHERE status = 'grabbed' AND grabber_id != CONNECTION_ID()
LIMIT 1000
".

(** data/jobqueue/mysql/query/recover_jobs.sql *)
Definition recover_jobs_sql : string := "UPDATE `{{.JobQueue}}` USE INDEX (PRIMARY)
SET status = 'claimed',
    grabber_id = NULL
WHERE status = 'grabbed' AND grabber_id != CONNECTION_ID() AND job_id IN
".

(** data/jobqueue/mysql/query/inspect_job.sql *)
Definition inspect_job_sql : string := "SELECT job_id, category, url, payload, next_try, status, created_at, retry_count, retry_delay, fail_count, timeout, failure_url FROM `{{.JobQueue}}`
WHERE job_id = ?
".

(** data/jobqueue/mysql/query/inspect_jobs.sql *)
Definition inspect_jobs_sql : string := "SELECT job_id FROM `{{.JobQueue}}`
WHERE status = ?
  AND next_try > ?
  AND next_try <= ?
  AND job_id <= ?
ORDER BY next_try DESC, job_id DESC LIMIT
".

(** data/jobqueue/mysql/query/inspect_jobs_asc.sql *)
Definition inspect_jobs_asc_sql : string := "SELECT job_id FROM `{{.JobQueue}}`
WHERE status = ?
  AND next_try >= ?
  AND next_try < ?
  AND job_id >= ?
ORDER BY next_try ASC, job_id ASC LIMIT
".

(** data/jobqueue/mysql/query/failed_job.sql *)
Definition failed_job_sql : string := "SELECT failure_id, job_id, category, url, payload, result, fail_count, failed_at, created_at FROM `{{.Failure}}`
WHERE failure_id = ?
".

(** data/jobqueue/mysql/query/failed_jobs.sql *)
Definition failed_jobs_sql : string := "SELECT failure_id, job_id, category, url, payload, result, fail_count, failed_at, created_at FROM `{{.Failure}}`
WHERE created_at <= ? AND (created_at != ? OR failure_id <= ?)
ORDER BY created_at DESC, failure_id DESC LIMIT
".

(** data/jobqueue/mysql/query/recently_failed_jobs.sql *)
Definition recently_failed_jobs_sql : string := "SELECT failure_id, job_id, category, url, payload, result, fail_count, failed_at, created_at FROM `{{.Failure}}`
WHERE ? = ? AND failure_id <= ?
ORDER BY failure_id DESC LIMIT
".

(** data/jobqueue/mysql/query/alter_add_failure_url.sql *)
Definition alter_add_failure_url_sql : string := "ALTER TABLE `{{.JobQueue}}` ADD COLUMN `failure_url` BLOB
".

(** [Assets]: path and content of each embedded file. *)
Definition Assets : list (string * string) := [
  ("/data/jobqueue/mysql/schema/job_queue.sql", job_queue_sql);
  ("/data/jobqueue/mysql/schema/job_failure.sql", job_failure_sql);
  ("/data/jobqueue/mysql/query/grab_jobs.sql", grab_jobs_sql);
  ("/data/jobqueue/mysql/query/grabbed_jobs.sql", grabbed_jobs_sql);
  ("/data/jobqueue/mysql/query/launch_jobs.sql", launch_jobs_sql);
  ("/data/jobqueue/mysql/query/insert_job.sql", insert_job_sql);
  ("/data/jobqueue/mysql/query/insert_failed_job.sql", insert_failed_job_sql);
  ("/data/jobqueue/mysql/query/delete_failed_job.sql", delete_failed_job_sql);
  ("/data/jobqueue/mysql/query/delete_job.sql", delete_job_sql);
  ("/data/jobqueue/mysql/query/update_job.sql", update_job_sql);
  ("/data/jobqueue/mysql/query/orphan_jobs.sql", orphan_jobs_sql);
  ("/data/jobqueue/mysql/query/recover_jobs.sql", recover_jobs_sql);
  ("/data/jobqueue/mysql/query/inspect_job.sql", inspect_job_sql);
  ("/data/jobqueue/mysql/query/inspect_jobs.sql", inspect_jobs_sql);
  ("/data/jobqueue/mysql/query/inspect_jobs_asc.sql", inspect_jobs_asc_sql);
  ("/data/jobqueue/mysql/query/failed_job.sql", failed_job_sql);
  ("/data/jobqueue/mysql/query/failed_jobs.sql", failed_jobs_sql);
  ("/data/jobqueue/mysql/query/recently_failed_jobs.sql", recently_failed_jobs_sql);
  ("/data/jobqueue/mysql/query/alter_add_failure_url.sql", alter_add_failure_url_sql) ].

Fixpoint Assets_Open (assets : list (string * string)) (path : string) : result string string :=
  match assets with
  | [] => Err "file does not exist"
  | (p, content) :: assets => if String.eqb p path then Ok content else Assets_Open assets path
  end.

(** ** Loading and filling *)

(** A panic is [None]. *)
Definition mustLoadTemplate (assets : list (string * string)) (name : string) : option template :=
  match Assets_Open assets ("/data/jobqueue/mysql/" +:+ name +:+ ".sql") with
  | Err _ => None
  | Ok buf => template_parse false [] (chars buf)
  end.

(** The variables of the package, set by [init]. *)
Record templates := {
  tmplCreateJobqueue : template;
  tmplCreateFailure : template;
  tmplGrabJobs : template;
  tmplGrabbedJobs : template;
  tmplLaunchJobs : template;
  tmplInsertJob : template;
  tmplInsertFailedJob : template;
  tmplDeleteFailedJob : template;
  tmplDeleteJob : template;
  tmplUpdateJob : template;
  tmplOrphanJobs : template;
  tmplRecoverJobs : template;
  tmplInspectJob : template;
  tmplInspectJobs : template;
  tmplInspectJobsAsc : template;
  tmplFailedJob : template;
  tmplFailedJobs : template;
  tmplRecentlyFailedJobs : template;
  tmplAlterAddFailureURL : template;
}.

Definition sql_init (assets : list (string * string)) : option templates :=
  tmplCreateJobqueue ← mustLoadTemplate assets "schema/job_queue";
  tmplCreateFailure ← mustLoadTemplate assets "schema/job_failure";
  tmplGrabJobs ← mustLoadTemplate assets "query/grab_jobs";
  tmplGrabbedJobs ← mustLoadTemplate assets "query/grabbed_jobs";
  tmplLaunchJobs ← mustLoadTemplate assets "query/launch_jobs";
  tmplInsertJob ← mustLoadTemplate assets "query/insert_job";
  tmplInsertFailedJob ← mustLoadTemplate assets "query/insert_failed_job";
  tmplDeleteFailedJob ← mustLoadTemplate assets "query/delete_failed_job";
  tmplDeleteJob ← mustLoadTemplate assets "query/delete_job";
  tmplUpdateJob ← mustLoadTemplate assets "query/update_job";
  tmplOrphanJobs ← mustLoadTemplate assets "query/orphan_jobs";
  tmplRecoverJobs ← mustLoadTemplate assets "query/recover_jobs";
  tmplInspectJob ← mustLoadTemplate assets "query/inspect_job";
  tmplInspectJobs ← mustLoadTemplate assets "query/inspect_jobs";
  tmplInspectJobsAsc ← mustLoadTemplate assets "query/inspect_jobs_asc";
  tmplFailedJob ← mustLoadTemplate assets "query/failed_job";
  tmplFailedJobs ← mustLoadTemplate assets "query/failed_jobs";
  tmplRecentlyFailedJobs ← mustLoadTemplate assets "query/recently_failed_jobs";
  tmplAlterAddFailureURL ← mustLoadTemplate assets "query/alter_add_failure_url";
  Some {|
    tmplCreateJobqueue := tmplCreateJobqueue;
    tmplCreateFailure := tmplCreateFailure;
    tmplGrabJobs := tmplGrabJobs;
    tmplGrabbedJobs := tmplGrabbedJobs;
    tmplLaunchJobs := tmplLaunchJobs;
    tmplInsertJob := tmplInsertJob;
    tmplInsertFailedJob := tmplInsertFailedJob;
    tmplDeleteFailedJob := tmplDeleteFailedJob;
    tmplDeleteJob := tmplDeleteJob;
    tmplUpdateJob := tmplUpdateJob;
    tmplOrphanJobs := tmplOrphanJobs;
    tmplRecoverJobs := tmplRecoverJobs;
    tmplInspectJob := tmplInspectJob;
    tmplInspectJobs := tmplInspectJobs;
    tmplInspectJobsAsc := tmplInspectJobsAsc;
    tmplFailedJob := tmplFailedJob;
    tmplFailedJobs := tmplFailedJobs;
    tmplRecentlyFailedJobs := tmplRecentlyFailedJobs;
    tmplAlterAddFailureURL := tmplAlterAddFailureURL;
  |}.

Record sqls := {
  q_createJobqueue : string;
  q_createFailure : string;
  q_grab : string;
  q_grabbed : string;
  q_launch : string;
  q_insertJob : string;
  q_insertFailedJob : string;
  q_deleteFailedJob : string;
  q_deleteJob : string;
  q_updateJob : string;
  q_orphan : string;
  q_recover : string;
  q_inspectJob : string;
  q_inspectJobs : string;
  q_inspectJobsAsc : string;
  q_failedJob : string;
  q_failedJobs : string;
  q_recentlyFailedJobs : string;
  q_alterAddFailureURL : string;
}.

(** [tn.makeQuery(tmpl)]: an error of [Execute] is ignored. *)
Definition makeQuery (tn : tableName) (tmpl : template) : string := fst (Execute tmpl tn).

Definition makeQueries (tm : templates) (tn : tableName) : sqls := {|
  q_createJobqueue := makeQuery tn (tmplCreateJobqueue tm);
  q_createFailure := makeQuery tn (tmplCreateFailure tm);
  q_grab := makeQuery tn (tmplGrabJobs tm);
  q_grabbed := makeQuery tn (tmplGrabbedJobs tm);
  q_launch := makeQuery tn (tmplLaunchJobs tm);
  q_insertJob := makeQuery tn (tmplInsertJob tm);
  q_insertFailedJob := makeQuery tn (tmplInsertFailedJob tm);
  q_deleteFailedJob := makeQuery tn (tmplDeleteFailedJob tm);
  q_deleteJob := makeQuery tn (tmplDeleteJob tm);
  q_updateJob := makeQuery tn (tmplUpdateJob tm);
  q_orphan := makeQuery tn (tmplOrphanJobs tm);
  q_recover := makeQuery tn (tmplRecoverJobs tm);
  q_inspectJob := makeQuery tn (tmplInspectJob tm);
  q_inspectJobs := makeQuery tn (tmplInspectJobs tm);
  q_inspectJobsAsc := makeQuery tn (tmplInspectJobsAsc tm);
  q_failedJob := makeQuery tn (tmplFailedJob tm);
  q_failedJobs := makeQuery tn (tmplFailedJobs tm);
  q_recentlyFailedJobs := makeQuery tn (tmplRecentlyFailedJobs tm);
  q_alterAddFailureURL := makeQuery tn (tmplAlterAddFailureURL tm);
|}.
