(* ===== verification/Sql.v ===== *)
(** * The SQL of the program

    A lexer, a parser and a semantics for the part of MySQL's SQL that the
    statements of src/data/jobqueue/mysql use, as its reference manual describes it:
    SELECT, INSERT, UPDATE and DELETE on one table, CREATE TABLE IF NOT EXISTS and
    ADD COLUMN.  Comparisons with NULL are NULL, WHERE keeps the rows whose
    condition is neither NULL nor zero, assignments check the ranges of columns (the
    strict mode, which is the default), and a failing statement changes nothing.
    The storage engine returns rows in an order of its own, an argument.  What the
    statements of the program do not use is refused as a syntax error. *)

From Stdlib Require Import Ascii.
From S2P Require Import Prelude GoStrings MySQLQueue MySQLNames SqlTemplates.
Local Open Scope Z_scope.

(** ** Lexer *)

Inductive token :=
| TWord (s : string)      (* keyword or name *)
| TQuoted (s : string)    (* name in backquotes *)
| TText (s : string)      (* string literal *)
| TNum (n : Z)
| TParam (k : nat)        (* placeholder, with its position *)
| TIn (ks : list nat)     (* IN and a list of placeholders *)
| TSym (s : string).

(** What is being read, with the characters read so far in reverse. *)
Inductive lex_mode :=
| MStart
| MWord (acc : list ascii)
| MQuoted (acc : list ascii)
| MText (acc : list ascii)
| MOp (a : ascii).        (* an operator that may continue with [=] *)

Definition is_space (a : ascii) : bool :=
  Ascii.eqb a " "%char || Ascii.eqb a "009"%char || Ascii.eqb a "010"%char || Ascii.eqb a "013"%char.

Definition word_char (a : ascii) : bool := is_letter a || is_digit a.

(** A word of digits is a number. *)
Definition word_token (acc : list ascii) : option token :=
  let w := rev acc in
  if forallb is_digit w then TNum <$> parse_digits 0 w else Some (TWord (str w)).

(** A character between tokens. *)
Definition lex_start (a : ascii) : option (list token * lex_mode) :=
  if is_space a then Some ([], MStart)
  else if word_char a then Some ([], MWord [a])
  else if Ascii.eqb a "`"%char then Some ([], MQuoted [])
  else if Ascii.eqb a "'"%char then Some ([], MText [])
  else if Ascii.eqb a "?"%char then Some ([TParam 0], MStart)
  else if Ascii.eqb a "<"%char || Ascii.eqb a ">"%char || Ascii.eqb a "!"%char then Some ([], MOp a)
  else if existsb (Ascii.eqb a) (chars "(),=+*;") then Some ([TSym (str [a])], MStart)
  else None.

(** The token a mode ends with, when another character follows. *)
Definition lex_end (m : lex_mode) : option (list token) :=
  match m with
  | MStart => Some []
  | MWord acc => t ← word_token acc; Some [t]
  | MOp a => if Ascii.eqb a "!"%char then None else Some [TSym (str [a])]
  | MQuoted _ | MText _ => None
  end.

Definition lex_char (m : lex_mode) (a : ascii) : option (list token * lex_mode) :=
  let ended := ts ← lex_end m; '(ts', m') ← lex_start a; Some (ts ++ ts', m') in
  match m with
  | MStart => lex_start a
  | MWord acc => if word_char a then Some ([], MWord (a :: acc)) else ended
  | MQuoted acc =>
      if Ascii.eqb a "`"%char then Some ([TQuoted (str (rev acc))], MStart) else Some ([], MQuoted (a :: acc))
  | MText acc =>
      if Ascii.eqb a "'"%char then Some ([TText (str (rev acc))], MStart) else Some ([], MText (a :: acc))
  | MOp b => if Ascii.eqb a "="%char then Some ([TSym (str [b; a])], MStart) else ended
  end.

Fixpoint lex_run (m : lex_mode) (l : list ascii) : option (list token * lex_mode) :=
  match l with
  | [] => Some ([], m)
  | a :: l =>
      '(ts, m1) ← lex_char m a;
      '(ts', m2) ← lex_run m1 l;
      Some (ts ++ ts', m2)
  end.

(** Placeholders are numbered from the left. *)
Fixpoint number_params (k : nat) (ts : list token) : list token :=
  match ts with
  | [] => []
  | TParam _ :: ts => TParam k :: number_params (S k) ts
  | t :: ts => t :: number_params k ts
  end.

(** Placeholders up to the closing parenthesis: the lists of IN. *)
Fixpoint params (ts : list token) : option (list nat * list token) :=
  match ts with
  | TParam k :: TSym s :: ts =>
      if String.eqb s ")" then Some ([k], ts)
      else if String.eqb s "," then '(l, ts) ← params ts; Some (k :: l, ts)
      else None
  | _ => None
  end.

(** IN with its list becomes one token. *)
Fixpoint group_in (ts : list token) : list token :=
  match ts with
  | [] => []
  | TWord "IN" :: ts =>
      match group_in ts with
      | TSym "(" :: ts' =>
          match params ts' with
          | Some (ks, rest) => TIn ks :: rest
          | None => TWord "IN" :: TSym "(" :: ts'
          end
      | ts' => TWord "IN" :: ts'
      end
  | t :: ts => t :: group_in ts
  end.

Definition sql_lex (text : string) : option (list token) :=
  '(ts, m) ← lex_run MStart (chars text);
  ts' ← lex_end m;
  Some (group_in (number_params 0 (ts ++ ts'))).

(** ** Syntax *)

(** Values of columns and expressions; times and decimals in thousandths. *)
Inductive value := VNull | VInt (n : Z) | VStr (s : string) | VTime (ms : Z) | VDec (thousandths : Z).

#[export] Instance value_eq_dec : EqDecision value.
Proof. solve_decision. Defined.

Inductive binop := OAnd | OOr | OEq | ONe | OLt | OLe | OGt | OGe | OAdd | OMul.

Inductive expr :=
| EVal (v : value)
| EParam (k : nat)
| ECol (c : string)
| ECall (f : string) (arg : option expr)
| EBin (op : binop) (a b : expr)
| EIn (e : expr) (params : list nat).

Inductive coltype :=
| CBigInt | CInt                (* UNSIGNED *)
| CVarchar (n : Z) | CBlob | CMediumBlob
| CEnum (names : list string).

Record coldef := {
  cd_name : string;
  cd_type : coltype;
  cd_notnull : bool;
  cd_auto : bool;
  cd_default : option value;
}.

Inductive stmt :=
| Select (items : list expr) (tbl : string) (cond : expr) (order : list (string * bool)) (limit : option Z)
| Insert (tbl : string) (cols : list string) (vals : list expr)
| Update (tbl : string) (sets : list (string * expr)) (cond : expr)
| Delete (tbl : string) (cond : expr)
| CreateTable (tbl : string) (cols : list coldef) (key : list string)
| AddColumn (tbl : string) (col : coldef).

(** ** Parser

    Recursive descent; keywords are written in upper case, as in the program. *)

Definition parser (A : Type) : Type := list token -> option (A * list token).

Definition sym (s : string) : parser unit := fun ts =>
  match ts with TSym s' :: ts => if String.eqb s s' then Some (tt, ts) else None | _ => None end.

Definition word (w : string) : parser unit := fun ts =>
  match ts with TWord w' :: ts => if String.eqb w w' then Some (tt, ts) else None | _ => None end.

Fixpoint words (ws : list string) : parser unit := fun ts =>
  match ws with
  | [] => Some (tt, ts)
  | w :: ws => '(_, ts) ← word w ts; words ws ts
  end.

(** A name, in backquotes or not. *)
Definition name : parser string := fun ts =>
  match ts with
  | TQuoted s :: ts => Some (s, ts)
  | TWord s :: ts => Some (s, ts)
  | _ => None
  end.

Definition optional {A} (p : parser A) : parser (option A) := fun ts =>
  match p ts with Some (a, ts') => Some (Some a, ts') | None => Some (None, ts) end.

(** [p, p, ..., p]; [fuel] bounds the number of items. *)
Fixpoint sep_by {A} (fuel : nat) (p : parser A) : parser (list A) := fun ts =>
  match fuel with
  | O => None
  | S fuel =>
      '(a, ts) ← p ts;
      match sym "," ts with
      | Some (_, ts) => '(l, ts) ← sep_by fuel p ts; Some (a :: l, ts)
      | None => Some ([a], ts)
      end
  end.

(** Binary operators by level of precedence, weakest first. *)
Definition operator (level : nat) (t : token) : option binop :=
  match level, t with
  | 0%nat, TWord "OR" => Some OOr
  | 1%nat, TWord "AND" => Some OAnd
  | 2%nat, TSym "=" => Some OEq
  | 2%nat, TSym "!=" => Some ONe
  | 2%nat, TSym "<" => Some OLt
  | 2%nat, TSym "<=" => Some OLe
  | 2%nat, TSym ">" => Some OGt
  | 2%nat, TSym ">=" => Some OGe
  | 3%nat, TSym "+" => Some OAdd
  | 4%nat, TSym "*" => Some OMul
  | _, _ => None
  end.

(** Expressions of a level and above; [fuel] bounds their nesting.  Chains of one
    operator associate to the right, which is the same for the operators at hand. *)
Fixpoint parse_expr (fuel level : nat) (ts : list token) : option (expr * list token) :=
  match fuel with
  | O => None
  | S fuel =>
      if (level <? 5)%nat then
        '(a, ts1) ← parse_expr fuel (S level) ts;
        match ts1 with
        | t :: ts2 =>
            match operator level t with
            | Some op =>
                '(b, ts3) ← parse_expr fuel (if (level =? 2)%nat then 3%nat else level) ts2;
                Some (EBin op a b, ts3)
            | None =>
                match level, t with
                | 2%nat, TIn ks => Some (EIn a ks, ts2)
                | _, _ => Some (a, ts1)
                end
            end
        | [] => Some (a, ts1)
        end
      else
        match ts with
        | TNum n :: ts => Some (EVal (VInt n), ts)
        | TText s :: ts => Some (EVal (VStr s), ts)
        | TParam k :: ts => Some (EParam k, ts)
        | TWord "NULL" :: ts => Some (EVal VNull, ts)
        | TWord f :: TSym "(" :: TSym ")" :: ts => Some (ECall f None, ts)
        | TWord f :: TSym "(" :: ts =>
            '(a, ts) ← parse_expr fuel 0 ts;
            '(_, ts) ← sym ")" ts;
            Some (ECall f (Some a), ts)
        | TWord c :: ts => Some (ECol c, ts)
        | TQuoted c :: ts => Some (ECol c, ts)
        | TSym "(" :: ts =>
            '(a, ts) ← parse_expr fuel 0 ts;
            '(_, ts) ← sym ")" ts;
            Some (a, ts)
        | _ => None
        end
  end.

Definition nesting : nat := 64.
Definition max_items : nat := 32.

Definition expression : parser expr := parse_expr nesting 0.

Definition parens {A} (p : parser A) : parser A := fun ts =>
  '(_, ts) ← sym "(" ts;
  '(a, ts) ← p ts;
  '(_, ts) ← sym ")" ts;
  Some (a, ts).

Definition assignment : parser (string * expr) := fun ts =>
  '(c, ts) ← name ts;
  '(_, ts) ← sym "=" ts;
  '(e, ts) ← expression ts;
  Some ((c, e), ts).

(** [c ASC] or [c DESC]; true is descending. *)
Definition order_item : parser (string * bool) := fun ts =>
  '(c, ts) ← name ts;
  match word "DESC" ts with
  | Some (_, ts) => Some ((c, true), ts)
  | None => '(_, ts) ← word "ASC" ts; Some ((c, false), ts)
  end.

Definition number : parser Z := fun ts => match ts with TNum n :: ts => Some (n, ts) | _ => None end.

Definition clause {A} (kws : list string) (p : parser A) : parser A := fun ts =>
  '(_, ts) ← words kws ts; p ts.

(** FOR UPDATE locks the rows; it does not change the result. *)
Definition select : parser stmt := fun ts =>
  '(items, ts) ← sep_by max_items expression ts;
  '(tbl, ts) ← clause ["FROM"] name ts;
  '(cond, ts) ← clause ["WHERE"] expression ts;
  '(order, ts) ← optional (clause ["ORDER"; "BY"] (sep_by max_items order_item)) ts;
  '(limit, ts) ← optional (clause ["LIMIT"] number) ts;
  '(_, ts) ← optional (words ["FOR"; "UPDATE"]) ts;
  Some (Select items tbl cond (default [] order) limit, ts).

Definition insert : parser stmt := fun ts =>
  '(tbl, ts) ← clause ["INTO"] name ts;
  '(cols, ts) ← parens (sep_by max_items name) ts;
  '(vals, ts) ← clause ["VALUES"] (parens (sep_by max_items expression)) ts;
  Some (Insert tbl cols vals, ts).

(** USE INDEX is a hint to the optimizer. *)
Definition update : parser stmt := fun ts =>
  '(tbl, ts) ← name ts;
  '(_, ts) ← optional (clause ["USE"; "INDEX"] (parens name)) ts;
  '(sets, ts) ← clause ["SET"] (sep_by max_items assignment) ts;
  '(cond, ts) ← clause ["WHERE"] expression ts;
  Some (Update tbl sets cond, ts).

Definition delete_ : parser stmt := fun ts =>
  '(tbl, ts) ← clause ["FROM"] name ts;
  '(cond, ts) ← clause ["WHERE"] expression ts;
  Some (Delete tbl cond, ts).

Definition text_literal : parser string := fun ts =>
  match ts with TText s :: ts => Some (s, ts) | _ => None end.

Definition column_type : parser coltype := fun ts =>
  match ts with
  | TWord "BIGINT" :: TWord "UNSIGNED" :: ts => Some (CBigInt, ts)
  | TWord "INT" :: TWord "UNSIGNED" :: ts => Some (CInt, ts)
  | TWord "VARCHAR" :: ts => '(n, ts) ← parens number ts; Some (CVarchar n, ts)
  | TWord "BLOB" :: ts => Some (CBlob, ts)
  | TWord "MEDIUMBLOB" :: ts => Some (CMediumBlob, ts)
  | TWord "ENUM" :: ts => '(l, ts) ← parens (sep_by max_items text_literal) ts; Some (CEnum l, ts)
  | _ => None
  end.

Definition literal : parser value := fun ts =>
  match ts with
  | TText s :: ts => Some (VStr s, ts)
  | TNum n :: ts => Some (VInt n, ts)
  | _ => None
  end.

Definition column : parser coldef := fun ts =>
  '(c, ts) ← name ts;
  '(ty, ts) ← column_type ts;
  '(nn, ts) ← optional (words ["NOT"; "NULL"]) ts;
  '(auto, ts) ← optional (word "AUTO_INCREMENT") ts;
  '(d, ts) ← optional (clause ["DEFAULT"] literal) ts;
  Some ({| cd_name := c; cd_type := ty; cd_notnull := bool_decide (is_Some nn);
           cd_auto := bool_decide (is_Some auto); cd_default := d |}, ts).

(** An item of a table: the primary key, another key, or a column. *)
Inductive table_item := ItemKey (cols : list string) | ItemIndex | ItemColumn (c : coldef).

Definition item : parser table_item := fun ts =>
  match ts with
  | TWord "PRIMARY" :: TWord "KEY" :: ts =>
      '(l, ts) ← parens (sep_by max_items name) ts; Some (ItemKey l, ts)
  | TWord "KEY" :: ts =>
      '(_, ts) ← name ts; '(_, ts) ← parens (sep_by max_items name) ts; Some (ItemIndex, ts)
  | _ => '(c, ts) ← column ts; Some (ItemColumn c, ts)
  end.

Definition item_columns (items : list table_item) : list coldef :=
  omap (fun i => match i with ItemColumn c => Some c | _ => None end) items.

Definition item_key (items : list table_item) : list string :=
  mbind (fun i => match i with ItemKey l => l | _ => [] end) items.

Definition table_options : parser unit := fun ts =>
  '(_, ts) ← word "ENGINE" ts; '(_, ts) ← sym "=" ts; '(_, ts) ← name ts;
  '(_, ts) ← words ["DEFAULT"; "CHARSET"] ts; '(_, ts) ← sym "=" ts; '(_, ts) ← name ts;
  Some (tt, ts).

Definition create_table : parser stmt := fun ts =>
  '(tbl, ts) ← clause ["TABLE"; "IF"; "NOT"; "EXISTS"] name ts;
  '(items, ts) ← parens (sep_by max_items item) ts;
  '(_, ts) ← table_options ts;
  Some (CreateTable tbl (item_columns items) (item_key items), ts).

Definition alter_table : parser stmt := fun ts =>
  '(tbl, ts) ← clause ["TABLE"] name ts;
  '(c, ts) ← clause ["ADD"; "COLUMN"] column ts;
  Some (AddColumn tbl c, ts).

Definition statement : parser stmt := fun ts =>
  match ts with
  | TWord "SELECT" :: ts => select ts
  | TWord "INSERT" :: ts => insert ts
  | TWord "UPDATE" :: ts => update ts
  | TWord "DELETE" :: ts => delete_ ts
  | TWord "CREATE" :: ts => create_table ts
  | TWord "ALTER" :: ts => alter_table ts
  | _ => None
  end.

(** One statement, possibly ended by a semicolon. *)
Definition sql_parse (text : string) : option stmt :=
  ts ← sql_lex text;
  '(s, ts) ← statement ts;
  match ts with
  | [] => Some s
  | [TSym ";"] => Some s
  | _ => None
  end.

(** ** Values *)

Definition row := list value.

(** A table: its columns, its primary key, the next AUTO_INCREMENT and its rows. *)
Record sql_table := {
  st_cols : list coldef;
  st_key : list string;
  st_auto : Z;
  st_rows : list row;
}.

Notation database := (gmap string sql_table).

Record sql_env := {
  se_now : Z;                        (* clock of the server in milliseconds *)
  se_conn : Z;                       (* CONNECTION_ID() *)
  se_order : list row -> list row;   (* order in which rows are read *)
}.

Definition ER_DUP_ENTRY : Z := 1062.
Definition ER_BAD_FIELD_ERROR : Z := 1054.
Definition ER_PARSE_ERROR : Z := 1064.
Definition ER_NO_SUCH_TABLE : Z := 1146.
Definition ER_WARN_DATA_OUT_OF_RANGE : Z := 1264.
Definition ER_NO_DEFAULT_FOR_FIELD : Z := 1364.

Fixpoint col_index (cols : list coldef) (c : string) : option nat :=
  match cols with
  | [] => None
  | d :: cols => if String.eqb (cd_name d) c then Some 0%nat else S <$> col_index cols c
  end.

Definition col_value (cols : list coldef) (r : row) (c : string) : option value :=
  i ← col_index cols c; r !! i.

(** ** Expressions *)

(** Truth values with NULL as [None]. *)
Definition of_truth (b : option bool) : value :=
  match b with None => VNull | Some b => VInt (if b then 1 else 0) end.

Definition truth (v : value) : option (option bool) :=
  match v with
  | VNull => Some None
  | VInt n => Some (Some (negb (n =? 0)))
  | _ => None
  end.

Definition and3 (a b : option bool) : option bool :=
  match a, b with
  | Some false, _ | _, Some false => Some false
  | Some true, Some true => Some true
  | _, _ => None
  end.

Definition or3 (a b : option bool) : option bool :=
  match a, b with
  | Some true, _ | _, Some true => Some true
  | Some false, Some false => Some false
  | _, _ => None
  end.

(** Comparison of two integers or of two strings of bytes; NULL is unknown. *)
Definition compare_values (a b : value) : option (option comparison) :=
  match a, b with
  | VNull, _ | _, VNull => Some None
  | VInt x, VInt y => Some (Some (x ?= y))
  | VStr x, VStr y => Some (Some (String.compare x y))
  | _, _ => None
  end.

Definition holds (op : binop) (c : comparison) : bool :=
  match op, c with
  | OEq, Eq | ONe, Lt | ONe, Gt | OLt, Lt | OLe, Lt | OLe, Eq | OGt, Gt | OGe, Gt | OGe, Eq => true
  | _, _ => false
  end.

Definition eval_bin (op : binop) (a b : value) : option value :=
  match op with
  | OAnd => x ← truth a; y ← truth b; Some (of_truth (and3 x y))
  | OOr => x ← truth a; y ← truth b; Some (of_truth (or3 x y))
  | OAdd =>
      match a, b with
      | VNull, _ | _, VNull => Some VNull
      | VInt x, VInt y => Some (VInt (x + y))
      | _, _ => None
      end
  | OMul =>
      match a, b with
      | VNull, _ | _, VNull => Some VNull
      | VInt x, VInt y => Some (VInt (x * y))
      | VDec x, VInt y => Some (VDec (x * y))
      | _, _ => None
      end
  | _ => c ← compare_values a b; Some (of_truth (holds op <$> c))
  end.

Definition eval_call (e : sql_env) (f : string) (arg : option value) : option value :=
  match f, arg with
  | "CONNECTION_ID", None => Some (VInt (se_conn e))
  | "CURRENT_TIME", Some (VInt 3) => Some (VTime (se_now e))
  | "UNIX_TIMESTAMP", Some (VTime ms) => Some (VDec ms)
  | "FLOOR", Some (VDec t) => Some (VInt (t / 1000))
  | _, _ => None
  end.

(** [v IN (v1, ..., vn)] *)
Fixpoint eval_in (v : value) (l : list value) : option (option bool) :=
  match l with
  | [] => Some (Some false)
  | x :: l =>
      c ← compare_values v x;
      rest ← eval_in v l;
      Some (or3 (holds OEq <$> c) rest)
  end.

Fixpoint eval (e : sql_env) (args : list value) (cols : list coldef) (r : row) (ex : expr) : option value :=
  match ex with
  | EVal v => Some v
  | EParam k => args !! k
  | ECol c => col_value cols r c
  | ECall f None => eval_call e f None
  | ECall f (Some a) => v ← eval e args cols r a; eval_call e f (Some v)
  | EBin op a b =>
      x ← eval e args cols r a;
      y ← eval e args cols r b;
      eval_bin op x y
  | EIn a ps =>
      v ← eval e args cols r a;
      vs ← mapM (fun k => args !! k) ps;
      of_truth <$> eval_in v vs
  end.

(** A condition selects a row when it is neither NULL nor zero. *)
Definition selects (e : sql_env) (args : list value) (cols : list coldef) (cond : expr) (r : row) : option bool :=
  v ← eval e args cols r cond;
  b ← truth v;
  Some (default false b).

Fixpoint filter_rows (f : row -> option bool) (l : list row) : option (list row) :=
  match l with
  | [] => Some []
  | r :: l => b ← f r; l' ← filter_rows f l; Some (if (b : bool) then r :: l' else l')
  end.

(** NULL sorts first. *)
Definition sort_compare (a b : value) : comparison :=
  match a, b with
  | VNull, VNull => Eq
  | VNull, _ => Lt
  | _, VNull => Gt
  | VInt x, VInt y => x ?= y
  | VStr x, VStr y => String.compare x y
  | _, _ => Eq
  end.

Fixpoint row_less (cols : list coldef) (order : list (string * bool)) (r1 r2 : row) : bool :=
  match order with
  | [] => false
  | (c, desc) :: order =>
      match sort_compare (default VNull (col_value cols r1 c)) (default VNull (col_value cols r2 c)) with
      | Lt => negb desc
      | Gt => desc
      | Eq => row_less cols order r1 r2
      end
  end.

(** ** Columns *)

Definition type_fits (ty : coltype) (v : value) : bool :=
  match ty, v with
  | CBigInt, VInt n => bool_decide (is_u64 n)
  | CInt, VInt n => bool_decide (is_u32 n)
  | CVarchar n, VStr s => strlen s <=? n
  | CBlob, VStr s => strlen s <=? 65535
  | CMediumBlob, VStr s => strlen s <=? 16777215
  | CEnum l, VStr s => bool_decide (s ∈ l)
  | _, _ => false
  end.

Definition value_fits (d : coldef) (v : value) : bool :=
  match v with VNull => negb (cd_notnull d) | _ => type_fits (cd_type d) v end.

Fixpoint row_fits_cols (cols : list coldef) (r : row) : bool :=
  match cols, r with
  | [], [] => true
  | d :: cols, v :: r => value_fits d v && row_fits_cols cols r
  | _, _ => false
  end.

(** ** Statements *)

Inductive reply := Rows (l : list row) | Done (last_insert_id : Z).

Definition with_rows (l : list row) (t : sql_table) : sql_table :=
  {| st_cols := st_cols t; st_key := st_key t; st_auto := st_auto t; st_rows := l |}.

Definition need {A} (code : Z) (o : option A) : result sql_error A :=
  match o with Some a => Ok a | None => Err (MySQLError code) end.

Definition key_of (t : sql_table) (r : row) : list (option value) := col_value (st_cols t) r <$> st_key t.

Fixpoint given_value (given : list (string * value)) (c : string) : option value :=
  match given with
  | [] => None
  | (c', v) :: given => if String.eqb c' c then Some v else given_value given c
  end.

(** The value of a column in a new row. *)
Definition insert_value (t : sql_table) (given : list (string * value)) (d : coldef) : option value :=
  match given_value given (cd_name d) with
  | Some v => Some v
  | None =>
      if cd_auto d then Some (VInt (st_auto t))
      else match cd_default d with
           | Some v => Some v
           | None => if cd_notnull d then None else Some VNull
           end
  end.

(** Assignments from left to right; each sees the ones before it. *)
Fixpoint assign (e : sql_env) (args : list value) (cols : list coldef) (sets : list (string * expr)) (r : row)
    : option row :=
  match sets with
  | [] => Some r
  | (c, ex) :: sets =>
      i ← col_index cols c;
      v ← eval e args cols r ex;
      assign e args cols sets (<[i := v]> r)
  end.

(** The rows of a table after an UPDATE: [None] for a row that does not fit. *)
Definition updated_row (e : sql_env) (args : list value) (cols : list coldef) (sets : list (string * expr))
    (cond : expr) (r : row) : option row :=
  b ← selects e args cols cond r;
  if (b : bool) then
    r' ← assign e args cols sets r;
    if row_fits_cols cols r' then Some r' else None
  else Some r.

(** Names of tables have at most 64 characters; those of this program are of one
    byte each ([newTableName]). *)
Definition max_identifier : Z := 64.
Definition ER_TOO_LONG_IDENT : Z := 1059.

Local Open Scope go_scope.

Definition exec_stmt (e : sql_env) (args : list value) (db : database) (s : stmt)
    : result sql_error (database * reply) :=
  match s with
  | Select items tbl cond order limit =>
      let* t := need ER_NO_SUCH_TABLE (db !! tbl) in
      let* l := need ER_BAD_FIELD_ERROR (filter_rows (selects e args (st_cols t) cond) (se_order e (st_rows t))) in
      let l := sort_slice (row_less (st_cols t) order) l in
      let l := match limit with Some n => takeZ n l | None => l end in
      let* l := need ER_BAD_FIELD_ERROR (mapM (fun r => mapM (eval e args (st_cols t) r) items) l) in
      Ok (db, Rows l)
  | Insert tbl cols vals =>
      let* t := need ER_NO_SUCH_TABLE (db !! tbl) in
      let* vs := need ER_BAD_FIELD_ERROR (mapM (eval e args [] []) vals) in
      let* r := need ER_NO_DEFAULT_FOR_FIELD (mapM (insert_value t (zip cols vs)) (st_cols t)) in
      if negb (row_fits_cols (st_cols t) r) then Err (MySQLError ER_WARN_DATA_OUT_OF_RANGE)
      else if bool_decide (key_of t r ∈ (key_of t <$> st_rows t)) then Err (MySQLError ER_DUP_ENTRY)
      else
        Ok (<[tbl := {| st_cols := st_cols t; st_key := st_key t; st_auto := st_auto t + 1;
                        st_rows := st_rows t ++ [r] |}]> db,
            Done (st_auto t))
  | Update tbl sets cond =>
      let* t := need ER_NO_SUCH_TABLE (db !! tbl) in
      let* l := need ER_WARN_DATA_OUT_OF_RANGE (mapM (updated_row e args (st_cols t) sets cond) (st_rows t)) in
      Ok (<[tbl := with_rows l t]> db, Done 0)
  | Delete tbl cond =>
      let* t := need ER_NO_SUCH_TABLE (db !! tbl) in
      let* l := need ER_BAD_FIELD_ERROR
        (filter_rows (fun r => negb <$> selects e args (st_cols t) cond r) (st_rows t)) in
      Ok (<[tbl := with_rows l t]> db, Done 0)
  | CreateTable tbl cols key =>
      if max_identifier <? strlen tbl then Err (MySQLError ER_TOO_LONG_IDENT)
      else
        match db !! tbl with
        | Some _ => Ok (db, Done 0)
        | None => Ok (<[tbl := {| st_cols := cols; st_key := key; st_auto := 1; st_rows := [] |}]> db, Done 0)
        end
  | AddColumn tbl d =>
      let* t := need ER_NO_SUCH_TABLE (db !! tbl) in
      if bool_decide (cd_name d ∈ (cd_name <$> st_cols t)) then Err (MySQLError ER_DUP_FIELDNAME)
      else if cd_notnull d then Err (OtherError "not supported here")
      else
        let v := default VNull (cd_default d) in
        Ok (<[tbl := {| st_cols := st_cols t ++ [d]; st_key := st_key t; st_auto := st_auto t;
                        st_rows := (fun r : row => (r ++ [v])%list) <$> st_rows t |}]> db,
            Done 0)
  end.

(** A statement as the program sends it: its text and the values of its
    placeholders. *)
Definition sql_exec (e : sql_env) (text : string) (args : list value) (db : database)
    : result sql_error (database * reply) :=
  let* s := need ER_PARSE_ERROR (sql_parse text) in
  exec_stmt e args db s.
Local Close Scope go_scope.

(** ** Texts with a table name, numbers and placeholders *)

Lemma lex_run_app m l1 l2 :
  lex_run m (l1 ++ l2) =
    ('(t1, m1) ← lex_run m l1; '(t2, m2) ← lex_run m1 l2; Some (t1 ++ t2, m2)).
Proof.
  revert m. induction l1 as [|a l1 IH]; intros m; simpl.
  - by destruct (lex_run m l2) as [[]|].
  - destruct (lex_char m a) as [[t m1]|]; [|done]. simpl. rewrite IH.
    destruct (lex_run m1 l1) as [[t1 m2]|]; [|done]. simpl.
    destruct (lex_run m2 l2) as [[t2 m3]|]; [|done]. simpl. by rewrite app_assoc.
Qed.

Lemma lex_run_quoted acc l :
  Forall (fun a => a <> "`"%char) l -> lex_run (MQuoted acc) l = Some ([], MQuoted (rev l ++ acc)).
Proof.
  intros H. revert acc. induction H as [|a l Ha _ IH]; intros acc; [done|]. simpl.
  destruct (Ascii.eqb_spec a "`"%char); [done|]. simpl. rewrite IH. simpl. by rewrite <- app_assoc.
Qed.

(** A statement whose table is a field of the template in backquotes, followed by
    text the driver appends. *)
Lemma sql_lex_query tn a f v b ta tb suffix ts m te :
  field_value tn f = Some v -> Forall (fun c => c <> "`"%char) (chars v) ->
  lex_run MStart (chars a) = Some (ta, MQuoted []) -> lex_run MStart (chars b) = Some (tb, MStart) ->
  lex_run MStart (chars suffix) = Some (ts, m) -> lex_end m = Some te ->
  sql_lex (makeQuery tn [NText a; NField f; NText (String "`"%char b)] +:+ suffix) =
    Some (group_in (number_params 0 (ta ++ TQuoted v :: tb ++ ts ++ te))).
Proof.
  intros Hv Hq Ha Hb Hs He. unfold sql_lex, makeQuery. cbn [Execute]. rewrite Hv. cbn [fst].
  rewrite !chars_app, <- !app_assoc, lex_run_app, Ha. cbn [mbind option_bind].
  rewrite lex_run_app, lex_run_quoted by done. cbn [mbind option_bind].
  change (chars (String "`"%char b)) with ("`"%char :: chars b). cbn [app lex_run lex_char]. simpl.
  rewrite rev_app_distr, rev_involutive. simpl. rewrite str_chars.
  rewrite lex_run_app, Hb. simpl. rewrite Hs. simpl. rewrite He. simpl.
  by rewrite <- !app_assoc, <- app_comm_cons, <- app_assoc.
Qed.

(** *** A number *)

Lemma is_digit_byte a : is_digit a = true -> 48 <= byte_of a <= 57.
Proof.
  unfold is_digit, char_digit. destruct ((48 <=? byte_of a) && (byte_of a <=? 57)) eqn:E; [|done]. intros _. lia.
Qed.

Lemma digit_word_char a : is_digit a = true -> word_char a = true.
Proof. intros H. unfold word_char. by rewrite H, orb_true_r. Qed.

Lemma digit_no_space a : is_digit a = true -> is_space a = false.
Proof.
  intros H%is_digit_byte. unfold is_space.
  repeat match goal with |- context [Ascii.eqb a ?c] => destruct (Ascii.eqb_spec a c) as [->|] end; try done;
    vm_compute in H; by destruct H.
Qed.

Lemma lex_run_word acc l :
  Forall (fun a => is_digit a = true) l -> lex_run (MWord acc) l = Some ([], MWord (rev l ++ acc)).
Proof.
  intros H. revert acc. induction H as [|a l Ha _ IH]; intros acc; [done|]. simpl.
  rewrite digit_word_char by done. simpl. rewrite IH. simpl. by rewrite <- app_assoc.
Qed.

Lemma format_int_parses n : is_u64 n -> parse_digits 0 (format_int n) = Some n /\ format_int n <> [].
Proof.
  intros Hn. unfold format_int. destruct (Z.ltb_spec n 0); [word|]. split.
  - rewrite parse_digits_digits; [done| |unfold max_digits; lia].
    replace (10 ^ Z.of_nat max_digits) with 100000000000000000000 by reflexivity. word.
  - apply digits_nonempty. unfold max_digits. lia.
Qed.

Lemma lex_number n :
  is_u64 n -> exists m, lex_run MStart (chars (str (format_int n))) = Some ([], m) /\ lex_end m = Some [TNum n].
Proof.
  intros Hn. destruct (format_int_parses n Hn) as [Hp Hne]. rewrite chars_str.
  pose proof (format_int_digits n (proj1 Hn)) as Hd. destruct (format_int n) as [|a l]; [done|].
  apply Forall_cons in Hd as [Ha Hl]. eexists. split.
  - simpl. unfold lex_start. rewrite digit_no_space, digit_word_char by done. simpl.
    rewrite lex_run_word by done. reflexivity.
  - simpl. unfold word_token. rewrite rev_app_distr, rev_involutive. cbn [rev app].
    assert (forallb is_digit (a :: l) = true) as ->.
    { apply forallb_forall. intros x Hx. apply list_elem_of_In, elem_of_cons in Hx as [->|Hx]; [done|].
      by apply (proj1 (Forall_forall _ _) Hl). }
    by rewrite Hp.
Qed.

(** *** Placeholders *)

(** [strings.Join(placeholders, ",")] for [n] placeholders *)
Fixpoint placeholders (n : nat) : string :=
  match n with
  | O => EmptyString
  | S O => "?"
  | S n => "?," +:+ placeholders n
  end.

Fixpoint placeholder_tokens (n : nat) : list token :=
  match n with
  | O => []
  | S O => [TParam 0]
  | S n => TParam 0 :: TSym "," :: placeholder_tokens n
  end.

Lemma lex_placeholders n : lex_run MStart (chars (placeholders n)) = Some (placeholder_tokens n, MStart).
Proof.
  induction n as [|n IH]; [done|]. destruct n as [|n]; [done|].
  change (placeholders (S (S n))) with ("?," +:+ placeholders (S n)).
  change (placeholder_tokens (S (S n))) with (TParam 0 :: TSym "," :: placeholder_tokens (S n)).
  rewrite chars_app, lex_run_app.
  change (lex_run MStart (chars "?,")) with (Some ([TParam 0; TSym ","], MStart)). cbn [mbind option_bind].
  by rewrite IH.
Qed.

(** [(?,...,?)] and what follows it. *)
Lemma lex_id_list n rest tr m :
  lex_run MStart (chars rest) = Some (tr, m) ->
  lex_run MStart (chars ("(" +:+ placeholders n +:+ ")" +:+ rest)) =
    Some (TSym "(" :: placeholder_tokens n ++ TSym ")" :: tr, m).
Proof.
  intros Hr. rewrite !chars_app, lex_run_app.
  change (lex_run MStart (chars "(")) with (Some ([TSym "("], MStart)). cbn [mbind option_bind].
  rewrite lex_run_app, lex_placeholders. cbn [mbind option_bind]. rewrite lex_run_app.
  change (lex_run MStart (chars ")")) with (Some ([TSym ")"], MStart)). cbn [mbind option_bind].
  by rewrite Hr.
Qed.

(** Numbering the placeholders of a list. *)
Fixpoint numbered_tokens (k n : nat) : list token :=
  match n with
  | O => []
  | S O => [TParam k]
  | S n => TParam k :: TSym "," :: numbered_tokens (S k) n
  end.

Lemma number_params_list k n rest :
  number_params k (placeholder_tokens n ++ TSym ")" :: rest) =
    numbered_tokens k n ++ TSym ")" :: number_params (k + n) rest.
Proof.
  revert k. induction n as [|n IH]; intros k; [by rewrite Nat.add_0_r|].
  destruct n as [|n]; [simpl; by rewrite Nat.add_1_r|].
  change (placeholder_tokens (S (S n))) with (TParam 0 :: TSym "," :: placeholder_tokens (S n)).
  change (numbered_tokens k (S (S n))) with (TParam k :: TSym "," :: numbered_tokens (S k) (S n)).
  cbn -[placeholder_tokens numbered_tokens]. rewrite IH. by rewrite Nat.add_succ_comm.
Qed.

Lemma params_list k n rest :
  params (numbered_tokens k (S n) ++ TSym ")" :: rest) = Some (seq k (S n), rest).
Proof.
  revert k. induction n as [|n IH]; intros k; [done|].
  change (numbered_tokens k (S (S n))) with (TParam k :: TSym "," :: numbered_tokens (S k) (S n)).
  cbn -[numbered_tokens]. by rewrite IH.
Qed.

Lemma group_in_list k n rest :
  group_in (TWord "IN" :: TSym "(" :: numbered_tokens k (S n) ++ TSym ")" :: rest) =
    TIn (seq k (S n)) :: group_in rest.
Proof.
  assert (forall n k, group_in (numbered_tokens k n ++ TSym ")" :: rest) =
    numbered_tokens k n ++ TSym ")" :: group_in rest) as H.
  { clear n k. induction n as [|n IH]; intros k; [done|]. destruct n as [|n]; [done|].
    change (numbered_tokens k (S (S n))) with (TParam k :: TSym "," :: numbered_tokens (S k) (S n)).
    cbn -[numbered_tokens]. by rewrite IH. }
  change (group_in (TWord "IN" :: ?ts)) with
    (match group_in ts with
     | TSym "(" :: ts' => match params ts' with Some (ks, rest) => TIn ks :: rest | None => TWord "IN" :: TSym "(" :: ts' end
     | ts' => TWord "IN" :: ts' end).
  change (group_in (TSym "(" :: ?ts)) with (TSym "(" :: group_in ts). rewrite H. cbn -[params numbered_tokens seq].
  by rewrite params_list.
Qed.

(** ** Rows that encode typed rows *)

Section encoded.
Context {A : Type} (encode : A -> row).

Lemma filter_rows_encode (f : row -> option bool) (P : A -> Prop) `{!forall x, Decision (P x)} l :
  (forall x, f (encode x) = Some (bool_decide (P x))) ->
  filter_rows f (encode <$> l) = Some (encode <$> filter P l).
Proof.
  intros Hf. induction l as [|x l IH]; [done|]. simpl. rewrite Hf, filter_cons. simpl.
  unfold fmap in IH. rewrite IH. simpl. rewrite bool_decide_decide. by destruct (decide (P x)).
Qed.

Lemma sort_slice_encode (less' : row -> row -> bool) (less : A -> A -> bool) l :
  (forall x y, less' (encode x) (encode y) = less x y) ->
  sort_slice less' (encode <$> l) = encode <$> sort_slice less l.
Proof.
  intros H. assert (forall x k, sort_insert less' (encode x) (encode <$> k) = encode <$> sort_insert less x k) as Hi.
  { intros x k. induction k as [|y k IH]; [done|]. simpl. rewrite H. destruct (less y x); [|done].
    simpl. unfold fmap in IH. by rewrite IH. }
  induction l as [|x l IH]; [done|]. simpl. unfold sort_slice in *. simpl. unfold fmap in IH. rewrite IH. apply Hi.
Qed.

Lemma takeZ_encode n (l : list A) : takeZ n (encode <$> l) = encode <$> takeZ n l.
Proof. by rewrite !takeZ_take, fmap_take. Qed.

Lemma mapM_encode_in {B} (f : row -> option B) (g : A -> B) l :
  (forall x, x ∈ l -> f (encode x) = Some (g x)) -> mapM f (encode <$> l) = Some (g <$> l).
Proof.
  induction l as [|x l IH]; intros H; [done|]. simpl. rewrite H by apply list_elem_of_here. simpl.
  unfold fmap in IH. rewrite IH; [done|]. intros y Hy. apply H. by apply list_elem_of_further.
Qed.

Lemma mapM_encode {B} (f : row -> option B) (g : A -> B) l :
  (forall x, f (encode x) = Some (g x)) -> mapM f (encode <$> l) = Some (g <$> l).
Proof. intros H. apply mapM_encode_in. auto. Qed.

Lemma mapM_fails {B} (f : row -> option B) x l : x ∈ l -> f (encode x) = None -> mapM f (encode <$> l) = None.
Proof.
  intros Hx Hf. induction Hx as [x l|x y l _ IH]; simpl; [by rewrite Hf|].
  unfold fmap in IH. rewrite IH by done. by destruct (f (encode y)).
Qed.
End encoded.

(** [job_id IN (ids)] *)
Lemma eval_in_ids id ids : eval_in (VInt id) (VInt <$> ids) = Some (Some (bool_decide (id ∈ ids))).
Proof.
  induction ids as [|x ids IH]; [done|]. simpl. unfold fmap in IH. rewrite IH. simpl. f_equal.
  destruct (Z.compare_spec id x) as [->| |]; simpl.
  - by rewrite bool_decide_true by apply list_elem_of_here.
  - rewrite (bool_decide_ext (id ∈ x :: ids) (id ∈ ids)); [by destruct (bool_decide _)|].
    rewrite elem_of_cons. naive_solver lia.
  - rewrite (bool_decide_ext (id ∈ x :: ids) (id ∈ ids)); [by destruct (bool_decide _)|].
    rewrite elem_of_cons. naive_solver lia.
Qed.

(** Placeholders at the end stand for the identifiers. *)
Lemma args_ids (pre l : list value) :
  mapM (fun k => (pre ++ l) !! k) (seq (length pre) (length l)) = Some l.
Proof.
  revert pre. induction l as [|x l IH]; intros pre; [done|]. simpl.
  rewrite lookup_app_r, Nat.sub_diag by lia. simpl.
  specialize (IH (pre ++ [x])). rewrite length_app, <- app_assoc in IH. simpl in IH.
  rewrite Nat.add_1_r in IH. by rewrite IH.
Qed.
