(* ===== verification/SqlStatements.v ===== *)
(** * What the statements of a MySQL queue do

    The driver modelled in [MySQLTable], [MySQLQueue], [FailureLog] and [Inspector]
    works on tables by functions.  Here the texts it really sends, those of
    [SqlTemplates] with what jobqueue.go, inspector.go and failure_log.go append to
    them, are run by the semantics of [Sql] on a database that represents such
    tables: they have exactly the effect and the results of the functions, for
    every queue, all arguments and any order in which rows are read. *)

From Stdlib Require Import Ascii.
From S2P Require Import Prelude GoStrings Job Model QueueSpec MySQLTable MySQLQueue FailureLog Inspector MySQLNames.
From S2P Require Import SqlTemplates Sql.
Local Open Scope Z_scope.

(** ** The queries of a queue *)

(** [newJobQueue]: the queries for the tables of the queue. *)
Definition queue_sqls (definition : Queue) : option sqls :=
  tm ← sql_init Assets; Some (makeQueries tm (newTableName definition)).

(** The templates that [init] loads. *)
Definition loaded : templates.
Proof. let t := eval vm_compute in (sql_init Assets) in match t with Some ?x => exact x end. Defined.

Lemma sql_init_loaded : sql_init Assets = Some loaded.
Proof. vm_compute. reflexivity. Qed.

(** ** The database *)

(** The columns and the key a CREATE TABLE declares. *)
Definition declared (text : string) : list coldef * list string :=
  match sql_parse text with Some (CreateTable _ cols key) => (cols, key) | _ => ([], []) end.

Definition job_columns : list coldef := Eval vm_compute in (declared job_queue_sql).1.
Definition failure_columns : list coldef := Eval vm_compute in (declared job_failure_sql).1.

Definition encode_job (r : job_row) : row := [
  VInt (r_job_id r); VInt (r_next_try r);
  match r_grabber_id r with Some g => VInt g | None => VNull end;
  VStr (status_string (r_status r)); VInt (r_created_at r); VInt (r_retry_count r); VInt (r_retry_delay r);
  VInt (r_fail_count r); VStr (r_category r); VStr (r_url r); VStr (r_payload r); VInt (r_timeout r);
  match r_failure_url r with Some u => VStr u | None => VNull end ].

Definition encode_failure (r : failure_row) : row := [
  VInt (f_failure_id r); VInt (f_job_id r); VStr (f_category r); VStr (f_url r); VStr (f_payload r);
  VStr (f_result r); VInt (f_fail_count r); VInt (f_failed_at r); VInt (f_created_at r) ].

(** A table that holds the encoded rows of a map. *)
Record table_of {A} (encode : A -> row) (cols : list coldef) (key : string) (next : Z) (m : gmap Z A)
    (t : sql_table) : Prop := {
  to_cols : st_cols t = cols;
  to_key : st_key t = [key];
  to_auto : st_auto t = next;
  to_rows : st_rows t ≡ₚ encode <$> (map_to_list m).*2;
}.

(** The database holds the two tables of a queue. *)
Record represents (tn : tableName) (t : tables) (db : database) : Prop := {
  rep_jobs : exists s, db !! tn_JobQueue tn = Some s /\
    table_of encode_job job_columns "job_id" (t_next_job_id t) (t_jobs t) s;
  rep_failures : exists s, db !! tn_Failure tn = Some s /\
    table_of encode_failure failure_columns "failure_id" (t_next_failure_id t) (t_failures t) s;
}.

(** The columns of a job as [grabbed] and [inspectJob] list them. *)
Definition job_result (r : job_row) : row := [
  VInt (r_job_id r); VStr (r_category r); VStr (r_url r); VStr (r_payload r); VInt (r_next_try r);
  VStr (status_string (r_status r)); VInt (r_created_at r); VInt (r_retry_count r); VInt (r_retry_delay r);
  VInt (r_fail_count r); VInt (r_timeout r);
  match r_failure_url r with Some u => VStr u | None => VNull end ].

(** ** The statements the texts denote *)

Lemma table_names_unquoted q :
  Forall (fun c => c <> "`"%char) (chars (tn_JobQueue (newTableName q))) /\
  Forall (fun c => c <> "`"%char) (chars (tn_Failure (newTableName q))).
Proof.
  assert (forall fuel l, Forall (fun c => c <> "`"%char) (replace_invalid fuel l)) as Hl.
  { intros fuel l. eapply Forall_impl; [apply replace_invalid_allowed|]. by intros a Ha ->. }
  assert (forall p name, Forall (fun c => c <> "`"%char) (chars p) -> Forall (fun c => c <> "`"%char) name ->
    Forall (fun c => c <> "`"%char) (chars (p +:+ str name +:+ ")"))) as Hp.
  { intros p name H1 H2. rewrite !chars_app, chars_str. apply Forall_app. split; [done|].
    apply Forall_app. split; [done|]. by repeat constructor. }
  split; apply Hp; try apply Hl; by repeat constructor.
Qed.

(** Evaluates the left-hand side, whatever the right-hand side is. *)
Ltac evaluate :=
  match goal with |- ?x = _ => let r := eval vm_compute in x in transitivity r; [vm_cast_no_check (eq_refl r)|reflexivity] end.

(** Parses a filled template followed by a suffix with known tokens. *)
Ltac parse_query Hsuffix Hend :=
  unfold sql_parse;
  match goal with |- context [makeQuery _ ?T] => let t := eval vm_compute in T in change T with t end;
  erewrite sql_lex_query;
  [ | reflexivity | first [apply (proj1 (table_names_unquoted _)) | apply (proj2 (table_names_unquoted _))] | evaluate | evaluate
    | exact Hsuffix | exact Hend ].

(** The same for a text that ends with a list of identifiers. *)
Ltac in_list :=
  cbn [app number_params]; rewrite <- app_assoc; cbn [app]; rewrite number_params_list;
  repeat (match goal with |- context [group_in (?t :: ?ts)] =>
    match t with
    | TWord "IN" => fail 1
    | _ => change (group_in (t :: ts)) with (t :: group_in ts)
    end end);
  rewrite group_in_list;
  match goal with |- context [TIn ?ks] => generalize ks end; intros; reflexivity.

(** The same for a text to which nothing is appended. *)
Lemma no_more : lex_end MStart = Some [].
Proof. done. Qed.

Ltac parse_whole :=
  rewrite <- (string_app_nil (makeQuery _ _)); parse_query (@eq_refl _ (lex_run MStart [])) no_more; reflexivity.

Section parsing.
Context (q : Queue).
Local Notation tn := (newTableName q).

Definition job_result_cols : list expr := ECol <$> ["job_id"; "category"; "url"; "payload"; "next_try"; "status";
  "created_at"; "retry_count"; "retry_delay"; "fail_count"; "timeout"; "failure_url"].

(** The server's clock in milliseconds. *)
Definition now_expr : expr :=
  ECall "FLOOR" (Some (EBin OMul
    (ECall "UNIX_TIMESTAMP" (Some (ECall "CURRENT_TIME" (Some (EVal (VInt 3))))))
    (EVal (VInt 1000)))).

Definition claimed_expr : expr := EBin OEq (ECol "status") (EVal (VStr "claimed")).
Definition orphan_expr : expr :=
  EBin ONe (ECol "grabber_id") (ECall "CONNECTION_ID" None).
Definition grabbed_expr : expr := EBin OEq (ECol "status") (EVal (VStr "grabbed")).

(** The list of identifiers the driver appends. *)
Definition id_list (ids : list Z) : string := "(" +:+ placeholders (length ids) +:+ ")".

Lemma lex_ids id ids rest tr m :
  lex_run MStart (chars rest) = Some (tr, m) ->
  lex_run MStart (chars (id_list (id :: ids) +:+ rest)) =
    Some (TSym "(" :: placeholder_tokens (S (length ids)) ++ TSym ")" :: tr, m).
Proof. intros H. unfold id_list. rewrite !string_app_assoc. by apply lex_id_list. Qed.

Lemma lex_ids_end id ids :
  lex_run MStart (chars (id_list (id :: ids))) =
    Some (TSym "(" :: placeholder_tokens (S (length ids)) ++ TSym ")" :: [], MStart).
Proof. rewrite <- (string_app_nil (id_list _)). by apply lex_ids. Qed.

(** *** Reading jobs *)

Lemma parse_grab limit :
  is_u64 limit -> sql_parse (makeQuery tn (tmplGrabJobs loaded) +:+ str (format_int limit)) =
    Some (Select [ECol "job_id"] (tn_JobQueue tn)
      (EBin OAnd claimed_expr (EBin OLe (ECol "next_try") now_expr)) [("next_try", false)] (Some limit)).
Proof. intros Hl. destruct (lex_number limit Hl) as (m & Hs & He). parse_query Hs He. reflexivity. Qed.

Definition in_ids (k : nat) (ids : list Z) : expr := EIn (ECol "job_id") (seq k (length ids)).

Definition grabbed_select (ids : list Z) : stmt :=
  Select job_result_cols (tn_JobQueue tn) (EBin OAnd (EBin OEq (ECol "status") (EParam 0)) (in_ids 1 ids)) [] None.

Lemma parse_grabbed id ids :
  sql_parse (makeQuery tn (tmplGrabbedJobs loaded) +:+ (id_list (id :: ids) +:+ " FOR UPDATE")) =
    Some (grabbed_select (id :: ids)).
Proof.
  pose proof (lex_ids id ids " FOR UPDATE" [TWord "FOR"] (MWord (rev (chars "UPDATE"))) eq_refl) as Hs.
  parse_query Hs (@eq_refl (option (list token)) (Some [TWord "UPDATE"])). unfold grabbed_select, in_ids. cbn [length]. in_list.
Qed.

Lemma parse_grabbed_plain id ids :
  sql_parse (makeQuery tn (tmplGrabbedJobs loaded) +:+ id_list (id :: ids)) = Some (grabbed_select (id :: ids)).
Proof. parse_query (lex_ids_end id ids) no_more. unfold grabbed_select, in_ids. cbn [length]. in_list. Qed.

Lemma parse_orphan :
  sql_parse (makeQuery tn (tmplOrphanJobs loaded)) =
    Some (Select [ECol "job_id"] (tn_JobQueue tn) (EBin OAnd grabbed_expr orphan_expr) [] (Some 1000)).
Proof. parse_whole. Qed.

Lemma parse_inspect_job :
  sql_parse (makeQuery tn (tmplInspectJob loaded)) =
    Some (Select job_result_cols (tn_JobQueue tn) (EBin OEq (ECol "job_id") (EParam 0)) [] None).
Proof. parse_whole. Qed.

Lemma parse_inspect_jobs limit :
  is_u64 limit -> sql_parse (makeQuery tn (tmplInspectJobs loaded) +:+ str (format_int limit)) =
    Some (Select [ECol "job_id"] (tn_JobQueue tn)
      (EBin OAnd (EBin OEq (ECol "status") (EParam 0)) (EBin OAnd (EBin OGt (ECol "next_try") (EParam 1))
        (EBin OAnd (EBin OLe (ECol "next_try") (EParam 2)) (EBin OLe (ECol "job_id") (EParam 3)))))
      [("next_try", true); ("job_id", true)] (Some limit)).
Proof. intros Hl. destruct (lex_number limit Hl) as (m & Hs & He). parse_query Hs He. reflexivity. Qed.

Lemma parse_inspect_jobs_asc limit :
  is_u64 limit -> sql_parse (makeQuery tn (tmplInspectJobsAsc loaded) +:+ str (format_int limit)) =
    Some (Select [ECol "job_id"] (tn_JobQueue tn)
      (EBin OAnd (EBin OEq (ECol "status") (EParam 0)) (EBin OAnd (EBin OGe (ECol "next_try") (EParam 1))
        (EBin OAnd (EBin OLt (ECol "next_try") (EParam 2)) (EBin OGe (ECol "job_id") (EParam 3)))))
      [("next_try", false); ("job_id", false)] (Some limit)).
Proof. intros Hl. destruct (lex_number limit Hl) as (m & Hs & He). parse_query Hs He. reflexivity. Qed.

(** *** Reading failures *)

Definition failure_result_cols : list expr := ECol <$> ["failure_id"; "job_id"; "category"; "url"; "payload";
  "result"; "fail_count"; "failed_at"; "created_at"].

Lemma parse_failed_job :
  sql_parse (makeQuery tn (tmplFailedJob loaded)) =
    Some (Select failure_result_cols (tn_Failure tn) (EBin OEq (ECol "failure_id") (EParam 0)) [] None).
Proof. parse_whole. Qed.

Lemma parse_failed_jobs limit :
  is_u64 limit -> sql_parse (makeQuery tn (tmplFailedJobs loaded) +:+ str (format_int limit)) =
    Some (Select failure_result_cols (tn_Failure tn)
      (EBin OAnd (EBin OLe (ECol "created_at") (EParam 0))
        (EBin OOr (EBin ONe (ECol "created_at") (EParam 1)) (EBin OLe (ECol "failure_id") (EParam 2))))
      [("created_at", true); ("failure_id", true)] (Some limit)).
Proof. intros Hl. destruct (lex_number limit Hl) as (m & Hs & He). parse_query Hs He. reflexivity. Qed.

Lemma parse_recently_failed_jobs limit :
  is_u64 limit -> sql_parse (makeQuery tn (tmplRecentlyFailedJobs loaded) +:+ str (format_int limit)) =
    Some (Select failure_result_cols (tn_Failure tn)
      (EBin OAnd (EBin OEq (EParam 0) (EParam 1)) (EBin OLe (ECol "failure_id") (EParam 2)))
      [("failure_id", true)] (Some limit)).
Proof. intros Hl. destruct (lex_number limit Hl) as (m & Hs & He). parse_query Hs He. reflexivity. Qed.

(** *** Writing *)

Lemma parse_insert_job :
  sql_parse (makeQuery tn (tmplInsertJob loaded)) =
    Some (Insert (tn_JobQueue tn)
      ["next_try"; "created_at"; "retry_count"; "retry_delay"; "fail_count"; "category"; "url"; "payload"; "timeout";
       "failure_url"]
      [EBin OAdd now_expr (EParam 0); now_expr; EParam 1; EParam 2; EParam 3; EParam 4; EParam 5; EParam 6; EParam 7;
       EParam 8]).
Proof. parse_whole. Qed.

Lemma parse_insert_failed_job :
  sql_parse (makeQuery tn (tmplInsertFailedJob loaded)) =
    Some (Insert (tn_Failure tn)
      ["job_id"; "category"; "url"; "payload"; "result"; "fail_count"; "failed_at"; "created_at"] (EParam <$> seq 0 8)).
Proof. parse_whole. Qed.

Lemma parse_delete_job :
  sql_parse (makeQuery tn (tmplDeleteJob loaded)) =
    Some (Delete (tn_JobQueue tn) (EBin OEq (ECol "job_id") (EParam 0))).
Proof. parse_whole. Qed.

Lemma parse_delete_failed_job :
  sql_parse (makeQuery tn (tmplDeleteFailedJob loaded)) =
    Some (Delete (tn_Failure tn) (EBin OEq (ECol "failure_id") (EParam 0))).
Proof. parse_whole. Qed.

Definition update_sets : list (string * expr) :=
  [("grabber_id", EVal VNull); ("status", EVal (VStr "claimed")); ("next_try", EBin OAdd now_expr (EParam 0));
   ("retry_count", EParam 1); ("fail_count", EParam 2)].

Lemma parse_update_job :
  sql_parse (makeQuery tn (tmplUpdateJob loaded)) =
    Some (Update (tn_JobQueue tn) update_sets (EBin OEq (ECol "job_id") (EParam 3))).
Proof. parse_whole. Qed.

Definition launch_sets : list (string * expr) :=
  [("status", EVal (VStr "grabbed")); ("grabber_id", ECall "CONNECTION_ID" None)].

Lemma parse_launch id ids :
  sql_parse (makeQuery tn (tmplLaunchJobs loaded) +:+ id_list (id :: ids)) =
    Some (Update (tn_JobQueue tn) launch_sets (in_ids 0 (id :: ids))).
Proof. parse_query (lex_ids_end id ids) no_more. unfold in_ids. cbn [length]. in_list. Qed.

Definition recover_sets : list (string * expr) := [("status", EVal (VStr "claimed")); ("grabber_id", EVal VNull)].

Lemma parse_recover id ids :
  sql_parse (makeQuery tn (tmplRecoverJobs loaded) +:+ id_list (id :: ids)) =
    Some (Update (tn_JobQueue tn) recover_sets
      (EBin OAnd grabbed_expr (EBin OAnd orphan_expr (in_ids 0 (id :: ids))))).
Proof. parse_query (lex_ids_end id ids) no_more. unfold in_ids. cbn [length]. in_list. Qed.

(** *** Tables *)

Lemma parse_create_jobqueue :
  sql_parse (makeQuery tn (tmplCreateJobqueue loaded)) = Some (CreateTable (tn_JobQueue tn) job_columns ["job_id"]).
Proof. parse_whole. Qed.

Lemma parse_create_failure :
  sql_parse (makeQuery tn (tmplCreateFailure loaded)) =
    Some (CreateTable (tn_Failure tn) failure_columns ["failure_id"]).
Proof. parse_whole. Qed.

Definition failure_url_column : coldef := {|
  cd_name := "failure_url"; cd_type := CBlob; cd_notnull := false; cd_auto := false; cd_default := None |}.

Lemma parse_alter_add_failure_url :
  sql_parse (makeQuery tn (tmplAlterAddFailureURL loaded)) = Some (AddColumn (tn_JobQueue tn) failure_url_column).
Proof. parse_whole. Qed.
End parsing.

(** ** Selects *)

#[export] Instance failure_row_eq_dec : EqDecision failure_row.
Proof. solve_decision. Defined.

Lemma now_expr_value e args cols r : eval e args cols r now_expr = Some (VInt (se_now e)).
Proof. simpl. by rewrite Z.div_mul. Qed.

(** The rows a statement reads are those of the map, in some order. *)
Lemma read_order {A} `{!EqDecision A} (encode : A -> row) cols key next m s (e : sql_env) :
  (forall l, se_order e l ≡ₚ l) -> table_of encode cols key next m s ->
  exists ord, (forall l, ord l ≡ₚ l) /\ se_order e (st_rows s) = encode <$> scan ord m.
Proof.
  intros Ho Ht. assert (se_order e (st_rows s) ≡ₚ encode <$> (map_to_list m).*2) as Hp.
  { rewrite Ho. apply (to_rows _ _ _ _ _ _ Ht). }
  apply Permutation_map_inv in Hp as (l & -> & Hl).
  exists (fun k => if decide (k = (map_to_list m).*2) then l else k). split.
  - intros k. by destruct (decide _) as [->|].
  - unfold scan. by rewrite decide_True.
Qed.

Section selects.
Context {A : Type} (encode : A -> row) (cols : list coldef) (e : sql_env) (args : list value).

(** A SELECT on rows that encode typed rows: its condition a predicate, its order
    an order and its items a function of them. *)
Lemma exec_select db tbl s l items cond order limit (P : A -> Prop) `{!forall x, Decision (P x)} less f :
  db !! tbl = Some s -> st_cols s = cols -> se_order e (st_rows s) = encode <$> l ->
  (forall x, selects e args cols cond (encode x) = Some (bool_decide (P x))) ->
  (forall x y, row_less cols order (encode x) (encode y) = less x y) ->
  (forall x, mapM (eval e args cols (encode x)) items = Some (f x)) ->
  let rows := sort_slice less (filter P l) in
  exec_stmt e args db (Select items tbl cond order limit) =
    Ok (db, Rows (f <$> match limit with Some n => takeZ n rows | None => rows end)).
Proof.
  intros Hs Hc Hl HP Hless Hf rows. simpl. rewrite Hs. simpl. rewrite Hc, Hl, (filter_rows_encode encode _ P) by done.
  simpl. rewrite (sort_slice_encode encode _ less) by done. fold rows.
  assert (match limit with Some n => takeZ n (encode <$> rows) | None => encode <$> rows end =
    encode <$> match limit with Some n => takeZ n rows | None => rows end) as ->.
  { destruct limit; [apply takeZ_encode|done]. }
  by rewrite (mapM_encode encode _ f).
Qed.
End selects.

(** Without ORDER BY the rows are as they are read. *)
Lemma sort_slice_false {A} (l : list A) : sort_slice (fun _ _ => false) l = l.
Proof. induction l as [|x l IH]; [done|]. unfold sort_slice in *. simpl. rewrite IH. by destruct l. Qed.

(** *** Conditions *)

Lemma selects_and e args cols a b r x y :
  selects e args cols a r = Some x -> selects e args cols b r = Some y ->
  selects e args cols (EBin OAnd a b) r = Some (x && y).
Proof.
  unfold selects. intros Ha Hb. simpl. destruct (eval e args cols r a) as [va|]; [|done].
  destruct (eval e args cols r b) as [vb|]; [|done]. simpl in *.
  destruct (truth va) as [ta|]; [|done]. destruct (truth vb) as [tb|]; [|done]. simpl in *.
  injection Ha as <-. injection Hb as <-. by destruct ta as [[]|], tb as [[]|].
Qed.

Lemma selects_or e args cols a b r x y :
  selects e args cols a r = Some x -> selects e args cols b r = Some y ->
  selects e args cols (EBin OOr a b) r = Some (x || y).
Proof.
  unfold selects. intros Ha Hb. simpl. destruct (eval e args cols r a) as [va|]; [|done].
  destruct (eval e args cols r b) as [vb|]; [|done]. simpl in *.
  destruct (truth va) as [ta|]; [|done]. destruct (truth vb) as [tb|]; [|done]. simpl in *.
  injection Ha as <-. injection Hb as <-. by destruct ta as [[]|], tb as [[]|].
Qed.

(** A comparison of integers, as a proposition. *)
Definition int_holds (op : binop) (x y : Z) : bool :=
  match op with
  | OEq => x =? y | ONe => negb (x =? y) | OLt => x <? y | OLe => x <=? y | OGt => y <? x | OGe => y <=? x
  | _ => false
  end.

Lemma selects_int e args cols op a b r x y :
  match op with OAnd | OOr | OAdd | OMul => False | _ => True end ->
  eval e args cols r a = Some (VInt x) -> eval e args cols r b = Some (VInt y) ->
  selects e args cols (EBin op a b) r = Some (int_holds op x y).
Proof.
  intros Hop Ha Hb. unfold selects. cbn [eval]. rewrite Ha, Hb.
  assert (int_holds op x y = holds op (x ?= y)) as ->.
  { destruct op; try done; unfold int_holds, holds; destruct (Z.compare_spec x y); lia. }
  destruct op; try done; simpl; by destruct (x ?= y).
Qed.

Lemma selects_status e args a r s v :
  eval e args job_columns (encode_job r) a = Some (VStr (status_string s)) -> v = bool_decide (r_status r = s) ->
  selects e args job_columns (EBin OEq (ECol "status") a) (encode_job r) = Some v.
Proof.
  intros Ha ->. unfold selects. cbn [eval]. rewrite Ha.
  change (col_value job_columns (encode_job r) "status") with (Some (VStr (status_string (r_status r)))).
  by destruct (r_status r), s.
Qed.

Lemma selects_in e args pre ids r :
  args = pre ++ (VInt <$> ids) ->
  selects e args job_columns (EIn (ECol "job_id") (seq (length pre) (length ids))) (encode_job r) =
    Some (bool_decide (r_job_id r ∈ ids)).
Proof.
  intros ->. unfold selects. cbn [eval].
  change (col_value job_columns (encode_job r) "job_id") with (Some (VInt (r_job_id r))). cbn [mbind option_bind].
  rewrite <- (length_fmap VInt ids), args_ids. cbn [mbind option_bind]. rewrite eval_in_ids. simpl.
  by destruct (bool_decide _).
Qed.

(** [grabber_id != CONNECTION_ID()] is not true of a NULL grabber. *)
Definition grabbed_elsewhere (conn : Z) (r : job_row) : bool :=
  match r_grabber_id r with Some g => negb (g =? conn) | None => false end.

Lemma is_orphan_split conn r : is_orphan conn r = bool_decide (r_status r = Grabbed) && grabbed_elsewhere conn r.
Proof. unfold is_orphan, grabbed_elsewhere. by destruct (r_status r). Qed.

Lemma selects_elsewhere e args r :
  selects e args job_columns orphan_expr (encode_job r) = Some (grabbed_elsewhere (se_conn e) r).
Proof.
  unfold grabbed_elsewhere. destruct (r_grabber_id r) as [g|] eqn:E.
  - eapply (selects_int _ _ _ ONe); [done| |reflexivity]. simpl. unfold col_value. simpl. by rewrite E.
  - unfold selects. simpl. unfold col_value. simpl. by rewrite E.
Qed.

Lemma selects_orphan e args r :
  selects e args job_columns (EBin OAnd grabbed_expr orphan_expr) (encode_job r) = Some (is_orphan (se_conn e) r).
Proof.
  rewrite is_orphan_split. apply selects_and; [by apply (selects_status _ _ _ _ Grabbed)|apply selects_elsewhere].
Qed.

(** Solves the conditions of the statements: connectives, comparisons, the status. *)
Ltac column := first [apply now_expr_value | reflexivity].
Ltac decide_bool :=
  first [ done | unfold int_holds; symmetry; apply bool_decide_ext; lia
        | unfold int_holds; case_bool_decide; lia ].
Ltac condition :=
  rewrite ?bool_decide_and;
  repeat first [ apply selects_and | apply selects_or ];
  first [ apply selects_orphan
        | eapply (selects_status _ _ _ _ Claimed); [reflexivity|done]
        | eapply (selects_status _ _ _ _ Grabbed); [reflexivity|done]
        | eapply selects_status; [reflexivity|done]
        | etransitivity; [eapply selects_int; [done|column|column]|f_equal; decide_bool]
        | idtac ].

(** Solves the comparison of two rows by the columns of ORDER BY. *)
Ltac order_by :=
  unfold key_less, lex_less; simpl; unfold col_value; simpl;
  repeat match goal with |- context [?a ?= ?b] => destruct (Z.compare_spec a b) end; lia.

Section reading.
Context (q : Queue) (e : sql_env) (t : tables) (db : database).
Local Notation tn := (newTableName q).
Context (Horder : forall l, se_order e l ≡ₚ l) (Hrep : represents tn t db).

Lemma jobs_read :
  exists s ord, db !! tn_JobQueue tn = Some s /\ st_cols s = job_columns /\ (forall l, ord l ≡ₚ l) /\
    se_order e (st_rows s) = encode_job <$> scan ord (t_jobs t).
Proof.
  destruct (rep_jobs _ _ _ Hrep) as (s & Hs & Ht). destruct (read_order _ _ _ _ _ _ e Horder Ht) as (ord & Ho & E).
  exists s, ord. split_and!; [done|apply Ht|done|done].
Qed.

Lemma failures_read :
  exists s ord, db !! tn_Failure tn = Some s /\ st_cols s = failure_columns /\ (forall l, ord l ≡ₚ l) /\
    se_order e (st_rows s) = encode_failure <$> scan ord (t_failures t).
Proof.
  destruct (rep_failures _ _ _ Hrep) as (s & Hs & Ht). destruct (read_order _ _ _ _ _ _ e Horder Ht) as (ord & Ho & E).
  exists s, ord. split_and!; [done|apply Ht|done|done].
Qed.

(** The rows of a list of identifiers. *)
Definition id_rows (ids : list Z) : list row := (fun id => [VInt id]) <$> ids.

Section ordered.
Context (s : sql_table) (ord : list job_row -> list job_row) (Hs : db !! tn_JobQueue tn = Some s)
  (Hcols : st_cols s = job_columns) (Hread : se_order e (st_rows s) = encode_job <$> scan ord (t_jobs t)).

Lemma exec_grab limit :
  is_u64 limit ->
  sql_exec e (makeQuery tn (tmplGrabJobs loaded) +:+ str (format_int limit)) [] db =
    Ok (db, Rows (id_rows (sql_grab_jobs ord (se_now e) limit t))).
Proof.
  intros Hl. unfold sql_exec. rewrite (parse_grab q limit Hl). cbn [need rbind].
  rewrite (exec_select encode_job job_columns e [] db _ s _ _ _ _ _
    (fun r => r_status r = Claimed /\ r_next_try r <= se_now e) (key_less r_next_try) (fun r => [VInt (r_job_id r)])
    Hs Hcols Hread).
  - unfold id_rows, sql_grab_jobs. by rewrite <- list_fmap_compose.
  - intros r. condition.
  - intros x y. order_by.
  - intros r. done.
Qed.

Lemma exec_grabbed_select status ids :
  exec_stmt e (VStr (status_string status) :: (VInt <$> ids)) db (grabbed_select q ids) =
    Ok (db, Rows (job_result <$> sql_grabbed_jobs ord status ids t)).
Proof.
  unfold grabbed_select.
  rewrite (exec_select encode_job job_columns e _ db _ s _ _ _ _ _
    (fun r => r_status r = status /\ r_job_id r ∈ ids) (fun _ _ => false) job_result Hs Hcols Hread); [|..|done].
  - by rewrite sort_slice_false.
  - intros r. condition. by apply (selects_in _ _ [VStr (status_string status)]).
  - done.
Qed.

Lemma exec_grabbed id ids :
  sql_exec e (makeQuery tn (tmplGrabbedJobs loaded) +:+ (id_list (id :: ids) +:+ " FOR UPDATE"))
    (VStr "claimed" :: (VInt <$> id :: ids)) db =
    Ok (db, Rows (job_result <$> sql_grabbed_jobs ord Claimed (id :: ids) t)).
Proof. unfold sql_exec. rewrite parse_grabbed. apply (exec_grabbed_select Claimed). Qed.

Lemma exec_grabbed_plain status id ids :
  sql_exec e (makeQuery tn (tmplGrabbedJobs loaded) +:+ id_list (id :: ids))
    (VStr (status_string status) :: (VInt <$> id :: ids)) db =
    Ok (db, Rows (job_result <$> sql_grabbed_jobs ord status (id :: ids) t)).
Proof. unfold sql_exec. rewrite parse_grabbed_plain. apply exec_grabbed_select. Qed.

Lemma exec_orphan :
  sql_exec e (makeQuery tn (tmplOrphanJobs loaded)) [] db =
    Ok (db, Rows (id_rows (sql_orphan_jobs ord (se_conn e) t))).
Proof.
  unfold sql_exec. rewrite parse_orphan. cbn [need rbind].
  rewrite (exec_select encode_job job_columns e [] db _ s _ _ _ _ _
    (fun r => is_orphan (se_conn e) r = true) (fun _ _ => false) (fun r => [VInt (r_job_id r)]) Hs Hcols Hread).
  - unfold id_rows, sql_orphan_jobs. by rewrite <- list_fmap_compose, sort_slice_false.
  - intros r. rewrite selects_orphan. f_equal. by destruct (is_orphan (se_conn e) r).
  - done.
  - done.
Qed.

Lemma exec_inspect_job id :
  sql_exec e (makeQuery tn (tmplInspectJob loaded)) [VInt id] db =
    Ok (db, Rows (job_result <$> filter (fun r => r_job_id r = id) (scan ord (t_jobs t)))).
Proof.
  unfold sql_exec. rewrite parse_inspect_job. cbn [need rbind].
  rewrite (exec_select encode_job job_columns e [VInt id] db _ s _ _ _ _ _
    (fun r => r_job_id r = id) (fun _ _ => false) job_result Hs Hcols Hread); [|..|done].
  - by rewrite sort_slice_false.
  - intros r. condition.
  - done.
Qed.

Lemma exec_inspect_jobs status minTime maxTime maxID limit :
  is_u64 limit ->
  sql_exec e (makeQuery tn (tmplInspectJobs loaded) +:+ str (format_int limit))
    [VStr (status_string status); VInt minTime; VInt maxTime; VInt maxID] db =
    Ok (db, Rows (id_rows (sql_inspect_jobs ord status minTime maxTime maxID limit t))).
Proof.
  intros Hl. unfold sql_exec. rewrite (parse_inspect_jobs q limit Hl). cbn [need rbind].
  rewrite (exec_select encode_job job_columns e _ db _ s _ _ _ _ _
    (fun r => r_status r = status /\ minTime < r_next_try r /\ r_next_try r <= maxTime /\ r_job_id r <= maxID)
    (flip_less (lex_less r_next_try r_job_id)) (fun r => [VInt (r_job_id r)]) Hs Hcols Hread).
  - unfold id_rows, sql_inspect_jobs. by rewrite <- list_fmap_compose.
  - intros r. condition.
  - intros x y. unfold flip_less. order_by.
  - done.
Qed.

Lemma exec_inspect_jobs_asc status minTime maxTime minID limit :
  is_u64 limit ->
  sql_exec e (makeQuery tn (tmplInspectJobsAsc loaded) +:+ str (format_int limit))
    [VStr (status_string status); VInt minTime; VInt maxTime; VInt minID] db =
    Ok (db, Rows (id_rows (sql_inspect_jobs_asc ord status minTime maxTime minID limit t))).
Proof.
  intros Hl. unfold sql_exec. rewrite (parse_inspect_jobs_asc q limit Hl). cbn [need rbind].
  rewrite (exec_select encode_job job_columns e _ db _ s _ _ _ _ _
    (fun r => r_status r = status /\ minTime <= r_next_try r /\ r_next_try r < maxTime /\ minID <= r_job_id r)
    (lex_less r_next_try r_job_id) (fun r => [VInt (r_job_id r)]) Hs Hcols Hread).
  - unfold id_rows, sql_inspect_jobs_asc. by rewrite <- list_fmap_compose.
  - intros r. condition.
  - intros x y. order_by.
  - done.
Qed.
End ordered.

Section ordered_failures.
Context (s : sql_table) (ord : list failure_row -> list failure_row) (Hs : db !! tn_Failure tn = Some s)
  (Hcols : st_cols s = failure_columns) (Hread : se_order e (st_rows s) = encode_failure <$> scan ord (t_failures t)).

Lemma exec_failed_job id :
  sql_exec e (makeQuery tn (tmplFailedJob loaded)) [VInt id] db =
    Ok (db, Rows (encode_failure <$> filter (fun r => f_failure_id r = id) (scan ord (t_failures t)))).
Proof.
  unfold sql_exec. rewrite parse_failed_job. cbn [need rbind].
  rewrite (exec_select encode_failure failure_columns e [VInt id] db _ s _ _ _ _ _
    (fun r => f_failure_id r = id) (fun _ _ => false) encode_failure Hs Hcols Hread); [|..|done].
  - by rewrite sort_slice_false.
  - intros r. condition.
  - done.
Qed.

(** The texts of the two listings of failures. *)
Definition failures_template (query : failure_query) : template :=
  match query with
  | failedJobs => tmplFailedJobs loaded
  | recentlyFailedJobs => tmplRecentlyFailedJobs loaded
  end.

Lemma exec_failures query maxTime maxID limit :
  is_u64 limit ->
  sql_exec e (makeQuery tn (failures_template query) +:+ str (format_int limit))
    [VInt maxTime; VInt maxTime; VInt maxID] db =
    Ok (db, Rows (encode_failure <$> sql_failures query ord maxTime maxID limit t)).
Proof.
  intros Hl. unfold sql_exec, sql_failures. destruct query; cbn [failures_template].
  - rewrite (parse_failed_jobs q limit Hl). cbn [need rbind].
    rewrite (exec_select encode_failure failure_columns e _ db _ s _ _ _ _ _
      (fun r => failure_where failedJobs maxTime maxID r = true) (failure_less failedJobs) encode_failure Hs Hcols Hread);
      [done|..|done].
    + intros r. etransitivity; [condition|]. simpl. unfold int_holds. f_equal. case_bool_decide; lia.
    + intros x y. simpl. unfold flip_less. order_by.
  - rewrite (parse_recently_failed_jobs q limit Hl). cbn [need rbind].
    rewrite (exec_select encode_failure failure_columns e _ db _ s _ _ _ _ _
      (fun r => failure_where recentlyFailedJobs maxTime maxID r = true) (failure_less recentlyFailedJobs) encode_failure
      Hs Hcols Hread); [done|..|done].
    + intros r. etransitivity; [condition|]. simpl. unfold int_holds. f_equal. case_bool_decide; lia.
    + intros x y. simpl. unfold flip_less. order_by.
Qed.
End ordered_failures.
End reading.

(** ** Statements that write *)

(** The rows of a table as a list of typed rows. *)
Lemma table_rows {A} (encode : A -> row) cols key next m s :
  table_of encode cols key next m s -> exists l, st_rows s = encode <$> l /\ l ≡ₚ (map_to_list m).*2.
Proof.
  intros Ht. destruct (Permutation_map_inv encode _ (to_rows _ _ _ _ _ _ Ht)) as (l & E & Hl). by exists l.
Qed.

Lemma elem_of_values {A} (m : gmap Z A) l x : l ≡ₚ (map_to_list m).*2 -> x ∈ l <-> exists id, m !! id = Some x.
Proof.
  intros ->. rewrite list_elem_of_fmap. split.
  - intros ([id y] & -> & Hin%elem_of_map_to_list). eauto.
  - intros (id & Hin). exists (id, x). by rewrite elem_of_map_to_list.
Qed.

Lemma map_to_list_filter' {A} (P : Z * A -> Prop) `{!forall x, Decision (P x)} (m : gmap Z A) :
  map_to_list (filter P m) ≡ₚ filter P (map_to_list m).
Proof.
  apply NoDup_Permutation; [apply NoDup_map_to_list|apply NoDup_filter, NoDup_map_to_list|].
  intros [i x]. rewrite elem_of_map_to_list, map_lookup_filter_Some, list_elem_of_filter, elem_of_map_to_list. tauto.
Qed.

Section writes.
Context {A : Type} (encode : A -> row) (cols : list coldef) (key : string) (next : Z) (m : gmap Z A) (s : sql_table)
  (e : sql_env) (args : list value) (db : database) (tbl : string)
  (Hs : db !! tbl = Some s) (Ht : table_of encode cols key next m s).

Lemma exec_update sets cond g :
  (forall id x, m !! id = Some x -> updated_row e args cols sets cond (encode x) = Some (encode (g x))) ->
  exists s', exec_stmt e args db (Update tbl sets cond) = Ok (<[tbl := s']> db, Done 0) /\
    table_of encode cols key next (g <$> m) s'.
Proof.
  intros Hg. destruct (table_rows _ _ _ _ _ _ Ht) as (l & El & Hl).
  exists (with_rows (encode <$> (g <$> l)) s). simpl. rewrite Hs. simpl.
  rewrite (to_cols _ _ _ _ _ _ Ht), El, (mapM_encode_in encode _ (fun x => encode (g x))).
  - simpl. split; [by rewrite <- list_fmap_compose|]. split; simpl; [apply Ht..|].
    rewrite map_to_list_fmap, Hl. by rewrite <- !list_fmap_compose.
  - intros x Hx. apply (elem_of_values m l x Hl) in Hx as [id Hid]. by eapply Hg.
Qed.

Lemma exec_update_fails sets cond id x :
  m !! id = Some x -> updated_row e args cols sets cond (encode x) = None ->
  exec_stmt e args db (Update tbl sets cond) = Err (MySQLError ER_WARN_DATA_OUT_OF_RANGE).
Proof.
  intros Hx Hu. destruct (table_rows _ _ _ _ _ _ Ht) as (l & El & Hl). simpl. rewrite Hs. simpl.
  rewrite (to_cols _ _ _ _ _ _ Ht), El. erewrite (mapM_fails encode); [done| |exact Hu].
  apply (elem_of_values m l x Hl). eauto.
Qed.

Lemma exec_delete cond (P : A -> Prop) `{!forall x, Decision (P x)} m' :
  (forall x, selects e args cols cond (encode x) = Some (bool_decide (P x))) ->
  (forall id, m' !! id = (x ← m !! id; if decide (P x) then None else Some x)) ->
  exists s', exec_stmt e args db (Delete tbl cond) = Ok (<[tbl := s']> db, Done 0) /\
    table_of encode cols key next m' s'.
Proof.
  intros HP Hm'. destruct (table_rows _ _ _ _ _ _ Ht) as (l & El & Hl).
  exists (with_rows (encode <$> filter (fun x => ¬ P x) l) s). simpl. rewrite Hs. simpl.
  rewrite (to_cols _ _ _ _ _ _ Ht), El, (filter_rows_encode encode _ (fun x => ¬ P x)).
  - simpl. split; [done|]. split; simpl; [apply Ht..|].
    assert (m' = filter (fun p => ¬ P p.2) m) as ->.
    { apply map_eq. intros id. rewrite Hm', map_lookup_filter. destruct (m !! id) as [x|]; [|done]. simpl.
      destruct (decide (P x)); [by rewrite option_guard_False by tauto|by rewrite option_guard_True]. }
    rewrite map_to_list_filter', Hl. clear. f_equiv.
    induction (map_to_list m) as [|[id x] k IH]; [done|]. rewrite fmap_cons, !filter_cons. simpl.
    destruct (decide (¬ P x)); [rewrite fmap_cons|]; by rewrite IH.
  - intros x. rewrite HP. simpl. f_equal. by rewrite bool_decide_not.
Qed.

(** A new row with a fresh key. *)
Lemma exec_insert inscols vals vs x :
  mapM (eval e args [] []) vals = Some vs -> mapM (insert_value s (zip inscols vs)) cols = Some (encode x) ->
  row_fits_cols cols (encode x) = true -> col_value cols (encode x) key = Some (VInt next) -> m !! next = None ->
  (forall id y, m !! id = Some y -> col_value cols (encode y) key <> Some (VInt next)) ->
  exists s', exec_stmt e args db (Insert tbl inscols vals) = Ok (<[tbl := s']> db, Done next) /\
    table_of encode cols key (next + 1) (<[next := x]> m) s'.
Proof.
  intros Hvs Hrow Hfit Hkey Hfresh Hother. destruct (table_rows _ _ _ _ _ _ Ht) as (l & El & Hl).
  eexists. simpl. rewrite Hs. simpl. rewrite Hvs. simpl. rewrite (to_cols _ _ _ _ _ _ Ht), Hrow. simpl.
  rewrite Hfit. simpl. rewrite bool_decide_false.
  - rewrite (to_auto _ _ _ _ _ _ Ht). split; [done|].
    split; simpl; [done|apply Ht|done|].
    rewrite (to_rows _ _ _ _ _ _ Ht), map_to_list_insert by done. simpl.
    by rewrite (comm app).
  - rewrite El. unfold key_of. rewrite (to_key _ _ _ _ _ _ Ht), (to_cols _ _ _ _ _ _ Ht). simpl. rewrite Hkey.
    intros (r & E & Hr)%list_elem_of_fmap. apply list_elem_of_fmap in Hr as (y & -> & Hy).
    apply (elem_of_values m l y Hl) in Hy as [id Hid]. apply (Hother id y Hid). simpl in E. congruence.
Qed.

Lemma exec_insert_fails inscols vals vs r :
  mapM (eval e args [] []) vals = Some vs -> mapM (insert_value s (zip inscols vs)) cols = Some r ->
  row_fits_cols cols r = false ->
  exec_stmt e args db (Insert tbl inscols vals) = Err (MySQLError ER_WARN_DATA_OUT_OF_RANGE).
Proof.
  intros Hvs Hrow Hfit. simpl. rewrite Hs. simpl. rewrite Hvs. simpl. rewrite (to_cols _ _ _ _ _ _ Ht), Hrow. simpl.
  by rewrite Hfit.
Qed.
End writes.

(** *** The columns of a job *)

Lemma status_fits s : bool_decide (status_string s ∈ ["claimed"; "grabbed"]) = true.
Proof. by destruct s. Qed.

Lemma job_fits r :
  row_fits_cols job_columns (encode_job r) =
    row_fits r && match r_grabber_id r with Some g => bool_decide (is_u64 g) | None => true end.
Proof.
  unfold row_fits. cbv [job_columns encode_job row_fits_cols value_fits type_fits cd_type cd_notnull negb].
  rewrite status_fits. apply eq_iff_eq_true.
  destruct (r_grabber_id r), (r_failure_url r); cbn [default]; rewrite !andb_true_iff; tauto.
Qed.

Lemma failure_columns_fit r : row_fits_cols failure_columns (encode_failure r) = failure_fits r.
Proof.
  unfold failure_fits.
  cbv [failure_columns encode_failure row_fits_cols value_fits type_fits cd_type cd_notnull].
  apply eq_iff_eq_true. rewrite !andb_true_iff. tauto.
Qed.

(** Failures have their keys, below the next one. *)
Definition failure_keys_ok (t : tables) : Prop :=
  map_Forall (fun id r => f_failure_id r = id /\ id < t_next_failure_id t) (t_failures t).

Lemma table_names_differ q : tn_JobQueue (newTableName q) <> tn_Failure (newTableName q).
Proof. unfold newTableName. simpl. by intros [=]. Qed.

(** Tables other than the two of the queue are the same. *)
Definition other_tables (q : Queue) (db db' : database) : Prop :=
  forall tbl, tbl <> tn_JobQueue (newTableName q) -> tbl <> tn_Failure (newTableName q) -> db' !! tbl = db !! tbl.

(** The effect of a statement that writes: new tables and the identifier of an
    inserted row, or an error that leaves the database alone. *)
Definition performs (q : Queue) (e : sql_env) (text : string) (args : list value) (db : database)
    (o : option (tables * Z)) : Prop :=
  match o with
  | Some (t', id) => exists db', sql_exec e text args db = Ok (db', Done id) /\
      represents (newTableName q) t' db' /\ other_tables q db db'
  | None => exists err, sql_exec e text args db = Err err
  end.

Section writing.
Context (q : Queue) (e : sql_env) (t : tables) (db : database).
Local Notation tn := (newTableName q).
Context (Hrep : represents tn t db) (Hok : jobs_ok t) (Hconn : is_u64 (se_conn e)).

Lemma write_jobs s' m next :
  table_of encode_job job_columns "job_id" next m s' ->
  represents tn {| t_jobs := m; t_next_job_id := next; t_failures := t_failures t;
                   t_next_failure_id := t_next_failure_id t |} (<[tn_JobQueue tn := s']> db) /\
  other_tables q db (<[tn_JobQueue tn := s']> db).
Proof.
  intros H. split; [split|by intros tbl H1 H2; apply lookup_insert_ne].
  - exists s'. split; [apply lookup_insert_eq|done].
  - destruct (rep_failures _ _ _ Hrep) as (s & Hs & Ht). exists s. split; [|done].
    by rewrite lookup_insert_ne by apply table_names_differ.
Qed.

Lemma write_failures s' m next :
  table_of encode_failure failure_columns "failure_id" next m s' ->
  represents tn {| t_jobs := t_jobs t; t_next_job_id := t_next_job_id t; t_failures := m;
                   t_next_failure_id := next |} (<[tn_Failure tn := s']> db) /\
  other_tables q db (<[tn_Failure tn := s']> db).
Proof.
  intros H. split; [split|by intros tbl H1 H2; apply lookup_insert_ne].
  - destruct (rep_jobs _ _ _ Hrep) as (s & Hs & Ht). exists s. split; [|done].
    by rewrite lookup_insert_ne by (intros E; by apply (table_names_differ q)).
  - exists s'. split; [apply lookup_insert_eq|done].
Qed.

Lemma perform_insert_job nd rc rd fc c u p to fu :
  performs q e (makeQuery tn (tmplInsertJob loaded))
    [VInt nd; VInt rc; VInt rd; VInt fc; VStr c; VStr u; VStr p; VInt to; VStr fu] db
    (sql_insert_job (se_now e) nd rc rd fc c u p to fu t).
Proof.
  destruct (rep_jobs _ _ _ Hrep) as (s & Hs & Ht). unfold performs, sql_exec. rewrite parse_insert_job. cbn [need rbind].
  unfold sql_insert_job. set (r := Build_job_row _ _ _ _ _ _ _ _ _ _ _ _ _).
  assert (row_fits_cols job_columns (encode_job r) = row_fits r) as Hfit by (by rewrite job_fits, andb_true_r).
  set (args := [VInt nd; VInt rc; VInt rd; VInt fc; VStr c; VStr u; VStr p; VInt to; VStr fu]).
  set (vs := [VInt (se_now e + nd); VInt (se_now e); VInt rc; VInt rd; VInt fc; VStr c; VStr u; VStr p; VInt to; VStr fu]).
  assert (mapM (eval e args [] []) [EBin OAdd now_expr (EParam 0); now_expr; EParam 1; EParam 2; EParam 3; EParam 4;
    EParam 5; EParam 6; EParam 7; EParam 8] = Some vs) as Hvs.
  { cbn -[now_expr eval]. cbn [eval]. rewrite !now_expr_value. reflexivity. }
  assert (mapM (insert_value s (zip ["next_try"; "created_at"; "retry_count"; "retry_delay"; "fail_count"; "category";
    "url"; "payload"; "timeout"; "failure_url"] vs)) job_columns = Some (encode_job r)) as Hrow.
  { unfold job_columns. cbn. by rewrite (to_auto _ _ _ _ _ _ Ht). }
  destruct (row_fits r) eqn:Ef.
  - destruct (exec_insert encode_job job_columns "job_id" _ _ s e args db _ Hs Ht _ _ vs r Hvs Hrow) as (s' & E & Ht').
    + by rewrite Hfit.
    + done.
    + destruct (t_jobs t !! t_next_job_id t) as [y|] eqn:Ey; [|done]. pose proof (ok_next _ _ _ (Hok _ _ Ey)). lia.
    + intros id y Hy. pose proof (Hok _ _ Hy) as [Hid Hn _ _]. cbn. intros [= E]. lia.
    + eexists. split; [exact E|]. by apply write_jobs.
  - eexists. by eapply (exec_insert_fails encode_job).
Qed.

Lemma perform_delete_job id :
  performs q e (makeQuery tn (tmplDeleteJob loaded)) [VInt id] db (Some (sql_delete_job id t, 0)).
Proof.
  destruct (rep_jobs _ _ _ Hrep) as (s & Hs & Ht). unfold performs, sql_exec. rewrite parse_delete_job. cbn [need rbind].
  destruct (exec_delete encode_job _ _ _ _ s e [VInt id] db _ Hs Ht (EBin OEq (ECol "job_id") (EParam 0))
    (fun r => r_job_id r = id) (delete id (t_jobs t))) as (s' & E & Ht').
  - intros r. condition.
  - intros i. destruct (decide (i = id)) as [->|Hne].
    + rewrite lookup_delete_eq. destruct (t_jobs t !! id) as [r|] eqn:Hr; [|done]. simpl.
      by rewrite decide_True by apply (Hok _ _ Hr).
    + rewrite lookup_delete_ne by done. destruct (t_jobs t !! i) as [r|] eqn:Hr; [|done]. simpl.
      rewrite decide_False; [done|]. by rewrite (ok_id _ _ _ (Hok _ _ Hr)).
  - eexists. split; [exact E|]. by apply write_jobs.
Qed.

(** An UPDATE that sets the status of the selected jobs. *)
Lemma perform_set_status text args sets cond P status grabber :
  sql_parse text = Some (Update (tn_JobQueue tn) sets cond) -> (grabber = None \/ grabber = Some (se_conn e)) ->
  (forall r, selects e args job_columns cond (encode_job r) = Some (P r)) ->
  (forall r, assign e args job_columns sets (encode_job r) = Some (encode_job (set_status status grabber r))) ->
  performs q e text args db (Some (update_where P (set_status status grabber) t, 0)).
Proof.
  intros Hp Hgr HP Hset. destruct (rep_jobs _ _ _ Hrep) as (s & Hs & Ht). unfold performs, sql_exec. rewrite Hp.
  cbn [need rbind].
  destruct (exec_update encode_job _ _ _ _ s e args db _ Hs Ht sets cond (fun r => if P r then set_status status grabber r else r))
    as (s' & E & Ht').
  - intros id r Hr. unfold updated_row. rewrite HP. cbn [mbind option_bind]. destruct (P r); [|done]. rewrite Hset. cbn [mbind option_bind].
    rewrite job_fits. assert (row_fits (set_status status grabber r) = true) as -> by apply (Hok _ _ Hr).
    simpl. destruct Hgr as [->| ->]; simpl; [done|]. by rewrite bool_decide_true.
  - eexists. split; [exact E|]. by apply write_jobs.
Qed.

Lemma perform_launch id ids :
  performs q e (makeQuery tn (tmplLaunchJobs loaded) +:+ id_list (id :: ids)) (VInt <$> id :: ids) db
    (Some (sql_launch_jobs (se_conn e) (id :: ids) t, 0)).
Proof.
  eapply perform_set_status; [apply parse_launch|by right| |done].
  intros r. by apply (selects_in _ _ []).
Qed.

Lemma perform_recover id ids :
  performs q e (makeQuery tn (tmplRecoverJobs loaded) +:+ id_list (id :: ids)) (VInt <$> id :: ids) db
    (Some (sql_recover_jobs (se_conn e) (id :: ids) t, 0)).
Proof.
  eapply perform_set_status; [apply parse_recover|by left| |done].
  intros r. rewrite is_orphan_split, <- andb_assoc. apply selects_and; [by apply (selects_status _ _ _ _ Grabbed)|].
  apply selects_and; [apply selects_elsewhere|]. by apply (selects_in _ _ []).
Qed.

Section updating.
Context (nd rc fc id : Z).
Let args := [VInt nd; VInt rc; VInt fc; VInt id].
Let f := update_row (se_now e) nd rc fc.
Let cond := EBin OEq (ECol "job_id") (EParam 3).

Lemma update_job_row r :
  updated_row e args job_columns update_sets cond (encode_job r) =
    if r_job_id r =? id then if row_fits (f r) then Some (encode_job (f r)) else None else Some (encode_job r).
Proof.
  unfold updated_row.
  assert (selects e args job_columns cond (encode_job r) = Some (r_job_id r =? id)) as -> by by eapply selects_int.
  cbn [mbind option_bind]. destruct (_ =? _); [|done].
  assert (assign e args job_columns update_sets (encode_job r) = Some (encode_job (f r))) as ->.
  { unfold update_sets. cbn -[now_expr eval]. cbn [eval mbind option_bind]. rewrite now_expr_value. reflexivity. }
  cbn [mbind option_bind]. by rewrite job_fits, andb_true_r.
Qed.

(** The update succeeds when the new row fits, if there is one. *)
Lemma update_job_done :
  (forall i r, t_jobs t !! i = Some r -> r_job_id r = id -> row_fits (f r) = true) ->
  let m := (fun r => if r_job_id r =? id then f r else r) <$> t_jobs t in
  exists db', exec_stmt e args db (Update (tn_JobQueue tn) update_sets cond) = Ok (db', Done 0) /\
    represents tn (with_jobs m t) db' /\ other_tables q db db'.
Proof.
  intros Hfit m. destruct (rep_jobs _ _ _ Hrep) as (s & Hs & Ht).
  destruct (exec_update encode_job _ _ _ _ s e args db _ Hs Ht update_sets cond
    (fun r => if r_job_id r =? id then f r else r)) as (s' & E & Ht').
  - intros i r Hr. rewrite update_job_row. destruct (Z.eqb_spec (r_job_id r) id); [|done]. by rewrite (Hfit i r).
  - eexists. split; [exact E|]. by apply write_jobs.
Qed.

Lemma perform_update_job :
  performs q e (makeQuery tn (tmplUpdateJob loaded)) args db
    ((fun t' => (t', 0)) <$> sql_update_job (se_now e) nd rc fc id t).
Proof.
  unfold performs, sql_exec. rewrite parse_update_job. cbn [need rbind]. unfold sql_update_job. fold f.
  pose proof update_job_done as Hdone. destruct (t_jobs t !! id) as [r|] eqn:Hr.
  - destruct (row_fits (f r)) eqn:Hfit; simpl.
    + assert (<[id := f r]> (t_jobs t) = (fun r => if r_job_id r =? id then f r else r) <$> t_jobs t) as ->.
      { apply map_eq. intros i. rewrite lookup_fmap. destruct (decide (i = id)) as [->|Hne].
        - rewrite Hr, lookup_insert_eq. simpl. by rewrite (ok_id _ _ _ (Hok _ _ Hr)), Z.eqb_refl.
        - rewrite lookup_insert_ne by done. destruct (t_jobs t !! i) as [r'|] eqn:Hr'; [|done]. simpl.
          rewrite (ok_id _ _ _ (Hok _ _ Hr')). by destruct (Z.eqb_spec i id). }
      apply Hdone. intros i r' Hr' Hid. assert (i = id) as -> by by eapply jobs_ok_inj. congruence.
    + destruct (rep_jobs _ _ _ Hrep) as (s & Hs & Ht).
      eexists. eapply (exec_update_fails encode_job); [exact Hs|exact Ht|exact Hr|].
      by rewrite update_job_row, (ok_id _ _ _ (Hok _ _ Hr)), Z.eqb_refl, Hfit.
  - destruct Hdone as (db' & E & Hdb' & Hother).
    + intros i r' Hr' Hid. assert (i = id) as -> by by eapply jobs_ok_inj. congruence.
    + exists db'. split; [exact E|]. split; [|done].
      replace ((fun r => if r_job_id r =? id then f r else r) <$> t_jobs t) with (t_jobs t) in Hdb'; [by destruct t|].
      apply map_eq. intros i. rewrite lookup_fmap. destruct (t_jobs t !! i) as [r'|] eqn:Hr'; [|done]. simpl.
      destruct (Z.eqb_spec (r_job_id r') id) as [Hid|]; [|done].
      assert (i = id) as -> by by eapply jobs_ok_inj. congruence.
Qed.
End updating.

Context (Hkeys : failure_keys_ok t).

Lemma perform_insert_failed_job jid c u p res fc fa ca :
  performs q e (makeQuery tn (tmplInsertFailedJob loaded))
    [VInt jid; VStr c; VStr u; VStr p; VStr res; VInt fc; VInt fa; VInt ca] db
    ((fun t' => (t', t_next_failure_id t)) <$> sql_insert_failed_job jid c u p res fc fa ca t).
Proof.
  destruct (rep_failures _ _ _ Hrep) as (s & Hs & Ht). unfold performs, sql_exec. rewrite parse_insert_failed_job.
  cbn [need rbind]. unfold sql_insert_failed_job. set (r := Build_failure_row _ _ _ _ _ _ _ _ _).
  set (args := [VInt jid; VStr c; VStr u; VStr p; VStr res; VInt fc; VInt fa; VInt ca]).
  assert (mapM (eval e args [] []) (EParam <$> seq 0 8) = Some args) as Hvs by done.
  assert (mapM (insert_value s (zip ["job_id"; "category"; "url"; "payload"; "result"; "fail_count"; "failed_at";
    "created_at"] args)) failure_columns = Some (encode_failure r)) as Hrow.
  { unfold failure_columns. cbn. by rewrite (to_auto _ _ _ _ _ _ Ht). }
  pose proof (failure_columns_fit r) as Hfit. destruct (failure_fits r) eqn:Ef.
  - destruct (exec_insert encode_failure failure_columns "failure_id" _ _ s e args db _ Hs Ht _ _ args r Hvs Hrow Hfit)
      as (s' & E & Ht').
    + done.
    + destruct (t_failures t !! t_next_failure_id t) as [y|] eqn:Ey; [|done]. destruct (Hkeys _ _ Ey). lia.
    + intros id y Hy. destruct (Hkeys _ _ Hy) as [Hid Hn]. cbn. intros [= E]. lia.
    + eexists. split; [exact E|]. by apply write_failures.
  - eexists. by eapply (exec_insert_fails encode_failure).
Qed.

Lemma perform_delete_failed_job id :
  performs q e (makeQuery tn (tmplDeleteFailedJob loaded)) [VInt id] db (Some (sql_delete_failed_job id t, 0)).
Proof.
  destruct (rep_failures _ _ _ Hrep) as (s & Hs & Ht). unfold performs, sql_exec. rewrite parse_delete_failed_job.
  cbn [need rbind].
  destruct (exec_delete encode_failure _ _ _ _ s e [VInt id] db _ Hs Ht (EBin OEq (ECol "failure_id") (EParam 0))
    (fun r => f_failure_id r = id) (delete id (t_failures t))) as (s' & E & Ht').
  - intros r. condition.
  - intros i. destruct (decide (i = id)) as [->|Hne].
    + rewrite lookup_delete_eq. destruct (t_failures t !! id) as [r|] eqn:Hr; [|done]. simpl.
      by rewrite decide_True by apply (Hkeys _ _ Hr).
    + rewrite lookup_delete_ne by done. destruct (t_failures t !! i) as [r|] eqn:Hr; [|done]. simpl.
      rewrite decide_False; [done|]. by rewrite (proj1 (Hkeys _ _ Hr)).
  - eexists. split; [exact E|]. by apply write_failures.
Qed.
End writing.

(** ** Starting a queue *)

Local Open Scope go_scope.

(** The statements of [Start]: the tables are created unless they exist, and a
    column is added to tables made by older versions. *)
Definition start_tables (sq : sqls) (e : sql_env) (db : database) : result sql_error database :=
  let* r1 := sql_exec e (q_createJobqueue sq) [] db in
  let* r2 := sql_exec e (q_createFailure sq) [] (fst r1) in
  match sql_exec e (q_alterAddFailureURL sq) [] (fst r2) with
  | Ok (db', _) => Ok db'
  | Err (MySQLError n) => if n =? ER_DUP_FIELDNAME then Ok (fst r2) else Err (MySQLError n)
  | Err err => Err err
  end.

Local Close Scope go_scope.

(** A job table made before there was the column [failure_url]. *)
Definition old_columns : list coldef := take 12 job_columns.
Definition encode_old_job (r : job_row) : row := take 12 (encode_job r).

Lemma queue_sqls_loaded q sq : queue_sqls q = Some sq -> sq = makeQueries loaded (newTableName q).
Proof. unfold queue_sqls. rewrite sql_init_loaded. simpl. by intros [= <-]. Qed.

(** The names of both tables of a queue are identifiers. *)
Definition table_names_fit (q : Queue) : Prop := strlen (tn_Failure (newTableName q)) <= max_identifier.

Lemma strlen_str l : strlen (str l) = Z.of_nat (length l).
Proof.
  unfold strlen, str. induction l as [|a l IH]; cbn [String.string_of_list_ascii String.length length]; lia.
Qed.

Lemma strlen_chars s : Z.of_nat (length (chars s)) = strlen s.
Proof. by rewrite <- strlen_str, str_chars. Qed.

Lemma strlen_app s1 s2 : strlen (s1 +:+ s2) = strlen s1 + strlen s2.
Proof. rewrite <- !strlen_chars, chars_app, length_app. lia. Qed.

Lemma replace_invalid_length fuel l : (length (replace_invalid fuel l) <= fuel)%nat.
Proof.
  revert l. induction fuel as [|fuel IH]; intros [|a l]; cbn [replace_invalid length]; [lia..|].
  destruct (table_char a); cbn [length]; apply le_n_S, IH.
Qed.

Section starting.
Context (q : Queue) (e : sql_env).
Local Notation tn := (newTableName q).
Local Notation sq := (makeQueries loaded tn).

Lemma failure_name_longer : strlen (tn_Failure tn) = strlen (tn_JobQueue tn) + 5.
Proof.
  unfold newTableName. cbn [tn_Failure tn_JobQueue]. rewrite !strlen_app.
  change (strlen "fireworq_jq_fail(") with 17. change (strlen "fireworq_jq(") with 12. lia.
Qed.

Lemma failure_name_length :
  strlen (tn_Failure tn) = 18 + Z.of_nat (length (replace_invalid (length (chars (Name q))) (chars (Name q)))).
Proof.
  unfold newTableName. cbn [tn_Failure]. rewrite !strlen_app, strlen_str.
  change (strlen "fireworq_jq_fail(") with 17. change (strlen ")") with 1. lia.
Qed.

Lemma short_names_fit : strlen (Name q) <= 46 -> table_names_fit q.
Proof.
  unfold table_names_fit, max_identifier. rewrite failure_name_length, <- strlen_chars. intros H.
  pose proof (replace_invalid_length (length (chars (Name q))) (chars (Name q))). lia.
Qed.

Lemma plain_names_fit : plain_name (Name q) -> table_names_fit q -> strlen (Name q) <= 46.
Proof.
  unfold table_names_fit, max_identifier. rewrite failure_name_length. intros H%replace_invalid_id.
  rewrite H, strlen_chars. lia.
Qed.

Lemma exec_create_jobqueue db :
  strlen (tn_JobQueue tn) <= max_identifier ->
  sql_exec e (q_createJobqueue sq) [] db =
    Ok (match db !! tn_JobQueue tn with
        | Some _ => db
        | None => <[tn_JobQueue tn := {| st_cols := job_columns; st_key := ["job_id"]; st_auto := 1; st_rows := [] |}]> db
        end, Done 0).
Proof.
  intros Hl. unfold sql_exec. cbn [q_createJobqueue makeQueries]. rewrite parse_create_jobqueue.
  cbn [need rbind exec_stmt]. rewrite (proj2 (Z.ltb_ge _ _) Hl). by destruct (db !! tn_JobQueue tn).
Qed.

Lemma exec_create_failure db :
  table_names_fit q ->
  sql_exec e (q_createFailure sq) [] db =
    Ok (match db !! tn_Failure tn with
        | Some _ => db
        | None => <[tn_Failure tn := {| st_cols := failure_columns; st_key := ["failure_id"]; st_auto := 1; st_rows := [] |}]> db
        end, Done 0).
Proof.
  intros Hl. unfold sql_exec. cbn [q_createFailure makeQueries]. rewrite parse_create_failure.
  cbn [need rbind exec_stmt]. rewrite (proj2 (Z.ltb_ge _ _) Hl). by destruct (db !! tn_Failure tn).
Qed.

Lemma exec_create_failure_long db :
  ~ table_names_fit q -> sql_exec e (q_createFailure sq) [] db = Err (MySQLError ER_TOO_LONG_IDENT).
Proof.
  unfold table_names_fit. intros Hl. unfold sql_exec. cbn [q_createFailure makeQueries]. rewrite parse_create_failure.
  cbn [need rbind exec_stmt]. rewrite (proj2 (Z.ltb_lt _ _)) by lia. done.
Qed.

Lemma exec_create_jobqueue_long db :
  max_identifier < strlen (tn_JobQueue tn) ->
  sql_exec e (q_createJobqueue sq) [] db = Err (MySQLError ER_TOO_LONG_IDENT).
Proof.
  intros Hl. unfold sql_exec. cbn [q_createJobqueue makeQueries]. rewrite parse_create_jobqueue.
  cbn [need rbind exec_stmt]. by rewrite (proj2 (Z.ltb_lt _ _) Hl).
Qed.

Lemma exec_alter_present db s :
  db !! tn_JobQueue tn = Some s -> st_cols s = job_columns ->
  sql_exec e (q_alterAddFailureURL sq) [] db = Err (MySQLError ER_DUP_FIELDNAME).
Proof.
  intros Hs Hc. unfold sql_exec. cbn [q_alterAddFailureURL makeQueries]. rewrite parse_alter_add_failure_url.
  cbn [need rbind exec_stmt]. rewrite Hs. cbn [need rbind]. rewrite Hc. reflexivity.
Qed.

(** The job table before the program starts: not there, as the program makes it,
    or made before there was [failure_url]. *)
Definition job_table_before (t : tables) (db : database) : Prop :=
  (db !! tn_JobQueue tn = None /\ t_jobs t = ∅ /\ t_next_job_id t = 1) \/
  (exists s, db !! tn_JobQueue tn = Some s /\
    table_of encode_job job_columns "job_id" (t_next_job_id t) (t_jobs t) s) \/
  (exists s, db !! tn_JobQueue tn = Some s /\
    table_of encode_old_job old_columns "job_id" (t_next_job_id t) (t_jobs t) s /\
    map_Forall (fun _ r => r_failure_url r = None) (t_jobs t)).

Definition failure_table_before (t : tables) (db : database) : Prop :=
  (db !! tn_Failure tn = None /\ t_failures t = ∅ /\ t_next_failure_id t = 1) \/
  (exists s, db !! tn_Failure tn = Some s /\
    table_of encode_failure failure_columns "failure_id" (t_next_failure_id t) (t_failures t) s).

(** A job table with the rows [t] has, of this version or of an older one. *)
Definition job_table_there (t : tables) (s : sql_table) : Prop :=
  table_of encode_job job_columns "job_id" (t_next_job_id t) (t_jobs t) s \/
  table_of encode_old_job old_columns "job_id" (t_next_job_id t) (t_jobs t) s /\
  map_Forall (fun _ r => r_failure_url r = None) (t_jobs t).

Definition failure_table_there (t : tables) (s : sql_table) : Prop :=
  table_of encode_failure failure_columns "failure_id" (t_next_failure_id t) (t_failures t) s.

Lemma created_jobqueue t db :
  table_names_fit q -> job_table_before t db ->
  exists db' s, sql_exec e (q_createJobqueue sq) [] db = Ok (db', Done 0) /\
    db' !! tn_JobQueue tn = Some s /\ job_table_there t s /\ (forall tbl, tbl <> tn_JobQueue tn -> db' !! tbl = db !! tbl) /\
    (is_Some (db !! tn_JobQueue tn) -> db' = db).
Proof.
  unfold table_names_fit. rewrite failure_name_longer. intros Hfit Hb. rewrite exec_create_jobqueue by lia.
  destruct Hb as [(E & Et & En)|[(s & E & Ht)|(s & E & Ht)]]; rewrite E.
  - eexists _, _. split; [done|]. rewrite lookup_insert_eq. split; [done|]. split_and!.
    + left. rewrite Et, En. by split.
    + intros tbl Hne. by rewrite lookup_insert_ne.
    + by intros [].
  - exists db, s. split_and!; [done|done|by left|done|done].
  - exists db, s. split_and!; [done|done|by right|done|done].
Qed.

Lemma created_failure t db :
  table_names_fit q -> failure_table_before t db ->
  exists db' s, sql_exec e (q_createFailure sq) [] db = Ok (db', Done 0) /\
    db' !! tn_Failure tn = Some s /\ failure_table_there t s /\ (forall tbl, tbl <> tn_Failure tn -> db' !! tbl = db !! tbl) /\
    (is_Some (db !! tn_Failure tn) -> db' = db).
Proof.
  intros Hfit Hb. rewrite exec_create_failure by done. destruct Hb as [(E & Et & En)|(s & E & Ht)]; rewrite E.
  - eexists _, _. split; [done|]. rewrite lookup_insert_eq. split; [done|]. split_and!.
    + unfold failure_table_there. rewrite Et, En. by split.
    + intros tbl Hne. by rewrite lookup_insert_ne.
    + by intros [].
  - by exists db, s.
Qed.

(** The column is added to a table that has not got it. *)
Lemma exec_alter_old t db s :
  db !! tn_JobQueue tn = Some s ->
  table_of encode_old_job old_columns "job_id" (t_next_job_id t) (t_jobs t) s ->
  map_Forall (fun _ r => r_failure_url r = None) (t_jobs t) ->
  exists s', sql_exec e (q_alterAddFailureURL sq) [] db = Ok (<[tn_JobQueue tn := s']> db, Done 0) /\
    table_of encode_job job_columns "job_id" (t_next_job_id t) (t_jobs t) s'.
Proof.
  intros Hs Ht Hurl. unfold sql_exec. cbn [q_alterAddFailureURL makeQueries]. rewrite parse_alter_add_failure_url.
  cbn [need rbind exec_stmt]. rewrite Hs. cbn [need rbind]. rewrite (to_cols _ _ _ _ _ _ Ht). cbn [failure_url_column].
  rewrite bool_decide_false by (apply (bool_decide_unpack _); by vm_compute). cbn [cd_notnull cd_name cd_default default].
  eexists. split; [done|]. split; cbn; [done|apply Ht|apply Ht|].
  rewrite (to_rows _ _ _ _ _ _ Ht), <- list_fmap_compose. apply Permutation_refl'.
  apply list_fmap_ext. intros i r Hr. apply list_elem_of_lookup_2, (elem_of_values _ _ _ (reflexivity _)) in Hr as [id Hid].
  unfold compose, encode_old_job, encode_job. cbn. by rewrite (Hurl _ _ Hid).
Qed.
End starting.

(** The row with a key, at most one. *)
Lemma filter_key {A} (key : A -> Z) (m : gmap Z A) ord id :
  (forall l, ord l ≡ₚ l) -> map_Forall (fun i x => key x = i) m ->
  filter (fun x => key x = id) (scan ord m) = option_list (m !! id).
Proof.
  intros Ho Hk. assert (filter (fun x => key x = id) (scan ord m) ≡ₚ option_list (m !! id)) as Hp.
  { unfold scan. rewrite Ho.
    assert (forall m' : gmap Z A, map_Forall (fun i x => key x = i) m' -> m' !! id = None ->
      filter (fun x => key x = id) (map_to_list m').*2 = []) as Hnone.
    { intros m' Hm' Hid. destruct (filter _ _) as [|x k] eqn:E; [done|].
      assert (x ∈ filter (fun x => key x = id) (map_to_list m').*2) as Hx by (rewrite E; apply list_elem_of_here).
      apply list_elem_of_filter in Hx as [Hk' (i & Hx)%(elem_of_values m')]; [|done].
      rewrite <- Hk', (Hm' _ _ Hx) in Hid. congruence. }
    destruct (m !! id) as [x|] eqn:Hx; [|by rewrite Hnone]. simpl.
    rewrite <- (map_to_list_delete m id x Hx). simpl. rewrite filter_cons, decide_True by by apply Hk.
    rewrite Hnone; [done|by apply map_Forall_delete|apply lookup_delete_eq]. }
  destruct (m !! id); simpl in *; [by apply Permutation_singleton_r in Hp|by apply Permutation_nil_r in Hp].
Qed.

(** ** Theorems *)

(** C7 (equivalence): what the driver reads.  The texts of the queries of a queue, with
    the limits, lists of placeholders and arguments the driver gives them, are
    well-formed statements; run on a database that holds the tables of the queue
    they return the rows, in the order, that the functions of the model return for
    some order in which the server reads the table, and change nothing. *)
Theorem sql_reads_agree q sq e t db :
  queue_sqls q = Some sq -> (forall l, se_order e l ≡ₚ l) -> represents (newTableName q) t db ->
  jobs_ok t -> failure_keys_ok t ->
  exists ord ordf, (forall l, ord l ≡ₚ l) /\ (forall l, ordf l ≡ₚ l) /\
  (forall limit, is_u64 limit ->
    sql_exec e (q_grab sq +:+ str (format_int limit)) [] db =
      Ok (db, Rows (id_rows (sql_grab_jobs ord (se_now e) limit t)))) /\
  (forall id ids,
    sql_exec e (q_grabbed sq +:+ (id_list (id :: ids) +:+ " FOR UPDATE")) (VStr "claimed" :: (VInt <$> id :: ids)) db =
      Ok (db, Rows (job_result <$> sql_grabbed_jobs ord Claimed (id :: ids) t))) /\
  sql_exec e (q_orphan sq) [] db = Ok (db, Rows (id_rows (sql_orphan_jobs ord (se_conn e) t))) /\
  (forall id, sql_exec e (q_inspectJob sq) [VInt id] db =
    Ok (db, Rows (job_result <$> option_list (t_jobs t !! id)))) /\
  (forall status id ids,
    sql_exec e (q_grabbed sq +:+ id_list (id :: ids)) (VStr (status_string status) :: (VInt <$> id :: ids)) db =
      Ok (db, Rows (job_result <$> sql_grabbed_jobs ord status (id :: ids) t))) /\
  (forall status minTime maxTime jobID limit, is_u64 limit ->
    sql_exec e (q_inspectJobs sq +:+ str (format_int limit))
      [VStr (status_string status); VInt minTime; VInt maxTime; VInt jobID] db =
        Ok (db, Rows (id_rows (sql_inspect_jobs ord status minTime maxTime jobID limit t))) /\
    sql_exec e (q_inspectJobsAsc sq +:+ str (format_int limit))
      [VStr (status_string status); VInt minTime; VInt maxTime; VInt jobID] db =
        Ok (db, Rows (id_rows (sql_inspect_jobs_asc ord status minTime maxTime jobID limit t)))) /\
  (forall id, sql_exec e (q_failedJob sq) [VInt id] db =
    Ok (db, Rows (encode_failure <$> option_list (t_failures t !! id)))) /\
  (forall maxTime maxID limit, is_u64 limit ->
    sql_exec e (q_failedJobs sq +:+ str (format_int limit)) [VInt maxTime; VInt maxTime; VInt maxID] db =
      Ok (db, Rows (encode_failure <$> sql_failures failedJobs ordf maxTime maxID limit t)) /\
    sql_exec e (q_recentlyFailedJobs sq +:+ str (format_int limit)) [VInt maxTime; VInt maxTime; VInt maxID] db =
      Ok (db, Rows (encode_failure <$> sql_failures recentlyFailedJobs ordf maxTime maxID limit t))).
Proof.
  intros ->%queue_sqls_loaded Ho Hrep Hok Hkeys.
  destruct (jobs_read q e t db Ho Hrep) as (s & ord & Hs & Hc & Hord & Hr).
  destruct (failures_read q e t db Ho Hrep) as (sf & ordf & Hsf & Hcf & Hordf & Hrf).
  exists ord, ordf. split_and!; [done|done| | | | | | | |].
  - intros limit Hl. by apply (exec_grab q e t db s).
  - intros id ids. by apply (exec_grabbed q e t db s).
  - by apply (exec_orphan q e t db s).
  - intros id. rewrite <- (filter_key r_job_id _ ord) by (done || by intros i r Hi; apply (Hok _ _ Hi)).
    by apply (exec_inspect_job q e t db s).
  - intros status id ids. by apply (exec_grabbed_plain q e t db s).
  - intros. split; [by apply (exec_inspect_jobs q e t db s)|by apply (exec_inspect_jobs_asc q e t db s)].
  - intros id. rewrite <- (filter_key f_failure_id _ ordf) by (done || by intros i r Hi; apply (Hkeys _ _ Hi)).
    by apply (exec_failed_job q e t db sf).
  - intros. split; [by apply (exec_failures q e t db sf) with (query := failedJobs)
                   |by apply (exec_failures q e t db sf) with (query := recentlyFailedJobs)].
Qed.

(** C8 (refinement): what the driver writes.  Each statement that changes the
    tables, with the arguments of the driver, has on a database that holds the
    tables of the queue the effect of its function on the tables, or fails when
    the function does, and leaves all tables of other queues as they are. *)
Theorem sql_writes_agree q sq e t db :
  queue_sqls q = Some sq -> represents (newTableName q) t db -> jobs_ok t -> failure_keys_ok t -> is_u64 (se_conn e) ->
  (forall nd rc rd fc c u p to fu,
    performs q e (q_insertJob sq) [VInt nd; VInt rc; VInt rd; VInt fc; VStr c; VStr u; VStr p; VInt to; VStr fu] db
      (sql_insert_job (se_now e) nd rc rd fc c u p to fu t)) /\
  (forall nd rc fc id,
    performs q e (q_updateJob sq) [VInt nd; VInt rc; VInt fc; VInt id] db
      ((fun t' => (t', 0)) <$> sql_update_job (se_now e) nd rc fc id t)) /\
  (forall id, performs q e (q_deleteJob sq) [VInt id] db (Some (sql_delete_job id t, 0))) /\
  (forall id ids, performs q e (q_launch sq +:+ id_list (id :: ids)) (VInt <$> id :: ids) db
    (Some (sql_launch_jobs (se_conn e) (id :: ids) t, 0))) /\
  (forall id ids, performs q e (q_recover sq +:+ id_list (id :: ids)) (VInt <$> id :: ids) db
    (Some (sql_recover_jobs (se_conn e) (id :: ids) t, 0))) /\
  (forall jid c u p res fc fa ca,
    performs q e (q_insertFailedJob sq) [VInt jid; VStr c; VStr u; VStr p; VStr res; VInt fc; VInt fa; VInt ca] db
      ((fun t' => (t', t_next_failure_id t)) <$> sql_insert_failed_job jid c u p res fc fa ca t)) /\
  (forall id, performs q e (q_deleteFailedJob sq) [VInt id] db (Some (sql_delete_failed_job id t, 0))).
Proof.
  intros ->%queue_sqls_loaded Hrep Hok Hkeys Hconn. split_and!; intros.
  - by apply perform_insert_job.
  - by apply perform_update_job.
  - by apply perform_delete_job.
  - by apply perform_launch.
  - by apply perform_recover.
  - by apply perform_insert_failed_job.
  - by apply perform_delete_failed_job.
Qed.

(** C31 (functional): [Start] prepares the tables.  When the names of the tables are
    identifiers of at most 64 characters, which holds for names of queues of up to
    46 bytes, [Start] succeeds whichever of the two tables are there: a table that
    is missing is created empty; a table that is there keeps its rows and its next
    key; a job table without the column [failure_url], made by an older version,
    gets the column, with no failure URL for its jobs; nothing changes when both
    are up to date; and other tables are never touched.  With longer names [Start]
    fails with error 1059, whatever the database holds; for a name of digits, lower
    case letters and underscores, longer means longer than 46. *)
Theorem start_tables_correct q sq e db :
  queue_sqls q = Some sq ->
  (strlen (Name q) <= 46 -> table_names_fit q) /\
  (plain_name (Name q) -> table_names_fit q -> strlen (Name q) <= 46) /\
  (~ table_names_fit q -> start_tables sq e db = Err (MySQLError ER_TOO_LONG_IDENT)) /\
  (table_names_fit q -> forall t, job_table_before q t db -> failure_table_before q t db ->
    exists db', start_tables sq e db = Ok db' /\ represents (newTableName q) t db' /\ other_tables q db db' /\
      (represents (newTableName q) t db -> db' = db)).
Proof.
  intros ->%queue_sqls_loaded. split_and!; [apply short_names_fit|apply plain_names_fit| |]; unfold start_tables.
  - intros Hl. destruct (Z_lt_le_dec max_identifier (strlen (tn_JobQueue (newTableName q)))).
    + by rewrite exec_create_jobqueue_long.
    + rewrite exec_create_jobqueue by done. cbn [rbind fst]. by rewrite exec_create_failure_long.
  - intros Hfit t Hj Hf. pose proof (table_names_differ q) as Hne.
    destruct (created_jobqueue q e t db Hfit Hj) as (db1 & s & -> & Hs & Ht & Hr1 & Hsame1). cbn [rbind fst].
    assert (failure_table_before q t db1) as Hf1 by (unfold failure_table_before; by rewrite !Hr1 by done).
    destruct (created_failure q e t db1 Hfit Hf1) as (db2 & sf & -> & Hsf & Htf & Hr2 & Hsame2). cbn [rbind fst].
    rewrite <- Hr2 in Hs by done.
    destruct Ht as [Ht|[Ht Hurl]].
    + erewrite exec_alter_present by (done || apply Ht). eexists. split; [done|]. split_and!.
      * split; [by exists s|by exists sf].
      * intros tbl H1 H2. by rewrite Hr2, Hr1.
      * intros [(s0 & E1 & _) (s1 & E2 & _)]. rewrite Hsame2; [|by rewrite Hr1 by done; eexists].
        apply Hsame1. by eexists.
    + destruct (exec_alter_old q e t db2 s Hs Ht Hurl) as (s' & -> & Ht'). eexists. split; [done|]. split_and!.
      * split; [exists s'; by rewrite lookup_insert_eq|]. exists sf. by rewrite lookup_insert_ne.
      * intros tbl H1 H2. by rewrite lookup_insert_ne, Hr2, Hr1.
      * intros [(s0 & E1 & T0) _]. exfalso. rewrite Hr2 in Hs by done. rewrite (Hsame1 (mk_is_Some _ _ E1)) in Hs.
        simplify_eq. pose proof (to_cols _ _ _ _ _ _ Ht) as C. rewrite (to_cols _ _ _ _ _ _ T0) in C. by vm_compute in C.
Qed.

(** ** A queue with one job *)

Module StatementRuns.
Definition q : Queue := {|
  Name := "mail"; PollingInterval := 100; MaxWorkers := 2; MaxDispatchesPerSecond := 0%Qc; MaxBurstSize := 0 |}.
Definition e : sql_env := {| se_now := 1000; se_conn := 7; se_order l := rev l |}.
Definition sq : sqls := makeQueries loaded (newTableName q).

Definition job : job_row := {|
  r_job_id := 1; r_next_try := 900; r_grabber_id := None; r_status := Claimed; r_created_at := 900; r_retry_count := 2;
  r_retry_delay := 5; r_fail_count := 0; r_category := "mail"; r_url := "http://w/"; r_payload := "{}"; r_timeout := 0;
  r_failure_url := None |}.

Definition t : tables := {|
  t_jobs := {[1 := job]}; t_next_job_id := 2; t_failures := ∅; t_next_failure_id := 1 |}.

Definition job_table : sql_table := {|
  st_cols := job_columns; st_key := ["job_id"]; st_auto := 2; st_rows := [encode_job job] |}.
Definition failure_table : sql_table := {|
  st_cols := failure_columns; st_key := ["failure_id"]; st_auto := 1; st_rows := [] |}.

Definition db : database :=
  <[tn_JobQueue (newTableName q) := job_table]> (<[tn_Failure (newTableName q) := failure_table]> ∅).

Lemma sqls_q : queue_sqls q = Some sq.
Proof. unfold queue_sqls. rewrite sql_init_loaded. reflexivity. Qed.

Lemma represents_db : represents (newTableName q) t db.
Proof.
  split.
  - exists job_table. split; [apply lookup_insert_eq|]. split; [reflexivity..|].
    simpl. by rewrite map_to_list_singleton.
  - exists failure_table. split; [by vm_compute|]. split; [reflexivity..|]. simpl. by rewrite map_to_list_empty.
Qed.

Lemma jobs_ok_t : jobs_ok t.
Proof.
  apply map_Forall_singleton. split; [done|simpl; lia|by vm_compute|]. simpl. split; [by intros []|done].
Qed.

Lemma keys_ok_t : failure_keys_ok t.
Proof. apply map_Forall_empty. Qed.

Lemma order_ok l : se_order e l ≡ₚ l.
Proof. simpl. symmetry. apply Permutation_rev. Qed.

(** The job is due, and is found by the text of the query. *)
Lemma sql_reads_agree_witness :
  exists ord, (forall l, ord l ≡ₚ l) /\
    sql_exec e (q_grab sq +:+ "10") [] db = Ok (db, Rows (id_rows (sql_grab_jobs ord 1000 10 t))) /\
    sql_exec e (q_inspectJob sq) [VInt 1] db = Ok (db, Rows [job_result job]).
Proof.
  destruct (sql_reads_agree q sq e t db sqls_q order_ok represents_db jobs_ok_t keys_ok_t)
    as (ord & ordf & Ho & _ & Hgrab & _ & _ & Hinspect & _).
  exists ord. split; [exact Ho|]. split; [|exact (Hinspect 1)].
  assert (str (format_int 10) = "10") as E by (vm_compute; reflexivity). rewrite <- E. apply Hgrab. word.
Defined.

(** The job is launched by the text of the statement: its row is that of a job
    grabbed by this connection. *)
Lemma sql_writes_agree_witness :
  performs q e (q_launch sq +:+ "(?)") [VInt 1] db (Some (sql_launch_jobs 7 [1] t, 0)) /\
  r_grabber_id <$> (t_jobs (sql_launch_jobs 7 [1] t) !! 1) = Some (Some 7).
Proof.
  split; [|vm_compute; reflexivity].
  destruct (sql_writes_agree q sq e t db sqls_q represents_db jobs_ok_t keys_ok_t) as (_ & _ & _ & Hlaunch & _);
    [simpl; word|]. exact (Hlaunch 1 []).
Defined.

(** The job table of an older version, and no failure table. *)
Definition old_db : database :=
  {[tn_JobQueue (newTableName q) := {|
      st_cols := old_columns; st_key := ["job_id"]; st_auto := 2; st_rows := [encode_old_job job] |}]}.

(** A queue whose name is of 47 letters. *)
Definition long_q : Queue := {|
  Name := "abcdefghijklmnopqrstuvwxyzabcdefghijklmnopqrstu"; PollingInterval := 100; MaxWorkers := 2;
  MaxDispatchesPerSecond := 0%Qc; MaxBurstSize := 0 |}.

Lemma sqls_long_q : queue_sqls long_q = Some (makeQueries loaded (newTableName long_q)).
Proof. unfold queue_sqls. rewrite sql_init_loaded. reflexivity. Qed.

(** A table of an older version is brought up to date and the other one created;
    tables that are up to date stay; the table of failures alone gets a job table
    beside it; a queue with a longer name cannot start. *)
Lemma start_tables_correct_witness :
  (exists db', start_tables sq e old_db = Ok db' /\ represents (newTableName q) t db') /\
  start_tables sq e db = Ok db /\
  (exists db', start_tables sq e {[tn_Failure (newTableName q) := failure_table]} = Ok db' /\
    represents (newTableName q) empty_tables db') /\
  start_tables (makeQueries loaded (newTableName long_q)) e db = Err (MySQLError 1059).
Proof.
  assert (table_names_fit q) as Hfit by (unfold table_names_fit; vm_compute; discriminate).
  split; [|split; [|split]].
  - destruct (start_tables_correct q sq e old_db sqls_q) as (_ & _ & _ & H). destruct (H Hfit t) as (db' & E & Hr & _).
    + right. right. eexists. split; [apply lookup_insert_eq|]. split; [split; [reflexivity..|]|].
      * simpl. by rewrite map_to_list_singleton.
      * by apply map_Forall_singleton.
    + left. split; [by vm_compute|done].
    + by exists db'.
  - destruct (start_tables_correct q sq e db sqls_q) as (_ & _ & _ & H). pose proof represents_db as R.
    destruct (H Hfit t) as (db' & E & _ & _ & Hsame); [right; left; apply R|right; apply R|].
    rewrite E. by rewrite (Hsame R).
  - destruct (start_tables_correct q sq e {[tn_Failure (newTableName q) := failure_table]} sqls_q) as (_ & _ & _ & H).
    destruct (H Hfit empty_tables) as (db' & E & Hr & _).
    + left. split; [by vm_compute|done].
    + right. exists failure_table. split; [apply lookup_insert_eq|]. split; [reflexivity..|]. simpl. by rewrite map_to_list_empty.
    + by exists db'.
  - destruct (start_tables_correct long_q _ e db sqls_long_q) as (_ & _ & H & _). apply H.
    unfold table_names_fit. vm_compute. by intros [].
Defined.
End StatementRuns.
