(* ===== verification/GenDoc.v ===== *)
(** * The documentation of the configuration (src/config/default.go, src/script/gendoc)

    The configuration items of default.go in full, with their labels and
    descriptions, and the program that prints doc/config.md from them. *)

From Stdlib Require Import Ascii.
From S2P Require Import Prelude GoStrings Config Repository Descriptions.
Local Open Scope Z_scope.

(** ** The items *)

Definition logLevelDescription : string := "The level is either a name or a numeric value.  The following table describes the meaning of the value.

|Value|Name   |
|-----|-------|
|`0`    |`debug`  |
|`1`    |`info`   |
|`2`    |`warn`   |
|`3`    |`error`  |
|`4`    |`fatal`  |
".

Definition default_items : list (string * configItem) := [
  ("bind", {| ci_label := "<address>:<port>"; ci_defaultValue := "127.0.0.1:8080";
    ci_description := "
Specifies the address and the port number of a daemon in a form <code><var>address</var>:<var>port</var></code>.
" |});
  ("pid", {| ci_label := "<file>"; ci_defaultValue := EmptyString;
    ci_description := "
Specifies a file where PID is written to.
" |});
  ("access_log", {| ci_label := "<file>"; ci_defaultValue := EmptyString;
    ci_description := "
Specifies a file where API access log is written to.  It defaults to standard output.

Each line in the file is a JSON string corresponds to a single log item.
" |});
  ("access_log_tag", {| ci_label := "<tag>"; ci_defaultValue := "fireworq.access";
    ci_description := "
Specifies the value of `tag` field in a access log item.
" |});
  ("error_log", {| ci_label := "<file>"; ci_defaultValue := EmptyString;
    ci_description := "
Specifies a file where error logs are written to.  It defaults to standard error output.

If this value is specified, each line in the file is a JSON string corresponds to a single log item.  Otherwise, each line of the output is a prettified log item.
" |});
  ("error_log_level", {| ci_label := "<level>"; ci_defaultValue := EmptyString;
    ci_description := "
Specifies a log level of the access log.  " +:+ logLevelDescription +:+ "
If none of these values is specified, the level is determined by `DEBUG` environment variable.  If `DEBUG` has a non-empty value, then the level is `debug`.  Otherwise, the level is `info`.
" |});
  ("shutdown_timeout", {| ci_label := "<seconds>"; ci_defaultValue := "30";
    ci_description := "
Specifies a timeout, in seconds, which the daemon waits on [gracefully shutting down or restarting][section-graceful-restart].
" |});
  ("keep_alive", {| ci_label := "true|false"; ci_defaultValue := "false";
    ci_description := "
Specifies whether connections should be reused.
" |});
  ("config_refresh_interval", {| ci_label := "<milliseconds>"; ci_defaultValue := "1000";
    ci_description := "
Specifies an interval, in milliseconds, at which a Fireworq daemon checks if configurations (such as queue definitions or routings) are changed by other daemons.
" |});
  ("driver", {| ci_label := "<driver>"; ci_defaultValue := "mysql";
    ci_description := "
Specifies a driver for job queues and repositories.  The available values are `mysql` and `in-memory`.

Note that `in-memory` driver is not for production use.  It is intended to be used for just playing with Fireworq without a storage middleware or to show the upper bound of performance in a benchmark.
" |});
  ("mysql_dsn", {| ci_label := "<DSN>"; ci_defaultValue := "tcp(localhost:3306)/fireworq";
    ci_description := "
Specifies a data source name for the job queue and the repository database in a form <code><var>user</var>:<var>password</var>@tcp(<var>mysql_host</var>:<var>mysql_port</var>)/<var>database</var>?<var>options</var></code>.  This is in effect only when [the driver](#env-driver) is `mysql` and is mandatory for that case.
" |});
  ("repository_mysql_dsn", {| ci_label := "<DSN>"; ci_defaultValue := EmptyString;
    ci_description := "
Specifies a data source name for the repository database in a form <code><var>user</var>:<var>password</var>@tcp(<var>mysql_host</var>:<var>mysql_port</var>)/<var>database</var>?<var>options</var></code>.  This is in effect only when the [driver](#env-driver) is `mysql` and overrides [the default DSN](#env-mysql-dsn).  This should be used when you want to specify a DSN differs from [the queue DSN](#env-queue-mysql-dsn).
" |});
  ("queue_default", {| ci_label := "<name>"; ci_defaultValue := EmptyString;
    ci_description := "
Specifies the name of a default queue.  A job whose `category` is not defined via the [routing API][api-put-routing] will be delivered to this queue.  If no default queue name is specified, pushing a job with an unknown category will fail.

If you already have a queue with the specified name in the job queue database, that one is used.  Or otherwise a new queue is created automatically.
" |});
  ("queue_default_polling_interval", {| ci_label := "<milliseconds>"; ci_defaultValue := "200";
    ci_description := "
Specifies the default interval, in milliseconds, at which Fireworq checks the arrival of new jobs, used when `polling_interval` in the [queue API][api-put-queue] is omitted.
" |});
  ("queue_default_max_workers", {| ci_label := "<number>"; ci_defaultValue := "20";
    ci_description := "
Specifies the default maximum number of jobs that are processed simultaneously in a queue, used when `max_workers` in the [queue API][api-put-queue] is omitted.
" |});
  ("queue_log", {| ci_label := "<file>"; ci_defaultValue := EmptyString;
    ci_description := "
Specifies a file where the job queue logs are written to.  It defaults to standard output. No other logs than the job queue logs are written to this file.

Each line in the file is a JSON string corresponds to a single log item.
" |});
  ("queue_log_tag", {| ci_label := "<tag>"; ci_defaultValue := "fireworq.queue";
    ci_description := "
Specifies the value of `tag` field in a job queue log item JSON.
" |});
  ("queue_log_level", {| ci_label := "<level>"; ci_defaultValue := EmptyString;
    ci_description := "
Specifies a log level of the job queue logs.  " +:+ logLevelDescription +:+ "
If none of these values is specified, the level is determined by `DEBUG` environment variable.  If `DEBUG` has a non-empty value, then the level is `debug`.  Otherwise, the level is `info`.
" |});
  ("queue_mysql_dsn", {| ci_label := "<DSN>"; ci_defaultValue := EmptyString;
    ci_description := "
Specifies a data source name for the job queue database in a form <code><var>user</var>:<var>password</var>@tcp(<var>mysql_host</var>:<var>mysql_port</var>)/<var>database</var>?<var>options</var></code>.  This is in effect only when the [driver](#env-driver) is `mysql` and overrides [the default DSN](#env-mysql-dsn).  This should be used when you want to specify a DSN differs from [the repository DSN](#env-repository-mysql-dsn).
" |});
  ("dispatch_user_agent", {| ci_label := "<agent>"; ci_defaultValue := EmptyString;
    ci_description := "
Specifies the value of `User-Agent` header field used for an HTTP request to a worker.  The default value is <code>Fireworq/<var>version</var></code>.
" |});
  ("dispatch_keep_alive", {| ci_label := "true|false"; ci_defaultValue := EmptyString;
    ci_description := "
Specifies whether a connection to a worker should be reused.  This overrides [the default keep-alive setting](#env-keep-alive).
" |});
  ("dispatch_max_conns_per_host", {| ci_label := "<number>"; ci_defaultValue := "10";
    ci_description := "
Specifies maximum idle connections to keep per-host. This value works only when [connections of the dispatcher are reused](#env-dispatch-keep-alive).
" |});
  ("dispatch_idle_conn_timeout", {| ci_label := "<seconds>"; ci_defaultValue := "0";
    ci_description := "
Specifies the maximum amount of time of an idle (keep-alive) connection will remain idle before closing itself. If zero, an idle connections will not be closed.
" |});
  ("redis_addr", {| ci_label := "<address>:<port>"; ci_defaultValue := EmptyString;
    ci_description := "
Specifies the Redis server address for dispatch statistics. When empty, the dispatch statistics feature is disabled. Example: `localhost:6379`.
" |})].

Definition defaultConf_items : gmap string configItem := list_to_map default_items.

(** ** gendoc

    What is printed is returned. *)

Definition dquote : string := String "034"%char EmptyString.
Definition println (s : string) : string := s +:+ newline.

Definition EnvironmentVariable (item : Item) : string := "FIREWORQ_" +:+ ToUpper (it_Name item).

Definition AnchorName (item : Item) : string := "env-" +:+ flag_name (it_Name item).

Definition LinkLabel (item : Item) : string :=
  "`" +:+ EnvironmentVariable item +:+ "`, `" +:+ Argument item +:+ "`".

Definition Link (item : Item) : string := "[" +:+ LinkLabel item +:+ "](#" +:+ AnchorName item +:+ ")".

Definition heading (item : Item) : string :=
  "### <a name=" +:+ dquote +:+ AnchorName item +:+ dquote +:+ ">" +:+ LinkLabel item +:+ "</a>".

Definition printDescription (item : Item) : string :=
  println (heading item) +:+
  (if String.eqb (it_DefaultValue item) EmptyString then EmptyString
   else println ("Default: `" +:+ it_DefaultValue item +:+ "`")) +:+
  println (it_Description item).

Definition concat_strings (l : list string) : string := foldr String.append EmptyString l.

Definition printTableOfContents (items : list Item) : string :=
  concat_strings ((fun item => println ("- " +:+ Link item)) <$> items).

Definition printDescriptions (items : list Item) : string := concat_strings (printDescription <$> items).

Definition doc_header : string := "<!-- DO NOT EDIT: this document is automatically generated by script/gendoc/gendoc.go -->

Configuration
=============

You can configure Fireworq by providing environment variables on
starting a daemon or by specifying command line arguments.  Command
line arguments precede the values of environment variables.

The following variables/arguments are available.".

Definition doc_footer : string := "
[section-manual-setup]: ./production.md#manual-setup
[section-graceful-restart]: ./production.md#graceful-restart

[api-put-queue]: ./api.md#api-put-queue
[api-put-routing]: ./api.md#api-put-routing
".

Definition printConfigDoc (items : list Item) : string :=
  println doc_header +:+ println EmptyString +:+ printTableOfContents items +:+ printDescriptions items +:+ doc_footer.

(** [main]: exit code, standard output and standard error. *)
Definition gendoc_main (items : list Item) (args : list string) : Z * string * string :=
  match args with
  | _ :: arg :: _ =>
      (0, if String.eqb arg "config" then printConfigDoc items else EmptyString, EmptyString)
  | _ => (1, EmptyString, println "Usage: gendoc <type>")
  end.

(** doc/config.md *)
Definition config_md : string :=
  "<!-- DO NOT EDIT: this document is automatically generated by script/gendoc/gendoc.go -->

Configuration
=============

You can configure Fireworq by providing environment variables on
starting a daemon or by specifying command line arguments.  Command
line arguments precede the values of environment variables.

The following variables/arguments are available.

- [`FIREWORQ_ACCESS_LOG`, `--access-log`](#env-access-log)
- [`FIREWORQ_ACCESS_LOG_TAG`, `--access-log-tag`](#env-access-log-tag)
- [`FIREWORQ_BIND`, `--bind`](#env-bind)
- [`FIREWORQ_CONFIG_REFRESH_INTERVAL`, `--config-refresh-interval`](#env-config-refresh-interval)
- [`FIREWORQ_DISPATCH_IDLE_CONN_TIMEOUT`, `--dispatch-idle-conn-timeout`](#env-dispatch-idle-conn-timeout)
- [`FIREWORQ_DISPATCH_KEEP_ALIVE`, `--dispatch-keep-alive`](#env-dispatch-keep-alive)
- [`FIREWORQ_DISPATCH_MAX_CONNS_PER_HOST`, `--dispatch-max-conns-per-host`](#env-dispatch-max-conns-per-host)
- [`FIREWORQ_DISPATCH_USER_AGENT`, `--dispatch-user-agent`](#env-dispatch-user-agent)
- [`FIREWORQ_DRIVER`, `--driver`](#env-driver)
- [`FIREWORQ_ERROR_LOG`, `--error-log`](#env-error-log)
- [`FIREWORQ_ERROR_LOG_LEVEL`, `--error-log-level`](#env-error-log-level)
- [`FIREWORQ_KEEP_ALIVE`, `--keep-alive`](#env-keep-alive)
- [`FIREWORQ_MYSQL_DSN`, `--mysql-dsn`](#env-mysql-dsn)
- [`FIREWORQ_PID`, `--pid`](#env-pid)
- [`FIREWORQ_QUEUE_DEFAULT`, `--queue-default`](#env-queue-default)
- [`FIREWORQ_QUEUE_DEFAULT_MAX_WORKERS`, `--queue-default-max-workers`](#env-queue-default-max-workers)
- [`FIREWORQ_QUEUE_DEFAULT_POLLING_INTERVAL`, `--queue-default-polling-interval`](#env-queue-default-polling-interval)
- [`FIREWORQ_QUEUE_LOG`, `--queue-log`](#env-queue-log)
- [`FIREWORQ_QUEUE_LOG_LEVEL`, `--queue-log-level`](#env-queue-log-level)
- [`FIREWORQ_QUEUE_LOG_TAG`, `--queue-log-tag`](#env-queue-log-tag)
- [`FIREWORQ_QUEUE_MYSQL_DSN`, `--queue-mysql-dsn`](#env-queue-mysql-dsn)
- [`FIREWORQ_REDIS_ADDR`, `--redis-addr`](#env-redis-addr)
- [`FIREWORQ_REPOSITORY_MYSQL_DSN`, `--repository-mysql-dsn`](#env-repository-mysql-dsn)
- [`FIREWORQ_SHUTDOWN_TIMEOUT`, `--shutdown-timeout`](#env-shutdown-timeout)
### <a name=" +:+
  dquote +:+
  "env-access-log" +:+
  dquote +:+
  ">`FIREWORQ_ACCESS_LOG`, `--access-log`</a>

Specifies a file where API access log is written to.  It defaults to standard output.

Each line in the file is a JSON string corresponds to a single log item.

### <a name=" +:+
  dquote +:+
  "env-access-log-tag" +:+
  dquote +:+
  ">`FIREWORQ_ACCESS_LOG_TAG`, `--access-log-tag`</a>
Default: `fireworq.access`

Specifies the value of `tag` field in a access log item.

### <a name=" +:+
  dquote +:+
  "env-bind" +:+
  dquote +:+
  ">`FIREWORQ_BIND`, `--bind`</a>
Default: `127.0.0.1:8080`

Specifies the address and the port number of a daemon in a form <code><var>address</var>:<var>port</var></code>.

### <a name=" +:+
  dquote +:+
  "env-config-refresh-interval" +:+
  dquote +:+
  ">`FIREWORQ_CONFIG_REFRESH_INTERVAL`, `--config-refresh-interval`</a>
Default: `1000`

Specifies an interval, in milliseconds, at which a Fireworq daemon checks if configurations (such as queue definitions or routings) are changed by other daemons.

### <a name=" +:+
  dquote +:+
  "env-dispatch-idle-conn-timeout" +:+
  dquote +:+
  ">`FIREWORQ_DISPATCH_IDLE_CONN_TIMEOUT`, `--dispatch-idle-conn-timeout`</a>
Default: `0`

Specifies the maximum amount of time of an idle (keep-alive) connection will remain idle before closing itself. If zero, an idle connections will not be closed.

### <a name=" +:+
  dquote +:+
  "env-dispatch-keep-alive" +:+
  dquote +:+
  ">`FIREWORQ_DISPATCH_KEEP_ALIVE`, `--dispatch-keep-alive`</a>

Specifies whether a connection to a worker should be reused.  This overrides [the default keep-alive setting](#env-keep-alive).

### <a name=" +:+
  dquote +:+
  "env-dispatch-max-conns-per-host" +:+
  dquote +:+
  ">`FIREWORQ_DISPATCH_MAX_CONNS_PER_HOST`, `--dispatch-max-conns-per-host`</a>
Default: `10`

Specifies maximum idle connections to keep per-host. This value works only when [connections of the dispatcher are reused](#env-dispatch-keep-alive).

### <a name=" +:+
  dquote +:+
  "env-dispatch-user-agent" +:+
  dquote +:+
  ">`FIREWORQ_DISPATCH_USER_AGENT`, `--dispatch-user-agent`</a>

Specifies the value of `User-Agent` header field used for an HTTP request to a worker.  The default value is <code>Fireworq/<var>version</var></code>.

### <a name=" +:+
  dquote +:+
  "env-driver" +:+
  dquote +:+
  ">`FIREWORQ_DRIVER`, `--driver`</a>
Default: `mysql`

Specifies a driver for job queues and repositories.  The available values are `mysql` and `in-memory`.

Note that `in-memory` driver is not for production use.  It is intended to be used for just playing with Fireworq without a storage middleware or to show the upper bound of performance in a benchmark.

### <a name=" +:+
  dquote +:+
  "env-error-log" +:+
  dquote +:+
  ">`FIREWORQ_ERROR_LOG`, `--error-log`</a>

Specifies a file where error logs are written to.  It defaults to standard error output.

If this value is specified, each line in the file is a JSON string corresponds to a single log item.  Otherwise, each line of the output is a prettified log item.

### <a name=" +:+
  dquote +:+
  "env-error-log-level" +:+
  dquote +:+
  ">`FIREWORQ_ERROR_LOG_LEVEL`, `--error-log-level`</a>

Specifies a log level of the access log.  The level is either a name or a numeric value.  The following table describes the meaning of the value.

|Value|Name   |
|-----|-------|
|`0`    |`debug`  |
|`1`    |`info`   |
|`2`    |`warn`   |
|`3`    |`error`  |
|`4`    |`fatal`  |

If none of these values is specified, the level is determined by `DEBUG` environment variable.  If `DEBUG` has a non-empty value, then the level is `debug`.  Otherwise, the level is `info`.

### <a name=" +:+
  dquote +:+
  "env-keep-alive" +:+
  dquote +:+
  ">`FIREWORQ_KEEP_ALIVE`, `--keep-alive`</a>
Default: `false`

Specifies whether connections should be reused.

### <a name=" +:+
  dquote +:+
  "env-mysql-dsn" +:+
  dquote +:+
  ">`FIREWORQ_MYSQL_DSN`, `--mysql-dsn`</a>
Default: `tcp(localhost:3306)/fireworq`

Specifies a data source name for the job queue and the repository database in a form <code><var>user</var>:<var>password</var>@tcp(<var>mysql_host</var>:<var>mysql_port</var>)/<var>database</var>?<var>options</var></code>.  This is in effect only when [the driver](#env-driver) is `mysql` and is mandatory for that case.

### <a name=" +:+
  dquote +:+
  "env-pid" +:+
  dquote +:+
  ">`FIREWORQ_PID`, `--pid`</a>

Specifies a file where PID is written to.

### <a name=" +:+
  dquote +:+
  "env-queue-default" +:+
  dquote +:+
  ">`FIREWORQ_QUEUE_DEFAULT`, `--queue-default`</a>

Specifies the name of a default queue.  A job whose `category` is not defined via the [routing API][api-put-routing] will be delivered to this queue.  If no default queue name is specified, pushing a job with an unknown category will fail.

If you already have a queue with the specified name in the job queue database, that one is used.  Or otherwise a new queue is created automatically.

### <a name=" +:+
  dquote +:+
  "env-queue-default-max-workers" +:+
  dquote +:+
  ">`FIREWORQ_QUEUE_DEFAULT_MAX_WORKERS`, `--queue-default-max-workers`</a>
Default: `20`

Specifies the default maximum number of jobs that are processed simultaneously in a queue, used when `max_workers` in the [queue API][api-put-queue] is omitted.

### <a name=" +:+
  dquote +:+
  "env-queue-default-polling-interval" +:+
  dquote +:+
  ">`FIREWORQ_QUEUE_DEFAULT_POLLING_INTERVAL`, `--queue-default-polling-interval`</a>
Default: `200`

Specifies the default interval, in milliseconds, at which Fireworq checks the arrival of new jobs, used when `polling_interval` in the [queue API][api-put-queue] is omitted.

### <a name=" +:+
  dquote +:+
  "env-queue-log" +:+
  dquote +:+
  ">`FIREWORQ_QUEUE_LOG`, `--queue-log`</a>

Specifies a file where the job queue logs are written to.  It defaults to standard output. No other logs than the job queue logs are written to this file.

Each line in the file is a JSON string corresponds to a single log item.

### <a name=" +:+
  dquote +:+
  "env-queue-log-level" +:+
  dquote +:+
  ">`FIREWORQ_QUEUE_LOG_LEVEL`, `--queue-log-level`</a>

Specifies a log level of the job queue logs.  The level is either a name or a numeric value.  The following table describes the meaning of the value.

|Value|Name   |
|-----|-------|
|`0`    |`debug`  |
|`1`    |`info`   |
|`2`    |`warn`   |
|`3`    |`error`  |
|`4`    |`fatal`  |

If none of these values is specified, the level is determined by `DEBUG` environment variable.  If `DEBUG` has a non-empty value, then the level is `debug`.  Otherwise, the level is `info`.

### <a name=" +:+
  dquote +:+
  "env-queue-log-tag" +:+
  dquote +:+
  ">`FIREWORQ_QUEUE_LOG_TAG`, `--queue-log-tag`</a>
Default: `fireworq.queue`

Specifies the value of `tag` field in a job queue log item JSON.

### <a name=" +:+
  dquote +:+
  "env-queue-mysql-dsn" +:+
  dquote +:+
  ">`FIREWORQ_QUEUE_MYSQL_DSN`, `--queue-mysql-dsn`</a>

Specifies a data source name for the job queue database in a form <code><var>user</var>:<var>password</var>@tcp(<var>mysql_host</var>:<var>mysql_port</var>)/<var>database</var>?<var>options</var></code>.  This is in effect only when the [driver](#env-driver) is `mysql` and overrides [the default DSN](#env-mysql-dsn).  This should be used when you want to specify a DSN differs from [the repository DSN](#env-repository-mysql-dsn).

### <a name=" +:+
  dquote +:+
  "env-redis-addr" +:+
  dquote +:+
  ">`FIREWORQ_REDIS_ADDR`, `--redis-addr`</a>

Specifies the Redis server address for dispatch statistics. When empty, the dispatch statistics feature is disabled. Example: `localhost:6379`.

### <a name=" +:+
  dquote +:+
  "env-repository-mysql-dsn" +:+
  dquote +:+
  ">`FIREWORQ_REPOSITORY_MYSQL_DSN`, `--repository-mysql-dsn`</a>

Specifies a data source name for the repository database in a form <code><var>user</var>:<var>password</var>@tcp(<var>mysql_host</var>:<var>mysql_port</var>)/<var>database</var>?<var>options</var></code>.  This is in effect only when the [driver](#env-driver) is `mysql` and overrides [the default DSN](#env-mysql-dsn).  This should be used when you want to specify a DSN differs from [the queue DSN](#env-queue-mysql-dsn).

### <a name=" +:+
  dquote +:+
  "env-shutdown-timeout" +:+
  dquote +:+
  ">`FIREWORQ_SHUTDOWN_TIMEOUT`, `--shutdown-timeout`</a>
Default: `30`

Specifies a timeout, in seconds, which the daemon waits on [gracefully shutting down or restarting][section-graceful-restart].


[section-manual-setup]: ./production.md#manual-setup
[section-graceful-restart]: ./production.md#graceful-restart

[api-put-queue]: ./api.md#api-put-queue
[api-put-routing]: ./api.md#api-put-routing
".

(** ** Theorems *)

(** The default values of [Config] are those of the items. *)
Lemma initial_defaults_items : initial_defaults = ci_defaultValue <$> defaultConf_items.
Proof. vm_compute. reflexivity. Qed.

(** The order in which the map is ranged over does not matter. *)
Lemma Descriptions_order order m : (forall l, order l ≡ₚ l) -> Descriptions order m = Descriptions id m.
Proof.
  intros Ho. unfold Descriptions. f_equal. apply sort_slice_unique; [apply _| |apply Ho].
  intros [k1 i1] [k2 i2] H1 H2 H12 H21. rewrite Ho in H1, H2. apply elem_of_map_to_list in H1, H2.
  assert (k1 = k2) as -> by by apply (name_leq_antisym fst (k1, i1) (k2, i2)). congruence.
Qed.

(** The document doc/config.md is what gendoc prints from the configuration
    items, byte for byte, in whatever order the map of the items is ranged over. *)
Theorem config_md_current order :
  (forall l, order l ≡ₚ l) ->
  gendoc_main (Descriptions order defaultConf_items) ["gendoc"; "config"] = (0, config_md, EmptyString).
Proof. intros Ho. rewrite (Descriptions_order _ _ Ho). vm_compute. reflexivity. Qed.

Lemma config_md_current_witness :
  gendoc_main (Descriptions (fun l => rev l) defaultConf_items) ["gendoc"; "config"] = (0, config_md, EmptyString).
Proof. apply (config_md_current (fun l => rev l)). intros l. symmetry. apply Permutation_rev. Defined.
