(* ===== verification/CommandLine.v ===== *)
(** * The command line (src/main.go, package flag)

    [parseCmdArgs] declares a flag per configuration key beside those that show
    the version and the licenses, and parses the arguments with package flag, whose
    parser is translated here.  Composed with the start-up of [Config] and [Server]
    this gives what the process does with its arguments and its environment. *)

From Stdlib Require Import Ascii.
From S2P Require Import Prelude GoStrings MySQLNames Config Repository Descriptions Server GenDoc.
Local Open Scope Z_scope.

(** ** Package flag *)

Inductive flag_error :=
| ErrHelp
| BadSyntax (arg : string)
| NotDefined (name : string)
| InvalidBool (name value : string)
| NeedsArgument (name : string).

(** The variables behind the flags of main.go. *)
Inductive flag_var := ShowVersion | ShowLicense | ShowCredits | Setting.

#[export] Instance flag_var_eq_dec : EqDecision flag_var.
Proof. solve_decision. Defined.

(** [name[i] == '=']: the name, and the value if there is one; an equals sign cannot
    be first. *)
Fixpoint split_value (acc l : list ascii) : list ascii * option (list ascii) :=
  match l with
  | [] => (rev acc, None)
  | a :: l' =>
      if Ascii.eqb a "="%char && negb (bool_decide (acc = [])) then (rev acc, Some l')
      else split_value (a :: acc) l'
  end.

(** The name and value of an argument: no flag, the end of the flags, a syntax
    error, or a flag. *)
Inductive parsed_arg := NoFlag | Terminator | Malformed | Flag (name : string) (value : option string).

Definition parse_arg (s : string) : parsed_arg :=
  match chars s with
  | "-"%char :: (b :: l) as rest =>
      let name := if Ascii.eqb b "-"%char then l else rest in
      if Ascii.eqb b "-"%char && bool_decide (l = []) then Terminator
      else match name with
           | [] => Malformed
           | c :: _ =>
               if Ascii.eqb c "-"%char || Ascii.eqb c "="%char then Malformed
               else let '(n, v) := split_value [] name in Flag (str n) (str <$> v)
           end
  | _ => NoFlag
  end.

Definition set_bool (var : flag_var) (b : bool) (a : cmdArgs) : cmdArgs :=
  match var with
  | ShowVersion => {| ca_showVersion := b; ca_showLicense := ca_showLicense a; ca_showCredits := ca_showCredits a;
                      ca_flags := ca_flags a |}
  | ShowLicense => {| ca_showVersion := ca_showVersion a; ca_showLicense := b; ca_showCredits := ca_showCredits a;
                      ca_flags := ca_flags a |}
  | ShowCredits => {| ca_showVersion := ca_showVersion a; ca_showLicense := ca_showLicense a; ca_showCredits := b;
                      ca_flags := ca_flags a |}
  | Setting => a
  end.

Definition set_string (name value : string) (a : cmdArgs) : cmdArgs := {|
  ca_showVersion := ca_showVersion a; ca_showLicense := ca_showLicense a; ca_showCredits := ca_showCredits a;
  ca_flags := <[name := value]> (ca_flags a) |}.

Section parse.
(** [f.formal]: the declared flags. *)
Context (formal : string -> option flag_var).

(** [f.Parse(args)]: the loop of [parseOne]; arguments after the flags are left. *)
Fixpoint Parse (args : list string) (a : cmdArgs) : result flag_error cmdArgs :=
  match args with
  | [] => Ok a
  | s :: args =>
      match parse_arg s with
      | NoFlag | Terminator => Ok a
      | Malformed => Err (BadSyntax s)
      | Flag name value =>
          match formal name with
          | None => if String.eqb name "help" || String.eqb name "h" then Err ErrHelp else Err (NotDefined name)
          | Some Setting =>
              match value, args with
              | Some v, _ => Parse args (set_string name v a)
              | None, v :: args => Parse args (set_string name v a)
              | None, [] => Err (NeedsArgument name)
              end
          | Some var =>
              match value with
              | None => Parse args (set_bool var true a)
              | Some v =>
                  match ParseBool v with
                  | Some b => Parse args (set_bool var b a)
                  | None => Err (InvalidBool name v)
                  end
              end
          end
      end
  end.
End parse.

(** ** parseCmdArgs *)

(** [flags.BoolVar] and [flags.StringVar]; [None] when a name is declared twice,
    which panics. *)
Fixpoint declare (decls : list (string * flag_var)) (formal : gmap string flag_var) : option (gmap string flag_var) :=
  match decls with
  | [] => Some formal
  | (name, var) :: decls =>
      match formal !! name with
      | Some _ => None
      | None => declare decls (<[name := var]> formal)
      end
  end.

Definition bool_flags : list (string * flag_var) :=
  [("v", ShowVersion); ("version", ShowVersion); ("license", ShowLicense); ("credits", ShowCredits)].

Definition no_args : cmdArgs :=
  {| ca_showVersion := false; ca_showLicense := false; ca_showCredits := false; ca_flags := ∅ |}.

Definition parseCmdArgs (keys args : list string) : option (result flag_error cmdArgs) :=
  formal ← declare (bool_flags ++ ((fun k => (flag_name k, Setting)) <$> keys)) ∅;
  Some (Parse (fun name => formal !! name) args no_args).

Definition helpText : string := "Usage: fireworq [options]

  A lightweight, high performance job queue system.

Options:

  --version, -v  Show the version string.
  --license      Show the license text.
  --credits      Show the library dependencies and their licenses.
  --help, -h     Show the help message.
".

(** [flags.Usage], called on every error: what goes to standard output and to
    standard error; the empty line before each item goes to the former. *)
Fixpoint usage_items (items : list Item) : option (string * string) :=
  match items with
  | [] => Some (EmptyString, EmptyString)
  | item :: items =>
      d ← Describe item 2 (80 - 4);
      '(out, err) ← usage_items items;
      Some (println EmptyString +:+ out, str d +:+ err)
  end.

Definition usage (items : list Item) : option (string * string) :=
  '(out, err) ← usage_items items; Some (out, helpText +:+ err).

(** [mustAssetString]; a panic is [None]. *)
Definition mustAssetString (assets : string -> option string) (path : string) : option string := assets path.

Definition license_notice : string := "
   Copyright (c) 2017 The Fireworq Authors. All rights reserved.

   Licensed under the Apache License, Version 2.0 (the " +:+ dquote +:+ "License" +:+ dquote +:+ ");
   you may not use this file except in compliance with the License.
   You may obtain a copy of the License at

       http://www.apache.org/licenses/LICENSE-2.0

   Unless required by applicable law or agreed to in writing, software
   distributed under the License is distributed on an " +:+ dquote +:+ "AS IS" +:+ dquote +:+ " BASIS,
   WITHOUT WARRANTIES OR CONDITIONS OF ANY KIND, either express or implied.
   See the License for the specific language governing permissions and
   limitations under the License.

".

Definition licenseText (assets : string -> option string) : option string :=
  license ← mustAssetString assets "/LICENSE";
  authors ← mustAssetString assets "/AUTHORS";
  Some (license +:+ license_notice +:+ authors).

Definition creditsText (assets : string -> option string) : option string := mustAssetString assets "/CREDITS".

(** [main] up to the start of the server, on the arguments after the name of the
    program. *)
Definition main_process (o : fs) (getenv : string -> string) (version : string -> string)
    (assets : string -> option string) (pid : Z) (ping : string -> option string) (args : list string)
    : option main_result :=
  license ← licenseText assets;
  credits ← creditsText assets;
  let c := initDefaultConfig getenv (version "/") initial_config in
  parsed ← parseCmdArgs (Keys c) args;
  main_init o getenv version license credits pid ping
    (match parsed with Ok a => Some a | Err _ => None end).

(** ** Declared flags *)

Lemma declare_spec decls formal :
  NoDup decls.*1 -> (forall n, n ∈ decls.*1 -> formal !! n = None) ->
  exists formal', declare decls formal = Some formal' /\
    (forall n var, (n, var) ∈ decls -> formal' !! n = Some var) /\
    (forall n, n ∉ decls.*1 -> formal' !! n = formal !! n).
Proof.
  revert formal. induction decls as [|[n var] decls IH]; intros formal Hnd Hnew; simpl.
  - exists formal. split; [done|]. split; [set_solver|done].
  - apply NoDup_cons in Hnd as [Hn Hnd]. rewrite Hnew by apply list_elem_of_here.
    destruct (IH (<[n := var]> formal) Hnd) as (formal' & E & Hin & Hout).
    + intros m Hm. rewrite lookup_insert_ne by (intros ->; done). apply Hnew. by apply list_elem_of_further.
    + exists formal'. split; [done|]. split.
      * intros m v [[= -> ->]|Hm]%elem_of_cons; [|by apply Hin]. rewrite Hout by done. apply lookup_insert_eq.
      * intros m [Hne Hm]%not_elem_of_cons. rewrite Hout by done. by rewrite lookup_insert_ne.
Qed.

Lemma Keys_initDefaultConfig getenv ua : Keys (initDefaultConfig getenv ua initial_config) ≡ₚ Keys initial_config.
Proof.
  apply NoDup_Permutation; [apply NoDup_fst_map_to_list..|]. intros k. split; [|apply initDefaultConfig_keys].
  unfold initDefaultConfig.
  pose proof (Get_defaults getenv (SetDefault initial_config "dispatch_user_agent" ua) "keep_alive") as Hd.
  destruct (Get getenv (SetDefault initial_config "dispatch_user_agent" ua) "keep_alive") as [c1 v1].
  cbn [fst] in Hd. rewrite !elem_of_Keys. cbn [SetDefault defaultConf]. rewrite Hd. cbn [SetDefault defaultConf].
  rewrite !lookup_insert_is_Some'. intros [<-|[<-|[<-|[<-|H]]]]; [..|done];
    refine (bool_decide_eq_true_1 _ _); vm_compute; reflexivity.
Qed.

Lemma flag_names_distinct : NoDup ((bool_flags.*1) ++ (flag_name <$> Keys initial_config)).
Proof. apply (bool_decide_unpack _). vm_compute. done. Qed.

(** The flags [parseCmdArgs] declares for keys whose names are distinct. *)
Lemma declared_flags keys keys0 :
  keys ≡ₚ keys0 -> NoDup (bool_flags.*1 ++ (flag_name <$> keys0)) ->
  exists formal, declare (bool_flags ++ ((fun k => (flag_name k, Setting)) <$> keys)) ∅ = Some formal /\
    (forall k, k ∈ keys0 -> formal !! flag_name k = Some Setting) /\
    (forall n var, (n, var) ∈ bool_flags -> formal !! n = Some var) /\
    (forall n, n ∉ bool_flags.*1 -> n ∉ flag_name <$> keys0 -> formal !! n = None).
Proof.
  intros Hp Hnd.
  assert ((bool_flags ++ ((fun k => (flag_name k, Setting)) <$> keys)).*1 = bool_flags.*1 ++ (flag_name <$> keys)) as E.
  { by rewrite fmap_app, <- list_fmap_compose. }
  destruct (declare_spec (bool_flags ++ ((fun k => (flag_name k, Setting)) <$> keys)) ∅) as (formal & Ef & Hin & Hout).
  - by rewrite E, Hp.
  - intros n _. apply lookup_empty.
  - exists formal. split; [exact Ef|]. split_and!.
    + intros k Hk. apply Hin, elem_of_app. right. apply list_elem_of_fmap. exists k. by rewrite Hp.
    + intros n var Hn. apply Hin, elem_of_app. by left.
    + intros n H1 H2. rewrite Hout; [apply lookup_empty|]. rewrite E, Hp, elem_of_app. tauto.
Qed.

(** ** Settings on the command line *)

(** A setting, in one of the four ways to write it. *)
Record use := { u_key : string; u_value : string; u_double : bool; u_joined : bool }.

Definition render (u : use) : list string :=
  let name := (if u_double u then "--" else "-") +:+ flag_name (u_key u) in
  if u_joined u then [name +:+ "=" +:+ u_value u] else [name; u_value u].

(** A name package flag accepts: it does not begin with a dash or an equals sign,
    and has no equals sign. *)
Definition good_name (n : list ascii) : bool :=
  match n with
  | [] => false
  | c :: _ => negb (Ascii.eqb c "-"%char) && forallb (fun a => negb (Ascii.eqb a "="%char)) n
  end.

Lemma split_value_plain acc n :
  forallb (fun a => negb (Ascii.eqb a "="%char)) n = true -> split_value acc n = (rev acc ++ n, None).
Proof.
  revert acc. induction n as [|a n IH]; intros acc Hn; simpl; [by rewrite app_nil_r|].
  simpl in Hn. apply andb_true_iff in Hn as [Ha Hn]. apply negb_true_iff in Ha. rewrite Ha. simpl.
  rewrite IH by done. simpl. by rewrite <- app_assoc.
Qed.

Lemma split_value_joined (acc n v : list ascii) :
  forallb (fun a => negb (Ascii.eqb a "="%char)) n = true -> acc ++ n <> [] ->
  split_value acc (n ++ "="%char :: v) = (rev acc ++ n, Some v).
Proof.
  revert acc. induction n as [|a n IH]; intros acc Hn Hne; simpl.
  - rewrite app_nil_r in *. by rewrite bool_decide_false.
  - simpl in Hn. apply andb_true_iff in Hn as [Ha Hn]. apply negb_true_iff in Ha. rewrite Ha. simpl.
    rewrite IH by done. simpl. by rewrite <- app_assoc.
Qed.

Lemma parse_arg_name (double : bool) n v :
  good_name (chars n) = true ->
  parse_arg ((if double then "--" else "-") +:+ n) = Flag n None /\
  parse_arg ((if double then "--" else "-") +:+ n +:+ "=" +:+ v) = Flag n (Some v).
Proof.
  intros Hn. unfold parse_arg. rewrite !chars_app. destruct (chars n) as [|c l] eqn:En; [done|].
  pose proof Hn as Hgood. simpl in Hn. apply andb_true_iff in Hn as [Hc Hl]. apply andb_true_iff in Hl as [Hc' Hl].
  apply negb_true_iff in Hc, Hc'. simpl in Hgood.
  assert (str (c :: l) = n) as Es by (by rewrite <- En, str_chars).
  assert (forallb (fun a => negb (Ascii.eqb a "="%char)) (c :: l) = true) as Hall by (simpl; by rewrite Hc').
  pose proof (split_value_plain [] (c :: l) Hall) as Hp.
  pose proof (split_value_joined [] (c :: l) (chars v) Hall ltac:(done)) as Hj.
  change (rev [] ++ c :: l) with (c :: l) in Hp, Hj.
  simpl in Hp, Hj, Es. rewrite Hc' in Hp, Hj. simpl in Hp, Hj.
  destruct double; simpl; rewrite ?Hc, ?Hc'; simpl; rewrite Hp, Hj, ?Hc'; simpl;
    rewrite <- Es, str_chars; done.
Qed.

Lemma key_flags_good k : k ∈ Keys initial_config -> good_name (chars (flag_name k)) = true.
Proof.
  intros Hk. assert (Forall (fun k => good_name (chars (flag_name k)) = true) (Keys initial_config)) as H
    by (apply (bool_decide_unpack _); vm_compute; done).
  by apply (proj1 (Forall_forall _ _) H).
Qed.

Lemma Parse_use formal u rest a :
  u_key u ∈ Keys initial_config -> formal (flag_name (u_key u)) = Some Setting ->
  Parse formal (render u ++ rest) a = Parse formal rest (set_string (flag_name (u_key u)) (u_value u) a).
Proof.
  intros Hk Hf. destruct (parse_arg_name (u_double u) (flag_name (u_key u)) (u_value u) (key_flags_good _ Hk)) as [Hp Hj].
  unfold render. destruct (u_joined u); cbn [app Parse].
  - by rewrite string_app_assoc, Hj, Hf.
  - by rewrite Hp, Hf.
Qed.

Lemma Parse_uses formal uses rest a :
  Forall (fun u => u_key u ∈ Keys initial_config) uses ->
  (forall k, k ∈ Keys initial_config -> formal (flag_name k) = Some Setting) ->
  Parse formal (mbind render uses ++ rest) a =
    Parse formal rest (foldl (fun a u => set_string (flag_name (u_key u)) (u_value u) a) a uses).
Proof.
  intros Hu Hf. revert a. induction Hu as [|u uses Hk Hu IH]; intros a; [done|].
  rewrite bind_cons, <- app_assoc. cbn [foldl]. rewrite <- IH. by apply Parse_use, Hf.
Qed.

(** The value last given to a key. *)
Definition last_value (uses : list use) (k : string) : option string :=
  foldl (fun acc u => if decide (u_key u = k) then Some (u_value u) else acc) None uses.

(** Nothing more is read as a flag. *)
Definition no_more_flags (rest : list string) : Prop :=
  match rest with [] => True | s :: _ => parse_arg s = NoFlag \/ parse_arg s = Terminator end.

Lemma flag_name_inj k1 k2 : k1 ∈ Keys initial_config -> k2 ∈ Keys initial_config -> flag_name k1 = flag_name k2 -> k1 = k2.
Proof.
  pose proof flag_names_distinct as H. apply NoDup_app in H as (_ & _ & H). revert H.
  generalize (Keys initial_config). intros keys H [i Hi]%list_elem_of_lookup [j Hj]%list_elem_of_lookup E.
  assert (i = j) as <-; [|congruence].
  apply (NoDup_lookup _ _ _ (flag_name k1) H); rewrite list_lookup_fmap, ?Hi, ?Hj; simpl; congruence.
Qed.

Lemma flags_of_uses uses k a :
  Forall (fun u => u_key u ∈ Keys initial_config) uses -> k ∈ Keys initial_config ->
  ca_flags (foldl (fun a u => set_string (flag_name (u_key u)) (u_value u) a) a uses) !! flag_name k =
    foldl (fun acc u => if decide (u_key u = k) then Some (u_value u) else acc) (ca_flags a !! flag_name k) uses.
Proof.
  intros Hu Hk. revert a. induction Hu as [|u uses Hku Hu IH]; intros a; [done|]. simpl. rewrite IH. f_equal. simpl.
  destruct (decide (u_key u = k)) as [->|Hne]; [apply lookup_insert_eq|]. apply lookup_insert_ne.
  intros E. apply Hne. by apply flag_name_inj.
Qed.

Lemma shows_of_uses uses a :
  let a' := foldl (fun a u => set_string (flag_name (u_key u)) (u_value u) a) a uses in
  ca_showVersion a' = ca_showVersion a /\ ca_showLicense a' = ca_showLicense a /\ ca_showCredits a' = ca_showCredits a.
Proof. revert a. induction uses as [|u uses IH]; intros a; [done|]. apply (IH (set_string _ _ a)). Qed.

(** What the arguments of a command line come to. *)
Lemma parseCmdArgs_uses getenv ua uses rest :
  Forall (fun u => u_key u ∈ Keys initial_config) uses ->
  exists formal, (forall n var, (n, var) ∈ bool_flags -> formal n = Some var) /\
    (forall k, k ∈ Keys initial_config -> formal (flag_name k) = Some Setting) /\
    (forall n, n ∉ bool_flags.*1 -> n ∉ flag_name <$> Keys initial_config -> formal n = None) /\
    parseCmdArgs (Keys (initDefaultConfig getenv ua initial_config)) (mbind render uses ++ rest) =
      Some (Parse formal rest (foldl (fun a u => set_string (flag_name (u_key u)) (u_value u) a) no_args uses)).
Proof.
  intros Hu. destruct (declared_flags _ _ (Keys_initDefaultConfig getenv ua) flag_names_distinct)
    as (formal & Ef & Hkey & Hbool & Hnone).
  exists (fun n => formal !! n). split_and!; [exact Hbool|exact Hkey|exact Hnone|].
  unfold parseCmdArgs. rewrite Ef. cbn [mbind option_bind]. f_equal. by apply Parse_uses.
Qed.

(** C32 (roundtrip): settings written on the command line, with one dash or two, with
    an equals sign or as two arguments, reach the configuration: after start-up
    every key has the value given last on the command line, or else that of its
    environment variable, or else its default.  What follows the flags is ignored. *)
Theorem command_line_roundtrip getenv getenv' ua uses rest :
  Forall (fun u => u_key u ∈ Keys initial_config) uses -> no_more_flags rest ->
  exists a, parseCmdArgs (Keys (initDefaultConfig getenv ua initial_config)) (mbind render uses ++ rest) = Some (Ok a) /\
    ca_showVersion a = false /\ ca_showLicense a = false /\ ca_showCredits a = false /\
    forall k, k ∈ Keys initial_config ->
      (Get getenv' (startup getenv ua (ca_flags a)) k).2 = default (unflagged getenv ua k) (last_value uses k).
Proof.
  intros Hu Hrest. destruct (parseCmdArgs_uses getenv ua uses rest Hu) as (formal & _ & _ & _ & E).
  set (a := foldl _ no_args uses) in E. exists a.
  destruct (shows_of_uses uses no_args) as (Hv & Hl & Hc). split_and!; [|exact Hv|exact Hl|exact Hc|].
  - rewrite E. f_equal. destruct rest as [|s rest]; [done|]. simpl. by destruct Hrest as [-> | ->].
  - intros k Hk. rewrite startup_correct by exact Hk. unfold a. by rewrite flags_of_uses.
Qed.

(** *** Flags of both kinds *)

(** A flag on the command line: a setting, or one that makes the process print
    something, with or without a value. *)
Inductive flag_use := ISet (u : use) | IShow (double : bool) (name : string) (value : option string).

Definition render_flag (i : flag_use) : list string :=
  match i with
  | ISet u => render u
  | IShow double name value =>
      [(if double then "--" else "-") +:+ name +:+ match value with Some v => "=" +:+ v | None => EmptyString end]
  end.

Definition bool_value (value : option string) : option bool :=
  match value with Some v => ParseBool v | None => Some true end.

(** The flag is declared, and a value of a flag that shows something is a boolean. *)
Definition flag_ok (i : flag_use) : Prop :=
  match i with
  | ISet u => u_key u ∈ Keys initial_config
  | IShow _ name value => name ∈ bool_flags.*1 /\ is_Some (bool_value value)
  end.

Definition shown_by (name : string) : flag_var :=
  default Setting ((list_to_map bool_flags : gmap string flag_var) !! name).

Definition apply_flag (a : cmdArgs) (i : flag_use) : cmdArgs :=
  match i with
  | ISet u => set_string (flag_name (u_key u)) (u_value u) a
  | IShow _ name value => set_bool (shown_by name) (default false (bool_value value)) a
  end.

(** Whether the last flag for [var], if any, asks to show it. *)
Definition asks (var : flag_var) (items : list flag_use) : bool :=
  foldl (fun b i =>
    match i with
    | IShow _ name value => if decide (shown_by name = var) then default false (bool_value value) else b
    | ISet _ => b
    end) false items.

Definition settings (items : list flag_use) : list use :=
  omap (fun i => match i with ISet u => Some u | IShow _ _ _ => None end) items.

Lemma shown_by_flag name : name ∈ bool_flags.*1 -> (name, shown_by name) ∈ bool_flags /\ shown_by name <> Setting.
Proof.
  intros H. assert (Forall (fun n => (n, shown_by n) ∈ bool_flags /\ shown_by n <> Setting) bool_flags.*1) as HF.
  { repeat constructor; try discriminate; apply (bool_decide_unpack _); by vm_compute. }
  by apply (proj1 (Forall_forall _ _) HF).
Qed.

Lemma bool_flags_good name : name ∈ bool_flags.*1 -> good_name (chars name) = true.
Proof.
  intros H. assert (Forall (fun n => good_name (chars n) = true) bool_flags.*1) as HF
    by (apply (bool_decide_unpack _); by vm_compute).
  by apply (proj1 (Forall_forall _ _) HF).
Qed.

Lemma parse_arg_show (double : bool) name (value : option string) :
  name ∈ bool_flags.*1 ->
  parse_arg ((if double then "--" else "-") +:+ name +:+ match value with Some v => "=" +:+ v | None => EmptyString end) =
    Flag name value.
Proof.
  intros Hn%bool_flags_good. destruct value as [v|]; [by apply parse_arg_name|]. rewrite string_app_nil.
  by apply (parse_arg_name double name EmptyString).
Qed.

Lemma Parse_flags formal items rest a :
  Forall flag_ok items ->
  (forall n var, (n, var) ∈ bool_flags -> formal n = Some var) ->
  (forall k, k ∈ Keys initial_config -> formal (flag_name k) = Some Setting) ->
  Parse formal (mbind render_flag items ++ rest) a = Parse formal rest (foldl apply_flag a items).
Proof.
  intros Hi Hb Hf. revert a. induction Hi as [|i items Hok Hi IH]; intros a; [done|].
  rewrite bind_cons, <- app_assoc. cbn [foldl]. rewrite <- IH. destruct i as [u|double name value].
  - by apply Parse_use, Hf.
  - destruct Hok as [Hn [b Hv]]. destruct (shown_by_flag name Hn) as [Hin Hne].
    cbn [render_flag app Parse apply_flag]. rewrite (parse_arg_show double name value Hn), (Hb _ _ Hin), Hv.
    cbn [default from_option]. destruct value as [v|]; cbn [bool_value] in Hv; [rewrite Hv|injection Hv as <-];
      by destruct (shown_by name).
Qed.

Lemma flags_set_bool var b a : ca_flags (set_bool var b a) = ca_flags a.
Proof. by destruct var. Qed.

Lemma flags_of_items items k :
  Forall flag_ok items -> k ∈ Keys initial_config ->
  ca_flags (foldl apply_flag no_args items) !! flag_name k = last_value (settings items) k.
Proof.
  intros Hi Hk. unfold last_value. change (@None string) with (ca_flags no_args !! flag_name k).
  generalize no_args. induction Hi as [|i items Hok Hi IH]; intros a; [done|]. cbn [foldl]. rewrite IH.
  destruct i as [u|double name value]; cbn [apply_flag settings omap list_omap].
  - cbn [foldl set_string ca_flags]. f_equal. destruct (decide (u_key u = k)) as [->|Hne]; [apply lookup_insert_eq|].
    apply lookup_insert_ne. intros E. apply Hne. by apply flag_name_inj.
  - by rewrite flags_set_bool.
Qed.

Lemma asked_items items :
  let a := foldl apply_flag no_args items in
  ca_showVersion a = asks ShowVersion items /\ ca_showLicense a = asks ShowLicense items /\
  ca_showCredits a = asks ShowCredits items.
Proof.
  cbn zeta. unfold asks. induction items as [|i items (Hv & Hl & Hc)] using rev_ind; [done|].
  rewrite !foldl_snoc. destruct i as [u|double name value]; cbn [apply_flag]; [done|].
  destruct (shown_by name); cbn [set_bool ca_showVersion ca_showLicense ca_showCredits];
    repeat (rewrite decide_True by done || rewrite decide_False by done); done.
Qed.

(** What the flags of a command line come to. *)
Lemma parseCmdArgs_items getenv ua items rest :
  Forall flag_ok items ->
  exists formal, (forall n var, (n, var) ∈ bool_flags -> formal n = Some var) /\
    (forall k, k ∈ Keys initial_config -> formal (flag_name k) = Some Setting) /\
    (forall n, n ∉ bool_flags.*1 -> n ∉ flag_name <$> Keys initial_config -> formal n = None) /\
    parseCmdArgs (Keys (initDefaultConfig getenv ua initial_config)) (mbind render_flag items ++ rest) =
      Some (Parse formal rest (foldl apply_flag no_args items)).
Proof.
  intros Hu. destruct (declared_flags _ _ (Keys_initDefaultConfig getenv ua) flag_names_distinct)
    as (formal & Ef & Hkey & Hbool & Hnone).
  exists (fun n => formal !! n). split_and!; [exact Hbool|exact Hkey|exact Hnone|].
  unfold parseCmdArgs. rewrite Ef. cbn [mbind option_bind]. f_equal. by apply Parse_flags.
Qed.

(** An argument that package flag refuses after the flags before it. *)
Definition refused (args : list string) : Prop :=
  match args with
  | [] => False
  | s :: rest =>
      match parse_arg s with
      | NoFlag | Terminator => False
      | Malformed => True
      | Flag name value =>
          (name ∉ bool_flags.*1 /\ name ∉ flag_name <$> Keys initial_config) \/
          (name ∈ bool_flags.*1 /\ bool_value value = None) \/
          (name ∈ flag_name <$> Keys initial_config /\ value = None /\ rest = [])
      end
  end.

Lemma Parse_refused formal args a :
  (forall n var, (n, var) ∈ bool_flags -> formal n = Some var) ->
  (forall k, k ∈ Keys initial_config -> formal (flag_name k) = Some Setting) ->
  (forall n, n ∉ bool_flags.*1 -> n ∉ flag_name <$> Keys initial_config -> formal n = None) ->
  refused args -> exists err, Parse formal args a = Err err.
Proof.
  intros Hb Hs Hn. destruct args as [|s rest]; [done|]. cbn [refused Parse].
  destruct (parse_arg s) as [| | |name value]; [done|done|by eexists|].
  intros [[H1 H2]|[[H1 H2]|(H1 & -> & ->)]].
  - rewrite Hn by done. destruct (_ || _); by eexists.
  - destruct (shown_by_flag name H1) as [Hin Hne]. rewrite (Hb _ _ Hin).
    destruct value as [v|]; [|done]. cbn [bool_value] in H2. rewrite H2.
    destruct (shown_by name); [by eexists..|done].
  - apply list_elem_of_fmap in H1 as (k & -> & Hk). rewrite Hs by done. by eexists.
Qed.

(** C33 (functional): what the process does with its command line.  After any flags,
    in any order and spelling, an argument that is not a flag of the program (the
    help included), is malformed, lacks its value or has a value that is no boolean
    where one is expected ends the process with status 1, before anything is opened
    or started and even when the version or a text was asked for.  Otherwise it
    ends with status 0 after printing the version on standard error when [-v] or
    [--version] asks for it, else the license on standard output when [--license]
    does, else the credits when [--credits] does; with none of them it goes on to
    start, each key with the value given last or else that of its environment
    variable or its default.  A flag that asks to print something counts by its
    last occurrence. *)
Theorem main_process_exits o getenv version assets license credits pid ping items rest :
  licenseText assets = Some license -> creditsText assets = Some credits -> Forall flag_ok items ->
  let main := main_process o getenv version assets pid ping (mbind render_flag items ++ rest) in
  (refused rest -> main = Some (ExitCode 1 Usage)) /\
  (no_more_flags rest ->
    if asks ShowVersion items then main = Some (ExitCode 0 (ToStderr (version " " +:+ newline)))
    else if asks ShowLicense items then main = Some (ExitCode 0 (ToStdout (license +:+ newline)))
    else if asks ShowCredits items then main = Some (ExitCode 0 (ToStdout (credits +:+ newline)))
    else exists flags, main = Started <$> main_start o getenv version pid ping flags /\
      forall k, k ∈ Keys initial_config ->
        (Get getenv (startup getenv (version "/") flags) k).2 =
          default (unflagged getenv (version "/") k) (last_value (settings items) k)).
Proof.
  intros Hl Hc Hi main. unfold main, main_process. rewrite Hl, Hc. cbn [mbind option_bind].
  destruct (parseCmdArgs_items getenv (version "/") items rest Hi) as (formal & Hb & Hs & Hn & ->).
  cbn [mbind option_bind]. split.
  - intros Hr. by destruct (Parse_refused formal rest (foldl apply_flag no_args items) Hb Hs Hn Hr) as [err ->].
  - intros Hr. assert (Parse formal rest (foldl apply_flag no_args items) = Ok (foldl apply_flag no_args items)) as ->.
    { destruct rest as [|s rest]; [done|]. simpl. by destruct Hr as [-> | ->]. }
    destruct (asked_items items) as (<- & <- & <-). unfold main_init.
    destruct (ca_showVersion _); [done|]. destruct (ca_showLicense _); [done|]. destruct (ca_showCredits _); [done|].
    eexists. split; [done|]. intros k Hk. rewrite startup_correct by exact Hk. by rewrite flags_of_items.
Qed.

(** ** A command line *)

Module CommandLineRuns.
Definition uses : list use := [
  {| u_key := "bind"; u_value := ":80"; u_double := true; u_joined := true |};
  {| u_key := "queue_default"; u_value := "--q"; u_double := false; u_joined := false |};
  {| u_key := "bind"; u_value := ":8080=x"; u_double := true; u_joined := true |} ].

Example rendered : mbind render uses = ["--bind=:80"; "-queue-default"; "--q"; "--bind=:8080=x"].
Proof. vm_compute. reflexivity. Qed.

Lemma uses_ok : Forall (fun u => u_key u ∈ Keys initial_config) uses.
Proof. apply (bool_decide_unpack _). by vm_compute. Qed.

Definition getenv (v : string) : string := if String.eqb v "FIREWORQ_DRIVER" then "in-memory" else EmptyString.

Lemma command_line_roundtrip_witness :
  exists a, parseCmdArgs (Keys (initDefaultConfig getenv "ua" initial_config))
      ["--bind=:80"; "-queue-default"; "--q"; "--bind=:8080=x"; "file"] = Some (Ok a) /\
    (Get getenv (startup getenv "ua" (ca_flags a)) "bind").2 = ":8080=x" /\
    (Get getenv (startup getenv "ua" (ca_flags a)) "queue_default").2 = "--q" /\
    (Get getenv (startup getenv "ua" (ca_flags a)) "driver").2 = "in-memory".
Proof.
  destruct (command_line_roundtrip getenv getenv "ua" uses ["file"] uses_ok) as (a & E & _ & _ & _ & Hget);
    [left; reflexivity|]. exists a. rewrite rendered in E. split; [exact E|].
  assert (forall k, k ∈ ["bind"; "queue_default"; "driver"] -> k ∈ Keys initial_config) as Hk.
  { apply (proj1 (Forall_forall _ _)). apply (bool_decide_unpack _). by vm_compute. }
  split; [|split].
  - rewrite (Hget "bind") by (apply Hk, list_elem_of_here). reflexivity.
  - rewrite (Hget "queue_default") by (apply Hk, list_elem_of_further, list_elem_of_here). reflexivity.
  - rewrite (Hget "driver") by (apply Hk; do 2 apply list_elem_of_further; apply list_elem_of_here). vm_compute. reflexivity.
Defined.

Definition no_files : fs := {| fs_MkdirAll _ := Some "denied"; fs_OpenFile _ := Err "denied" |}.
Definition version (sep : string) : string := versionString "Fireworq" "1.6.18-vmx" EmptyString EmptyString sep.
Definition assets (path : string) : option string := Some path.

Definition run (args : list string) : option main_result :=
  main_process no_files getenv version assets 1 (fun _ => None) args.

Definition bind80 : flag_use := ISet {| u_key := "bind"; u_value := ":80"; u_double := true; u_joined := true |}.
Definition bare (double : bool) (name : string) : flag_use := IShow double name None.

Lemma bind80_ok : flag_ok bind80.
Proof. apply (bool_decide_unpack _). by vm_compute. Qed.

Lemma show_ok double name value :
  bool_decide (name ∈ bool_flags.*1) && match bool_value value with Some _ => true | None => false end = true ->
  flag_ok (IShow double name value).
Proof.
  intros [H1%bool_decide_eq_true H2]%andb_true_iff. split; [exact H1|]. by destruct (bool_value value).
Qed.

Ltac flags_ok :=
  repeat (apply Forall_cons_2; [first [apply bind80_ok | apply show_ok; vm_compute; reflexivity]|]); apply Forall_nil_2.

(** An unknown flag after [-v]; the version wins over the license whatever the
    order; the license and the credits; and a setting with a flag taken back. *)
Lemma main_process_exits_witness :
  run ["--bind=:80"; "-v"; "--verbose"] = Some (ExitCode 1 Usage) /\
  run ["--license"; "--bind=:80"; "-v"] = Some (ExitCode 0 (ToStderr (version " " +:+ newline))) /\
  run ["-license"; "--credits"] = Some (ExitCode 0 (ToStdout (("/LICENSE" +:+ license_notice +:+ "/AUTHORS") +:+ newline))) /\
  run ["--credits"; "--"] = Some (ExitCode 0 (ToStdout ("/CREDITS" +:+ newline))) /\
  exists flags, run ["--version"; "--bind=:80"; "--version=false"] =
      Started <$> main_start no_files getenv version 1 (fun _ => None) flags /\
    (Get getenv (startup getenv (version "/") flags) "bind").2 = ":80".
Proof.
  pose proof (main_process_exits no_files getenv version assets ("/LICENSE" +:+ license_notice +:+ "/AUTHORS") "/CREDITS" 1
    (fun _ => None)) as T.
  split; [|split; [|split; [|split]]].
  - refine (proj1 (T [bind80; bare false "v"] ["--verbose"] eq_refl eq_refl ltac:(flags_ok)) _).
    left. split; apply (bool_decide_unpack _); by vm_compute.
  - exact (proj2 (T [bare true "license"; bind80; bare false "v"] [] eq_refl eq_refl ltac:(flags_ok)) I).
  - exact (proj2 (T [bare false "license"; bare true "credits"] [] eq_refl eq_refl ltac:(flags_ok)) I).
  - exact (proj2 (T [bare true "credits"] ["--"] eq_refl eq_refl ltac:(flags_ok)) (or_intror eq_refl)).
  - destruct (proj2 (T [bare true "version"; bind80; IShow true "version" (Some "false")] [] eq_refl eq_refl
      ltac:(flags_ok)) I) as (flags & E & Hget).
    exists flags. split; [exact E|]. rewrite (Hget "bind" bind80_ok). reflexivity.
Defined.
End CommandLineRuns.
