(* ===== verification/Callback.v ===== *)
(** * The failure callback (src/jobqueue/callback.go)

    Reports a failed job to its failure URL.  No other code calls it at present;
    what it does is modelled on its own.  encoding/json and net/http are
    parameters. *)

From S2P Require Import Prelude GoStrings Job WebResponse.
Local Open Scope Z_scope.

Record FailureCallbackPayload := {
  cp_QueueName : string;
  cp_Category : string;
  cp_URL : string;
  cp_Payload : string;
  cp_Status : string;
  cp_Code : Z;
  cp_Message : string;
  cp_FailCount : Z;
}.

(** What a call does: requests and log lines, in order. *)
Inductive callback_event :=
| CallbackPost (url content_type body : string) (timeout_ns : Z)
| CallbackWarn (msg : string)
| CallbackDebug (msg : string).

Section callback.
(** [json.Marshal], and [client.Post] with the status of the response. *)
Context (marshal : FailureCallbackPayload -> result string string) (post : string -> string -> result string Z).

(** [category] is [None] when the job has no method [Category]. *)
Definition callback_payload (category : option string) (job : Job) (res : Result) (queueName : string)
    : FailureCallbackPayload := {|
  cp_QueueName := queueName;
  cp_Category := default EmptyString category;
  cp_URL := job_URL job;
  cp_Payload := job_Payload job;
  cp_Status := res_Status res;
  cp_Code := res_Code res;
  cp_Message := res_Message res;
  cp_FailCount := job_FailCount job;
|}.

Definition fireFailureCallback (failureURL : string) (category : option string) (job : Job) (res : Result)
    (queueName : string) : list callback_event :=
  match marshal (callback_payload category job res queueName) with
  | Err err => [CallbackWarn ("Failed to marshal failure callback payload: " +:+ err)]
  | Ok body =>
      CallbackPost failureURL "application/json" body (10 * ns_per_s) ::
      match post failureURL body with
      | Err err => [CallbackWarn ("Failed to send failure callback to " +:+ failureURL +:+ ": " +:+ err)]
      | Ok status =>
          if 400 <=? status then
            [CallbackWarn ("Failure callback to " +:+ failureURL +:+ " returned status " +:+ itoa status)]
          else [CallbackDebug ("Failure callback sent to " +:+ failureURL)]
      end
  end.

(** The job is reported at most once, with its own fields, and the outcome is
    logged exactly once, as a warning unless the server took it. *)
Theorem fireFailureCallback_once failureURL category job res queueName :
  exists log, (match log with CallbackPost _ _ _ _ => False | _ => True end) /\
    (fireFailureCallback failureURL category job res queueName = [log] \/
     exists body, marshal (callback_payload category job res queueName) = Ok body /\
       fireFailureCallback failureURL category job res queueName =
         [CallbackPost failureURL "application/json" body (10 * ns_per_s); log]) /\
    ((exists msg, log = CallbackDebug msg) <->
     exists body status, marshal (callback_payload category job res queueName) = Ok body /\
       post failureURL body = Ok status /\ status < 400).
Proof.
  unfold fireFailureCallback. destruct (marshal _) as [body|err].
  - destruct (post failureURL body) as [status|err] eqn:Ep; [destruct (Z.leb_spec 400 status)|].
    all: eexists; split; [|split; [right; exists body; split; [done|reflexivity]|]]; [done|].
    + split; [by intros [msg [=]]|]. intros (b & st & [= <-] & E & Hst). rewrite Ep in E. injection E as <-. lia.
    + split; [|by eauto]. intros _. exists body, status. split_and!; [done|done|lia].
    + split; [by intros [msg [=]]|]. intros (b & st & [= <-] & E & _). by rewrite Ep in E.
  - eexists. split; [|split; [by left|]]; [done|]. split; [by intros [msg [=]]|]. by intros (b & st & [=] & _).
Qed.
End callback.
