(* ===== verification/Listener.v ===== *)
(** * Listening (src/web/server.go, application.go)

    The sockets of the server and what becomes of a process that cannot open
    them.  net and the server-starter package are parameters by their outcomes. *)

From S2P Require Import Prelude GoStrings Job Server.
Local Open Scope Z_scope.

(** [serverstarter.ListenAll()]: the inherited listeners, none because the process
    does not run under start_server, or another error. *)
Inductive listen_all := Listeners (addrs : list string) | NoListeningTarget | ListenAllError (err : string).

(** [s.start()]: the addresses the server listens on; [listen] is [net.Listen]. *)
Definition server_start (all : listen_all) (listen : string -> result string string) (conf : string -> string)
    : result string (list string) :=
  match all with
  | NoListeningTarget =>
      match listen (conf "bind") with
      | Err err => Err err
      | Ok addr => Ok [addr]
      end
  | ListenAllError err => Err err
  | Listeners addrs => Ok addrs
  end.

(** [s.startGracefully(shutdownTimeout)]: when it returns (after the first signal
    once the server runs), the time that is left, and the error. *)
Definition startGracefully (started : result string (list string)) (timeout : Z) (p : stopping) : Z * Z * option string :=
  match started with
  | Err err => (0, 0, Some err)
  | Ok _ => graceful timeout p
  end.

(** [app.Serve()]: when it returns and whether the service had stopped. *)
Definition Serve (started : result string (list string)) (timeout : Z) (p : stopping) : Z * bool :=
  let '(t, remaining, _) := startGracefully started timeout p in
  if sp_service p <? Z.max 0 remaining then (t + sp_service p, true) else (t + Z.max 0 remaining, false).

(** The access log entry of a request. *)
Record access_entry := {
  ae_tag : string;
  ae_method : string;
  ae_url : string;
  ae_status : Z;
  ae_duration : Z;
  ae_remote_addr : string;
  ae_user_agent : string;
}.

(** [newServer]: the middleware around every handler; [respond] is the handler, which
    gives the status of its response. *)
Definition access_log (conf : string -> string) (method url remote_addr user_agent : string) (duration : Z)
    (respond : Z) : access_entry := {|
  ae_tag := conf "access_log_tag"; ae_method := method; ae_url := url; ae_status := respond; ae_duration := duration;
  ae_remote_addr := remote_addr; ae_user_agent := user_agent |}.

(** Under start_server the inherited sockets are used and no other is opened;
    otherwise the configured address alone. *)
Theorem server_start_sockets all listen conf addrs :
  server_start all listen conf = Ok addrs ->
  all = Listeners addrs \/ all = NoListeningTarget /\ exists addr, listen (conf "bind") = Ok addr /\ addrs = [addr].
Proof. unfold server_start. destruct all; [naive_solver| |done]. destruct (listen _); naive_solver. Qed.

(** A server that runs ends as [Server.Serve_stop] says.  When no socket can be
    opened [Serve] returns at once: the service, which has been started before and
    may have grabbed jobs, gets no time to stop. *)
Theorem Serve_without_socket all listen conf timeout p :
  (forall addrs, server_start all listen conf = Ok addrs ->
    Serve (server_start all listen conf) timeout p = Serve_stop timeout p) /\
  (forall err, 0 <= sp_service p -> server_start all listen conf = Err err ->
    Serve (server_start all listen conf) timeout p = (0, false)).
Proof.
  split.
  - intros addrs E. unfold Serve. by rewrite E.
  - intros err Hs E. unfold Serve. rewrite E. cbn [startGracefully]. change (Z.max 0 0) with 0.
    destruct (Z.ltb_spec (sp_service p) 0); [lia|done].
Qed.

Lemma Serve_without_socket_witness :
  Serve (server_start NoListeningTarget (fun _ => Err "address already in use") (fun _ => ":80")) 30000000000
    {| sp_second := None; sp_requests := 0; sp_shutdown_err := None; sp_close_err := None; sp_service := 5 |} = (0, false).
Proof.
  apply (proj2 (Serve_without_socket NoListeningTarget (fun _ => Err "address already in use") (fun _ => ":80") 30000000000
    {| sp_second := None; sp_requests := 0; sp_shutdown_err := None; sp_close_err := None; sp_service := 5 |})
    "address already in use"); [simpl; lia|reflexivity].
Defined.
