(* ===== verification/GenAuthors.v ===== *)
(** * The list of authors (src/script/genauthors)

    The script that makes AUTHORS and AUTHORS.md from .mailmap and the output of
    [git shortlog -sne].  The contributions are a map of pointers, ranged over in any
    order; a pointer is named by its key here, and the slice that is sorted holds
    these names, so that a login set through the map after the sort shows in it.
    What git prints, and what GitHub answers, are arguments. *)

From Stdlib Require Import Ascii.
From S2P Require Import Prelude GoStrings MySQLNames Repository WebResponse Descriptions GenDoc.
Local Open Scope Z_scope.

Record Contribution := { c_Login : string; c_Name : string; c_Email : string; c_Commits : Z }.

Definition bots : list string :=
  ["fireworq.github@gmail.com"; "bot@renovateapp.com"; "@users.noreply.github.com"].

Definition initial : gmap string Z := list_to_map [
  ("tarao.gnn@gmail.com", 559);
  ("shibayu36@gmail.com", 31);
  ("hakobe@gmail.com", 28);
  ("yuki.tsubo@gmail.com", 25);
  ("fly.me.to.the.moon1204@gmail.com", 17)].

(** ** Package strings *)

(** [strings.Split(s, sep)] for a single character *)
Fixpoint split_on (sep : ascii) (cur l : list ascii) : list (list ascii) :=
  match l with
  | [] => [rev cur]
  | a :: l => if Ascii.eqb a sep then rev cur :: split_on sep [] l else split_on sep (a :: cur) l
  end.

Definition split_lines (s : string) : list (list ascii) := split_on nl [] (chars s).

Fixpoint is_prefix (p l : list ascii) : bool :=
  match p, l with
  | [], _ => true
  | a :: p, b :: l => Ascii.eqb a b && is_prefix p l
  | _, [] => false
  end.

(** [strings.Contains] *)
Fixpoint contains (p l : list ascii) : bool :=
  is_prefix p l || match l with [] => false | _ :: l => contains p l end.

(** [strings.TrimSpace]: white space in UTF-8 is dropped from both ends. *)
Fixpoint trim_left (fuel : nat) (l : list ascii) : list ascii :=
  match fuel, space_width l with
  | S fuel, S w => trim_left fuel (drop (S w) l)
  | _, _ => l
  end.

Definition space_suffix (l : list ascii) : nat :=
  let ends w := (w <=? length l)%nat && (space_width (drop (length l - w) l) =? w)%nat in
  if ends 1%nat then 1%nat else if ends 2%nat then 2%nat else if ends 3%nat then 3%nat else 0%nat.

Fixpoint trim_right (fuel : nat) (l : list ascii) : list ascii :=
  match fuel, space_suffix l with
  | S fuel, S w => trim_right fuel (take (length l - S w) l)
  | _, _ => l
  end.

Definition TrimSpace (l : list ascii) : list ascii := let l := trim_left (length l) l in trim_right (length l) l.

(** ** Lines *)

(** A name, spaces and an email in angle brackets up to the end of the line: the
    group of the name takes all but one of the spaces before the first bracket. *)
Definition match_person (l : list ascii) : option (list ascii * list ascii) :=
  '(before, rest) ← cut "<"%char l;
  match rev before with
  | a :: name =>
      if Ascii.eqb a " "%char then
        '(email, after) ← cut ">"%char rest;
        match after with [] => Some (rev name, email) | _ => None end
      else None
  | [] => None
  end.

(** The three groups of the two expressions. *)
Definition regexMailmap (l : list ascii) : option (list ascii * list ascii * list ascii) :=
  '(name, email) ← match_person l; Some ([], name, email).

Definition regexContribution (l : list ascii) : option (list ascii * list ascii * list ascii) :=
  let '(digits, rest) := span is_digit l in
  match digits, rest with
  | _ :: _, a :: rest =>
      if Ascii.eqb a "009"%char then '(name, email) ← match_person rest; Some (digits, name, email) else None
  | _, _ => None
  end.

Definition parseContribution (regex : list ascii -> option (list ascii * list ascii * list ascii)) (line : list ascii)
    : option Contribution :=
  let line := TrimSpace line in
  if bool_decide (line = []) then None
  else
    '(m1, m2, m3) ← regex line;
    if existsb (fun pat => contains (chars pat) m3) bots then None
    else
      commits ← (match m1 with
                 | [] => Some (default 0 (initial !! str m3))
                 | _ => Atoi m1
                 end);
      Some {| c_Login := EmptyString; c_Name := str m2; c_Email := str m3; c_Commits := commits |}.

(** ** Contributions *)

Definition mailmap_line (m : gmap string Contribution) (line : list ascii) : gmap string Contribution :=
  match parseContribution regexMailmap line with
  | None => m
  | Some c =>
      if c_Commits c <=? 0 then m
      else match m !! c_Email c with Some _ => m | None => <[c_Email c := c]> m end
  end.

Definition add_commits (n : Z) (c : Contribution) : Contribution :=
  {| c_Login := c_Login c; c_Name := c_Name c; c_Email := c_Email c; c_Commits := i64 (c_Commits c + n) |}.

Definition shortlog_line (m : gmap string Contribution) (line : list ascii) : gmap string Contribution :=
  match parseContribution regexContribution line with
  | None => m
  | Some c =>
      if c_Commits c <=? 0 then m
      else match m !! c_Email c with
           | Some first => <[c_Email c := add_commits (c_Commits c) first]> m
           | None => <[c_Email c := c]> m
           end
  end.

Definition contributions (mailmap shortlog : string) : gmap string Contribution :=
  foldl shortlog_line (foldl mailmap_line ∅ (split_lines mailmap)) (split_lines shortlog).

(** The comparison of the sort, on the keys of the contributions. *)
Definition contribution_less (m : gmap string Contribution) (a b : string) : bool :=
  match m !! a, m !! b with
  | Some x, Some y =>
      let diff := i64 (c_Commits x - c_Commits y) in
      (0 <? diff) || ((diff =? 0) && String.ltb (c_Email x) (c_Email y))
  | _, _ => false
  end.

(** ** GitHub accounts *)

Record GitHubUserMatch := { gm_Property : string; gm_Fragment : string }.
Record GitHubUser := { gu_Login : string; gu_Matches : list GitHubUserMatch }.

Section github.
(** [url.PathEscape], the body of the response of a request or an error, and
    [json.Unmarshal] of it. *)
Context (PathEscape : string -> string) (do_request : string -> result string string)
  (unmarshal : string -> result string (list GitHubUser)).

Fixpoint join_strings (sep : string) (l : list string) : string :=
  match l with
  | [] => EmptyString
  | [s] => s
  | s :: l => s +:+ sep +:+ join_strings sep l
  end.

Definition add_new {A} (m : gmap string A) (k : string) (v : A) : gmap string A :=
  match m !! k with Some _ => m | None => <[k := v]> m end.

Definition getGitHubLoginNames1 (emails : list string) : result string (gmap string string) :=
  match emails with
  | [] => Ok ∅
  | _ =>
      let queries := (fun email => PathEscape email +:+ "%20in:email") <$> emails in
      match do_request ("https://api.github.com/search/users?q=" +:+ join_strings "%20OR%20" queries) with
      | Err err => Err err
      | Ok body =>
          match unmarshal body with
          | Err err => Err err
          | Ok users =>
              Ok (foldl (fun r u => foldl (fun r m => add_new r (gm_Fragment m) (gu_Login u)) r (gu_Matches u)) ∅ users)
          end
      end
  end.

(** Five at a time; [order] is the order in which a result is ranged over, errors
    are ignored.  As many rounds as there are emails are enough. *)
Fixpoint login_names (fuel : nat) (order : list (string * string) -> list (string * string)) (emails : list string)
    (acc : gmap string string) : gmap string string :=
  match fuel, emails with
  | S fuel, _ :: _ =>
      let acc :=
        match getGitHubLoginNames1 (take 5 emails) with
        | Ok r => foldl (fun acc kv => add_new acc kv.1 kv.2) acc (order (map_to_list r))
        | Err _ => acc
        end in
      login_names fuel order (drop 5 emails) acc
  | _, _ => acc
  end.

Definition getGitHubLoginNames order (emails : list string) : gmap string string :=
  login_names (length emails) order emails ∅.
End github.

(** ** Output *)

Definition plain_row (c : Contribution) : string := c_Name c +:+ " <" +:+ c_Email c +:+ ">" +:+ newline.

Definition markdown_row (c : Contribution) : string :=
  "|" +:+ c_Name c +:+ "|<" +:+ c_Email c +:+ ">|" +:+
  (if String.eqb (c_Login c) EmptyString then EmptyString
   else "[@" +:+ c_Login c +:+ "](https://github.com/" +:+ c_Login c +:+ ")") +:+
  "|" +:+ itoa (c_Commits c) +:+ "|" +:+ newline.

Definition plain (items : list Contribution) : string :=
  "# This is the official list of Fireworq authors for copyright purposes.

# This file is automatically generated by
# script/genauthors/genauthors.go.  Items are automatically added by
# git shortlog -sne.  Please add rules to .mailmap to keep it
# canonical (see " +:+ dquote +:+ "MAPPING AUTHORS" +:+ dquote +:+ " section of git help shortlog for
# the notation of the rules).

# Individual Persons

" +:+ concat_strings (plain_row <$> items) +:+ "
## Organizations

Hatena Co., Ltd.
".

Definition markdown (items : list Contribution) : string :=
  "<!-- DO NOT MODIFY : this file is automatically generated by script/genauthors/genauthors.go -->

# Authors

This is the official list of Fireworq authors for copyright purposes.

## Individual Persons

|Name |E-mail  |GitHub|Commits |
|:----|:-------|:-----|-------:|
" +:+ concat_strings (markdown_row <$> items) +:+ "
Items are automatically added by `git shortlog -sne`.  Please add rules to [`.mailmap`](.mailmap) to keep it canonical (see " +:+ dquote +:+ "MAPPING AUTHORS" +:+ dquote +:+ " section of `git help shortlog` for the notation of the rules).  E-mail field must match your public E-mail setting on your GitHub account if you wish to show your GitHub account name.

## Organizations

- [Hatena Co., Ltd.](http://hatenacorp.jp/)

".

Definition set_login (logins : gmap string string) (c : Contribution) : Contribution :=
  match logins !! c_Email c with
  | Some login => {| c_Login := login; c_Name := c_Name c; c_Email := c_Email c; c_Commits := c_Commits c |}
  | None => c
  end.

(** [main]; [order] is the order in which the map is ranged over, [logins] what
    [getGitHubLoginNames] returns for the emails in that order. *)
Definition genauthors (format mailmap shortlog : string) (order : list string -> list string)
    (logins : list string -> gmap string string) : string :=
  let m := contributions mailmap shortlog in
  let emails := order (map_to_list m).*1 in
  let items := sort_slice (contribution_less m) emails in
  if String.eqb format "markdown" then
    let m := set_login (logins emails) <$> m in
    markdown (omap (fun e => m !! e) items)
  else plain (omap (fun e => m !! e) items).

(** ** Theorems *)

(** The persons of a text: the lines that parse, with at least one commit. *)
Definition persons (regex : list ascii -> option (list ascii * list ascii * list ascii)) (lines : list (list ascii))
    : list Contribution :=
  filter (fun c => 0 < c_Commits c) (omap (parseContribution regex) lines).

Definition by_email (e : string) (l : list Contribution) : list Contribution := filter (fun c => c_Email c = e) l.

Definition sum_commits (l : list Contribution) : Z := foldr (fun c n => c_Commits c + n) 0 l.

(** All commits of an email: those before the release, if it is in the mailmap, and
    those of every line of the log. *)
Definition total_commits (mailmap shortlog e : string) : Z :=
  from_option c_Commits 0 (head (by_email e (persons regexMailmap (split_lines mailmap)))) +
  sum_commits (by_email e (persons regexContribution (split_lines shortlog))).

Lemma sum_commits_pos regex lines e : 0 <= sum_commits (by_email e (persons regex lines)).
Proof.
  unfold persons, by_email. induction (omap _ lines) as [|c l IH]; [done|].
  rewrite filter_cons. destruct (decide (0 < c_Commits c)); [|done].
  rewrite filter_cons. destruct (decide (c_Email c = e)); simpl in *; lia.
Qed.

(** One line, as far as an email is concerned. *)
Lemma persons_cons regex line lines :
  persons regex (line :: lines) =
    match parseContribution regex line with
    | Some c => if decide (0 < c_Commits c) then c :: persons regex lines else persons regex lines
    | None => persons regex lines
    end.
Proof. unfold persons. simpl. destruct (parseContribution regex line); [|done]. by rewrite filter_cons. Qed.

Lemma mailmap_lookup lines m e :
  foldl mailmap_line m lines !! e =
    match m !! e with Some c => Some c | None => head (by_email e (persons regexMailmap lines)) end.
Proof.
  revert m. induction lines as [|line lines IH]; intros m; simpl; [by destruct (m !! e)|].
  rewrite IH, persons_cons. unfold mailmap_line. destruct (parseContribution regexMailmap line) as [c|]; [|done].
  destruct (Z.leb_spec (c_Commits c) 0), (decide (0 < c_Commits c)); try lia; [done|].
  unfold by_email. rewrite filter_cons. destruct (decide (c_Email c = e)) as [<-|Hne].
  - destruct (m !! c_Email c) eqn:E; [by rewrite E|]. by rewrite lookup_insert_eq.
  - destruct (m !! c_Email c); [done|]. by rewrite lookup_insert_ne.
Qed.

Lemma head_by_email e l c : head (by_email e l) = Some c -> c ∈ l /\ c_Email c = e.
Proof.
  unfold by_email. intros H. destruct (filter (fun c => c_Email c = e) l) as [|c' k] eqn:E; [done|]. injection H as ->.
  assert (c ∈ filter (fun c => c_Email c = e) l) as Hin by (rewrite E; apply list_elem_of_here).
  apply list_elem_of_filter in Hin. tauto.
Qed.

(** A line of the log, as far as one email is concerned. *)
Lemma shortlog_line_lookup m line e :
  shortlog_line m line !! e =
    match parseContribution regexContribution line with
    | Some c =>
        if decide (0 < c_Commits c /\ c_Email c = e) then
          Some (match m !! e with Some first => add_commits (c_Commits c) first | None => c end)
        else m !! e
    | None => m !! e
    end.
Proof.
  unfold shortlog_line. destruct (parseContribution regexContribution line) as [c|]; [|done].
  destruct (Z.leb_spec (c_Commits c) 0); [by rewrite decide_False by lia|].
  destruct (decide (0 < c_Commits c /\ c_Email c = e)) as [[_ <-]|Hn].
  - destruct (m !! c_Email c); apply lookup_insert_eq.
  - assert (c_Email c <> e) by tauto. destruct (m !! c_Email c); by apply lookup_insert_ne.
Qed.

(** The lines of the log add up. *)
Lemma shortlog_lookup lines m e :
  (forall c, m !! e = Some c -> c_Email c = e /\ 0 < c_Commits c) ->
  let l := by_email e (persons regexContribution lines) in
  let base := from_option c_Commits 0 (m !! e) in
  base + sum_commits l <= i64_max ->
  let r := foldl shortlog_line m lines !! e in
  (is_Some r <-> is_Some (m !! e) \/ l <> []) /\
  forall c, r = Some c -> c_Email c = e /\ c_Commits c = base + sum_commits l /\ 0 < c_Commits c.
Proof.
  intros Hm l base. subst l base. revert m Hm. induction lines as [|line lines IH]; intros m Hm Hb; simpl.
  - split; [tauto|]. intros c Hc. rewrite Hc. simpl. destruct (Hm c Hc). split_and!; [done|lia|done].
  - pose proof (shortlog_line_lookup m line e) as Hline.
    pose proof (sum_commits_pos regexContribution lines e) as Hpos. rewrite persons_cons in *.
    destruct (parseContribution regexContribution line) as [c|]; [|rewrite <- Hline in *; by apply IH].
    destruct (decide (0 < c_Commits c)) as [Hc|]; [|rewrite decide_False in Hline by tauto; rewrite <- Hline in *; by apply IH].
    unfold by_email in *. rewrite filter_cons in *. destruct (decide (c_Email c = e)) as [He|Hne];
      [|rewrite decide_False in Hline by tauto; rewrite <- Hline in *; by apply IH].
    rewrite decide_True in Hline by done. simpl in Hb.
    set (c' := match m !! e with Some first => add_commits (c_Commits c) first | None => c end) in Hline.
    assert (c_Email c' = e /\ c_Commits c' = from_option c_Commits 0 (m !! e) + c_Commits c) as [He' Hc'].
    { unfold c'. destruct (m !! e) as [first|]; simpl in *; [|done]. destruct (Hm first eq_refl).
      split; [done|]. apply i64_id. word. }
    assert (0 <= from_option c_Commits 0 (m !! e)) by (destruct (m !! e) as [f|]; simpl; [destruct (Hm f eq_refl); lia|lia]).
    destruct (IH (shortlog_line m line)) as [H1 H2]; rewrite Hline in *; cbn [from_option] in *.
    + intros x [= <-]. split; [done|lia].
    + lia.
    + split; [rewrite H1; split; [by right|eauto]|]. intros x Hx. destruct (H2 x Hx) as (H3 & H4 & H5).
      split_and!; [done|simpl; lia|done].
Qed.

(** What the map of contributions holds. *)
Lemma contributions_lookup mailmap shortlog e :
  total_commits mailmap shortlog e <= i64_max ->
  (is_Some (contributions mailmap shortlog !! e) <-> 0 < total_commits mailmap shortlog e) /\
  forall c, contributions mailmap shortlog !! e = Some c ->
    c_Email c = e /\ c_Commits c = total_commits mailmap shortlog e /\ 0 < c_Commits c.
Proof.
  intros Ht. unfold contributions, total_commits in *.
  pose proof (mailmap_lookup (split_lines mailmap) ∅ e) as Hm. rewrite lookup_empty in Hm.
  rewrite <- Hm in *. set (m := foldl mailmap_line ∅ (split_lines mailmap)) in *.
  assert (forall c, m !! e = Some c -> c_Email c = e /\ 0 < c_Commits c) as Hpos.
  { intros c Hc. rewrite Hm in Hc. apply head_by_email in Hc as [Hin He]. split; [done|].
    unfold persons in Hin. apply list_elem_of_filter in Hin. tauto. }
  destruct (shortlog_lookup (split_lines shortlog) m e Hpos Ht) as [H1 H2]. split; [|exact H2]. split.
  - intros [c Hc]. destruct (H2 c Hc) as (_ & E & Hc0). rewrite <- E. exact Hc0.
  - intros Hlt. apply H1. destruct (m !! e) as [c|] eqn:Ec; [left; eauto|]. right. intros E. rewrite E in Hlt. simpl in Hlt. lia.
Qed.

(** *** Order *)

Lemma sort_slice_ext {A} (less less' : A -> A -> bool) l :
  (forall x y, x ∈ l -> y ∈ l -> less x y = less' x y) -> sort_slice less l = sort_slice less' l.
Proof.
  assert (forall x k, (forall y, y ∈ k -> less y x = less' y x) -> sort_insert less x k = sort_insert less' x k) as Hi.
  { intros x k. induction k as [|y k IH]; intros H; [done|]. simpl. rewrite H by apply list_elem_of_here.
    destruct (less' y x); [|done]. f_equal. apply IH. intros z Hz. apply H. by apply list_elem_of_further. }
  induction l as [|x l IH]; intros H; [done|]. unfold sort_slice in *. simpl. rewrite IH.
  - apply Hi. intros y Hy. apply H; [|apply list_elem_of_here].
    apply list_elem_of_further. by rewrite <- (sort_slice_perm less' l).
  - intros a b Ha Hb. apply H; by apply list_elem_of_further.
Qed.

(** The order without the detour over a difference. *)
Definition commits_of (m : gmap string Contribution) (e : string) : Z := from_option c_Commits 0 (m !! e).

Definition author_less (m : gmap string Contribution) (a b : string) : bool :=
  (commits_of m b <? commits_of m a) || ((commits_of m a =? commits_of m b) && String.ltb a b).

#[export] Instance author_less_order m : LessOrder (author_less m).
Proof.
  pose proof (name_less_order (fun x : string => x)) as [Ha Hn]. unfold name_less in Ha, Hn. split; unfold author_less.
  - intros a b [H|[H1 H2]%andb_true_iff]%orb_true_iff; [apply orb_false_iff; split; [lia|]; apply andb_false_iff; lia|].
    rewrite (Ha _ _ H2), andb_false_r, orb_false_r. lia.
  - intros a b c [H1 H2]%orb_false_iff [H3 H4]%orb_false_iff. apply orb_false_iff. split; [lia|].
    apply andb_false_iff in H2, H4. apply andb_false_iff.
    destruct H2 as [H2|H2]; [left; lia|]. destruct H4 as [H4|H4]; [left; lia|].
    right. by apply (Hn a b c).
Qed.

Lemma author_leq_antisym m a b : leq (author_less m) a b -> leq (author_less m) b a -> a = b.
Proof.
  unfold leq, author_less. intros [H1 H2]%orb_false_iff [H3 H4]%orb_false_iff.
  apply andb_false_iff in H2 as [H2|H2]; [lia|]. apply andb_false_iff in H4 as [H4|H4]; [lia|].
  by apply (name_leq_antisym (fun x : string => x)).
Qed.

Lemma omap_ext {A B} (f g : A -> option B) (l : list A) : (forall x, f x = g x) -> omap f l = omap g l.
Proof. intros H. induction l as [|x l IH]; [done|]. simpl. rewrite H. destruct (g x); [f_equal|]; exact IH. Qed.

Section authors.
Context (mailmap shortlog : string) (Hbound : forall e, total_commits mailmap shortlog e <= i64_max).
Local Notation m := (contributions mailmap shortlog).

Lemma contribution_less_author a b :
  is_Some (m !! a) -> is_Some (m !! b) -> contribution_less m a b = author_less m a b.
Proof.
  intros [x Hx] [y Hy]. unfold contribution_less, author_less, commits_of. rewrite Hx, Hy. simpl.
  destruct (proj2 (contributions_lookup _ _ _ (Hbound a)) x Hx) as (<- & Ex & Hx0).
  destruct (proj2 (contributions_lookup _ _ _ (Hbound b)) y Hy) as (<- & Ey & Hy0).
  pose proof (Hbound (c_Email x)). pose proof (Hbound (c_Email y)).
  rewrite i64_id by word. f_equal; [lia|]. f_equal. lia.
Qed.

(** The sorted keys, whatever the order of the map. *)
Lemma sorted_keys order :
  (forall l, order l ≡ₚ l) ->
  sort_slice (contribution_less m) (order (map_to_list m).*1) = sort_slice (author_less m) (map_to_list m).*1.
Proof.
  intros Ho. assert (forall e, e ∈ order (map_to_list m).*1 -> is_Some (m !! e)) as Hin.
  { intros e He. rewrite Ho in He. apply list_elem_of_fmap in He as ([k c] & -> & Hk%elem_of_map_to_list). eauto. }
  rewrite (sort_slice_ext _ (author_less m)) by (intros; by apply contribution_less_author; apply Hin).
  apply sort_slice_unique; [apply _| |apply Ho]. intros x y _ _. apply author_leq_antisym.
Qed.
End authors.

(** C39 (functional): the list of authors.  Its entries are the emails with at
    least one commit that are not those of bots, each with the sum of its commits in
    the log and, if the mailmap names it, of those before the release; they are
    listed by descending number of commits and then by email, and the output does
    not depend on the order in which Go ranges over the map. *)
Theorem genauthors_correct mailmap shortlog :
  (forall e, total_commits mailmap shortlog e <= i64_max) ->
  let m := contributions mailmap shortlog in
  (forall e, is_Some (m !! e) <-> 0 < total_commits mailmap shortlog e) /\
  (forall e c, m !! e = Some c -> c_Email c = e /\ c_Commits c = total_commits mailmap shortlog e) /\
  exists keys, keys ≡ₚ (map_to_list m).*1 /\ StronglySorted (leq (author_less m)) keys /\
    forall format order logins, (forall l, order l ≡ₚ l) ->
      genauthors format mailmap shortlog order logins =
        if String.eqb format "markdown" then
          markdown (omap (fun e => set_login (logins (order (map_to_list m).*1)) <$> m !! e) keys)
        else plain (omap (fun e => m !! e) keys).
Proof.
  intros Hbound m. split_and!.
  - intros e. apply contributions_lookup, Hbound.
  - intros e c Hc. by destruct (proj2 (contributions_lookup _ _ _ (Hbound e)) c Hc) as (He & Ec & _).
  - exists (sort_slice (author_less m) (map_to_list m).*1). split; [apply sort_slice_perm|].
    split; [apply sort_slice_sorted, _|]. intros format order logins Ho. unfold genauthors. cbv zeta.
    rewrite (sorted_keys _ _ Hbound order Ho). fold m. destruct (String.eqb format "markdown"); [|done].
    f_equal. apply omap_ext. intros e. apply lookup_fmap.
Qed.

(** ** AUTHORS.md *)

Module AuthorsRuns.
(** .mailmap *)
Definition mailmap : string := "INA Lintaro <tarao.gnn@gmail.com>
SHIBAZAKI Yuki <shibayu36@gmail.com>
FUSHII Yohei <hakobe@gmail.com>
TSUBOUCHI Yuuki <yuki.tsubo@gmail.com>
SHIBAHATA Tsugihito <fly.me.to.the.moon1204@gmail.com>
MURATA Satoshi <rw.satoshi.murata@gmail.com>
".

(** A log, and the accounts GitHub knows, that give AUTHORS.md as it is in the
    repository. *)
Definition shortlog : string := "     1	yuuji.yaginuma <yuuji.yaginuma@gmail.com>
     1	uchan-nos <uchan0@gmail.com>
     1	MURATA Satoshi <rw.satoshi.murata@gmail.com>
     1	Elizabeth Paige Harper <foxcapade@gmail.com>
     1	Edward Betts <edward@4angle.com>
     1	Davor Kapsa <davor.kapsa@gmail.com>
     1	Sai Warang <cyprusad@gmail.com>
     1	Thomas Broadley <buriedunderbooks@hotmail.com>
     2	IKEDA Sho <suicaicoca@gmail.com>
     2	kanozec <kanozec@gmail.com>
     5	Windymelt <windymelt@3qe.us>
     5	Fumihiro Itoh <fmhrit@gmail.com>
    14	Spencer Su <spencer.su@mitacmdt.com>
    15	Spencer Su <powers@ms1.url.com.tw>
    23	Tomohiro Nishimura <tomohiro68@gmail.com>
    32	yigarashi <yigarashi@hatena.ne.jp>
    75	itchyny <itchyny@hatena.ne.jp>
   161	INA Lintaro <tarao.gnn@gmail.com>
     9	renovate[bot] <bot@renovateapp.com>
".

Definition logins : gmap string string := list_to_map [
  ("tarao.gnn@gmail.com", "tarao");
  ("shibayu36@gmail.com", "shibayu36");
  ("hakobe@gmail.com", "hakobe");
  ("yuki.tsubo@gmail.com", "yuuki");
  ("tomohiro68@gmail.com", "Sixeight");
  ("fmhrit@gmail.com", "f110");
  ("suicaicoca@gmail.com", "ikesyo");
  ("buriedunderbooks@hotmail.com", "tbroadley");
  ("davor.kapsa@gmail.com", "dvrkps");
  ("edward@4angle.com", "EdwardBetts");
  ("yuuji.yaginuma@gmail.com", "y-yagi")].

Definition authors_md : string := "<!-- DO NOT MODIFY : this file is automatically generated by script/genauthors/genauthors.go -->

# Authors

This is the official list of Fireworq authors for copyright purposes.

## Individual Persons

|Name |E-mail  |GitHub|Commits |
|:----|:-------|:-----|-------:|
|INA Lintaro|<tarao.gnn@gmail.com>|[@tarao](https://github.com/tarao)|720|
|itchyny|<itchyny@hatena.ne.jp>||75|
|yigarashi|<yigarashi@hatena.ne.jp>||32|
|SHIBAZAKI Yuki|<shibayu36@gmail.com>|[@shibayu36](https://github.com/shibayu36)|31|
|FUSHII Yohei|<hakobe@gmail.com>|[@hakobe](https://github.com/hakobe)|28|
|TSUBOUCHI Yuuki|<yuki.tsubo@gmail.com>|[@yuuki](https://github.com/yuuki)|25|
|Tomohiro Nishimura|<tomohiro68@gmail.com>|[@Sixeight](https://github.com/Sixeight)|23|
|SHIBAHATA Tsugihito|<fly.me.to.the.moon1204@gmail.com>||17|
|Spencer Su|<powers@ms1.url.com.tw>||15|
|Spencer Su|<spencer.su@mitacmdt.com>||14|
|Fumihiro Itoh|<fmhrit@gmail.com>|[@f110](https://github.com/f110)|5|
|Windymelt|<windymelt@3qe.us>||5|
|kanozec|<kanozec@gmail.com>||2|
|IKEDA Sho|<suicaicoca@gmail.com>|[@ikesyo](https://github.com/ikesyo)|2|
|Thomas Broadley|<buriedunderbooks@hotmail.com>|[@tbroadley](https://github.com/tbroadley)|1|
|Sai Warang|<cyprusad@gmail.com>||1|
|Davor Kapsa|<davor.kapsa@gmail.com>|[@dvrkps](https://github.com/dvrkps)|1|
|Edward Betts|<edward@4angle.com>|[@EdwardBetts](https://github.com/EdwardBetts)|1|
|Elizabeth Paige Harper|<foxcapade@gmail.com>||1|
|MURATA Satoshi|<rw.satoshi.murata@gmail.com>||1|
|uchan-nos|<uchan0@gmail.com>||1|
|yuuji.yaginuma|<yuuji.yaginuma@gmail.com>|[@y-yagi](https://github.com/y-yagi)|1|

Items are automatically added by `git shortlog -sne`.  Please add rules to [`.mailmap`](.mailmap) to keep it canonical (see " +:+ dquote +:+ "MAPPING AUTHORS" +:+ dquote +:+ " section of `git help shortlog` for the notation of the rules).  E-mail field must match your public E-mail setting on your GitHub account if you wish to show your GitHub account name.

## Organizations

- [Hatena Co., Ltd.](http://hatenacorp.jp/)

".

Example authors_md_generated :
  genauthors "markdown" mailmap shortlog (fun l => rev l) (fun _ => logins) = authors_md.
Proof. vm_compute. reflexivity. Qed.

(** Only the emails of the two texts have commits, each a small number. *)
Lemma totals_bounded e : total_commits mailmap shortlog e <= i64_max.
Proof.
  unfold total_commits.
  assert (forall l, Forall (fun c => 0 <= c_Commits c) l -> forall e', sum_commits (by_email e' l) <= sum_commits l) as Hsum.
  { intros l Hl e'. unfold by_email. induction Hl as [|c l Hc Hl IH]; [done|]. rewrite filter_cons.
    destruct (decide (c_Email c = e')); simpl; lia. }
  assert (forall l n, Forall (fun c => c_Commits c <= n) l -> 0 <= n ->
    from_option c_Commits 0 (head (by_email e l)) <= n) as Hhead.
  { intros l n Hl Hn. destruct (head (by_email e l)) as [c|] eqn:E; [|done]. apply head_by_email in E as [Hin _].
    by apply (proj1 (Forall_forall _ _) Hl). }
  assert (sum_commits (persons regexContribution (split_lines shortlog)) <= 10000) as Hs by (vm_compute; discriminate).
  assert (Forall (fun c => 0 <= c_Commits c) (persons regexContribution (split_lines shortlog))) as Hp
    by (apply (bool_decide_unpack _); vm_compute; done).
  assert (Forall (fun c => c_Commits c <= 1000) (persons regexMailmap (split_lines mailmap))) as Hm
    by (apply (bool_decide_unpack _); vm_compute; done).
  specialize (Hsum _ Hp e). specialize (Hhead _ _ Hm). unfold i64_max. lia.
Qed.

Lemma genauthors_correct_witness :
  exists c, contributions mailmap shortlog !! "tarao.gnn@gmail.com" = Some c /\ c_Commits c = 720 /\
    total_commits mailmap shortlog "tarao.gnn@gmail.com" = 720.
Proof.
  destruct (genauthors_correct mailmap shortlog totals_bounded) as (Hin & Hc & _).
  assert (total_commits mailmap shortlog "tarao.gnn@gmail.com" = 720) as E by (vm_compute; reflexivity).
  destruct (proj2 (Hin "tarao.gnn@gmail.com")) as [c Ec]; [rewrite E; reflexivity|].
  exists c. split; [exact Ec|]. split; [|exact E]. rewrite <- E. exact (proj2 (Hc _ _ Ec)).
Defined.
End AuthorsRuns.
